(* ===== verification/_CoqProject ===== *)
-Q . S2P
Prelude.v
GoStrings.v
GoPath.v
GoTime.v
Config.v
World.v
Event.v
Scope.v
Network.v
Window.v
WindowTheory.v
Sha256.v
HashCache.v
Blacklist.v
Polling.v
PollingTheory.v
PollingRefine.v
Generated.v
Bpfel.v
Bpfeb.v
Objects.v
Interface.v
Sensor.v
Loading.v
Attach.v
AttachTheory.v
Coverage.v
Hooks.v
Agent.v
AgentTheory.v
AgentSafety.v
AgentInv.v
AgentFD.v
AgentProps.v
AgentIdentity.v
Pipeline.v
EndToEnd.v
Threads.v
Workers.v
Interleaving.v
Detection.v
Systemd.v
Main.v
Scenarios.v
Deployment.v
