(* ===== verification/Prelude.v ===== *)
(** * Verification of ebpffls, an eBPF anti-ransomware guard

    The program (src/cmd, src/internal) loads BPF programs, reads the file
    events they report, keeps a sliding window of suspicious activity for each
    process, and alerts on, denies or kills a process that looks like
    ransomware.  This library translates its Go code to Rocq functions and
    proves what makes it correct.

    ** The parts and how they interact

    [cmd/ebpffls] reads the flags, loads a policy ([internal/config]), starts
    the sensor ([internal/sensor]), tells systemd ([internal/systemd]) and runs
    the agent ([internal/agent]).  The sensor tries the runtime modes core,
    legacy_perf and ultra_legacy_map in turn, attaches the programs of the mode
    and opens an event reader; one goroutine decodes its records and sends them
    on a channel.  The agent receives from that channel and from its timers,
    keeps its tables, and asks the sensor to block processes; two more
    goroutines hash executables and scan procfs for blacklisted ones.

    ** Files

    - Prelude: record update, machine integers, the monad [M] for code with
      effects, its Hoare triples and the tactic [keeps_auto].
    - GoStrings, GoPath, GoTime: what the code uses of strings, strconv,
      path/filepath and time.
    - World: the outside as an oracle: query [k] of a run is answered by the
      [k]-th answer, so two readings of the clock or of a file may differ.
    - Config: config.go ([Load], [LoadMany], [mergePolicies], [normalize]).
    - Event: event.go and uptime.go ([DecodeEvent] for both ABI versions and
      byte orders, [eventTimestamp]).
    - Scope, Network: the predicates of agent.go on paths, cgroups, names and
      addresses.
    - Window, WindowTheory: [procState] and the window arithmetic of agent.go
      ([recordFeatures], [rebuildWindow], [prune], rules).
    - Sha256, HashCache: hash_cache.go over a definition of SHA-256.
    - Blacklist: blacklist.go and the procfs readers.
    - Generated: what a file generated by bpf2go declares, and the layout of Go
      structs.  Bpfel, Bpfeb: the six generated files of internal/sensor for
      little-endian and big-endian hosts.  Objects: the objects the sensor
      fills, how handles of programs and maps are closed, and which file an
      architecture builds.
    - Interface: what the agent needs of the sensor, as a class with laws.
    - Sensor: the maps and the enforcement calls of sensor.go; it is the
      instance of Interface.
    - Polling, PollingTheory: the event readers of sensor.go.  PollingRefine:
      what one visit of a CPU does, against what its slot shows.
    - Loading: mode selection and grouped loading of sensor.go.
    - Attach, AttachTheory: attaching, [initialize], [Close], the loaders and
      the fallback between modes.  Coverage: the hooks a started sensor must
      have.  Hooks: the deny hooks it has and those it reports.
    - Agent: [New], [handle] and everything it calls, timers, the two blacklist
      workers, [Run].
    - AgentTheory, AgentSafety, AgentInv, AgentFD, AgentProps: its theorems.
      AgentIdentity: cached identities across exec, by relating two runs.
    - Pipeline: the goroutine of [Events], the channels, the context and the
      [select] of [Run], as a transition system.  EndToEnd: from a record to
      an alert, through decoder, channel and agent.
    - Threads: goroutines as programs of atomic actions, run in any
      interleaving, with a rely-guarantee logic.  Workers: the loop of [Run]
      with all its handlers and timers, [hashWorker] and [scanBlacklist] as
      such programs.  Interleaving: what holds in every interleaving of them.
      Detection: the same together with the goroutine of [Events].
    - Systemd: notify.go.  Main: main.go.
    - Scenarios, Deployment: concrete hosts on which hypotheses hold.

    A record has the fields of its Go struct, a definition the name of its Go
    function; a Go error is [None] or a left injection.  Maps are [gmap], sets
    [gset], a map whose values are not used the set of its keys; integers are
    [Z] with the wrap-around written out.  What only logs is left out, except
    that alerts, kills and systemd messages are part of the state.

    ** What the theorems show

    - The whole program: [monitor] leaves the host as it found it, and without
      arguments it only observes; a record that shows an indicator is alerted
      on, however the goroutines of the sensor and of the agent interleave.
    - Start-up: nothing leaks whatever fails; deny is never silently degraded;
      a started sensor is what was configured, has every required hook and
      reports exactly the deny hooks attached.
    - Delivery: events arrive in order and complete in every interleaving,
      cancellation ends both goroutines, the polling reader accounts for every
      sequence number, does at each visit what the slot calls for, terminates
      and stays in its shard.
    - Detection: indicators, stated without the code's own tests, are acted on at
      once, a scored event alerts exactly
      when due, the incremental window equals the recomputed one, blocked
      lineages are killed, the descriptor table refines an abstract one, the
      identity cached before an exec plays no role after it, a reloaded
      blacklist matches exactly the digests listed.
    - Safety: every action has a logged cause; dry-run touches nothing; tables
      stay bounded; pruning keeps what is live.
    - Concurrency: in every interleaving of the critical sections of the
      agent's goroutines, also in the middle of an operation, every action has
      a logged cause, the invariant of the agent holds, dry-run touches nothing
      and a block is only removed if that very entry had expired; without
      interference the programs are the sequential operations of Agent.
    - Generated files: both files of an object bind and close the same fields,
      and what the sensor writes to the maps has the compiled layout.
    - Decoding and configuration: round trips of records, absence of panics,
      well-formedness of loaded policies, associativity of merging.
    - Some theorems record behaviour that differs from the documentation or the
      evident intent (blank extensions, mappings of backup files, unresolved
      cgroup scopes, undecodable records, blocks without expiry).

    ** Bounds and fuel

    [drain] (Polling) runs with one unit of fuel per CPU plus one per record of
    a full batch, which [pollBatch_terminates] proves enough.  [perfRead] takes
    the number of library reads to model; its theorem covers every number.  The
    lists of signals, inputs and ticks given to [Run], [watchdogLoop] and the
    pipeline are arbitrary, so loops that run until the context ends are
    covered at every length; so are the rounds of the two workers and the
    signals of [Run] in Workers; a pool with given numbers of rounds ends by
    construction ([pool_sn], Threads), which says nothing of the workers' own
    loops.  Every other function is structurally recursive.

    ** Not modelled

    The BPF programs in C; the kernel and github.com/cilium/ebpf, which answer
    as an oracle; YAML decoding, flag parsing and the syntax of addresses,
    which are parameters; log output.  Of the generated files the loading
    functions that nothing calls and the embedded object code.  Goroutines
    interleave at critical sections, queries of the outside and operations on
    tables only one of them uses; the memory model below that is Go's, for
    programs without data races.  The integration test tool
    under src/tests is not part of the program. *)
From Stdlib Require Export Ascii.
From stdpp Require Export base gmap strings list sorting numbers pretty.
From Stdlib Require Export ZArith Lia.

Declare Scope go_scope.
Delimit Scope go_scope with go.
#[export] Set Default Goal Selector "!".
Global Open Scope Z_scope.

(** ** Functional record update

    [r <| f := v |>] is the record [r] with field [f] replaced, as a Go
    assignment [r.f = v] does.  An instance of [Eta] lists the fields of a
    record once; the setters are derived from it. *)
Class Eta (R : Type) : Type := eta : R → R.
Class Setter {R E : Type} (proj : R → E) : Type := mkSetter { set : (E → E) → R → R }.
Arguments set {R E} proj {_} _ _.
Arguments mkSetter {R E proj} _.

Ltac derive_setter :=
  match goal with
  | |- @Setter ?R ?E ?p =>
      assert_fails (has_evar p); assert_fails (has_evar R);
      let inst := constr:(_ : Eta R) in
      let body := eval red in inst in
      match eval pattern p in body with
      | ?f _ =>
          lazymatch f with
          | fun _ => ?b => fail "no such field:" p
          | _ => idtac
          end;
          let s := eval cbv beta in (fun (g : E → E) => f (fun r => g (p r))) in
          exact (mkSetter s)
      end
  end.
#[export] Hint Extern 1 (Setter _) => derive_setter : typeclass_instances.

Notation "r <| f := v |>" := (set f (fun _ => v) r)
  (at level 1, f at level 0, v at level 99, left associativity) : go_scope.
Notation "r <| f ::= g |>" := (set f g r)
  (at level 1, f at level 0, g at level 99, left associativity) : go_scope.
Global Open Scope go_scope.

(** ** Machine integers

    A Go integer is a [Z] in the range of its type; [wrap_u w] and [wrap_s w]
    are the conversions to the unsigned and the two's-complement [w]-bit
    types, which is also what an arithmetic operation of that type does with
    its exact result. *)
Definition wrap_u (w z : Z) : Z := z mod 2 ^ w.
Definition wrap_s (w z : Z) : Z := (z + 2 ^ (w - 1)) mod 2 ^ w - 2 ^ (w - 1).

Abbreviation uint8 := (wrap_u 8) (only parsing).
Abbreviation uint32 := (wrap_u 32) (only parsing).
Abbreviation uint64 := (wrap_u 64) (only parsing).
Abbreviation int32 := (wrap_s 32) (only parsing).
Abbreviation int64 := (wrap_s 64) (only parsing).

Definition maxInt64 : Z := 2 ^ 63 - 1.
Definition minInt64 : Z := - 2 ^ 63.
Definition is_int64 (z : Z) : Prop := minInt64 ≤ z ≤ maxInt64.
Definition is_uint32 (z : Z) : Prop := 0 ≤ z < 2 ^ 32.
Definition is_uint64 (z : Z) : Prop := 0 ≤ z < 2 ^ 64.

(** [int] is 64 bits wide on every platform the program supports. *)
Definition int_add (x y : Z) : Z := wrap_s 64 (x + y).
Infix "+ᵢ" := int_add (at level 50, left associativity) : go_scope.

Lemma wrap_u_range w z : 0 ≤ w → 0 ≤ wrap_u w z < 2 ^ w.
Proof. intros. unfold wrap_u. apply Z.mod_pos_bound. lia. Qed.

Lemma wrap_u_small w z : 0 ≤ z < 2 ^ w → wrap_u w z = z.
Proof. intros. unfold wrap_u. by apply Z.mod_small. Qed.

Lemma wrap_s_range w z : 0 < w → - 2 ^ (w - 1) ≤ wrap_s w z < 2 ^ (w - 1).
Proof.
  intros. unfold wrap_s.
  assert (2 ^ w = 2 * 2 ^ (w - 1)) by (rewrite <- Z.pow_succ_r by lia; f_equal; lia).
  pose proof (Z.mod_pos_bound (z + 2 ^ (w - 1)) (2 ^ w)).
  assert (0 < 2 ^ (w - 1)) by lia. lia.
Qed.

Lemma wrap_s_small w z : 0 < w → - 2 ^ (w - 1) ≤ z < 2 ^ (w - 1) → wrap_s w z = z.
Proof.
  intros. unfold wrap_s.
  assert (2 ^ w = 2 * 2 ^ (w - 1)) by (rewrite <- Z.pow_succ_r by lia; f_equal; lia).
  rewrite Z.mod_small by lia. lia.
Qed.

Lemma int64_small z : is_int64 z → int64 z = z.
Proof. unfold is_int64, minInt64, maxInt64. intros. apply wrap_s_small; lia. Qed.

Lemma int64_range z : is_int64 (int64 z).
Proof. pose proof (wrap_s_range 64 z). unfold is_int64, minInt64, maxInt64. lia. Qed.

Lemma int_add_small x y : is_int64 (x + y) → x +ᵢ y = x + y.
Proof. apply int64_small. Qed.

(** Wrapping the left operand of a sum is absorbed by the outer wrap. *)
Lemma wrap_s_add_l w x y : 0 < w → wrap_s w (wrap_s w x + y) = wrap_s w (x + y).
Proof.
  intros. unfold wrap_s. f_equal.
  replace ((x + 2 ^ (w - 1)) mod 2 ^ w - 2 ^ (w - 1) + y + 2 ^ (w - 1))
    with ((x + 2 ^ (w - 1)) mod 2 ^ w + y) by lia.
  rewrite Z.add_mod_idemp_l by lia. f_equal. lia.
Qed.

Lemma int_add_wrap_l x y : int64 x +ᵢ y = int64 (x + y).
Proof. apply wrap_s_add_l. lia. Qed.

(** ** Slices *)

(** [s[len(s)-n:]], guarded by [len(s) > n] as the program guards it. *)
Definition keep_last {A} (n : nat) (l : list A) : list A := drop (length l - n) l.

Lemma keep_last_length {A} n (l : list A) : (length (keep_last n l) ≤ n)%nat.
Proof. unfold keep_last. rewrite length_drop. lia. Qed.

Lemma keep_last_all {A} n (l : list A) : (length l ≤ n)%nat → keep_last n l = l.
Proof. intros. unfold keep_last. replace (length l - n)%nat with 0%nat by lia. done. Qed.

Lemma keep_last_app {A} n (l k : list A) :
  keep_last n (keep_last n l ++ k) = keep_last n (l ++ k).
Proof.
  unfold keep_last at 1 3. rewrite !length_app.
  destruct (decide (length l ≤ n)%nat).
  { by rewrite keep_last_all by done. }
  unfold keep_last. rewrite length_drop.
  destruct (decide (n ≤ length k)%nat).
  - rewrite !drop_app_ge by (rewrite ?length_drop; lia).
    rewrite length_drop. f_equal. lia.
  - rewrite !drop_app_le by (rewrite ?length_drop; lia).
    rewrite drop_drop. f_equal. f_equal. lia.
Qed.

Lemma keep_last_incl {A} n (l : list A) x : x ∈ keep_last n l → x ∈ l.
Proof.
  unfold keep_last. intros [i Hi]%list_elem_of_lookup. rewrite lookup_drop in Hi.
  apply list_elem_of_lookup. eauto.
Qed.

Lemma filter_length_all {A} (f : A → bool) l :
  length (List.filter f l) = length l → List.filter f l = l.
Proof.
  induction l as [|x l IH]; simpl; [done|]. pose proof (List.filter_length_le f l).
  destruct (f x); simpl; [intros Hl; rewrite IH; [done|lia]|lia].
Qed.
Lemma filter_all {A} (f : A → bool) l : Forall (λ x, f x) l → List.filter f l = l.
Proof. induction 1 as [|x l Hx _ IH]; simpl; [done|]. destruct (f x); [by rewrite IH|done]. Qed.

(** ** Effectful code

    A handler over a state [S] is a function of [M S]: besides the state it
    threads a counter of the queries made so far to the outside world (clock,
    procfs, file system, kernel maps).  The outside world is an oracle that
    answers query [k] (class [World] of World.v), so two readings of the clock
    in one handler may differ. *)
Definition M (S A : Type) : Type := nat → S → A * nat * S.

#[export] Instance M_ret S : MRet (M S) := λ A x n s, (x, n, s).
#[export] Instance M_bind S : MBind (M S) := λ A B f m n s,
  let '(a, n', s') := m n s in f a n' s'.

Definition getS {S} : M S S := λ n s, (s, n, s).
Definition modS {S} (f : S → S) : M S () := λ n s, ((), n, f s).
(** The next query, answered by [f]. *)
Definition ask {S A} (f : nat → A) : M S A := λ n s, (f n, Datatypes.S n, s).
Definition forM {S A} (l : list A) (f : A → M S ()) : M S () :=
  foldr (λ x k, f x ;; k) (mret ()) l.
(** [b && m()], which does not call [m] when [b] is false; [if b { m() }]. *)
Definition andM {S} (b : bool) (m : M S bool) : M S bool := if b then m else mret false.
Definition when {S} (b : bool) (m : M S ()) : M S () := if b then m else mret ().
(** Run a handler of a component inside a handler of its owner. *)
Definition zoom {S T A} (get : T → S) (put : S → T → T) (m : M S A) : M T A :=
  λ n t, let '(a, n', s') := m n (get t) in (a, n', put s' t).

Definition result {S A} (m : M S A) (n : nat) (s : S) : A := (m n s).1.1.
Definition after {S A} (m : M S A) (n : nat) (s : S) : S := (m n s).2.

(** The oracle is only asked forward. *)
Definition advances {S A} (m : M S A) : Prop := ∀ n s, (n ≤ (m n s).1.2)%nat.

(** Hoare triples for [M]: from a state in [P], [m] returns a value and a
    state in [Q], whatever the oracle answered before. *)
Definition triple {S A} (P : S → Prop) (m : M S A) (Q : A → S → Prop) : Prop :=
  ∀ n s, P s → Q (result m n s) (after m n s).

(** [m] maintains [I] whatever it returns. *)
Definition keeps {S A} (I : S → Prop) (m : M S A) : Prop := triple I m (λ _, I).

Create HintDb go.

Section triples.
Context {S : Type}.
Implicit Types (P I : S → Prop).

Lemma triple_ret {A} P (x : A) Q : (∀ s, P s → Q x s) → triple P (mret x) Q.
Proof. intros H n s. apply H. Qed.

Lemma triple_bind {A B} P (m : M S A) (f : A → M S B) R Q :
  triple P m R → (∀ a, triple (R a) (f a) Q) → triple P (m ≫= f) Q.
Proof.
  intros Hm Hf n s HP. specialize (Hm n s HP).
  unfold result, after, mbind, M_bind in *.
  destruct (m n s) as [[a n'] s']. by apply Hf.
Qed.

Lemma triple_conseq {A} P P' (m : M S A) Q Q' :
  triple P' m Q' → (∀ s, P s → P' s) → (∀ a s, Q' a s → Q a s) → triple P m Q.
Proof. intros H HP HQ n s Hs. by apply HQ, H, HP. Qed.

Lemma keeps_ret {A} I (x : A) : keeps I (mret x).
Proof. by apply triple_ret. Qed.
Lemma keeps_bind {A B} I (m : M S A) (f : A → M S B) :
  keeps I m → (∀ a, keeps I (f a)) → keeps I (m ≫= f).
Proof. apply triple_bind. Qed.
Lemma keeps_get I : keeps I getS.
Proof. by intros n s. Qed.
Lemma keeps_ask {A} I (f : nat → A) : keeps I (ask f).
Proof. by intros n s. Qed.
Lemma keeps_mod I f : (∀ s, I s → I (f s)) → keeps I (modS f).
Proof. intros H n s. apply H. Qed.
Lemma keeps_for {A} I (l : list A) f : (∀ x, x ∈ l → keeps I (f x)) → keeps I (forM l f).
Proof.
  induction l as [|x l IH]; intros H; [apply keeps_ret|].
  apply keeps_bind; [apply H; set_solver|].
  intros []. apply IH. set_solver.
Qed.
Lemma keeps_if {A} I (b : bool) (m1 m2 : M S A) :
  (b = true → keeps I m1) → (b = false → keeps I m2) → keeps I (if b then m1 else m2).
Proof. destruct b; auto. Qed.

Lemma keeps_andM I b m : (b = true → keeps I m) → keeps I (andM b m).
Proof. intros. apply keeps_if; auto using keeps_ret. Qed.
Lemma keeps_when I b m : (b = true → keeps I m) → keeps I (when b m).
Proof. intros. apply keeps_if; auto using keeps_ret. Qed.

(** To maintain [I] with an early return in one branch, it is enough to do so
    in the two branches. *)
Lemma keeps_else {A} I (m : M S A) (b : A → bool) (e d : M S ()) :
  keeps I (x ← m; when (b x) e) → keeps I d → keeps I (x ← m; if b x then e else d).
Proof.
  intros He Hd n s Hs. specialize (He n s Hs). unfold result, after, mbind, M_bind in *.
  destruct (m n s) as [[x n'] s']. destruct (b x); [done|]. by apply Hd.
Qed.

(** [m] maintains [I] and returns a value in [Q]. *)
Definition yields {A} I (m : M S A) (Q : A → Prop) : Prop := triple I m (λ x s, I s ∧ Q x).
Lemma yields_keeps {A} I (m : M S A) Q : yields I m Q → keeps I m.
Proof. intros H. eapply triple_conseq; [apply H|done|]. by intros ? ? []. Qed.
Lemma keeps_yields {A} I (m : M S A) : keeps I m → yields I m (λ _, True).
Proof. intros H. eapply triple_conseq; [apply H|done|]. done. Qed.
Lemma yields_ret {A} I (x : A) (Q : A → Prop) : Q x → yields I (mret x) Q.
Proof. by intros ? n s. Qed.
Lemma yields_bind {A B} I (m : M S A) (f : A → M S B) Q R :
  yields I m Q → (∀ x, Q x → yields I (f x) R) → yields I (m ≫= f) R.
Proof.
  intros Hm Hf. eapply triple_bind; [apply Hm|]. intros x n s [HI HQ]. by apply (Hf x HQ).
Qed.
Lemma yields_keeps_bind {A B} I (m : M S A) (f : A → M S B) Q :
  yields I m Q → (∀ x, Q x → keeps I (f x)) → keeps I (m ≫= f).
Proof.
  intros Hm Hf. eapply triple_bind; [apply Hm|]. intros x n s [HI HQ]. by apply (Hf x HQ).
Qed.
Lemma keeps_yields_bind {A B} I (m : M S A) (f : A → M S B) R :
  keeps I m → (∀ x, yields I (f x) R) → yields I (m ≫= f) R.
Proof. intros Hm Hf. eapply triple_bind; [apply Hm|]. intros x. apply Hf. Qed.
(** Reading the state. *)
Lemma yields_get I : yields I getS I.
Proof. by intros n s. Qed.

Lemma advances_ret {A} (x : A) : advances (mret (M := M S) x).
Proof. intros n s. cbn. lia. Qed.
Lemma advances_bind {A B} (m : M S A) (f : A → M S B) :
  advances m → (∀ x, advances (f x)) → advances (m ≫= f).
Proof.
  intros Hm Hf n s. specialize (Hm n s). unfold mbind, M_bind. destruct (m n s) as [[x n'] s'].
  specialize (Hf x n' s'). cbn in *. lia.
Qed.
Lemma advances_get : advances (getS (S := S)).
Proof. intros n s. cbn. lia. Qed.
Lemma advances_mod (f : S → S) : advances (modS f).
Proof. intros n s. cbn. lia. Qed.
Lemma advances_ask {A} (f : nat → A) : advances (ask (S := S) f).
Proof. intros n s. cbn. lia. Qed.

(** A handler that reads the state: the continuation may assume what the
    state satisfied when it was read. *)
Lemma triple_get {B} P (f : S → M S B) Q :
  (∀ s0, P s0 → triple (λ s, s = s0) (f s0) Q) → triple P (getS ≫= f) Q.
Proof. intros H n s HP. by apply (H s HP n s). Qed.
Lemma keeps_get_bind {B} I (f : S → M S B) :
  (∀ s0, I s0 → triple (λ s, I s ∧ s = s0) (f s0) (λ _, I)) → keeps I (getS ≫= f).
Proof. intros H n s HI. by apply (H s HI n s). Qed.
End triples.

#[export] Hint Resolve keeps_ret keeps_get keeps_ask keeps_mod keeps_for : go.

(** Walk down the control structure of a handler, leaving the obligations of
    its basic steps. *)
Ltac keeps_step :=
  match goal with
  | |- keeps _ (_ ≫= _) => apply keeps_bind; [|intros ?]
  | |- keeps _ (andM _ _) => apply keeps_andM; intros ?
  | |- keeps _ (when _ _) => apply keeps_when; intros ?
  | |- keeps _ (if _ then _ else _) => apply keeps_if; intros ?
  | |- keeps _ (match ?x with _ => _ end) => destruct x eqn:?
  | |- keeps _ (let _ := _ in _) => cbv zeta
  | |- keeps _ _ => solve [eauto with go]
  end.
Ltac keeps_auto := repeat keeps_step.
Ltac advances_auto := repeat
  match goal with
  | |- advances (_ ≫= _) => apply advances_bind; [|intros ?]
  | |- advances (mret _) => apply advances_ret
  | |- advances getS => apply advances_get
  | |- advances (modS _) => apply advances_mod
  | |- advances (ask _) => apply advances_ask
  | |- advances (when _ _) => unfold when
  | |- advances (match ?x with _ => _ end) => destruct x
  | |- advances (let _ := _ in _) => cbv zeta
  | |- advances _ => solve [eauto with go]
  end.
