(* ===== verification/GoStrings.v ===== *)
(** * The parts of Go's [strings] and [strconv] the program uses

    A Go string is a sequence of bytes; a Rocq [string] is a sequence of
    8-bit [ascii] characters, so the two coincide.  [TrimSpace] and [Fields]
    are modelled for every input: white space is Unicode's, recognised by its
    UTF-8 encodings.  [ToLower] is exact on ASCII strings; its table for other
    runes is the parameter [Unicode], over which everything is generic. *)
From S2P Require Import Prelude.

(** ** Bytes *)
Definition byte_of (c : ascii) : Z := Z.of_N (N_of_ascii c).
Definition chr (z : Z) : ascii := ascii_of_N (Z.to_N z).

Lemma byte_of_range c : 0 ≤ byte_of c < 256.
Proof.
  unfold byte_of. pose proof (N_ascii_bounded c). lia.
Qed.

Lemma chr_byte_of c : chr (byte_of c) = c.
Proof. unfold chr, byte_of. rewrite N2Z.id. apply ascii_N_embedding. Qed.

Lemma byte_of_chr z : 0 ≤ z < 256 → byte_of (chr z) = z.
Proof.
  intros. unfold chr, byte_of. rewrite N_ascii_embedding by lia. lia.
Qed.

Fixpoint bytes (s : string) : list Z :=
  match s with
  | EmptyString => []
  | String c s => byte_of c :: bytes s
  end.

(** [string(b)] for a byte slice [b]. *)
Fixpoint of_bytes (l : list Z) : string :=
  match l with
  | [] => EmptyString
  | z :: l => String (chr z) (of_bytes l)
  end.

Lemma of_bytes_bytes s : of_bytes (bytes s) = s.
Proof. induction s as [|c s IH]; simpl; [done|]. by rewrite chr_byte_of, IH. Qed.

Lemma bytes_of_bytes l : Forall (λ z, 0 ≤ z < 256) l → bytes (of_bytes l) = l.
Proof. induction 1; simpl; [done|]. rewrite byte_of_chr by done. by f_equal. Qed.

(** [len(s)] *)
Definition len (s : string) : Z := Z.of_nat (String.length s).

(** ** Concatenation and prefixes *)
Lemma str_app_assoc (a b c : string) : (a +:+ b) +:+ c = a +:+ (b +:+ c).
Proof.
  induction a as [|x a IH]; [done|].
  change (String x ((a +:+ b) +:+ c) = String x (a +:+ (b +:+ c))). by rewrite IH.
Qed.
Lemma str_app_cons x (a b : string) : String x a +:+ b = String x (a +:+ b).
Proof. done. Qed.
Lemma str_app_nil_l (a : string) : "" +:+ a = a.
Proof. done. Qed.
Lemma str_app_nil_r (a : string) : a +:+ "" = a.
Proof. induction a as [|x a IH]; [done|]. by rewrite str_app_cons, IH. Qed.
Lemma str_length_app (a b : string) :
  String.length (a +:+ b) = (String.length a + String.length b)%nat.
Proof. induction a as [|x a IH]; [done|]. rewrite str_app_cons. simpl. by rewrite IH. Qed.

(** [strings.HasPrefix(s, p)] *)
Fixpoint HasPrefix (s p : string) {struct p} : bool :=
  match p, s with
  | EmptyString, _ => true
  | String c p, String d s => Ascii.eqb d c && HasPrefix s p
  | _, _ => false
  end.

Lemma HasPrefix_spec s p : HasPrefix s p = true ↔ ∃ t, s = p +:+ t.
Proof.
  revert s. induction p as [|c p IH]; intros s; simpl.
  { split; [exists s|]; done. }
  destruct s as [|d s].
  { split; [done|]. intros [t Ht]. by rewrite str_app_cons in Ht. }
  rewrite andb_true_iff, Ascii.eqb_eq, IH. split.
  - intros [-> [t ->]]. by exists t.
  - intros [t Ht]. rewrite str_app_cons in Ht. simplify_eq. eauto.
Qed.

(** [strings.TrimPrefix(s, p)] *)
Fixpoint drop_str (n : nat) (s : string) : string :=
  match n, s with
  | S n, String _ s => drop_str n s
  | _, _ => s
  end.
Definition TrimPrefix (s p : string) : string :=
  if HasPrefix s p then drop_str (String.length p) s else s.

(** [strings.TrimSuffix(s, p)] *)
Definition TrimSuffix (s p : string) : string :=
  String.rev (TrimPrefix (String.rev s) (String.rev p)).

(** [strings.Split(s, sep)] for a one-byte separator. *)
Fixpoint Split (sep : ascii) (s : string) : list string :=
  match s with
  | EmptyString => [""]
  | String c s =>
      if Ascii.eqb c sep then "" :: Split sep s
      else match Split sep s with
           | [] => [String c ""]
           | x :: l => String c x :: l
           end
  end.

(** [strings.SplitN(s, sep, n)] for [n > 0]: at most [n] pieces, the last one
    unsplit. *)
Fixpoint SplitN (sep : ascii) (n : nat) (s : string) {struct s} : list string :=
  match n with
  | O => []
  | S O => [s]
  | S n' =>
      match s with
      | EmptyString => [""]
      | String c s =>
          if Ascii.eqb c sep then "" :: SplitN sep n' s
          else match SplitN sep n s with
               | [] => [String c ""]
               | x :: l => String c x :: l
               end
      end
  end.

(** [strings.Join(l, sep)] *)
Fixpoint Join (sep : string) (l : list string) : string :=
  match l with
  | [] => ""
  | [x] => x
  | x :: l => x +:+ sep +:+ Join sep l
  end.

(** ** White space *)
Definition ascii_space (c : ascii) : bool :=
  let b := byte_of c in ((9 <=? b) && (b <=? 13)) || (b =? 32).
(** U+0085 and U+00A0 *)
Definition space2 (c d : ascii) : bool :=
  (byte_of c =? 194) && ((byte_of d =? 133) || (byte_of d =? 160)).
(** U+1680, U+2000 to U+200A, U+2028, U+2029, U+202F, U+205F, U+3000 *)
Definition space3 (c d e : ascii) : bool :=
  let x := byte_of c in let y := byte_of d in let z := byte_of e in
  ((x =? 225) && (y =? 154) && (z =? 128))
  || ((x =? 226) && (y =? 128)
      && (((128 <=? z) && (z <=? 138)) || (z =? 168) || (z =? 169) || (z =? 175)))
  || ((x =? 226) && (y =? 129) && (z =? 159))
  || ((x =? 227) && (y =? 128) && (z =? 128)).

(** Strip leading white space; [TrimRightRev] does the same on a reversed
    string, where an encoding reads backwards. *)
Fixpoint TrimLeft (s : string) : string :=
  match s with
  | EmptyString => ""
  | String c s1 =>
      if ascii_space c then TrimLeft s1
      else match s1 with
           | EmptyString => s
           | String d s2 =>
               if space2 c d then TrimLeft s2
               else match s2 with
                    | EmptyString => s
                    | String e s3 => if space3 c d e then TrimLeft s3 else s
                    end
           end
  end.
Fixpoint TrimLeftRev (s : string) : string :=
  match s with
  | EmptyString => ""
  | String c s1 =>
      if ascii_space c then TrimLeftRev s1
      else match s1 with
           | EmptyString => s
           | String d s2 =>
               if space2 d c then TrimLeftRev s2
               else match s2 with
                    | EmptyString => s
                    | String e s3 => if space3 e d c then TrimLeftRev s3 else s
                    end
           end
  end.
(** [strings.TrimSpace(s)] *)
Definition TrimSpace (s : string) : string :=
  String.rev (TrimLeftRev (String.rev (TrimLeft s))).

(** [strings.Fields(s)]: [cur] is the field being read, if any. *)
Fixpoint fields_go (cur : string) (s : string) : list string :=
  let flush := if bool_decide (cur = "") then [] else [cur] in
  match s with
  | EmptyString => flush
  | String c s1 =>
      if ascii_space c then flush ++ fields_go "" s1
      else match s1 with
           | EmptyString => fields_go (cur +:+ String c "") s1
           | String d s2 =>
               if space2 c d then flush ++ fields_go "" s2
               else match s2 with
                    | EmptyString => fields_go (cur +:+ String c "") s1
                    | String e s3 =>
                        if space3 c d e then flush ++ fields_go "" s3
                        else fields_go (cur +:+ String c "") s1
                    end
           end
  end.
Definition Fields (s : string) : list string := fields_go "" s.

(** ** Letter case *)
Definition ascii_lower (c : ascii) : ascii :=
  let b := byte_of c in if (65 <=? b) && (b <=? 90) then chr (b + 32) else c.
Fixpoint map_str (f : ascii → ascii) (s : string) : string :=
  match s with
  | EmptyString => EmptyString
  | String c s => String (f c) (map_str f s)
  end.
Fixpoint is_ascii (s : string) : bool :=
  match s with
  | EmptyString => true
  | String c s => (byte_of c <? 128) && is_ascii s
  end.

(** The Unicode case tables: what [strings.ToLower] makes of a string that
    has a byte above 127. *)
Class Unicode : Type := unicode_ToLower : string → string.
(** [strings.ToLower(s)] *)
Definition ToLower `{Unicode} (s : string) : string :=
  if is_ascii s then map_str ascii_lower s else unicode_ToLower s.

(** [strings.EqualFold(s, t)] for a [t] whose letters have no case variants
    outside ASCII, as ["deny"] has none. *)
Definition EqualFold (s t : string) : bool :=
  bool_decide (map_str ascii_lower s = map_str ascii_lower t).

(** ** Numbers *)
Definition digit (c : ascii) : option Z :=
  let b := byte_of c in if (48 <=? b) && (b <=? 57) then Some (b - 48) else None.
Fixpoint digits_go (acc : Z) (s : string) : option Z :=
  match s with
  | EmptyString => Some acc
  | String c s => d ← digit c; digits_go (acc * 10 + d) s
  end.
(** [strconv.ParseUint(s, 10, bits)] *)
Definition ParseUint (s : string) (bits : Z) : option Z :=
  match s with
  | EmptyString => None
  | _ => n ← digits_go 0 s; if n <? 2 ^ bits then Some n else None
  end.
Definition ParseSigned (neg : bool) (s : string) (bits : Z) : option Z :=
  n ← ParseUint s bits;
  if neg then if n <=? 2 ^ (bits - 1) then Some (- n) else None
  else if n <? 2 ^ (bits - 1) then Some n else None.
(** [strconv.ParseInt(s, 10, bits)] *)
Definition ParseInt (s : string) (bits : Z) : option Z :=
  match s with
  | EmptyString => None
  | String c s' =>
      if Ascii.eqb c "-" then ParseSigned true s' bits
      else if Ascii.eqb c "+" then ParseSigned false s' bits else ParseSigned false s bits
  end.

Lemma digits_go_nonneg s acc n : 0 ≤ acc → digits_go acc s = Some n → 0 ≤ n.
Proof.
  revert acc. induction s as [|c s IH]; intros acc Hacc; simpl; [naive_solver|].
  unfold digit. case_match; simpl; [|done]. apply IH.
  pose proof (byte_of_range c). lia.
Qed.

Lemma ParseUint_range s bits n : ParseUint s bits = Some n → 0 ≤ n < 2 ^ bits.
Proof.
  unfold ParseUint. destruct s as [|c s]; [done|].
  destruct (digits_go 0 (String c s)) as [m|] eqn:E; [|done]. simpl.
  apply digits_go_nonneg in E; [|done]. case_match; [|done]. intros. simplify_eq. lia.
Qed.

Lemma ParseSigned_range neg s bits n :
  0 < bits → ParseSigned neg s bits = Some n → - 2 ^ (bits - 1) ≤ n < 2 ^ (bits - 1).
Proof.
  intros Hb. assert (0 < 2 ^ (bits - 1)) by lia.
  unfold ParseSigned. destruct (ParseUint s bits) as [m|] eqn:E; [|done]. simpl.
  apply ParseUint_range in E. destruct neg; case_match; intros; simplify_eq; lia.
Qed.

Lemma ParseInt_range s bits n :
  0 < bits → ParseInt s bits = Some n → - 2 ^ (bits - 1) ≤ n < 2 ^ (bits - 1).
Proof.
  intros Hb. unfold ParseInt. destruct s as [|c s]; [done|].
  repeat case_match; by apply ParseSigned_range.
Qed.

Lemma str_app_inj_l (a b c : string) : a +:+ b = a +:+ c → b = c.
Proof. apply (inj (String.app a)). Qed.

(** ** Reversal *)
Lemma rev_app_spec s t : String.rev_app s t = String.rev s +:+ t.
Proof.
  unfold String.rev. revert t. induction s as [|c s IH]; intros t; simpl; [done|].
  rewrite (IH (String c t)), (IH (String c "")). by rewrite str_app_assoc.
Qed.
Lemma rev_cons c s : String.rev (String c s) = String.rev s +:+ String c "".
Proof. unfold String.rev at 1. simpl. apply rev_app_spec. Qed.
Lemma rev_app_distr s t : String.rev (s +:+ t) = String.rev t +:+ String.rev s.
Proof.
  induction s as [|c s IH]; [by rewrite str_app_nil_r|].
  by rewrite str_app_cons, !rev_cons, IH, str_app_assoc.
Qed.
Lemma rev_involutive s : String.rev (String.rev s) = s.
Proof. induction s as [|c s IH]; [done|]. by rewrite rev_cons, rev_app_distr, IH. Qed.
