(* ===== verification/GoPath.v ===== *)
(** * The parts of Go's [path/filepath] the program uses (Unix)

    [Clean] is defined on the components of a path.  The lemmas relate the
    textual prefix tests of the program to prefixes of component lists, which
    is what its directory scopes mean. *)
From S2P Require Import Prelude GoStrings.

Definition slash : ascii := "/".

Definition IsAbs (p : string) : bool := HasPrefix p "/".

(** One component of the path is processed: [stk] holds the components kept
    so far, last one first. *)
Definition clean_step (rooted : bool) (stk : list string) (c : string) : list string :=
  if bool_decide (c = "") || bool_decide (c = ".") then stk
  else if bool_decide (c = "..") then
    match stk with
    | top :: rest => if bool_decide (top = "..") then ".." :: stk else rest
    | [] => if rooted then [] else [".."]
    end
  else c :: stk.
Definition components (p : string) : list string :=
  rev (foldl (clean_step (IsAbs p)) [] (Split slash p)).
Definition render (rooted : bool) (cs : list string) : string :=
  if rooted then "/" +:+ Join "/" cs
  else match cs with [] => "." | _ => Join "/" cs end.
(** [filepath.Clean(p)] *)
Definition Clean (p : string) : string := render (IsAbs p) (components p).

(** [filepath.Join(elem...)] *)
Fixpoint PathJoin (elems : list string) : string :=
  match elems with
  | [] => ""
  | e :: rest => if bool_decide (e = "") then PathJoin rest else Clean (Join "/" elems)
  end.

(** The bytes of a reversed path up to its last slash. *)
Fixpoint until_slash (r : string) : string :=
  match r with
  | EmptyString => ""
  | String c r => if Ascii.eqb c slash then "" else String c (until_slash r)
  end.
Fixpoint skip_slashes (r : string) : string :=
  match r with
  | String c r' => if Ascii.eqb c slash then skip_slashes r' else r
  | EmptyString => ""
  end.
(** [filepath.Base(p)] *)
Definition Base (p : string) : string :=
  if bool_decide (p = "") then "."
  else let b := String.rev (until_slash (skip_slashes (String.rev p))) in
       if bool_decide (b = "") then "/" else b.
(** [filepath.Ext(p)]: [acc] is the tail read so far. *)
Fixpoint ext_go (r acc : string) : string :=
  match r with
  | EmptyString => ""
  | String c r =>
      if Ascii.eqb c slash then ""
      else if Ascii.eqb c "." then String c acc else ext_go r (String c acc)
  end.
Definition Ext (p : string) : string := ext_go (String.rev p) "".

(** ** Splitting and joining *)
Fixpoint no_slash (s : string) : bool :=
  match s with
  | EmptyString => true
  | String c s => negb (Ascii.eqb c slash) && no_slash s
  end.

Lemma Split_nonempty s : Split slash s ≠ [].
Proof. destruct s as [|c s]; simpl; [done|]. repeat case_match; done. Qed.

Lemma Split_no_slash s : Forall (λ c, no_slash c = true) (Split slash s).
Proof.
  induction s as [|c s IH]; simpl; [by repeat constructor|].
  destruct (Ascii.eqb c slash) eqn:E; [by constructor|].
  destruct (Split slash s) as [|x l]; [by repeat constructor; simpl; rewrite E|].
  inversion IH; subst. constructor; [simpl; by rewrite E|done].
Qed.

Lemma Split_prefix x s :
  no_slash x = true → Split slash (x +:+ String slash s) = x :: Split slash s.
Proof.
  induction x as [|c x IH]; intros Hx; [done|].
  rewrite str_app_cons. simpl in *. apply andb_true_iff in Hx as [Hc Hx].
  apply negb_true_iff in Hc. by rewrite Hc, IH.
Qed.

Lemma Split_single x : no_slash x = true → Split slash x = [x].
Proof.
  induction x as [|c x IH]; intros Hx; [done|].
  simpl in *. apply andb_true_iff in Hx as [Hc Hx].
  apply negb_true_iff in Hc. by rewrite Hc, IH.
Qed.

Lemma Join_cons x y l : Join "/" (x :: y :: l) = x +:+ String slash (Join "/" (y :: l)).
Proof. done. Qed.

Lemma Split_Join l :
  l ≠ [] → Forall (λ c, no_slash c = true) l → Split slash (Join "/" l) = l.
Proof.
  induction l as [|x l IH]; [done|]. intros _ Hl. inversion Hl; subst.
  destruct l as [|y l]; [by apply Split_single|].
  rewrite Join_cons, Split_prefix by done. by rewrite IH.
Qed.

(** ** Normal component lists *)
Definition name (c : string) : Prop :=
  c ≠ "" ∧ c ≠ "." ∧ c ≠ ".." ∧ no_slash c = true.
Definition normal_rev (rooted : bool) (stk : list string) : Prop :=
  ∃ k names, stk = names ++ replicate k ".." ∧ Forall name names ∧ (rooted = true → k = 0%nat).
Definition normal (rooted : bool) (cs : list string) : Prop := normal_rev rooted (rev cs).

Lemma clean_step_normal rooted stk c :
  no_slash c = true → normal_rev rooted stk → normal_rev rooted (clean_step rooted stk c).
Proof.
  intros Hc (k & names & -> & Hn & Hk). unfold clean_step.
  case_bool_decide; simpl; [by exists k, names|].
  case_bool_decide; simpl; [by exists k, names|].
  case_bool_decide; subst.
  - destruct names as [|x names]; simpl.
    + destruct k as [|k]; simpl.
      * destruct rooted; [by exists 0%nat, []|]. by exists 1%nat, [].
      * destruct rooted; [by specialize (Hk eq_refl)|]. by exists (S (S k)), [].
    + inversion Hn as [|? ? Hx Hn']; subst. rewrite bool_decide_eq_false_2 by apply Hx.
      by exists k, names.
  - exists k, (c :: names). split; [done|]. split; [|done]. by constructor.
Qed.

Lemma components_normal p : normal (IsAbs p) (components p).
Proof.
  unfold normal, components. rewrite List.rev_involutive.
  assert (normal_rev (IsAbs p) []) as H by by exists 0%nat, [].
  revert H. generalize (IsAbs p) (@nil string). intros rooted stk.
  pose proof (Split_no_slash p) as Hs. revert stk.
  induction Hs as [|c l Hc Hl IH]; intros stk Hstk; simpl; [done|].
  by apply IH, clean_step_normal.
Qed.

Lemma normal_no_slash rooted cs : normal rooted cs → Forall (λ c, no_slash c = true ∧ c ≠ "") cs.
Proof.
  intros (k & names & Hcs & Hn & _). apply Forall_forall. intros x Hx.
  assert (x ∈ rev cs) as Hr by (apply list_elem_of_In, in_rev; rewrite List.rev_involutive;
                                by apply list_elem_of_In).
  rewrite Hcs in Hr. apply elem_of_app in Hr as [Hr|Hr].
  - rewrite Forall_forall in Hn. by destruct (Hn x Hr) as (? & ? & ? & ?).
  - by apply elem_of_replicate in Hr as [-> _].
Qed.

Lemma foldl_dots rooted k j :
  rooted = false ∨ k = 0%nat →
  foldl (clean_step rooted) (replicate j "..") (replicate k "..") = replicate (k + j) "..".
Proof.
  intros [-> | ->]; [|done]. revert j. induction k as [|k IH]; intros j; [done|].
  cbn [replicate foldl].
  replace (clean_step false (replicate j "..") "..") with (replicate (S j) "..") by by destruct j.
  rewrite IH. f_equal. lia.
Qed.

Lemma foldl_names rooted stk names :
  Forall name names → foldl (clean_step rooted) stk names = rev names ++ stk.
Proof.
  intros H. revert stk. induction H as [|x names Hx Hn IH]; intros stk; [done|].
  cbn [foldl]. unfold clean_step at 2. destruct Hx as (? & ? & ? & ?).
  rewrite !bool_decide_eq_false_2 by done. simpl. rewrite IH. simpl. by rewrite <- app_assoc.
Qed.

(** Processing a normal list keeps it. *)
Lemma foldl_normal rooted cs :
  normal rooted cs → rev (foldl (clean_step rooted) [] cs) = cs.
Proof.
  intros (k & names & Hcs & Hn & Hk).
  assert (cs = replicate k ".." ++ rev names) as ->.
  { rewrite <- (List.rev_involutive cs), Hcs, List.rev_app_distr. f_equal.
    rewrite rev_alt. apply reverse_replicate. }
  rewrite foldl_app. change (@nil string) with (replicate 0 "..") at 1. rewrite foldl_dots.
  - rewrite foldl_names by (by apply Forall_rev).
    rewrite List.rev_involutive, Nat.add_0_r, List.rev_app_distr. f_equal.
    rewrite rev_alt. apply reverse_replicate.
  - destruct rooted; [right; by apply Hk|by left].
Qed.

(** ** [Clean] is a normal form *)
Lemma IsAbs_cons c s : IsAbs (String c s) = Ascii.eqb c slash.
Proof. unfold IsAbs. cbn [HasPrefix]. by rewrite andb_true_r. Qed.

Lemma IsAbs_Join cs : Forall (λ c, no_slash c = true ∧ c ≠ "") cs → IsAbs (Join "/" cs) = false.
Proof.
  destruct cs as [|x l]; [done|]. intros H. inversion H as [|? ? [Hx Hne] _]; subst.
  destruct x as [|c x]; [done|]. cbn [no_slash] in Hx.
  apply andb_true_iff in Hx as [Hx _]. apply negb_true_iff in Hx.
  destruct l; [|rewrite Join_cons, str_app_cons]; cbn [Join]; by rewrite IsAbs_cons.
Qed.

Lemma IsAbs_render rooted cs : normal rooted cs → IsAbs (render rooted cs) = rooted.
Proof.
  intros Hn%normal_no_slash. destruct rooted; [done|].
  destruct cs as [|x l]; [done|]. by apply IsAbs_Join.
Qed.

Lemma components_render rooted cs : normal rooted cs → components (render rooted cs) = cs.
Proof.
  intros Hn. pose proof (normal_no_slash _ _ Hn) as Hs.
  assert (Forall (λ c, no_slash c = true) cs) as Hs'.
  { eapply Forall_impl; [exact Hs|]. by intros ? []. }
  unfold components. rewrite (IsAbs_render _ _ Hn). destruct rooted.
  - destruct cs as [|x l]; [done|].
    change (Split slash (render true (x :: l)))
      with ("" :: Split slash (Join "/" (x :: l))).
    rewrite Split_Join by done. exact (foldl_normal true _ Hn).
  - destruct cs as [|x l]; [done|].
    change (render false (x :: l)) with (Join "/" (x :: l)).
    rewrite Split_Join by done. exact (foldl_normal false _ Hn).
Qed.

Lemma IsAbs_Clean p : IsAbs (Clean p) = IsAbs p.
Proof. apply IsAbs_render, components_normal. Qed.
Lemma components_Clean p : components (Clean p) = components p.
Proof. apply components_render, components_normal. Qed.

Lemma Clean_idemp p : Clean (Clean p) = Clean p.
Proof. unfold Clean at 1. by rewrite IsAbs_Clean, components_Clean. Qed.

Lemma Clean_nonempty p : Clean p ≠ "".
Proof.
  unfold Clean, render. destruct (IsAbs p); [done|].
  pose proof (normal_no_slash _ _ (components_normal p)) as H.
  destruct (components p) as [|x l]; [done|]. inversion H as [|? ? [_ Hx] _]; subst.
  destruct x; [done|]. by destruct l.
Qed.

(** ** Textual prefixes are component prefixes *)
Lemma Join_prefix ds cs :
  ds ≠ [] → Forall (λ c, no_slash c = true) ds → Forall (λ c, no_slash c = true) cs →
  HasPrefix (Join "/" cs) (Join "/" ds +:+ "/") = true ↔ ∃ e rest, cs = ds ++ e :: rest.
Proof.
  intros Hne Hds Hcs. rewrite HasPrefix_spec. split.
  - intros [t Ht].
    assert (cs ≠ []) as Hcn.
    { intros ->. apply (f_equal String.length) in Ht.
      rewrite !str_length_app in Ht. simpl in Ht. lia. }
    apply (f_equal (Split slash)) in Ht. rewrite Split_Join in Ht by done.
    rewrite Ht. clear Ht Hcn Hcs cs. rewrite str_app_assoc.
    change ("/" +:+ t) with (String slash t).
    induction ds as [|d ds IH]; [done|]. inversion Hds; subst.
    destruct ds as [|d' ds].
    + simpl. rewrite Split_prefix by done.
      destruct (Split slash t) as [|e rest] eqn:E; [by apply Split_nonempty in E|]. by exists e, rest.
    + destruct IH as (e & rest & IH); [done..|].
      rewrite Join_cons, str_app_assoc, str_app_cons, Split_prefix by done.
      rewrite IH. by exists e, rest.
  - intros (e & rest & ->). clear Hcs.
    induction ds as [|d ds IH]; [done|]. inversion Hds; subst.
    destruct ds as [|d' ds]; [exists (Join "/" (e :: rest)); by rewrite str_app_assoc|].
    destruct IH as [t Ht]; [done..|]. exists t.
    change ((d :: d' :: ds) ++ e :: rest) with (d :: d' :: (ds ++ e :: rest)).
    rewrite !Join_cons, !str_app_assoc, str_app_cons. do 2 f_equal.
    rewrite str_app_assoc in Ht. exact Ht.
Qed.

(** ** Joining below a directory *)
Lemma normal_names rooted cs : normal rooted cs → head cs ≠ Some ".." → Forall name cs.
Proof.
  intros (k & names & Hcs & Hn & _) Hh.
  assert (cs = replicate k ".." ++ rev names) as ->.
  { rewrite <- (List.rev_involutive cs), Hcs, List.rev_app_distr. f_equal.
    rewrite rev_alt. apply reverse_replicate. }
  destruct k; [|done]. by apply Forall_rev.
Qed.
Lemma Clean_outside path :
  IsAbs path = false → head (components path) = Some ".." →
  Clean path = ".." ∨ HasPrefix (Clean path) "../" = true.
Proof.
  intros Ha Hh. unfold Clean. rewrite Ha. destruct (components path) as [|x [|y l]]; cbn in Hh; [done|..].
  - left. by simplify_eq.
  - right. simplify_eq. by apply HasPrefix_spec; eexists.
Qed.
Lemma components_below dir path :
  Forall name dir → IsAbs path = true ∨ head (components path) ≠ Some ".." →
  components ("/" +:+ Join "/" dir +:+ "/" +:+ Clean path) = dir ++ components path.
Proof.
  intros Hd Hp. set (cs := components path).
  pose proof (components_normal path) as Hn. fold cs in Hn.
  assert (Forall name cs) as Hcs.
  { destruct (IsAbs path) eqn:Ha; [|destruct Hp as [?|?]; [done|by eapply normal_names]].
    destruct Hn as (k & names & Hr & Hnm & Hk). rewrite (Hk eq_refl) in Hr. cbn in Hr.
    rewrite app_nil_r in Hr. rewrite <- (List.rev_involutive cs), Hr. by apply Forall_rev. }
  assert (∀ stk, foldl (clean_step true) stk (Split slash (Clean path)) = rev cs ++ stk) as Hfold.
  { intros stk. unfold Clean. fold cs. destruct cs as [|x l] eqn:E; [by destruct (IsAbs path)|].
    assert (Split slash (Join "/" (x :: l)) = x :: l) as Hs.
    { apply Split_Join; [done|]. eapply Forall_impl; [exact Hcs|]. by intros c (_ & _ & _ & ?). }
    destruct (IsAbs path).
    - change (Split slash (render true (x :: l))) with ("" :: Split slash (Join "/" (x :: l))).
      rewrite Hs. exact (foldl_names true stk _ Hcs).
    - change (render false (x :: l)) with (Join "/" (x :: l)). rewrite Hs. exact (foldl_names true stk _ Hcs). }
  unfold components at 1. rewrite str_app_cons. rewrite IsAbs_cons. cbn [Ascii.eqb].
  change (Ascii.eqb "/" slash) with true.
  change (Split slash (String "/" ("" +:+ (Join "/" dir +:+ "/" +:+ Clean path))))
    with ("" :: Split slash (Join "/" dir +:+ "/" +:+ Clean path)).
  cbn [foldl]. change (clean_step true [] "") with (@nil string).
  assert (∀ stk, foldl (clean_step true) stk (Split slash (Join "/" dir +:+ "/" +:+ Clean path))
    = rev cs ++ rev dir ++ stk) as ->.
  { clear Hp. induction Hd as [|x dir Hx Hd IH]; intros stk.
    - change (Split slash (Join "/" [] +:+ "/" +:+ Clean path)) with ("" :: Split slash (Clean path)).
      apply Hfold.
    - assert (Split slash (Join "/" (x :: dir) +:+ "/" +:+ Clean path)
              = x :: match dir with [] => Split slash (Clean path)
                                | _ => Split slash (Join "/" dir +:+ "/" +:+ Clean path) end) as ->.
      { destruct dir as [|y dir].
        - apply Split_prefix, Hx.
        - rewrite Join_cons, str_app_assoc, str_app_cons. apply Split_prefix, Hx. }
      cbn [foldl]. assert (clean_step true stk x = x :: stk) as ->.
      { unfold clean_step. destruct Hx as (? & ? & ? & ?). by rewrite !bool_decide_eq_false_2. }
      destruct dir as [|y dir]; [by rewrite Hfold|]. rewrite IH. cbn [rev].
      by rewrite <- !app_assoc. }
  rewrite app_nil_r, List.rev_app_distr, !List.rev_involutive. done.
Qed.
