(* ===== verification/GoTime.v ===== *)
(** * The parts of Go's [time] the program uses

    A [time.Time] is the number of nanoseconds since the zero time, which is
    0; a [time.Duration] is a 64-bit number of nanoseconds. *)
From Stdlib Require Import SpecFloat.
From S2P Require Import Prelude GoStrings.

Definition Nanosecond : Z := 1.
Definition Microsecond : Z := 1000.
Definition Millisecond : Z := 1000 * Microsecond.
Definition Second : Z := 1000 * Millisecond.
Definition Minute : Z := 60 * Second.
Definition Hour : Z := 60 * Minute.

(** [t.IsZero()] *)
Definition IsZero (t : Z) : bool := t =? 0.
(** [t.Sub(u)], which saturates. *)
Definition Sub (t u : Z) : Z := Z.max minInt64 (Z.min maxInt64 (t - u)).
(** [t.Before(u)] *)
Definition Before (t u : Z) : bool := t <? u.

Lemma Sub_le t u d : is_int64 d → d ≠ maxInt64 → Sub t u ≤ d ↔ t - u ≤ d.
Proof. unfold Sub, is_int64, minInt64, maxInt64. lia. Qed.

Lemma Sub_mono t t' u d : t ≤ t' → Sub t' u ≤ d → Sub t u ≤ d.
Proof. unfold Sub, minInt64, maxInt64. lia. Qed.

Lemma Sub_mono_r t u u' d : u ≤ u' → Sub t u ≤ d → Sub t u' ≤ d.
Proof. unfold Sub, minInt64, maxInt64. lia. Qed.

Lemma Sub_diag t : Sub t t = 0.
Proof. unfold Sub, minInt64, maxInt64. lia. Qed.

(** ** [time.ParseDuration] *)

(** IEEE 754 binary64 arithmetic, for the fraction of a duration. *)
Definition f64_of_Z (z : Z) : spec_float := binary_normalize 53 1024 z 0 false.
Definition f64_mul : spec_float → spec_float → spec_float := SFmul 53 1024.
Definition f64_div : spec_float → spec_float → spec_float := SFdiv 53 1024.
Definition f64_trunc (x : spec_float) : Z :=
  match x with
  | S754_finite s m e =>
      let a := Z.shiftl (Z.pos m) e in if s then - a else a
  | _ => 0
  end.

Fixpoint leadingInt (x : Z) (s : string) : option (Z * string) :=
  match s with
  | EmptyString => Some (x, s)
  | String c s' =>
      match digit c with
      | None => Some (x, s)
      | Some d =>
          if 2 ^ 63 / 10 <? x then None
          else let x := x * 10 + d in
               if 2 ^ 63 <? x then None else leadingInt x s'
      end
  end.
Fixpoint leadingFraction (x : Z) (scale : spec_float) (overflow : bool) (s : string)
    : Z * spec_float * string :=
  match s with
  | EmptyString => (x, scale, s)
  | String c s' =>
      match digit c with
      | None => (x, scale, s)
      | Some d =>
          if overflow then leadingFraction x scale true s'
          else if (2 ^ 63 - 1) / 10 <? x then leadingFraction x scale true s'
          else let y := x * 10 + d in
               if 2 ^ 63 <? y then leadingFraction x scale true s'
               else leadingFraction y (f64_mul scale (f64_of_Z 10)) false s'
      end
  end.
(** The longest prefix with neither a digit nor a period, and the rest. *)
Fixpoint leadingUnit (s : string) : string * string :=
  match s with
  | EmptyString => ("", "")
  | String c s' =>
      if Ascii.eqb c "." || bool_decide (is_Some (digit c)) then ("", s)
      else let '(u, r) := leadingUnit s' in (String c u, r)
  end.
Definition unitMap (u : string) : option Z :=
  if bool_decide (u = "ns") then Some Nanosecond
  else if bool_decide (u = "us") then Some Microsecond
  else if bool_decide (u = of_bytes [194; 181; 115]) then Some Microsecond
  else if bool_decide (u = of_bytes [206; 188; 115]) then Some Microsecond
  else if bool_decide (u = "ms") then Some Millisecond
  else if bool_decide (u = "s") then Some Second
  else if bool_decide (u = "m") then Some Minute
  else if bool_decide (u = "h") then Some Hour
  else None.

(** One iteration of the loop of [ParseDuration]: a number with its unit is
    read from the front of [s] and added to [d]. *)
Definition duration_step (d : Z) (s : string) : option (Z * string) :=
  '(v, s1) ← leadingInt 0 s;
  let pre := negb (bool_decide (String.length s1 = String.length s)) in
  let '(f, scale, s2, post) :=
    match s1 with
    | String c r =>
        if Ascii.eqb c "." then
          let '(f, scale, s2) := leadingFraction 0 (f64_of_Z 1) false r in
          (f, scale, s2, negb (bool_decide (String.length s2 = String.length r)))
        else (0, f64_of_Z 1, s1, false)
    | EmptyString => (0, f64_of_Z 1, s1, false)
    end in
  if negb pre && negb post then None
  else let '(u, s3) := leadingUnit s2 in
       if bool_decide (u = "") then None
       else unit ← unitMap u;
            if 2 ^ 63 / unit <? v then None
            else
              let v := v * unit in
              let v' := if 0 <? f
                        then uint64 (v + f64_trunc (f64_mul (f64_of_Z f) (f64_div (f64_of_Z unit) scale)))
                        else v in
              if (0 <? f) && (2 ^ 63 <? v') then None
              else let d := uint64 (d + v') in
                   if 2 ^ 63 <? d then None else Some (d, s3).

(** Each iteration consumes at least one byte, so the length of the string
    is enough fuel. *)
Fixpoint duration_loop (fuel : nat) (d : Z) (s : string) : option Z :=
  match s with
  | EmptyString => Some d
  | String c _ =>
      match fuel with
      | O => None
      | S fuel =>
          if Ascii.eqb c "." || bool_decide (is_Some (digit c)) then
            '(d, s) ← duration_step d s; duration_loop fuel d s
          else None
      end
  end.

Definition ParseDuration (s : string) : option Z :=
  let '(neg, s) :=
    match s with
    | String c r =>
        if Ascii.eqb c "-" then (true, r) else if Ascii.eqb c "+" then (false, r) else (false, s)
    | EmptyString => (false, s)
    end in
  if bool_decide (s = "0") then Some 0
  else if bool_decide (s = "") then None
  else d ← duration_loop (String.length s) 0 s;
       if neg : bool then Some (int64 (- d))
       else if 2 ^ 63 - 1 <? d then None else Some d.

Example ParseDuration_ex1 : ParseDuration "10s" = Some (10 * Second).
Proof. vm_compute. reflexivity. Qed.
Example ParseDuration_ex2 : ParseDuration "1h15m30.918s" = Some 4530918000000.
Proof. vm_compute. reflexivity. Qed.
Example ParseDuration_ex3 : ParseDuration "-1.5h" = Some (- 90 * Minute).
Proof. vm_compute. reflexivity. Qed.
Example ParseDuration_ex4 : ParseDuration "10" = None.
Proof. vm_compute. reflexivity. Qed.

Lemma duration_step_range d s d' s' : duration_step d s = Some (d', s') → 0 ≤ d' ≤ 2 ^ 63.
Proof.
  unfold duration_step. intros H. repeat (case_match || simplify_option_eq); simplify_eq;
    match goal with |- context [uint64 ?x] => pose proof (wrap_u_range 64 x) end; lia.
Qed.

Lemma duration_loop_range fuel d s d' :
  0 ≤ d ≤ 2 ^ 63 → duration_loop fuel d s = Some d' → 0 ≤ d' ≤ 2 ^ 63.
Proof.
  revert d s. induction fuel as [|fuel IH]; intros d [|c s] Hd; cbn [duration_loop];
    [by intros [= <-]|done|by intros [= <-]|].
  case_match; [|done]. destruct (duration_step d _) as [[d1 s1]|] eqn:E; [|done].
  apply duration_step_range in E. by apply IH.
Qed.

Lemma ParseDuration_range s d : ParseDuration s = Some d → is_int64 d.
Proof.
  unfold ParseDuration.
  destruct (match s with EmptyString => _ | String _ _ => _ end) as [neg r].
  case_bool_decide; [intros; simplify_eq; unfold is_int64, minInt64, maxInt64; lia|].
  case_bool_decide; [done|].
  destruct (duration_loop _ 0 r) as [x|] eqn:E; [|done]. cbn [mbind option_bind].
  apply duration_loop_range in E; [|lia]. destruct neg.
  - intros [= <-]. apply int64_range.
  - case_match; [done|]. intros [= <-]. unfold is_int64, minInt64, maxInt64. lia.
Qed.

(** *** The fuel of [duration_loop] is enough *)
Lemma leadingInt_length x s y r :
  leadingInt x s = Some (y, r) → (String.length r ≤ String.length s)%nat.
Proof.
  revert x. induction s as [|c s IH]; intros x; cbn [leadingInt]; [naive_solver|].
  repeat case_match; intros; simplify_eq; try done. apply IH in H2. simpl. lia.
Qed.

Lemma leadingFraction_length x sc o s :
  (String.length (leadingFraction x sc o s).2 ≤ String.length s)%nat.
Proof.
  revert x sc o. induction s as [|c s IH]; intros x sc o; cbn [leadingFraction]; [done|].
  repeat case_match; simpl; try done; etrans; [apply IH| |apply IH| |apply IH| |apply IH|]; lia.
Qed.

Lemma leadingUnit_length s u r :
  leadingUnit s = (u, r) → String.length s = (String.length u + String.length r)%nat.
Proof.
  revert u r. induction s as [|c s IH]; intros u r; cbn [leadingUnit]; [naive_solver|].
  case_match; [naive_solver|]. destruct (leadingUnit s) as [u' r'].
  intros [= <- <-]. simpl. f_equal. by apply IH.
Qed.

Lemma duration_step_shorter d s d' s' :
  duration_step d s = Some (d', s') → (String.length s' < String.length s)%nat.
Proof.
  unfold duration_step. destruct (leadingInt 0 s) as [[v s1]|] eqn:E1; [|done].
  apply leadingInt_length in E1. cbn [mbind option_bind].
  destruct (match s1 with EmptyString => _ | String _ _ => _ end)
    as [[[f scale] s2] post] eqn:E2.
  assert (String.length s2 ≤ String.length s1)%nat as Hs2.
  { destruct s1 as [|c r]; [naive_solver|]. case_match; [|naive_solver].
    pose proof (leadingFraction_length 0 (f64_of_Z 1) false r).
    destruct (leadingFraction _ _ _ r) as [[f' sc'] s2'].
    simplify_eq. simpl in *. lia. }
  destruct (negb _ && negb post); [done|]. destruct (leadingUnit s2) as [u s3] eqn:E3.
  apply leadingUnit_length in E3. case_bool_decide as Hu; [done|].
  destruct u as [|cu u]; [done|]. simpl in E3.
  destruct (unitMap _); [|done]. cbn [mbind option_bind].
  repeat case_match; intros; simplify_eq; lia.
Qed.

(** More fuel than the length of the input never changes the outcome: the loop
    of [ParseDuration] terminates by itself. *)
Lemma duration_loop_fuel fuel d s :
  (String.length s ≤ fuel)%nat → duration_loop fuel d s = duration_loop (String.length s) d s.
Proof.
  remember (String.length s) as n eqn:Hn. revert fuel d s Hn.
  induction n as [n IH] using lt_wf_ind. intros fuel d s Hn Hf.
  destruct s as [|c s]; [by destruct fuel, n|].
  destruct n as [|n]; [simpl in Hn; lia|]. destruct fuel as [|fuel]; [lia|]. cbn [duration_loop].
  case_match; [|done]. destruct (duration_step d _) as [[d' s']|] eqn:E; [|done].
  apply duration_step_shorter in E. cbn [mbind option_bind].
  rewrite (IH (String.length s') ltac:(lia) fuel d' s') by lia.
  rewrite (IH (String.length s') ltac:(lia) n d' s') by lia. done.
Qed.
