(* ===== verification/Config.v ===== *)
(** * Policy configuration: internal/config/config.go

    [Policy] and its parts, loading and merging of policy files, the defaults
    and validation of [normalize].  Reading a file and decoding its YAML are
    the parameters [ReadFile] and [Decode] (gopkg.in/yaml.v3 is not part of
    the program); [net.ParseCIDR] is the class [CIDR]. *)
From S2P Require Import Prelude GoStrings GoTime.

(** ** Data *)
Module Scores.
Record Scores := mkScores {
  Write : Z; Truncate : Z; Rename : Z; Unlink : Z; SelfProtect : Z;
  SuspiciousExtension : Z; RansomNote : Z; BackupDestroy : Z; HighRateBonus : Z;
  ExecAfterBlocked : Z; Scan : Z; Mmap : Z; IOUring : Z; NetworkEgress : Z }.
#[export] Instance eta_Scores : Eta Scores := λ s,
  mkScores (Write s) (Truncate s) (Rename s) (Unlink s) (SelfProtect s)
    (SuspiciousExtension s) (RansomNote s) (BackupDestroy s) (HighRateBonus s)
    (ExecAfterBlocked s) (Scan s) (Mmap s) (IOUring s) (NetworkEgress s).
Definition zero : Scores := mkScores 0 0 0 0 0 0 0 0 0 0 0 0 0 0.
End Scores.
Export (hints) Scores.
Abbreviation Scores := Scores.Scores.

Module Rule.
Record Rule := mkRule {
  Name : string; Feature : string; Op : string; Value : Z; Action : string; Reason : string }.
#[export] Instance eta_Rule : Eta Rule := λ r,
  mkRule (Name r) (Feature r) (Op r) (Value r) (Action r) (Reason r).
End Rule.
Export (hints) Rule.
Abbreviation Rule := Rule.Rule.

Module NetworkEgress.
Record NetworkEgress := mkNetworkEgress {
  Enabled : bool; Score : Z; AllowedCIDR : list string; AllowedPort : list Z }.
#[export] Instance eta_NetworkEgress : Eta NetworkEgress := λ n,
  mkNetworkEgress (Enabled n) (Score n) (AllowedCIDR n) (AllowedPort n).
Definition zero : NetworkEgress := mkNetworkEgress false 0 [] [].
End NetworkEgress.
Export (hints) NetworkEgress.
Abbreviation NetworkEgress := NetworkEgress.NetworkEgress.

Module Policy.
Record Policy := mkPolicy {
  Name : string; Description : string;
  Window : Z; WindowRaw : string; Threshold : Z; Action : string;
  BlockTTL : Z; BlockTTLRaw : string;
  ProtectedDirs : list string; BackupDirs : list string; SelfProtectPaths : list string;
  CgroupPaths : list string; TrustedProcesses : list string; TrustedExePaths : list string;
  TrustedUIDs : list Z; BlacklistHashes : list string; BlacklistHashFiles : list string;
  BlacklistScan : Z; BlacklistScanRaw : string;
  SuspiciousExtensions : list string; RansomNoteNames : list string;
  NetworkEgress : Config.NetworkEgress; Scores : Config.Scores; Rules : list Config.Rule }.
#[export] Instance eta_Policy : Eta Policy := λ p,
  mkPolicy (Name p) (Description p) (Window p) (WindowRaw p) (Threshold p) (Action p)
    (BlockTTL p) (BlockTTLRaw p) (ProtectedDirs p) (BackupDirs p) (SelfProtectPaths p)
    (CgroupPaths p) (TrustedProcesses p) (TrustedExePaths p) (TrustedUIDs p)
    (BlacklistHashes p) (BlacklistHashFiles p) (BlacklistScan p) (BlacklistScanRaw p)
    (SuspiciousExtensions p) (RansomNoteNames p) (NetworkEgress p) (Scores p) (Rules p).
Definition zero : Policy :=
  mkPolicy "" "" 0 "" 0 "" 0 "" [] [] [] [] [] [] [] [] [] 0 "" [] []
    NetworkEgress.zero Scores.zero [].
End Policy.
Export (hints) Policy.
Abbreviation Policy := Policy.Policy.

(** ** Errors *)
Inductive ConfigError : Type :=
| ErrReadConfig (path : string)
| ErrParseConfig (path : string)
| ErrParseWindow | ErrWindowNotPositive
| ErrParseBlockTTL | ErrBlockTTLNegative
| ErrThresholdNegative
| ErrUnsupportedAction (action : string)
| ErrParseBlacklistScan | ErrBlacklistScanNegative
| ErrInvalidCIDR (cidr : string)
| ErrInvalidPort (port : Z)
  (** which score is named depends on Go's map iteration order *)
| ErrNegativeScore
| ErrRule (i : nat) (e : RuleError)
with RuleError : Type :=
| ErrUnsupportedFeature (feature : string)
| ErrUnsupportedOp (op : string)
| ErrNegativeValue
| ErrUnsupportedRuleAction (action : string).

(** [(T, error)] results: the error, or the value. *)
#[export] Instance sum_ret E : MRet (sum E) := λ A x, inr x.
#[export] Instance sum_bind E : MBind (sum E) := λ A B f r,
  match r with inl e => inl e | inr x => f x end.
Definition fail_if {E} (b : bool) (e : E) : E + () := if b then inl e else inr ().
Definition or_err {E A} (o : option A) (e : E) : E + A :=
  match o with Some x => inr x | None => inl e end.

(** ** Merging *)
Section merge.
Import Scores.
(** [if override.F != 0 { base.F = override.F }] *)
Definition override (base o : Z) : Z := if negb (o =? 0) then o else base.
Definition mergeScores (base o : Scores) : Scores :=
  base <| Write := override (Write base) (Write o) |>
       <| Truncate := override (Truncate base) (Truncate o) |>
       <| Rename := override (Rename base) (Rename o) |>
       <| Unlink := override (Unlink base) (Unlink o) |>
       <| SelfProtect := override (SelfProtect base) (SelfProtect o) |>
       <| SuspiciousExtension := override (SuspiciousExtension base) (SuspiciousExtension o) |>
       <| RansomNote := override (RansomNote base) (RansomNote o) |>
       <| BackupDestroy := override (BackupDestroy base) (BackupDestroy o) |>
       <| HighRateBonus := override (HighRateBonus base) (HighRateBonus o) |>
       <| ExecAfterBlocked := override (ExecAfterBlocked base) (ExecAfterBlocked o) |>
       <| Scan := override (Scan base) (Scan o) |>
       <| Mmap := override (Mmap base) (Mmap o) |>
       <| IOUring := override (IOUring base) (IOUring o) |>
       <| NetworkEgress := override (NetworkEgress base) (NetworkEgress o) |>.
End merge.

Section merge_network.
Import NetworkEgress.
Definition mergeNetworkEgress (base o : NetworkEgress) : NetworkEgress :=
  base <| Enabled := Enabled base || Enabled o |>
       <| Score := override (Score base) (Score o) |>
       <| AllowedCIDR := AllowedCIDR base ++ AllowedCIDR o |>
       <| AllowedPort := AllowedPort base ++ AllowedPort o |>.
End merge_network.

Section merge_policies.
Import Policy.
(** [if p.F != "" { merged.F = p.F }] *)
Definition override_str (base o : string) : string := if bool_decide (o = "") then base else o.
(** The body of the loop of [mergePolicies]. *)
Definition mergePolicy (merged p : Policy) : Policy :=
  merged
    <| Name := if bool_decide (Name p = "") then Name merged
               else if bool_decide (Name merged = "") then Name p
               else Name merged +:+ "+" +:+ Name p |>
    <| Description := override_str (Description merged) (Description p) |>
    <| WindowRaw := override_str (WindowRaw merged) (WindowRaw p) |>
    <| Threshold := override (Threshold merged) (Threshold p) |>
    <| Action := override_str (Action merged) (Action p) |>
    <| BlockTTLRaw := override_str (BlockTTLRaw merged) (BlockTTLRaw p) |>
    <| BlacklistScanRaw := override_str (BlacklistScanRaw merged) (BlacklistScanRaw p) |>
    <| ProtectedDirs := ProtectedDirs merged ++ ProtectedDirs p |>
    <| BackupDirs := BackupDirs merged ++ BackupDirs p |>
    <| SelfProtectPaths := SelfProtectPaths merged ++ SelfProtectPaths p |>
    <| CgroupPaths := CgroupPaths merged ++ CgroupPaths p |>
    <| TrustedProcesses := TrustedProcesses merged ++ TrustedProcesses p |>
    <| TrustedExePaths := TrustedExePaths merged ++ TrustedExePaths p |>
    <| TrustedUIDs := TrustedUIDs merged ++ TrustedUIDs p |>
    <| BlacklistHashes := BlacklistHashes merged ++ BlacklistHashes p |>
    <| BlacklistHashFiles := BlacklistHashFiles merged ++ BlacklistHashFiles p |>
    <| SuspiciousExtensions := SuspiciousExtensions merged ++ SuspiciousExtensions p |>
    <| RansomNoteNames := RansomNoteNames merged ++ RansomNoteNames p |>
    <| Rules := Rules merged ++ Rules p |>
    <| Scores := mergeScores (Scores merged) (Scores p) |>
    <| NetworkEgress := mergeNetworkEgress (NetworkEgress merged) (NetworkEgress p) |>.
Definition mergePolicies (policies : list Policy) : Policy :=
  foldl mergePolicy zero policies.
End merge_policies.

(** ** Validation *)
Definition validateRule (r : Rule) : RuleError + () :=
  fail_if (negb (bool_decide (Rule.Feature r ∈ ["distinct_paths"; "open_write_pairs"; "rename_suffix_count"])))
    (ErrUnsupportedFeature (Rule.Feature r)) ;;
  fail_if (negb (bool_decide (Rule.Op r ∈ [">"; ">="; "=="; "<="; "<"]))) (ErrUnsupportedOp (Rule.Op r)) ;;
  fail_if (Rule.Value r <? 0) ErrNegativeValue ;;
  fail_if (negb (bool_decide (Rule.Action r ∈ ["log"; "deny"; "kill"; "block"])))
    (ErrUnsupportedRuleAction (Rule.Action r)).

Definition score_values (s : Scores) (networkScore : Z) : list Z :=
  [Scores.Write s; Scores.Truncate s; Scores.Rename s; Scores.Unlink s; Scores.SelfProtect s;
   Scores.SuspiciousExtension s; Scores.RansomNote s; Scores.BackupDestroy s;
   Scores.HighRateBonus s; Scores.ExecAfterBlocked s; Scores.Scan s; Scores.Mmap s;
   Scores.IOUring s; networkScore].
Definition validateScores (s : Scores) (networkScore : Z) : ConfigError + () :=
  fail_if (existsb (λ v, v <? 0) (score_values s networkScore)) ErrNegativeScore.

(** ** Normalization *)

(** [net.ParseCIDR(s)] returns no error. *)
Class CIDR : Type := ParseCIDR_ok : string → bool.

(** [if v == 0 { v = d }] and [if s == "" { s = d }] *)
Definition default_int (v d : Z) : Z := if v =? 0 then d else v.
Definition default_str (s d : string) : string := if bool_decide (s = "") then d else s.

Definition defaultScores (s : Scores) : Scores :=
  s <| Scores.Write ::= λ v, default_int v 1 |>
    <| Scores.Truncate ::= λ v, default_int v 6 |>
    <| Scores.Rename ::= λ v, default_int v 8 |>
    <| Scores.Unlink ::= λ v, default_int v 8 |>
    <| Scores.SelfProtect ::= λ v, default_int v 50 |>
    <| Scores.SuspiciousExtension ::= λ v, default_int v 10 |>
    <| Scores.RansomNote ::= λ v, default_int v 20 |>
    <| Scores.BackupDestroy ::= λ v, default_int v 20 |>
    <| Scores.HighRateBonus ::= λ v, default_int v 15 |>
    <| Scores.ExecAfterBlocked ::= λ v, default_int v 10 |>
    <| Scores.Scan ::= λ v, default_int v 1 |>
    <| Scores.Mmap ::= λ v, default_int v 3 |>
    <| Scores.IOUring ::= λ v, default_int v 1 |>
    <| Scores.NetworkEgress ::= λ v, default_int v 5 |>.

Section normalize.
Context `{Unicode} `{CIDR}.

(** The loops of [normalize] over the slices of the policy. *)
Fixpoint normalizeCIDRs (l : list string) : ConfigError + list string :=
  match l with
  | [] => mret []
  | cidr :: l =>
      let cidr := TrimSpace cidr in
      fail_if (negb (ParseCIDR_ok cidr)) (ErrInvalidCIDR cidr) ;;
      l' ← normalizeCIDRs l; mret (cidr :: l')
  end.
Fixpoint checkPorts (l : list Z) : ConfigError + () :=
  match l with
  | [] => mret ()
  | port :: l =>
      fail_if ((port <? 1) || (65535 <? port)) (ErrInvalidPort port) ;; checkPorts l
  end.
Definition normalizeExtension (extension : string) : string :=
  let extension := TrimSpace (ToLower extension) in
  if negb (bool_decide (extension = "")) && negb (HasPrefix extension ".")
  then "." +:+ extension else extension.
Definition normalizeRule (action : string) (r : Rule) : Rule :=
  let r := r <| Rule.Feature ::= λ f, ToLower (TrimSpace f) |>
             <| Rule.Op ::= TrimSpace |>
             <| Rule.Action ::= λ a, ToLower (TrimSpace a) |> in
  let r := r <| Rule.Action ::= λ a, default_str a action |> in
  let r := r <| Rule.Action ::= λ a, if bool_decide (a = "block") then "deny" else a |> in
  r <| Rule.Reason ::= λ x, default_str x (Rule.Name r) |>.
Fixpoint normalizeRules (action : string) (i : nat) (l : list Rule) : ConfigError + list Rule :=
  match l with
  | [] => mret []
  | r :: l =>
      let r := normalizeRule action r in
      match validateRule r with
      | inl e => inl (ErrRule i e)
      | inr _ => l' ← normalizeRules action (S i) l; mret (r :: l')
      end
  end.

Import Policy.
(** The assignments to [p] are collected in one record update at the end;
    the locals below are the successive values of its fields. *)
Definition normalize (p : Policy) : ConfigError + Policy :=
  let windowRaw := default_str (WindowRaw p) "10s" in
  window ← or_err (ParseDuration windowRaw) ErrParseWindow;
  fail_if (window <=? 0) ErrWindowNotPositive ;;
  let blockTTLRaw := default_str (BlockTTLRaw p) "10m" in
  blockTTL ← or_err (ParseDuration blockTTLRaw) ErrParseBlockTTL;
  fail_if (blockTTL <? 0) ErrBlockTTLNegative ;;
  let threshold := default_int (Threshold p) 45 in
  fail_if (threshold <? 0) ErrThresholdNegative ;;
  let action := ToLower (TrimSpace (default_str (Action p) "log")) in
  fail_if (negb (bool_decide (action ∈ ["log"; "deny"; "kill"]))) (ErrUnsupportedAction action) ;;
  let blacklistScanRaw := default_str (BlacklistScanRaw p) "5s" in
  blacklistScan ← or_err (ParseDuration blacklistScanRaw) ErrParseBlacklistScan;
  fail_if (blacklistScan <? 0) ErrBlacklistScanNegative ;;
  let scores := defaultScores (Scores p) in
  let networkScore :=
    default_int (NetworkEgress.Score (NetworkEgress p)) (Scores.NetworkEgress scores) in
  cidrs ← normalizeCIDRs (NetworkEgress.AllowedCIDR (NetworkEgress p));
  checkPorts (NetworkEgress.AllowedPort (NetworkEgress p)) ;;
  validateScores scores networkScore ;;
  let extensions := map normalizeExtension (SuspiciousExtensions p) in
  let notes := map TrimSpace (RansomNoteNames p) in
  rules ← normalizeRules action 0 (Rules p);
  mret (p <| WindowRaw := windowRaw |> <| Window := window |>
          <| BlockTTLRaw := blockTTLRaw |> <| BlockTTL := blockTTL |>
          <| Threshold := threshold |> <| Action := action |>
          <| BlacklistScanRaw := blacklistScanRaw |> <| BlacklistScan := blacklistScan |>
          <| Scores := scores |>
          <| NetworkEgress := (NetworkEgress p) <| NetworkEgress.Score := networkScore |>
                                              <| NetworkEgress.AllowedCIDR := cidrs |> |>
          <| SuspiciousExtensions := extensions |> <| RansomNoteNames := notes |>
          <| Rules := rules |>).

(** ** Loading *)
Context (ReadFile : string → option string) (Decode : string → option Policy).
Definition loadOne (path : string) : ConfigError + Policy :=
  data ← or_err (ReadFile path) (ErrReadConfig path);
  or_err (Decode data) (ErrParseConfig path).
Fixpoint loadAll (paths : list string) : ConfigError + list Policy :=
  match paths with
  | [] => mret []
  | path :: paths => p ← loadOne path; ps ← loadAll paths; mret (p :: ps)
  end.
Definition Load (path : string) : ConfigError + Policy :=
  p ← loadOne path; normalize p.
Definition LoadMany (paths : list string) : ConfigError + Policy :=
  let paths := match paths with [] => ["configs/ransomware.yaml"] | _ => paths end in
  policies ← loadAll paths;
  normalize (mergePolicies policies).
End normalize.

(** ** Theorems: merging *)
Section merge_theory.
Lemma override_assoc a b c : override (override a b) c = override a (override b c).
Proof. unfold override. repeat case_match; lia. Qed.
Lemma override_0_l a : override 0 a = a.
Proof. unfold override. case_match; lia. Qed.
Lemma override_str_assoc a b c :
  override_str (override_str a b) c = override_str a (override_str b c).
Proof. unfold override_str. repeat case_bool_decide; congruence. Qed.
Lemma override_str_nil_l a : override_str "" a = a.
Proof. unfold override_str. by case_bool_decide. Qed.

Lemma mergeScores_assoc a b c :
  mergeScores (mergeScores a b) c = mergeScores a (mergeScores b c).
Proof. unfold mergeScores; simpl. by rewrite !override_assoc. Qed.
Lemma mergeScores_zero_l a : mergeScores Scores.zero a = a.
Proof. destruct a. unfold mergeScores; simpl. by rewrite !override_0_l. Qed.
Lemma mergeScores_zero_r a : mergeScores a Scores.zero = a.
Proof. by destruct a. Qed.

Lemma mergeNetworkEgress_assoc a b c :
  mergeNetworkEgress (mergeNetworkEgress a b) c = mergeNetworkEgress a (mergeNetworkEgress b c).
Proof. unfold mergeNetworkEgress; simpl. by rewrite !override_assoc, !app_assoc, orb_assoc. Qed.
Lemma mergeNetworkEgress_zero_l a : mergeNetworkEgress NetworkEgress.zero a = a.
Proof. destruct a. unfold mergeNetworkEgress; simpl. by rewrite !override_0_l. Qed.
Lemma mergeNetworkEgress_zero_r a : mergeNetworkEgress a NetworkEgress.zero = a.
Proof. destruct a. unfold mergeNetworkEgress; simpl. by rewrite !app_nil_r, orb_false_r. Qed.

Definition merge_name (a b : string) : string :=
  if bool_decide (b = "") then a else if bool_decide (a = "") then b else a +:+ "+" +:+ b.
Lemma merge_name_assoc a b c : merge_name (merge_name a b) c = merge_name a (merge_name b c).
Proof.
  unfold merge_name. repeat case_bool_decide; subst; try done.
  all: try (by destruct a). all: try (by destruct b). by rewrite !str_app_assoc.
Qed.

Lemma mergePolicy_assoc a b c :
  mergePolicy (mergePolicy a b) c = mergePolicy a (mergePolicy b c).
Proof.
  unfold mergePolicy; simpl.
  rewrite !override_str_assoc, !override_assoc, !app_assoc, mergeScores_assoc,
    mergeNetworkEgress_assoc.
  f_equal. apply merge_name_assoc.
Qed.
Lemma mergePolicy_zero_r p : mergePolicy p Policy.zero = p.
Proof.
  destruct p. unfold mergePolicy; simpl.
  by rewrite !app_nil_r, mergeScores_zero_r, mergeNetworkEgress_zero_r.
Qed.
(** A single policy is kept, except for the durations, which are not YAML
    fields and are computed by [normalize]. *)
Lemma mergePolicy_zero_l p :
  mergePolicy Policy.zero p =
    p <| Policy.Window := 0 |> <| Policy.BlockTTL := 0 |> <| Policy.BlacklistScan := 0 |>.
Proof.
  destruct p. unfold mergePolicy; simpl.
  rewrite mergeScores_zero_l, mergeNetworkEgress_zero_l, !override_str_nil_l, override_0_l.
  by case_bool_decide; subst.
Qed.
End merge_theory.

(** merging policy files in groups and then merging the groups gives the
    policy that merging all files in order gives. *)
Theorem mergePolicies_app ps qs :
  mergePolicies (ps ++ qs) = mergePolicy (mergePolicies ps) (mergePolicies qs).
Proof.
  unfold mergePolicies. rewrite foldl_app. generalize (foldl mergePolicy Policy.zero ps).
  induction qs as [|q qs IH] using rev_ind; intros a; [by rewrite mergePolicy_zero_r|].
  rewrite !foldl_app, IH. simpl. by rewrite mergePolicy_assoc.
Qed.

(** ** Theorems: normalization *)
Section sum_lemmas.
Context {E : Type}.
Lemma fail_if_inr {A} b (e : E) (k : E + A) q :
  (fail_if b e ;; k) = inr q ↔ b = false ∧ k = inr q.
Proof. unfold fail_if. destruct b; simpl; naive_solver. Qed.
Lemma or_err_inr {A B} (o : option A) (e : E) (f : A → E + B) q :
  (or_err o e ≫= f) = inr q ↔ ∃ x, o = Some x ∧ f x = inr q.
Proof. destruct o; simpl; naive_solver. Qed.
Lemma bind_inr {A B} (m : E + A) (f : A → E + B) q :
  (m ≫= f) = inr q ↔ ∃ x, m = inr x ∧ f x = inr q.
Proof. destruct m; simpl; naive_solver. Qed.
End sum_lemmas.

(** What [validateRule] accepts. *)
Record rule_ok (r : Rule) : Prop := {
  rule_feature : Rule.Feature r ∈ ["distinct_paths"; "open_write_pairs"; "rename_suffix_count"];
  rule_op : Rule.Op r ∈ [">"; ">="; "=="; "<="; "<"];
  rule_value : 0 ≤ Rule.Value r;
  rule_action : Rule.Action r ∈ ["log"; "deny"; "kill"; "block"] }.

Lemma validateRule_ok r : validateRule r = inr () ↔ rule_ok r.
Proof.
  unfold validateRule. rewrite !fail_if_inr. unfold fail_if.
  rewrite !negb_false_iff, !bool_decide_eq_true, Z.ltb_ge. split.
  - intros (? & ? & ? & Ha). case_bool_decide; [|done]. by split.
  - intros []. by rewrite bool_decide_eq_true_2.
Qed.

(** What the rest of the program may assume of a loaded policy. *)
Record policy_wf (p : Policy) : Prop := {
  wf_window : 0 < Policy.Window p ≤ maxInt64;
  wf_block_ttl : 0 ≤ Policy.BlockTTL p ≤ maxInt64;
  wf_threshold : 0 < Policy.Threshold p;
  wf_action : Policy.Action p ∈ ["log"; "deny"; "kill"];
  wf_blacklist_scan : 0 ≤ Policy.BlacklistScan p ≤ maxInt64;
  wf_scores : Forall (λ v, 0 < v)
    (score_values (Policy.Scores p) (NetworkEgress.Score (Policy.NetworkEgress p)));
  wf_ports : Forall (λ v, 1 ≤ v ≤ 65535) (NetworkEgress.AllowedPort (Policy.NetworkEgress p));
  wf_extensions : Forall (λ e, e = "" ∨ HasPrefix e "." = true) (Policy.SuspiciousExtensions p);
  wf_rules : Forall (λ r, rule_ok r ∧ Rule.Action r ≠ "block") (Policy.Rules p) }.

Section normalize_theory.
Context `{Unicode} `{CIDR}.

Lemma checkPorts_ok l : checkPorts l = inr () ↔ Forall (λ v, 1 ≤ v ≤ 65535) l.
Proof.
  induction l as [|x l IH]; simpl; [by split|].
  rewrite fail_if_inr, IH, Forall_cons, orb_false_iff, !Z.ltb_ge. intuition lia.
Qed.
Lemma normalizeCIDRs_ok l l' :
  normalizeCIDRs l = inr l' ↔
  l' = map TrimSpace l ∧ Forall (λ c, ParseCIDR_ok (TrimSpace c) = true) l.
Proof.
  revert l'. induction l as [|x l IH]; intros l'; cbn [normalizeCIDRs].
  { unfold mret, sum_ret. rewrite Forall_nil. naive_solver. }
  rewrite fail_if_inr, negb_false_iff, bind_inr, Forall_cons. setoid_rewrite IH.
  unfold mret, sum_ret. simpl. naive_solver.
Qed.
Lemma normalizeExtension_ok e :
  normalizeExtension e = "" ∨ HasPrefix (normalizeExtension e) "." = true.
Proof.
  unfold normalizeExtension. case_bool_decide as He; cbn [negb andb]; [by left|]. right.
  destruct (HasPrefix (TrimSpace (ToLower e)) ".") eqn:Hp; [done|].
  by apply HasPrefix_spec; exists (TrimSpace (ToLower e)).
Qed.
Lemma normalizeRule_not_block action r :
  action ≠ "block" → Rule.Action (normalizeRule action r) ≠ "block".
Proof. intros Ha. simpl. by case_bool_decide. Qed.
Lemma normalizeRules_ok action i l l' :
  normalizeRules action i l = inr l' ↔
  l' = map (normalizeRule action) l ∧ Forall rule_ok (map (normalizeRule action) l).
Proof.
  revert i l'. induction l as [|r l IH]; intros i l'; cbn [normalizeRules map].
  { unfold mret, sum_ret. rewrite Forall_nil. naive_solver. }
  cbv zeta. rewrite Forall_cons, <- validateRule_ok.
  destruct (validateRule _) as [e|[]]; [naive_solver|].
  rewrite bind_inr. setoid_rewrite IH. unfold mret, sum_ret. naive_solver.
Qed.
Lemma default_int_pos v d : d ≠ 0 → 0 ≤ default_int v d → 0 < default_int v d.
Proof. unfold default_int. case_match; lia. Qed.
Lemma default_int_nonneg v d : 0 < d → 0 ≤ default_int v d ↔ 0 ≤ v.
Proof. unfold default_int. case_match; lia. Qed.
Lemma no_negative l : existsb (λ v, v <? 0) l = false ↔ Forall (λ v, 0 ≤ v) l.
Proof.
  induction l as [|x l IH]; simpl; [done|].
  rewrite Forall_cons, <- IH, orb_false_iff, Z.ltb_ge. done.
Qed.
Lemma validateScores_ok s n :
  validateScores s n = inr () ↔ Forall (λ v, 0 ≤ v) (score_values s n).
Proof.
  rewrite <- no_negative. unfold validateScores, fail_if. by destruct (existsb _ _).
Qed.
End normalize_theory.

Section normalize_claims.
Context `{Unicode} `{CIDR}.

(** The conditions under which a policy is accepted, in terms of its raw
    fields. *)
Record acceptable (p : Policy) : Prop := {
  acc_window : ∃ w, ParseDuration (default_str (Policy.WindowRaw p) "10s") = Some w ∧ 0 < w;
  acc_block_ttl : ∃ t, ParseDuration (default_str (Policy.BlockTTLRaw p) "10m") = Some t ∧ 0 ≤ t;
  acc_threshold : 0 ≤ Policy.Threshold p;
  acc_action : ToLower (TrimSpace (default_str (Policy.Action p) "log")) ∈ ["log"; "deny"; "kill"];
  acc_scan : ∃ b, ParseDuration (default_str (Policy.BlacklistScanRaw p) "5s") = Some b ∧ 0 ≤ b;
  acc_cidrs : Forall (λ c, ParseCIDR_ok (TrimSpace c) = true)
    (NetworkEgress.AllowedCIDR (Policy.NetworkEgress p));
  acc_ports : Forall (λ v, 1 ≤ v ≤ 65535) (NetworkEgress.AllowedPort (Policy.NetworkEgress p));
  (** a network score of 0 stands for [scores.network_egress] *)
  acc_scores : Forall (λ v, 0 ≤ v)
    (score_values (Policy.Scores p)
       (default_int (NetworkEgress.Score (Policy.NetworkEgress p))
          (Scores.NetworkEgress (Policy.Scores p))));
  acc_rules : Forall (λ r, rule_ok (normalizeRule
      (ToLower (TrimSpace (default_str (Policy.Action p) "log"))) r)) (Policy.Rules p) }.

Lemma scores_default_nonneg s n :
  Forall (λ v, 0 ≤ v)
    (score_values (defaultScores s) (default_int n (Scores.NetworkEgress (defaultScores s)))) ↔
  Forall (λ v, 0 ≤ v) (score_values s (default_int n (Scores.NetworkEgress s))).
Proof.
  unfold score_values. destruct s; simpl. rewrite !Forall_cons, !default_int_nonneg by lia.
  assert (0 ≤ default_int n (default_int NetworkEgress 5) ↔ 0 ≤ default_int n NetworkEgress) as ->.
  { unfold default_int. repeat case_match; lia. }
  done.
Qed.

Lemma scores_default_pos s n :
  Forall (λ v, 0 ≤ v)
    (score_values (defaultScores s) (default_int n (Scores.NetworkEgress (defaultScores s)))) →
  Scores.NetworkEgress (defaultScores s) ≠ 0 →
  Forall (λ v, 0 < v)
    (score_values (defaultScores s) (default_int n (Scores.NetworkEgress (defaultScores s)))).
Proof.
  unfold score_values. destruct s; simpl. intros Hs Hn.
  repeat (apply Forall_cons in Hs as [? Hs]).
  repeat (apply Forall_cons_2; [by apply default_int_pos|]). done.
Qed.
Lemma default_network_nonzero s : Scores.NetworkEgress (defaultScores s) ≠ 0.
Proof. simpl. unfold default_int. case_match; lia. Qed.

(** Invert the error monad in [H], one guard or call at a time. *)
Ltac sum_inv H :=
  repeat lazymatch type of H with
    | (fail_if _ _ ;; _) = inr _ => apply fail_if_inr in H as [? H]
    | (or_err _ _ ≫= _) = inr _ => apply or_err_inr in H as (? & ? & H)
    | (_ ≫= _) = inr _ => apply bind_inr in H as (? & ? & H)
    end.

Lemma normalize_inr p q : normalize p = inr q → acceptable p ∧ policy_wf q.
Proof.
  unfold normalize. cbv zeta. intros Hq. sum_inv Hq.
  repeat match goal with
    | H : normalizeCIDRs _ = _ |- _ => apply normalizeCIDRs_ok in H as [-> ?]
    | H : normalizeRules _ _ _ = _ |- _ => apply normalizeRules_ok in H as [-> ?]
    | H : checkPorts _ = inr ?u |- _ => destruct u; apply checkPorts_ok in H
    | H : validateScores _ _ = inr ?u |- _ => destruct u; apply validateScores_ok in H
    | H : negb _ = false |- _ => apply negb_false_iff, bool_decide_eq_true in H
    | H : (_ <=? _) = false |- _ => apply Z.leb_gt in H
    | H : (_ <? _) = false |- _ => apply Z.ltb_ge in H
    | H : ParseDuration _ = Some ?d |- _ =>
        lazymatch goal with
        | _ : is_int64 d |- _ => fail
        | _ => pose proof (ParseDuration_range _ _ H)
        end
    end.
  injection Hq as <-. unfold is_int64 in *. split; split; cbn -[HasPrefix]; eauto; try lia.
  - by apply default_int_nonneg in H5.
  - by apply scores_default_nonneg.
  - by apply Forall_map.
  - by apply default_int_pos.
  - apply scores_default_pos; [done|apply default_network_nonzero].
  - apply Forall_map, Forall_true. apply normalizeExtension_ok.
  - rewrite Forall_map in *. eapply Forall_impl; [done|]. intros r Hr. split; [done|].
    apply normalizeRule_not_block. intros Hb. rewrite Hb in *.
    repeat match goal with H : "block" ∈ _ |- _ => apply elem_of_cons in H as [?|H] end;
      [done..|]. by apply not_elem_of_nil in H6.
Qed.

Lemma normalize_accepts_1 p : acceptable p → ∃ q, normalize p = inr q.
Proof.
  intros [(w & Hw & ?) (t & Ht & ?) ? Ha (b & Hb & ?) Hc Hp Hs Hr].
  eexists. unfold normalize. cbv zeta.
  apply or_err_inr. eexists; split; [exact Hw|].
  apply fail_if_inr. split; [by apply Z.leb_gt|].
  apply or_err_inr. eexists; split; [exact Ht|].
  apply fail_if_inr. split; [by apply Z.ltb_ge|].
  apply fail_if_inr. split; [by apply Z.ltb_ge, default_int_nonneg|].
  apply fail_if_inr. split; [by apply negb_false_iff, bool_decide_eq_true|].
  apply or_err_inr. eexists; split; [exact Hb|].
  apply fail_if_inr. split; [by apply Z.ltb_ge|].
  apply bind_inr. eexists; split; [by apply normalizeCIDRs_ok|].
  apply bind_inr. exists (); split; [by apply checkPorts_ok|].
  apply bind_inr. exists (); split; [by apply validateScores_ok, scores_default_nonneg|].
  apply bind_inr. eexists; split; [|reflexivity].
  apply normalizeRules_ok. split; [done|]. by apply Forall_map.
Qed.

(** C30: every policy that loads is well formed: the window and threshold are
    positive, no duration is negative, every score that is validated is
    positive (for network egress the effective one), the action and every rule
    are among the supported ones (with ["block"] rewritten), ports are in
    range and an extension that is not blank begins with a dot. *)
Theorem normalize_wf p q : normalize p = inr q → policy_wf q.
Proof. apply normalize_inr. Qed.

(** C29: [normalize] rejects a policy exactly when one of the documented
    conditions on its raw fields fails; no other policy is refused. *)
Theorem normalize_accepts p : (∃ q, normalize p = inr q) ↔ acceptable p.
Proof. split; [by intros [q [? _]%normalize_inr]|apply normalize_accepts_1]. Qed.

(** [normalize] computes the durations itself. *)
Lemma normalize_durations p w t b :
  normalize (p <| Policy.Window := w |> <| Policy.BlockTTL := t |> <| Policy.BlacklistScan := b |>)
  = normalize p.
Proof. reflexivity. Qed.

(** loading one file through the multi-file entry point gives the same
    policy, or the same error, as loading it alone. *)
Theorem LoadMany_single ReadFile Decode path :
  LoadMany ReadFile Decode [path] = Load ReadFile Decode path.
Proof.
  unfold LoadMany, Load. simpl. destruct (loadOne _ _ _) as [e|p]; [done|]. simpl.
  unfold mergePolicies. simpl. rewrite mergePolicy_zero_l. apply normalize_durations.
Qed.
End normalize_claims.
