(* ===== verification/World.v ===== *)
(** * The outside world

    Clock, procfs, file system and process queries are answered by an oracle:
    the answer to a query may depend on how many queries were made before it
    (its first argument) and on nothing the program can control.  [None] is
    an error returned by the call. *)
From S2P Require Import Prelude GoStrings.

(** What [os.Stat] tells of a file; [Dev] and [Ino] identify it
    ([os.SameFile], [syscall.Stat_t]). *)
Module FileInfo.
Record FileInfo := mkFileInfo { Size : Z; ModTime : Z; Dev : Z; Ino : Z }.
#[export] Instance FileInfo_eq_dec : EqDecision FileInfo.
Proof. solve_decision. Defined.
End FileInfo.
Export (hints) FileInfo.
Abbreviation FileInfo := FileInfo.FileInfo.

Class World : Type := {
  time_Now : nat → Z;
  os_ReadFile : string → nat → option string;
  os_Readlink : string → nat → option string;
  os_Stat : string → nat → option FileInfo;
  (** the entries of a directory: name and whether it is a directory *)
  os_ReadDir : string → nat → option (list (string * bool));
  (** the bytes of a file, read to its end *)
  read_all : string → nat → option (list Z);
  (** [os.IsNotExist] of the error of opening the file *)
  not_exist : string → nat → bool;
  (** where the iteration over a Go map starts: the runtime picks it *)
  map_order : nat → nat;
  (** whether a write to a kernel map is accepted *)
  map_Put_ok : nat → bool;
  os_Getpid : Z }.

(** The environment of the process. *)
Class Environ : Type := os_Getenv : string → string.

Definition now `{World} {S} : M S Z := ask time_Now.

(** [time.Duration(seconds * float64(time.Second))] for the number of seconds
    [strconv.ParseFloat] reads, or its error. *)
Class FloatSeconds : Type := parse_seconds : string → option Z.

Section uptime.
Context `{World} `{FloatSeconds}.
(** [monotonicUptime] of internal/sensor/uptime.go *)
Definition monotonicUptime {S} : M S (option Z) :=
  data ← ask (os_ReadFile "/proc/uptime");
  mret (data ← data;
        match Fields data with
        | [] => None
        | field :: _ => parse_seconds field
        end).
End uptime.
