(* ===== verification/Event.v ===== *)
(** * Event records: internal/sensor/event.go

    The event the kernel side sends, its binary layout (bpf/events.h) and the
    decoder.  A read outside the buffer, which panics in Go, is [None]; a
    decoding error is [inl].  [wire] lays an event out as the kernel does, and
    the theorems show the decoder inverts it in both byte orders. *)
From S2P Require Import Prelude GoStrings GoTime World.

(** ** Constants *)
Definition EventExec : Z := 1.
Definition EventOpen : Z := 2.
Definition EventWrite : Z := 3.
Definition EventRename : Z := 4.
Definition EventUnlink : Z := 5.
Definition EventTruncate : Z := 6.
Definition EventBlock : Z := 7.
Definition EventClose : Z := 8.
Definition EventDup : Z := 9.
Definition EventScan : Z := 10.
Definition EventMmap : Z := 11.
Definition EventIOUring : Z := 12.
Definition EventConnect : Z := 13.
Definition EventLink : Z := 14.

Definition taskCommLen : nat := 16.
Definition pathMaxLen : nat := 256.
Definition eventSize : nat := 8 + 4 + 4 + 4 + 4 + 4 + 4 + 4 + 4 + 8 + taskCommLen + pathMaxLen + pathMaxLen.
Definition eventV2Size : nat := eventSize + 64.
Definition afInet6 : Z := 10.

Definition PhaseUnknown : Z := 0.
Definition PhaseAttempt : Z := 1.
Definition PhaseSuccess : Z := 2.
Definition PhaseFailure : Z := 3.
Definition PhaseBlocked : Z := 4.
Definition PhaseObservation : Z := 5.

Definition SourceUnknown : Z := 0.
Definition SourceTracepoint : Z := 1.
Definition SourceKprobe : Z := 2.
Definition SourceLSM : Z := 3.
Definition SourceSched : Z := 4.

Definition EventFlagResultValid : Z := 1.
Definition EventFlagRequestedBytesValid : Z := 2.
Definition EventFlagActualBytesValid : Z := 4.
Definition EventFlagSyscallIDValid : Z := 8.
Definition EventFlagVectorCountValid : Z := 16.

(** ** Data *)
Module Event.
Record Event := mkEvent {
  Timestamp : Z; PID : Z; TGID : Z; PPID : Z; UID : Z; Type_ : Z;
  Arg0 : Z; Arg1 : Z; Size : Z; Comm : string; Path : string; Path2 : string;
  ABIVersion : Z; Phase : Z; Source : Z; Flags : Z; SyscallID : Z; Result : Z;
  OperationID : Z; RequestedBytes : Z; ActualBytes : Z; VectorCount : Z; MonotonicNS : Z }.
#[export] Instance eta_Event : Eta Event := λ e,
  mkEvent (Timestamp e) (PID e) (TGID e) (PPID e) (UID e) (Type_ e) (Arg0 e) (Arg1 e)
    (Size e) (Comm e) (Path e) (Path2 e) (ABIVersion e) (Phase e) (Source e) (Flags e)
    (SyscallID e) (Result e) (OperationID e) (RequestedBytes e) (ActualBytes e)
    (VectorCount e) (MonotonicNS e).
End Event.
Export (hints) Event.
Abbreviation Event := Event.Event.

Definition HasResult (e : Event) : bool := negb (Z.land (Event.Flags e) EventFlagResultValid =? 0).
Definition HasRequestedBytes (e : Event) : bool :=
  negb (Z.land (Event.Flags e) EventFlagRequestedBytesValid =? 0).
Definition HasActualBytes (e : Event) : bool :=
  negb (Z.land (Event.Flags e) EventFlagActualBytesValid =? 0).
Definition HasSyscallID (e : Event) : bool :=
  negb (Z.land (Event.Flags e) EventFlagSyscallIDValid =? 0).
Definition HasVectorCount (e : Event) : bool :=
  negb (Z.land (Event.Flags e) EventFlagVectorCountValid =? 0).

(** [fmt.Sprintf("unknown(%d)", n)] *)
Definition unknown_name (n : Z) : string := "unknown(" +:+ pretty n +:+ ")".

Definition PhaseName (e : Event) : string :=
  let p := Event.Phase e in
  if p =? PhaseUnknown then "unknown" else if p =? PhaseAttempt then "attempt"
  else if p =? PhaseSuccess then "success" else if p =? PhaseFailure then "failure"
  else if p =? PhaseBlocked then "blocked" else if p =? PhaseObservation then "observation"
  else unknown_name p.
Definition SourceName (e : Event) : string :=
  let s := Event.Source e in
  if s =? SourceUnknown then "unknown" else if s =? SourceTracepoint then "tracepoint"
  else if s =? SourceKprobe then "kprobe" else if s =? SourceLSM then "lsm"
  else if s =? SourceSched then "sched" else unknown_name s.
(** [TypeName] here and [eventName] of internal/agent/agent.go are the same
    table, of the event type and of a number. *)
Definition eventName (t : Z) : string :=
  if t =? EventExec then "exec" else if t =? EventOpen then "open"
  else if t =? EventWrite then "write" else if t =? EventRename then "rename"
  else if t =? EventUnlink then "unlink" else if t =? EventTruncate then "truncate"
  else if t =? EventBlock then "block" else if t =? EventClose then "close"
  else if t =? EventDup then "dup" else if t =? EventScan then "scan"
  else if t =? EventMmap then "mmap" else if t =? EventIOUring then "io_uring"
  else if t =? EventConnect then "connect" else if t =? EventLink then "link"
  else unknown_name t.
Definition TypeName (e : Event) : string := eventName (Event.Type_ e).

(** ** Byte buffers *)
Inductive ByteOrder := LittleEndian | BigEndian.
#[export] Instance ByteOrder_eq_dec : EqDecision ByteOrder.
Proof. solve_decision. Defined.

Fixpoint le_uint (l : list Z) : Z :=
  match l with [] => 0 | b :: l => b + 256 * le_uint l end.
Definition uint_of (order : ByteOrder) (l : list Z) : Z :=
  match order with LittleEndian => le_uint l | BigEndian => le_uint (rev l) end.
(** [raw[lo:hi]] *)
Definition slice (raw : list Z) (lo hi : nat) : option (list Z) :=
  if bool_decide (lo ≤ hi ∧ hi ≤ length raw)%nat then Some (take (hi - lo) (drop lo raw)) else None.
(** [order.Uint32(raw[off:])] and [order.Uint64(raw[off:])] *)
Definition Uint32 (order : ByteOrder) (raw : list Z) (off : nat) : option Z :=
  uint_of order <$> slice raw off (off + 4).
Definition Uint64 (order : ByteOrder) (raw : list Z) (off : nat) : option Z :=
  uint_of order <$> slice raw off (off + 8).
(** [cString]: the bytes before the first NUL. *)
Fixpoint before_nul (buf : list Z) : list Z :=
  match buf with
  | [] => []
  | b :: buf => if b =? 0 then [] else b :: before_nul buf
  end.
Definition cString (buf : list Z) : string := of_bytes (before_nul buf).

(** ** Wall-clock timestamps

    [eventClockWall] and [eventClockMono], [None] until [eventClockOnce] ran. *)
Module EventClock.
Record EventClock := mkEventClock { Wall : Z; Mono : Z }.
End EventClock.
Abbreviation EventClock := EventClock.EventClock.

(** The conversion once the clock is set. *)
Definition clockTime (c : EventClock) (ts : Z) : Z :=
  if EventClock.Mono c <=? ts then
    let d := ts - EventClock.Mono c in
    if maxInt64 <? d then EventClock.Wall c else EventClock.Wall c + d
  else
    let d := EventClock.Mono c - ts in
    if maxInt64 <? d then EventClock.Wall c else EventClock.Wall c + (- d).

Section decode.
Context `{World} `{FloatSeconds}.

(** The body of [eventClockOnce.Do]. *)
Definition initClock (ts : Z) : M (option EventClock) EventClock :=
  wall ← now;
  uptime ← monotonicUptime;
  let mono := match uptime with
              | Some u => if 0 <=? u then uint64 u else ts
              | None => ts
              end in
  let c := EventClock.mkEventClock wall mono in
  modS (λ _, Some c) ;;
  mret c.
Definition eventTimestamp (ts : Z) : M (option EventClock) Z :=
  if ts =? 0 then now
  else
    clock ← getS;
    c ← match clock with Some c => mret c | None => initClock ts end;
    mret (clockTime c ts).

Inductive DecodeError :=
| ErrShortEvent | ErrEventLength | ErrABIVersion (v : Z) | ErrPhase (v : Z)
| ErrSource (v : Z) | ErrFlags (v : Z).

Definition knownFlags : Z :=
  Z.lor EventFlagResultValid (Z.lor EventFlagRequestedBytesValid
    (Z.lor EventFlagActualBytesValid (Z.lor EventFlagSyscallIDValid EventFlagVectorCountValid))).

(** The 576-byte prefix common to both versions. *)
Definition decodePrefix (raw : list Z) (order : ByteOrder) (ts timestamp : Z) : option Event :=
  pid ← Uint32 order raw 8;
  tgid ← Uint32 order raw 12;
  ppid ← Uint32 order raw 16;
  uid ← Uint32 order raw 20;
  typ ← Uint32 order raw 24;
  arg0 ← Uint32 order raw 28;
  arg1 ← Uint32 order raw 32;
  size ← Uint64 order raw 40;
  comm ← slice raw 48 (48 + taskCommLen);
  path ← (if (typ =? EventConnect) && (size =? afInet6)
          then of_bytes <$> slice raw 64 (64 + 16)
          else cString <$> slice raw 64 (64 + pathMaxLen));
  path2 ← slice raw 320 (320 + pathMaxLen);
  Some (Event.mkEvent timestamp pid tgid ppid uid typ (int32 arg0) (int32 arg1) size
          (cString comm) path (cString path2) 1 0 0 0 0 0 0 0 0 0 ts).

(** The 64 bytes version 2 appends. *)
Definition decodeV2 (raw : list Z) (order : ByteOrder) (e : Event) : option (DecodeError + Event) :=
  version ← Uint32 order raw eventSize;
  if negb (version =? 2) then Some (inl (ErrABIVersion version))
  else
    phase ← Uint32 order raw (eventSize + 4);
    source ← Uint32 order raw (eventSize + 8);
    flags ← Uint32 order raw (eventSize + 12);
    if PhaseObservation <? phase then Some (inl (ErrPhase phase))
    else if SourceSched <? source then Some (inl (ErrSource source))
    else if negb (Z.land flags (wrap_u 32 (Z.lnot knownFlags)) =? 0) then Some (inl (ErrFlags flags))
    else
      syscall_id ← Uint64 order raw (eventSize + 16);
      result ← Uint64 order raw (eventSize + 24);
      operation_id ← Uint64 order raw (eventSize + 32);
      requested ← Uint64 order raw (eventSize + 40);
      actual ← Uint64 order raw (eventSize + 48);
      vector_count ← Uint32 order raw (eventSize + 56);
      Some (inr (e <| Event.ABIVersion := version |> <| Event.Phase := phase |>
                   <| Event.Source := source |> <| Event.Flags := flags |>
                   <| Event.SyscallID := int64 syscall_id |> <| Event.Result := int64 result |>
                   <| Event.OperationID := operation_id |> <| Event.RequestedBytes := requested |>
                   <| Event.ActualBytes := actual |> <| Event.VectorCount := vector_count |>)).

Definition decodeEvent (raw : list Z) (order : ByteOrder)
    : M (option EventClock) (option (DecodeError + Event)) :=
  if bool_decide (length raw < eventSize)%nat then mret (Some (inl ErrShortEvent))
  else
    let legacy := bool_decide (length raw ≤ eventSize + 7)%nat in
    if negb legacy && (bool_decide (length raw < eventV2Size)%nat
                       || bool_decide (eventV2Size + 7 < length raw)%nat)
    then mret (Some (inl ErrEventLength))
    else match Uint64 order raw 0 with
         | None => mret None
         | Some ts =>
             timestamp ← eventTimestamp ts;
             mret (e ← decodePrefix raw order ts timestamp;
                   if legacy then Some (inr e) else decodeV2 raw order e)
         end.

(** The byte order of the host. *)
Context (NativeEndian : ByteOrder).
Definition recordOrder (raw : list Z) : option ByteOrder :=
  if bool_decide (eventV2Size ≤ length raw)%nat then
    little ← Uint32 LittleEndian raw eventSize;
    if little =? 2 then Some LittleEndian
    else
      big ← Uint32 BigEndian raw eventSize;
      Some (if big =? 2 then BigEndian else NativeEndian)
  else Some NativeEndian.
Definition DecodeEvent (raw : list Z) : M (option EventClock) (option (DecodeError + Event)) :=
  match recordOrder raw with
  | None => mret None
  | Some order => decodeEvent raw order
  end.
End decode.

(** ** Theorems: reading *)
Lemma slice_Some raw lo hi :
  (lo ≤ hi ≤ length raw)%nat → is_Some (slice raw lo hi).
Proof. intros. unfold slice. rewrite bool_decide_eq_true_2 by lia. eauto. Qed.

Lemma Uint32_Some order raw off : (off + 4 ≤ length raw)%nat → is_Some (Uint32 order raw off).
Proof. intros. apply fmap_is_Some, slice_Some. lia. Qed.
Lemma Uint64_Some order raw off : (off + 8 ≤ length raw)%nat → is_Some (Uint64 order raw off).
Proof. intros. apply fmap_is_Some, slice_Some. lia. Qed.

(** Every read of a sequence of reads is in range. *)
Ltac reads_in_range :=
  repeat match goal with
    | |- context [Uint32 ?o ?r ?k] =>
        let x := fresh "x" in
        destruct (Uint32_Some o r k) as [x ->]; [unfold eventV2Size, eventSize, taskCommLen, pathMaxLen in *; lia|];
        cbn [mbind option_bind]
    | |- context [Uint64 ?o ?r ?k] =>
        let x := fresh "x" in
        destruct (Uint64_Some o r k) as [x ->]; [unfold eventV2Size, eventSize, taskCommLen, pathMaxLen in *; lia|];
        cbn [mbind option_bind]
    | |- context [slice ?r ?i ?k] =>
        let x := fresh "x" in
        destruct (slice_Some r i k) as [x ->]; [unfold eventV2Size, eventSize, taskCommLen, pathMaxLen in *; lia|];
        cbn [mbind option_bind fmap option_fmap option_map]
    end.

Lemma decodePrefix_in_range raw order ts t :
  (eventSize ≤ length raw)%nat → is_Some (decodePrefix raw order ts t).
Proof.
  intros. unfold decodePrefix. reads_in_range. destruct (_ && _); reads_in_range; eauto.
Qed.
Lemma decodeV2_in_range raw order e :
  (eventV2Size ≤ length raw)%nat → is_Some (decodeV2 raw order e).
Proof.
  intros. unfold decodeV2. reads_in_range. repeat case_match; eauto; reads_in_range; eauto.
Qed.

Lemma recordOrder_in_range native raw : is_Some (recordOrder native raw).
Proof.
  unfold recordOrder. case_bool_decide; [|by eexists]. reads_in_range.
  case_match; [by eexists|]. reads_in_range. by eexists.
Qed.

(** C28: whatever bytes the transport delivers, the decoder returns an event or
    an error: no read leaves the buffer (no index panics), those that find the
    byte order included. *)
Theorem DecodeEvent_no_panic `{World} `{FloatSeconds} native raw n clock :
  is_Some (result (DecodeEvent native raw) n clock).
Proof.
  unfold DecodeEvent. destruct (recordOrder_in_range native raw) as [order ->].
  unfold decodeEvent. case_bool_decide; [eexists; reflexivity|].
  destruct (negb _ && _) eqn:Hlen; [eexists; reflexivity|].
  destruct (Uint64_Some order raw 0) as [ts ->]; [unfold eventSize in *; lia|].
  unfold result, mbind at 1, M_bind. destruct (eventTimestamp ts n clock) as [[t n'] c'].
  cbn [fst]. unfold mret, M_ret. cbn [fst].
  destruct (decodePrefix_in_range raw order ts t) as [e ->]; [lia|]. cbn [mbind option_bind].
  case_bool_decide; [by eexists|]. cbn [negb andb] in Hlen.
  apply orb_false_iff in Hlen as [?%bool_decide_eq_false _].
  apply decodeV2_in_range. lia.
Qed.

(** ** The layout of [struct event] in bpf/events.h *)
Fixpoint le_bytes (n : nat) (z : Z) : list Z :=
  match n with O => [] | S n => z mod 256 :: le_bytes n (z / 256) end.
Definition put_uint (order : ByteOrder) (n : nat) (z : Z) : list Z :=
  match order with LittleEndian => le_bytes n z | BigEndian => rev (le_bytes n z) end.
(** A [char] array of [n] bytes holding [s], zero filled. *)
Definition put_str (n : nat) (s : string) : list Z :=
  bytes s ++ replicate (n - length (bytes s)) 0.

Definition wire_prefix (order : ByteOrder) (e : Event) : list (list Z) :=
  [put_uint order 8 (Event.MonotonicNS e); put_uint order 4 (Event.PID e);
   put_uint order 4 (Event.TGID e); put_uint order 4 (Event.PPID e); put_uint order 4 (Event.UID e);
   put_uint order 4 (Event.Type_ e); put_uint order 4 (Event.Arg0 e); put_uint order 4 (Event.Arg1 e);
   replicate 4 0; put_uint order 8 (Event.Size e); put_str taskCommLen (Event.Comm e);
   put_str pathMaxLen (Event.Path e); put_str pathMaxLen (Event.Path2 e)].
Definition wire_v2 (order : ByteOrder) (e : Event) : list (list Z) :=
  wire_prefix order e ++
  [put_uint order 4 2; put_uint order 4 (Event.Phase e); put_uint order 4 (Event.Source e);
   put_uint order 4 (Event.Flags e); put_uint order 8 (Event.SyscallID e);
   put_uint order 8 (Event.Result e); put_uint order 8 (Event.OperationID e);
   put_uint order 8 (Event.RequestedBytes e); put_uint order 8 (Event.ActualBytes e);
   put_uint order 4 (Event.VectorCount e); replicate 4 0].

Definition sizes_prefix : list nat := [8; 4; 4; 4; 4; 4; 4; 4; 4; 8; 16; 256; 256]%nat.
Definition sizes_v2 : list nat := sizes_prefix ++ [4; 4; 4; 4; 8; 8; 8; 8; 8; 4; 4]%nat.

(** A string that fits a [char] array and has no NUL in it. *)
Definition c_str (n : nat) (s : string) : Prop :=
  (length (bytes s) ≤ n)%nat ∧ 0 ∉ bytes s.
Definition is_connect6 (e : Event) : bool :=
  (Event.Type_ e =? EventConnect) && (Event.Size e =? afInet6).

(** The events a record can represent. *)
Record event_wf (e : Event) : Prop := {
  ewf_mono : is_uint64 (Event.MonotonicNS e);
  ewf_pid : is_uint32 (Event.PID e); ewf_tgid : is_uint32 (Event.TGID e);
  ewf_ppid : is_uint32 (Event.PPID e); ewf_uid : is_uint32 (Event.UID e);
  ewf_type : is_uint32 (Event.Type_ e);
  ewf_arg0 : - 2 ^ 31 ≤ Event.Arg0 e < 2 ^ 31; ewf_arg1 : - 2 ^ 31 ≤ Event.Arg1 e < 2 ^ 31;
  ewf_size : is_uint64 (Event.Size e);
  ewf_comm : c_str taskCommLen (Event.Comm e);
  (** an IPv6 connect carries the 16 address bytes in the path *)
  ewf_path : if is_connect6 e then length (bytes (Event.Path e)) = 16%nat
             else c_str pathMaxLen (Event.Path e);
  ewf_path2 : c_str pathMaxLen (Event.Path2 e) }.
Record event_v2_wf (e : Event) : Prop := {
  ewf_prefix : event_wf e;
  ewf_version : Event.ABIVersion e = 2;
  ewf_phase : 0 ≤ Event.Phase e ≤ PhaseObservation;
  ewf_source : 0 ≤ Event.Source e ≤ SourceSched;
  ewf_flags : 0 ≤ Event.Flags e ≤ knownFlags;
  ewf_syscall : is_int64 (Event.SyscallID e); ewf_result : is_int64 (Event.Result e);
  ewf_operation : is_uint64 (Event.OperationID e);
  ewf_requested : is_uint64 (Event.RequestedBytes e);
  ewf_actual : is_uint64 (Event.ActualBytes e);
  ewf_vector : is_uint32 (Event.VectorCount e) }.

(** ** Theorems: encoding and reading back *)
Lemma length_le_bytes n z : length (le_bytes n z) = n.
Proof. revert z. induction n as [|n IH]; intros z; simpl; [done|]. by rewrite IH. Qed.
Lemma length_put_uint order n z : length (put_uint order n z) = n.
Proof. destruct order; simpl; [|rewrite length_rev]; apply length_le_bytes. Qed.
Lemma length_put_str n s : (length (bytes s) ≤ n)%nat → length (put_str n s) = n.
Proof. intros. unfold put_str. rewrite length_app, length_replicate. lia. Qed.

Lemma le_uint_le_bytes n z : le_uint (le_bytes n z) = z mod 256 ^ Z.of_nat n.
Proof.
  revert z. induction n as [|n IH]; intros z; cbn [le_bytes le_uint]; [by rewrite Z.mod_1_r|].
  rewrite IH, Nat2Z.inj_succ, Z.pow_succ_r by lia.
  rewrite Z.rem_mul_r by lia. done.
Qed.
Lemma uint_of_put_uint order n z : uint_of order (put_uint order n z) = z mod 256 ^ Z.of_nat n.
Proof. destruct order; simpl; [|rewrite List.rev_involutive]; apply le_uint_le_bytes. Qed.

Lemma before_nul_zeros l k : 0 ∉ l → before_nul (l ++ replicate k 0) = l.
Proof.
  induction l as [|b l IH]; intros Hs; simpl; [by destruct k|].
  apply not_elem_of_cons in Hs as [Hb Hs]. destruct (Z.eqb_spec b 0); [congruence|].
  f_equal. by apply IH.
Qed.
Lemma cString_put_str n s : 0 ∉ bytes s → cString (put_str n s) = s.
Proof. intros Hs. unfold cString, put_str. rewrite before_nul_zeros by done. apply of_bytes_bytes. Qed.

(** Slicing a concatenation of chunks of known sizes at a chunk boundary. *)
Lemma slice_chunk chunks sizes pad i c n :
  Forall2 (λ c n, length c = n) chunks sizes →
  chunks !! i = Some c → sizes !! i = Some n →
  slice (concat chunks ++ pad) (sum_list (take i sizes)) (sum_list (take i sizes) + n) = Some c.
Proof.
  intros HF. revert i c n. induction HF as [|x k chunks sizes Hx HF IH]; intros i c n Hc Hn; [done|].
  destruct i as [|i]; simplify_eq/=.
  - unfold slice. rewrite <- app_assoc, bool_decide_eq_true_2 by (rewrite length_app; lia).
    f_equal. apply take_app_length'. lia.
  - specialize (IH i c n Hc Hn). unfold slice in *.
    case_bool_decide as Hb; [|done]. rewrite <- app_assoc, bool_decide_eq_true_2 by (rewrite length_app; lia).
    rewrite drop_app_add' by lia. rewrite <- IH. do 2 f_equal; lia.
Qed.

Lemma slice_take raw lo hi c k :
  slice raw lo hi = Some c → (lo + k ≤ hi)%nat → slice raw lo (lo + k) = Some (take k c).
Proof.
  unfold slice. intros H Hk. case_bool_decide; [|done]. simplify_eq.
  rewrite bool_decide_eq_true_2 by lia. rewrite take_take. do 2 f_equal. lia.
Qed.

Section roundtrip.
Context (order : ByteOrder) (chunks : list (list Z)) (sizes : list nat) (pad : list Z).
Context (Hsizes : Forall2 (λ c n, length c = n) chunks sizes).
Let raw := concat chunks ++ pad.

Lemma slice_at i off n c :
  chunks !! i = Some c → sizes !! i = Some n → sum_list (take i sizes) = off →
  slice raw off (off + n) = Some c.
Proof. intros ? ? <-. by eapply slice_chunk. Qed.
Lemma Uint32_at i off z :
  chunks !! i = Some (put_uint order 4 z) → sizes !! i = Some 4%nat →
  sum_list (take i sizes) = off → Uint32 order raw off = Some (wrap_u 32 z).
Proof.
  intros. unfold Uint32. erewrite slice_at by done. simpl.
  by rewrite uint_of_put_uint.
Qed.
Lemma Uint64_at i off z :
  chunks !! i = Some (put_uint order 8 z) → sizes !! i = Some 8%nat →
  sum_list (take i sizes) = off → Uint64 order raw off = Some (wrap_u 64 z).
Proof.
  intros. unfold Uint64. erewrite slice_at by done. simpl.
  by rewrite uint_of_put_uint.
Qed.
End roundtrip.

Lemma wrap_s_wrap_u w z : 0 < w → - 2 ^ (w - 1) ≤ z < 2 ^ (w - 1) → wrap_s w (wrap_u w z) = z.
Proof.
  intros Hw Hz. rewrite <- (wrap_s_small w z) at 2 by done. unfold wrap_s, wrap_u.
  by rewrite Z.add_mod_idemp_l by lia.
Qed.

Lemma wire_prefix_sizes order e :
  event_wf e → Forall2 (λ c n, length c = n) (wire_prefix order e) sizes_prefix.
Proof.
  intros Hwf. unfold wire_prefix, sizes_prefix.
  assert (length (bytes (Event.Path e)) ≤ pathMaxLen)%nat.
  { pose proof (ewf_path e Hwf) as Hp. destruct (is_connect6 e); [unfold pathMaxLen; lia|]. apply Hp. }
  repeat (apply Forall2_cons_2; [first [apply length_put_uint | done | idtac]|]); [..|done].
  - apply length_put_str, (ewf_comm e Hwf).
  - by apply length_put_str.
  - apply length_put_str, (ewf_path2 e Hwf).
Qed.

Lemma path_wire raw e :
  event_wf e → slice raw 64 (64 + pathMaxLen) = Some (put_str pathMaxLen (Event.Path e)) →
  (if is_connect6 e then of_bytes <$> slice raw 64 (64 + 16)
   else cString <$> slice raw 64 (64 + pathMaxLen)) = Some (Event.Path e).
Proof.
  intros Hwf Hs. pose proof (ewf_path e Hwf) as Hp. destruct (is_connect6 e).
  - rewrite (slice_take _ _ _ _ 16 Hs) by (unfold pathMaxLen; lia). simpl. f_equal.
    unfold put_str. rewrite <- Hp, take_app_length. apply of_bytes_bytes.
  - rewrite Hs. simpl. f_equal. apply cString_put_str, Hp.
Qed.

Lemma decodePrefix_wire order e more moresizes pad t :
  event_wf e → Forall2 (λ c n, length c = n) more moresizes →
  decodePrefix (concat (wire_prefix order e ++ more) ++ pad) order (Event.MonotonicNS e) t =
  Some (Event.mkEvent t (Event.PID e) (Event.TGID e) (Event.PPID e) (Event.UID e) (Event.Type_ e)
          (Event.Arg0 e) (Event.Arg1 e) (Event.Size e) (Event.Comm e) (Event.Path e) (Event.Path2 e)
          1 0 0 0 0 0 0 0 0 0 (Event.MonotonicNS e)).
Proof.
  intros Hwf Hmore. pose proof (wire_prefix_sizes order e Hwf) as HF.
  pose proof (Forall2_app HF Hmore) as HF'. clear HF.
  unfold decodePrefix.
  rewrite (Uint32_at order _ _ pad HF' 1 8 (Event.PID e)) by done.
  rewrite (Uint32_at order _ _ pad HF' 2 12 (Event.TGID e)) by done.
  rewrite (Uint32_at order _ _ pad HF' 3 16 (Event.PPID e)) by done.
  rewrite (Uint32_at order _ _ pad HF' 4 20 (Event.UID e)) by done.
  rewrite (Uint32_at order _ _ pad HF' 5 24 (Event.Type_ e)) by done.
  rewrite (Uint32_at order _ _ pad HF' 6 28 (Event.Arg0 e)) by done.
  rewrite (Uint32_at order _ _ pad HF' 7 32 (Event.Arg1 e)) by done.
  rewrite (Uint64_at order _ _ pad HF' 9 40 (Event.Size e)) by done.
  cbn [mbind option_bind].
  pose proof (path_wire _ e Hwf (slice_at _ _ pad HF' 11 64 pathMaxLen _ eq_refl eq_refl eq_refl)) as Hpath.
  pose proof Hwf as []. unfold is_uint32, is_uint64 in *.
  rewrite !wrap_s_wrap_u by lia. rewrite !wrap_u_small by done.
  fold (is_connect6 e). rewrite Hpath.
  rewrite (slice_at _ _ pad HF' 10 48 taskCommLen _ eq_refl eq_refl eq_refl).
  rewrite (slice_at _ _ pad HF' 12 320 pathMaxLen _ eq_refl eq_refl eq_refl).
  cbn [mbind option_bind]. rewrite !cString_put_str by (apply ewf_comm || apply ewf_path2; done). done.
Qed.

Lemma known_flags_ok f :
  0 ≤ f ≤ knownFlags → (Z.land f (wrap_u 32 (Z.lnot knownFlags)) =? 0) = true.
Proof.
  intros Hf. assert (f ∈ seqZ 0 32) as Hin by
    (apply elem_of_seqZ; change knownFlags with 31 in Hf; lia).
  assert (forallb (λ f, Z.land f (wrap_u 32 (Z.lnot knownFlags)) =? 0) (seqZ 0 32) = true) as HF
    by (vm_compute; reflexivity).
  rewrite forallb_forall in HF. by apply HF, list_elem_of_In.
Qed.

Lemma wire_v2_tail_sizes order e :
  Forall2 (λ c n, length c = n) (drop 13 (wire_v2 order e)) (drop 13 sizes_v2).
Proof.
  cbn [drop wire_v2 wire_prefix sizes_v2 sizes_prefix app].
  repeat (apply Forall2_cons_2; [first [apply length_put_uint | done]|]). done.
Qed.

Lemma decodeV2_wire order e pad t :
  event_v2_wf e →
  decodeV2 (concat (wire_v2 order e) ++ pad) order
    (Event.mkEvent t (Event.PID e) (Event.TGID e) (Event.PPID e) (Event.UID e) (Event.Type_ e)
          (Event.Arg0 e) (Event.Arg1 e) (Event.Size e) (Event.Comm e) (Event.Path e) (Event.Path2 e)
          1 0 0 0 0 0 0 0 0 0 (Event.MonotonicNS e)) =
  Some (inr (e <| Event.Timestamp := t |>)).
Proof.
  intros Hwf. pose proof (wire_prefix_sizes order e (ewf_prefix e Hwf)) as HF.
  pose proof (Forall2_app HF (wire_v2_tail_sizes order e)) as HF'. clear HF.
  change (wire_prefix order e ++ drop 13 (wire_v2 order e)) with (wire_v2 order e) in HF'.
  unfold decodeV2.
  rewrite (Uint32_at order _ _ pad HF' 13 eventSize 2) by done.
  rewrite (Uint32_at order _ _ pad HF' 14 (eventSize + 4) (Event.Phase e)) by done.
  rewrite (Uint32_at order _ _ pad HF' 15 (eventSize + 8) (Event.Source e)) by done.
  rewrite (Uint32_at order _ _ pad HF' 16 (eventSize + 12) (Event.Flags e)) by done.
  rewrite (Uint64_at order _ _ pad HF' 17 (eventSize + 16) (Event.SyscallID e)) by done.
  rewrite (Uint64_at order _ _ pad HF' 18 (eventSize + 24) (Event.Result e)) by done.
  rewrite (Uint64_at order _ _ pad HF' 19 (eventSize + 32) (Event.OperationID e)) by done.
  rewrite (Uint64_at order _ _ pad HF' 20 (eventSize + 40) (Event.RequestedBytes e)) by done.
  rewrite (Uint64_at order _ _ pad HF' 21 (eventSize + 48) (Event.ActualBytes e)) by done.
  rewrite (Uint32_at order _ _ pad HF' 22 (eventSize + 56) (Event.VectorCount e)) by done.
  clear HF'. destruct Hwf as [_ Hv Hp Hs Hf ? ? ? ? ? ?].
  unfold PhaseObservation, SourceSched, is_int64, is_uint64, is_uint32, minInt64, maxInt64 in *.
  cbn [mbind option_bind]. rewrite !wrap_s_wrap_u by lia.
  assert (knownFlags = 31) as Hk by done.
  rewrite !wrap_u_small by lia. cbn [Z.eqb Pos.eqb negb].
  destruct (Z.ltb_spec 5 (Event.Phase e)); [lia|].
  destruct (Z.ltb_spec 4 (Event.Source e)); [lia|].
  rewrite known_flags_ok by lia. destruct e; simpl in *. subst. by rewrite !wrap_u_small by lia.
Qed.

Lemma length_concat_sizes (chunks : list (list Z)) sizes :
  Forall2 (λ c n, length c = n) chunks sizes → length (concat chunks) = sum_list sizes.
Proof. induction 1; simpl; [done|]. rewrite length_app. lia. Qed.

Lemma length_wire_v2 order e : event_wf e → length (concat (wire_v2 order e)) = eventV2Size.
Proof.
  intros Hwf. rewrite (length_concat_sizes _ sizes_v2); [done|].
  exact (Forall2_app (wire_prefix_sizes order e Hwf) (wire_v2_tail_sizes order e)).
Qed.
Lemma length_wire_prefix order e : event_wf e → length (concat (wire_prefix order e)) = eventSize.
Proof. intros Hwf. rewrite (length_concat_sizes _ sizes_prefix); [done|by apply wire_prefix_sizes]. Qed.

Section decode_claims.
Context `{World} `{FloatSeconds} (native : ByteOrder).

Lemma decodeEvent_run raw order n clock ts :
  (eventSize ≤ length raw)%nat →
  (length raw ≤ eventSize + 7 ∨ eventV2Size ≤ length raw ≤ eventV2Size + 7)%nat →
  Uint64 order raw 0 = Some ts →
  result (decodeEvent raw order) n clock =
    (e ← decodePrefix raw order ts (result (eventTimestamp ts) n clock);
     if bool_decide (length raw ≤ eventSize + 7)%nat then Some (inr e) else decodeV2 raw order e).
Proof.
  intros Hlen Hpad Hts. unfold decodeEvent.
  rewrite (bool_decide_eq_false_2 (length raw < eventSize)%nat) by lia.
  destruct (negb _ && _) eqn:E.
  { apply andb_true_iff in E as [E1 E2]. apply negb_true_iff, bool_decide_eq_false in E1.
    apply orb_true_iff in E2 as [E2|E2]; apply bool_decide_eq_true in E2; lia. }
  rewrite Hts. unfold result, mbind at 1, M_bind.
  by destruct (eventTimestamp ts n clock) as [[t n'] c'].
Qed.

Lemma recordOrder_v2 order e pad :
  event_wf e → recordOrder native (concat (wire_v2 order e) ++ pad) = Some order.
Proof.
  intros Hwf. unfold recordOrder.
  rewrite bool_decide_eq_true_2 by (rewrite length_app, length_wire_v2 by done; lia).
  pose proof (Forall2_app (wire_prefix_sizes order e Hwf) (wire_v2_tail_sizes order e)) as HF.
  pose proof (slice_at _ _ pad HF 13 eventSize 4 _ eq_refl eq_refl eq_refl) as Hs.
  change (wire_prefix order e ++ drop 13 (wire_v2 order e)) with (wire_v2 order e) in Hs.
  unfold Uint32. rewrite Hs. by destruct order.
Qed.

(** A version 2 record decodes to the event the kernel laid out. *)
Lemma wire_v2_decodes order e pad n clock :
  event_v2_wf e → (length pad ≤ 7)%nat →
  result (DecodeEvent native (concat (wire_v2 order e) ++ pad)) n clock =
  Some (inr (e <| Event.Timestamp := result (eventTimestamp (Event.MonotonicNS e)) n clock |>)).
Proof.
  intros Hwf Hpad. pose proof (ewf_prefix e Hwf) as Hp. unfold DecodeEvent.
  rewrite recordOrder_v2 by done.
  pose proof (length_wire_v2 order e Hp) as Hl. unfold eventV2Size in Hl.
  pose proof (Forall2_app (wire_prefix_sizes order e Hp) (wire_v2_tail_sizes order e)) as HF.
  rewrite decodeEvent_run with (ts := Event.MonotonicNS e).
  - rewrite (bool_decide_eq_false_2 _) by (rewrite length_app; lia).
    pose proof (decodePrefix_wire order e _ _ pad
      (result (eventTimestamp (Event.MonotonicNS e)) n clock) Hp (wire_v2_tail_sizes order e)) as Hd.
    change (wire_prefix order e ++ drop 13 (wire_v2 order e)) with (wire_v2 order e) in Hd.
    rewrite Hd.
    cbn [mbind option_bind]. by apply decodeV2_wire.
  - rewrite length_app. lia.
  - unfold eventV2Size. rewrite length_app. lia.
  - pose proof (Uint64_at order _ _ pad HF 0 0 (Event.MonotonicNS e) eq_refl eq_refl eq_refl) as Hu.
    rewrite wrap_u_small in Hu by apply Hp. exact Hu.
Qed.

(** C18: a version 2 record, in either byte order and with up to seven bytes
    of padding, decodes to exactly the event the kernel laid out, on a host
    of any byte order; only the wall-clock time is computed. *)
Theorem DecodeEvent_wire_v2 order e pad n clock :
  event_v2_wf e → (length pad ≤ 7)%nat →
  result (DecodeEvent native (concat (wire_v2 order e) ++ pad)) n clock =
  Some (inr (e <| Event.Timestamp := result (eventTimestamp (Event.MonotonicNS e)) n clock |>)).
Proof. apply wire_v2_decodes. Qed.

(** a version 1 record decodes to the event of its 576-byte prefix, with
    every field of version 2 left unknown. *)
Theorem DecodeEvent_wire_v1 e pad n clock :
  event_wf e → (length pad ≤ 7)%nat →
  result (DecodeEvent native (concat (wire_prefix native e) ++ pad)) n clock =
  Some (inr (Event.mkEvent (result (eventTimestamp (Event.MonotonicNS e)) n clock)
    (Event.PID e) (Event.TGID e) (Event.PPID e) (Event.UID e) (Event.Type_ e)
    (Event.Arg0 e) (Event.Arg1 e) (Event.Size e) (Event.Comm e) (Event.Path e) (Event.Path2 e)
    1 PhaseUnknown SourceUnknown 0 0 0 0 0 0 0 (Event.MonotonicNS e))).
Proof.
  intros Hwf Hpad. pose proof (length_wire_prefix native e Hwf) as Hl.
  pose proof (wire_prefix_sizes native e Hwf) as HF.
  unfold DecodeEvent, recordOrder.
  rewrite (bool_decide_eq_false_2 _) by (rewrite length_app; unfold eventV2Size; lia).
  rewrite decodeEvent_run with (ts := Event.MonotonicNS e).
  - rewrite (bool_decide_eq_true_2 _) by (rewrite length_app; lia).
    rewrite <- (app_nil_r (wire_prefix native e)).
    by erewrite decodePrefix_wire by done.
  - rewrite length_app. lia.
  - rewrite length_app. lia.
  - rewrite (Uint64_at native _ _ pad HF 0 0 (Event.MonotonicNS e)) by done.
    by rewrite wrap_u_small by apply Hwf.
Qed.
End decode_claims.

(** ** Theorems: timestamps *)
Section clock_claims.
Context `{World} `{FloatSeconds}.

(** The monotonic base is an uptime or an event time, below 2^63 ns. *)
Definition clock_ok (clock : option EventClock) : Prop :=
  match clock with None => True | Some c => 0 ≤ EventClock.Mono c ≤ maxInt64 end.

Lemma clockTime_exact c ts :
  0 ≤ ts ≤ maxInt64 → clock_ok (Some c) →
  clockTime c ts = EventClock.Wall c + (ts - EventClock.Mono c).
Proof. unfold clockTime, clock_ok, maxInt64. repeat case_match; lia. Qed.

Lemma initClock_ok ts n clock :
  (∀ s d, parse_seconds s = Some d → is_int64 d) → 0 < ts ≤ maxInt64 →
  ∃ c, initClock ts n clock = (c, S (S n), Some c) ∧ clock_ok (Some c).
Proof.
  intros Hsec Hts. unfold initClock, now, monotonicUptime, ask, modS.
  unfold mbind, M_bind, option_bind, mret, M_ret. cbv beta iota zeta.
  eexists. split; [reflexivity|]. unfold clock_ok. cbn [EventClock.Mono].
  destruct (os_ReadFile _ _) as [data|]; [|lia]. destruct (Fields data) as [|f ?]; [lia|].
  destruct (parse_seconds f) as [u|] eqn:Hu; [|lia].
  apply Hsec in Hu. unfold is_int64, maxInt64 in *.
  destruct (Z.leb_spec 0 u); [|lia]. rewrite wrap_u_small by lia. lia.
Qed.

(** Converting a time sets the clock, once. *)
Lemma eventTimestamp_clock ts n clock :
  (∀ s d, parse_seconds s = Some d → is_int64 d) →
  0 < ts ≤ maxInt64 → clock_ok clock →
  ∃ c, after (eventTimestamp ts) n clock = Some c ∧ clock_ok (Some c) ∧
       result (eventTimestamp ts) n clock = EventClock.Wall c + (ts - EventClock.Mono c) ∧
       (∀ c0, clock = Some c0 → c = c0).
Proof.
  intros Hsec Hts Hc. unfold eventTimestamp. destruct (Z.eqb_spec ts 0); [lia|].
  unfold after, result, mbind, M_bind, getS. destruct clock as [c|].
  - exists c. split_and!; [done|done| |naive_solver]. apply clockTime_exact; [lia|done].
  - destruct (initClock_ok ts n None Hsec Hts) as (c & -> & Hok). exists c.
    split_and!; [done|done| |done]. apply clockTime_exact; [lia|done].
Qed.

(** event times keep their distances: the wall-clock times of two events
    differ by exactly the difference of their kernel times, whichever of
    them initialised the clock, so windows over them measure kernel time. *)
Theorem eventTimestamp_spacing ts1 ts2 n1 n2 clock :
  (∀ s d, parse_seconds s = Some d → is_int64 d) →
  clock_ok clock → 0 < ts1 ≤ maxInt64 → 0 < ts2 ≤ maxInt64 →
  result (eventTimestamp ts2) n2 (after (eventTimestamp ts1) n1 clock)
  - result (eventTimestamp ts1) n1 clock = ts2 - ts1.
Proof.
  intros Hsec Hc H1 H2.
  destruct (eventTimestamp_clock ts1 n1 clock Hsec H1 Hc) as (c & Ha & Hok & -> & _).
  rewrite Ha.
  destruct (eventTimestamp_clock ts2 n2 (Some c) Hsec H2 Hok) as (c' & _ & _ & -> & Heq).
  rewrite (Heq c eq_refl). lia.
Qed.
End clock_claims.
