(* ===== verification/Scope.v ===== *)
(** * Path scopes and small predicates of internal/agent/agent.go

    Directory scopes, trusted paths, cgroup scopes, IOC names, and the pure
    helpers of the agent.  [contains] is the meaning of a directory scope, and
    the theorems show the textual tests decide it. *)
From S2P Require Import Prelude GoStrings GoPath Config Event.

(** ** Directory scopes *)

(** The test on cleaned paths shared by [hasDirPrefix], [matchesAnyPath] and
    [matchesCgroupPath]. *)
Definition underClean (cleanDir cleanPath : string) : bool :=
  if bool_decide (cleanDir = "/") then HasPrefix cleanPath "/"
  else bool_decide (cleanPath = cleanDir) || HasPrefix cleanPath (cleanDir +:+ "/").

Definition hasDirPrefix (path : string) (dirs : list string) : bool :=
  if bool_decide (path = "") then false
  else existsb (λ dir, negb (bool_decide (dir = "")) && underClean (Clean dir) (Clean path)) dirs.

Definition matchesAnyPath (path : string) (candidates : list string) : bool :=
  if bool_decide (path = "") then false
  else let cleanPath := Clean path in
       existsb (λ c, negb (bool_decide (c = "")) && underClean (Clean c) cleanPath) candidates.

Definition matchesCgroupPath (path : string) (candidates : list string) : bool :=
  if bool_decide (path = "") then false
  else let cleanPath := Clean path in
       existsb (λ c, negb (bool_decide (c = "")) &&
         let cleanCandidate := Clean c in
         let cleanCandidate := if bool_decide (cleanCandidate = ".") then "/" else cleanCandidate in
         underClean cleanCandidate cleanPath) candidates.

Definition hasConfiguredPaths (paths : list string) : bool :=
  existsb (λ p, negb (bool_decide (TrimSpace p = ""))) paths.

(** ** IOC names *)
Section ioc.
Context `{Unicode}.
Definition extensionCandidate (candidate : string) : string :=
  let candidate := ToLower (TrimSpace candidate) in
  if negb (bool_decide (candidate = "")) && negb (HasPrefix candidate ".")
  then "." +:+ candidate else candidate.
Definition hasSuspiciousExtension (p : Policy) (path : string) : bool :=
  let ext := ToLower (Ext path) in
  existsb (λ c, bool_decide (ext = extensionCandidate c)) (Policy.SuspiciousExtensions p).
Definition isRansomNote (p : Policy) (path : string) : bool :=
  let base := ToLower (Base path) in
  existsb (λ c, bool_decide (base = ToLower (TrimSpace c))) (Policy.RansomNoteNames p).
End ioc.

Section scopes.
Context (p : Policy).
Definition inProtectedScope (path : string) : bool := hasDirPrefix path (Policy.ProtectedDirs p).
Definition inBackupScope (path : string) : bool := hasDirPrefix path (Policy.BackupDirs p).
Definition inSelfProtectScope (path : string) : bool := hasDirPrefix path (Policy.SelfProtectPaths p).
End scopes.

(** ** Events *)
Definition pickPath (ev : Event) : string :=
  if bool_decide (Event.Path2 ev = "") then Event.Path ev else Event.Path2 ev.

Definition isWriteOpen (flags : Z) : bool :=
  let oAccMode := 3 in let oWronly := 1 in let oRdwr := 2 in let oTrunc := 512 in
  negb (Z.land flags oTrunc =? 0) || (Z.land flags oAccMode =? oWronly)
  || (Z.land flags oAccMode =? oRdwr).

Definition appendReason (reasons : list string) (reason : string) : list string :=
  if bool_decide (reason ∈ reasons) then reasons else reasons ++ [reason].

(** ** Actions *)
Definition BlockReasonPolicy : Z := 1.
Definition BlockReasonInlineIOC : Z := 3.
Definition BlockActionDeny : Z := 1.
Definition BlockActionKill : Z := 2.

Definition actionName (action : Z) : string :=
  if action =? BlockActionDeny then "deny" else if action =? BlockActionKill then "kill"
  else unknown_name action.
Definition normalizeAction (action : string) : string :=
  if bool_decide (action ∈ ["deny"; "kill"; "log"]) then action
  else "unknown(" +:+ action +:+ ")".
Definition blockAction (action : string) : Z :=
  if bool_decide (action = "kill") then BlockActionKill else BlockActionDeny.

(** ** Trust *)
Definition containsUID (uids : list Z) (uid : Z) : bool := existsb (λ c, uid =? c) uids.
Definition trustedComm (p : Policy) (comm : string) : bool :=
  existsb (λ t, bool_decide (comm = t)) (Policy.TrustedProcesses p).
Definition isTrustedIdentityMatched (p : Policy) (exe : string) (uid : Z) : bool :=
  if negb (bool_decide (Policy.TrustedUIDs p = [])) && negb (containsUID (Policy.TrustedUIDs p) uid)
  then false
  else if negb (bool_decide (Policy.TrustedExePaths p = []))
          && negb (matchesAnyPath exe (Policy.TrustedExePaths p))
  then false
  else true.

(** ** Theorems: what a directory scope is *)

(** [path] is [dir] or lies below it, component by component. *)
Definition contains (dir path : string) : Prop :=
  IsAbs dir = IsAbs path ∧ components dir `prefix_of` components path ∧
  (IsAbs dir = true ∨ components dir ≠ [] ∨ components path = []).

Lemma name_not_dot rooted cs : normal rooted cs → "." ∉ cs.
Proof.
  intros (k & names & Hcs & Hn & _) Hin.
  assert ("." ∈ rev cs) as Hr
    by (apply list_elem_of_In; rewrite <- in_rev; by apply list_elem_of_In).
  rewrite Hcs in Hr. apply elem_of_app in Hr as [Hr|[Hr _]%elem_of_replicate]; [|done].
  rewrite Forall_forall in Hn. by destruct (Hn _ Hr) as (_ & ? & _).
Qed.

Lemma Clean_inj p q : Clean p = Clean q ↔ IsAbs p = IsAbs q ∧ components p = components q.
Proof.
  split.
  - intros Hc. rewrite <- (IsAbs_Clean p), <- (IsAbs_Clean q), Hc.
    by rewrite <- (components_Clean p), <- (components_Clean q), Hc.
  - unfold Clean. by intros [-> ->].
Qed.

Lemma comps_no_slash p : Forall (λ c, no_slash c = true) (components p).
Proof.
  eapply Forall_impl; [eapply normal_no_slash, components_normal|]. by intros ? [].
Qed.

Lemma prefix_strict {A} (ds cs : list A) :
  ds `prefix_of` cs ↔ cs = ds ∨ ∃ e rest, cs = ds ++ e :: rest.
Proof.
  split.
  - intros [[|e rest] ->]; [left; by rewrite app_nil_r|eauto].
  - intros [->|(e & rest & ->)]; [done|]. by apply prefix_app_r.
Qed.

Lemma HasPrefix_app a b c : HasPrefix (a +:+ b) (a +:+ c) = HasPrefix b c.
Proof.
  induction a as [|x a IH]; [done|]. rewrite !str_app_cons. cbn [HasPrefix].
  by rewrite Ascii.eqb_refl, IH.
Qed.

(** The components written out: a relative path with none is ["."]. *)
Definition dotted (rooted : bool) (cs : list string) : list string :=
  match rooted, cs with false, [] => ["."] | _, _ => cs end.

(** The strict part of the test: [path] is below [dir]. *)
Lemma below_spec rooted p ds :
  IsAbs p = rooted → ds ≠ [] → Forall (λ c, no_slash c = true) ds →
  HasPrefix (Clean p) ((if rooted then "/" else "") +:+ Join "/" ds +:+ "/") = true ↔
  ∃ e rest, dotted rooted (components p) = ds ++ e :: rest.
Proof.
  intros <- Hne Hds. pose proof (comps_no_slash p) as Hcs. unfold Clean, render.
  destruct (IsAbs p).
  - rewrite HasPrefix_app. by apply Join_prefix.
  - rewrite str_app_nil_l. destruct (components p) as [|c cs].
    + change "." with (Join "/" ["."]). apply Join_prefix; [done..|by repeat constructor].
    + by apply Join_prefix.
Qed.

Lemma Clean_root p : Clean p = "/" ↔ IsAbs p = true ∧ components p = [].
Proof.
  change "/" with (Clean "/"). rewrite Clean_inj. done.
Qed.

Lemma IsAbs_prefix p q : HasPrefix (Clean p) (Clean q +:+ "/") = true → IsAbs p = IsAbs q.
Proof.
  intros [t Ht]%HasPrefix_spec. rewrite <- (IsAbs_Clean p), <- (IsAbs_Clean q), Ht.
  pose proof (Clean_nonempty q). destruct (Clean q) as [|c s]; [done|].
  by rewrite !str_app_cons, !IsAbs_cons.
Qed.

Lemma dot_prefix (cs ds : list string) :
  "." ∉ cs →
  (cs = ds ∨ ∃ e rest, dotted false cs = dotted false ds ++ e :: rest) ↔
  (cs = ds ∨ ∃ e rest, cs = ds ++ e :: rest) ∧ (ds ≠ [] ∨ cs = []).
Proof.
  intros Hdot. destruct cs as [|c cs], ds as [|d ds].
  - naive_solver.
  - split; [|naive_solver]. intros [?|(e & rest & [= _ Hx])]; [done|]. by destruct ds.
  - split; [|naive_solver]. intros [?|(e & rest & [= -> _])]; [done|]. set_solver.
  - split; [|by intros [? _]]. intros Hx. split; [done|by left].
Qed.

Lemma underClean_spec dir path : underClean (Clean dir) (Clean path) = true ↔ contains dir path.
Proof.
  unfold underClean, contains. rewrite prefix_strict.
  destruct (decide (Clean dir = "/")) as [Hroot|Hroot].
  { rewrite bool_decide_eq_true_2 by done. apply Clean_root in Hroot as [Hd Hc]. rewrite Hd, Hc.
    change (HasPrefix (Clean path) "/") with (IsAbs (Clean path)). rewrite IsAbs_Clean.
    destruct (components path); naive_solver. }
  rewrite bool_decide_eq_false_2 by done. rewrite orb_true_iff, bool_decide_eq_true, Clean_inj.
  rewrite Clean_root in Hroot.
  destruct (decide (IsAbs dir = IsAbs path)) as [Habs|Habs].
  2:{ split; [|by intros [? _]]. intros [[Hx _]|Hx%IsAbs_prefix]; by symmetry in Hx. }
  pose proof (below_spec (IsAbs dir) path (dotted (IsAbs dir) (components dir))) as Hb.
  assert (Clean dir +:+ "/" = (if IsAbs dir then "/" else "") +:+
    Join "/" (dotted (IsAbs dir) (components dir)) +:+ "/") as ->.
  { unfold Clean, render. destruct (IsAbs dir); [by rewrite str_app_assoc|].
    by destruct (components dir). }
  rewrite Hb; clear Hb; [|done| |].
  - pose proof (name_not_dot _ _ (components_normal path)) as Hdot.
    destruct (IsAbs dir) eqn:Ed; [cbn [dotted]; rewrite <- Habs; tauto|].
    rewrite <- Habs. destruct (dot_prefix _ (components dir) Hdot) as [H1 H2]. split.
    + intros Hx. split; [done|]. destruct H1; [by destruct Hx as [[_ ?]|?]; [left|right]|].
      by split; [|right].
    + intros (_ & Hx & [?|?]); [done|]. destruct H2; [by split|by left|by right].
  - destruct (IsAbs dir); [naive_solver|]. by destruct (components dir).
  - pose proof (comps_no_slash dir). destruct (IsAbs dir); [done|].
    destruct (components dir); [by repeat constructor|done].
Qed.

Lemma existsb_dirs (f : string → bool) (P : string → Prop) dirs :
  (∀ d, f d = true ↔ P d) →
  existsb (λ d, negb (bool_decide (d = "")) && f d) dirs = true ↔
  ∃ d, d ∈ dirs ∧ d ≠ "" ∧ P d.
Proof.
  intros Hf. rewrite existsb_exists. setoid_rewrite andb_true_iff.
  setoid_rewrite negb_true_iff. setoid_rewrite bool_decide_eq_false.
  setoid_rewrite <- list_elem_of_In. setoid_rewrite Hf. naive_solver.
Qed.

Lemma hasDirPrefix_contains path dirs :
  hasDirPrefix path dirs = true ↔
  path ≠ "" ∧ ∃ dir, dir ∈ dirs ∧ dir ≠ "" ∧ contains dir path.
Proof.
  unfold hasDirPrefix. case_bool_decide as Hp; [naive_solver|].
  rewrite (existsb_dirs _ (λ d, contains d path)); [naive_solver|].
  intros d. apply underClean_spec.
Qed.
(** C31: a path is in a directory scope exactly when some configured directory
    is a component-wise prefix of it after cleaning: [.] and [..] cannot
    escape the scope and a sibling that shares a textual prefix (as
    [/database] does with [/data]) is outside it. *)
Theorem hasDirPrefix_spec path dirs :
  hasDirPrefix path dirs = true ↔
  path ≠ "" ∧ ∃ dir, dir ∈ dirs ∧ dir ≠ "" ∧ contains dir path.
Proof. apply hasDirPrefix_contains. Qed.

(** a cgroup path matches the configured ones exactly when one of them is
    a component-wise prefix of it, where a relative candidate that cleans to
    the current directory stands for the root. *)
Theorem matchesCgroupPath_spec path candidates :
  matchesCgroupPath path candidates = true ↔
  path ≠ "" ∧ ∃ c, c ∈ candidates ∧ c ≠ "" ∧
    contains (if bool_decide (Clean c = ".") then "/" else c) path.
Proof.
  unfold matchesCgroupPath. case_bool_decide as Hp; [naive_solver|].
  rewrite (existsb_dirs _ (λ c, contains (if bool_decide (Clean c = ".") then "/" else c) path));
    [naive_solver|].
  intros c. cbv zeta. case_bool_decide; [|apply underClean_spec].
  exact (underClean_spec "/" path).
Qed.

(** [hasDirPrefix] and [matchesAnyPath] decide the same scope. *)
Lemma matchesAnyPath_hasDirPrefix path dirs : matchesAnyPath path dirs = hasDirPrefix path dirs.
Proof. done. Qed.

Example sibling_outside : hasDirPrefix "/database/x" ["/data"; "/home/"] = false.
Proof. vm_compute. reflexivity. Qed.
Example dotdot_outside : hasDirPrefix "/data/../etc/passwd" ["/data"] = false.
Proof. vm_compute. reflexivity. Qed.

(** ** Theorems: reasons *)
Lemma appendReason_elem r x l : x ∈ appendReason l r ↔ x ∈ l ∨ x = r.
Proof. unfold appendReason. case_bool_decide; set_solver. Qed.
Lemma appendReason_NoDup r l : NoDup l → NoDup (appendReason l r).
Proof.
  intros. unfold appendReason. case_bool_decide; [done|].
  apply NoDup_app. split_and!; [done|set_solver|apply NoDup_singleton].
Qed.

(** ** Theorems: blank extensions *)
Section blank.
Context `{Unicode}.
Lemma ToLower_empty : ToLower "" = "".
Proof. done. Qed.
(** C40: An entry of [suspicious_extensions] that is blank matches every path
    without an extension. *)
Theorem blank_extension_matches p path e :
  e ∈ Policy.SuspiciousExtensions p → TrimSpace e = "" → Ext path = "" →
  hasSuspiciousExtension p path = true.
Proof.
  intros He Ht Hx. unfold hasSuspiciousExtension. apply existsb_exists.
  exists e. split; [by apply list_elem_of_In|]. apply bool_decide_eq_true.
  unfold extensionCandidate. by rewrite Hx, Ht.
Qed.
End blank.
