(* ===== verification/Network.v ===== *)
(** * Network egress: [eventIP] and [networkAllowed] of internal/agent/agent.go

    Addresses and prefixes are those of [net/netip]; the syntax accepted by
    its parsers is the class [NetIP]. *)
From S2P Require Import Prelude GoStrings Config Event.

(** A valid [netip.Addr]: an IPv4 address, or an IPv6 address with its zone. *)
Inductive Addr : Type :=
| Addr4 (bits : Z)
| Addr6 (bits : Z) (zone : string).
#[export] Instance Addr_eq_dec : EqDecision Addr.
Proof. solve_decision. Defined.

(** A valid [netip.Prefix]: an address without zone and a prefix length. *)
Record Prefix : Type := mkPrefix { prefix_addr : Addr; prefix_bits : Z }.

(** [prefix.Contains(ip)]: same family, no zone, equal leading bits. *)
Definition Contains (prefix : Prefix) (ip : Addr) : bool :=
  match prefix_addr prefix, ip with
  | Addr4 a, Addr4 b => Z.shiftr a (32 - prefix_bits prefix) =? Z.shiftr b (32 - prefix_bits prefix)
  | Addr6 a _, Addr6 b zone =>
      bool_decide (zone = "") &&
      (Z.shiftr a (128 - prefix_bits prefix) =? Z.shiftr b (128 - prefix_bits prefix))
  | _, _ => false
  end.

Class NetIP : Type := {
  ParsePrefix : string → option Prefix;
  ParseAddr : string → option Addr }.

(** The number a big-endian byte sequence denotes. *)
Definition be_uint (l : list Z) : Z := le_uint (rev l).

(** [eventIP]; [None] is the invalid [netip.Addr{}]. *)
Definition eventIP (ev : Event) : option Addr :=
  if Event.Size ev =? afInet6 then
    let raw := bytes (Event.Path ev) in
    if bool_decide (length raw < 16)%nat then None
    else Some (Addr6 (be_uint (take 16 raw)) "")
  else if negb (Event.Size ev =? 0) && negb (Event.Size ev =? 2) then None
  else
    let raw := uint32 (Event.Arg0 ev) in
    Some (Addr4 (be_uint [uint8 raw; uint8 (Z.shiftr raw 8); uint8 (Z.shiftr raw 16); uint8 (Z.shiftr raw 24)])).

Section network.
Context `{NetIP}.
Definition cidrAllows (ip : Addr) (cidr : string) : bool :=
  match ParsePrefix cidr with Some prefix => Contains prefix ip | None => false end
  || match ParseAddr cidr with Some addr => bool_decide (addr = ip) | None => false end.
Definition networkAllowed (p : Policy) (ev : Event) : bool :=
  match eventIP ev with
  | None => true
  | Some ip =>
      let port := Event.Arg1 ev in
      existsb (λ allowed, port =? allowed) (NetworkEgress.AllowedPort (Policy.NetworkEgress p))
      || existsb (cidrAllows ip) (NetworkEgress.AllowedCIDR (Policy.NetworkEgress p))
  end.

(** The allow list as a specification: an address family the agent does not
    know, a listed port, or an address in a listed network. *)
Lemma networkAllowed_spec p ev :
  networkAllowed p ev = true ↔
  eventIP ev = None ∨
  Event.Arg1 ev ∈ NetworkEgress.AllowedPort (Policy.NetworkEgress p) ∨
  ∃ ip c, eventIP ev = Some ip ∧ c ∈ NetworkEgress.AllowedCIDR (Policy.NetworkEgress p) ∧
    ((∃ prefix, ParsePrefix c = Some prefix ∧ Contains prefix ip = true) ∨ ParseAddr c = Some ip).
Proof.
  unfold networkAllowed. destruct (eventIP ev) as [ip|]; [|naive_solver].
  rewrite orb_true_iff, !existsb_exists. setoid_rewrite <- list_elem_of_In.
  setoid_rewrite Z.eqb_eq. unfold cidrAllows. setoid_rewrite orb_true_iff. split.
  - intros [ (x & ? & ->) | (c & ? & Hc) ]; [by right; left|]. right; right.
    exists ip, c. split_and!; [done..|]. destruct Hc as [Hc|Hc].
    + left. destruct (ParsePrefix c); naive_solver.
    + right. destruct (ParseAddr c); [|done]. by apply bool_decide_eq_true in Hc as ->.
  - intros [? | [Hp | (ip' & c & [= <-] & ? & Hc) ] ]; [done|left; eauto|]. right. exists c.
    split; [done|]. destruct Hc as [ (pr & -> & ->) | -> ]; [by left|right].
    by apply bool_decide_eq_true.
Qed.
End network.
