(* ===== verification/Window.v ===== *)
(** * The sliding window of a process: internal/agent/agent.go

    The per-process state of the agent, how a scored event is added to it, how
    expired events leave it ([prune]) and how it is recomputed from its
    history ([rebuildWindow]). *)
From S2P Require Import Prelude GoStrings GoTime Config Event Scope.

Definition maxRecentEvents : nat := 256.
Definition maxTrackedPaths : nat := 4096.
Definition maxHistoryEvents : nat := 4096.

(** ** Data *)
Module scoredEvent.
Record scoredEvent := mkScored {
  At : Z; Type_ : string; Path : string; Path2 : string; Score : Z; Reason : string }.
End scoredEvent.
Abbreviation scoredEvent := scoredEvent.scoredEvent.

Module historyEvent.
Record historyEvent := mkHistory {
  At : Z; Type_ : string; Path : string; Path2 : string; Score : Z; Reason : string;
  WriteCount : Z; FeaturePaths : list string; OpenWritePath : string;
  RenameSuffix : bool; FinalizeSignal : bool }.
End historyEvent.
Abbreviation historyEvent := historyEvent.historyEvent.

Module procFeatures.
Record procFeatures := mkFeatures {
  DistinctPaths : Z; OpenWritePairs : Z; RenameSuffixCount : Z; EncryptionState : string }.
#[export] Instance eta_procFeatures : Eta procFeatures := λ f,
  mkFeatures (DistinctPaths f) (OpenWritePairs f) (RenameSuffixCount f) (EncryptionState f).
Definition zero : procFeatures := mkFeatures 0 0 0 "".
End procFeatures.
Export (hints) procFeatures.
Abbreviation procFeatures := procFeatures.procFeatures.

(** The feature maps are sets; [initFeatureMaps] always runs before they are
    written, so a nil map is an empty one. *)
Module procState.
Record procState := mkState {
  TGID : Z; PID : Z; PPID : Z; UID : Z; Comm : string; Score : Z;
  FirstSeen : Z; LastSeen : Z; EventCount : Z; WriteCount : Z;
  Blocked : bool; BlockedAt : Z; Reasons : list string; RecentEvents : list scoredEvent;
  HighRateScored : bool; Features : procFeatures;
  seenPaths : gset string; openWritePaths : gset string; history : list historyEvent }.
#[export] Instance eta_procState : Eta procState := λ s,
  mkState (TGID s) (PID s) (PPID s) (UID s) (Comm s) (Score s) (FirstSeen s) (LastSeen s)
    (EventCount s) (WriteCount s) (Blocked s) (BlockedAt s) (Reasons s) (RecentEvents s)
    (HighRateScored s) (Features s) (seenPaths s) (openWritePaths s) (history s).
(** [&procState{TGID: tgid, FirstSeen: t}] *)
Definition fresh (tgid t : Z) : procState :=
  mkState tgid 0 0 0 "" 0 t 0 0 0 false 0 [] [] false procFeatures.zero ∅ ∅ [].
End procState.
Export (hints) procState.
Abbreviation procState := procState.procState.

(** ** Feature paths *)

(** [if _, exists := set[path]; !exists && len(set) < maxTrackedPaths] *)
Definition trackPath (set : gset string) (path : string) : gset string :=
  if negb (bool_decide (path ∈ set)) && bool_decide (size set < maxTrackedPaths)%nat
  then {[path]} ∪ set else set.
(** The loop over feature paths, which skips empty ones. *)
Definition trackPaths (set : gset string) (paths : list string) : gset string :=
  foldl (λ s path, if bool_decide (path = "") then s else trackPath s path) set paths.

Definition featurePaths (fdPath : Z → Z → string) (ev : Event) : list string :=
  let picked := if bool_decide (pickPath ev = "") then [] else [pickPath ev] in
  let fd := fdPath (Event.TGID ev) (Event.Arg0 ev) in
  let fd_or_picked := if bool_decide (fd = "") then picked else [fd] in
  let t := Event.Type_ ev in
  if t =? EventWrite then fd_or_picked
  else if t =? EventScan then fd_or_picked
  else if t =? EventMmap then fd_or_picked
  else if t =? EventTruncate then
    if bool_decide (Event.Path ev = "") then fd_or_picked else [Event.Path ev]
  else if t =? EventRename then [Event.Path ev; Event.Path2 ev]
  else if t =? EventLink then [Event.Path ev; Event.Path2 ev]
  else picked.

Section window.
Context `{Unicode} (p : Policy).
Import procState.

(** [updateEncryptionState], on the features of the state. *)
Definition updateEncryptionState (f : procFeatures) (ev : Event) : procFeatures :=
  if bool_decide (procFeatures.EncryptionState f = "FINALIZE") then f
  else if (Event.Type_ ev =? EventRename) && hasSuspiciousExtension p (Event.Path2 ev)
  then f <| procFeatures.EncryptionState := "FINALIZE" |>
  else if (Event.Type_ ev =? EventOpen)
          && (isRansomNote p (Event.Path ev) || hasSuspiciousExtension p (Event.Path ev))
  then f <| procFeatures.EncryptionState := "FINALIZE" |>
  else if (3 <=? procFeatures.OpenWritePairs f) || (3 <=? procFeatures.DistinctPaths f)
  then f <| procFeatures.EncryptionState := "STAGE" |>
  else f.

(** The open-write path of an event, [""] if it has none. *)
Definition openWritePath (ev : Event) : string :=
  if (Event.Type_ ev =? EventOpen) && isWriteOpen (Event.Arg0 ev) then Event.Path ev else "".
Definition renameSuffix (ev : Event) : bool :=
  (Event.Type_ ev =? EventRename) && hasSuspiciousExtension p (Event.Path2 ev).
Definition finalizeSignal (ev : Event) : bool :=
  renameSuffix ev ||
  (Event.Type_ ev =? EventOpen)
  && (isRansomNote p (Event.Path ev) || hasSuspiciousExtension p (Event.Path ev)).

Definition trackOpenWrite (set : gset string) (path : string) : gset string :=
  if bool_decide (path = "") then set else trackPath set path.

Definition recordFeatures (fdPath : Z → Z → string) (st : procState) (ev : Event) : procState :=
  let seen := trackPaths (seenPaths st) (featurePaths fdPath ev) in
  let opened := trackOpenWrite (openWritePaths st) (openWritePath ev) in
  let f := Features st in
  let f := if renameSuffix ev
           then f <| procFeatures.RenameSuffixCount ::= λ n, n +ᵢ 1 |> else f in
  let f := f <| procFeatures.DistinctPaths := Z.of_nat (size seen) |>
             <| procFeatures.OpenWritePairs := Z.of_nat (size opened) |> in
  st <| seenPaths := seen |> <| openWritePaths := opened |>
     <| Features := updateEncryptionState f ev |>.

(** One iteration of the first loop of [rebuildWindow]. *)
Definition rebuildStep (st : procState) (event : historyEvent) : procState :=
  if IsZero (historyEvent.At event) then st
  else {|
    TGID := TGID st; PID := PID st; PPID := PPID st; UID := UID st; Comm := Comm st;
    Score := Score st +ᵢ historyEvent.Score event;
    FirstSeen := if IsZero (FirstSeen st) || Before (historyEvent.At event) (FirstSeen st)
                 then historyEvent.At event else FirstSeen st;
    LastSeen := LastSeen st;
    EventCount := EventCount st +ᵢ 1;
    WriteCount := WriteCount st +ᵢ historyEvent.WriteCount event;
    Blocked := Blocked st; BlockedAt := BlockedAt st;
    Reasons := appendReason (Reasons st) (historyEvent.Reason event);
    RecentEvents := RecentEvents st ++ [scoredEvent.mkScored (historyEvent.At event)
      (historyEvent.Type_ event) (historyEvent.Path event) (historyEvent.Path2 event)
      (historyEvent.Score event) (historyEvent.Reason event)];
    HighRateScored := HighRateScored st;
    Features := if historyEvent.RenameSuffix event
                then (Features st) <| procFeatures.RenameSuffixCount ::= λ n, n +ᵢ 1 |>
                else Features st;
    seenPaths := trackPaths (seenPaths st) (historyEvent.FeaturePaths event);
    openWritePaths := trackOpenWrite (openWritePaths st) (historyEvent.OpenWritePath event);
    history := history st |}.

(** The reset both [prune] and [rebuildWindow] start with; [first] is the
    new [FirstSeen]. *)
Definition resetWindow (st : procState) (first : Z) : procState := {|
  TGID := TGID st; PID := PID st; PPID := PPID st; UID := UID st; Comm := Comm st;
  Score := 0; FirstSeen := first; LastSeen := LastSeen st; EventCount := 0; WriteCount := 0;
  Blocked := Blocked st; BlockedAt := BlockedAt st; Reasons := []; RecentEvents := [];
  HighRateScored := false; Features := procFeatures.zero; seenPaths := ∅; openWritePaths := ∅;
  history := history st |}.

Definition rebuildWindow (st : procState) : procState :=
  let st := foldl rebuildStep (resetWindow st 0) (history st) in
  let features := (Features st)
    <| procFeatures.DistinctPaths := Z.of_nat (size (seenPaths st)) |>
    <| procFeatures.OpenWritePairs := Z.of_nat (size (openWritePaths st)) |> in
  let features := if existsb historyEvent.FinalizeSignal (history st)
    then features <| procFeatures.EncryptionState := "FINALIZE" |> else features in
  let features := if bool_decide (procFeatures.EncryptionState features = "")
                     && ((3 <=? procFeatures.OpenWritePairs features)
                         || (3 <=? procFeatures.DistinctPaths features))
    then features <| procFeatures.EncryptionState := "STAGE" |> else features in
  let highRate := 64 <=? WriteCount st in {|
    TGID := TGID st; PID := PID st; PPID := PPID st; UID := UID st; Comm := Comm st;
    Score := if highRate then Score st +ᵢ Scores.HighRateBonus (Policy.Scores p) else Score st;
    FirstSeen := FirstSeen st; LastSeen := LastSeen st;
    EventCount := EventCount st; WriteCount := WriteCount st;
    Blocked := Blocked st; BlockedAt := BlockedAt st;
    Reasons := if highRate then appendReason (Reasons st) "high-rate file mutation" else Reasons st;
    RecentEvents := keep_last maxRecentEvents (RecentEvents st);
    HighRateScored := if highRate then true else HighRateScored st;
    Features := features; seenPaths := seenPaths st; openWritePaths := openWritePaths st;
    history := history st |}.

(** The event is still inside the window at [now]. *)
Definition inWindow (now : Z) (event : historyEvent) : bool :=
  IsZero (historyEvent.At event) || (Sub now (historyEvent.At event) <=? Policy.Window p).

Definition prune (st : procState) (now : Z) : procState :=
  if Policy.Window p <=? 0 then st
  else match history st with
       | [] =>
           if IsZero (FirstSeen st) || (Sub now (FirstSeen st) <=? Policy.Window p) then st
           else resetWindow st now
       | _ =>
           let retained := List.filter (inWindow now) (history st) in
           if bool_decide (length retained = length (history st)) then st
           else rebuildWindow (st <| history := retained |>)
       end.

(** [append] to a bounded slice, keeping its end. *)
Definition pushRecent (l : list scoredEvent) (e : scoredEvent) : list scoredEvent :=
  keep_last maxRecentEvents (l ++ [e]).

Definition isWriteOrOpen (ev : Event) : bool :=
  (Event.Type_ ev =? EventWrite) || (Event.Type_ ev =? EventOpen).

(** The history entry [handle] appends for a scored event. *)
Definition historyOf (fdPath : Z → Z → string) (ev : Event) (score : Z) (reason : string)
    : historyEvent :=
  historyEvent.mkHistory (Event.Timestamp ev) (TypeName ev) (Event.Path ev) (Event.Path2 ev)
    score reason (if isWriteOrOpen ev then 1 else 0) (featurePaths fdPath ev)
    (openWritePath ev) (renameSuffix ev) (finalizeSignal ev).

(** The part of [handle] that adds a scored event to the window of its
    process, from [recordFeatures] to the append to the history. *)
Definition addScored (fdPath : Z → Z → string) (st : procState) (ev : Event)
    (score : Z) (reason : string) : procState :=
  let st := recordFeatures fdPath st ev in
  let writeCount := if isWriteOrOpen ev then WriteCount st +ᵢ 1 else WriteCount st in
  let reasons := appendReason (Reasons st) reason in
  let highRate := negb (HighRateScored st) && (64 <=? writeCount) in {|
    TGID := TGID st; PID := PID st; PPID := PPID st; UID := UID st; Comm := Comm st;
    Score := if highRate then Score st +ᵢ score +ᵢ Scores.HighRateBonus (Policy.Scores p)
             else Score st +ᵢ score;
    FirstSeen := FirstSeen st; LastSeen := LastSeen st;
    EventCount := EventCount st +ᵢ 1; WriteCount := writeCount;
    Blocked := Blocked st; BlockedAt := BlockedAt st;
    Reasons := if highRate then appendReason reasons "high-rate file mutation" else reasons;
    RecentEvents := pushRecent (RecentEvents st) (scoredEvent.mkScored (Event.Timestamp ev)
      (TypeName ev) (Event.Path ev) (Event.Path2 ev) score reason);
    HighRateScored := if highRate then true else HighRateScored st;
    Features := Features st; seenPaths := seenPaths st; openWritePaths := openWritePaths st;
    history := history st ++ [historyOf fdPath ev score reason] |}.

(** ... followed by the bound on the history. *)
Definition recordScored (fdPath : Z → Z → string) (st : procState) (ev : Event)
    (score : Z) (reason : string) : procState :=
  let st := addScored fdPath st ev score reason in
  if bool_decide (maxHistoryEvents < length (history st))%nat
  then rebuildWindow (st <| history ::= keep_last maxHistoryEvents |>)
  else st.

(** The part of [handle] and [handleInlineIOCBlock] that records an IOC:
    the score is raised to the threshold and no history is kept. *)
Definition recordIOC (st : procState) (at_ : Z) (type path path2 reason : string) (block : bool)
    : procState := {|
  TGID := TGID st; PID := PID st; PPID := PPID st; UID := UID st; Comm := Comm st;
  Score := Z.max (Score st) (Policy.Threshold p);
  FirstSeen := FirstSeen st; LastSeen := LastSeen st;
  EventCount := EventCount st +ᵢ 1; WriteCount := WriteCount st;
  Blocked := if block then true else Blocked st;
  BlockedAt := if block then at_ else BlockedAt st;
  Reasons := appendReason (Reasons st) reason;
  RecentEvents := pushRecent (RecentEvents st)
    (scoredEvent.mkScored at_ type path path2 (Policy.Threshold p) reason);
  HighRateScored := HighRateScored st; Features := Features st;
  seenPaths := seenPaths st; openWritePaths := openWritePaths st; history := history st |}.

(** ** Rules and blocking *)
Definition ruleMatches (f : procFeatures) (r : Rule) : bool :=
  let test got :=
    let op := Rule.Op r in
    if bool_decide (op = ">") then Rule.Value r <? got
    else if bool_decide (op = ">=") then Rule.Value r <=? got
    else if bool_decide (op = "==") then got =? Rule.Value r
    else if bool_decide (op = "<=") then got <=? Rule.Value r
    else if bool_decide (op = "<") then got <? Rule.Value r
    else false in
  let feature := Rule.Feature r in
  if bool_decide (feature = "distinct_paths") then test (procFeatures.DistinctPaths f)
  else if bool_decide (feature = "open_write_pairs") then test (procFeatures.OpenWritePairs f)
  else if bool_decide (feature = "rename_suffix_count") then test (procFeatures.RenameSuffixCount f)
  else false.

(** The first matching rule: its reason and action. *)
Definition matchRule (st : procState) : option (string * string) :=
  match List.find (ruleMatches (Features st)) (Policy.Rules p) with
  | Some r => Some (if bool_decide (Rule.Reason r = "") then "feature rule" else Rule.Reason r,
                    Rule.Action r)
  | None => None
  end.

(** [stateBlocked], which clears an expired block; [time_now] is the clock
    reading used when [now] is zero. *)
Definition stateBlocked (time_now : Z) (st : procState) (now : Z) : bool * procState :=
  if negb (Blocked st) then (false, st)
  else if (Policy.BlockTTL p <=? 0) || IsZero (BlockedAt st) then (true, st)
  else
    let now := if IsZero now then time_now else now in
    if Sub now (BlockedAt st) <=? Policy.BlockTTL p then (true, st)
    else (false, st <| Blocked := false |> <| BlockedAt := 0 |>).
End window.
