(* ===== verification/WindowTheory.v ===== *)
(** * Theorems about the sliding window (Window.v)

    [rebuildWindow] is the reference: the state as a function of the retained
    history.  The incremental updates of [recordScored] agree with it, [prune]
    leaves exactly the events inside the window, and the bounds on memory hold
    in every state. *)
From S2P Require Import Prelude GoStrings GoTime Config Event Scope Window.

Import procState.

(** ** Tracked paths *)
Lemma trackPath_size s x : (size s ≤ maxTrackedPaths)%nat → (size (trackPath s x) ≤ maxTrackedPaths)%nat.
Proof.
  intros Hs. unfold trackPath. destruct (negb _ && _) eqn:E; [|done].
  apply andb_true_iff in E as [E1%negb_true_iff%bool_decide_eq_false E2%bool_decide_eq_true].
  rewrite size_union by set_solver. rewrite size_singleton. lia.
Qed.
Lemma trackPath_subseteq s x : s ⊆ trackPath s x.
Proof. unfold trackPath. case_match; set_solver. Qed.
Lemma trackOpenWrite_size s x :
  (size s ≤ maxTrackedPaths)%nat → (size (trackOpenWrite s x) ≤ maxTrackedPaths)%nat.
Proof. intros. unfold trackOpenWrite. case_bool_decide; [done|by apply trackPath_size]. Qed.
Lemma trackOpenWrite_subseteq s x : s ⊆ trackOpenWrite s x.
Proof. unfold trackOpenWrite. case_bool_decide; [done|apply trackPath_subseteq]. Qed.
Lemma trackPaths_size s l :
  (size s ≤ maxTrackedPaths)%nat → (size (trackPaths s l) ≤ maxTrackedPaths)%nat.
Proof.
  unfold trackPaths. revert s. induction l as [|x l IH]; intros s Hs; simpl; [done|].
  apply IH. case_bool_decide; [done|by apply trackPath_size].
Qed.
Lemma trackPaths_subseteq s l : s ⊆ trackPaths s l.
Proof.
  unfold trackPaths. revert s. induction l as [|x l IH]; intros s; simpl; [done|].
  etrans; [|apply IH]. case_bool_decide; [done|apply trackPath_subseteq].
Qed.
#[export] Hint Resolve trackPath_size trackOpenWrite_size trackPaths_size : go.

(** ** The state without its window *)
Definition blank (st : procState) : procState := resetWindow st 0.

(** The accumulator of the first loop of [rebuildWindow]. *)
Definition core (st : procState) : procState := foldl rebuildStep (blank st) (history st).

Section theory.
Context `{Unicode} (p : Policy).

Lemma blank_rebuildStep st e : blank (rebuildStep st e) = blank st.
Proof. unfold rebuildStep. by case_match. Qed.
Lemma blank_foldl st h : blank (foldl rebuildStep st h) = blank st.
Proof. revert st. induction h as [|e h IH]; intros st; simpl; [done|]. by rewrite IH, blank_rebuildStep. Qed.
Lemma blank_blank st : blank (blank st) = blank st.
Proof. done. Qed.
Lemma history_blank st : history (blank st) = history st.
Proof. done. Qed.
Lemma blank_core st : blank (core st) = blank st.
Proof. unfold core. by rewrite blank_foldl. Qed.
Lemma history_core st : history (core st) = history st.
Proof. by rewrite <- history_blank, blank_core. Qed.

(** What [rebuildWindow] computes from the accumulator. *)
Definition encryptionState (h : list historyEvent) (opened distinct : Z) : string :=
  if existsb historyEvent.FinalizeSignal h then "FINALIZE"
  else if (3 <=? opened) || (3 <=? distinct) then "STAGE" else "".
Definition finish (c : procState) : procState :=
  let d := Z.of_nat (size (seenPaths c)) in
  let o := Z.of_nat (size (openWritePaths c)) in
  let high := 64 <=? WriteCount c in {|
  TGID := TGID c; PID := PID c; PPID := PPID c; UID := UID c; Comm := Comm c;
  Score := if high then Score c +ᵢ Scores.HighRateBonus (Policy.Scores p) else Score c;
  FirstSeen := FirstSeen c; LastSeen := LastSeen c; EventCount := EventCount c;
  WriteCount := WriteCount c; Blocked := Blocked c; BlockedAt := BlockedAt c;
  Reasons := if high then appendReason (Reasons c) "high-rate file mutation" else Reasons c;
  RecentEvents := keep_last maxRecentEvents (RecentEvents c);
  HighRateScored := high;
  Features := procFeatures.mkFeatures d o (procFeatures.RenameSuffixCount (Features c))
                (encryptionState (history c) o d);
  seenPaths := seenPaths c; openWritePaths := openWritePaths c; history := history c |}.

Lemma rebuildStep_encryption st e :
  procFeatures.EncryptionState (Features (rebuildStep st e)) = procFeatures.EncryptionState (Features st)
  ∧ HighRateScored (rebuildStep st e) = HighRateScored st.
Proof. unfold rebuildStep. case_match; [done|]. simpl. by case_match. Qed.
Lemma core_encryption st :
  procFeatures.EncryptionState (Features (core st)) = "" ∧ HighRateScored (core st) = false.
Proof.
  unfold core. generalize (history st). assert (∀ st' h,
    procFeatures.EncryptionState (Features st') = "" ∧ HighRateScored st' = false →
    procFeatures.EncryptionState (Features (foldl rebuildStep st' h)) = ""
    ∧ HighRateScored (foldl rebuildStep st' h) = false) as Hf.
  { intros st' h. revert st'. induction h as [|e h IH]; intros st' Hs; simpl; [done|].
    apply IH. by destruct (rebuildStep_encryption st' e) as [-> ->]. }
  intros h. by apply Hf.
Qed.

Lemma rebuildWindow_finish st : rebuildWindow p st = finish (core st).
Proof.
  destruct (core_encryption st) as [He Hr].
  unfold rebuildWindow. fold (blank st). fold (core st).
  unfold finish, encryptionState. destruct (core st) as
    [? ? ? ? ? ? ? ? ? wc ? ? ? ? hr [d o rn es] sp op h]; simpl in *. subst.
  destruct (existsb _ h), (_ || _), (64 <=? wc); done.
Qed.

Lemma blank_finish c : blank (finish c) = blank c.
Proof. done. Qed.
Lemma blank_rebuildWindow st : blank (rebuildWindow p st) = blank st.
Proof. by rewrite rebuildWindow_finish, blank_finish, blank_core. Qed.
Lemma core_blank_eq st st' : blank st = blank st' → core st = core st'.
Proof. unfold core. intros Hb. by rewrite <- (history_blank st), <- (history_blank st'), Hb. Qed.

(** Recomputing twice changes nothing. *)
Lemma rebuildWindow_idemp st : rebuildWindow p (rebuildWindow p st) = rebuildWindow p st.
Proof.
  rewrite (rebuildWindow_finish (rebuildWindow p st)), (rebuildWindow_finish st). f_equal.
  apply core_blank_eq. by rewrite blank_finish, blank_core.
Qed.

(** ** Incremental updates agree with [rebuildWindow] *)

(** Two states of a process with the same window. *)
Record window_equiv (a b : procState) : Prop := {
  we_score : Score a = Score b; we_events : EventCount a = EventCount b;
  we_writes : WriteCount a = WriteCount b; we_recent : RecentEvents a = RecentEvents b;
  we_high : HighRateScored a = HighRateScored b; we_features : Features a = Features b;
  we_seen : seenPaths a = seenPaths b; we_opened : openWritePaths a = openWritePaths b }.
(** The window of [st] is the one of its history; its reasons include those
    of the history (a matched rule adds its own). *)
Definition consistent (st : procState) : Prop :=
  window_equiv st (rebuildWindow p st) ∧ Reasons (rebuildWindow p st) ⊆ Reasons st.

(** The history entries [handle] makes. *)
Definition history_ok (h : list historyEvent) : Prop :=
  Forall (λ e, historyEvent.At e ≠ 0 ∧ 0 ≤ historyEvent.WriteCount e ≤ 1) h.

Definition writes (h : list historyEvent) : Z :=
  foldr (λ e n, historyEvent.WriteCount e + n) 0 h.
Lemma writes_app h k : writes (h ++ k) = writes h + writes k.
Proof. induction h as [|e h IH]; simpl; [done|]. lia. Qed.
Lemma writes_bound h : history_ok h → 0 ≤ writes h ≤ Z.of_nat (length h).
Proof. induction 1 as [|e h [_ ?] ? IH]; simpl; lia. Qed.

Lemma foldl_history st h h' :
  foldl rebuildStep (st <| history := h' |>) h = (foldl rebuildStep st h) <| history := h' |>.
Proof.
  revert st. induction h as [|e h IH]; intros st; cbn [foldl]; [done|].
  rewrite <- IH. f_equal. unfold rebuildStep. by case_match.
Qed.

(** Appending to the history adds one step to the accumulator. *)
Lemma core_snoc st st' h e :
  history st = h → blank st' = (blank st) <| history := h ++ [e] |> →
  core st' = (rebuildStep (core st) e) <| history := h ++ [e] |>.
Proof.
  intros Hh Hb. unfold core. rewrite <- (history_blank st'), Hb.
  change (history ((blank st) <| history := h ++ [e] |>)) with (h ++ [e]).
  by rewrite foldl_history, foldl_app, <- Hh.
Qed.

Lemma foldl_writes st h :
  history_ok h → 0 ≤ WriteCount st → WriteCount st + Z.of_nat (length h) ≤ maxInt64 →
  WriteCount (foldl rebuildStep st h) = WriteCount st + writes h.
Proof.
  intros Hh. revert st. induction Hh as [|e h [Ha Hw] Hh IH]; intros st H0 H1; simpl in *; [lia|].
  assert (WriteCount (rebuildStep st e) = WriteCount st + historyEvent.WriteCount e) as He.
  { unfold rebuildStep, IsZero. destruct (Z.eqb_spec (historyEvent.At e) 0); [done|].
    cbn [WriteCount]. apply int_add_small. unfold is_int64, minInt64, maxInt64 in *. lia. }
  rewrite IH; rewrite He; lia.
Qed.
Lemma core_writes st :
  history_ok (history st) → (length (history st) ≤ maxHistoryEvents)%nat →
  WriteCount (core st) = writes (history st).
Proof. intros. unfold core. rewrite foldl_writes; [done..|]. unfold maxHistoryEvents, maxInt64 in *. simpl. lia. Qed.

Lemma int_add_swap x y z : x +ᵢ y +ᵢ z = x +ᵢ z +ᵢ y.
Proof. unfold int_add. rewrite !wrap_s_add_l by lia. f_equal. lia. Qed.

(** The encryption stage after one more event. *)
Lemma encryptionState_snoc h e ev d o rn d' o' :
  historyEvent.FinalizeSignal e = finalizeSignal p ev → d ≤ d' → o ≤ o' →
  procFeatures.EncryptionState (updateEncryptionState p
    (procFeatures.mkFeatures d' o' rn (encryptionState h o d)) ev) =
  encryptionState (h ++ [e]) o' d'.
Proof.
  intros He Hd Ho. unfold encryptionState, updateEncryptionState.
  rewrite existsb_app. simpl. rewrite He, orb_false_r.
  unfold finalizeSignal, renameSuffix. cbn [procFeatures.EncryptionState
    procFeatures.OpenWritePairs procFeatures.DistinctPaths].
  destruct (existsb _ h); [done|]. cbn [orb].
  assert (((3 <=? o) || (3 <=? d) = true) → ((3 <=? o') || (3 <=? d') = true)) as Hm by lia.
  destruct ((3 <=? o) || (3 <=? d)); [rewrite Hm by done|clear Hm].
  - rewrite bool_decide_eq_false_2 by done. destruct (_ && _); [done|].
    by destruct (_ && _).
  - rewrite bool_decide_eq_false_2 by done. destruct (_ && _); [done|].
    destruct (_ && _); [done|]. by destruct (_ || _).
Qed.

Lemma updateEncryptionState_counts f ev :
  procFeatures.DistinctPaths (updateEncryptionState p f ev) = procFeatures.DistinctPaths f ∧
  procFeatures.OpenWritePairs (updateEncryptionState p f ev) = procFeatures.OpenWritePairs f ∧
  procFeatures.RenameSuffixCount (updateEncryptionState p f ev) = procFeatures.RenameSuffixCount f.
Proof. unfold updateEncryptionState. by repeat case_match. Qed.

Lemma features_ext f g :
  procFeatures.DistinctPaths f = procFeatures.DistinctPaths g →
  procFeatures.OpenWritePairs f = procFeatures.OpenWritePairs g →
  procFeatures.RenameSuffixCount f = procFeatures.RenameSuffixCount g →
  procFeatures.EncryptionState f = procFeatures.EncryptionState g → f = g.
Proof. destruct f, g. simpl. by intros -> -> -> ->. Qed.

Lemma size_mono (s t : gset string) : s ⊆ t → Z.of_nat (size s) ≤ Z.of_nat (size t).
Proof. intros Hs. apply Nat2Z.inj_le. by apply subseteq_size. Qed.

Lemma core_addScored fd st ev score reason :
  Event.Timestamp ev ≠ 0 →
  core (addScored p fd st ev score reason) =
  {| TGID := TGID (core st); PID := PID (core st); PPID := PPID (core st); UID := UID (core st);
     Comm := Comm (core st); Score := Score (core st) +ᵢ score;
     FirstSeen := FirstSeen (rebuildStep (core st) (historyOf p fd ev score reason));
     LastSeen := LastSeen (core st); EventCount := EventCount (core st) +ᵢ 1;
     WriteCount := WriteCount (core st) +ᵢ (if isWriteOrOpen ev then 1 else 0);
     Blocked := Blocked (core st); BlockedAt := BlockedAt (core st);
     Reasons := appendReason (Reasons (core st)) reason;
     RecentEvents := RecentEvents (core st) ++ [scoredEvent.mkScored (Event.Timestamp ev)
       (TypeName ev) (Event.Path ev) (Event.Path2 ev) score reason];
     HighRateScored := HighRateScored (core st);
     Features := if renameSuffix p ev
                 then (Features (core st)) <| procFeatures.RenameSuffixCount ::= λ n, n +ᵢ 1 |>
                 else Features (core st);
     seenPaths := trackPaths (seenPaths (core st)) (featurePaths fd ev);
     openWritePaths := trackOpenWrite (openWritePaths (core st)) (openWritePath ev);
     history := history st ++ [historyOf p fd ev score reason] |}.
Proof.
  intros Ht. rewrite (core_snoc st _ (history st) (historyOf p fd ev score reason)) by done.
  unfold rebuildStep, IsZero. cbn [historyOf historyEvent.At].
  by destruct (Z.eqb_spec (Event.Timestamp ev) 0).
Qed.

Lemma write_step st ev :
  history_ok (history st) → (length (history st) ≤ maxHistoryEvents)%nat →
  WriteCount (core st) +ᵢ (if isWriteOrOpen ev then 1 else 0) =
    WriteCount (core st) + (if isWriteOrOpen ev then 1 else 0) ∧ 0 ≤ WriteCount (core st).
Proof.
  intros Hh Hl. pose proof (writes_bound _ Hh). rewrite core_writes by done.
  unfold maxHistoryEvents in Hl. split; [|lia]. apply int_add_small.
  unfold is_int64, minInt64, maxInt64. case_match; lia.
Qed.

Lemma addScored_consistent fd st ev score reason :
  Event.Timestamp ev ≠ 0 → history_ok (history st) →
  (length (history st) ≤ maxHistoryEvents)%nat →
  consistent st → consistent (addScored p fd st ev score reason).
Proof.
  intros Ht Hh Hl [[Hs He Hw Hr Hhr Hf Hse Hop] Hre]. unfold consistent.
  rewrite rebuildWindow_finish in *. rewrite core_addScored by done.
  destruct (write_step st ev Hh Hl) as [Hstep H0].
  pose proof (history_core st) as Hhist.
  destruct (core st) as [tg pi pp ui co sc fs ls ec wc bl ba re rc hr ft sp op hi].
  unfold addScored, recordFeatures, finish in *. simpl in *. subst hi.
  rewrite Hs, He, Hw, Hr, Hhr, Hf, Hse, Hop. clear Hs He Hw Hr Hhr Hf Hse Hop.
  assert ((if isWriteOrOpen ev then wc +ᵢ 1 else wc) = wc +ᵢ (if isWriteOrOpen ev then 1 else 0)) as ->.
  { destruct (isWriteOrOpen ev); [done|]. by rewrite Hstep, Z.add_0_r. }
  rewrite Hstep. clear Hstep. split; [split|]; simpl.
  - destruct (Z.leb_spec 64 wc), (Z.leb_spec 64 (wc + (if isWriteOrOpen ev then 1 else 0)));
      simpl; try done; [apply int_add_swap|destruct (isWriteOrOpen ev); lia].
  - done.
  - done.
  - unfold pushRecent. apply keep_last_app.
  - destruct (Z.leb_spec 64 wc), (Z.leb_spec 64 (wc + (if isWriteOrOpen ev then 1 else 0)));
      simpl; try done; destruct (isWriteOrOpen ev); lia.
  - destruct ft as [d0 o0 rn0 es0]. simpl.
    pose proof (encryptionState_snoc (history st) (historyOf p fd ev score reason) ev
      (Z.of_nat (size sp)) (Z.of_nat (size op)) (if renameSuffix p ev then rn0 +ᵢ 1 else rn0)
      _ _ eq_refl (size_mono _ _ (trackPaths_subseteq sp (featurePaths fd ev)))
      (size_mono _ _ (trackOpenWrite_subseteq op (openWritePath ev)))) as Hes.
    rewrite <- Hes. clear Hes.
    destruct (renameSuffix p ev); apply features_ext; simpl;
      by rewrite ?(proj1 (updateEncryptionState_counts _ _)),
        ?(proj1 (proj2 (updateEncryptionState_counts _ _))),
        ?(proj2 (proj2 (updateEncryptionState_counts _ _))).
  - done.
  - done.
  - assert (re ⊆ Reasons st) as Hre'.
    { destruct (64 <=? wc); [|done]. intros x Hx. by apply Hre, appendReason_elem; left. }
    assert ((64 <=? wc) = true → "high-rate file mutation" ∈ Reasons st) as Hhi.
    { intros E. rewrite E in Hre. apply Hre, appendReason_elem. by right. }
    intros x. destruct (64 <=? wc) eqn:E1, (64 <=? (wc + _)) eqn:E2;
      cbn [negb andb]; rewrite ?appendReason_elem; naive_solver.
Qed.

Lemma history_addScored fd st ev score reason :
  history (addScored p fd st ev score reason) = history st ++ [historyOf p fd ev score reason].
Proof. done. Qed.

Lemma rebuildWindow_consistent st : consistent (rebuildWindow p st).
Proof. unfold consistent. rewrite rebuildWindow_idemp. by split. Qed.

Lemma TGID_rebuildWindow st : TGID (rebuildWindow p st) = TGID st.
Proof.
  change (TGID (rebuildWindow p st)) with (TGID (blank (rebuildWindow p st))).
  by rewrite blank_rebuildWindow.
Qed.
Lemma TGID_recordScored fd st ev score reason :
  TGID (recordScored p fd st ev score reason) = TGID st.
Proof. unfold recordScored. case_match; [by rewrite TGID_rebuildWindow|done]. Qed.

(** C7: the incremental bookkeeping of a scored event agrees with the
    reference: if the window of a process is the one [rebuildWindow] computes
    from its history, it still is after [handle] has recorded the event. *)
Theorem recordScored_consistent fd st ev score reason :
  Event.Timestamp ev ≠ 0 → history_ok (history st) →
  (length (history st) ≤ maxHistoryEvents)%nat →
  consistent st → consistent (recordScored p fd st ev score reason).
Proof.
  intros. unfold recordScored. case_bool_decide.
  - apply rebuildWindow_consistent.
  - by apply addScored_consistent.
Qed.

(** ** Expiry *)

(** The empty window is the one of an empty history. *)
Lemma resetWindow_consistent st t : history st = [] → consistent (resetWindow st t).
Proof.
  intros Hh. unfold consistent. rewrite rebuildWindow_finish. unfold core.
  simpl. rewrite Hh. split; [split|]; simpl; rewrite ?Hh; done.
Qed.
Lemma prune_cases st now :
  (prune p st now = st ∧ (0 < Policy.Window p → Forall (λ e, inWindow p now e) (history st)))
  ∨ (history st = [] ∧ prune p st now = resetWindow st now)
  ∨ prune p st now = rebuildWindow p (st <| history := List.filter (inWindow p now) (history st) |>).
Proof.
  unfold prune. destruct (Z.leb_spec (Policy.Window p) 0); [left; split; [done|lia]|].
  destruct (history st) as [|e h] eqn:Hh.
  { case_match; [left|right; left]; by split. }
  rewrite <- Hh. case_bool_decide as Hlen; [|by right; right].
  left. split; [done|]. intros _.
  apply Forall_forall. intros x Hx. rewrite <- (filter_length_all _ _ Hlen) in Hx.
  apply list_elem_of_In, filter_In in Hx as [_ ->]. done.
Qed.
Lemma TGID_prune st now : TGID (prune p st now) = TGID st.
Proof. by destruct (prune_cases st now) as [[-> _]|[[_ ->]| ->]]; rewrite ?TGID_rebuildWindow. Qed.

(** ** The invariant of a process state

    It holds in every reachable state, also after an IOC has raised the score
    without leaving a history event. *)
Definition window_score (h : list historyEvent) : Z :=
  foldr (λ e n, historyEvent.Score e + n) 0 h
  + (if 64 <=? writes h then Scores.HighRateBonus (Policy.Scores p) else 0).

(** Scores small enough for the sums over a full history to fit an [int]. *)
Definition maxScore : Z := 2 ^ 40.
Definition scored_ok (h : list historyEvent) : Prop :=
  Forall (λ e, 0 ≤ historyEvent.Score e ≤ maxScore) h.
Record policy_small : Prop := {
  ps_bonus : 0 ≤ Scores.HighRateBonus (Policy.Scores p) ≤ maxScore;
  ps_threshold : 0 ≤ Policy.Threshold p ≤ maxScore }.

Record proc_inv (st : procState) : Prop := {
  pi_history : (length (history st) ≤ maxHistoryEvents)%nat;
  pi_recent : (length (RecentEvents st) ≤ maxRecentEvents)%nat;
  pi_seen : (size (seenPaths st) ≤ maxTrackedPaths)%nat;
  pi_opened : (size (openWritePaths st) ≤ maxTrackedPaths)%nat;
  pi_reasons : NoDup (Reasons st);
  pi_distinct : procFeatures.DistinctPaths (Features st) = Z.of_nat (size (seenPaths st));
  pi_pairs : procFeatures.OpenWritePairs (Features st) = Z.of_nat (size (openWritePaths st));
  pi_events : history_ok (history st);
  pi_scored : scored_ok (history st);
  pi_writes : WriteCount st = writes (history st);
  pi_high : HighRateScored st = (64 <=? writes (history st));
  pi_score : window_score (history st) ≤ Score st
             ≤ window_score (history st) + Policy.Threshold p }.

Lemma score_sum_bound h :
  scored_ok h → 0 ≤ foldr (λ e n, historyEvent.Score e + n) 0 h ≤ Z.of_nat (length h) * maxScore.
Proof. induction 1 as [|e h ? ? IH]; simpl; lia. Qed.
Lemma window_score_bound h :
  policy_small → scored_ok h → 0 ≤ window_score h ≤ (Z.of_nat (length h) + 1) * maxScore.
Proof.
  intros [? ?] Hh. pose proof (score_sum_bound h Hh). unfold window_score. case_match; lia.
Qed.

(** The accumulator of [rebuildWindow] keeps the bounds. *)
Record core_inv (c : procState) : Prop := {
  ci_seen : (size (seenPaths c) ≤ maxTrackedPaths)%nat;
  ci_opened : (size (openWritePaths c) ≤ maxTrackedPaths)%nat;
  ci_reasons : NoDup (Reasons c) }.
Lemma rebuildStep_inv c e : core_inv c → core_inv (rebuildStep c e).
Proof.
  intros [? ? ?]. unfold rebuildStep. case_match; [done|].
  split; cbn; auto using appendReason_NoDup with go.
Qed.
Lemma core_core_inv st : core_inv (core st).
Proof.
  unfold core. assert (core_inv (blank st)) as Hb by (by split; [apply (bool_decide_unpack _); vm_compute..|constructor]).
  revert Hb. generalize (blank st) as c.
  induction (history st) as [|e h IH]; intros c Hc; simpl; auto using rebuildStep_inv.
Qed.

Lemma foldl_score st h :
  history_ok h → scored_ok h → 0 ≤ Score st →
  Score st + Z.of_nat (length h) * maxScore ≤ maxInt64 →
  Score (foldl rebuildStep st h) = Score st + foldr (λ e n, historyEvent.Score e + n) 0 h.
Proof.
  intros Hh Hs. revert st. induction Hh as [|e h [Ha Hw] Hh IH]; intros st H0 H1; simpl in *; [lia|].
  apply Forall_cons in Hs as [Hse Hs].
  assert (Score (rebuildStep st e) = Score st + historyEvent.Score e) as He.
  { unfold rebuildStep, IsZero. destruct (Z.eqb_spec (historyEvent.At e) 0); [done|].
    cbn [Score]. apply int_add_small. unfold is_int64, minInt64, maxInt64, maxScore in *. lia. }
  unfold maxScore in *. rewrite IH by (done || rewrite ?He; lia). rewrite He. lia.
Qed.

Lemma core_score st :
  history_ok (history st) → scored_ok (history st) →
  (length (history st) ≤ maxHistoryEvents)%nat →
  Score (core st) = foldr (λ e n, historyEvent.Score e + n) 0 (history st).
Proof.
  intros. unfold core. rewrite foldl_score; [done..|].
  unfold maxScore, maxHistoryEvents, maxInt64 in *. simpl. lia.
Qed.

(** A sum of scores that fits. *)
Lemma score_fits h x :
  policy_small → scored_ok h → (length h ≤ S maxHistoryEvents)%nat → 0 ≤ x ≤ 4 * maxScore →
  is_int64 (window_score h + x).
Proof.
  intros Hp Hh Hl Hx. pose proof (window_score_bound h Hp Hh).
  unfold is_int64, minInt64, maxInt64, maxScore, maxHistoryEvents in *. lia.
Qed.

Lemma rebuildWindow_inv st :
  policy_small → (length (history st) ≤ maxHistoryEvents)%nat →
  history_ok (history st) → scored_ok (history st) → proc_inv (rebuildWindow p st).
Proof.
  intros Hp Hl Hh Hs. rewrite rebuildWindow_finish.
  pose proof (core_core_inv st) as [? ? ?].
  pose proof (core_writes st Hh Hl) as Hw. pose proof (core_score st Hh Hs Hl) as Hsc.
  pose proof (history_core st) as Hhc. pose proof (ps_threshold Hp).
  split; cbn; rewrite ?Hhc, ?Hw; auto using keep_last_length.
  - case_match; [by apply appendReason_NoDup|done].
  - pose proof (score_fits (history st) 0 Hp Hs) as Hfit. rewrite Hsc.
    unfold window_score in *. case_match; [rewrite int_add_small|]; [lia| |lia].
    rewrite Z.add_0_r in Hfit. apply Hfit; unfold maxScore; lia.
Qed.




Lemma filter_ok (P : historyEvent → Prop) f h : Forall P h → Forall P (List.filter f h).
Proof. rewrite !Forall_forall. intros HP x [? _]%list_elem_of_In%filter_In. by apply HP, list_elem_of_In. Qed.

Lemma resetWindow_inv st t : policy_small → history st = [] → proc_inv (resetWindow st t).
Proof.
  intros [_ ?] Hh. split; simpl; rewrite ?Hh; unfold window_score, history_ok, scored_ok;
    first [by constructor|by apply (bool_decide_unpack _); vm_compute|cbn; lia].
Qed.
Lemma fresh_inv tgid t : policy_small → proc_inv (fresh tgid t).
Proof. intros Hp. apply (resetWindow_inv (fresh tgid t) t Hp eq_refl). Qed.

Lemma prune_inv st now : policy_small → proc_inv st → proc_inv (prune p st now).
Proof.
  intros Hp Hi. destruct (prune_cases st now) as [[-> _]|[[Hh ->]| ->]].
  - done.
  - by apply resetWindow_inv.
  - apply rebuildWindow_inv; cbn; [done| |apply filter_ok, pi_events, Hi|apply filter_ok, pi_scored, Hi].
    pose proof (List.filter_length_le (inWindow p now) (history st)).
    pose proof (pi_history _ Hi). lia.
Qed.

(** What [proc_inv] depends on. *)
Lemma proc_inv_ext st st' :
  proc_inv st → history st' = history st →
  Score st' = Score st → WriteCount st' = WriteCount st →
  HighRateScored st' = HighRateScored st → Features st' = Features st →
  seenPaths st' = seenPaths st → openWritePaths st' = openWritePaths st →
  NoDup (Reasons st') → (length (RecentEvents st') ≤ maxRecentEvents)%nat → proc_inv st'.
Proof. intros [] Hh Hs Hw Hhr Hf Hse Ho ? ?. by split; rewrite ?Hh, ?Hs, ?Hw, ?Hhr, ?Hf, ?Hse, ?Ho. Qed.

Lemma recordFeatures_inv fd st ev : proc_inv st → proc_inv (recordFeatures p fd st ev).
Proof.
  intros []. unfold recordFeatures. split; cbn; auto with go.
  - by rewrite (proj1 (updateEncryptionState_counts _ _)).
  - by rewrite (proj1 (proj2 (updateEncryptionState_counts _ _))).
Qed.

Lemma recordIOC_inv st at_ ty path path2 reason b :
  policy_small → proc_inv st → proc_inv (recordIOC p st at_ ty path path2 reason b).
Proof.
  intros Hp Hi. pose proof (window_score_bound _ Hp (pi_scored _ Hi)).
  destruct Hi. unfold recordIOC, pushRecent. split; cbn -[keep_last]; auto using appendReason_NoDup, keep_last_length.
  pose proof (ps_threshold Hp). lia.
Qed.

(** The score of an event [handle] records. *)
Definition score_ok (score : Z) : Prop := 0 ≤ score ≤ maxScore.

Lemma window_score_snoc h e :
  window_score (h ++ [e]) = window_score h + historyEvent.Score e
    + (if negb (64 <=? writes h) && (64 <=? writes (h ++ [e]))
       then Scores.HighRateBonus (Policy.Scores p) else 0)
  ∨ writes (h ++ [e]) < writes h.
Proof.
  destruct (Z.ltb_spec (writes (h ++ [e])) (writes h)); [by right|left].
  unfold window_score. rewrite foldr_app. simpl.
  assert (∀ x l, foldr (λ e n, historyEvent.Score e + n) x l
    = foldr (λ e n, historyEvent.Score e + n) 0 l + x) as Hf.
  { intros x l. induction l as [|y l IH]; simpl; [lia|]. rewrite IH. lia. }
  rewrite Hf. destruct (Z.leb_spec 64 (writes h)), (Z.leb_spec 64 (writes (h ++ [e]))); simpl; lia.
Qed.

Lemma score_step st h score (hi : bool) W :
  policy_small → score_ok score → scored_ok h → (length h ≤ maxHistoryEvents)%nat →
  window_score h ≤ Score st ≤ window_score h + Policy.Threshold p →
  W = window_score h + score + (if hi then Scores.HighRateBonus (Policy.Scores p) else 0) →
  W ≤ (if hi then Score st +ᵢ score +ᵢ Scores.HighRateBonus (Policy.Scores p) else Score st +ᵢ score)
    ≤ W + Policy.Threshold p.
Proof.
  intros Hp Hs Hh Hl HS ->. pose proof (window_score_bound h Hp Hh). destruct Hp.
  unfold score_ok, maxScore, maxHistoryEvents in *.
  rewrite (int_add_small (Score st) score) by (unfold is_int64, minInt64, maxInt64; lia).
  destruct hi; [|lia]. rewrite int_add_small by (unfold is_int64, minInt64, maxInt64; lia). lia.
Qed.

Lemma addScored_core_inv fd st ev score reason :
  policy_small → Event.Timestamp ev ≠ 0 → score_ok score → proc_inv st →
  let st' := addScored p fd st ev score reason in
  history_ok (history st') ∧ scored_ok (history st')
  ∧ WriteCount st' = writes (history st')
  ∧ HighRateScored st' = (64 <=? writes (history st'))
  ∧ window_score (history st') ≤ Score st' ≤ window_score (history st') + Policy.Threshold p.
Proof.
  intros Hp Ht Hsc Hi st'. pose proof (pi_writes _ Hi) as Hw. pose proof (pi_high _ Hi) as Hh.
  assert (history_ok (history st')) as Hh'.
  { apply Forall_app. split; [apply (pi_events _ Hi)|]. apply Forall_singleton. cbn.
    split; [done|]. case_match; lia. }
  assert (scored_ok (history st')) as Hs'.
  { apply Forall_app. split; [apply (pi_scored _ Hi)|]. by apply Forall_singleton. }
  set (w := if isWriteOrOpen ev then 1 else 0).
  assert (writes (history st') = writes (history st) + w) as Hw'.
  { unfold st'. rewrite history_addScored, writes_app. cbn. lia. }
  pose proof (writes_bound _ (pi_events _ Hi)). pose proof (pi_history _ Hi).
  assert ((if isWriteOrOpen ev then WriteCount st +ᵢ 1 else WriteCount st) = writes (history st')) as HW.
  { rewrite Hw', Hw. unfold w. case_match; [|lia]. apply int_add_small.
    unfold is_int64, minInt64, maxInt64, maxHistoryEvents in *. lia. }
  set (hi := negb (HighRateScored st) && (64 <=? writes (history st'))).
  assert (Score st' = if hi then Score st +ᵢ score +ᵢ Scores.HighRateBonus (Policy.Scores p)
                      else Score st +ᵢ score) as HS by (unfold hi; by rewrite <- HW).
  do 3 (split; [done|]). split.
  - transitivity (if hi then true else HighRateScored st); [unfold hi; by rewrite <- HW|].
    unfold hi. rewrite Hh, Hw'. unfold w.
    destruct (Z.leb_spec 64 (writes (history st))), (64 <=? _ + _) eqn:?; try done.
    exfalso. apply Z.leb_gt in Heqb. case_match; lia.
  - rewrite HS. apply (score_step st (history st)); [done|done|apply Hi|done|apply Hi|].
    unfold hi. rewrite Hh. unfold st'. rewrite history_addScored.
    destruct (window_score_snoc (history st) (historyOf p fd ev score reason)) as [->|E]; [done|].
    change (writes (history st') < writes (history st)) in E. rewrite Hw' in E. unfold w in E.
    destruct (isWriteOrOpen ev); lia.
Qed.

Lemma addScored_inv fd st ev score reason :
  policy_small → Event.Timestamp ev ≠ 0 → score_ok score → proc_inv st →
  (length (history st) < maxHistoryEvents)%nat → proc_inv (addScored p fd st ev score reason).
Proof.
  intros Hp Ht Hsc Hi Hl. pose proof (recordFeatures_inv fd st ev Hi) as [].
  destruct (addScored_core_inv fd st ev score reason Hp Ht Hsc Hi) as (? & ? & ? & ? & ?).
  split; try done.
  - rewrite history_addScored, length_app. simpl. lia.
  - apply keep_last_length.
  - unfold addScored. cbn. case_match; auto using appendReason_NoDup.
Qed.

(** Recording a scored event keeps the invariant, also when the history is full. *)
Lemma recordScored_inv fd st ev score reason :
  policy_small → Event.Timestamp ev ≠ 0 → score_ok score → proc_inv st →
  proc_inv (recordScored p fd st ev score reason).
Proof.
  intros Hp Ht Hsc Hi. unfold recordScored. case_bool_decide as Hl.
  - destruct (addScored_core_inv fd st ev score reason Hp Ht Hsc Hi) as (? & ? & _).
    apply rebuildWindow_inv; cbn -[addScored keep_last]; [done|apply keep_last_length|..];
      by apply Forall_drop.
  - apply addScored_inv; try done. rewrite history_addScored, length_app in Hl. simpl in Hl. lia.
Qed.
End theory.
#[export] Hint Resolve prune_inv recordScored_inv recordIOC_inv recordFeatures_inv fresh_inv : go.
