(* ===== verification/Sha256.v ===== *)
(** * SHA-256 (crypto/sha256) and hexadecimal text (encoding/hex)

    The standard-library functions behind [fileSHA256] of
    internal/agent/blacklist.go, as FIPS 180-4 defines them.  A byte is a [Z]
    in [0, 256); a word is a 32-bit [Z]. *)
From S2P Require Import Prelude GoStrings.

Definition H0 : list Z :=
  [1779033703; 3144134277; 1013904242; 2773480762; 1359893119; 2600822924; 528734635;
   1541459225].
Definition K256 : list Z :=
  [1116352408; 1899447441; 3049323471; 3921009573; 961987163; 1508970993; 2453635748;
   2870763221; 3624381080; 310598401; 607225278; 1426881987; 1925078388; 2162078206;
   2614888103; 3248222580; 3835390401; 4022224774; 264347078; 604807628; 770255983;
   1249150122; 1555081692; 1996064986; 2554220882; 2821834349; 2952996808; 3210313671;
   3336571891; 3584528711; 113926993; 338241895; 666307205; 773529912; 1294757372;
   1396182291; 1695183700; 1986661051; 2177026350; 2456956037; 2730485921; 2820302411;
   3259730800; 3345764771; 3516065817; 3600352804; 4094571909; 275423344; 430227734;
   506948616; 659060556; 883997877; 958139571; 1322822218; 1537002063; 1747873779;
   1955562222; 2024104815; 2227730452; 2361852424; 2428436474; 2756734187; 3204031479;
   3329325298].

Definition rotr (n x : Z) : Z := Z.lor (Z.shiftr x n) (uint32 (Z.shiftl x (32 - n))).
Definition not32 (x : Z) : Z := Z.lxor x (2 ^ 32 - 1).

(** One round of the compression function on the eight working variables. *)
Definition sha_round (v : list Z) (kw : Z * Z) : list Z :=
  match v with
  | [a; b; c; d; e; f; g; h] =>
      let s1 := Z.lxor (Z.lxor (rotr 6 e) (rotr 11 e)) (rotr 25 e) in
      let ch := Z.lxor (Z.land e f) (Z.land (not32 e) g) in
      let t1 := h + s1 + ch + kw.1 + kw.2 in
      let s0 := Z.lxor (Z.lxor (rotr 2 a) (rotr 13 a)) (rotr 22 a) in
      let maj := Z.lxor (Z.lxor (Z.land a b) (Z.land a c)) (Z.land b c) in
      [uint32 (t1 + s0 + maj); a; b; c; uint32 (d + t1); e; f; g]
  | _ => v
  end.

(** The message schedule, kept in reverse: [w] holds the words so far. *)
Fixpoint sha_schedule (n : nat) (w : list Z) : list Z :=
  match n with
  | O => w
  | S n =>
      let at_ (k : Z) := nth (Z.to_nat k) w 0 in
      let s0 := Z.lxor (Z.lxor (rotr 7 (at_ 14)) (rotr 18 (at_ 14))) (Z.shiftr (at_ 14) 3) in
      let s1 := Z.lxor (Z.lxor (rotr 17 (at_ 1)) (rotr 19 (at_ 1))) (Z.shiftr (at_ 1) 10) in
      sha_schedule n (uint32 (at_ 15 + s0 + at_ 6 + s1) :: w)
  end.

Fixpoint be_words (bs : list Z) : list Z :=
  match bs with
  | a :: b :: c :: d :: bs => (a * 2 ^ 24 + b * 2 ^ 16 + c * 2 ^ 8 + d) :: be_words bs
  | _ => []
  end.
Definition sha_block (hs : list Z) (block : list Z) : list Z :=
  let w := rev (sha_schedule 48 (rev (be_words block))) in
  zip_with (λ x y, uint32 (x + y)) hs (foldl sha_round hs (zip K256 w)).

Fixpoint sha_blocks (fuel : nat) (hs : list Z) (bs : list Z) : list Z :=
  match fuel, bs with
  | S fuel, _ :: _ => sha_blocks fuel (sha_block hs (take 64 bs)) (drop 64 bs)
  | _, _ => hs
  end.

Definition be_bytes (n : nat) (x : Z) : list Z :=
  rev (map (λ i, Z.land (Z.shiftr x (8 * Z.of_nat i)) 255) (seq 0 n)).
Definition sha_pad (bs : list Z) : list Z :=
  let l := Z.of_nat (length bs) in
  bs ++ [128] ++ replicate (Z.to_nat ((55 - l) mod 64)) 0 ++ be_bytes 8 (8 * l).

(** [sha256.Sum256]; a padded message of [n] bytes has [n/64] blocks. *)
Definition sha256 (bs : list Z) : list Z :=
  let m := sha_pad bs in
  flat_map (be_bytes 4) (sha_blocks (length m) H0 m).

(** [hex.EncodeToString] *)
Definition hex_digit (d : Z) : ascii := chr (if d <? 10 then 48 + d else 87 + d).
Definition EncodeToString (bs : list Z) : string :=
  foldr (λ b s, String (hex_digit (Z.shiftr b 4)) (String (hex_digit (Z.land b 15)) s)) "" bs.

Example sha256_abc :
  EncodeToString (sha256 (bytes "abc"))
  = "ba7816bf8f01cfea414140de5dae2223b00361a396177a9cb410ff61f20015ad".
Proof. vm_compute. reflexivity. Qed.
Example sha256_two_blocks :
  EncodeToString (sha256 (bytes "abcdbcdecdefdefgefghfghighijhijkijkljklmklmnlmnomnopnopq"))
  = "248d6a61d20638b8e5c026930c3e6039a33ce45964ff2167f6ecedd419db06c1".
Proof. vm_compute. reflexivity. Qed.

(** ** The shape of a digest *)
Lemma sha_round_length v kw : length (sha_round v kw) = length v.
Proof. unfold sha_round. by do 9 (destruct v as [|? v]; try done). Qed.
Lemma sha_block_length hs b : length (sha_block hs b) = length hs.
Proof.
  unfold sha_block. rewrite length_zip_with.
  assert (∀ l v, length (foldl sha_round v l) = length v) as ->.
  { induction l as [|x l IH]; intros v; simpl; [done|]. by rewrite IH, sha_round_length. }
  lia.
Qed.
Lemma sha_blocks_length fuel hs bs : length (sha_blocks fuel hs bs) = length hs.
Proof.
  revert hs bs. induction fuel as [|fuel IH]; intros hs bs; [done|].
  destruct bs as [|b bs]; [done|]. cbn [sha_blocks]. by rewrite IH, sha_block_length.
Qed.
Lemma be_bytes_length n x : length (be_bytes n x) = n.
Proof. unfold be_bytes. by rewrite List.length_rev, length_map, length_seq. Qed.
Lemma be_bytes_range n x : Forall (λ b, 0 ≤ b < 256) (be_bytes n x).
Proof.
  unfold be_bytes. apply Forall_rev, Forall_map, Forall_true. intros i.
  change 255 with (Z.ones 8). rewrite Z.land_ones by lia. apply Z.mod_pos_bound. lia.
Qed.
Lemma sha256_shape bs : length (sha256 bs) = 32%nat ∧ Forall (λ b, 0 ≤ b < 256) (sha256 bs).
Proof.
  unfold sha256. pose proof (sha_blocks_length (length (sha_pad bs)) H0 (sha_pad bs)) as Hl.
  change (length H0) with 8%nat in Hl. revert Hl.
  generalize (sha_blocks (length (sha_pad bs)) H0 (sha_pad bs)) as l. intros l Hl. split.
  - assert (∀ l, length (flat_map (be_bytes 4) l) = (4 * length l)%nat) as ->; [|lia].
    clear. induction l as [|x l IH]; cbn [flat_map length]; [done|].
    rewrite length_app, be_bytes_length. lia.
  - clear Hl. induction l as [|x l IH]; [constructor|].
    cbn [flat_map]. apply Forall_app. auto using be_bytes_range.
Qed.
Lemma EncodeToString_length bs : String.length (EncodeToString bs) = (2 * length bs)%nat.
Proof. induction bs as [|b bs IH]; cbn [EncodeToString foldr String.length length]; [done|].
  unfold EncodeToString in IH. lia. Qed.
