(* ===== verification/HashCache.v ===== *)
(** * The cache of executable digests: internal/agent/hash_cache.go

    [get] trusts an entry only while the file still has the size, modification
    time and identity it had when it was hashed; [compute] hashes between two
    identical [Stat] results and keeps at most [maxHashCacheEntries] entries.
    The digest itself is [fileSHA256] of internal/agent/blacklist.go. *)
From S2P Require Import Prelude GoStrings GoPath World Sha256.

Module hashCacheEntry.
Record hashCacheEntry := mkEntry {
  Size : Z; ModTime : Z; Hash : string; Info : option FileInfo }.
End hashCacheEntry.
Abbreviation hashCacheEntry := hashCacheEntry.hashCacheEntry.

(** [hashCache.entries] *)
Abbreviation hashCache := (gmap string hashCacheEntry).
Definition newHashCache : hashCache := ∅.
Definition maxHashCacheEntries : nat := 4096.

Inductive HashError := StatFailed | ReadFailed | FileChanged (path : string).

(** [os.SameFile] *)
Definition SameFile (a b : FileInfo) : bool :=
  (FileInfo.Dev a =? FileInfo.Dev b) && (FileInfo.Ino a =? FileInfo.Ino b).
(** The file did not change between two [Stat] calls, as far as they tell. *)
Definition unchanged (a b : FileInfo) : bool :=
  (FileInfo.Size a =? FileInfo.Size b) && (FileInfo.ModTime a =? FileInfo.ModTime b) && SameFile a b.

(** The entry still describes the file. *)
Definition fresh_entry (entry : hashCacheEntry) (stat : FileInfo) : bool :=
  (hashCacheEntry.Size entry =? FileInfo.Size stat)
  && (hashCacheEntry.ModTime entry =? FileInfo.ModTime stat)
  && match hashCacheEntry.Info entry with Some i => SameFile i stat | None => true end.

(** [for victim := range m { delete(m, victim); break }] *)
Definition evict {A} (m : gmap string A) (start : nat) : gmap string A :=
  match (map_to_list m).*1 !! (start `mod` size m)%nat with
  | Some victim => delete victim m
  | None => m
  end.

Section hash_cache.
Context `{World}.

Definition get (path : string) : M hashCache (option string) :=
  stat ← ask (os_Stat path);
  match stat with
  | None => mret None
  | Some stat =>
      c ← getS;
      match c !! path with
      | None => mret None
      | Some entry =>
          if fresh_entry entry stat then mret (Some (hashCacheEntry.Hash entry))
          else modS (delete path) ;; mret None
      end
  end.

(** [fileSHA256] of blacklist.go *)
Definition fileSHA256 {S} (path : string) : M S (option string) :=
  data ← ask (read_all (Clean path));
  mret (EncodeToString ∘ sha256 <$> data).

Definition store (path : string) (stat : FileInfo) (hash : string) : M hashCache () :=
  c ← getS;
  when (bool_decide (c !! path = None) && bool_decide (maxHashCacheEntries ≤ size c)%nat)
    (start ← ask map_order; modS (λ c, evict c start)) ;;
  modS (insert path (hashCacheEntry.mkEntry (FileInfo.Size stat) (FileInfo.ModTime stat)
                       hash (Some stat))).

(** The retry loop of [compute]. *)
Fixpoint hash_attempts (attempts : nat) (path : string) : M hashCache (HashError + string) :=
  match attempts with
  | O => mret (inl (FileChanged path))
  | S attempts =>
      before ← ask (os_Stat path);
      match before with
      | None => mret (inl StatFailed)
      | Some before =>
          hash ← fileSHA256 path;
          match hash with
          | None => mret (inl ReadFailed)
          | Some hash =>
              after ← ask (os_Stat path);
              match after with
              | None => mret (inl StatFailed)
              | Some after =>
                  if unchanged before after then store path after hash ;; mret (inr hash)
                  else hash_attempts attempts path
              end
          end
      end
  end.

Definition compute (path : string) : M hashCache (HashError + string) :=
  cached ← get path;
  match cached with
  | Some hash => mret (inr hash)
  | None => hash_attempts 2 path
  end.

(** ** The cache is bounded *)
Definition bounded (c : hashCache) : Prop := (size c ≤ maxHashCacheEntries)%nat.

Lemma size_evict {A} (m : gmap string A) start :
  (0 < size m)%nat → size (evict m start) = pred (size m).
Proof.
  intros Hm. unfold evict.
  destruct (lookup_lt_is_Some_2 (map_to_list m).*1 (start `mod` size m)%nat) as [k Hk].
  { rewrite length_fmap, length_map_to_list. apply Nat.mod_upper_bound. lia. }
  rewrite Hk. apply list_elem_of_lookup_2, list_elem_of_fmap in Hk as ([k' x] & -> & Hx).
  apply elem_of_map_to_list in Hx. rewrite map_size_delete. simpl. by rewrite Hx.
Qed.
Lemma evict_subseteq {A} (m : gmap string A) start : evict m start ⊆ m.
Proof. unfold evict. case_match; [apply delete_subseteq|done]. Qed.

(** Making room before an insertion keeps a map within any positive bound. *)
Lemma size_insert_evict {A} (m : gmap string A) cap start path x :
  (0 < cap)%nat → (size m ≤ cap)%nat →
  (size (<[path := x]> (if bool_decide (m !! path = None) && bool_decide (cap ≤ size m)%nat
                        then evict m start else m)) ≤ cap)%nat.
Proof.
  intros Hpos Hm. rewrite map_size_insert. case_bool_decide as Hp; cbn [andb].
  - case_bool_decide as Hc.
    + rewrite size_evict by lia. case_match; simpl; lia.
    + rewrite Hp. simpl. lia.
  - by destruct (m !! path).
Qed.
Lemma cap_positive : (0 < maxHashCacheEntries)%nat.
Proof. apply (bool_decide_unpack _). vm_compute. exact I. Qed.
Lemma after_store path stat hash n c :
  ∃ start x, after (store path stat hash) n c =
    <[path := x]> (if bool_decide (c !! path = None) && bool_decide (maxHashCacheEntries ≤ size c)%nat
                   then evict c start else c).
Proof.
  exists (map_order n), (hashCacheEntry.mkEntry (FileInfo.Size stat) (FileInfo.ModTime stat) hash (Some stat)).
  unfold after, store, mbind, M_bind, getS, when. by destruct (_ && _).
Qed.
Lemma store_bounded path stat hash : keeps bounded (store path stat hash).
Proof.
  intros n c Hc. unfold bounded. destruct (after_store path stat hash n c) as (start & x & ->).
  apply size_insert_evict; [apply cap_positive|exact Hc].
Qed.
Lemma get_bounded path : keeps bounded (get path).
Proof.
  unfold get. keeps_auto. apply keeps_mod. intros c Hc. unfold bounded in *.
  rewrite map_size_delete. destruct (c !! path); simpl; lia.
Qed.
Lemma hash_attempts_bounded k path : keeps bounded (hash_attempts k path).
Proof.
  induction k as [|k IH]; simpl; [apply keeps_ret|].
  unfold fileSHA256. keeps_auto. apply store_bounded.
Qed.

(** the cache never holds more than [maxHashCacheEntries] digests. *)
Theorem compute_bounded path : keeps bounded (compute path).
Proof.
  unfold compute. apply keeps_bind; [apply get_bounded|]. intros [h|]; [apply keeps_ret|].
  apply hash_attempts_bounded.
Qed.

(** ** Digests are of the file as it is *)

(** [hash] is the digest of what was read at query [k], and the file looked
    like [stat] right before and right after. *)
Definition hashed (path : string) (stat : FileInfo) (hash : string) : Prop :=
  ∃ k data before, read_all (Clean path) (S k) = Some data
    ∧ hash = EncodeToString (sha256 data)
    ∧ os_Stat path k = Some before ∧ os_Stat path (S (S k)) = Some stat
    ∧ unchanged before stat = true.

Definition cache_ok (c : hashCache) : Prop :=
  ∀ path entry, c !! path = Some entry → ∃ stat,
    hashCacheEntry.Info entry = Some stat ∧ hashCacheEntry.Size entry = FileInfo.Size stat
    ∧ hashCacheEntry.ModTime entry = FileInfo.ModTime stat
    ∧ hashed path stat (hashCacheEntry.Hash entry).

(** What a returned digest guarantees: the [Stat] made at query [j], during
    the call, shows the file that was hashed. *)
Definition current (path : string) (n n' : nat) (hash : string) : Prop :=
  ∃ stat stat' j, hashed path stat hash ∧ (n ≤ j < n')%nat
    ∧ os_Stat path j = Some stat' ∧ unchanged stat stat' = true.

Lemma cache_ok_subseteq c c' : c' ⊆ c → cache_ok c → cache_ok c'.
Proof. intros Hs Hc path e He. by apply Hc, (lookup_weaken _ _ _ _ He). Qed.
Lemma unchanged_refl a : unchanged a a = true.
Proof. unfold unchanged, SameFile. by rewrite !Z.eqb_refl. Qed.

Lemma get_ok path n c :
  cache_ok c → let '(r, n', c') := get path n c in
  n' = S n ∧ cache_ok c' ∧ (∀ h, r = Some h → current path n n' h).
Proof.
  intros Hc. unfold get, mbind, M_bind, ask. cbn.
  destruct (os_Stat path n) as [stat|] eqn:Hs; [|by split_and!].
  cbn. destruct (c !! path) as [e|] eqn:He; [|by split_and!].
  destruct (Hc path e He) as (st0 & Hi & Hsz & Hm & Hh).
  destruct (fresh_entry e stat) eqn:Hf; cbn; split_and!; try done.
  - intros h [= <-]. exists st0, stat, n. split_and!; [done|lia|lia|done|].
    revert Hf. unfold fresh_entry, unchanged. by rewrite Hi, Hsz, Hm.
  - eapply cache_ok_subseteq, Hc. apply delete_subseteq.
Qed.

Lemma store_ok path stat h :
  hashed path stat h → triple cache_ok (store path stat h) (λ _, cache_ok).
Proof.
  intros Hh n c Hc. unfold store, after, mbind, M_bind, getS, modS, ask, when.
  assert (∀ c1, c1 ⊆ c → cache_ok (<[path := hashCacheEntry.mkEntry (FileInfo.Size stat)
            (FileInfo.ModTime stat) h (Some stat)]> c1)) as Hins.
  { intros c1 Hc1 path' e [[<- <-]|[_ He]]%lookup_insert_Some; [by exists stat|].
    by apply (cache_ok_subseteq c c1 Hc1 Hc). }
  destruct (_ && _); apply Hins; [apply evict_subseteq|done].
Qed.

Lemma store_queries path stat h n c : (n ≤ (store path stat h n c).1.2)%nat.
Proof. unfold store, mbind, M_bind, getS, modS, ask, when. destruct (_ && _); cbn; lia. Qed.

Lemma hash_attempts_ok k path n c :
  cache_ok c → let '(r, n', c') := hash_attempts k path n c in
  cache_ok c' ∧ (n ≤ n')%nat ∧ (∀ h, r = inr h → current path n n' h).
Proof.
  revert n. induction k as [|k IH]; intros n Hc; cbn; [by split_and!|].
  unfold fileSHA256, mbind, M_bind, ask. cbn.
  destruct (os_Stat path n) as [before|] eqn:Hb; cbn; [|by split_and!; [|lia|]].
  destruct (read_all (Clean path) (S n)) as [data|] eqn:Hd; cbn; [|by split_and!; [|lia|]].
  destruct (os_Stat path (S (S n))) as [stat|] eqn:Ha; cbn; [|by split_and!; [|lia|]].
  destruct (unchanged before stat) eqn:Hu.
  - assert (hashed path stat (EncodeToString (sha256 data))) as Hh by (by exists n, data, before).
    pose proof (store_ok path stat _ Hh (S (S (S n))) c Hc) as Hst.
    unfold after, mbind, M_bind in *.
    pose proof (store_queries path stat (EncodeToString (sha256 data)) (S (S (S n))) c) as Hq.
    destruct (store _ _ _ _ _) as [[[] n'] c']. cbn in *. split_and!; [done|lia|].
    intros h [= <-]. exists stat, stat, (S (S n)). split_and!; [done|lia|lia|done|apply unchanged_refl].
  - specialize (IH (S (S (S n))) Hc). destruct (hash_attempts k path _ c) as [[r n'] c'].
    destruct IH as (? & ? & Hr). split_and!; [done|lia|].
    intros h Hh. destruct (Hr h Hh) as (a & b & j & ? & ? & ? & ?).
    exists a, b, j. split_and!; (done || lia).
Qed.

(** C23: a digest [compute] returns is the SHA-256 of bytes read from the file
    between two [Stat] calls that saw the same size, modification time and
    inode, and a [Stat] made during the call still sees them: a stale cache
    entry is never served. *)
Theorem compute_current path n c h :
  cache_ok c → result (compute path) n c = inr h →
  current path n (compute path n c).1.2 h ∧ cache_ok (after (compute path) n c).
Proof.
  intros Hc. unfold result, after, compute, mbind, M_bind.
  pose proof (get_ok path n c Hc) as Hg.
  destruct (get path n c) as [[[h'|] n1] c1]; destruct Hg as (-> & Hc1 & Hr);
    cbn -[hash_attempts].
  - intros [= <-]. by split; [apply Hr|].
  - pose proof (hash_attempts_ok 2 path (S n) c1 Hc1) as Ha.
    destruct (hash_attempts 2 path (S n) c1) as [[r n2] c2]. destruct Ha as (Hc2 & ? & Hr2).
    cbn. intros ->. split; [|done]. destruct (Hr2 h eq_refl) as (a & b & j & ? & ? & ? & ?).
    exists a, b, j. split_and!; (done || lia).
Qed.
End hash_cache.
