(* ===== verification/Blacklist.v ===== *)
(** * Hash blacklist and procfs identities: internal/agent/blacklist.go *)
From S2P Require Import Prelude GoStrings GoPath World Sha256 HashCache.

Module blacklist.
Record blacklist := mkBlacklist {
  baseHashes : list string; hashes : gset string; files : list string }.
#[export] Instance eta_blacklist : Eta blacklist := λ b,
  mkBlacklist (baseHashes b) (hashes b) (files b).
End blacklist.
Export (hints) blacklist.
Abbreviation blacklist := blacklist.blacklist.

Module procInfo.
Record procInfo := mkProc {
  PID : Z; TGID : Z; UID : Z; Comm : string; Exe : string; Cgroup : string }.
#[export] Instance eta_procInfo : Eta procInfo := λ i,
  mkProc (PID i) (TGID i) (UID i) (Comm i) (Exe i) (Cgroup i).
Definition zero : procInfo := mkProc 0 0 0 "" "" "".
End procInfo.
Export (hints) procInfo.
Abbreviation procInfo := procInfo.procInfo.

Inductive BlacklistError :=
  | OpenHashFile (path : string)
  | ReadHashFile (path : string).

(** ** Lines

    [bufio.Scanner] with its default split function: lines without their end
    marker, and no empty last line.  A line that does not fit the 64 KiB
    buffer together with its end stops the scan with an error. *)
Definition MaxScanTokenSize : Z := 65536.
Definition drop_last_empty (l : list string) : list string :=
  match last l with Some "" => take (length l - 1) l | _ => l end.
Definition dropCR (line : string) : string := TrimSuffix line (String "013" "").
Definition ScanLines (data : string) : option (list string) :=
  let lines := drop_last_empty (Split "010" data) in
  if forallb (λ l, len l <? MaxScanTokenSize) lines then Some (map dropCR lines) else None.

(** ** Hashes *)
Definition hex_char (c : ascii) : bool :=
  let r := byte_of c in
  ((48 <=? r) && (r <=? 57)) || ((97 <=? r) && (r <=? 102)) || ((65 <=? r) && (r <=? 70)).
(** A byte above 127 is part of a rune that is no digit, so bytes do. *)
Fixpoint isHex (s : string) : bool :=
  match s with
  | EmptyString => true
  | String c s => hex_char c && isHex s
  end.

Section blacklist.
Context `{Unicode} `{World}.

(** One iteration of [addHashTo]. *)
Definition addHash (dst : gset string) (hash : string) : gset string :=
  let hash := ToLower (TrimSpace hash) in
  if (len hash =? 64) && isHex hash then {[hash]} ∪ dst else dst.
Definition addHashTo (dst : gset string) (hashes : list string) : gset string :=
  foldl addHash dst hashes.

Definition matchHash (b : blacklist) (hash : string) : bool :=
  bool_decide (ToLower hash ∈ blacklist.hashes b).
Definition empty (b : blacklist) : bool := bool_decide (blacklist.hashes b = ∅).

(** The hash a line of a hash file lists, if any. *)
Definition addEntry (dst : gset string) (line : string) : gset string :=
  let entry := TrimSpace line in
  if bool_decide (entry = "") || HasPrefix entry "#" then dst
  else match Fields entry with
       | [] => dst
       | field :: _ => addHashTo dst [field]
       end.

(** The loop over the files; the set is local until it ends. *)
Fixpoint readHashFiles {S} (dst : gset string) (files : list string)
    : M S (BlacklistError + gset string) :=
  match files with
  | [] => mret (inr dst)
  | path :: files =>
      if bool_decide (path = "") then readHashFiles dst files
      else
        data ← ask (λ n, (os_ReadFile path n, not_exist path n));
        match data with
        | (None, true) => readHashFiles dst files
        | (None, false) => mret (inl (OpenHashFile path))
        | (Some data, _) =>
            match ScanLines data with
            | None => mret (inl (ReadHashFile path))
            | Some lines => readHashFiles (foldl addEntry dst lines) files
            end
        end
  end.

Definition reloadFiles : M blacklist (option BlacklistError) :=
  b ← getS;
  hashes ← readHashFiles (addHashTo ∅ (blacklist.baseHashes b)) (blacklist.files b);
  match hashes with
  | inl err => mret (Some err)
  | inr hashes => modS (λ b, b <| blacklist.hashes := hashes |>) ;; mret None
  end.

(** [newBlacklist]: nil when a hash file cannot be read. *)
Definition newBlacklist {S} (BlacklistHashes BlacklistHashFiles : list string)
    : M S (option blacklist) :=
  λ n s,
    let b := blacklist.mkBlacklist BlacklistHashes ∅ BlacklistHashFiles in
    match reloadFiles n b with
    | (None, n', b') => (Some b', n', s)
    | (Some _, n', _) => (None, n', s)
    end.

(** ** procfs *)
Definition proc_file (pid : Z) (name : string) : string :=
  "/proc/" +:+ pretty pid +:+ "/" +:+ name.

(** One line of /proc/<pid>/status. *)
Definition status_line (info : procInfo) (line : string) : procInfo :=
  match Fields line with
  | key :: value :: _ =>
      if bool_decide (key = "Tgid:") then
        match ParseUint value 32 with Some t => info <| procInfo.TGID := t |> | None => info end
      else if bool_decide (key = "Uid:") then
        match ParseUint value 32 with Some u => info <| procInfo.UID := u |> | None => info end
      else info
  | _ => info
  end.

Fixpoint cgroup_of_lines (lines : list string) : string :=
  match lines with
  | [] => ""
  | line :: lines =>
      if bool_decide (line = "") then cgroup_of_lines lines
      else match SplitN ":" 3 line with
           | [_; _; path] => TrimSpace path
           | _ => cgroup_of_lines lines
           end
  end.
Definition parseCgroupPath (data : string) : string := cgroup_of_lines (Split "010" data).

(** [readProc]: the error case still carries the information read. *)
Definition readProc {S} (pid : Z) : M S (procInfo + procInfo) :=
  let info := procInfo.mkProc pid pid 0 "" "" "" in
  comm ← ask (os_ReadFile (proc_file pid "comm"));
  let info := match comm with
              | Some comm => info <| procInfo.Comm := TrimSpace comm |> | None => info end in
  status ← ask (os_ReadFile (proc_file pid "status"));
  let info := match status with
              | Some status => foldl status_line info (Split "010" status) | None => info end in
  exe ← ask (os_Readlink (proc_file pid "exe"));
  let info := match exe with Some exe => info <| procInfo.Exe := exe |> | None => info end in
  cgroup ← ask (os_ReadFile (proc_file pid "cgroup"));
  let info := match cgroup with
              | Some cgroup => info <| procInfo.Cgroup := parseCgroupPath cgroup |>
              | None => info end in
  mret (if bool_decide (procInfo.Comm info = "") && bool_decide (procInfo.Exe info = "")
        then inl info else inr info).

Fixpoint readProcs {S} (entries : list (string * bool)) : M S (list procInfo) :=
  match entries with
  | [] => mret []
  | (name, is_dir) :: entries =>
      if negb is_dir then readProcs entries
      else match ParseUint name 32 with
           | None => readProcs entries
           | Some pid =>
               info ← readProc (uint32 pid);
               match info with
               | inl _ => readProcs entries
               | inr info => procs ← readProcs entries; mret (info :: procs)
               end
           end
  end.
Definition listProcs {S} : M S (option (list procInfo)) :=
  entries ← ask (os_ReadDir "/proc");
  match entries with
  | None => mret None
  | Some entries => procs ← readProcs entries; mret (Some procs)
  end.

(** ** Theorems *)

(** The oracle is asked forward. *)
Lemma reloadFiles_advances : advances reloadFiles.
Proof.
  assert (∀ S dst files, advances (S := S) (readHashFiles dst files)) as Hr.
  { intros S dst files. revert dst. induction files as [|path files IH]; intros dst; cbn [readHashFiles]; advances_auto. }
  unfold reloadFiles. advances_auto; apply Hr.
Qed.
Lemma listProcs_advances {S} : advances (listProcs (S := S)).
Proof.
  assert (∀ l, advances (S := S) (readProcs l)) as Hr.
  { induction l as [|[name d] l IH]; cbn [readProcs]; unfold readProc; advances_auto. }
  unfold listProcs. advances_auto; apply Hr.
Qed.

(** A normalised blacklist entry, and the one a raw text stands for. *)
Definition valid_hash (h : string) : bool := (len h =? 64) && isHex h.
Definition normal_hash (raw : string) : string := ToLower (TrimSpace raw).

Lemma addHashTo_elem dst l h :
  h ∈ addHashTo dst l ↔ h ∈ dst ∨ valid_hash h = true ∧ ∃ raw, raw ∈ l ∧ h = normal_hash raw.
Proof.
  unfold addHashTo. revert dst. induction l as [|raw l IH]; intros dst; cbn [foldl].
  { set_solver. }
  rewrite IH. unfold addHash. fold (normal_hash raw). fold (valid_hash (normal_hash raw)).
  setoid_rewrite elem_of_cons.
  destruct (valid_hash (normal_hash raw)) eqn:Hv; [rewrite elem_of_union, elem_of_singleton|];
    naive_solver congruence.
Qed.

(** The raw text of the hash on a line of a hash file. *)
Definition line_hash (line : string) : list string :=
  let entry := TrimSpace line in
  if bool_decide (entry = "") || HasPrefix entry "#" then [] else take 1 (Fields entry).
Lemma addEntry_addHashTo dst line : addEntry dst line = addHashTo dst (line_hash line).
Proof. unfold addEntry, line_hash. case_match; [done|]. by destruct (Fields _). Qed.
Lemma foldl_addEntry dst lines :
  foldl addEntry dst lines = addHashTo dst (flat_map line_hash lines).
Proof.
  revert dst. induction lines as [|l lines IH]; intros dst; cbn [foldl flat_map]; [done|].
  rewrite IH, addEntry_addHashTo. unfold addHashTo. by rewrite foldl_app.
Qed.

(** File [path] was read at query [k]: it does not exist, or it lists [raws]. *)
Definition read_at (path : string) (k : nat) (raws : list string) : Prop :=
  os_ReadFile path k = None ∧ not_exist path k = true ∧ raws = []
  ∨ ∃ data lines, os_ReadFile path k = Some data ∧ ScanLines data = Some lines
      ∧ raws = flat_map line_hash lines.

(** The files were read in order, one query each, between [n] and [n'];
    [raws] are the entries found. *)
Inductive files_read : nat → list string → nat → list string → Prop :=
  | files_nil n : files_read n [] n []
  | files_blank n files n' raws :
      files_read n files n' raws → files_read n ("" :: files) n' raws
  | files_cons n path files n' raws raws' :
      path ≠ "" → read_at path n raws → files_read (S n) files n' raws' →
      files_read n (path :: files) n' (raws ++ raws').

Lemma addHashTo_app dst l k : addHashTo dst (l ++ k) = addHashTo (addHashTo dst l) k.
Proof. apply foldl_app. Qed.

Lemma readHashFiles_spec {S} dst files n (s : S) :
  let '(r, n', s') := readHashFiles dst files n s in
  s' = s ∧ ∀ hs, r = inr hs → ∃ raws, files_read n files n' raws ∧ hs = addHashTo dst raws.
Proof.
  revert dst n. induction files as [|path files IH]; intros dst n; cbn [readHashFiles].
  { cbn. split; [done|]. intros hs [= <-]. exists []. by split; [constructor|]. }
  case_bool_decide as Hp.
  - specialize (IH dst n). destruct (readHashFiles dst files n s) as [[r n'] s'].
    destruct IH as (-> & IH). split; [done|]. intros hs Hr. subst path.
    destruct (IH hs Hr) as (raws & ? & ->). exists raws. by split; [constructor|].
  - unfold mbind, M_bind, ask. destruct (os_ReadFile path n) as [data|] eqn:Hd.
    + destruct (ScanLines data) as [lines|] eqn:Hl; [|done].
      specialize (IH (foldl addEntry dst lines) (Datatypes.S n)).
      destruct (readHashFiles _ files _ s) as [[r n'] s']. destruct IH as (-> & IH).
      split; [done|]. intros hs Hr. destruct (IH hs Hr) as (raws & ? & ->).
      exists (flat_map line_hash lines ++ raws). split.
      * constructor; [done| |done]. right. eauto.
      * by rewrite foldl_addEntry, addHashTo_app.
    + destruct (not_exist path n) eqn:Hn; [|done].
      specialize (IH dst (Datatypes.S n)).
      destruct (readHashFiles _ files _ s) as [[r n'] s']. destruct IH as (-> & IH).
      split; [done|]. intros hs Hr. destruct (IH hs Hr) as (raws & ? & ->).
      exists ([] ++ raws). split; [|done]. constructor; [done| |done]. by left.
Qed.

(** The text of a SHA-256 digest: 64 hexadecimal digits. *)
Definition hex_digits : list ascii := String.list_ascii_of_string "0123456789abcdefABCDEF".
Definition digest_text (h : string) : Prop :=
  String.length h = 64%nat ∧ Forall (.∈ hex_digits) (String.list_ascii_of_string h).
Lemma hex_char_spec c : hex_char c = true ↔ c ∈ hex_digits.
Proof.
  rewrite <- (bool_decide_eq_true (c ∈ hex_digits)). enough (hex_char c = bool_decide (c ∈ hex_digits)) as -> by done.
  destruct c as [[] [] [] [] [] [] [] []]; vm_compute; reflexivity.
Qed.
Lemma valid_hash_spec h : valid_hash h = true ↔ digest_text h.
Proof.
  unfold valid_hash, digest_text, len. rewrite andb_true_iff, Z.eqb_eq.
  assert (isHex h = true ↔ Forall (.∈ hex_digits) (String.list_ascii_of_string h)) as ->.
  { induction h as [|c h IH]; cbn [isHex String.list_ascii_of_string]; [by split|].
    by rewrite andb_true_iff, hex_char_spec, IH, Forall_cons. }
  split; intros [? ?]; (split; [lia|done]).
Qed.

(** What a blacklist made of the entries [raws] has: those that are a digest
    once blanks around them are removed and letters put in lower case. *)
Definition listed (raws : list string) (hashes : gset string) : Prop :=
  ∀ h, h ∈ hashes ↔ digest_text h ∧ ∃ raw, raw ∈ raws ∧ h = ToLower (TrimSpace raw).
Lemma addHashTo_listed raws : listed raws (addHashTo ∅ raws).
Proof. intros h. rewrite addHashTo_elem, valid_hash_spec. unfold normal_hash. set_solver. Qed.
Lemma reloadFiles_listed n b :
  let '(err, n', b') := reloadFiles n b in
  match err with
  | Some _ => b' = b
  | None => ∃ raws hashes, files_read n (blacklist.files b) n' raws
      ∧ b' = b <| blacklist.hashes := hashes |> ∧ listed (blacklist.baseHashes b ++ raws) hashes
  end.
Proof.
  unfold reloadFiles, mbind, M_bind, getS.
  pose proof (readHashFiles_spec (addHashTo ∅ (blacklist.baseHashes b)) (blacklist.files b) n b) as Hr.
  destruct (readHashFiles _ _ n b) as [[[err|hs] n'] b']; destruct Hr as [-> Hr]; [done|]. cbn.
  destruct (Hr hs eq_refl) as (raws & ? & ->). exists raws. eexists. split_and!; [done|done|].
  rewrite <- addHashTo_app. apply addHashTo_listed.
Qed.

(** C22: a reload that fails leaves the blacklist as it was; one that succeeds
    makes it exactly the entries of the policy and of the files read that are
    64 hexadecimal digits once trimmed and in lower case, each file read once
    and in order, a missing file counting as empty. *)
Theorem reloadFiles_spec n b :
  let '(err, n', b') := reloadFiles n b in
  match err with
  | Some _ => b' = b
  | None => ∃ raws hashes, files_read n (blacklist.files b) n' raws
      ∧ b' = b <| blacklist.hashes := hashes |>
      ∧ ∀ h, h ∈ hashes ↔ digest_text h ∧ ∃ raw, raw ∈ blacklist.baseHashes b ++ raws ∧ h = ToLower (TrimSpace raw)
  end.
Proof. apply reloadFiles_listed. Qed.

(** ** Matching *)
Definition digit_ok (d : Z) : bool :=
  (byte_of (hex_digit d) <? 128) && bool_decide (ascii_lower (hex_digit d) = hex_digit d)
  && hex_char (hex_digit d).
Lemma hex_digit_ok d : 0 ≤ d < 16 → digit_ok d = true.
Proof.
  intros Hd. assert (forallb digit_ok (map Z.of_nat (seq 0 16)) = true) as Hall by done.
  rewrite forallb_forall in Hall. apply Hall, in_map_iff. exists (Z.to_nat d).
  split; [lia|]. apply in_seq. lia.
Qed.

(** A digest is a normalised entry: lower-case hexadecimal, 64 digits. *)
Lemma EncodeToString_lower bs :
  Forall (λ b, 0 ≤ b < 256) bs →
  ToLower (EncodeToString bs) = EncodeToString bs ∧ isHex (EncodeToString bs) = true.
Proof.
  intros Hbs. enough (is_ascii (EncodeToString bs) = true
    ∧ map_str ascii_lower (EncodeToString bs) = EncodeToString bs
    ∧ isHex (EncodeToString bs) = true) as (Ha & Hm & ?) by (unfold ToLower; by rewrite Ha).
  induction Hbs as [|b bs Hb _ (IHa & IHm & IHh)]; [done|].
  assert (0 ≤ Z.shiftr b 4 < 16) as D1%hex_digit_ok.
  { rewrite Z.shiftr_div_pow2 by lia. split; [apply Z.div_pos|apply Z.div_lt_upper_bound]; lia. }
  assert (0 ≤ Z.land b 15 < 16) as D2%hex_digit_ok.
  { change 15 with (Z.ones 4). rewrite Z.land_ones by lia. apply Z.mod_pos_bound. lia. }
  unfold digit_ok in *. rewrite !andb_true_iff, !bool_decide_eq_true in *.
  destruct D1 as [[A1 L1] X1], D2 as [[A2 L2] X2].
  unfold EncodeToString in *. cbn [foldr is_ascii map_str isHex].
  by rewrite A1, A2, L1, L2, X1, X2, IHa, IHm, IHh.
Qed.
Lemma digest_valid data :
  let h := EncodeToString (sha256 data) in ToLower h = h ∧ valid_hash h = true.
Proof.
  destruct (sha256_shape data) as [Hl Hr]. destruct (EncodeToString_lower _ Hr) as [Ht Hx].
  cbn. split; [done|]. unfold valid_hash, len. by rewrite EncodeToString_length, Hl, Hx.
Qed.

(** C21: After a reload that succeeds, the content of a file is matched exactly
    when its SHA-256 digest appears among the entries of the policy and of the
    hash files read, in any letter case and with blanks around it. *)
Theorem reload_matches_digest n b :
  let '(err, n', b') := reloadFiles n b in
  err = None → ∃ raws, files_read n (blacklist.files b) n' raws ∧ ∀ data,
    matchHash b' (EncodeToString (sha256 data)) = true ↔
    ∃ raw, raw ∈ blacklist.baseHashes b ++ raws ∧ ToLower (TrimSpace raw) = EncodeToString (sha256 data).
Proof.
  pose proof (reloadFiles_listed n b) as Hr. destruct (reloadFiles n b) as [[[err|] n'] b']; [done|]. intros _.
  destruct Hr as (raws & hashes & Hf & -> & Hl). exists raws. split; [done|]. intros data.
  destruct (digest_valid data) as [Hlow Hv]. unfold matchHash. rewrite Hlow, bool_decide_eq_true. cbn.
  rewrite (Hl _), <- valid_hash_spec. naive_solver.
Qed.
End blacklist.
