(* ===== verification/Polling.v ===== *)
(** * Event readers: internal/sensor/sensor.go

    [mapPollingEventReader] reads events from an array map the kernel side
    writes per CPU: a cursor gives the last sequence number of a CPU, each slot
    carries the sequence number of its event.  The kernel writes while the
    reader reads, so every lookup is a query of its own; what it returns is
    the class [PollingMaps].  [perfEventReader] filters lost-sample records. *)
From S2P Require Import Prelude GoStrings GoTime World Event.

Definition ultraLegacyEventSlots : Z := 1024.
Definition ultraLegacyMaxCPUs : Z := 256.
Definition mapPollingBatchSize : nat := 128.

(** What a reader asks of a map before it reads it. *)
Record MapInfo := mkMapInfo { MaxEntries : Z; ValueSize : Z }.

(** [cursor.Lookup(cpu, &head)] and [events.Lookup(slot, raw)]; [None] is an
    error. *)
Class PollingMaps : Type := {
  cursor_Lookup : Z → nat → option Z;
  events_Lookup : Z → nat → option (list Z) }.

Inductive PollError :=
  | ErrMapsMissing | ErrSlotSize | ErrLayout | ErrUnguarded
  | ErrLookup | ErrRegressed (cpu head tail : Z) | ErrClosedPipe
  (** the bound on the iterations of the batch loop was too small *)
  | ErrFuel.

Module pollingShard.
Record pollingShard := mkShard { tail : Z; head : Z }.
#[export] Instance eta_pollingShard : Eta pollingShard := λ s, mkShard (tail s) (head s).
End pollingShard.
Export (hints) pollingShard.
Abbreviation pollingShard := pollingShard.pollingShard.
Abbreviation tail_ := pollingShard.tail (only parsing).
Abbreviation head_ := pollingShard.head (only parsing).

(** An [eventRecord] is its raw sample. *)
Abbreviation eventRecord := (list Z).

Module mapPollingEventReader.
Record mapPollingEventReader := mkReader {
  shards : list pollingShard; slotsPerCPU : Z; guarded : bool; nextCPU : Z;
  pending : list eventRecord; lost : Z; initErr : option PollError; closed : bool }.
#[export] Instance eta_reader : Eta mapPollingEventReader := λ r,
  mkReader (shards r) (slotsPerCPU r) (guarded r) (nextCPU r) (pending r) (lost r)
    (initErr r) (closed r).
End mapPollingEventReader.
Export (hints) mapPollingEventReader.
Abbreviation mapPollingEventReader := mapPollingEventReader.mapPollingEventReader.

(** ** Layout *)
Definition slotSizeV1 : Z := Z.of_nat (8 + eventSize).
Definition slotSizeV2 : Z := Z.of_nat (8 + eventV2Size).
Definition slotSizeGuarded : Z := Z.of_nat (16 + eventV2Size).
Definition validateUltraLegacySlotSize (size : Z) : bool :=
  (size =? slotSizeV1) || (size =? slotSizeV2) || (size =? slotSizeGuarded).

Import mapPollingEventReader.
Definition emptyReader : mapPollingEventReader := mkReader [] 0 false 0 [] 0 None false.

(** [None] is a nil map. *)
Definition newMapPollingEventReader (events cursor : option MapInfo) : mapPollingEventReader :=
  let r := emptyReader in
  match events, cursor with
  | Some events, Some cursor =>
      if negb (validateUltraLegacySlotSize (ValueSize events)) then r <| initErr := Some ErrSlotSize |>
      else
        let shards := MaxEntries cursor in
        if negb (ValueSize cursor =? 8) || (shards =? 0) || (ultraLegacyMaxCPUs <? shards)
           || (MaxEntries events =? 0) || negb (MaxEntries events mod shards =? 0)
        then r <| initErr := Some ErrLayout |>
        else
          let r := r <| guarded := ValueSize events =? slotSizeGuarded |> in
          if (1 <? shards) && negb (guarded r) then r <| initErr := Some ErrUnguarded |>
          else r <| mapPollingEventReader.shards := replicate (Z.to_nat shards) (pollingShard.mkShard 0 0) |>
                 <| slotsPerCPU := MaxEntries events / shards |>
  | _, _ => r <| initErr := Some ErrMapsMissing |>
  end.

(** One range of the list of possible CPUs: its last CPU. *)
Definition cpuSpanLast (span : string) : option (Z * Z) :=
  match Split "-" (TrimSpace span) with
  | [first] => first ← ParseUint first 32; Some (first, first)
  | [first; last] =>
      first ← ParseUint first 32;
      last ← ParseUint last 32;
      if last <? first then None else Some (first, last)
  | _ => None
  end.
(** [validateCPUShardCoverage] returns no error. *)
Definition validateCPUShardCoverage (possible : string) (shards : Z) : bool :=
  if bool_decide (TrimSpace possible = "") then false
  else forallb (λ span, match cpuSpanLast span with
                        | Some (_, last) => negb (shards <=? last)
                        | None => false
                        end) (Split "," (TrimSpace possible)).

(** ** Slots *)
Definition ultraLegacySlotEvent (rawSlot : list Z) : eventRecord :=
  if bool_decide (length rawSlot ≤ 8)%nat then []
  else
    let end_ := if bool_decide (length rawSlot = 16 + eventV2Size)%nat
                then (length rawSlot - 8)%nat else length rawSlot in
    take (end_ - 8) (drop 8 rawSlot).

Section reader.
Context `{PollingMaps} (native : ByteOrder).

(** [binary.NativeEndian.Uint64(raw[off:])]; the callers check the length. *)
Definition NativeUint64 (raw : list Z) (off : nat) : Z := default 0 (Uint64 native raw off).

Definition committedSlotSequence (raw : list Z) (guarded : bool) : Z :=
  if bool_decide (length raw < 8)%nat then 0
  else
    let seq := NativeUint64 raw 0 in
    if guarded && (bool_decide (length raw < 16)%nat
                   || negb (NativeUint64 raw (length raw - 8) =? seq))
    then 0 else seq.

Abbreviation MR := (M mapPollingEventReader).

Definition recordLoss (count : Z) : MR () :=
  if count =? 0 then mret () else modS (λ r, r <| lost ::= λ n, uint64 (n + count) |>).

(** [&r.shards[cpu]]; the index is always in range. *)
Definition shardOf (r : mapPollingEventReader) (cpu : Z) : pollingShard :=
  default (pollingShard.mkShard 0 0) (shards r !! Z.to_nat cpu).
Definition putShard (cpu : Z) (f : pollingShard → pollingShard) : MR () :=
  modS (λ r, r <| shards ::= alter f (Z.to_nat cpu) |>).

(** The slot of the next event of a CPU, in [uint32] arithmetic. *)
Definition slotIndex (r : mapPollingEventReader) (cpu : Z) : Z :=
  uint32 (cpu * slotsPerCPU r + pollingShard.tail (shardOf r cpu) mod slotsPerCPU r).

(** The first loop of [pollBatch] for one CPU: fetch its cursor, give up what
    the kernel has overwritten; whether the CPU has events. *)
Definition refreshShard (cpu : Z) : MR (PollError + bool) :=
  head ← ask (cursor_Lookup cpu);
  match head with
  | None => mret (inl ErrLookup)
  | Some head =>
      putShard cpu (λ s, s <| pollingShard.head := head |>) ;;
      r ← getS;
      let tail := pollingShard.tail (shardOf r cpu) in
      if head <? tail then mret (inl (ErrRegressed cpu head tail))
      else
        let unread := head - tail in
        when (slotsPerCPU r <? unread)
          (recordLoss (unread - slotsPerCPU r) ;;
           putShard cpu (λ s, s <| pollingShard.tail := head - slotsPerCPU r |>)) ;;
        r ← getS;
        mret (inr (pollingShard.tail (shardOf r cpu) <? head))
  end.
Fixpoint refreshAll (cpus : list Z) : MR (PollError + list Z) :=
  match cpus with
  | [] => mret (inr [])
  | cpu :: cpus =>
      active ← refreshShard cpu;
      match active with
      | inl err => mret (inl err)
      | inr active =>
          rest ← refreshAll cpus;
          mret (match rest with
                | inl err => inl err
                | inr rest => inr (if (active : bool) then cpu :: rest else rest)
                end)
      end
  end.
(** The CPUs in the order of the first loop. *)
Definition cpuOrder (r : mapPollingEventReader) : list Z :=
  let n := Z.of_nat (length (shards r)) in
  (λ offset, uint32 (nextCPU r + Z.of_nat offset) mod n) <$> seq 0 (length (shards r)).

(** The sequence number the slot is taken to have: with guards it is read
    again after the copy. *)
Definition confirmSequence (slot expected : Z) (rawSlot : list Z) : MR (option Z) :=
  r ← getS;
  let seq := committedSlotSequence rawSlot (guarded r) in
  if guarded r && (seq =? expected) then
    confirmed ← ask (events_Lookup slot);
    mret ((λ raw, committedSlotSequence raw true) <$> confirmed)
  else mret (Some seq).

(** One iteration of the second loop; whether the CPU is queued again. *)
Definition pollSlot (cpu : Z) : MR (PollError + bool) :=
  r ← getS;
  let shard := shardOf r cpu in
  let tail := pollingShard.tail shard in
  let head := pollingShard.head shard in
  let expected := uint64 (tail + 1) in
  let slot := slotIndex r cpu in
  rawSlot ← ask (events_Lookup slot);
  match rawSlot with
  | None => mret (inl ErrLookup)
  | Some rawSlot =>
      seq ← confirmSequence slot expected rawSlot;
      match seq with
      | None => mret (inl ErrLookup)
      | Some seq =>
          again ← (if seq =? expected then
                     putShard cpu (λ s, s <| pollingShard.tail := expected |>) ;;
                     modS (λ r, r <| pending ::= λ l, l ++ [ultraLegacySlotEvent rawSlot] |>) ;;
                     mret (expected <? head)
                   else if expected <? seq then
                     let lastLost := Z.min (seq - 1) head in
                     recordLoss (uint64 (lastLost - tail)) ;;
                     putShard cpu (λ s, s <| pollingShard.tail := lastLost |>) ;;
                     mret false
                   else mret false);
          modS (λ r, r <| nextCPU := uint32 (cpu + 1) mod Z.of_nat (length (shards r)) |>) ;;
          mret (inr again)
      end
  end.
(** [queue] is [active[next:]]. *)
Fixpoint drain (fuel : nat) (queue : list Z) : MR (option PollError) :=
  r ← getS;
  match queue with
  | [] => mret None
  | cpu :: queue =>
      if bool_decide (mapPollingBatchSize ≤ length (pending r))%nat then mret None
      else match fuel with
           | O => mret (Some ErrFuel)
           | S fuel =>
               again ← pollSlot cpu;
               match again with
               | inl err => mret (Some err)
               | inr again => drain fuel (if (again : bool) then queue ++ [cpu] else queue)
               end
           end
  end.

(** [sort.SliceStable] by the time stamp the record starts with. *)
Fixpoint insertRecord (x : eventRecord) (l : list eventRecord) : list eventRecord :=
  match l with
  | [] => [x]
  | y :: l => if NativeUint64 y 0 <? NativeUint64 x 0 then y :: insertRecord x l else x :: y :: l
  end.
Definition sortRecords (l : list eventRecord) : list eventRecord := foldr insertRecord [] l.

Definition pollBatch : MR (option PollError) :=
  r ← getS;
  active ← refreshAll (cpuOrder r);
  match active with
  | inl err => mret (Some err)
  | inr active =>
      err ← drain (length (shards r) + mapPollingBatchSize) active;
      match err with
      | Some err => mret (Some err)
      | None => modS (λ r, r <| pending ::= sortRecords |>) ;; mret None
      end
  end.

(** One iteration of the loop of [Read]: an error, a record, or nothing yet,
    in which case it waits for the ticker. *)
Definition readStep : MR (PollError + option eventRecord) :=
  r ← getS;
  if closed r then mret (inl ErrClosedPipe)
  else match initErr r with
       | Some err => mret (inl err)
       | None =>
           err ← (match pending r with [] => pollBatch | _ => mret None end);
           match err with
           | Some err => mret (inl err)
           | None =>
               r ← getS;
               match pending r with
               | record :: rest => modS (λ r, r <| pending := rest |>) ;; mret (inr (Some record))
               | [] => mret (inr None)
               end
           end
       end.
(** The records that [k] iterations deliver, up to the first error. *)
Fixpoint readMany (k : nat) : MR (list eventRecord) :=
  match k with
  | O => mret []
  | S k =>
      res ← readStep;
      match res with
      | inl _ => mret []
      | inr None => readMany k
      | inr (Some record) => rest ← readMany k; mret (record :: rest)
      end
  end.
Definition CloseReader : MR () := modS (λ r, r <| closed := true |>).

(** ** The perf reader *)

(** [perf.Record] *)
Record PerfRecord := mkPerf { RawSample : list Z; LostSamples : Z }.
(** [Read] with at most [fuel] records; [None] means all of them only
    reported lost samples.  [perf_Read] is the library's reader, the state
    the counter [lost]. *)
Fixpoint perfRead (perf_Read : nat → option PerfRecord) (fuel : nat) : M Z (option (option eventRecord)) :=
  match fuel with
  | O => mret None
  | S fuel =>
      record ← ask perf_Read;
      match record with
      | None => mret (Some None)
      | Some record =>
          if 0 <? LostSamples record
          then modS (λ n, uint64 (n + LostSamples record)) ;; perfRead perf_Read fuel
          else mret (Some (Some (RawSample record)))
      end
  end.
End reader.
