(* ===== verification/PollingTheory.v ===== *)
(** * Theorems about the event readers (Polling.v)

    The reader loses no event silently: whatever the kernel writes meanwhile,
    the sequence numbers it has moved past are the records it delivered plus
    the losses it counted.  A batch is bounded and its loop terminates. *)
From S2P Require Import Prelude GoStrings GoTime World Event Polling.

Import mapPollingEventReader.
Import pollingShard.

(** What the kernel guarantees: a cursor is a [u64], a slot holds bytes. *)
Class PollingLaws `{PollingMaps} : Prop := {
  cursor_range cpu n h : cursor_Lookup cpu n = Some h → is_uint64 h;
  slot_bytes slot n raw : events_Lookup slot n = Some raw → Forall (λ b, 0 ≤ b < 256) raw }.

(** ** Sequence numbers *)
Definition tails (l : list pollingShard) : Z := foldr (λ s n, tail s + n) 0 l.

Lemma tails_alter f i l s :
  l !! i = Some s → tails (alter f i l) = tails l + (tail (f s) - tail s).
Proof.
  revert i. induction l as [|x l IH]; intros [|i] Hi; simplify_eq/=; [lia|].
  rewrite (IH i Hi). lia.
Qed.

Lemma le_uint_range l : Forall (λ b, 0 ≤ b < 256) l → 0 ≤ le_uint l < 256 ^ Z.of_nat (length l).
Proof.
  induction 1 as [|b l Hb _ IH]; cbn [le_uint length]; [lia|].
  rewrite Nat2Z.inj_succ, Z.pow_succ_r by lia. nia.
Qed.
Lemma NativeUint64_range native raw off :
  Forall (λ b, 0 ≤ b < 256) raw → is_uint64 (NativeUint64 native raw off).
Proof.
  intros Hb. unfold NativeUint64, Uint64, slice. case_bool_decide; cbn; [|done].
  set (l := take _ _).
  assert (Forall (λ b, 0 ≤ b < 256) l ∧ (length l ≤ 8)%nat) as [Hl Hn].
  { split; [by apply Forall_take, Forall_drop|]. unfold l. rewrite length_take. lia. }
  assert (∀ k, Forall (λ b, 0 ≤ b < 256) k → length k = length l → is_uint64 (le_uint k)) as Hk.
  { intros k Hk Hlen. pose proof (le_uint_range k Hk). unfold is_uint64.
    assert (256 ^ Z.of_nat (length k) ≤ 256 ^ 8) by (apply Z.pow_le_mono_r; lia). lia. }
  destruct native; cbn; apply Hk; rewrite ?length_rev; auto using Forall_rev.
Qed.
Lemma committed_range native raw guarded :
  Forall (λ b, 0 ≤ b < 256) raw → is_uint64 (committedSlotSequence native raw guarded).
Proof.
  intros Hb. unfold committedSlotSequence. case_bool_decide; [done|]. cbv zeta.
  case_match; [done|by apply NativeUint64_range].
Qed.

(** ** Well-formed readers *)
Definition shard_wf (s : pollingShard) : Prop := is_uint64 (tail s) ∧ is_uint64 (head s).
Record reader_wf (r : mapPollingEventReader) : Prop := {
  rw_shards : Forall shard_wf (shards r);
  rw_count : (0 < length (shards r))%nat ∧ Z.of_nat (length (shards r)) ≤ ultraLegacyMaxCPUs;
  rw_slots : 0 < slotsPerCPU r ∧ Z.of_nat (length (shards r)) * slotsPerCPU r < 2 ^ 32;
  rw_next : 0 ≤ nextCPU r < Z.of_nat (length (shards r));
  rw_lost : is_uint64 (lost r) }.

Lemma shardOf_lookup r cpu :
  0 ≤ cpu < Z.of_nat (length (shards r)) → shards r !! Z.to_nat cpu = Some (shardOf r cpu).
Proof.
  intros Hc. unfold shardOf. destruct (lookup_lt_is_Some_2 (shards r) (Z.to_nat cpu)) as [s Hs]; [lia|].
  by rewrite Hs.
Qed.
Lemma shardOf_wf r cpu :
  reader_wf r → 0 ≤ cpu < Z.of_nat (length (shards r)) → shard_wf (shardOf r cpu).
Proof. intros Hw Hc. eapply Forall_lookup_1; [apply (rw_shards r Hw)|by apply shardOf_lookup]. Qed.

(** [r'] is reached from [r] by consuming: tails only grow, records are only
    appended, and the growth of the tails is the records plus the losses. *)
Record advances (r r' : mapPollingEventReader) : Prop := {
  adv_shape : length (shards r') = length (shards r) ∧ slotsPerCPU r' = slotsPerCPU r
              ∧ guarded r' = guarded r ∧ initErr r' = initErr r ∧ closed r' = closed r;
  adv_tails : Forall2 (λ s s', tail s ≤ tail s') (shards r) (shards r');
  adv_lost : is_uint64 (lost r) →
    ∃ new, pending r' = pending r ++ new
    ∧ lost r' = uint64 (lost r + (tails (shards r') - tails (shards r) - Z.of_nat (length new))) }.

#[export] Instance advances_preorder : PreOrder advances.
Proof.
  split.
  - intros r. split; [done|by apply Forall_Forall2_diag, Forall_true|]. intros Hl.
    exists []. rewrite app_nil_r. split; [done|]. cbn. rewrite wrap_u_small; unfold is_uint64 in Hl; lia.
  - intros r1 r2 r3 [(?&?&?&?&?) Ht1 Hl1] [(?&?&?&?&?) Ht2 Hl2]. split.
    + split_and!; congruence.
    + rewrite Forall2_same_length_lookup in *. destruct Ht1 as [? Ht1], Ht2 as [? Ht2].
      split; [congruence|]. intros i x z Hx Hz.
      destruct (lookup_lt_is_Some_2 (shards r2) i) as [y Hy]; [apply lookup_lt_Some in Hx; lia|].
      specialize (Ht1 i x y Hx Hy). specialize (Ht2 i y z Hy Hz). lia.
    + intros Hl. destruct (Hl1 Hl) as (n1 & Hp1 & Hlost1).
      destruct Hl2 as (n2 & Hp2 & Hlost2); [rewrite Hlost1; apply wrap_u_range; lia|].
      exists (n1 ++ n2). rewrite Hp2, Hp1, app_assoc. split; [done|].
      rewrite Hlost2, Hlost1, length_app. unfold wrap_u. rewrite Z.add_mod_idemp_l by lia.
      f_equal. lia.
Qed.

(** Moving one tail forward, with what it accounts for. *)
Lemma advances_tail r cpu f lost' new next :
  reader_wf r → 0 ≤ cpu < Z.of_nat (length (shards r)) → 0 ≤ next < Z.of_nat (length (shards r)) →
  let s := shardOf r cpu in
  tail s ≤ tail (f s) → shard_wf (f s) →
  lost' = uint64 (lost r + (tail (f s) - tail s - Z.of_nat (length new))) →
  let r' := mkReader (alter f (Z.to_nat cpu) (shards r)) (slotsPerCPU r) (guarded r) next
              (pending r ++ new) lost' (initErr r) (closed r) in
  advances r r' ∧ reader_wf r'.
Proof.
  intros Hw Hc Hn s Ht Hs Hlost r'. pose proof (shardOf_lookup r cpu Hc) as Hl. fold s in Hl.
  split; split; cbn.
  - by rewrite length_alter.
  - apply Forall2_same_length_lookup. split; [by rewrite length_alter|]. intros i x y Hx.
    destruct (decide (Z.to_nat cpu = i)) as [<-|Hne].
    + rewrite list_lookup_alter_eq, Hl. rewrite Hl in Hx. intros Hy. simplify_eq/=. done.
    + rewrite list_lookup_alter_ne by done. rewrite Hx. intros Hy. simplify_eq. lia.
  - intros _. exists new. split; [done|]. rewrite (tails_alter _ _ _ _ Hl), Hlost. f_equal. lia.
  - apply Forall_alter; [apply Hw|]. intros x Hx _. rewrite Hl in Hx. by simplify_eq.
  - rewrite length_alter. apply Hw.
  - rewrite length_alter. apply Hw.
  - by rewrite length_alter.
  - rewrite Hlost. apply wrap_u_range. lia.
Qed.

Section steps.
Context `{PollingLaws} (native : ByteOrder).

Lemma confirmSequence_spec slot expected raw n r :
  Forall (λ b, 0 ≤ b < 256) raw →
  let '(seq, _, r') := confirmSequence native slot expected raw n r in
  r' = r ∧ ∀ q, seq = Some q → is_uint64 q ∧
    (q = expected → committedSlotSequence native raw (guarded r) = expected).
Proof.
  intros Hraw. unfold confirmSequence, mbind, M_bind, getS.
  destruct (guarded r && _) eqn:E; cbn.
  - split; [done|]. intros q Hq. apply andb_true_iff in E as [_ E%Z.eqb_eq].
    destruct (events_Lookup slot n) as [raw'|] eqn:Hr; simplify_eq/=. split; [|done].
    eapply committed_range, slot_bytes, Hr.
  - split; [done|]. intros q [= <-]. split; [by apply committed_range|done].
Qed.

Definition nextOf (r : mapPollingEventReader) (cpu : Z) : Z :=
  uint32 (cpu + 1) mod Z.of_nat (length (shards r)).

(** The reader after CPU [cpu] moved its tail to [t]. *)
Definition movedTo (r : mapPollingEventReader) (cpu t : Z) (new : list eventRecord) (lost' : Z)
    : mapPollingEventReader :=
  mkReader (alter (λ s, s <| tail := t |>) (Z.to_nat cpu) (shards r)) (slotsPerCPU r) (guarded r)
    (nextOf r cpu) (pending r ++ new) lost' (initErr r) (closed r).

(** How one visit of a CPU with unread events may move its tail: by one, with
    a record, whose slot is committed with the next sequence number; further,
    but not past the cursor snapshot, counting a loss; or not at all.  Which of
    them, PollingRefine.v says. *)
Inductive moves (cpu : Z) (r : mapPollingEventReader) : mapPollingEventReader → bool → Prop :=
  | moves_deliver raw :
      committedSlotSequence native raw (guarded r) = tail (shardOf r cpu) + 1 →
      moves cpu r (movedTo r cpu (tail (shardOf r cpu) + 1) [ultraLegacySlotEvent raw] (lost r))
        (tail (shardOf r cpu) + 1 <? head (shardOf r cpu))
  | moves_skip upto :
      tail (shardOf r cpu) < upto ≤ head (shardOf r cpu) →
      moves cpu r (movedTo r cpu upto [] (uint64 (lost r + (upto - tail (shardOf r cpu))))) false
  | moves_retry : moves cpu r (r <| nextCPU := nextOf r cpu |>) false.

(** The CPU exists and has unread events. *)
Definition live (r : mapPollingEventReader) (cpu : Z) : Prop :=
  0 ≤ cpu < Z.of_nat (length (shards r)) ∧ tail (shardOf r cpu) < head (shardOf r cpu).

Lemma pollSlot_moves cpu n r :
  reader_wf r → live r cpu →
  let '(res, _, r') := pollSlot native cpu n r in
  match res with inl e => r' = r ∧ e ≠ ErrFuel | inr again => moves cpu r r' again end.
Proof.
  intros Hw [Hc Hlive]. pose proof (shardOf_wf r cpu Hw Hc) as [Ht Hh].
  unfold pollSlot, mbind, M_bind, getS, ask. cbv zeta beta.
  assert (uint64 (tail (shardOf r cpu) + 1) = tail (shardOf r cpu) + 1) as ->
    by (apply wrap_u_small; unfold is_uint64 in *; lia).
  set (t := tail (shardOf r cpu)) in *. set (h := head (shardOf r cpu)) in *.
  destruct (events_Lookup (slotIndex r cpu) n) as [raw|] eqn:Hr; [|done].
  pose proof (confirmSequence_spec (slotIndex r cpu) (t + 1) raw (S n) r (slot_bytes _ _ _ Hr)) as Hs.
  destruct (confirmSequence native (slotIndex r cpu) (t + 1) raw (S n) r) as [[[q|] n'] r'];
    destruct Hs as [-> Hs]; [|done].
  destruct (Hs q eq_refl) as [Hq Heq]. clear Hs.
  destruct (Z.eqb_spec q (t + 1)) as [->|Hne].
  - cbn. unfold t, h. rewrite length_alter. by apply (moves_deliver cpu r raw), Heq.
  - destruct (Z.ltb_spec (t + 1) q).
    + set (u := Z.min (q - 1) h). assert (t < u ≤ h) as Hu by (unfold u; lia).
      unfold recordLoss. assert (uint64 (u - t) = u - t) as ->
        by (apply wrap_u_small; unfold is_uint64 in *; lia).
      destruct (Z.eqb_spec (u - t) 0); [lia|]. cbn. rewrite length_alter.
      pose proof (moves_skip cpu r u Hu) as Hk. unfold movedTo in Hk. rewrite app_nil_r in Hk. exact Hk.
    + cbn. apply moves_retry.
Qed.

Lemma nextOf_range r cpu : reader_wf r → 0 ≤ nextOf r cpu < Z.of_nat (length (shards r)).
Proof. intros [_ [? _] _ _ _]. apply Z.mod_pos_bound. lia. Qed.

Lemma moves_advances cpu r r' again :
  reader_wf r → live r cpu → moves cpu r r' again → advances r r' ∧ reader_wf r'.
Proof.
  intros Hw [Hc Hlive] Hstep. pose proof (nextOf_range r cpu Hw) as Hn.
  pose proof (shardOf_wf r cpu Hw Hc) as [Ht Hh].
  destruct Hstep as [raw _|upto Hu|].
  - apply (advances_tail r cpu (λ s, s <| tail := tail (shardOf r cpu) + 1 |>)); cbn; try done.
    + lia.
    + split; cbn; unfold is_uint64 in *; lia.
    + destruct Hw as [_ _ _ _ Hl]. rewrite wrap_u_small; unfold is_uint64 in Hl; lia.
  - pose proof (advances_tail r cpu (λ s, s <| tail := upto |>)
      (uint64 (lost r + (upto - tail (shardOf r cpu)))) [] (nextOf r cpu)) as Ha.
    apply Ha; cbn; try done; [lia| |f_equal; lia].
    split; cbn; unfold is_uint64 in *; lia.
  - pose proof (advances_tail r cpu id (lost r) [] (nextOf r cpu) Hw Hc Hn) as Ha.
    cbn in Ha. rewrite app_nil_r in Ha.
    assert (alter id (Z.to_nat cpu) (shards r) = shards r) as Hid
      by (apply list_eq; intros i; destruct (decide (Z.to_nat cpu = i)) as [<-|];
          [rewrite list_lookup_alter_eq; apply option_fmap_id|by rewrite list_lookup_alter_ne]).
    rewrite Hid in Ha. apply Ha; [lia|by split|]. destruct Hw as [_ _ _ _ Hl].
    rewrite wrap_u_small; unfold is_uint64 in Hl; lia.
Qed.

(** ** The queue of the second loop *)
Definition queue_ok (q : list Z) (r : mapPollingEventReader) : Prop := NoDup q ∧ Forall (live r) q.

Lemma shardOf_alter r r' cpu c f :
  shards r' = alter f (Z.to_nat cpu) (shards r) →
  0 ≤ cpu < Z.of_nat (length (shards r)) → 0 ≤ c →
  shardOf r' c = if bool_decide (c = cpu) then f (shardOf r cpu) else shardOf r c.
Proof.
  intros Hs Hc Hpos. unfold shardOf. rewrite Hs. case_bool_decide; subst.
  - rewrite list_lookup_alter_eq. by rewrite (shardOf_lookup r cpu Hc).
  - by rewrite list_lookup_alter_ne by lia.
Qed.
Lemma live_other r r' cpu c f :
  shards r' = alter f (Z.to_nat cpu) (shards r) →
  0 ≤ cpu < Z.of_nat (length (shards r)) → c ≠ cpu → live r c → live r' c.
Proof.
  intros Hs Hc Hne [Hr Hl]. unfold live.
  rewrite (shardOf_alter r r' cpu c f Hs Hc) by lia. rewrite bool_decide_eq_false_2 by done.
  by rewrite Hs, length_alter.
Qed.

Lemma moves_queue cpu q r r' again :
  queue_ok (cpu :: q) r → moves cpu r r' again →
  queue_ok (if again then q ++ [cpu] else q) r'
  ∧ (again = true → length (pending r') = S (length (pending r)))
  ∧ (length (pending r) ≤ length (pending r') ≤ S (length (pending r)))%nat.
Proof.
  intros [[Hin Hnd]%NoDup_cons [[Hc Hl] Hq]%Forall_cons] Hstep.
  assert (∀ f, shards r' = alter f (Z.to_nat cpu) (shards r) → queue_ok q r') as Hrest.
  { intros f Hs. split; [done|]. eapply Forall_impl; [apply Forall_and; split; [exact Hq|]|].
    - apply Forall_forall. intros c Hcq. instantiate (1 := λ c, c ≠ cpu). by intros ->.
    - intros c [Hcl Hne]. by eapply live_other. }
  destruct Hstep as [raw _|upto Hu|].
  - cbn. rewrite length_app. cbn. split_and!; [|lia..].
    specialize (Hrest _ eq_refl).
    destruct (Z.ltb_spec (tail (shardOf r cpu) + 1) (head (shardOf r cpu))); [|done].
    destruct Hrest as [Hn Hf]. split.
    + apply NoDup_app. split_and!; [done|set_solver|apply NoDup_singleton].
    + apply Forall_app. split; [done|]. apply Forall_singleton. split; cbn.
      * by rewrite length_alter.
      * erewrite (shardOf_alter r) by (done || lia). by rewrite bool_decide_eq_true_2.
  - cbn. rewrite app_nil_r. split_and!; [by eapply Hrest|done|lia..].
  - cbn. split_and!; [|done|lia..]. split; [done|exact Hq].
Qed.

(** [r'] is a well-formed state reached from [r]. *)
Definition reaches (r r' : mapPollingEventReader) : Prop := advances r r' ∧ reader_wf r'.
Lemma reaches_refl r : reader_wf r → reaches r r.
Proof. by split. Qed.
Lemma reaches_trans r1 r2 r3 : reaches r1 r2 → reaches r2 r3 → reaches r1 r3.
Proof. intros [? ?] [? ?]. split; [by etrans|done]. Qed.

(** The iterations left: each takes a CPU off the queue for good or adds a
    record to the batch. *)
Definition measure (q : list Z) (r : mapPollingEventReader) : nat :=
  length q + (mapPollingBatchSize - length (pending r)).

Lemma drain_spec fuel q n r :
  reader_wf r → queue_ok q r → (measure q r ≤ fuel)%nat →
  (length (pending r) ≤ mapPollingBatchSize)%nat →
  let '(err, _, r') := drain native fuel q n r in
  reaches r r' ∧ err ≠ Some ErrFuel ∧ (length (pending r') ≤ mapPollingBatchSize)%nat.
Proof.
  unfold measure. revert q n r. induction fuel as [|fuel IH]; intros q n r Hw Hq Hm Hp;
    (destruct q as [|cpu q]; [by cbn; auto using reaches_refl|]);
    cbn [drain]; unfold mbind at 1, M_bind at 1, getS; (case_bool_decide as Hb;
      [by cbn; auto using reaches_refl|]); cbn [length] in Hm; [lia|].
  unfold mbind, M_bind.
  assert (live r cpu) as Hlive by (by destruct Hq as [_ [? _]%Forall_cons]).
  pose proof (pollSlot_moves cpu n r Hw Hlive) as Hs.
  destruct (pollSlot native cpu n r) as [[[e|again] n'] r'].
  { destruct Hs as [-> He]. split_and!; [by apply reaches_refl|congruence|done]. }
  destruct (moves_advances cpu r r' again Hw Hlive Hs) as [Ha Hw'].
  destruct (moves_queue cpu q r r' again Hq Hs) as (Hq' & Hag & Hlen).
  specialize (IH (if again then q ++ [cpu] else q) n' r' Hw' Hq').
  destruct (drain native fuel _ n' r') as [[err n''] r'']. destruct IH as (Hr & He & Hl).
  - destruct again; [rewrite length_app, Hag by done; cbn [length]|]; lia.
  - lia.
  - split_and!; [|done|done]. by eapply reaches_trans.
Qed.

(** ** The first loop *)
Lemma alter_twice {A} (f g : A → A) i (l : list A) : alter f i (alter g i l) = alter (λ x, f (g x)) i l.
Proof. revert i. induction l as [|x l IH]; intros [|i]; cbn; [done..|]. f_equal. apply IH. Qed.

Lemma refreshShard_spec cpu n r :
  reader_wf r → 0 ≤ cpu < Z.of_nat (length (shards r)) →
  let '(res, _, r') := refreshShard cpu n r in
  reaches r r' ∧ pending r' = pending r
  ∧ (∀ c, c ≠ cpu → live r c → live r' c)
  ∧ match res with inl e => e ≠ ErrFuel | inr b => b = true → live r' cpu end.
Proof.
  intros Hw Hc. pose proof (shardOf_wf r cpu Hw Hc) as [Ht Hh]. pose proof (rw_slots r Hw) as [Hsl _].
  pose proof (rw_lost r Hw) as Hlost.
  unfold refreshShard, mbind, M_bind, ask. destruct (cursor_Lookup cpu n) as [h|] eqn:Hlook.
  2:{ split_and!; auto using reaches_refl. }
  pose proof (cursor_range cpu n h Hlook) as Hh'. unfold getS, putShard, modS. cbv beta iota zeta.
  set (r1 := r <| shards ::= _ |>).
  assert (shards r1 = alter (λ s, s <| head := h |>) (Z.to_nat cpu) (shards r)) as Hs1 by done.
  assert (reaches r r1) as Hr1.
  { pose proof (advances_tail r cpu (λ s, s <| head := h |>) (lost r) [] (nextCPU r) Hw Hc (rw_next r Hw)) as Ha.
    cbn in Ha. rewrite app_nil_r in Ha. apply Ha; [lia|by split|].
    rewrite wrap_u_small; unfold is_uint64 in *; lia. }
  rewrite (shardOf_alter r r1 cpu cpu _ Hs1 Hc) by lia. rewrite bool_decide_eq_true_2 by done.
  cbn [tail set pollingShard.head]. set (t := tail (shardOf r cpu)) in *.
  destruct (Z.ltb_spec h t).
  { cbn. split_and!; [done|done| |done]. intros c Hne. by eapply live_other. }
  change (slotsPerCPU r1) with (slotsPerCPU r).
  unfold when. destruct (Z.ltb_spec (slotsPerCPU r) (h - t)) as [Hlt|Hge].
  - unfold recordLoss. destruct (Z.eqb_spec (h - t - slotsPerCPU r) 0); [lia|].
    cbn -[shardOf]. set (r2 := mkReader _ _ _ _ _ _ _ _).
    assert (shards r2 = alter (λ s, (s <| head := h |>) <| tail := h - slotsPerCPU r |>)
                          (Z.to_nat cpu) (shards r)) as Hs2 by (unfold r2; cbn; by rewrite alter_twice).
    rewrite (shardOf_alter r r2 cpu cpu _ Hs2 Hc) by lia. rewrite bool_decide_eq_true_2 by done.
    split_and!; [|done|intros c Hne; by eapply live_other|].
    + pose proof (advances_tail r cpu (λ s, (s <| head := h |>) <| tail := h - slotsPerCPU r |>)
        (lost r2) [] (nextCPU r) Hw Hc (rw_next r Hw)) as Ha.
      cbn in Ha. rewrite app_nil_r in Ha. unfold r2 at 1. rewrite alter_twice. apply Ha.
      * unfold t in Hlt. lia.
      * split; cbn; unfold is_uint64 in *; lia.
      * f_equal. unfold t. lia.
    + intros _. split; [rewrite Hs2, length_alter; lia|].
      rewrite (shardOf_alter r r2 cpu cpu _ Hs2 Hc) by lia. rewrite bool_decide_eq_true_2 by done.
      cbn. lia.
  - unfold mret, M_ret. cbv beta iota. rewrite (shardOf_alter r r1 cpu cpu _ Hs1 Hc) by lia.
    rewrite bool_decide_eq_true_2 by done. split_and!; [done|done|intros c Hne; by eapply live_other|].
    intros Hlt%Z.ltb_lt. split; [rewrite Hs1, length_alter; lia|].
    rewrite (shardOf_alter r r1 cpu cpu _ Hs1 Hc) by lia. rewrite bool_decide_eq_true_2 by done. done.
Qed.

Lemma refreshAll_spec cpus n r :
  reader_wf r → NoDup cpus → Forall (λ c, 0 ≤ c < Z.of_nat (length (shards r))) cpus →
  let '(res, _, r') := refreshAll cpus n r in
  reaches r r' ∧ pending r' = pending r
  ∧ (∀ c, c ∉ cpus → live r c → live r' c)
  ∧ match res with inl e => e ≠ ErrFuel | inr q => queue_ok q r' ∧ q `sublist_of` cpus end.
Proof.
  intros Hw Hnd Hc. revert n r Hw Hc. induction Hnd as [|cpu cpus Hin Hnd IH]; intros n r Hw Hc; cbn [refreshAll].
  { cbn. split_and!; auto using reaches_refl; repeat constructor. }
  inversion Hc as [|? ? Hcpu Hc']; subst. unfold mbind, M_bind.
  pose proof (refreshShard_spec cpu n r Hw Hcpu) as Hs.
  destruct (refreshShard cpu n r) as [[[e|b] n1] r1]; destruct Hs as (Hr & Hp & Ho & Hb).
  { split_and!; [done|done| |done]. intros c Hne. apply Ho. set_solver. }
  destruct Hr as [Ha Hw1]. pose proof (proj1 (adv_shape _ _ Ha)) as Hlen.
  specialize (IH n1 r1 Hw1). rewrite Hlen in IH. specialize (IH Hc').
  destruct (refreshAll cpus n1 r1) as [[res n2] r2]. destruct IH as (Hr2 & Hp2 & Ho2 & Hq).
  cbn. split_and!; [by eapply reaches_trans|congruence| |].
  { intros c Hne Hl. apply Ho2; [set_solver|]. apply Ho; [set_solver|done]. }
  destruct res as [e|q]; [done|]. destruct Hq as [[Hqn Hql] Hsub]. destruct b.
  - assert (cpu ∉ q) as Hcq by (intros Hx; by apply Hin, (sublist_subseteq _ _ Hsub)).
    split; [|by apply sublist_skip]. split; [by apply NoDup_cons|]. apply Forall_cons. split; [|done].
    apply Ho2; [done|]. by apply Hb.
  - split; [by split|by apply sublist_cons].
Qed.

Lemma mod_once a n : 0 ≤ a < 2 * n → a mod n = if a <? n then a else a - n.
Proof.
  intros Ha. destruct (Z.ltb_spec a n); [by apply Z.mod_small; lia|].
  rewrite <- (Z.mod_small (a - n) n) by lia. rewrite <- (Z_mod_plus_full (a - n) 1 n). f_equal. lia.
Qed.
Lemma cpuOrder_ok r :
  reader_wf r →
  NoDup (cpuOrder r) ∧ Forall (λ c, 0 ≤ c < Z.of_nat (length (shards r))) (cpuOrder r)
  ∧ length (cpuOrder r) = length (shards r).
Proof.
  intros [_ [Hpos Hmax] _ Hnext _]. unfold cpuOrder, ultraLegacyMaxCPUs in *.
  set (k := length (shards r)) in *.
  assert (∀ i, (i < k)%nat → uint32 (nextCPU r + Z.of_nat i) mod Z.of_nat k =
    if nextCPU r + Z.of_nat i <? Z.of_nat k then nextCPU r + Z.of_nat i
    else nextCPU r + Z.of_nat i - Z.of_nat k) as Hi.
  { intros i Hi. rewrite wrap_u_small by lia. apply mod_once. lia. }
  split_and!; [| |by rewrite length_fmap, length_seq].
  - apply NoDup_fmap_2_strong; [|apply NoDup_seq]. intros i j Hx%elem_of_seq Hy%elem_of_seq.
    rewrite !Hi by lia. repeat case_match; lia.
  - apply Forall_fmap, Forall_forall. intros i Hx%elem_of_seq. cbn. rewrite Hi by lia.
    case_match; lia.
Qed.

Lemma insertRecord_Permutation x l : insertRecord native x l ≡ₚ x :: l.
Proof.
  induction l as [|y l IH]; cbn; [done|]. case_match; [|done]. rewrite IH. apply Permutation_swap.
Qed.
Lemma sortRecords_Permutation l : sortRecords native l ≡ₚ l.
Proof. induction l as [|x l IH]; cbn; [done|]. by rewrite insertRecord_Permutation, IH. Qed.

(** What is known of the state after a batch. *)
Definition batch_ok (r r' : mapPollingEventReader) : Prop :=
  Forall2 (λ s s', tail s ≤ tail s') (shards r) (shards r')
  ∧ ∃ new, pending r' ≡ₚ pending r ++ new
    ∧ lost r' = uint64 (lost r + (tails (shards r') - tails (shards r) - Z.of_nat (length new))).
Lemma reaches_batch r r' : reader_wf r → reaches r r' → batch_ok r r'.
Proof.
  intros Hw [[_ Ht Hl] _]. destruct (Hl (rw_lost r Hw)) as (new & Hp & Hlost).
  split; [done|]. exists new. by rewrite Hp.
Qed.

Lemma pollBatch_spec n r :
  reader_wf r → (length (pending r) ≤ mapPollingBatchSize)%nat →
  let '(err, _, r') := pollBatch native n r in
  err ≠ Some ErrFuel ∧ reader_wf r' ∧ (length (pending r') ≤ mapPollingBatchSize)%nat ∧ batch_ok r r'.
Proof.
  intros Hw Hp. destruct (cpuOrder_ok r Hw) as (Hnd & Hc & Hlen).
  unfold pollBatch, mbind, M_bind, getS. pose proof (refreshAll_spec _ n r Hw Hnd Hc) as Hr.
  destruct (refreshAll (cpuOrder r) n r) as [[[e|q] n1] r1]; destruct Hr as (Hr1 & Hp1 & _ & Hq).
  { split_and!; [congruence|apply Hr1|by rewrite Hp1|by apply reaches_batch]. }
  destruct Hq as [Hq Hsub]. apply sublist_length in Hsub.
  pose proof (drain_spec (length (shards r) + mapPollingBatchSize) q n1 r1 (proj2 Hr1) Hq) as Hd.
  unfold measure in Hd. rewrite Hp1 in Hd.
  destruct (drain native _ q n1 r1) as [[err n2] r2]. destruct Hd as (Hr2 & He & Hl); [lia|done|].
  pose proof (reaches_trans _ _ _ Hr1 Hr2) as Hr. destruct err as [e|]; cbn -[mapPollingBatchSize].
  { split_and!; [done|apply Hr|done|by apply reaches_batch]. }
  split_and!; [done| | |].
  - by destruct Hr as [_ []].
  - by rewrite sortRecords_Permutation.
  - destruct (reaches_batch r r2 Hw Hr) as [Ht (new & Hnew & Hlost)]. split; [done|].
    exists new. cbn. by rewrite sortRecords_Permutation.
Qed.

(** ** Reading *)

(** With [d] records delivered so far, every sequence number passed is a
    record delivered, a record pending or a counted loss. *)
Record read_inv (d : nat) (r : mapPollingEventReader) : Prop := {
  ri_wf : reader_wf r;
  ri_pending : (length (pending r) ≤ mapPollingBatchSize)%nat;
  ri_lost : lost r = uint64 (tails (shards r) - Z.of_nat (length (pending r)) - Z.of_nat d) }.

Lemma batch_read_inv d r r' :
  read_inv d r → reader_wf r' → (length (pending r') ≤ mapPollingBatchSize)%nat → batch_ok r r' →
  read_inv d r'.
Proof.
  intros [_ _ Hl] Hw' Hp' [_ (new & Hnew & Hlost)]. split; [done|done|].
  apply Permutation_length in Hnew. rewrite length_app in Hnew.
  rewrite Hlost, Hl, Hnew. unfold wrap_u. rewrite Z.add_mod_idemp_l by lia. f_equal. lia.
Qed.

Lemma readStep_inv d n r :
  read_inv d r →
  let '(res, _, r') := readStep native n r in
  match res with
  | inl e => read_inv d r' ∧ (e = ErrFuel → initErr r = Some ErrFuel)
  | inr None => read_inv d r'
  | inr (Some _) => read_inv (S d) r'
  end.
Proof.
  intros Hi. unfold readStep, mbind, M_bind, getS. destruct (closed r); [done|].
  destruct (initErr r) as [e|]; [by split; [|intros ->]|].
  set (poll := match pending r with [] => pollBatch native | _ => mret None end).
  assert (let '(err, _, r') := poll n r in read_inv d r' ∧ err ≠ Some ErrFuel) as Hb.
  { unfold poll. clear poll. destruct (pending r) as [|x l] eqn:Hp; [|by split].
    pose proof (pollBatch_spec n r (ri_wf d r Hi) (ri_pending d r Hi)) as Hb.
    destruct (pollBatch native n r) as [[err n1] r1]. destruct Hb as (He & Hw & Hl & Hb).
    split; [by eapply batch_read_inv|done]. }
  destruct (poll n r) as [[[e|] n1] r1];
    destruct Hb as [Hi1 He]; cbn.
  - split; [done|congruence].
  - destruct (pending r1) as [|x l] eqn:Hp; cbn; [done|]. destruct Hi1 as [[] Hl Hlost].
    rewrite Hp in Hl, Hlost. cbn [length] in *. split; [by split|cbn; lia|].
    cbn -[Z.of_nat wrap_u tails]. rewrite Hlost. f_equal. lia.
Qed.

Lemma readMany_inv k d n r :
  read_inv d r →
  let '(out, _, r') := readMany native k n r in read_inv (d + length out) r'.
Proof.
  revert d n r. induction k as [|k IH]; intros d n r Hi; cbn [readMany]; [by cbn; rewrite Nat.add_0_r|].
  unfold mbind, M_bind. pose proof (readStep_inv d n r Hi) as Hs.
  destruct (readStep native n r) as [[[e|[x|]] n1] r1]; cbn -[readMany].
  - rewrite Nat.add_0_r. apply Hs.
  - specialize (IH (S d) n1 r1 Hs). destruct (readMany native k n1 r1) as [[out n2] r2]. cbn.
    by rewrite Nat.add_succ_r.
  - apply IH, Hs.
Qed.

Lemma tails_fresh k : tails (replicate k (pollingShard.mkShard 0 0)) = 0.
Proof. induction k as [|k IH]; [done|]. cbn [replicate]. unfold tails in *. cbn [foldr]. by rewrite IH. Qed.

(** A map has at most 2^32-1 entries. *)
Definition info_ok (i : MapInfo) : Prop := is_uint32 (MaxEntries i) ∧ is_uint32 (ValueSize i).

Lemma newReader_inv events cursor :
  info_ok events → info_ok cursor →
  let r := newMapPollingEventReader (Some events) (Some cursor) in
  initErr r = None → read_inv 0 r ∧ ((1 < length (shards r))%nat → guarded r = true)
    ∧ Z.of_nat (length (shards r)) = MaxEntries cursor
    ∧ slotsPerCPU r * MaxEntries cursor = MaxEntries events.
Proof.
  intros [Hem _] [Hcm _]. cbv zeta. unfold newMapPollingEventReader. cbv zeta.
  destruct (negb (validateUltraLegacySlotSize _)); [done|].
  destruct (negb _ || _ || _ || _ || _) eqn:El; [done|].
  apply orb_false_iff in El as [[[[_ E1%Z.eqb_neq]%orb_false_iff E2%Z.ltb_ge]%orb_false_iff
    E3%Z.eqb_neq]%orb_false_iff E4%negb_false_iff%Z.eqb_eq].
  set (g := ValueSize events =? slotSizeGuarded).
  destruct (_ && _) eqn:Eg; [done|]. intros _.
  unfold is_uint32 in *. set (ne := MaxEntries events) in *. set (nc := MaxEntries cursor) in *.
  assert (ne = nc * (ne / nc)) as Hdiv by (apply Z.div_exact; lia).
  assert (0 < ne / nc) as Hpos by (apply Z.div_str_pos; split; [lia|]; apply Z.divide_pos_le; [lia|];
    apply Z.mod_divide; lia).
  cbn. rewrite length_replicate. split_and!.
  - split; cbn; [|lia|by rewrite tails_fresh]. split; cbn.
    + apply Forall_replicate. split; done.
    + rewrite length_replicate. lia.
    + rewrite length_replicate. lia.
    + rewrite length_replicate. lia.
    + done.
  - intros Hs. apply andb_false_iff in Eg as [Eg%Z.ltb_ge|Eg%negb_false_iff]; [lia|done].
  - lia.
  - lia.
Qed.

(** C8: However the kernel writes meanwhile and however often [Read] polls, from a
    reader that was set up the sequence numbers it has moved past on all CPUs
    are exactly the records it delivered, the records it holds and the losses
    it counted (modulo 2^64): no event disappears silently or is counted
    twice. *)
Theorem polling_accounts_every_event events cursor k n :
  info_ok events → info_ok cursor →
  let r := newMapPollingEventReader (Some events) (Some cursor) in
  initErr r = None →
  let '(out, _, r') := readMany native k n r in
  lost r' = uint64 (tails (shards r') - Z.of_nat (length (pending r')) - Z.of_nat (length out)).
Proof.
  intros He Hc r Hi. destruct (newReader_inv events cursor He Hc Hi) as [Hr _].
  pose proof (readMany_inv k 0 n r Hr) as Hm. fold r in Hr.
  destruct (readMany native k n r) as [[out n'] r']. apply Hm.
Qed.

(** C26: A batch terminates within one visit per CPU plus one per record of a full
    batch, whatever the kernel does meanwhile; it leaves at most
    [mapPollingBatchSize] records and never moves a tail back. *)
Theorem pollBatch_terminates n r :
  reader_wf r → (length (pending r) ≤ mapPollingBatchSize)%nat →
  let '(err, _, r') := pollBatch native n r in
  err ≠ Some ErrFuel ∧ (length (pending r') ≤ mapPollingBatchSize)%nat
  ∧ Forall2 (λ s s', tail s ≤ tail s') (shards r) (shards r').
Proof.
  intros Hw Hp. pose proof (pollBatch_spec n r Hw Hp) as Hb.
  destruct (pollBatch native n r) as [[err n'] r']. destruct Hb as (? & _ & ? & [? _]). done.
Qed.

(** C35: The slots a CPU reads from are its own part of the events map: the index
    is below the number of entries and no 32-bit wrap-around can mix CPUs. *)
Theorem slotIndex_in_shard r cpu :
  reader_wf r → 0 ≤ cpu < Z.of_nat (length (shards r)) →
  cpu * slotsPerCPU r ≤ slotIndex r cpu < (cpu + 1) * slotsPerCPU r
  ∧ slotIndex r cpu < Z.of_nat (length (shards r)) * slotsPerCPU r.
Proof.
  intros Hw Hc. destruct (rw_slots r Hw) as [Hs Hm]. unfold slotIndex.
  pose proof (Z.mod_pos_bound (tail (shardOf r cpu)) (slotsPerCPU r) Hs) as Hmod.
  assert ((cpu + 1) * slotsPerCPU r ≤ Z.of_nat (length (shards r)) * slotsPerCPU r)
    by (apply Z.mul_le_mono_nonneg_r; lia).
  rewrite wrap_u_small by nia. nia.
Qed.

Lemma insertRecord_filter key x l :
  List.filter (λ y, NativeUint64 native y 0 =? key) (insertRecord native x l)
  = List.filter (λ y, NativeUint64 native y 0 =? key) (x :: l).
Proof.
  induction l as [|y l IH]; [done|]. cbn [insertRecord]. destruct (Z.ltb_spec (NativeUint64 native y 0) (NativeUint64 native x 0)).
  - cbn [List.filter] in *. rewrite IH. destruct (Z.eqb_spec (NativeUint64 native x 0) key),
      (Z.eqb_spec (NativeUint64 native y 0) key); try done. lia.
  - done.
Qed.
Lemma insertRecord_sorted x l :
  Sorted (λ a b, NativeUint64 native a 0 ≤ NativeUint64 native b 0) l →
  Sorted (λ a b, NativeUint64 native a 0 ≤ NativeUint64 native b 0) (insertRecord native x l).
Proof.
  induction 1 as [|y l Hs IH Hh]; [by repeat constructor|]. cbn [insertRecord].
  destruct (Z.ltb_spec (NativeUint64 native y 0) (NativeUint64 native x 0)).
  - constructor; [done|]. destruct l as [|z l]; cbn; [constructor; lia|].
    inversion Hh; subst. case_match; constructor; lia.
  - constructor; [by constructor|]. constructor. lia.
Qed.

(** A batch is handed out sorted by time stamp, and records with the same time
    stamp keep the order in which they were collected, so the order of each
    CPU is preserved. *)
Theorem sortRecords_stable l :
  Sorted (λ a b, NativeUint64 native a 0 ≤ NativeUint64 native b 0) (sortRecords native l)
  ∧ sortRecords native l ≡ₚ l
  ∧ ∀ key, List.filter (λ y, NativeUint64 native y 0 =? key) (sortRecords native l)
           = List.filter (λ y, NativeUint64 native y 0 =? key) l.
Proof.
  split_and!; [|apply sortRecords_Permutation|].
  - induction l as [|x l IH]; cbn; [constructor|]. by apply insertRecord_sorted.
  - intros key. induction l as [|x l IH]; [done|]. cbn [sortRecords foldr].
    rewrite insertRecord_filter. cbn [List.filter]. unfold sortRecords in IH. by rewrite IH.
Qed.

(** What [newEventReader] relies on: a reader without error reads a layout that
    divides the events map evenly among at most 256 CPUs, and uses commit
    guards whenever there is more than one. *)
Theorem newMapPollingEventReader_layout events cursor :
  info_ok events → info_ok cursor →
  let r := newMapPollingEventReader (Some events) (Some cursor) in
  initErr r = None →
  reader_wf r ∧ ((1 < length (shards r))%nat → guarded r = true)
  ∧ Z.of_nat (length (shards r)) * slotsPerCPU r = MaxEntries events.
Proof.
  intros He Hc r Hi. destruct (newReader_inv events cursor He Hc Hi) as (Hr & Hg & Hn & Hm).
  fold r in Hr, Hg, Hn, Hm. split_and!; [apply Hr|exact Hg|]. rewrite Hn. lia.
Qed.
End steps.

(** ** Coverage of the CPUs *)
Definition listed (possible : string) (cpu : Z) : Prop :=
  ∃ span first last, span ∈ Split "," (TrimSpace possible)
    ∧ cpuSpanLast span = Some (first, last) ∧ first ≤ cpu ≤ last.
(** Collection is refused unless every possible CPU has a shard. *)
Theorem validateCPUShardCoverage_covers possible shards cpu :
  validateCPUShardCoverage possible shards = true → listed possible cpu → cpu < shards.
Proof.
  unfold validateCPUShardCoverage. case_bool_decide; [done|].
  rewrite forallb_forall. intros Hall (span & first & last & Hin & Hs & Hc).
  specialize (Hall span). rewrite Hs in Hall. apply list_elem_of_In in Hin.
  specialize (Hall Hin). apply negb_true_iff, Z.leb_gt in Hall. lia.
Qed.

(** ** The perf reader *)

(** [perfRead] returns the first record, or error, that is not a report of lost
    samples, and adds the losses reported before it to the counter. *)
Theorem perfRead_spec (perf_Read : nat → option PerfRecord) fuel n lost :
  is_uint64 lost →
  let '(res, n', lost') := perfRead perf_Read fuel n lost in
  ∃ skipped : list PerfRecord,
    (∀ i rec, skipped !! i = Some rec → perf_Read (n + i)%nat = Some rec ∧ 0 < LostSamples rec)
    ∧ lost' = uint64 (lost + foldr (λ rec s, LostSamples rec + s) 0 skipped)
    ∧ match res with
      | None => length skipped = fuel
      | Some None => perf_Read (n + length skipped)%nat = None
      | Some (Some raw) => ∃ rec, perf_Read (n + length skipped)%nat = Some rec
                           ∧ LostSamples rec ≤ 0 ∧ raw = RawSample rec
      end.
Proof.
  revert n lost. induction fuel as [|fuel IH]; intros n lost Hl; cbn [perfRead].
  { exists []. cbn. rewrite Z.add_0_r, wrap_u_small by (unfold is_uint64 in *; lia). done. }
  unfold mbind, M_bind, ask. destruct (perf_Read n) as [rec|] eqn:Hr.
  2:{ exists []. cbn. rewrite Z.add_0_r, wrap_u_small, Nat.add_0_r by (unfold is_uint64 in *; lia). done. }
  destruct (Z.ltb_spec 0 (LostSamples rec)) as [Hpos|Hneg].
  2:{ exists []. cbn. rewrite Z.add_0_r, wrap_u_small, Nat.add_0_r by (unfold is_uint64 in *; lia).
      split_and!; [done|done|eauto]. }
  cbn [modS]. specialize (IH (S n) (uint64 (lost + LostSamples rec))).
  unfold modS. destruct (perfRead perf_Read fuel (S n) _) as [[res n'] lost'].
  destruct IH as (sk & Hsk & -> & Hres); [apply wrap_u_range; lia|].
  exists (rec :: sk). cbn [foldr length]. split_and!.
  - intros [|i] rec' Hi; cbn in Hi; [simplify_eq; by rewrite Nat.add_0_r|].
    rewrite Nat.add_succ_r. by apply (Hsk i).
  - unfold wrap_u. rewrite Z.add_mod_idemp_l by lia. f_equal. lia.
  - rewrite Nat.add_succ_r. destruct res as [[raw|]|]; [exact Hres|exact Hres|lia].
Qed.
