(* ===== verification/PollingRefine.v ===== *)
(** * A visit of the polling reader, exactly

    [pollBatch] of internal/sensor/sensor.go visits the CPUs that have unread
    events one at a time ([pollSlot] of Polling.v).  Here the outcome of a
    visit is specified from what the two lookups of the slot show, and the
    code is shown to implement that. *)
From S2P Require Import Prelude GoStrings GoTime World Event Polling PollingTheory.

Import mapPollingEventReader.
Import pollingShard.

Section refine.
Context `{PollingLaws} (native : ByteOrder).

(** ** What a slot shows

    The kernel writes a slot as the sequence number, the record and, in the
    guarded layout, the sequence number again. *)
Definition published (guarded : bool) (raw : list Z) (seq : Z) (record : eventRecord) : Prop :=
  is_uint64 seq ∧ raw = put_uint native 8 seq ++ record ++ (if guarded then put_uint native 8 seq else []).
(** The sequence number a copy of a slot shows: 0 when it is torn. *)
Definition shows (guarded : bool) (raw : list Z) (seq : Z) : Prop :=
  (∃ record, published guarded raw seq record) ∨ seq = 0 ∧ ¬ ∃ q record, published guarded raw q record.

Lemma le_bytes_le_uint l : Forall (λ b, 0 ≤ b < 256) l → le_bytes (length l) (le_uint l) = l.
Proof.
  induction 1 as [|b l Hb _ IH]; [done|]. cbn [length le_bytes le_uint].
  assert ((b + 256 * le_uint l) mod 256 = b ∧ (b + 256 * le_uint l) / 256 = le_uint l) as [-> ->]; [|by rewrite IH].
  rewrite (Z.mul_comm 256). rewrite Z_mod_plus_full, Z.div_add by lia. rewrite Z.mod_small, Z.div_small by lia. lia.
Qed.
Lemma length_word seq : length (put_uint native 8 seq) = 8%nat.
Proof. apply length_put_uint. Qed.
(** A word of eight bytes is the number read from it. *)
Lemma word_uint l : Forall (λ b, 0 ≤ b < 256) l → length l = 8%nat → put_uint native 8 (uint_of native l) = l.
Proof.
  intros Hb Hl. destruct native; cbn [put_uint uint_of].
  - rewrite <- Hl. by apply le_bytes_le_uint.
  - rewrite <- Hl, <- length_rev. rewrite le_bytes_le_uint by by apply Forall_rev. apply List.rev_involutive.
Qed.
Lemma NativeUint64_at raw l k r :
  raw = l ++ k ++ r → length k = 8%nat → NativeUint64 native raw (length l) = uint_of native k.
Proof.
  intros -> Hk. unfold NativeUint64, Uint64, slice. rewrite bool_decide_eq_true_2 by (rewrite !length_app; lia).
  cbn. rewrite drop_app_length. replace (length l + 8 - length l)%nat with (length k) by lia. by rewrite take_app_length.
Qed.
Lemma uint_of_word seq : is_uint64 seq → uint_of native (put_uint native 8 seq) = seq.
Proof. intros Hs. rewrite uint_of_put_uint. unfold is_uint64 in Hs. apply Z.mod_small. cbn. lia. Qed.

(** The first and the last word of a slot. *)
Lemma published_words g raw seq record :
  published g raw seq record →
  (8 ≤ length raw)%nat ∧ NativeUint64 native raw 0 = seq
  ∧ (g = true → (16 ≤ length raw)%nat ∧ NativeUint64 native raw (length raw - 8) = seq).
Proof.
  intros [Hs ->]. rewrite !length_app, length_word. split_and!; [lia| |].
  - rewrite (NativeUint64_at _ [] (put_uint native 8 seq) (record ++ _)) by (done || apply length_word).
    by apply uint_of_word.
  - intros ->. rewrite length_word. split; [lia|].
    replace (8 + (length record + 8) - 8)%nat with (length (put_uint native 8 seq ++ record))
      by (rewrite length_app, length_word; lia).
    rewrite (NativeUint64_at _ _ (put_uint native 8 seq) []) by (rewrite ?app_nil_r, <- ?app_assoc; done || apply length_word).
    by apply uint_of_word.
Qed.
Lemma committed_shows g raw :
  Forall (λ b, 0 ≤ b < 256) raw → shows g raw (committedSlotSequence native raw g).
Proof.
  intros Hb. unfold committedSlotSequence. case_bool_decide as Hl.
  { right. split; [done|]. intros (q & record & (? & _)%published_words). lia. }
  cbv zeta. destruct (g && _) eqn:Hg.
  { right. split; [done|]. intros (q & record & (_ & H1 & H2)%published_words).
    apply andb_true_iff in Hg as [-> Hg]. destruct (H2 eq_refl) as [? H3].
    apply orb_true_iff in Hg as [?%bool_decide_eq_true|Hg%negb_true_iff%Z.eqb_neq]; [lia|congruence]. }
  left. pose proof (NativeUint64_range native raw 0 Hb) as Hr.
  assert (raw = take 8 raw ++ drop 8 raw) as Hsplit by by rewrite take_drop.
  assert (put_uint native 8 (NativeUint64 native raw 0) = take 8 raw) as Hfirst.
  { pose proof (NativeUint64_at raw [] (take 8 raw) (drop 8 raw) Hsplit) as Hn. cbn [length] in Hn.
    rewrite Hn by (rewrite length_take; lia).
    apply word_uint; [by apply Forall_take|rewrite length_take; lia]. }
  destruct g; cbn [andb] in Hg.
  - apply orb_false_iff in Hg as [Hlen%bool_decide_eq_false Heq%negb_false_iff%Z.eqb_eq].
    exists (take (length raw - 16) (drop 8 raw)). split; [done|].
    assert (put_uint native 8 (NativeUint64 native raw 0) = drop (length raw - 8) raw) as Hlast.
    { rewrite <- Heq. rewrite <- (length_take_le raw (length raw - 8)) at 1 by lia.
      rewrite (NativeUint64_at raw _ (drop (length raw - 8) raw) [])
        by (rewrite ?app_nil_r, ?take_drop, ?length_drop; (done || lia)).
      apply word_uint; [by apply Forall_drop|rewrite length_drop; lia]. }
    rewrite Hlast at 2. rewrite Hfirst. rewrite Hsplit at 1. f_equal.
    replace (drop (length raw - 8) raw) with (drop (length raw - 16) (drop 8 raw))
      by (rewrite drop_drop; f_equal; lia). by rewrite take_drop.
  - exists (drop 8 raw). split; [done|]. by rewrite Hfirst, app_nil_r.
Qed.
Lemma shows_inj g raw q q' : shows g raw q → shows g raw q' → q = q'.
Proof.
  intros [[x Hx]|[-> Hx]] [[y Hy]|[-> Hy]]; [|naive_solver..].
  apply published_words in Hx as (_ & <- & _). by apply published_words in Hy as (_ & <- & _).
Qed.

(** A lookup copies a value of the events map, whose size is the guarded one
    exactly when the reader works with guards ([newMapPollingEventReader]). *)
Definition sized (r : mapPollingEventReader) : Prop :=
  ∀ slot k raw, events_Lookup slot k = Some raw → length raw = (16 + eventV2Size)%nat ↔ guarded r = true.
Lemma slotEvent_published g raw seq record :
  (length raw = (16 + eventV2Size)%nat ↔ g = true) → published g raw seq record → ultraLegacySlotEvent raw = record.
Proof.
  intros Hg [_ Hraw]. assert (drop 8 raw = record ++ (if g then put_uint native 8 seq else [])) as Hd.
  { rewrite Hraw. apply drop_app_length'. symmetry. apply length_word. }
  assert (length raw = 8 + (length record + (if g then 8 else 0)))%nat as Hl.
  { rewrite Hraw, !length_app, length_word. by destruct g; rewrite ?length_word. }
  unfold ultraLegacySlotEvent. rewrite Hd. destruct g.
  - destruct Hg as [_ Hg]. rewrite bool_decide_eq_false_2 by lia. rewrite bool_decide_eq_true_2 by auto.
    apply take_app_length'. lia.
  - rewrite (bool_decide_eq_false_2 (length raw = _)%nat) by (intros Hx%Hg; done). rewrite app_nil_r in *.
    case_bool_decide; [by destruct record; [|cbn in Hl; lia]|]. apply take_ge. lia.
Qed.

(** ** One visit *)

(** The slot of the next event: the CPUs share the map in equal parts, each a
    ring. *)
Definition slot_of (r : mapPollingEventReader) (cpu : Z) : Z :=
  cpu * slotsPerCPU r + tail (shardOf r cpu) mod slotsPerCPU r.
Lemma slotIndex_slot_of r cpu :
  reader_wf r → 0 ≤ cpu < Z.of_nat (length (shards r)) → slotIndex r cpu = slot_of r cpu.
Proof.
  intros Hw Hc. destruct (rw_slots r Hw) as [Hs Hm]. unfold slotIndex, slot_of. apply wrap_u_small.
  pose proof (Z.mod_pos_bound (tail (shardOf r cpu)) (slotsPerCPU r) Hs) as Hmod.
  assert ((cpu + 1) * slotsPerCPU r ≤ Z.of_nat (length (shards r)) * slotsPerCPU r)
    by (apply Z.mul_le_mono_nonneg_r; lia). nia.
Qed.

(** What the reader learns from the slot: the sequence number it shows, and
    the record if that is the next one.  With guards a copy that shows the
    next number is confirmed by a second one, taken after it. *)
Inductive observes (cpu : Z) (n : nat) (r : mapPollingEventReader) : Z → eventRecord → Prop :=
  | observes_once raw seq record :
      events_Lookup (slot_of r cpu) n = Some raw → shows (guarded r) raw seq →
      (guarded r = true → seq ≠ tail (shardOf r cpu) + 1) →
      (seq = tail (shardOf r cpu) + 1 → published (guarded r) raw seq record) →
      observes cpu n r seq record
  | observes_twice raw raw' seq record :
      guarded r = true →
      events_Lookup (slot_of r cpu) n = Some raw → published true raw (tail (shardOf r cpu) + 1) record →
      events_Lookup (slot_of r cpu) (S n) = Some raw' → shows true raw' seq →
      observes cpu n r seq record.

(** A visit of a CPU with unread events: the slot shows the next number, and
    its record is delivered; or a later one, and the events before it, as far
    as the cursor snapshot goes, are given up and counted; or neither, and the
    CPU waits for the kernel. *)
Inductive consume (cpu : Z) (n : nat) (r : mapPollingEventReader) : mapPollingEventReader → bool → Prop :=
  | consume_deliver record :
      observes cpu n r (tail (shardOf r cpu) + 1) record →
      consume cpu n r (movedTo r cpu (tail (shardOf r cpu) + 1) [record] (lost r))
        (tail (shardOf r cpu) + 1 <? head (shardOf r cpu))
  | consume_skip seq record upto :
      observes cpu n r seq record → tail (shardOf r cpu) + 1 < seq →
      upto = Z.min (seq - 1) (head (shardOf r cpu)) →
      consume cpu n r (movedTo r cpu upto [] (uint64 (lost r + (upto - tail (shardOf r cpu))))) false
  | consume_wait seq record :
      observes cpu n r seq record → seq ≤ tail (shardOf r cpu) →
      consume cpu n r (r <| nextCPU := nextOf r cpu |>) false.

Lemma shows_range g raw q : shows g raw q → is_uint64 q.
Proof. intros [[record [? _]]|[-> _]]; [done|by vm_compute]. Qed.
(** The two lookups of a visit. *)
Lemma confirm_observes cpu n r raw :
  reader_wf r → live r cpu → sized r → events_Lookup (slot_of r cpu) n = Some raw →
  let '(seq, _, r') := confirmSequence native (slot_of r cpu) (tail (shardOf r cpu) + 1) raw (S n) r in
  r' = r ∧ match seq with
           | Some seq => is_uint64 seq ∧ observes cpu n r seq (ultraLegacySlotEvent raw)
           | None => events_Lookup (slot_of r cpu) (S n) = None
           end.
Proof.
  intros Hw [Hc Hlive] Hsz Hraw. pose proof (slot_bytes _ _ _ Hraw) as Hb.
  pose proof (committed_shows (guarded r) raw Hb) as Hs. pose proof (shardOf_wf r cpu Hw Hc) as [Ht _].
  assert (∀ q, shows (guarded r) raw q → q = tail (shardOf r cpu) + 1 →
    published (guarded r) raw q (ultraLegacySlotEvent raw)) as Hpub.
  { intros q [[record Hp]|[-> _]] Hq; [|unfold is_uint64 in Ht; lia].
    by rewrite (slotEvent_published _ _ _ _ (Hsz _ _ _ Hraw) Hp). }
  unfold confirmSequence, mbind, M_bind, getS. destruct (guarded r && _) eqn:E; cbn.
  - apply andb_true_iff in E as [Hg E%Z.eqb_eq]. split; [done|]. rewrite Hg in E, Hs, Hpub.
    destruct (events_Lookup (slot_of r cpu) (S n)) as [raw'|] eqn:Hraw'; [|done]. cbn.
    pose proof (committed_shows true raw' (slot_bytes _ _ _ Hraw')) as Hs'.
    split; [by eapply shows_range|]. apply (observes_twice cpu n r raw raw'); [done|done| |done|done].
    rewrite <- E. by apply Hpub.
  - split; [done|]. split; [by eapply shows_range|]. apply (observes_once cpu n r raw); [done|done| |by apply Hpub].
    intros Hg Hq. rewrite Hg in E. cbn in E. rewrite Hg in Hq. apply Z.eqb_neq in E. done.
Qed.

(** C16: One visit of a CPU does exactly what its slot calls for.  It looks at the
    slot of the next event in the CPU's own ring.  If the slot shows the next
    sequence number, confirmed by a second lookup where there are guards, the
    record in it is delivered; if it shows a later one, the events before that,
    but none after the cursor snapshot, are given up and counted; if it shows
    an earlier one or is torn, nothing is consumed.  Only a failed lookup is an
    error, and then nothing changes. *)
Theorem pollSlot_refines_consume cpu n r :
  reader_wf r → live r cpu → sized r →
  let '(res, _, r') := pollSlot native cpu n r in
  match res with
  | inl _ => r' = r ∧ (events_Lookup (slot_of r cpu) n = None ∨ events_Lookup (slot_of r cpu) (S n) = None)
  | inr again => consume cpu n r r' again
  end.
Proof.
  intros Hw Hlive Hsz. destruct (Hlive) as [Hc Hlt]. pose proof (shardOf_wf r cpu Hw Hc) as [Ht Hh].
  unfold pollSlot, mbind, M_bind, getS, ask. cbv zeta beta. rewrite slotIndex_slot_of by done.
  assert (uint64 (tail (shardOf r cpu) + 1) = tail (shardOf r cpu) + 1) as ->
    by (apply wrap_u_small; unfold is_uint64 in *; lia).
  destruct (events_Lookup (slot_of r cpu) n) as [raw|] eqn:Hr; [|by cbn; auto].
  pose proof (confirm_observes cpu n r raw Hw Hlive Hsz Hr) as Hs.
  destruct (confirmSequence native _ _ raw (S n) r) as [[[q|] n'] r']; destruct Hs as [-> Hs]; [|by cbn; auto].
  destruct Hs as [Hq Ho]. destruct (Z.eqb_spec q (tail (shardOf r cpu) + 1)) as [->|Hne].
  - cbn. rewrite length_alter. by apply consume_deliver.
  - destruct (Z.ltb_spec (tail (shardOf r cpu) + 1) q).
    + set (u := Z.min (q - 1) (head (shardOf r cpu))). assert (tail (shardOf r cpu) < u ≤ head (shardOf r cpu)) by lia.
      unfold recordLoss. rewrite (wrap_u_small 64 (u - _)) by (unfold is_uint64 in *; lia).
      destruct (Z.eqb_spec (u - tail (shardOf r cpu)) 0); [lia|]. cbn. rewrite length_alter.
      pose proof (consume_skip cpu n r q _ u Ho ltac:(lia) eq_refl) as Hk.
      unfold movedTo in Hk. rewrite app_nil_r in Hk. exact Hk.
    + cbn. apply (consume_wait cpu n r q _ Ho). lia.
Qed.
End refine.
