(* ===== verification/Generated.v ===== *)
(** * What bpf2go generates

    A generated Go file declares types for the values of maps and structs
    whose fields are bound to the programs and maps of a collection by their
    [ebpf] tag.  Here a struct is the list of its fields; Bpfel.v and Bpfeb.v
    have those of the repository. *)
From S2P Require Import Prelude.

(** ** Layout of map keys and values *)
Inductive GoType := Uint64T | Uint32T | Int64T | Int32T | Int8ArrayT (n : nat).
#[export] Instance GoType_eq_dec : EqDecision GoType.
Proof. solve_decision. Defined.
Definition sizeof (t : GoType) : nat :=
  match t with Uint64T | Int64T => 8 | Uint32T | Int32T => 4 | Int8ArrayT n => n end%nat.
Definition alignof (t : GoType) : nat :=
  match t with Uint64T | Int64T => 8 | Uint32T | Int32T => 4 | Int8ArrayT _ => 1 end%nat.
Definition roundUp (n align : nat) : nat := ((n + align - 1) / align * align)%nat.
(** The offset of each field, and where the next one may start. *)
Fixpoint offsets (start : nat) (fields : list (string * GoType)) : list nat * nat :=
  match fields with
  | [] => ([], start)
  | (_, t) :: fields =>
      let at_ := roundUp start (alignof t) in
      let '(l, stop) := offsets (at_ + sizeof t) fields in (at_ :: l, stop)
  end.
Definition structAlign (fields : list (string * GoType)) : nat :=
  foldr Nat.max 1%nat ((λ f, alignof f.2) <$> fields).
Definition structSize (fields : list (string * GoType)) : nat :=
  roundUp (offsets 0 fields).2 (structAlign fields).
(** No byte of the struct is outside of its fields. *)
Definition unpadded (fields : list (string * GoType)) : bool :=
  bool_decide (structSize fields = sum_list ((λ f, sizeof f.2) <$> fields)).

(** ** Files *)
Record GeneratedFile := mkFile {
  buildTags : list string;
  programSpecs : list (string * string); mapSpecs : list (string * string);
  programs : list (string * string); maps : list (string * string);
  programsClosed : list string; mapsClosed : list string }.
(** The specs have the fields of the objects, and [Close] closes each field
    once. *)
Definition coherent (f : GeneratedFile) : bool :=
  bool_decide (programSpecs f = programs f) && bool_decide (mapSpecs f = maps f)
  && bool_decide (programsClosed f = snd <$> programs f) && bool_decide (mapsClosed f = snd <$> maps f)
  && bool_decide (NoDup (fst <$> programs f ++ maps f)) && bool_decide (NoDup (snd <$> programs f ++ maps f)).
