(* ===== verification/Bpfeb.v ===== *)
(** * The generated object types of big-endian builds: internal/sensor/ransomware*_bpfeb.go

    For each of the three BPF objects the build tag, the types of map values,
    the fields of the spec and object structs with their [ebpf] tags, and the
    fields the two [Close] methods name, in their order. *)
From S2P Require Import Prelude Generated.

(** ** ransomware_bpfeb.go *)
Module ransomware.
Definition buildTags : list string :=
  ["mips"; "mips64"; "ppc64"; "s390x"].
Definition ransomwareBlockEntry : list (string * GoType) :=
  [("ExpiresNs", Uint64T); ("Reason", Uint32T); ("Action", Uint32T)].
Definition ransomwareDirKey : list (string * GoType) :=
  [("Dev", Uint64T); ("Ino", Uint64T)].
Definition ransomwarePendingDup : list (string * GoType) :=
  [("Oldfd", Int32T); ("Newfd", Int32T)].
Definition ransomwarePendingOpen : list (string * GoType) :=
  [("Dirfd", Int32T); ("Flags", Int32T); ("Path", Int8ArrayT 256)].
Definition ransomwarePendingWrite : list (string * GoType) :=
  [("OperationId", Uint64T); ("Size", Uint64T); ("SyscallId", Int64T); ("Fd", Int32T);
   ("Vector", Uint32T)].
Definition ransomwareProgramSpecs : list (string * string) :=
  [("enforce_bprm_check_security", "EnforceBprmCheckSecurity");
   ("enforce_file_open", "EnforceFileOpen"); ("enforce_file_permission", "EnforceFilePermission");
   ("enforce_inode_create", "EnforceInodeCreate"); ("enforce_inode_rename", "EnforceInodeRename");
   ("enforce_path_mknod", "EnforcePathMknod"); ("enforce_path_rename", "EnforcePathRename");
   ("enforce_path_rename_legacy", "EnforcePathRenameLegacy");
   ("enforce_path_truncate", "EnforcePathTruncate"); ("enforce_path_unlink", "EnforcePathUnlink");
   ("kp_override_copy_file_range", "KpOverrideCopyFileRange");
   ("kp_override_execve", "KpOverrideExecve"); ("kp_override_ftruncate", "KpOverrideFtruncate");
   ("kp_override_getdents64", "KpOverrideGetdents64");
   ("kp_override_io_uring_enter", "KpOverrideIoUringEnter"); ("kp_override_link", "KpOverrideLink");
   ("kp_override_linkat", "KpOverrideLinkat"); ("kp_override_mmap", "KpOverrideMmap");
   ("kp_override_openat", "KpOverrideOpenat"); ("kp_override_openat2", "KpOverrideOpenat2");
   ("kp_override_pwrite64", "KpOverridePwrite64"); ("kp_override_rename", "KpOverrideRename");
   ("kp_override_renameat", "KpOverrideRenameat"); ("kp_override_renameat2", "KpOverrideRenameat2");
   ("kp_override_symlink", "KpOverrideSymlink"); ("kp_override_symlinkat", "KpOverrideSymlinkat");
   ("kp_override_truncate", "KpOverrideTruncate"); ("kp_override_unlink", "KpOverrideUnlink");
   ("kp_override_unlinkat", "KpOverrideUnlinkat"); ("kp_override_write", "KpOverrideWrite");
   ("kp_override_writev", "KpOverrideWritev"); ("trace_close", "TraceClose");
   ("trace_connect", "TraceConnect"); ("trace_copy_file_range", "TraceCopyFileRange");
   ("trace_dup", "TraceDup"); ("trace_dup2", "TraceDup2"); ("trace_dup2_exit", "TraceDup2Exit");
   ("trace_dup3", "TraceDup3"); ("trace_dup3_exit", "TraceDup3Exit");
   ("trace_dup_exit", "TraceDupExit"); ("trace_exec_success", "TraceExecSuccess");
   ("trace_execve", "TraceExecve"); ("trace_fcntl", "TraceFcntl");
   ("trace_fcntl_exit", "TraceFcntlExit"); ("trace_ftruncate", "TraceFtruncate");
   ("trace_getdents64", "TraceGetdents64"); ("trace_io_uring_enter", "TraceIoUringEnter");
   ("trace_link", "TraceLink"); ("trace_linkat", "TraceLinkat"); ("trace_mmap", "TraceMmap");
   ("trace_openat", "TraceOpenat"); ("trace_openat2", "TraceOpenat2");
   ("trace_openat2_exit", "TraceOpenat2Exit"); ("trace_openat_exit", "TraceOpenatExit");
   ("trace_process_exit", "TraceProcessExit"); ("trace_pwrite64", "TracePwrite64");
   ("trace_pwrite64_exit", "TracePwrite64Exit"); ("trace_rename", "TraceRename");
   ("trace_renameat", "TraceRenameat"); ("trace_renameat2", "TraceRenameat2");
   ("trace_symlink", "TraceSymlink"); ("trace_symlinkat", "TraceSymlinkat");
   ("trace_truncate", "TraceTruncate"); ("trace_unlink", "TraceUnlink");
   ("trace_unlinkat", "TraceUnlinkat"); ("trace_write", "TraceWrite");
   ("trace_write_exit", "TraceWriteExit"); ("trace_writev", "TraceWritev");
   ("trace_writev_exit", "TraceWritevExit")].
Definition ransomwareMapSpecs : list (string * string) :=
  [("allowed_cgroups", "AllowedCgroups"); ("blocked_tgids", "BlockedTgids");
   ("capture_gaps", "CaptureGaps"); ("cgroup_scope_enabled", "CgroupScopeEnabled");
   ("events", "Events"); ("inline_ioc_action", "InlineIocAction");
   ("ioc_extensions", "IocExtensions"); ("ioc_ransom_notes", "IocRansomNotes");
   ("pending_dups", "PendingDups"); ("pending_opens", "PendingOpens");
   ("pending_writes", "PendingWrites"); ("protected_dirs", "ProtectedDirs");
   ("ringbuf_drops", "RingbufDrops")].
Definition ransomwareMaps : list (string * string) :=
  [("allowed_cgroups", "AllowedCgroups"); ("blocked_tgids", "BlockedTgids");
   ("capture_gaps", "CaptureGaps"); ("cgroup_scope_enabled", "CgroupScopeEnabled");
   ("events", "Events"); ("inline_ioc_action", "InlineIocAction");
   ("ioc_extensions", "IocExtensions"); ("ioc_ransom_notes", "IocRansomNotes");
   ("pending_dups", "PendingDups"); ("pending_opens", "PendingOpens");
   ("pending_writes", "PendingWrites"); ("protected_dirs", "ProtectedDirs");
   ("ringbuf_drops", "RingbufDrops")].
Definition ransomwareMapsClosed : list string :=
  ["AllowedCgroups"; "BlockedTgids"; "CaptureGaps"; "CgroupScopeEnabled"; "Events";
   "InlineIocAction"; "IocExtensions"; "IocRansomNotes"; "PendingDups"; "PendingOpens";
   "PendingWrites"; "ProtectedDirs"; "RingbufDrops"].
Definition ransomwarePrograms : list (string * string) :=
  [("enforce_bprm_check_security", "EnforceBprmCheckSecurity");
   ("enforce_file_open", "EnforceFileOpen"); ("enforce_file_permission", "EnforceFilePermission");
   ("enforce_inode_create", "EnforceInodeCreate"); ("enforce_inode_rename", "EnforceInodeRename");
   ("enforce_path_mknod", "EnforcePathMknod"); ("enforce_path_rename", "EnforcePathRename");
   ("enforce_path_rename_legacy", "EnforcePathRenameLegacy");
   ("enforce_path_truncate", "EnforcePathTruncate"); ("enforce_path_unlink", "EnforcePathUnlink");
   ("kp_override_copy_file_range", "KpOverrideCopyFileRange");
   ("kp_override_execve", "KpOverrideExecve"); ("kp_override_ftruncate", "KpOverrideFtruncate");
   ("kp_override_getdents64", "KpOverrideGetdents64");
   ("kp_override_io_uring_enter", "KpOverrideIoUringEnter"); ("kp_override_link", "KpOverrideLink");
   ("kp_override_linkat", "KpOverrideLinkat"); ("kp_override_mmap", "KpOverrideMmap");
   ("kp_override_openat", "KpOverrideOpenat"); ("kp_override_openat2", "KpOverrideOpenat2");
   ("kp_override_pwrite64", "KpOverridePwrite64"); ("kp_override_rename", "KpOverrideRename");
   ("kp_override_renameat", "KpOverrideRenameat"); ("kp_override_renameat2", "KpOverrideRenameat2");
   ("kp_override_symlink", "KpOverrideSymlink"); ("kp_override_symlinkat", "KpOverrideSymlinkat");
   ("kp_override_truncate", "KpOverrideTruncate"); ("kp_override_unlink", "KpOverrideUnlink");
   ("kp_override_unlinkat", "KpOverrideUnlinkat"); ("kp_override_write", "KpOverrideWrite");
   ("kp_override_writev", "KpOverrideWritev"); ("trace_close", "TraceClose");
   ("trace_connect", "TraceConnect"); ("trace_copy_file_range", "TraceCopyFileRange");
   ("trace_dup", "TraceDup"); ("trace_dup2", "TraceDup2"); ("trace_dup2_exit", "TraceDup2Exit");
   ("trace_dup3", "TraceDup3"); ("trace_dup3_exit", "TraceDup3Exit");
   ("trace_dup_exit", "TraceDupExit"); ("trace_exec_success", "TraceExecSuccess");
   ("trace_execve", "TraceExecve"); ("trace_fcntl", "TraceFcntl");
   ("trace_fcntl_exit", "TraceFcntlExit"); ("trace_ftruncate", "TraceFtruncate");
   ("trace_getdents64", "TraceGetdents64"); ("trace_io_uring_enter", "TraceIoUringEnter");
   ("trace_link", "TraceLink"); ("trace_linkat", "TraceLinkat"); ("trace_mmap", "TraceMmap");
   ("trace_openat", "TraceOpenat"); ("trace_openat2", "TraceOpenat2");
   ("trace_openat2_exit", "TraceOpenat2Exit"); ("trace_openat_exit", "TraceOpenatExit");
   ("trace_process_exit", "TraceProcessExit"); ("trace_pwrite64", "TracePwrite64");
   ("trace_pwrite64_exit", "TracePwrite64Exit"); ("trace_rename", "TraceRename");
   ("trace_renameat", "TraceRenameat"); ("trace_renameat2", "TraceRenameat2");
   ("trace_symlink", "TraceSymlink"); ("trace_symlinkat", "TraceSymlinkat");
   ("trace_truncate", "TraceTruncate"); ("trace_unlink", "TraceUnlink");
   ("trace_unlinkat", "TraceUnlinkat"); ("trace_write", "TraceWrite");
   ("trace_write_exit", "TraceWriteExit"); ("trace_writev", "TraceWritev");
   ("trace_writev_exit", "TraceWritevExit")].
Definition ransomwareProgramsClosed : list string :=
  ["EnforceBprmCheckSecurity"; "EnforceFileOpen"; "EnforceFilePermission"; "EnforceInodeCreate";
   "EnforceInodeRename"; "EnforcePathMknod"; "EnforcePathRename"; "EnforcePathRenameLegacy";
   "EnforcePathTruncate"; "EnforcePathUnlink"; "KpOverrideCopyFileRange"; "KpOverrideExecve";
   "KpOverrideFtruncate"; "KpOverrideGetdents64"; "KpOverrideIoUringEnter"; "KpOverrideLink";
   "KpOverrideLinkat"; "KpOverrideMmap"; "KpOverrideOpenat"; "KpOverrideOpenat2";
   "KpOverridePwrite64"; "KpOverrideRename"; "KpOverrideRenameat"; "KpOverrideRenameat2";
   "KpOverrideSymlink"; "KpOverrideSymlinkat"; "KpOverrideTruncate"; "KpOverrideUnlink";
   "KpOverrideUnlinkat"; "KpOverrideWrite"; "KpOverrideWritev"; "TraceClose"; "TraceConnect";
   "TraceCopyFileRange"; "TraceDup"; "TraceDup2"; "TraceDup2Exit"; "TraceDup3"; "TraceDup3Exit";
   "TraceDupExit"; "TraceExecSuccess"; "TraceExecve"; "TraceFcntl"; "TraceFcntlExit";
   "TraceFtruncate"; "TraceGetdents64"; "TraceIoUringEnter"; "TraceLink"; "TraceLinkat";
   "TraceMmap"; "TraceOpenat"; "TraceOpenat2"; "TraceOpenat2Exit"; "TraceOpenatExit";
   "TraceProcessExit"; "TracePwrite64"; "TracePwrite64Exit"; "TraceRename"; "TraceRenameat";
   "TraceRenameat2"; "TraceSymlink"; "TraceSymlinkat"; "TraceTruncate"; "TraceUnlink";
   "TraceUnlinkat"; "TraceWrite"; "TraceWriteExit"; "TraceWritev"; "TraceWritevExit"].
Definition file : GeneratedFile :=
  mkFile buildTags ransomwareProgramSpecs ransomwareMapSpecs ransomwarePrograms ransomwareMaps
    ransomwareProgramsClosed ransomwareMapsClosed.
End ransomware.

(** ** ransomwarelegacy_bpfeb.go *)
Module ransomwareLegacy.
Definition buildTags : list string :=
  ["mips"; "mips64"; "ppc64"; "s390x"].
Definition ransomwareLegacyProgramSpecs : list (string * string) :=
  [("kp_override_copy_file_range", "KpOverrideCopyFileRange");
   ("kp_override_execve", "KpOverrideExecve"); ("kp_override_ftruncate", "KpOverrideFtruncate");
   ("kp_override_getdents64", "KpOverrideGetdents64");
   ("kp_override_io_uring_enter", "KpOverrideIoUringEnter"); ("kp_override_link", "KpOverrideLink");
   ("kp_override_linkat", "KpOverrideLinkat"); ("kp_override_mmap", "KpOverrideMmap");
   ("kp_override_openat", "KpOverrideOpenat"); ("kp_override_openat2", "KpOverrideOpenat2");
   ("kp_override_pwrite64", "KpOverridePwrite64"); ("kp_override_rename", "KpOverrideRename");
   ("kp_override_renameat", "KpOverrideRenameat"); ("kp_override_renameat2", "KpOverrideRenameat2");
   ("kp_override_symlink", "KpOverrideSymlink"); ("kp_override_symlinkat", "KpOverrideSymlinkat");
   ("kp_override_truncate", "KpOverrideTruncate"); ("kp_override_unlink", "KpOverrideUnlink");
   ("kp_override_unlinkat", "KpOverrideUnlinkat"); ("kp_override_write", "KpOverrideWrite");
   ("kp_override_writev", "KpOverrideWritev"); ("trace_close", "TraceClose");
   ("trace_connect", "TraceConnect"); ("trace_copy_file_range", "TraceCopyFileRange");
   ("trace_dup", "TraceDup"); ("trace_dup2", "TraceDup2"); ("trace_dup2_exit", "TraceDup2Exit");
   ("trace_dup3", "TraceDup3"); ("trace_dup3_exit", "TraceDup3Exit");
   ("trace_dup_exit", "TraceDupExit"); ("trace_exec_success", "TraceExecSuccess");
   ("trace_execve", "TraceExecve"); ("trace_fcntl", "TraceFcntl");
   ("trace_fcntl_exit", "TraceFcntlExit"); ("trace_ftruncate", "TraceFtruncate");
   ("trace_getdents64", "TraceGetdents64"); ("trace_io_uring_enter", "TraceIoUringEnter");
   ("trace_link", "TraceLink"); ("trace_linkat", "TraceLinkat"); ("trace_mmap", "TraceMmap");
   ("trace_openat", "TraceOpenat"); ("trace_openat2", "TraceOpenat2");
   ("trace_openat2_exit", "TraceOpenat2Exit"); ("trace_openat_exit", "TraceOpenatExit");
   ("trace_process_exit", "TraceProcessExit"); ("trace_pwrite64", "TracePwrite64");
   ("trace_pwrite64_exit", "TracePwrite64Exit"); ("trace_rename", "TraceRename");
   ("trace_renameat", "TraceRenameat"); ("trace_renameat2", "TraceRenameat2");
   ("trace_symlink", "TraceSymlink"); ("trace_symlinkat", "TraceSymlinkat");
   ("trace_truncate", "TraceTruncate"); ("trace_unlink", "TraceUnlink");
   ("trace_unlinkat", "TraceUnlinkat"); ("trace_write", "TraceWrite");
   ("trace_write_exit", "TraceWriteExit"); ("trace_writev", "TraceWritev");
   ("trace_writev_exit", "TraceWritevExit")].
Definition ransomwareLegacyMapSpecs : list (string * string) :=
  [("allowed_cgroups", "AllowedCgroups"); ("blocked_tgids", "BlockedTgids");
   ("capture_gaps", "CaptureGaps"); ("cgroup_scope_enabled", "CgroupScopeEnabled");
   ("events", "Events"); ("ioc_extensions", "IocExtensions");
   ("ioc_ransom_notes", "IocRansomNotes"); ("pending_dups", "PendingDups");
   ("pending_opens", "PendingOpens"); ("pending_writes", "PendingWrites");
   ("protected_dirs", "ProtectedDirs"); ("ringbuf_drops", "RingbufDrops");
   ("scratch_events", "ScratchEvents")].
Definition ransomwareLegacyMaps : list (string * string) :=
  [("allowed_cgroups", "AllowedCgroups"); ("blocked_tgids", "BlockedTgids");
   ("capture_gaps", "CaptureGaps"); ("cgroup_scope_enabled", "CgroupScopeEnabled");
   ("events", "Events"); ("ioc_extensions", "IocExtensions");
   ("ioc_ransom_notes", "IocRansomNotes"); ("pending_dups", "PendingDups");
   ("pending_opens", "PendingOpens"); ("pending_writes", "PendingWrites");
   ("protected_dirs", "ProtectedDirs"); ("ringbuf_drops", "RingbufDrops");
   ("scratch_events", "ScratchEvents")].
Definition ransomwareLegacyMapsClosed : list string :=
  ["AllowedCgroups"; "BlockedTgids"; "CaptureGaps"; "CgroupScopeEnabled"; "Events"; "IocExtensions";
   "IocRansomNotes"; "PendingDups"; "PendingOpens"; "PendingWrites"; "ProtectedDirs";
   "RingbufDrops"; "ScratchEvents"].
Definition ransomwareLegacyPrograms : list (string * string) :=
  [("kp_override_copy_file_range", "KpOverrideCopyFileRange");
   ("kp_override_execve", "KpOverrideExecve"); ("kp_override_ftruncate", "KpOverrideFtruncate");
   ("kp_override_getdents64", "KpOverrideGetdents64");
   ("kp_override_io_uring_enter", "KpOverrideIoUringEnter"); ("kp_override_link", "KpOverrideLink");
   ("kp_override_linkat", "KpOverrideLinkat"); ("kp_override_mmap", "KpOverrideMmap");
   ("kp_override_openat", "KpOverrideOpenat"); ("kp_override_openat2", "KpOverrideOpenat2");
   ("kp_override_pwrite64", "KpOverridePwrite64"); ("kp_override_rename", "KpOverrideRename");
   ("kp_override_renameat", "KpOverrideRenameat"); ("kp_override_renameat2", "KpOverrideRenameat2");
   ("kp_override_symlink", "KpOverrideSymlink"); ("kp_override_symlinkat", "KpOverrideSymlinkat");
   ("kp_override_truncate", "KpOverrideTruncate"); ("kp_override_unlink", "KpOverrideUnlink");
   ("kp_override_unlinkat", "KpOverrideUnlinkat"); ("kp_override_write", "KpOverrideWrite");
   ("kp_override_writev", "KpOverrideWritev"); ("trace_close", "TraceClose");
   ("trace_connect", "TraceConnect"); ("trace_copy_file_range", "TraceCopyFileRange");
   ("trace_dup", "TraceDup"); ("trace_dup2", "TraceDup2"); ("trace_dup2_exit", "TraceDup2Exit");
   ("trace_dup3", "TraceDup3"); ("trace_dup3_exit", "TraceDup3Exit");
   ("trace_dup_exit", "TraceDupExit"); ("trace_exec_success", "TraceExecSuccess");
   ("trace_execve", "TraceExecve"); ("trace_fcntl", "TraceFcntl");
   ("trace_fcntl_exit", "TraceFcntlExit"); ("trace_ftruncate", "TraceFtruncate");
   ("trace_getdents64", "TraceGetdents64"); ("trace_io_uring_enter", "TraceIoUringEnter");
   ("trace_link", "TraceLink"); ("trace_linkat", "TraceLinkat"); ("trace_mmap", "TraceMmap");
   ("trace_openat", "TraceOpenat"); ("trace_openat2", "TraceOpenat2");
   ("trace_openat2_exit", "TraceOpenat2Exit"); ("trace_openat_exit", "TraceOpenatExit");
   ("trace_process_exit", "TraceProcessExit"); ("trace_pwrite64", "TracePwrite64");
   ("trace_pwrite64_exit", "TracePwrite64Exit"); ("trace_rename", "TraceRename");
   ("trace_renameat", "TraceRenameat"); ("trace_renameat2", "TraceRenameat2");
   ("trace_symlink", "TraceSymlink"); ("trace_symlinkat", "TraceSymlinkat");
   ("trace_truncate", "TraceTruncate"); ("trace_unlink", "TraceUnlink");
   ("trace_unlinkat", "TraceUnlinkat"); ("trace_write", "TraceWrite");
   ("trace_write_exit", "TraceWriteExit"); ("trace_writev", "TraceWritev");
   ("trace_writev_exit", "TraceWritevExit")].
Definition ransomwareLegacyProgramsClosed : list string :=
  ["KpOverrideCopyFileRange"; "KpOverrideExecve"; "KpOverrideFtruncate"; "KpOverrideGetdents64";
   "KpOverrideIoUringEnter"; "KpOverrideLink"; "KpOverrideLinkat"; "KpOverrideMmap";
   "KpOverrideOpenat"; "KpOverrideOpenat2"; "KpOverridePwrite64"; "KpOverrideRename";
   "KpOverrideRenameat"; "KpOverrideRenameat2"; "KpOverrideSymlink"; "KpOverrideSymlinkat";
   "KpOverrideTruncate"; "KpOverrideUnlink"; "KpOverrideUnlinkat"; "KpOverrideWrite";
   "KpOverrideWritev"; "TraceClose"; "TraceConnect"; "TraceCopyFileRange"; "TraceDup"; "TraceDup2";
   "TraceDup2Exit"; "TraceDup3"; "TraceDup3Exit"; "TraceDupExit"; "TraceExecSuccess"; "TraceExecve";
   "TraceFcntl"; "TraceFcntlExit"; "TraceFtruncate"; "TraceGetdents64"; "TraceIoUringEnter";
   "TraceLink"; "TraceLinkat"; "TraceMmap"; "TraceOpenat"; "TraceOpenat2"; "TraceOpenat2Exit";
   "TraceOpenatExit"; "TraceProcessExit"; "TracePwrite64"; "TracePwrite64Exit"; "TraceRename";
   "TraceRenameat"; "TraceRenameat2"; "TraceSymlink"; "TraceSymlinkat"; "TraceTruncate";
   "TraceUnlink"; "TraceUnlinkat"; "TraceWrite"; "TraceWriteExit"; "TraceWritev"; "TraceWritevExit"].
Definition file : GeneratedFile :=
  mkFile buildTags ransomwareLegacyProgramSpecs ransomwareLegacyMapSpecs ransomwareLegacyPrograms ransomwareLegacyMaps
    ransomwareLegacyProgramsClosed ransomwareLegacyMapsClosed.
End ransomwareLegacy.

(** ** ransomwareultralegacy_bpfeb.go *)
Module ransomwareUltraLegacy.
Definition buildTags : list string :=
  ["mips"; "mips64"; "ppc64"; "s390x"].
Definition ransomwareUltraLegacyProgramSpecs : list (string * string) :=
  [("kp_override_execve", "KpOverrideExecve"); ("kp_override_ftruncate", "KpOverrideFtruncate");
   ("kp_override_link", "KpOverrideLink"); ("kp_override_open", "KpOverrideOpen");
   ("kp_override_openat", "KpOverrideOpenat"); ("kp_override_pwrite64", "KpOverridePwrite64");
   ("kp_override_rename", "KpOverrideRename"); ("kp_override_symlink", "KpOverrideSymlink");
   ("kp_override_truncate", "KpOverrideTruncate"); ("kp_override_unlink", "KpOverrideUnlink");
   ("kp_override_write", "KpOverrideWrite"); ("kp_override_writev", "KpOverrideWritev");
   ("kp_process_exit", "KpProcessExit"); ("kp_ret_open", "KpRetOpen");
   ("kp_ret_openat", "KpRetOpenat"); ("kp_ret_pwrite64", "KpRetPwrite64");
   ("kp_ret_write", "KpRetWrite"); ("kp_ret_writev", "KpRetWritev")].
Definition ransomwareUltraLegacyMapSpecs : list (string * string) :=
  [("allowed_cgroups", "AllowedCgroups"); ("blocked_tgids", "BlockedTgids");
   ("capture_gaps", "CaptureGaps"); ("cgroup_scope_enabled", "CgroupScopeEnabled");
   ("event_cursor", "EventCursor"); ("events", "Events"); ("ioc_extensions", "IocExtensions");
   ("ioc_ransom_notes", "IocRansomNotes"); ("pending_opens", "PendingOpens");
   ("pending_writes", "PendingWrites"); ("protected_dirs", "ProtectedDirs");
   ("ringbuf_drops", "RingbufDrops"); ("scratch_events", "ScratchEvents");
   ("syscall_abi", "SyscallAbi")].
Definition ransomwareUltraLegacyMaps : list (string * string) :=
  [("allowed_cgroups", "AllowedCgroups"); ("blocked_tgids", "BlockedTgids");
   ("capture_gaps", "CaptureGaps"); ("cgroup_scope_enabled", "CgroupScopeEnabled");
   ("event_cursor", "EventCursor"); ("events", "Events"); ("ioc_extensions", "IocExtensions");
   ("ioc_ransom_notes", "IocRansomNotes"); ("pending_opens", "PendingOpens");
   ("pending_writes", "PendingWrites"); ("protected_dirs", "ProtectedDirs");
   ("ringbuf_drops", "RingbufDrops"); ("scratch_events", "ScratchEvents");
   ("syscall_abi", "SyscallAbi")].
Definition ransomwareUltraLegacyMapsClosed : list string :=
  ["AllowedCgroups"; "BlockedTgids"; "CaptureGaps"; "CgroupScopeEnabled"; "EventCursor"; "Events";
   "IocExtensions"; "IocRansomNotes"; "PendingOpens"; "PendingWrites"; "ProtectedDirs";
   "RingbufDrops"; "ScratchEvents"; "SyscallAbi"].
Definition ransomwareUltraLegacyPrograms : list (string * string) :=
  [("kp_override_execve", "KpOverrideExecve"); ("kp_override_ftruncate", "KpOverrideFtruncate");
   ("kp_override_link", "KpOverrideLink"); ("kp_override_open", "KpOverrideOpen");
   ("kp_override_openat", "KpOverrideOpenat"); ("kp_override_pwrite64", "KpOverridePwrite64");
   ("kp_override_rename", "KpOverrideRename"); ("kp_override_symlink", "KpOverrideSymlink");
   ("kp_override_truncate", "KpOverrideTruncate"); ("kp_override_unlink", "KpOverrideUnlink");
   ("kp_override_write", "KpOverrideWrite"); ("kp_override_writev", "KpOverrideWritev");
   ("kp_process_exit", "KpProcessExit"); ("kp_ret_open", "KpRetOpen");
   ("kp_ret_openat", "KpRetOpenat"); ("kp_ret_pwrite64", "KpRetPwrite64");
   ("kp_ret_write", "KpRetWrite"); ("kp_ret_writev", "KpRetWritev")].
Definition ransomwareUltraLegacyProgramsClosed : list string :=
  ["KpOverrideExecve"; "KpOverrideFtruncate"; "KpOverrideLink"; "KpOverrideOpen";
   "KpOverrideOpenat"; "KpOverridePwrite64"; "KpOverrideRename"; "KpOverrideSymlink";
   "KpOverrideTruncate"; "KpOverrideUnlink"; "KpOverrideWrite"; "KpOverrideWritev"; "KpProcessExit";
   "KpRetOpen"; "KpRetOpenat"; "KpRetPwrite64"; "KpRetWrite"; "KpRetWritev"].
Definition file : GeneratedFile :=
  mkFile buildTags ransomwareUltraLegacyProgramSpecs ransomwareUltraLegacyMapSpecs ransomwareUltraLegacyPrograms ransomwareUltraLegacyMaps
    ransomwareUltraLegacyProgramsClosed ransomwareUltraLegacyMapsClosed.
End ransomwareUltraLegacy.
