(* ===== verification/Objects.v ===== *)
(** * The BPF objects of the sensor: internal/sensor/ransomware*_bpfel.go

    The three generated object types the loaders of sensor.go fill, and how
    handles of programs and maps are closed: the generated [Close] methods and
    [collectionBundle] of sensor.go.  Closing a handle releases it, whatever it
    reports; the state is the number of handles that are open. *)
From S2P Require Import Prelude GoStrings World Generated Bpfel Bpfeb.

(** ** Objects

    A generated file in which [Close] closes every field. *)
Record GeneratedObject := mkObject { file : GeneratedFile; file_coherent : coherent file = true }.
Definition programTags (o : GeneratedObject) : list (string * string) := programs (file o).
Definition mapTags (o : GeneratedObject) : list (string * string) := maps (file o).
Lemma ransomware_coherent : coherent Bpfel.ransomware.file = true.
Proof. vm_compute. reflexivity. Qed.
Lemma ransomwareLegacy_coherent : coherent Bpfel.ransomwareLegacy.file = true.
Proof. vm_compute. reflexivity. Qed.
Lemma ransomwareUltraLegacy_coherent : coherent Bpfel.ransomwareUltraLegacy.file = true.
Proof. vm_compute. reflexivity. Qed.
Definition ransomwareObjects : GeneratedObject := mkObject Bpfel.ransomware.file ransomware_coherent.
Definition ransomwareLegacyObjects : GeneratedObject :=
  mkObject Bpfel.ransomwareLegacy.file ransomwareLegacy_coherent.
Definition ransomwareUltraLegacyObjects : GeneratedObject :=
  mkObject Bpfel.ransomwareUltraLegacy.file ransomwareUltraLegacy_coherent.
Abbreviation ransomwareProgramTags := Bpfel.ransomware.ransomwarePrograms.
Abbreviation ransomwareLegacyProgramTags := Bpfel.ransomwareLegacy.ransomwareLegacyPrograms.
Definition handlesOf (o : GeneratedObject) : nat := length (programTags o) + length (mapTags o).
Lemma closed_fields o :
  length (programsClosed (file o)) = length (programTags o) ∧ length (mapsClosed (file o)) = length (mapTags o).
Proof.
  pose proof (file_coherent o) as Hf. unfold coherent in Hf. rewrite !andb_true_iff, !bool_decide_eq_true in Hf.
  destruct Hf as [[[[_ Hp] Hm] _] _]. unfold programTags, mapTags. rewrite Hp, Hm. by rewrite !length_fmap.
Qed.

(** ** Closing *)

(** Whether closing a handle reports success. *)
Class Closing : Type := { close_ok : nat → bool }.

Section close.
Context `{Closing}.
Definition closeHandle : M nat bool := ok ← ask close_ok; modS pred ;; mret ok.

(** [_RansomwareClose]: it returns at the first error and leaves the rest
    open. *)
Fixpoint closeUntilError (closers : list (M nat bool)) : M nat bool :=
  match closers with
  | [] => mret true
  | c :: closers => ok ← c; if (ok : bool) then closeUntilError closers else mret false
  end.
Definition programsClose (o : GeneratedObject) : M nat bool :=
  closeUntilError ((λ _, closeHandle) <$> programsClosed (file o)).
Definition mapsClose (o : GeneratedObject) : M nat bool :=
  closeUntilError ((λ _, closeHandle) <$> mapsClosed (file o)).
Definition objectsClose (o : GeneratedObject) : M nat bool :=
  closeUntilError [programsClose o; mapsClose o].

(** [collectionBundle]: the number of handles of each collection, and the
    programs they have. *)
Record collectionBundle := mkBundle { collections : list nat; bundlePrograms : gset string }.
Fixpoint closeHandles (k : nat) : M nat bool :=
  match k with
  | O => mret true
  | S k => ok ← closeHandle; rest ← closeHandles k; mret (ok && rest)
  end.
Fixpoint closeCollections (l : list nat) : M nat bool :=
  match l with
  | [] => mret true
  | k :: l => ok ← closeHandles k; rest ← closeCollections l; mret (ok && rest)
  end.
(** [collectionBundle.Close]: every handle, the last collection first. *)
Definition bundleClose (b : collectionBundle) : M nat bool := closeCollections (reverse (collections b)).

(** What [Sensor.closer] may be. *)
Inductive Closer := BundleCloser (b : collectionBundle) | ObjectsCloser (o : GeneratedObject).
Definition handles (c : Closer) : nat :=
  match c with BundleCloser b => sum_list (collections b) | ObjectsCloser o => handlesOf o end.
Definition closerClose (c : Closer) : M nat bool :=
  match c with BundleCloser b => bundleClose b | ObjectsCloser o => objectsClose o end.

(** ** Theorems *)
Lemma closeHandles_spec k n open : after (closeHandles k) n open = (open - k)%nat.
Proof.
  revert n open. induction k as [|k IH]; intros n open; [cbn; lia|].
  cbn [closeHandles]. unfold after, closeHandle, mbind, M_bind, ask, modS.
  specialize (IH (S n) (pred open)). unfold after in IH. cbn.
  destruct (closeHandles k (S n) (pred open)) as [[ok n'] s']. cbn in *. lia.
Qed.
Lemma closeCollections_spec l n open : after (closeCollections l) n open = (open - sum_list l)%nat.
Proof.
  revert n open. induction l as [|k l IH]; intros n open; [cbn; lia|].
  cbn [closeCollections sum_list]. unfold after, mbind, M_bind.
  pose proof (closeHandles_spec k n open) as Hk. unfold after in *.
  destruct (closeHandles k n open) as [[ok n1] s1]. cbn in Hk. subst s1. specialize (IH n1 (open - k)%nat).
  destruct (closeCollections l n1 _) as [[ok' n2] s2]. cbn in *. lia.
Qed.

(** Handles closed one by one until an error. *)
Lemma closeUntilError_handles {A} (l : list A) n open :
  let '(ok, _, open') := closeUntilError ((λ _, closeHandle) <$> l) n open in
  (open - length l ≤ open' ≤ open)%nat ∧ (ok = true → open' = (open - length l)%nat).
Proof.
  revert n open. induction l as [|x l IH]; intros n open; [cbn; split; [lia|intros; lia]|].
  change (closeUntilError ((λ _, closeHandle) <$> x :: l) n open)
    with ((if close_ok n then closeUntilError ((λ _, closeHandle) <$> l) else mret false) (S n) (pred open)).
  cbn [length]. destruct (close_ok n); [|split; [cbn; lia|done]].
  specialize (IH (S n) (pred open)). destruct (closeUntilError _ (S n) (pred open)) as [[ok n'] s'].
  destruct IH as [? Hok]. split; [lia|]. intros Ht. specialize (Hok Ht). lia.
Qed.

(** When no handle reports an error, no closer does. *)
Definition closes_succeed : Prop := ∀ n, close_ok n = true.
Definition succeeds_always {S} (m : M S bool) : Prop := ∀ n s, result m n s = true.
Lemma closeUntilError_ok (l : list (M nat bool)) :
  Forall succeeds_always l → succeeds_always (closeUntilError l).
Proof.
  induction 1 as [|m l Hm _ IH]; intros n s; [done|]. specialize (Hm n s).
  unfold result in *. cbn [closeUntilError]. unfold mbind, M_bind.
  destruct (m n s) as [[ok n'] s']. cbn in Hm. subst ok. apply IH.
Qed.
Lemma both_ok {S} (m1 m2 : M S bool) :
  succeeds_always m1 → succeeds_always m2 → succeeds_always (ok ← m1; rest ← m2; mret (ok && rest)).
Proof.
  intros H1 H2 n s. specialize (H1 n s). unfold result, mbind, M_bind in *. destruct (m1 n s) as [[ok1 n1] s1].
  specialize (H2 n1 s1). unfold result in H2. destruct (m2 n1 s1) as [[ok2 n2] s2]. cbn in *. by subst.
Qed.
Lemma closerClose_ok c : closes_succeed → succeeds_always (closerClose c).
Proof.
  intros Hok. assert (succeeds_always closeHandle) as Hh by (intros n s; apply Hok).
  destruct c as [b|o]; cbn [closerClose].
  - unfold bundleClose. induction (reverse (collections b)) as [|k l IH]; [done|].
    apply both_ok; [|done]. induction k as [|k IHk]; [done|]. by apply both_ok.
  - assert (∀ A (l : list A), succeeds_always (closeUntilError ((λ _, closeHandle) <$> l))) as Hl.
    { intros A l. apply closeUntilError_ok, Forall_fmap, Forall_forall. done. }
    apply closeUntilError_ok. repeat constructor; apply Hl.
Qed.

(** What a failed [Close] may leave open: a bundle closes every handle. *)
Definition residue (c : Closer) : nat :=
  match c with BundleCloser _ => 0%nat | ObjectsCloser o => handlesOf o end.
(** Closing releases every handle when it reports success, and always when
    the closer is a bundle. *)
Lemma closerClose_spec c n open :
  let '(ok, _, open') := closerClose c n open in
  (open - handles c ≤ open' ≤ open - handles c + residue c)%nat
  ∧ (ok = true → open' = (open - handles c)%nat).
Proof.
  destruct c as [b|o]; cbn [closerClose handles residue].
  - unfold bundleClose. pose proof (closeCollections_spec (reverse (collections b)) n open) as Hc.
    unfold after in Hc. destruct (closeCollections _ n open) as [[ok n'] s']. cbn in Hc.
    assert (sum_list (reverse (collections b)) = sum_list (collections b)) as Hr
      by (by rewrite reverse_Permutation). rewrite Hr in Hc. split; lia.
  - unfold objectsClose, handlesOf. cbn [closeUntilError]. unfold mbind, M_bind.
    destruct (closed_fields o) as [<- <-].
    pose proof (closeUntilError_handles (programsClosed (file o)) n open) as Hp. fold (programsClose o) in Hp.
    destruct (programsClose o n open) as [[[] n1] s1]; destruct Hp as [? Hp]; [|split; [cbn; lia|done]].
    rewrite (Hp eq_refl) in *.
    pose proof (closeUntilError_handles (mapsClosed (file o)) n1 (open - length (programsClosed (file o)))) as Hm.
    fold (mapsClose o) in Hm.
    destruct (mapsClose o n1 _) as [[[] n2] s2]; destruct Hm as [? Hm]; cbn;
      [rewrite (Hm eq_refl); split; lia|split; [lia|done]].
Qed.
End close.

(** ** Builds

    The build tags select one of two files for each object. *)
Definition selected (arch : string) (el eb : GeneratedFile) : option GeneratedFile :=
  if bool_decide (arch ∈ buildTags el) then Some el
  else if bool_decide (arch ∈ buildTags eb) then Some eb else None.
Definition builds : list (GeneratedFile * GeneratedFile) :=
  [(Bpfel.ransomware.file, Bpfeb.ransomware.file);
   (Bpfel.ransomwareLegacy.file, Bpfeb.ransomwareLegacy.file);
   (Bpfel.ransomwareUltraLegacy.file, Bpfeb.ransomwareUltraLegacy.file)].
Definition agree (el eb : GeneratedFile) : bool :=
  coherent el && coherent eb && bool_decide (programs el = programs eb) && bool_decide (maps el = maps eb)
  && bool_decide (Forall (.∉ buildTags eb) (buildTags el)).
(** The fields of [BlockEntry] and [dirKey] of sensor.go, what user space
    writes to the maps of blocked processes and protected directories. *)
Definition BlockEntryType : list (string * GoType) :=
  [("ExpiresNs", Uint64T); ("Reason", Uint32T); ("Action", Uint32T)].
Definition dirKeyType : list (string * GoType) := [("Dev", Uint64T); ("Ino", Uint64T)].

(** The generated files fit together and fit the sensor: for each object the
    two files bind the same fields to the same programs and maps, each closes
    every field exactly once, and no architecture builds both; whichever is
    built, the entries the sensor writes have the fields, the order and the
    sizes of the types the BPF programs were compiled with, and no padding. *)
Theorem generated_files_agree :
  (∀ el eb arch f, (el, eb) ∈ builds → selected arch el eb = Some f →
     programs f = programs el ∧ maps f = maps el
     ∧ programsClosed f = (programs f).*2 ∧ mapsClosed f = (maps f).*2
     ∧ NoDup (programs f).*2 ∧ ¬ (arch ∈ buildTags el ∧ arch ∈ buildTags eb))
  ∧ (∀ t, t ∈ [Bpfel.ransomware.ransomwareBlockEntry; Bpfeb.ransomware.ransomwareBlockEntry] →
       t = BlockEntryType)
  ∧ (∀ t, t ∈ [Bpfel.ransomware.ransomwareDirKey; Bpfeb.ransomware.ransomwareDirKey] → t = dirKeyType)
  ∧ unpadded BlockEntryType = true ∧ unpadded dirKeyType = true
  ∧ structSize BlockEntryType = 16%nat ∧ structSize dirKeyType = 16%nat.
Proof.
  split_and!; try (vm_compute; reflexivity); [|set_solver..].
  intros el eb arch f Hin Hsel. assert (agree el eb = true) as Ha.
  { revert el eb Hin Hsel. assert (Forall (λ b, agree b.1 b.2 = true) builds) as Hall
      by (repeat constructor; vm_compute; reflexivity).
    rewrite Forall_forall in Hall. intros el eb Hin _. exact (Hall _ Hin). }
  unfold agree, coherent in Ha. rewrite !andb_true_iff, !bool_decide_eq_true in Ha.
  destruct Ha as [[[[[[[[[_ _] Hp1] Hm1] _] Hd1] [[[[[_ _] Hp2] Hm2] _] Hd2]] Hp] Hm] Hdis].
  rewrite fmap_app in Hd1, Hd2. apply NoDup_app in Hd1 as [Hd1 _]. apply NoDup_app in Hd2 as [Hd2 _].
  rewrite Forall_forall in Hdis. unfold selected in Hsel. repeat case_bool_decide; simplify_eq; naive_solver.
Qed.
