(* ===== verification/Interface.v ===== *)
(** * What the sensor promises the agent

    The agent (internal/agent) uses three operations of the sensor
    (internal/sensor).  [SensorOps] names them, over any type of sensor
    states; [SensorLaws] is the contract the theorems about the agent rely
    on.  Sensor.v gives the implementation and discharges it. *)
From S2P Require Import Prelude.

Class SensorOps (K : Type) : Type := {
  (** [true] is a nil error *)
  BlockTGID : Z → Z → Z → M K bool;
  (** [None] is an error *)
  RingbufDrops : M K (option Z);
  CaptureGaps : M K (option Z);
  (** the TGIDs marked in the kernel, with the action taken on them *)
  marked : K → gmap Z Z }.

Class SensorLaws (K : Type) `{SensorOps K} : Prop := {
  (** A successful call marks that TGID, with that action, and no other; it
      is refused for TGID 0. *)
  BlockTGID_ok tgid action ttl n k :
    result (BlockTGID tgid action ttl) n k = true →
    tgid ≠ 0 ∧ marked (after (BlockTGID tgid action ttl) n k) = <[tgid := action]> (marked k);
  (** A failed call marks nothing. *)
  BlockTGID_failed tgid action ttl n k :
    result (BlockTGID tgid action ttl) n k = false →
    marked (after (BlockTGID tgid action ttl) n k) = marked k;
  BlockTGID_advances tgid action ttl : advances (BlockTGID tgid action ttl);
  RingbufDrops_advances : advances RingbufDrops;
  CaptureGaps_advances : advances CaptureGaps;
  (** Reading the counters marks nothing. *)
  RingbufDrops_marked n k : marked (after RingbufDrops n k) = marked k;
  CaptureGaps_marked n k : marked (after CaptureGaps n k) = marked k }.
