(* ===== verification/Sensor.v ===== *)
(** * Kernel maps and enforcement: internal/sensor/sensor.go

    The state of the sensor is the contents of its BPF maps, as user space
    writes them, and what attaching its programs found out about the host.
    [BlockTGID] and its relatives are the sensor's side of the contract of
    Interface.v. *)
From S2P Require Import Prelude GoStrings GoPath GoTime Config World Event Scope Objects Interface.
From S2P Require Import Polling.

(** [runtimeMode] *)
Inductive runtimeMode := Core | LegacyPerf | UltraLegacyMap.
#[export] Instance runtimeMode_eq_dec : EqDecision runtimeMode.
Proof. solve_decision. Defined.

Module BlockEntry.
Record BlockEntry := mkEntry { ExpiresNs : Z; Reason : Z; Action : Z }.
End BlockEntry.
Abbreviation BlockEntry := BlockEntry.BlockEntry.

Module EnforcementCapabilities.
Record EnforcementCapabilities := mkCaps {
  Mode : string; DenyAvailable : bool; DenyOpenat : bool; UserspaceKill : bool;
  LSMHooks : list string; OverrideHooks : list string }.
#[export] Instance eta_caps : Eta EnforcementCapabilities := λ c,
  mkCaps (Mode c) (DenyAvailable c) (DenyOpenat c) (UserspaceKill c) (LSMHooks c) (OverrideHooks c).
End EnforcementCapabilities.
Export (hints) EnforcementCapabilities.
Abbreviation EnforcementCapabilities := EnforcementCapabilities.EnforcementCapabilities.

(** [sensorMaps]: [None] is a nil map.  A map from keys to the byte 1 is the
    set of its keys; [dirKey] is a pair of device and inode. *)
Module sensorMaps.
Record sensorMaps := mkMaps {
  Events : option MapInfo; EventCursor : option MapInfo;
  RingbufDrops : bool; CaptureGaps : bool;
  BlockedTgids : option (gmap Z BlockEntry);
  IocExtensions : option (gset Z); IocRansomNotes : option (gset Z);
  ProtectedDirs : option (gset (Z * Z));
  InlineIOCAction : option Z;
  AllowedCgroups : option (gset Z); CgroupScopeEnabled : option Z;
  SyscallABI : option (gmap Z Z) }.
#[export] Instance eta_maps : Eta sensorMaps := λ m,
  mkMaps (Events m) (EventCursor m) (RingbufDrops m) (CaptureGaps m) (BlockedTgids m) (IocExtensions m) (IocRansomNotes m)
    (ProtectedDirs m) (InlineIOCAction m) (AllowedCgroups m) (CgroupScopeEnabled m) (SyscallABI m).
End sensorMaps.
Export (hints) sensorMaps.
Abbreviation sensorMaps := sensorMaps.sensorMaps.

(** [sensorPrograms]: its fields. *)
Definition sensorPrograms : list string :=
  ["TraceExecve"; "TraceExecSuccess"; "TraceProcessExit"; "TraceOpenat"; "TraceOpenatExit";
   "TraceOpenat2"; "TraceOpenat2Exit"; "TraceWrite"; "TraceWriteExit"; "TracePwrite64";
   "TracePwrite64Exit"; "TraceWritev"; "TraceWritevExit"; "TraceCopyFileRange";
   "TraceGetdents64"; "TraceMmap"; "TraceIoUringEnter"; "TraceConnect"; "TraceClose"; "TraceDup";
   "TraceDupExit"; "TraceDup2"; "TraceDup2Exit"; "TraceDup3"; "TraceDup3Exit"; "TraceFcntl";
   "TraceFcntlExit"; "TraceRename"; "TraceRenameat"; "TraceRenameat2"; "TraceLink";
   "TraceLinkat"; "TraceSymlink"; "TraceSymlinkat"; "TraceUnlink"; "TraceUnlinkat";
   "TraceTruncate"; "TraceFtruncate"; "EnforceFileOpen"; "EnforceFilePermission";
   "EnforcePathTruncate"; "EnforcePathRename"; "EnforceInodeRename"; "EnforcePathMknod";
   "EnforceInodeCreate"; "EnforcePathUnlink"; "EnforceBprmCheckSecurity"; "KpOverrideOpenat";
   "KpOverrideOpen"; "KpRetOpenat"; "KpRetOpen"; "KpOverrideOpenat2"; "KpOverrideRename";
   "KpOverrideRenameat"; "KpOverrideRenameat2"; "KpOverrideLink"; "KpOverrideLinkat";
   "KpOverrideSymlink"; "KpOverrideSymlinkat"; "KpOverrideUnlink"; "KpOverrideUnlinkat";
   "KpOverrideTruncate"; "KpOverrideFtruncate"; "KpOverrideExecve"; "KpOverrideWrite";
   "KpRetWrite"; "KpOverridePwrite64"; "KpRetPwrite64"; "KpOverrideWritev"; "KpRetWritev";
   "KpProcessExit"; "KpOverrideCopyFileRange"; "KpOverrideGetdents64"; "KpOverrideMmap";
   "KpOverrideIoUringEnter"].

(** A program attached to the kernel; a program is named after its field of
    [sensorPrograms]. *)
Inductive Link :=
  | Tracepoint (category name prog : string)
  | Kprobe (symbol prog : string)
  | Kretprobe (symbol prog : string)
  | LSM (prog : string).
#[export] Instance Link_eq_dec : EqDecision Link.
Proof. solve_decision. Defined.

(** [eventReader] and its implementations; the counter of a perf reader is
    its [lost]. *)
Inductive eventReader :=
  | ringbufEventReader
  | perfEventReader (lost : Z)
  | pollingEventReader (r : mapPollingEventReader).

(** [Sensor]; [programs] are the fields of [sensorPrograms] that are not nil. *)
Module Sensor.
Record Sensor := mkSensor {
  closer : Closer; maps : sensorMaps; programs : gset string; links : list Link; reader : option eventReader;
  mode : runtimeMode; capabilities : EnforcementCapabilities }.
#[export] Instance eta_Sensor : Eta Sensor := λ s,
  mkSensor (closer s) (maps s) (programs s) (links s) (reader s) (mode s) (capabilities s).
End Sensor.
Export (hints) Sensor.
Abbreviation Sensor := Sensor.Sensor.

Inductive SensorError :=
  | ErrMapMissing | ErrZeroTGID | ErrUnsupportedAction | ErrDenyUnavailable
  | ErrUptime | ErrMapWrite | ErrKeyNotExist | ErrMapRead.

(** Reading a counter from a kernel map; [None] is an error. *)
Class KernelCounters : Type := counter_Lookup : string → nat → option Z.

Section sensor.
Context `{Unicode} `{World} `{FloatSeconds} `{KernelCounters}.
Import Sensor.
Import sensorMaps.

(** ** Blocking *)
Definition checkBlock (s : Sensor) (tgid action : Z) : option SensorError :=
  match BlockedTgids (maps s) with
  | None => Some ErrMapMissing
  | Some _ =>
      if tgid =? 0 then Some ErrZeroTGID
      else if negb (action =? BlockActionDeny) && negb (action =? BlockActionKill)
      then Some ErrUnsupportedAction
      else if (action =? BlockActionDeny)
              && negb (EnforcementCapabilities.DenyAvailable (capabilities s))
      then Some ErrDenyUnavailable
      else None
  end.

Definition setBlockedTgids (f : gmap Z BlockEntry → gmap Z BlockEntry) (s : Sensor) : Sensor :=
  s <| maps ::= λ m, m <| BlockedTgids ::= fmap f |> |>.

Definition putBlock (tgid : Z) (entry : BlockEntry) : M Sensor (option SensorError) :=
  ok ← ask map_Put_ok;
  if (ok : bool) then modS (setBlockedTgids <[tgid := entry]>) ;; mret None
  else mret (Some ErrMapWrite).

(** [BlockTGID]: the expiry is the uptime plus the TTL, added as durations. *)
Definition BlockTGID (tgid action ttl : Z) : M Sensor (option SensorError) :=
  s ← getS;
  match checkBlock s tgid action with
  | Some err => mret (Some err)
  | None =>
      if 0 <? ttl then
        uptime ← monotonicUptime;
        match uptime with
        | None => mret (Some ErrUptime)
        | Some uptime =>
            putBlock tgid (BlockEntry.mkEntry (uint64 (int64 (uptime + ttl))) BlockReasonPolicy action)
        end
      else putBlock tgid (BlockEntry.mkEntry 0 BlockReasonPolicy action)
  end.

(** [UnblockTGID]: the kernel refuses to delete an absent key. *)
Definition UnblockTGID (tgid : Z) : M Sensor (option SensorError) :=
  s ← getS;
  match BlockedTgids (maps s) with
  | None => mret (Some ErrMapMissing)
  | Some m =>
      if tgid =? 0 then mret (Some ErrZeroTGID)
      else if bool_decide (m !! tgid = None) then mret (Some ErrKeyNotExist)
      else modS (setBlockedTgids (delete tgid)) ;; mret None
  end.

(** ** Counters *)
Definition RingbufDrops : M Sensor (option Z) :=
  s ← getS;
  if sensorMaps.RingbufDrops (maps s) then ask (counter_Lookup "ringbuf_drops") else mret (Some 0).
Definition CaptureGaps : M Sensor (option Z) :=
  s ← getS;
  gaps ← (if sensorMaps.CaptureGaps (maps s) then ask (counter_Lookup "capture_gaps")
          else mret (Some 0));
  mret (gaps ← gaps;
        Some (match reader s with
              | Some (pollingEventReader r) => uint64 (gaps + mapPollingEventReader.lost r)
              | Some (perfEventReader lost) => uint64 (gaps + lost)
              | _ => gaps
              end)).

(** [Capabilities]: the caller gets copies of the slices. *)
Definition Capabilities : M Sensor EnforcementCapabilities := s ← getS; mret (capabilities s).

(** ** Enforcement mode *)
Definition enforcementValue (action : string) : option Z :=
  let action := ToLower (TrimSpace action) in
  if bool_decide (action = "log") then Some 0
  else if bool_decide (action = "deny") then Some BlockActionDeny
  else if bool_decide (action = "kill") then Some BlockActionKill
  else None.
Definition ConfigureEnforcement (action : string) (dryRun : bool) : M Sensor (option SensorError) :=
  match enforcementValue action with
  | None => mret (Some ErrUnsupportedAction)
  | Some value =>
      let value := if dryRun then 0 else value in
      s ← getS;
      match InlineIOCAction (maps s) with
      | None => mret None
      | Some _ =>
          ok ← ask map_Put_ok;
          if (ok : bool)
          then modS (λ s, s <| maps ::= λ m, m <| InlineIOCAction := Some value |> |>) ;; mret None
          else mret (Some ErrMapWrite)
      end
  end.

(** [actionName] of sensor.go *)
Definition sensorActionName (action : Z) : string :=
  if action =? 0 then "observe"
  else if action =? BlockActionDeny then "deny"
  else if action =? BlockActionKill then "kill"
  else unknown_name action.

(** ** Policy sets

    The kernel maps the policy is copied to.  An operation of a map may fail
    at any point and leaves what was done before. *)

(** [clearMap]: the keys are collected first, then deleted one by one.  It
    handles maps with keys of 8 bytes ([uint64], here [Z]) and of 16 ([dirKey],
    here a pair), which are those of the policy; other key sizes, an error in
    the code, do not arise for these types. *)
Fixpoint deleteAll `{Countable A} (keys : list A) : M (gset A) bool :=
  match keys with
  | [] => mret true
  | key :: keys =>
      ok ← ask map_Put_ok;
      if (ok : bool) then modS (λ m, m ∖ {[key]}) ;; deleteAll keys else mret false
  end.
Definition clearMap `{Countable A} : M (gset A) bool :=
  m ← getS;
  ok ← ask map_Put_ok;
  if (ok : bool) then deleteAll (elements m) else mret false.

(** The shared loop of the three [sync] functions: [keyOf] gives the key of an
    entry, if it has one; [seen] are the keys written so far. *)
Fixpoint putAll `{Countable A} (keyOf : string → nat → option A) (seen : gset A) (values : list string)
    : M (gset A) (option (gset A)) :=
  match values with
  | [] => mret (Some seen)
  | value :: values =>
      let value := TrimSpace value in
      if bool_decide (value = "") then putAll keyOf seen values
      else
        key ← ask (keyOf value);
        match key with
        | None => putAll keyOf seen values
        | Some key =>
            if bool_decide (key ∈ seen) then putAll keyOf seen values
            else
              ok ← ask map_Put_ok;
              if (ok : bool) then modS (union {[key]}) ;; putAll keyOf ({[key]} ∪ seen) values
              else mret None
        end
  end.
(** Returns the number of keys written, [None] on an error. *)
Definition syncSet `{Countable A} (keyOf : string → nat → option A) (values : list string)
    : M (gset A) (option nat) :=
  ok ← clearMap;
  if (ok : bool) then seen ← putAll keyOf ∅ values; mret (size <$> seen) else mret None.

(** [iocHash]: FNV-1a of the lower-cased text. *)
Definition fnv_offset : Z := 14695981039346656037.
Definition fnv_prime : Z := 1099511628211.
Definition fnv1a (bs : list Z) : Z :=
  foldl (λ h b, uint64 (Z.lxor h b * fnv_prime)) fnv_offset bs.
Definition iocHash (value : string) : Z := fnv1a (bytes (ToLower value)).

Definition syncHashSet (values : list string) : M (gset Z) (option nat) :=
  syncSet (λ v _, Some (iocHash v)) values.
Definition syncProtectedDirs (dirs : list string) : M (gset (Z * Z)) (option nat) :=
  syncSet (λ dir n, (λ i, (uint64 (FileInfo.Dev i), FileInfo.Ino i)) <$> os_Stat dir n) dirs.

Definition cgroupFSPath (path : string) : string :=
  let path := TrimSpace path in
  if bool_decide (path = "") || bool_decide (path = "/") then "/sys/fs/cgroup"
  else
    let relative := Clean (TrimPrefix path "/") in
    if bool_decide (relative = "..") || HasPrefix relative "../" then ""
    else PathJoin ["/sys/fs/cgroup"; relative].

(** The inode of a cgroup directory, its kernel identifier. *)
Definition cgroupKey (path : string) (n : nat) : option Z :=
  if bool_decide (cgroupFSPath path = "") then None
  else (λ i, uint64 (FileInfo.Ino i)) <$> os_Stat (cgroupFSPath path) n.
(** On the pair of maps: the allowed cgroups and the switch. *)
Definition onAllowed {A} (m : M (gset Z) A) : M (gset Z * Z) A :=
  zoom fst (λ s t, (s, t.2)) m.
Definition putEnabled (value : Z) (count : nat) : M (gset Z * Z) (option nat) :=
  ok ← ask map_Put_ok;
  if (ok : bool) then modS (λ t, (t.1, value)) ;; mret (Some count) else mret None.
Definition syncCgroupScope (paths : list string) : M (gset Z * Z) (option nat) :=
  ok ← onAllowed clearMap;
  if negb ok then mret None
  else if bool_decide (paths = []) then putEnabled 0 0
  else
    seen ← onAllowed (putAll cgroupKey ∅ paths);
    match seen with
    | None => mret None
    | Some seen => putEnabled (if bool_decide (size seen = 0)%nat then 0 else 1) (size seen)
    end.

(** Run an operation of one of the maps; a nil map is an error. *)
Definition onMap {A B} (get : sensorMaps → option A) (put : A → sensorMaps → sensorMaps)
    (m : M A (option B)) : M Sensor (option B) := λ n s,
  match get (maps s) with
  | None => (None, n, s)
  | Some x => let '(r, n', x') := m n x in (r, n', s <| maps ::= put x' |>)
  end.
Definition cgroupMaps (m : sensorMaps) : option (gset Z * Z) :=
  match AllowedCgroups m, CgroupScopeEnabled m with
  | Some a, Some e => Some (a, e)
  | _, _ => None
  end.

(** [ConfigurePolicy]: whether all four syncs succeed; it stops at the first
    that does not. *)
Definition ConfigurePolicy (p : Policy) : M Sensor bool :=
  extensions ← onMap IocExtensions (λ x m, m <| IocExtensions := Some x |>)
                 (syncHashSet (Policy.SuspiciousExtensions p));
  if bool_decide (extensions = None) then mret false
  else
    notes ← onMap IocRansomNotes (λ x m, m <| IocRansomNotes := Some x |>)
              (syncHashSet (Policy.RansomNoteNames p));
    if bool_decide (notes = None) then mret false
    else
      protected ← onMap ProtectedDirs (λ x m, m <| ProtectedDirs := Some x |>)
                    (syncProtectedDirs (Policy.ProtectedDirs p));
      if bool_decide (protected = None) then mret false
      else
        cgroups ← onMap cgroupMaps (λ x m, m <| AllowedCgroups := Some x.1 |>
                                             <| CgroupScopeEnabled := Some x.2 |>)
                    (syncCgroupScope (Policy.CgroupPaths p));
        mret (bool_decide (cgroups ≠ None)).

(** ** The agent's view of the sensor *)
#[export] Instance Sensor_ops : SensorOps Sensor := {|
  Interface.BlockTGID tgid action ttl :=
    err ← BlockTGID tgid action ttl; mret (bool_decide (err = None));
  Interface.RingbufDrops := RingbufDrops;
  Interface.CaptureGaps := CaptureGaps;
  Interface.marked s := match BlockedTgids (maps s) with
                        | Some m => BlockEntry.Action <$> m
                        | None => ∅
                        end |}.

(** What a call of [BlockTGID] does, case by case. *)
Lemma BlockTGID_spec tgid action ttl n s :
  let '(err, n', s') := BlockTGID tgid action ttl n s in
  match err with
  | None => checkBlock s tgid action = None
      ∧ ∃ expires, s' = setBlockedTgids <[tgid := BlockEntry.mkEntry expires BlockReasonPolicy action]> s
                 ∧ (ttl ≤ 0 → expires = 0)
  | Some e => s' = s ∧ (checkBlock s tgid action = Some e
                        ∨ checkBlock s tgid action = None ∧ (e = ErrMapWrite ∨ e = ErrUptime ∧ 0 < ttl))
  end.
Proof.
  unfold BlockTGID, mbind, M_bind, getS. destruct (checkBlock s tgid action) as [e|]; [by split; [|left]|].
  assert (∀ m expires, (ttl ≤ 0 → expires = 0) →
    let '(err, n', s') := putBlock tgid (BlockEntry.mkEntry expires BlockReasonPolicy action) m s in
    match err with
    | None => (None : option SensorError) = None ∧ ∃ expires, s' = setBlockedTgids
        <[tgid := BlockEntry.mkEntry expires BlockReasonPolicy action]> s ∧ (ttl ≤ 0 → expires = 0)
    | Some e => s' = s ∧ (None = Some e ∨ (None : option SensorError) = None
                          ∧ (e = ErrMapWrite ∨ e = ErrUptime ∧ 0 < ttl))
    end) as Hput.
  { intros m expires He. unfold putBlock, mbind, M_bind, ask. destruct (map_Put_ok m); cbn; eauto 10. }
  destruct (Z.ltb_spec 0 ttl); [|by apply Hput].
  unfold monotonicUptime, mbind, M_bind, ask. cbn.
  destruct (os_ReadFile "/proc/uptime" n) as [data|]; cbn; [|by eauto 10].
  destruct (Fields data) as [|x l]; cbn; [by eauto 10|].
  destruct (parse_seconds x); [|cbn; by eauto 10]. apply Hput. lia.
Qed.

Lemma checkBlock_None s tgid action :
  checkBlock s tgid action = None →
  is_Some (BlockedTgids (maps s)) ∧ tgid ≠ 0
  ∧ (action = BlockActionKill
     ∨ action = BlockActionDeny ∧ EnforcementCapabilities.DenyAvailable (capabilities s) = true).
Proof.
  unfold checkBlock. destruct (BlockedTgids (maps s)); [|done].
  destruct (Z.eqb_spec tgid 0); [done|]. destruct (Z.eqb_spec action BlockActionDeny),
    (Z.eqb_spec action BlockActionKill); cbn; try done; destruct (EnforcementCapabilities.DenyAvailable _); naive_solver.
Qed.

(** The contract of Interface.v holds of the sensor. *)
#[export] Instance Sensor_laws : SensorLaws Sensor.
Proof.
  assert (∀ m : M Sensor (option Z), (∀ n s, after m n s = s) →
    ∀ n s, marked (after m n s) = marked s) as Hpure by (intros m Hm n s; by rewrite Hm).
  split.
  - intros tgid action ttl n s. pose proof (BlockTGID_spec tgid action ttl n s) as Hs.
    unfold result, after, Interface.BlockTGID, marked, Sensor_ops, mbind, M_bind.
    destruct (BlockTGID tgid action ttl n s) as [[[e|] n'] s']; cbn; [done|]. intros _.
    destruct Hs as (Hc & expires & -> & _). apply checkBlock_None in Hc as ([m Hm] & Ht & _).
    split; [done|]. cbn. rewrite Hm. cbn. by rewrite fmap_insert.
  - intros tgid action ttl n s. pose proof (BlockTGID_spec tgid action ttl n s) as Hs.
    unfold result, after, Interface.BlockTGID, marked, Sensor_ops, mbind, M_bind.
    destruct (BlockTGID tgid action ttl n s) as [[[e|] n'] s']; cbn; [|done]. intros _.
    by destruct Hs as [-> _].
  - intros tgid action ttl. unfold Interface.BlockTGID, Sensor_ops, BlockTGID, putBlock, monotonicUptime. advances_auto.
  - unfold Interface.RingbufDrops, Sensor_ops, RingbufDrops. advances_auto.
  - unfold Interface.CaptureGaps, Sensor_ops, CaptureGaps. advances_auto.
  - apply Hpure. intros n s. unfold after, Interface.RingbufDrops, Sensor_ops, RingbufDrops, mbind, M_bind, getS.
    by case_match.
  - apply Hpure. intros n s. unfold after, Interface.CaptureGaps, Sensor_ops, CaptureGaps, mbind, M_bind, getS.
    by destruct (sensorMaps.CaptureGaps (maps s)).
Qed.

(** blocking a process writes exactly one entry of the kernel map, with the
    policy reason, the action asked for and, without a TTL, no expiry; it does
    so only for a real TGID and an action the host can carry out, and an error
    leaves every map as it was. *)
Theorem BlockTGID_effect tgid action ttl n s :
  let '(err, _, s') := BlockTGID tgid action ttl n s in
  match err with
  | Some _ => s' = s
  | None => tgid ≠ 0
      ∧ (action = BlockActionKill
         ∨ action = BlockActionDeny ∧ EnforcementCapabilities.DenyAvailable (capabilities s) = true)
      ∧ ∃ m expires, BlockedTgids (maps s) = Some m
        ∧ s' = s <| maps ::= λ x, x <| BlockedTgids :=
                 Some (<[tgid := BlockEntry.mkEntry expires BlockReasonPolicy action]> m) |> |>
        ∧ (ttl ≤ 0 → expires = 0)
  end.
Proof.
  pose proof (BlockTGID_spec tgid action ttl n s) as Hs.
  destruct (BlockTGID tgid action ttl n s) as [[[e|] n'] s']; [by destruct Hs|].
  destruct Hs as (Hc & expires & -> & He). apply checkBlock_None in Hc as ([m Hm] & ? & ?).
  split_and!; [done|done|]. exists m, expires. split_and!; [done| |done].
  unfold setBlockedTgids. destruct s as [? mp ? ? ? ? ?]. cbn in *. by rewrite Hm.
Qed.

Lemma unblock_after_block tgid action ttl n s m :
  BlockedTgids (maps s) = Some m → result (BlockTGID tgid action ttl) n s = None →
  ∃ s' n', UnblockTGID tgid n' (after (BlockTGID tgid action ttl) n s) = (None, n', s')
    ∧ BlockedTgids (maps s') = Some (delete tgid m).
Proof.
  intros Hm. pose proof (BlockTGID_spec tgid action ttl n s) as Hs. unfold result, after.
  destruct (BlockTGID tgid action ttl n s) as [[err n'] s']. cbn. intros ->.
  destruct Hs as (Hc & expires & -> & _). apply checkBlock_None in Hc as (_ & Ht & _).
  set (s1 := setBlockedTgids _ s).
  assert (BlockedTgids (maps s1) = Some (<[tgid := BlockEntry.mkEntry expires BlockReasonPolicy action]> m))
    as Hs1 by (unfold s1; destruct s; cbn in *; by rewrite Hm).
  exists (setBlockedTgids (delete tgid) s1), 0%nat.
  unfold UnblockTGID, mbind, M_bind, getS. rewrite Hs1. apply Z.eqb_neq in Ht.
  rewrite Ht, lookup_insert_eq. split; [done|].
  transitivity (delete tgid <$> BlockedTgids (maps s1)); [done|]. rewrite Hs1. cbn.
  by rewrite delete_insert_eq.
Qed.

(** ** Set synchronisation *)
Lemma deleteAll_spec `{Countable A} (keys : list A) n m :
  let '(ok, n', m') := deleteAll keys n m in ok = true → m' = m ∖ list_to_set keys.
Proof.
  revert n m. induction keys as [|k keys IH]; intros n m; cbn.
  { intros _. set_solver. }
  unfold mbind, M_bind, ask. destruct (map_Put_ok n); [|done]. cbn.
  specialize (IH (S n) (m ∖ {[k]})). destruct (deleteAll keys (S n) _) as [[ok n'] m'].
  intros Hok. rewrite (IH Hok). set_solver.
Qed.
Lemma clearMap_spec `{Countable A} n (m : gset A) :
  let '(ok, n', m') := clearMap n m in ok = true → m' = ∅.
Proof.
  unfold clearMap, mbind, M_bind, getS, ask. destruct (map_Put_ok n); [|done].
  pose proof (deleteAll_spec (elements m) (S n) m) as Hd.
  destruct (deleteAll (elements m) (S n) m) as [[ok n'] m']. intros Hok. rewrite (Hd Hok). set_solver.
Qed.

(** [key] is the key some entry of [values] had when it was looked up at a
    query between [n] and [n']. *)
Definition key_of_some {A} (keyOf : string → nat → option A) (values : list string) (n n' : nat)
    (key : A) : Prop :=
  ∃ v j, v ∈ values ∧ TrimSpace v ≠ "" ∧ (n ≤ j < n')%nat ∧ keyOf (TrimSpace v) j = Some key.
(** Every entry that is not blank was looked up once, and its key, if it had
    one, is in [s]. *)
Definition keys_in {A} `{Countable A} (keyOf : string → nat → option A) (values : list string)
    (n n' : nat) (s : gset A) : Prop :=
  ∀ v, v ∈ values → TrimSpace v ≠ "" →
    ∃ j, (n ≤ j < n')%nat ∧ ∀ key, keyOf (TrimSpace v) j = Some key → key ∈ s.

Lemma key_of_some_mono {A} (keyOf : string → nat → option A) v values n m n' key :
  (n ≤ m)%nat → key_of_some keyOf values m n' key → key_of_some keyOf (v :: values) n n' key.
Proof. intros ? (x & j & ? & ? & ? & ?). exists x, j. split_and!; [set_solver|done|lia|lia|done]. Qed.
Lemma keys_in_cons `{Countable A} (keyOf : string → nat → option A) v values n m n' s :
  (n ≤ m)%nat → keys_in keyOf values m n' s →
  (TrimSpace v ≠ "" → ∃ j, (n ≤ j < n')%nat ∧ ∀ key, keyOf (TrimSpace v) j = Some key → key ∈ s) →
  keys_in keyOf (v :: values) n n' s.
Proof.
  intros Hle Hk Hv x [->|Hx]%elem_of_cons Hne; [by apply Hv|].
  destruct (Hk x Hx Hne) as (j & ? & ?). exists j. split; [lia|done].
Qed.

Lemma putAll_spec `{Countable A} (keyOf : string → nat → option A) seen values n :
  let '(r, n', m') := putAll keyOf seen values n seen in
  (n ≤ n')%nat ∧ ∀ s, r = Some s →
    m' = s ∧ seen ⊆ s ∧ (∀ key, key ∈ s → key ∈ seen ∨ key_of_some keyOf values n n' key)
    ∧ keys_in keyOf values n n' s.
Proof.
  revert seen n. induction values as [|v values IH]; intros seen n; cbn [putAll].
  { cbn. split; [lia|]. intros s [= <-]. split_and!; try done; [eauto|]. intros v Hv. set_solver. }
  cbv zeta. case_bool_decide as Hb.
  { specialize (IH seen n). destruct (putAll keyOf seen values n seen) as [[r n'] m'].
    destruct IH as [Hle IH]. split; [done|]. intros s Hs. destruct (IH s Hs) as (-> & ? & Hk & Hi).
    split_and!; [done|done| |eapply keys_in_cons; [|exact Hi|]; [lia|done]].
    intros key [?|?]%Hk; [by left|right; eapply key_of_some_mono; [|done]; lia]. }
  unfold mbind, M_bind, ask. destruct (keyOf (TrimSpace v) n) as [key|] eqn:Hkey.
  - case_bool_decide as Hin.
    + specialize (IH seen (S n)). destruct (putAll keyOf seen values (S n) seen) as [[r n'] m'].
      destruct IH as [Hle IH]. split; [lia|]. intros s Hs. destruct (IH s Hs) as (-> & ? & Hk & Hi).
      split_and!; [done|done| |].
      * intros key' [?|?]%Hk; [by left|right; eapply key_of_some_mono; [|done]; lia].
      * eapply keys_in_cons; [|done|]; [lia|]. intros _. exists n. split; [lia|].
        intros key'. rewrite Hkey. intros [= <-]. set_solver.
    + destruct (map_Put_ok (S n)); [|split; [lia|done]].
      specialize (IH ({[key]} ∪ seen) (S (S n))). cbn.
      destruct (putAll keyOf ({[key]} ∪ seen) values (S (S n)) ({[key]} ∪ seen)) as [[r n'] m'].
      destruct IH as [Hle IH]. split; [lia|]. intros s Hs. destruct (IH s Hs) as (-> & ? & Hk & Hi).
      split_and!; [done|set_solver| |].
      * intros key' [[->%elem_of_singleton|?]%elem_of_union|?]%Hk; [|by left|].
        -- right. exists v, n. split_and!; [set_solver|done|lia|lia|done].
        -- right. eapply key_of_some_mono; [|done]. lia.
      * eapply keys_in_cons; [|done|]; [lia|]. intros _. exists n. split; [lia|].
        intros key'. rewrite Hkey. intros [= <-]. set_solver.
  - specialize (IH seen (S n)). destruct (putAll keyOf seen values (S n) seen) as [[r n'] m'].
    destruct IH as [Hle IH]. split; [lia|]. intros s Hs. destruct (IH s Hs) as (-> & ? & Hk & Hi).
    split_and!; [done|done| |].
    + intros key' [?|?]%Hk; [by left|right; eapply key_of_some_mono; [|done]; lia].
    + eapply keys_in_cons; [|done|]; [lia|]. intros _. exists n. split; [lia|]. by rewrite Hkey.
Qed.

Lemma clearMap_advances `{Countable A} : advances (clearMap (A := A)).
Proof.
  unfold clearMap. apply advances_bind; [apply advances_get|]. intros m. apply advances_bind; [apply advances_ask|].
  intros []; [|apply advances_ret]. induction (elements m) as [|key keys IH]; cbn [deleteAll]; advances_auto.
Qed.
Lemma syncSet_spec `{Countable A} (keyOf : string → nat → option A) values n m count n' m' :
  syncSet keyOf values n m = (Some count, n', m') →
  count = size m' ∧ (∀ key, key ∈ m' → key_of_some keyOf values n n' key) ∧ keys_in keyOf values n n' m'.
Proof.
  unfold syncSet, mbind, M_bind. pose proof (clearMap_spec n m) as Hc. pose proof (clearMap_advances n m) as Hn.
  destruct (clearMap n m) as [[[|] n1] m1]; [|done]. cbn in Hn. rewrite (Hc eq_refl).
  pose proof (putAll_spec keyOf ∅ values n1) as Hp.
  destruct (putAll keyOf ∅ values n1 ∅) as [[[s|] n2] m2]; [|done]. cbn. intros [= <- <- <-].
  destruct Hp as [_ Hp]. destruct (Hp s eq_refl) as (-> & _ & Hk & Hi). split_and!; [done| |].
  - intros key [?|(v & j & ? & ? & ? & ?)]%Hk; [set_solver|]. exists v, j. split_and!; [done|done|lia|lia|done].
  - intros v Hv Hne. destruct (Hi v Hv Hne) as (j & ? & ?). exists j. split; [lia|done].
Qed.

(** C33: After a successful sync, whatever a map held before, it holds exactly the
    keys of the non-blank entries of the policy (hashes, directories), as they
    were looked up during the sync, and the count reported is its size. *)
Theorem syncSet_exact `{Countable A} (keyOf : string → nat → option A) values n m count n' m' :
  syncSet keyOf values n m = (Some count, n', m') →
  count = size m' ∧ (∀ key, key ∈ m' → key_of_some keyOf values n n' key) ∧ keys_in keyOf values n n' m'.
Proof. apply syncSet_spec. Qed.

(** For the hash sets the keys do not depend on the outside world. *)
Lemma syncHashSet_keys values n m count :
  result (syncHashSet values) n m = Some count →
  ∀ h, h ∈ after (syncHashSet values) n m ↔
    ∃ v, v ∈ values ∧ TrimSpace v ≠ "" ∧ h = iocHash (TrimSpace v).
Proof.
  unfold result, after, syncHashSet. intros Hr h. pose proof (syncSet_spec (λ v _, Some (iocHash v)) values n m count) as Hs.
  destruct (syncSet _ values n m) as [[r n'] m']. cbn in Hr. subst r. destruct (Hs _ _ eq_refl) as (_ & Hk & Hi). split.
  - intros Hh. destruct (Hk h Hh) as (v & j & ? & ? & _ & [= <-]). eauto.
  - intros (v & Hv & Hne & ->). destruct (Hi v Hv Hne) as (j & _ & Hj). by apply Hj.
Qed.

(** ** The cgroup scope *)

(** C34: a configured cgroup path never leaves the cgroup file system: the
    directory whose identifier is put in the kernel map is the mount point or
    lies below it, whatever [..], [.] or repeated slashes the path contains. *)
Theorem cgroupFSPath_contained path :
  cgroupFSPath path ≠ "" → contains "/sys/fs/cgroup" (cgroupFSPath path).
Proof.
  unfold cgroupFSPath. set (q := TrimPrefix (TrimSpace path) "/").
  destruct (bool_decide (TrimSpace path = "") || bool_decide (TrimSpace path = "/")).
  { intros _. split; [done|split; [done|by left]]. }
  destruct (bool_decide (Clean q = "..") || HasPrefix (Clean q) "../") eqn:Hout; [done|]. intros _.
  apply orb_false_iff in Hout as [Hdd%bool_decide_eq_false Hpre].
  assert (IsAbs q = true ∨ head (components q) ≠ Some "..") as Hq.
  { destruct (IsAbs q) eqn:Ha; [by left|right]. intros Hh.
    destruct (Clean_outside q Ha Hh) as [?|Hp]; [done|]. by rewrite Hp in Hpre. }
  change (PathJoin ["/sys/fs/cgroup"; Clean q])
    with (Clean ("/" +:+ Join "/" ["sys"; "fs"; "cgroup"] +:+ "/" +:+ Clean q)).
  split; [by rewrite IsAbs_Clean|split; [|by left]].
  rewrite components_Clean, components_below; [by exists (components q)| |done].
  repeat constructor; done.
Qed.

(** C37: cgroup paths that are configured but do not resolve while they are
    looked up, as when the cgroups do not exist yet or the paths lead out of
    the cgroup file system, leave the scope switched off: the kernel map is
    empty and its switch 0, as for a policy without cgroup paths, so the
    kernel side filters nothing. *)
Theorem unresolved_scope_disables_filter paths n t :
  let '(res, n', t') := syncCgroupScope paths n t in
  (∀ path j, path ∈ paths → TrimSpace path ≠ "" → (n ≤ j < n')%nat →
     cgroupFSPath (TrimSpace path) = "" ∨ os_Stat (cgroupFSPath (TrimSpace path)) j = None) →
  ∀ count, res = Some count → count = 0%nat ∧ t' = (∅, 0).
Proof.
  unfold syncCgroupScope, onAllowed, zoom, mbind, M_bind.
  pose proof (clearMap_spec n t.1) as Hc. pose proof (clearMap_advances n t.1) as Hn.
  destruct (clearMap n t.1) as [[[|] n1] m1]; [|done]. cbn in Hn |- *. rewrite (Hc eq_refl).
  unfold putEnabled, mbind, M_bind, ask. case_bool_decide.
  { cbn. destruct (map_Put_ok n1); [|done]. by intros _ count [= <-]. }
  cbn. pose proof (putAll_spec cgroupKey ∅ paths n1) as Hp.
  destruct (putAll cgroupKey ∅ paths n1 ∅) as [[[s|] n2] m2]; [|done]. cbn.
  destruct Hp as [_ Hp]. destruct (Hp s eq_refl) as (-> & _ & Hk & _). clear Hp.
  destruct (map_Put_ok n2); [|done]. cbn. intros Hun count [= <-].
  assert (s = ∅) as ->; [|by rewrite size_empty].
  apply set_eq. intros key. split; [|set_solver]. intros [?|(v & j & Hv & Hne & Hj & Hkey)]%Hk; [done|].
  destruct (Hun v j Hv Hne) as [He|He]; [lia| |]; unfold cgroupKey in Hkey; rewrite He in Hkey; [done|].
  by case_bool_decide.
Qed.

(** the kernel's inline action after a successful configuration: none in
    dry-run mode and for action ["log"], else the configured one; a host
    without that map is left alone and an unknown action changes nothing. *)
Theorem ConfigureEnforcement_effect action dryRun n s :
  let '(err, _, s') := ConfigureEnforcement action dryRun n s in
  match err with
  | Some _ => s' = s
  | None => ∃ value, enforcementValue action = Some value
      ∧ s' = match InlineIOCAction (maps s) with
             | None => s
             | Some _ => s <| maps ::= λ m, m <| InlineIOCAction :=
                           Some (if dryRun then 0 else value) |> |>
             end
  end.
Proof.
  unfold ConfigureEnforcement. destruct (enforcementValue action) as [value|]; [|done].
  unfold mbind, M_bind, getS, ask. destruct (InlineIOCAction (maps s)); cbn; [|eauto].
  destruct (map_Put_ok n); cbn; eauto.
Qed.
End sensor.
