(* ===== verification/Loading.v ===== *)
(** * Choosing and loading the BPF objects: internal/sensor/sensor.go

    Which runtime modes are tried, which programs and maps each mode has, and
    how a collection is loaded with its optional programs one by one.  A
    program of a collection is known by its name; loading itself, which
    github.com/cilium/ebpf does, is an oracle. *)
From S2P Require Import Prelude GoStrings GoPath GoTime Config World Event Scope Objects Interface.
From S2P Require Import Polling Sensor.

(** ** Runtime modes *)
Definition modeName (m : runtimeMode) : string :=
  match m with Core => "core" | LegacyPerf => "legacy_perf" | UltraLegacyMap => "ultra_legacy_map" end.

Section modes.
Context `{Unicode}.
(** [None] is the error for an unsupported value. *)
Definition sensorModeCandidates (modeValue : string) : option (list runtimeMode) :=
  let mode := ToLower (TrimSpace modeValue) in
  if bool_decide (mode = "") || bool_decide (mode = "auto")
  then Some [Core; LegacyPerf; UltraLegacyMap]
  else if bool_decide (mode = "core") then Some [Core]
  else if bool_decide (mode = "legacy_perf") then Some [LegacyPerf]
  else if bool_decide (mode = "ultra_legacy_map") then Some [UltraLegacyMap]
  else if bool_decide (mode = "legacy") then Some [LegacyPerf]
  else None.

(** [objectLoaders], over any type of loaded objects and of states. *)
Context {S L E : Type}.
Record objectLoaders := mkLoaders {
  core : M S (E + L); legacyPerf : M S (E + L); ultraLegacyMap : M S (E + L) }.
Definition loadSensorObjectsAuto (loaders : objectLoaders) : M S (E + L) :=
  core ← core loaders;
  match core with
  | inr core => mret (inr core)
  | inl _ =>
      legacy ← legacyPerf loaders;
      match legacy with
      | inr legacy => mret (inr legacy)
      | inl _ => ultraLegacyMap loaders
      end
  end.
(** [unsupported] is the error for another value. *)
Definition loadSensorObjectsWith (unsupported : E) (modeValue : string) (loaders : objectLoaders)
    : M S (E + L) :=
  let mode := ToLower (TrimSpace modeValue) in
  if bool_decide (mode = "") || bool_decide (mode = "auto") then loadSensorObjectsAuto loaders
  else if bool_decide (mode = "core") then core loaders
  else if bool_decide (mode = "legacy_perf") || bool_decide (mode = "legacy") then legacyPerf loaders
  else if bool_decide (mode = "ultra_legacy_map") then ultraLegacyMap loaders
  else mret (inl unsupported).
End modes.
Arguments objectLoaders : clear implicits.

(** ** Maps and programs of a mode

    The generated object of a mode has some of the maps and programs; the
    fields of [sensorMaps] and [sensorPrograms] it lacks stay nil. *)
Definition coreMaps (objs : sensorMaps) : sensorMaps :=
  objs <| sensorMaps.EventCursor := None |> <| sensorMaps.SyscallABI := None |>.
Definition legacyPerfMaps (objs : sensorMaps) : sensorMaps :=
  objs <| sensorMaps.EventCursor := None |> <| sensorMaps.SyscallABI := None |>
       <| sensorMaps.InlineIOCAction := None |>.
Definition ultraLegacyMapMaps (objs : sensorMaps) : sensorMaps :=
  objs <| sensorMaps.InlineIOCAction := None |>.

Definition coreProgramFields : list string :=
  ["TraceExecve"; "TraceExecSuccess"; "TraceProcessExit"; "TraceOpenat"; "TraceOpenatExit";
   "TraceOpenat2"; "TraceOpenat2Exit"; "TraceWrite"; "TraceWriteExit"; "TracePwrite64";
   "TracePwrite64Exit"; "TraceWritev"; "TraceWritevExit"; "TraceCopyFileRange";
   "TraceGetdents64"; "TraceMmap"; "TraceIoUringEnter"; "TraceConnect"; "TraceClose";
   "TraceDup"; "TraceDupExit"; "TraceDup2"; "TraceDup2Exit"; "TraceDup3"; "TraceDup3Exit";
   "TraceFcntl"; "TraceFcntlExit"; "TraceRename"; "TraceRenameat"; "TraceRenameat2";
   "TraceLink"; "TraceLinkat"; "TraceSymlink"; "TraceSymlinkat"; "TraceUnlink";
   "TraceUnlinkat"; "TraceTruncate"; "TraceFtruncate"; "EnforceFileOpen";
   "EnforceFilePermission"; "EnforcePathTruncate"; "EnforcePathRename"; "EnforceInodeRename";
   "EnforcePathMknod"; "EnforceInodeCreate"; "EnforcePathUnlink"; "EnforceBprmCheckSecurity";
   "KpOverrideOpenat"; "KpOverrideOpenat2"; "KpOverrideRename"; "KpOverrideRenameat";
   "KpOverrideRenameat2"; "KpOverrideLink"; "KpOverrideLinkat"; "KpOverrideSymlink";
   "KpOverrideSymlinkat"; "KpOverrideUnlink"; "KpOverrideUnlinkat"; "KpOverrideTruncate";
   "KpOverrideFtruncate"; "KpOverrideExecve"; "KpOverrideWrite"; "KpOverridePwrite64";
   "KpOverrideWritev"; "KpOverrideCopyFileRange"; "KpOverrideGetdents64"; "KpOverrideMmap";
   "KpOverrideIoUringEnter"].
Definition legacyPerfProgramFields : list string :=
  ["TraceExecve"; "TraceExecSuccess"; "TraceProcessExit"; "TraceOpenat"; "TraceOpenatExit";
   "TraceOpenat2"; "TraceOpenat2Exit"; "TraceWrite"; "TraceWriteExit"; "TracePwrite64";
   "TracePwrite64Exit"; "TraceWritev"; "TraceWritevExit"; "TraceCopyFileRange";
   "TraceGetdents64"; "TraceMmap"; "TraceIoUringEnter"; "TraceConnect"; "TraceClose";
   "TraceDup"; "TraceDupExit"; "TraceDup2"; "TraceDup2Exit"; "TraceDup3"; "TraceDup3Exit";
   "TraceFcntl"; "TraceFcntlExit"; "TraceRename"; "TraceRenameat"; "TraceRenameat2";
   "TraceLink"; "TraceLinkat"; "TraceSymlink"; "TraceSymlinkat"; "TraceUnlink";
   "TraceUnlinkat"; "TraceTruncate"; "TraceFtruncate"; "KpOverrideOpenat"; "KpOverrideOpenat2";
   "KpOverrideRename"; "KpOverrideRenameat"; "KpOverrideRenameat2"; "KpOverrideLink";
   "KpOverrideLinkat"; "KpOverrideSymlink"; "KpOverrideSymlinkat"; "KpOverrideUnlink";
   "KpOverrideUnlinkat"; "KpOverrideTruncate"; "KpOverrideFtruncate"; "KpOverrideExecve";
   "KpOverrideWrite"; "KpOverridePwrite64"; "KpOverrideWritev"; "KpOverrideCopyFileRange";
   "KpOverrideGetdents64"; "KpOverrideMmap"; "KpOverrideIoUringEnter"].
Definition ultraLegacyProgramFields : list string :=
  ["KpOverrideOpen"; "KpOverrideOpenat"; "KpRetOpen"; "KpRetOpenat"; "KpOverrideRename";
   "KpOverrideLink"; "KpOverrideSymlink"; "KpOverrideUnlink"; "KpOverrideTruncate";
   "KpOverrideFtruncate"; "KpOverrideExecve"; "KpOverrideWrite"; "KpRetWrite";
   "KpOverridePwrite64"; "KpRetPwrite64"; "KpOverrideWritev"; "KpRetWritev"; "KpProcessExit"].
Definition corePrograms (objs : gset string) : gset string := objs ∩ list_to_set coreProgramFields.
Definition legacyPerfPrograms (objs : gset string) : gset string :=
  objs ∩ list_to_set legacyPerfProgramFields.
Definition ultraLegacyMapPrograms (objs : gset string) : gset string :=
  objs ∩ list_to_set ultraLegacyProgramFields.

Definition validateUltraLegacyArchitecture (arch : string) : bool := bool_decide (arch = "amd64").

(** ** Collections *)

(** [pathRenameVariant]: the program for a hook with so many parameters. *)
Definition pathRenameVariant (parameterCount : Z) : string :=
  if parameterCount =? 4 then "enforce_path_rename_legacy"
  else if parameterCount =? 5 then "enforce_path_rename" else "".
(** [parameters] is the number of parameters of the hook in the kernel's type
    information, [None] if it is not there.  A collection maps the names of
    its programs to whether they are LSM programs. *)
Definition selectPathRenameVariant (spec : gmap string bool) (parameters : option Z) : gmap string bool :=
  if bool_decide (spec !! "enforce_path_rename_legacy" = None) then spec
  else
    let selected := match parameters with Some n => pathRenameVariant n | None => "" end in
    foldl (λ spec name, if bool_decide (name = selected) then spec else delete name spec) spec
      ["enforce_path_rename"; "enforce_path_rename_legacy"].

(** [sort.Strings]: by bytes. *)
Definition string_le (a b : string) : Prop := String.leb a b = true.
#[export] Instance string_le_dec : RelDecision string_le.
Proof. unfold RelDecision, string_le. apply _. Defined.
Definition sortStrings (l : list string) : list string := merge_sort string_le l.
Definition optionalProgram (kv : string * bool) : bool := kv.2 || HasPrefix kv.1 "kp_override_".

(** [load] answers for a set of programs loaded together with the number of
    handles of the collection, [None] is an error.  The state is the number of
    handles that are open. *)
Section grouped.
Context (load : gset string → nat → option nat).
Fixpoint loadOptional (names : list string) (bundle : collectionBundle) : M nat collectionBundle :=
  match names with
  | [] => mret bundle
  | name :: names =>
      loaded ← ask (load {[name]});
      match loaded with
      | None => loadOptional names bundle
      | Some k =>
          modS (Nat.add k) ;;
          loadOptional names (mkBundle (collections bundle ++ [k]) ({[name]} ∪ bundlePrograms bundle))
      end
  end.
Definition loadGroupedCollections (spec : gmap string bool) : M nat (option collectionBundle) :=
  let optional := (filter (λ kv, optionalProgram kv = true) (map_to_list spec)).*1 in
  let base := dom (filter (λ kv, optionalProgram kv = false) spec) in
  core ← ask (load base);
  match core with
  | None => mret None
  | Some k =>
      modS (Nat.add k) ;;
      bundle ← loadOptional (sortStrings optional) (mkBundle [k] base);
      mret (Some bundle)
  end.
End grouped.
(** [bindAvailableObjects]: the fields whose [ebpf] tag names a loaded program. *)
Definition bindAvailableObjects (tags : list (string * string)) (programs : gset string) : gset string :=
  list_to_set (filter (λ t, t.1 ∈ programs) tags).*2.
(** The tail of [loadCoreSensorObjects]: the selected rename variant is bound
    to the one field there is. *)
Definition bindCore (tags : list (string * string)) (programs : gset string) : gset string :=
  let objs := bindAvailableObjects tags programs in
  if bool_decide ("enforce_path_rename_legacy" ∈ programs)
  then {["EnforcePathRename"]} ∪ objs else objs.

(** ** Theorems *)

(** A base that loads is in the bundle whole, and an optional program is in it
    exactly when it was accepted on its own; the bundle has the handles that
    were opened. *)
Lemma loadOptional_spec load names bundle n open :
  let '(b, _, open') := loadOptional load names bundle n open in
  bundlePrograms bundle ⊆ bundlePrograms b
  ∧ (open' + handles (BundleCloser bundle) = open + handles (BundleCloser b))%nat
  ∧ (∀ p, p ∈ bundlePrograms b → p ∈ bundlePrograms bundle ∨ p ∈ names ∧ ∃ j, is_Some (load {[p]} j))
  ∧ (∀ p, p ∈ names → (∀ j, is_Some (load {[p]} j)) → p ∈ bundlePrograms b).
Proof.
  revert bundle n open. induction names as [|x names IH]; intros bundle n open; cbn [loadOptional].
  { cbn. split_and!; [done|lia|by left|set_solver]. }
  unfold mbind, M_bind, ask. destruct (load {[x]} n) as [k|] eqn:Hx.
  - set (bundle' := mkBundle _ _). specialize (IH bundle' (S n) (k + open)%nat). cbn [modS].
    unfold modS. destruct (loadOptional load names _ (S n) _) as [[b n'] open'].
    destruct IH as (Hs & Hk & Hf & Hb). split_and!; [set_solver| | |].
    + cbn [handles] in *. unfold bundle' in Hk. cbn [collections] in Hk. rewrite sum_list_with_app in Hk. cbn in Hk. lia.
    + intros p Hp. destruct (Hf p Hp) as [Hq|[Hq Hl]]; [|set_solver].
      apply elem_of_union in Hq as [->%elem_of_singleton|?]; [right; split; [set_solver|eauto]|by left].
    + intros p [->|Hp]%elem_of_cons Hl; [set_solver|by apply Hb].
  - specialize (IH bundle (S n) open). destruct (loadOptional load names bundle (S n) open) as [[b n'] open'].
    destruct IH as (Hs & Hk & Hf & Hb). split_and!; [done|done| |].
    + intros p Hp. destruct (Hf p Hp) as [?|[? ?]]; [by left|set_solver].
    + intros p [->|Hp]%elem_of_cons Hl; [by destruct (Hl n) as [? ?]; simplify_eq|by apply Hb].
Qed.

Lemma elem_optional spec p :
  p ∈ (filter (λ kv, optionalProgram kv = true) (map_to_list spec)).*1 ↔
  ∃ lsm, spec !! p = Some lsm ∧ optionalProgram (p, lsm) = true.
Proof.
  rewrite list_elem_of_fmap. split.
  - intros ([q lsm] & -> & [Ho Hin%elem_of_map_to_list]%list_elem_of_filter). eauto.
  - intros (lsm & Hs & Ho). exists (p, lsm). split; [done|].
    apply list_elem_of_filter. split; [done|by apply elem_of_map_to_list].
Qed.
Lemma elem_base (spec : gmap string bool) p :
  p ∈ dom (filter (λ kv, optionalProgram kv = false) spec) ↔
  ∃ lsm, spec !! p = Some lsm ∧ optionalProgram (p, lsm) = false.
Proof.
  rewrite elem_of_dom. unfold is_Some. setoid_rewrite map_lookup_filter_Some. done.
Qed.

(** Only the required programs decide whether a collection loads; they are all
    in the bundle, and an LSM or override program is in it only if the
    collection has it and the kernel accepted it on its own.  What was opened
    is in the bundle, and a collection that does not load leaves nothing
    open. *)
Theorem loadGroupedCollections_spec load spec n open :
  let base := dom (filter (λ kv, optionalProgram kv = false) spec) in
  let '(res, _, open') := loadGroupedCollections load spec n open in
  match res with
  | None => load base n = None ∧ open' = open
  | Some b => is_Some (load base n) ∧ base ⊆ bundlePrograms b ∧ bundlePrograms b ⊆ dom spec
      ∧ open' = (open + handles (BundleCloser b))%nat
      ∧ ∀ p lsm, spec !! p = Some lsm → optionalProgram (p, lsm) = true →
          (p ∈ bundlePrograms b → ∃ j, is_Some (load {[p]} j))
          ∧ ((∀ j, is_Some (load {[p]} j)) → p ∈ bundlePrograms b)
  end.
Proof.
  intros base. unfold loadGroupedCollections, mbind, M_bind, ask. fold base.
  destruct (load base n) as [k|] eqn:Hb; [|done]. unfold modS.
  set (names := sortStrings _). assert (∀ p, p ∈ names ↔ ∃ lsm, spec !! p = Some lsm ∧ optionalProgram (p, lsm) = true)
    as Hn by (intros p; unfold names, sortStrings; rewrite merge_sort_Permutation; apply elem_optional).
  pose proof (loadOptional_spec load names (mkBundle [k] base) (S n) (k + open)) as Hl.
  destruct (loadOptional load names _ (S n) _) as [[b n'] open']. destruct Hl as (Hs & Hk & Hf & Ha).
  split_and!; [done|done| |cbn in *; lia|].
  - intros p [(lsm & Hp & _)%elem_base|[(lsm & Hp & _)%Hn _]]%Hf; by apply elem_of_dom_2 in Hp.
  - intros p lsm Hp Ho. split.
    + intros [(lsm' & Hp' & Ho')%elem_base|[_ ?]]%Hf; [congruence|done].
    + intros Hall. apply Ha; [|done]. apply Hn. eauto.
Qed.

(** At most one of the two variants of the rename hook is loaded: the one whose
    prototype matches the running kernel's. *)
Theorem selectPathRenameVariant_exclusive spec parameters :
  let spec' := selectPathRenameVariant spec parameters in
  is_Some (spec !! "enforce_path_rename_legacy") →
  (∀ name, name ≠ "enforce_path_rename" → name ≠ "enforce_path_rename_legacy" → spec' !! name = spec !! name)
  ∧ (is_Some (spec' !! "enforce_path_rename") → parameters = Some 5)
  ∧ (is_Some (spec' !! "enforce_path_rename_legacy") → parameters = Some 4).
Proof.
  intros spec' [lsm Hl]. unfold spec', selectPathRenameVariant. rewrite Hl.
  rewrite bool_decide_eq_false_2 by done. cbv zeta.
  assert (∀ s : string, s = match parameters with Some n => pathRenameVariant n | None => "" end →
    s ≠ "" → parameters = Some 4 ∧ s = "enforce_path_rename_legacy"
             ∨ parameters = Some 5 ∧ s = "enforce_path_rename") as Hsel.
  { intros s -> Hne. destruct parameters as [n|]; [|done]. unfold pathRenameVariant in *.
    destruct (Z.eqb_spec n 4) as [->|]; [by left|]. destruct (Z.eqb_spec n 5) as [->|]; [by right|done]. }
  set (sel := match parameters with Some n => _ | None => _ end) in *. cbn [foldl].
  split_and!.
  - intros name H1 H2. repeat case_bool_decide; rewrite ?lookup_delete_ne by done; done.
  - destruct (decide ("enforce_path_rename" = sel)) as [E1|E1].
    + intros _. assert ("enforce_path_rename" ≠ "") as Hne by done.
      by destruct (Hsel _ E1 Hne) as [[_ ?]|[? _]].
    + rewrite (bool_decide_eq_false_2 _ E1). intros [x Hx].
      case_bool_decide; [|rewrite lookup_delete_ne in Hx by done]; by rewrite lookup_delete_eq in Hx.
  - destruct (bool_decide ("enforce_path_rename_legacy" = sel)) eqn:E2.
    + apply bool_decide_eq_true in E2. intros _.
      assert ("enforce_path_rename_legacy" ≠ "") as Hne by done.
      by destruct (Hsel _ E2 Hne) as [[? _]|[_ ?]].
    + intros [x Hx]. by rewrite lookup_delete_eq in Hx.
Qed.

Section mode_theorems.
Context `{Unicode}.
(** A mode is loaded by the loader of that mode, and an accepted mode value
    lists at least one mode. *)
Theorem mode_loader {S L E} (unsupported : E) (m : runtimeMode) (loaders : objectLoaders S L E) :
  loadSensorObjectsWith unsupported (modeName m) loaders
  = match m with
    | Core => core loaders | LegacyPerf => legacyPerf loaders | UltraLegacyMap => ultraLegacyMap loaders
    end.
Proof. by destruct m. Qed.
End mode_theorems.
