(* ===== verification/Attach.v ===== *)
(** * Attaching programs and starting the sensor: internal/sensor/sensor.go

    [initialize] and what it calls, [newSensorWith] with its fallback from
    mode to mode, and [Close].  Besides the sensor the state has the kernel's
    side: the links that are attached and how many handles of programs and maps
    are open. *)
From stdpp Require Import gmultiset.
From S2P Require Import Prelude GoStrings GoPath GoTime Config World Event Scope Objects Interface.
From S2P Require Import Polling Sensor Loading.

#[export] Instance Link_countable : Countable Link.
Proof.
  refine (inj_countable'
    (λ l, match l with
          | Tracepoint c n p => (0%nat, c, n, p) | Kprobe s p => (1%nat, s, "", p)
          | Kretprobe s p => (2%nat, s, "", p) | LSM p => (3%nat, "", "", p)
          end)
    (λ t, let '(k, a, b, p) := t in
          match k with
          | 0%nat => Tracepoint a b p | 1%nat => Kprobe a p | 2%nat => Kretprobe a p | _ => LSM p
          end) _).
  by intros [].
Defined.

(** What the kernel and the libraries answer: whether an attachment, opening a
    ring buffer or perf reader succeeds; the architecture. *)
Class Kernel : Type := {
  attach_ok : Link → nat → bool;
  reader_ok : runtimeMode → nat → bool;
  GOARCH : string }.

Module Boot.
Record Boot := mkBoot {
  sensor : Sensor; live : gmultiset Link; objects : nat;
  (** what the one run of [closeOnce] returned *)
  closeRes : option bool }.
#[export] Instance eta_Boot : Eta Boot := λ b,
  mkBoot (sensor b) (live b) (objects b) (closeRes b).
End Boot.
Export (hints) Boot.
Abbreviation Boot := Boot.Boot.

(** [lsmAttachResult] with its [lsmAttachSummary] *)
Module lsmAttachResult.
Record lsmAttachResult := mkResult { Attached : nat; Skipped : nat; links : list Link }.
#[export] Instance eta_lsmAttachResult : Eta lsmAttachResult := λ r,
  mkResult (Attached r) (Skipped r) (links r).
End lsmAttachResult.
Export (hints) lsmAttachResult.
Abbreviation lsmAttachResult := lsmAttachResult.lsmAttachResult.

Inductive InitError :=
  (** a [configurationError]: no other mode is tried *)
  | ErrConfiguration
  | ErrProgramMissing (name : string) | ErrAttach (name : string)
  | ErrDenyNotAvailable | ErrReader | ErrLoad | ErrCleanup | ErrMode.

(** ** Tables *)
Definition tracepoints : list (string * string * string * bool) :=
  [("syscalls", "sys_enter_execve", "TraceExecve", false);
   ("sched", "sched_process_exec", "TraceExecSuccess", false);
   ("sched", "sched_process_exit", "TraceProcessExit", false);
   ("syscalls", "sys_enter_openat", "TraceOpenat", false);
   ("syscalls", "sys_exit_openat", "TraceOpenatExit", false);
   ("syscalls", "sys_enter_write", "TraceWrite", false);
   ("syscalls", "sys_exit_write", "TraceWriteExit", false);
   ("syscalls", "sys_enter_pwrite64", "TracePwrite64", false);
   ("syscalls", "sys_exit_pwrite64", "TracePwrite64Exit", false);
   ("syscalls", "sys_enter_writev", "TraceWritev", false);
   ("syscalls", "sys_exit_writev", "TraceWritevExit", false);
   ("syscalls", "sys_enter_copy_file_range", "TraceCopyFileRange", true);
   ("syscalls", "sys_enter_getdents64", "TraceGetdents64", false);
   ("syscalls", "sys_enter_mmap", "TraceMmap", false);
   ("syscalls", "sys_enter_io_uring_enter", "TraceIoUringEnter", true);
   ("syscalls", "sys_enter_connect", "TraceConnect", true);
   ("syscalls", "sys_enter_close", "TraceClose", false);
   ("syscalls", "sys_enter_dup", "TraceDup", false);
   ("syscalls", "sys_exit_dup", "TraceDupExit", false);
   ("syscalls", "sys_enter_dup2", "TraceDup2", false);
   ("syscalls", "sys_exit_dup2", "TraceDup2Exit", false);
   ("syscalls", "sys_enter_dup3", "TraceDup3", false);
   ("syscalls", "sys_exit_dup3", "TraceDup3Exit", false);
   ("syscalls", "sys_enter_fcntl", "TraceFcntl", false);
   ("syscalls", "sys_exit_fcntl", "TraceFcntlExit", false);
   ("syscalls", "sys_enter_rename", "TraceRename", false);
   ("syscalls", "sys_enter_renameat", "TraceRenameat", false);
   ("syscalls", "sys_enter_renameat2", "TraceRenameat2", true);
   ("syscalls", "sys_enter_link", "TraceLink", true);
   ("syscalls", "sys_enter_linkat", "TraceLinkat", true);
   ("syscalls", "sys_enter_symlink", "TraceSymlink", true);
   ("syscalls", "sys_enter_symlinkat", "TraceSymlinkat", true);
   ("syscalls", "sys_enter_unlink", "TraceUnlink", false);
   ("syscalls", "sys_enter_unlinkat", "TraceUnlinkat", false);
   ("syscalls", "sys_enter_truncate", "TraceTruncate", false);
   ("syscalls", "sys_enter_ftruncate", "TraceFtruncate", false)].
Definition lsmPrograms : list (string * string) :=
  [("EnforceFileOpen", "file_open"); ("EnforceFilePermission", "file_permission");
   ("EnforcePathTruncate", "path_truncate"); ("EnforcePathRename", "path_rename");
   ("EnforceInodeRename", "inode_rename"); ("EnforcePathMknod", "path_mknod");
   ("EnforceInodeCreate", "inode_create"); ("EnforcePathUnlink", "path_unlink");
   ("EnforceBprmCheckSecurity", "bprm_check_security")].
Definition kprobePairs : list (string * string * string * bool) :=
  [("open", "KpOverrideOpen", "KpRetOpen", true); ("openat", "KpOverrideOpenat", "KpRetOpenat", false);
   ("write", "KpOverrideWrite", "KpRetWrite", false);
   ("pwrite64", "KpOverridePwrite64", "KpRetPwrite64", false);
   ("writev", "KpOverrideWritev", "KpRetWritev", false)].
Definition kprobes : list (string * string * bool) :=
  [("openat", "KpOverrideOpenat", false); ("open", "KpOverrideOpen", true);
   ("openat2", "KpOverrideOpenat2", true); ("rename", "KpOverrideRename", false);
   ("renameat", "KpOverrideRenameat", false); ("renameat2", "KpOverrideRenameat2", true);
   ("link", "KpOverrideLink", true); ("linkat", "KpOverrideLinkat", true);
   ("symlink", "KpOverrideSymlink", true); ("symlinkat", "KpOverrideSymlinkat", true);
   ("unlink", "KpOverrideUnlink", false); ("unlinkat", "KpOverrideUnlinkat", false);
   ("truncate", "KpOverrideTruncate", false); ("ftruncate", "KpOverrideFtruncate", false);
   ("execve", "KpOverrideExecve", false); ("write", "KpOverrideWrite", false);
   ("pwrite64", "KpOverridePwrite64", false); ("writev", "KpOverrideWritev", false);
   ("copy_file_range", "KpOverrideCopyFileRange", true);
   ("getdents64", "KpOverrideGetdents64", false); ("mmap", "KpOverrideMmap", false);
   ("io_uring_enter", "KpOverrideIoUringEnter", true)].
Definition kretprobes : list (string * string) := [("open", "KpRetOpen"); ("openat", "KpRetOpenat")].

Definition optionalSyscallTracepoint (category name arch : string) : bool :=
  if negb (bool_decide (category = "syscalls")) || negb (bool_decide (arch = "arm64")) then false
  else
    let op := TrimPrefix (TrimPrefix name "sys_enter_") "sys_exit_" in
    bool_decide (op ∈ ["dup2"; "rename"; "unlink"; "link"; "symlink"; "open"]).

Definition kprobeSymbols (op arch : string) : list string :=
  if bool_decide (arch = "amd64") then ["__x64_sys_" +:+ op; "__se_sys_" +:+ op; "sys_" +:+ op]
  else if bool_decide (arch = "arm64") then ["__arm64_sys_" +:+ op; "__se_sys_" +:+ op; "sys_" +:+ op]
  else ["__" +:+ arch +:+ "_sys_" +:+ op; "__se_sys_" +:+ op; "sys_" +:+ op].

(** The key and the calling convention of a syscall wrapper. *)
Definition syscallABIKeys : list (string * Z) :=
  [("execve", 1); ("open", 2); ("openat", 3); ("write", 4); ("pwrite64", 5); ("writev", 6);
   ("rename", 7); ("link", 8); ("symlink", 9); ("unlink", 10); ("truncate", 11); ("ftruncate", 12)].
Definition syscallABIForSymbol (op symbol : string) : option (Z * Z) :=
  match List.find (λ kv, bool_decide (kv.1 = op)) syscallABIKeys with
  | None => None
  | Some (_, key) =>
      if bool_decide (symbol = "__x64_sys_" +:+ op) then Some (key, 2)
      else if bool_decide (symbol = "__se_sys_" +:+ op) || bool_decide (symbol = "sys_" +:+ op)
      then Some (key, 1)
      else None
  end.

Definition bpfLSMActiveFromData (data : string) : bool :=
  bool_decide ("bpf" ∈ Split "," (TrimSpace data)).

Section attach.
Context `{Unicode} `{World} `{Kernel} `{Closing}.
Import Sensor Boot.
Abbreviation MB := (M Boot).

(** ** Links *)
Definition onSensor {A} (m : M Sensor A) : MB A := zoom sensor (λ s b, b <| sensor := s |>) m.
Definition present (prog : string) (b : Boot) : bool := bool_decide (prog ∈ programs (sensor b)).

Definition attach (l : Link) : MB bool :=
  ok ← ask (attach_ok l);
  when ok (modS (λ b, b <| live ::= λ m, {[+ l +]} ⊎ m |>)) ;;
  mret ok.
Definition detach (l : Link) : MB () := modS (λ b, b <| live ::= λ m, m ∖ {[+ l +]} |>).
(** [s.links = append(s.links, ls...)] *)
Definition hold (ls : list Link) : MB () :=
  modS (λ b, b <| sensor ::= λ s, s <| links ::= λ l, l ++ ls |> |>).

(** ** Tracepoints *)
Fixpoint attachTable (l : list (string * string * string * bool)) : MB (option InitError) :=
  match l with
  | [] => mret None
  | (category, name, prog, optional) :: l =>
      let optional := optional || optionalSyscallTracepoint category name GOARCH in
      b ← getS;
      if negb (present prog b) then
        if optional then attachTable l else mret (Some (ErrProgramMissing name))
      else
        ok ← attach (Tracepoint category name prog);
        if (ok : bool) then hold [Tracepoint category name prog] ;; attachTable l
        else if optional then attachTable l else mret (Some (ErrAttach name))
  end.
Definition attachOpenat2 : MB () :=
  b ← getS;
  if negb (present "TraceOpenat2" b) || negb (present "TraceOpenat2Exit" b) then mret ()
  else
    let entry := Tracepoint "syscalls" "sys_enter_openat2" "TraceOpenat2" in
    let exit := Tracepoint "syscalls" "sys_exit_openat2" "TraceOpenat2Exit" in
    ok ← attach entry;
    if negb ok then mret ()
    else
      ok ← attach exit;
      if (ok : bool) then hold [entry; exit] else detach entry.
Definition attachTracepoints : MB (option InitError) :=
  b ← getS;
  if bool_decide (mode (sensor b) = UltraLegacyMap) then mret None
  else
    err ← attachTable tracepoints;
    match err with
    | Some err => mret (Some err)
    | None => attachOpenat2 ;; mret None
    end.

(** ** LSM programs *)
Definition recordDenyHook (kind name : string) (c : EnforcementCapabilities) : EnforcementCapabilities :=
  let c := c <| EnforcementCapabilities.DenyAvailable := true |> in
  if bool_decide (kind = "lsm") then
    let c := c <| EnforcementCapabilities.LSMHooks ::= λ l, l ++ [name] |> in
    if bool_decide (name = "file_open") then c <| EnforcementCapabilities.DenyOpenat := true |> else c
  else
    let c := c <| EnforcementCapabilities.OverrideHooks ::= λ l, l ++ [name] |> in
    if bool_decide (name = "openat") then c <| EnforcementCapabilities.DenyOpenat := true |> else c.
Definition recordHook (kind name : string) : MB () :=
  modS (λ b, b <| sensor ::= λ s, s <| capabilities ::= recordDenyHook kind name |> |>).

Definition bpfLSMActive : MB bool :=
  data ← ask (os_ReadFile "/sys/kernel/security/lsm");
  mret (match data with Some data => bpfLSMActiveFromData data | None => false end).

(** The programs that are not nil. *)
Definition nonNilPrograms (b : Boot) (l : list (string * string)) : list (string * string) :=
  List.filter (λ '(prog, _), present prog b) l.
(** [attachLSMPrograms], the function: what attached and what did not. *)
Fixpoint attachEach (l : list (string * string)) (result : lsmAttachResult) : MB lsmAttachResult :=
  match l with
  | [] => mret result
  | (prog, hook) :: l =>
      ok ← attach (LSM prog);
      if (ok : bool) then
        recordHook "lsm" hook ;;
        attachEach l (result <| lsmAttachResult.links ::= λ ls, ls ++ [LSM prog] |>
                             <| lsmAttachResult.Attached ::= S |>)
      else attachEach l (result <| lsmAttachResult.Skipped ::= S |>)
  end.
(** [attachLSMPrograms], the method. *)
Definition attachLSMPrograms : MB lsmAttachResult :=
  b ← getS;
  let lsms := nonNilPrograms b lsmPrograms in
  let skipped := lsmAttachResult.mkResult 0 (length lsms) [] in
  summary ← (if bool_decide (lsms = []) then mret skipped
             else
               active ← bpfLSMActive;
               if (active : bool) then attachEach lsms (lsmAttachResult.mkResult 0 0 []) else mret skipped);
  hold (lsmAttachResult.links summary) ;;
  mret summary.

(** ** Kprobes *)
Definition configureKprobeABI (op symbol : string) : M Sensor bool :=
  s ← getS;
  if negb (bool_decide (mode s = UltraLegacyMap)) then mret true
  else
    match sensorMaps.SyscallABI (maps s), syscallABIForSymbol op symbol with
    | Some _, Some (key, abi) =>
        ok ← ask map_Put_ok;
        when ok (modS (λ s, s <| maps ::= λ m, m <| sensorMaps.SyscallABI ::= fmap <[key := abi]> |> |>)) ;;
        mret ok
    | _, _ => mret false
    end.

(** [attachKprobeWith]; [kind] is [Kprobe] or [Kretprobe], [None] an error. *)
Fixpoint attachKprobeTo (kind : string → string → Link) (configure : string → MB bool) (prog : string)
    (symbols : list string) : MB (option Link) :=
  match symbols with
  | [] => mret None
  | symbol :: symbols =>
      ok ← attach (kind symbol prog);
      if (ok : bool) then
        configured ← configure symbol;
        if (configured : bool) then mret (Some (kind symbol prog))
        else detach (kind symbol prog) ;; mret None
      else attachKprobeTo kind configure prog symbols
  end.
Definition attachKprobeWith (op prog : string) (configure : string → MB bool) : MB (option Link) :=
  attachKprobeTo Kprobe configure prog (kprobeSymbols op GOARCH).
Definition attachKprobe (op prog : string) : MB (option Link) := attachKprobeWith op prog (λ _, mret true).
Definition attachKretprobe (op prog : string) : MB (option Link) :=
  attachKprobeTo Kretprobe (λ _, mret true) prog (kprobeSymbols op GOARCH).

Fixpoint attachPairTo (configure : string → MB bool) (entry exit : string) (symbols : list string)
    : MB (option (list Link)) :=
  match symbols with
  | [] => mret None
  | symbol :: symbols =>
      ok ← attach (Kprobe symbol entry);
      if negb ok then attachPairTo configure entry exit symbols
      else
        ok ← attach (Kretprobe symbol exit);
        if (ok : bool) then
          configured ← configure symbol;
          if (configured : bool) then mret (Some [Kprobe symbol entry; Kretprobe symbol exit])
          else detach (Kprobe symbol entry) ;; detach (Kretprobe symbol exit) ;; mret None
        else detach (Kprobe symbol entry) ;; attachPairTo configure entry exit symbols
  end.
Definition attachKprobePairWith (op entry exit : string) (configure : string → MB bool)
    : MB (option (list Link)) :=
  b ← getS;
  if negb (present entry b) || negb (present exit b) then mret None
  else attachPairTo configure entry exit (kprobeSymbols op GOARCH).

Definition attachKprobePair (op entry exit : string) : MB (option (list Link)) :=
  attachKprobePairWith op entry exit (λ _, mret true).

Fixpoint attachPairs (l : list (string * string * string * bool)) : MB (option InitError) :=
  match l with
  | [] => mret None
  | (op, entry, exit, optional) :: l =>
      links ← attachKprobePairWith op entry exit (λ symbol, onSensor (configureKprobeABI op symbol));
      match links with
      | None => if (optional : bool) then attachPairs l else mret (Some (ErrAttach op))
      | Some links => hold links ;; attachPairs l
      end
  end.
(** The part of [attachKprobePrograms] for the oldest kernels. *)
Definition attachUltraLegacy : MB (option InitError) :=
  b ← getS;
  if negb (present "KpProcessExit" b) then mret (Some (ErrProgramMissing "do_exit"))
  else
    ok ← attach (Kprobe "do_exit" "KpProcessExit");
    if negb ok then mret (Some (ErrAttach "do_exit"))
    else hold [Kprobe "do_exit" "KpProcessExit"] ;; attachPairs kprobePairs.

(** [paired] are the operations already attached as pairs. *)
Fixpoint attachOverrides (paired : list string) (l : list (string * string * bool)) : MB (option InitError) :=
  match l with
  | [] => mret None
  | (op, prog, optional) :: l =>
      b ← getS;
      let ultra := bool_decide (mode (sensor b) = UltraLegacyMap) in
      if bool_decide (op ∈ paired) then attachOverrides paired l
      else
        let optional := optional || negb ultra || negb (present prog b) in
        if negb (present prog b) then
          if optional then attachOverrides paired l else mret (Some (ErrProgramMissing op))
        else
          link ← attachKprobeWith op prog (λ symbol, onSensor (configureKprobeABI op symbol));
          match link with
          | None => if optional then attachOverrides paired l else mret (Some (ErrAttach op))
          | Some link =>
              when (negb ultra) (recordHook "override" op) ;;
              hold [link] ;;
              attachOverrides paired l
          end
  end.
Fixpoint attachReturns (paired : list string) (l : list (string * string)) : MB () :=
  match l with
  | [] => mret ()
  | (op, prog) :: l =>
      b ← getS;
      (if bool_decide (op ∈ paired) || negb (present prog b) then mret ()
       else
         link ← attachKretprobe op prog;
         match link with Some link => hold [link] | None => mret () end) ;;
      attachReturns paired l
  end.
Definition attachKprobePrograms : MB (option InitError) :=
  b ← getS;
  let ultra := bool_decide (mode (sensor b) = UltraLegacyMap) in
  let paired := if ultra then (λ '(op, _, _, _), op) <$> kprobePairs else [] in
  err ← (if ultra then attachUltraLegacy else mret None);
  match err with
  | Some err => mret (Some err)
  | None =>
      err ← attachOverrides paired kprobes;
      match err with
      | Some err => mret (Some err)
      | None => attachReturns paired kretprobes ;; mret None
      end
  end.

(** ** Starting and stopping *)
Definition validatePolicyCapabilities (c : EnforcementCapabilities) (policy : Policy) (dryRun : bool) : bool :=
  if dryRun || EnforcementCapabilities.DenyAvailable c then true
  else if EqualFold (TrimSpace (Policy.Action policy)) "deny" then false
  else negb (existsb (λ rule, let action := ToLower (TrimSpace (Rule.Action rule)) in
                              bool_decide (action = "deny") || bool_decide (action = "block"))
               (Policy.Rules policy)).

Definition newEventReader {S} (mode : runtimeMode) (events cursor : option MapInfo)
    : M S (option eventReader) :=
  match events with
  | None => mret None
  | Some events =>
      match mode with
      | UltraLegacyMap =>
          match cursor with
          | None => mret None
          | Some cursor =>
              let rd := newMapPollingEventReader (Some events) (Some cursor) in
              match mapPollingEventReader.initErr rd with
              | Some _ => mret None
              | None =>
                  if mapPollingEventReader.guarded rd then
                    possible ← ask (os_ReadFile "/sys/devices/system/cpu/possible");
                    mret (possible ← possible;
                          if validateCPUShardCoverage possible
                               (Z.of_nat (length (mapPollingEventReader.shards rd)))
                          then Some (pollingEventReader rd) else None)
                  else mret (Some (pollingEventReader rd))
              end
          end
      | LegacyPerf => ok ← ask (reader_ok LegacyPerf);
                      mret (if (ok : bool) then Some (perfEventReader 0) else None)
      | Core => ok ← ask (reader_ok Core);
                mret (if (ok : bool) then Some ringbufEventReader else None)
      end
  end.

Definition initialize (policy : Policy) (dryRun : bool) : MB (option InitError) :=
  ok ← onSensor (ConfigurePolicy policy);
  if negb ok then mret (Some ErrConfiguration)
  else
    err ← onSensor (ConfigureEnforcement (Policy.Action policy) true);
    if bool_decide (err ≠ None) then mret (Some ErrConfiguration)
    else
      err ← attachTracepoints;
      match err with
      | Some err => mret (Some err)
      | None =>
          _ ← attachLSMPrograms;
          err ← attachKprobePrograms;
          match err with
          | Some err => mret (Some err)
          | None =>
              b ← getS;
              if negb (validatePolicyCapabilities (capabilities (sensor b)) policy dryRun)
              then mret (Some ErrDenyNotAvailable)
              else
                rd ← newEventReader (mode (sensor b)) (sensorMaps.Events (maps (sensor b)))
                       (sensorMaps.EventCursor (maps (sensor b)));
                match rd with
                | None => mret (Some ErrReader)
                | Some rd =>
                    modS (λ b, b <| sensor ::= λ s, s <| reader := Some rd |> |>) ;;
                    err ← onSensor (ConfigureEnforcement (Policy.Action policy) dryRun);
                    mret (if bool_decide (err ≠ None) then Some ErrConfiguration else None)
                end
          end
      end.

(** [Close]: the reader, every link and the loaded objects, once.  Closing
    gives a link up even when it reports an error. *)
Fixpoint closeLinks (ls : list Link) : MB bool :=
  match ls with
  | [] => mret true
  | l :: ls => ok ← ask close_ok; detach l ;; rest ← closeLinks ls; mret (ok && rest)
  end.
Definition Close : MB bool :=
  b ← getS;
  match closeRes b with
  | Some res => mret res
  | None =>
      ok1 ← (match reader (sensor b) with Some _ => ask close_ok | None => mret true end);
      ok2 ← closeLinks (links (sensor b));
      ok3 ← zoom objects (λ k b, b <| objects := k |>) (closerClose (closer (sensor b)));
      let res := ok1 && ok2 && ok3 in
      modS (λ b, b <| closeRes := Some res |>) ;;
      mret res
  end.
End attach.

(** ** Loading the objects of a mode *)

(** Code outside of the repository: reading the embedded collections, which
    gives their programs and whether each is an LSM program; loading a set of
    programs of a collection, which gives the number of handles it opens; the
    maps of the collection, as bound to the fields of its object type; type
    information, reduced to the number of parameters of the rename hook.
    [LoadAndAssign] binds every field of the object it is given, or fails. *)
Class ObjectFiles : Type := {
  loadRansomware : nat → option (gmap string bool);
  loadRansomwareLegacy : nat → option (gmap string bool);
  NewCollection : runtimeMode → gset string → nat → option nat;
  collectionMaps : runtimeMode → sensorMaps;
  LoadAndAssign : nat → option sensorMaps;
  loadRansomwareUltraLegacy : nat → bool;
  btf_LoadSpec : string → nat → option (option Z);
  btf_LoadKernelSpec : nat → option (option Z) }.

(** [loadedSensorObjects] *)
Module loadedSensorObjects.
Record loadedSensorObjects := mkLoaded { closer : Closer; maps : sensorMaps; programs : gset string }.
End loadedSensorObjects.
Abbreviation loadedSensorObjects := loadedSensorObjects.loadedSensorObjects.

Section load.
Context `{Unicode} `{World} `{Environ} `{Kernel} `{Closing} `{ObjectFiles}.
Import Sensor Boot.
(** The kernel's side, between two attempts: links and open handles.  An
    error carries what is left to close. *)
Abbreviation Host := (gmultiset Link * nat)%type.
Abbreviation Loaded := ((InitError * option Closer) + loadedSensorObjects)%type.

Definition coreCollectionOptions : M Host (InitError + option (option Z)) :=
  let btfPath := TrimSpace (os_Getenv "EBPFFLS_BTF") in
  if bool_decide (btfPath = "") then mret (inr None)
  else
    spec ← ask (btf_LoadSpec btfPath);
    mret (match spec with None => inl ErrConfiguration | Some types => inr (Some types) end).

(** [selectPathRenameVariant] with the types it is given or the kernel's. *)
Definition selectVariant (spec : gmap string bool) (types : option (option Z)) : M Host (gmap string bool) :=
  if bool_decide (spec !! "enforce_path_rename_legacy" = None) then mret spec
  else
    types ← (match types with Some t => mret (Some t) | None => ask btf_LoadKernelSpec end);
    mret (selectPathRenameVariant spec (mjoin types)).

Definition onHandles {A} (m : M nat A) : M Host A := zoom snd (λ k h, (h.1, k)) m.

Definition loadCoreSensorObjects : M Host Loaded :=
  opts ← coreCollectionOptions;
  match opts with
  | inl err => mret (inl (err, None))
  | inr types =>
      spec ← ask loadRansomware;
      match spec with
      | None => mret (inl (ErrLoad, None))
      | Some spec =>
          spec ← selectVariant spec types;
          bundle ← onHandles (loadGroupedCollections (NewCollection Core) spec);
          mret (match bundle with
                | None => inl (ErrLoad, None)
                | Some bundle =>
                    inr (loadedSensorObjects.mkLoaded (BundleCloser bundle) (coreMaps (collectionMaps Core))
                           (corePrograms (bindCore ransomwareProgramTags (bundlePrograms bundle))))
                end)
      end
  end.
Definition loadLegacyPerfSensorObjects : M Host Loaded :=
  spec ← ask loadRansomwareLegacy;
  match spec with
  | None => mret (inl (ErrLoad, None))
  | Some spec =>
      bundle ← onHandles (loadGroupedCollections (NewCollection LegacyPerf) spec);
      mret (match bundle with
            | None => inl (ErrLoad, None)
            | Some bundle =>
                inr (loadedSensorObjects.mkLoaded (BundleCloser bundle)
                       (legacyPerfMaps (collectionMaps LegacyPerf))
                       (legacyPerfPrograms
                          (bindAvailableObjects ransomwareLegacyProgramTags (bundlePrograms bundle))))
            end)
  end.
(** [loadRansomwareUltraLegacyObjects]: the maps and programs of the object. *)
Definition loadRansomwareUltraLegacyObjects : M Host (option (sensorMaps * gset string)) :=
  spec ← ask loadRansomwareUltraLegacy;
  if (spec : bool) then
    objs ← ask LoadAndAssign;
    match objs with
    | None => mret None
    | Some maps =>
        onHandles (modS (Nat.add (handlesOf ransomwareUltraLegacyObjects))) ;;
        mret (Some (maps, list_to_set (programTags ransomwareUltraLegacyObjects).*2))
    end
  else mret None.
Definition loadUltraLegacyMapSensorObjects : M Host Loaded :=
  if validateUltraLegacyArchitecture GOARCH then
    objs ← loadRansomwareUltraLegacyObjects;
    mret (match objs with
          | None => inl (ErrLoad, None)
          | Some (maps, programs) =>
              inr (loadedSensorObjects.mkLoaded (ObjectsCloser ransomwareUltraLegacyObjects)
                     (ultraLegacyMapMaps maps) (ultraLegacyMapPrograms programs))
          end)
  else mret (inl (ErrLoad, None)).
Definition loaders : objectLoaders Host loadedSensorObjects (InitError * option Closer) :=
  mkLoaders loadCoreSensorObjects loadLegacyPerfSensorObjects loadUltraLegacyMapSensorObjects.

Definition loadSensorObjects : M Host Loaded :=
  loadSensorObjectsWith (ErrMode, None) (TrimSpace (os_Getenv "EBPFFLS_BPF_MODE")) loaders.

(** ** Trying the modes *)

(** The sensor an attempt starts from. *)
Definition freshSensor (mode : runtimeMode) (loaded : loadedSensorObjects) : Sensor :=
  mkSensor (loadedSensorObjects.closer loaded) (loadedSensorObjects.maps loaded)
    (loadedSensorObjects.programs loaded) [] None mode
    (EnforcementCapabilities.mkCaps (modeName mode) false false true [] []).

(** One attempt with loaded objects; a sensor that does not start is closed. *)
Definition startMode (init : M Boot (option InitError)) (mode : runtimeMode) (loaded : loadedSensorObjects)
    : M Host (InitError + Sensor) := λ n h,
  let '(err, n', b') := init n (mkBoot (freshSensor mode loaded) h.1 h.2 None) in
  match err with
  | None => (inr (sensor b'), n', (live b', objects b'))
  | Some err =>
      let '(ok, n'', b'') := Close n' b' in
      (inl (if (ok : bool) then err else ErrCleanup), n'', (live b'', objects b''))
  end.
Definition closeLoaded (closer : option Closer) (err : InitError) : M Host InitError :=
  match closer with
  | None => mret err
  | Some c =>
      ok ← onHandles (closerClose c);
      mret (if (ok : bool) then err else ErrCleanup)
  end.
(** An error after which no other mode is tried. *)
Definition fatal (err : InitError) : bool :=
  match err with ErrConfiguration | ErrCleanup => true | _ => false end.

Section modes.
Context (loaders : objectLoaders Host loadedSensorObjects (InitError * option Closer)).
Context (init : M Boot (option InitError)).
Fixpoint tryModes (modes : list runtimeMode) : M Host (InitError + Sensor) :=
  match modes with
  | [] => mret (inl ErrLoad)
  | mode :: modes =>
      loaded ← loadSensorObjectsWith (ErrMode, None) (modeName mode) loaders;
      res ← match loaded with
            | inr loaded => startMode init mode loaded
            | inl (err, closer) => err ← closeLoaded closer err; mret (inl err)
            end;
      match res with
      | inr s => mret (inr s)
      | inl err => if fatal err then mret (inl err) else tryModes modes
      end
  end.
Definition newSensorWith (modeValue : string) : M Host (InitError + Sensor) :=
  match sensorModeCandidates modeValue with
  | None => mret (inl ErrMode)
  | Some modes => tryModes modes
  end.
End modes.
Definition NewWithOptions (policy : Policy) (dryRun : bool) : M Host (InitError + Sensor) :=
  newSensorWith loaders (initialize policy dryRun) (TrimSpace (os_Getenv "EBPFFLS_BPF_MODE")).
Definition New (policy : Policy) : M Host (InitError + Sensor) := NewWithOptions policy true.
End load.
