(* ===== verification/AttachTheory.v ===== *)
(** * Theorems about starting the sensor (Attach.v)

    Two passes over the attachment functions: [BootStable] for properties that
    do not concern links, [owes] for the ledger of links. *)
From stdpp Require Import gmultiset.
From S2P Require Import Prelude GoStrings GoPath GoTime Config World Event Scope Objects Interface.
From S2P Require Import Polling Sensor Loading Attach.

Import Sensor Boot.

Section boot.
Context `{Unicode} `{World} `{Kernel} `{Closing}.

(** ** Properties of the sensor that attaching maintains *)

(** [I] fixes the mode and the programs and is stable under what attaching
    changes. *)
Class BootStable (m : runtimeMode) (ps : gset string) (I : Boot → Prop) : Prop := {
  bs_fixed b : I b → mode (sensor b) = m ∧ programs (sensor b) = ps;
  bs_live b f : I b → I (b <| live ::= f |>);
  bs_links b ls : I b → I (b <| sensor ::= λ s, s <| links ::= λ l, l ++ ls |> |>);
  bs_abi b f : I b → I (b <| sensor ::= λ s, s <| maps ::= λ x, x <| sensorMaps.SyscallABI ::= f |> |> |>);
  bs_lsm prog hook : (prog, hook) ∈ lsmPrograms → prog ∈ ps → keeps I (recordHook "lsm" hook);
  bs_override op : m ≠ UltraLegacyMap → keeps I (recordHook "override" op) }.

Section stable.
Context (m : runtimeMode) (ps : gset string) (I : Boot → Prop) `{!BootStable m ps I}.

Lemma attach_stable l : keeps I (attach l).
Proof. unfold attach. keeps_auto. apply keeps_mod. intros b. apply bs_live. Qed.
Lemma detach_stable l : keeps I (detach l).
Proof. apply keeps_mod. intros b. apply bs_live. Qed.
Lemma hold_stable ls : keeps I (hold ls).
Proof. apply keeps_mod. intros b. apply bs_links. Qed.
Hint Resolve attach_stable detach_stable hold_stable : go.

Lemma configureKprobeABI_stable op symbol : keeps I (onSensor (configureKprobeABI op symbol)).
Proof.
  intros n b Hb. unfold after, onSensor, zoom, configureKprobeABI, mbind, M_bind, getS.
  destruct (negb _); [by destruct b|].
  destruct (sensorMaps.SyscallABI _); [|by destruct b].
  destruct (syscallABIForSymbol op symbol) as [[key abi]|]; [|by destruct b].
  unfold ask, when. destruct (map_Put_ok n); [|by destruct b].
  exact (bs_abi b (fmap <[key := abi]>) Hb).
Qed.
Hint Resolve configureKprobeABI_stable : go.

Lemma attachKprobeTo_stable kind configure prog symbols :
  (∀ s, keeps I (configure s)) → keeps I (attachKprobeTo kind configure prog symbols).
Proof. intros Hc. induction symbols as [|s l IH]; cbn [attachKprobeTo]; keeps_auto. Qed.
Lemma attachPairTo_stable configure entry exit symbols :
  (∀ s, keeps I (configure s)) → keeps I (attachPairTo configure entry exit symbols).
Proof. intros Hc. induction symbols as [|s l IH]; cbn [attachPairTo]; keeps_auto. Qed.

Lemma attachTable_stable l : keeps I (attachTable l).
Proof. induction l as [|[[[cat name] prog] o] l IH]; cbn [attachTable]; keeps_auto. Qed.
Lemma attachOpenat2_stable : keeps I attachOpenat2.
Proof. unfold attachOpenat2. keeps_auto. Qed.
Lemma attachTracepoints_stable : keeps I attachTracepoints.
Proof.
  unfold attachTracepoints. keeps_auto; [apply attachTable_stable|apply attachOpenat2_stable].
Qed.

Lemma attachEach_stable l result :
  (∀ prog hook, (prog, hook) ∈ l → keeps I (recordHook "lsm" hook)) → keeps I (attachEach l result).
Proof.
  revert result. induction l as [|[prog hook] l IH]; intros result Hl; cbn [attachEach]; [apply keeps_ret|].
  assert (keeps I (recordHook "lsm" hook)) by (apply (Hl prog); set_solver).
  assert (∀ r, keeps I (attachEach l r)) by (intros r; apply IH; intros p h ?; apply (Hl p); set_solver).
  keeps_auto.
Qed.
Lemma attachLSMPrograms_stable : keeps I attachLSMPrograms.
Proof.
  unfold attachLSMPrograms. eapply yields_keeps_bind; [apply yields_get|]. intros b Hb. cbv zeta.
  destruct (bs_fixed b Hb) as [_ Hps]. unfold bpfLSMActive. keeps_auto. apply attachEach_stable.
  intros prog hook Hin%list_elem_of_In. apply filter_In in Hin as [Hin%list_elem_of_In Hp].
  apply (bs_lsm prog hook Hin). unfold present in Hp. rewrite Hps in Hp. by apply bool_decide_eq_true in Hp.
Qed.

Lemma attachKprobePairWith_stable op entry exit configure :
  (∀ s, keeps I (configure s)) → keeps I (attachKprobePairWith op entry exit configure).
Proof. intros. unfold attachKprobePairWith. keeps_auto. by apply attachPairTo_stable. Qed.
Lemma attachPairs_stable l : keeps I (attachPairs l).
Proof.
  induction l as [|[[[op e] x] o] l IH]; cbn [attachPairs]; [apply keeps_ret|].
  apply keeps_bind; [apply attachKprobePairWith_stable; auto with go|]. intros [ls|]; keeps_auto.
Qed.
Lemma attachOverrides_stable paired l : keeps I (attachOverrides paired l).
Proof.
  induction l as [|[[op prog] o] l IH]; cbn [attachOverrides]; [apply keeps_ret|].
  eapply yields_keeps_bind; [apply yields_get|]. intros b Hb. cbv zeta.
  destruct (bs_fixed b Hb) as [Hm _]. rewrite Hm.
  keeps_auto.
  - apply attachKprobeTo_stable. auto with go.
  - apply bs_override.
    match goal with Hu : negb (bool_decide (m = _)) = true |- _ => by apply negb_true_iff, bool_decide_eq_false in Hu end.
Qed.
Lemma attachReturns_stable paired l : keeps I (attachReturns paired l).
Proof.
  induction l as [|[op prog] l IH]; cbn [attachReturns]; keeps_auto.
  apply attachKprobeTo_stable. intros s. apply keeps_ret.
Qed.
Lemma attachKprobePrograms_stable : keeps I attachKprobePrograms.
Proof.
  unfold attachKprobePrograms, attachUltraLegacy. keeps_auto.
  - apply attachPairs_stable.
  - apply attachOverrides_stable.
  - apply attachReturns_stable.
Qed.
End stable.

(** ** The ledger of links

    [owes E b]: what is attached is what was attached before, the links the
    sensor holds and the links [E] some function still has in hand. *)
Section ledger.
Context (base : gmultiset Link) (k : nat) (c : Closer).
#[local] Arguments disj_union : simpl never.
#[local] Arguments difference : simpl never.
#[local] Arguments list_to_set_disj : simpl never.

Definition owes (E : gmultiset Link) (b : Boot) : Prop :=
  live b = base ⊎ list_to_set_disj (links (sensor b)) ⊎ E ∧ objects b = k ∧ closeRes b = None
  ∧ closer (sensor b) = c.
(** An operation that neither attaches, detaches nor holds. *)
Definition offLedger (f : Boot → Boot) : Prop := ∀ b,
  live (f b) = live b ∧ links (sensor (f b)) = links (sensor b)
  ∧ objects (f b) = objects b ∧ closeRes (f b) = closeRes b ∧ closer (sensor (f b)) = closer (sensor b).

Lemma off_owes E f : offLedger f → keeps (owes E) (modS f).
Proof. intros Hf. apply keeps_mod. intros b (Hl & Ho & Hc & Hk).
  destruct (Hf b) as (H1' & H2' & H3' & H4' & H5'). split_and!; congruence. Qed.
Lemma on_owes {A} E (m : M Sensor A) :
  (∀ ls, keeps (λ s, (links s, closer s) = ls) m) → keeps (owes E) (onSensor m).
Proof.
  intros Hm n b (Hl & Ho & Hc & Hk). specialize (Hm _ n (sensor b) eq_refl).
  unfold owes, result, after, onSensor, zoom in *. destruct (m n (sensor b)) as [[a n'] s'].
  destruct b as [s l o cr]. cbn in *. injection Hm as Hm1 Hm2. subst. by rewrite Hm1, Hm2.
Qed.
Lemma hook_owes E kind name : keeps (owes E) (recordHook kind name).
Proof. by apply off_owes. Qed.

Lemma attach_owes E l :
  triple (owes E) (attach l) (λ ok, owes (if ok : bool then {[+ l +]} ⊎ E else E)).
Proof.
  intros n b (Hl & Ho & Hc & Hk). unfold result, after, attach, mbind, M_bind, ask, when.
  destruct (attach_ok l n); cbn; [|done]. split_and!; [|done|done|done]. destruct b. cbn in *. subst.
  multiset_solver.
Qed.
Lemma detach_owes E l : triple (owes ({[+ l +]} ⊎ E)) (detach l) (λ _, owes E).
Proof.
  intros n b (Hl & Ho & Hc & Hk). unfold result, after, detach, modS. cbn. split_and!; [|done|done|done].
  destruct b. cbn in *. subst. multiset_solver.
Qed.
Lemma hold_owes E ls : triple (owes (list_to_set_disj ls ⊎ E)) (hold ls) (λ _, owes E).
Proof.
  intros n b (Hl & Ho & Hc & Hk). unfold result, after, hold, modS. cbn. split_and!; [|done|done|done].
  destruct b as [s]. destruct s. cbn in *. subst. rewrite list_to_set_disj_app. multiset_solver.
Qed.
Lemma hold1_owes E l : triple (owes ({[+ l +]} ⊎ E)) (hold [l]) (λ _, owes E).
Proof.
  replace {[+ l +]} with (list_to_set_disj [l] : gmultiset Link) by multiset_solver. apply hold_owes.
Qed.

Lemma configureKprobeABI_owes E op symbol : keeps (owes E) (onSensor (configureKprobeABI op symbol)).
Proof.
  apply on_owes. intros ls. unfold configureKprobeABI. keeps_auto.
Qed.

(** Attach, then continue with the link in hand or without it. *)
Lemma attach_bind {B} E l (f : bool → M Boot B) Q :
  triple (owes ({[+ l +]} ⊎ E)) (f true) Q → triple (owes E) (f false) Q →
  triple (owes E) (attach l ≫= f) Q.
Proof. intros. eapply triple_bind; [apply attach_owes|]. by intros []. Qed.
(** A step that leaves the ledger alone. *)
Lemma owes_bind {A B} E (m : M Boot A) (f : A → M Boot B) Q :
  keeps (owes E) m → (∀ a, triple (owes E) (f a) Q) → triple (owes E) (m ≫= f) Q.
Proof. intros Hm. apply triple_bind. apply Hm. Qed.
(** The same links in another order. *)
Ltac owes_eq :=
  cbn [default from_option id]; rewrite ?list_to_set_disj_cons, ?list_to_set_disj_nil;
  match goal with |- owes ?E ?b → owes ?F ?b => apply (λ e, eq_ind E (λ X, owes E b → owes X b) id F e) end;
  multiset_solver.

Lemma attachTable_owes l : keeps (owes ∅) (attachTable l).
Proof.
  induction l as [|[[[cat name] prog] o] l IH]; cbn [attachTable]; [apply keeps_ret|].
  apply owes_bind; [apply keeps_get|]. intros b. cbv zeta.
  destruct (negb (present prog b)); [apply keeps_if; auto using keeps_ret|].
  apply attach_bind; [|apply keeps_if; auto using keeps_ret].
  eapply triple_bind; [apply hold1_owes|]. intros []. apply IH.
Qed.
Lemma attachOpenat2_owes : keeps (owes ∅) attachOpenat2.
Proof.
  unfold attachOpenat2. apply owes_bind; [apply keeps_get|]. intros b. apply keeps_if; [auto using keeps_ret|].
  intros _. cbv zeta. apply attach_bind; cbn [negb]; [|apply keeps_ret]. apply attach_bind; [|apply detach_owes].
  eapply triple_conseq; [apply (hold_owes ∅)| |done]. intros b'. owes_eq.
Qed.
Lemma attachTracepoints_owes : keeps (owes ∅) attachTracepoints.
Proof.
  unfold attachTracepoints. apply owes_bind; [apply keeps_get|]. intros b. apply keeps_if; [auto using keeps_ret|].
  intros _. apply owes_bind; [apply attachTable_owes|]. intros [e|]; [apply keeps_ret|].
  apply owes_bind; [apply attachOpenat2_owes|]. intros []. apply keeps_ret.
Qed.

Lemma attachEach_owes l acc :
  triple (owes (list_to_set_disj (lsmAttachResult.links acc) ⊎ ∅)) (attachEach l acc)
    (λ r, owes (list_to_set_disj (lsmAttachResult.links r) ⊎ ∅)).
Proof.
  revert acc. induction l as [|[prog hook] l IH]; intros acc; cbn [attachEach]; [by apply triple_ret|].
  apply attach_bind; [|exact (IH (acc <| lsmAttachResult.Skipped ::= S |>))]. apply owes_bind; [apply hook_owes|]. intros [].
  eapply triple_conseq; [apply IH| |done]. intros b. cbn. rewrite list_to_set_disj_app. owes_eq.
Qed.
Lemma attachLSMPrograms_owes : keeps (owes ∅) attachLSMPrograms.
Proof.
  unfold attachLSMPrograms. apply owes_bind; [apply keeps_get|]. intros b. cbv zeta.
  eapply triple_bind with (R := λ r, owes (list_to_set_disj (lsmAttachResult.links r) ⊎ ∅)).
  - assert (∀ i, triple (owes ∅) (mret (lsmAttachResult.mkResult 0 i []))
      (λ r, owes (list_to_set_disj (lsmAttachResult.links r) ⊎ ∅))) as Hskip.
    { intros i. apply triple_ret. intros b'. cbn. owes_eq. }
    case_bool_decide; [apply Hskip|]. unfold bpfLSMActive. apply owes_bind; [keeps_auto|].
    intros []; [|apply Hskip]. eapply triple_conseq; [apply attachEach_owes| |done]. intros b'. cbn. owes_eq.
  - intros r. eapply triple_bind; [apply hold_owes|]. intros []. apply keeps_ret.
Qed.
(** Every LSM program there is either attached or skipped. *)
Lemma attachEach_counts l acc :
  lsmAttachResult.Attached acc = length (lsmAttachResult.links acc) →
  triple (λ _, True) (attachEach l acc)
    (λ r _, lsmAttachResult.Attached r = length (lsmAttachResult.links r)
            ∧ (lsmAttachResult.Attached r + lsmAttachResult.Skipped r
               = lsmAttachResult.Attached acc + lsmAttachResult.Skipped acc + length l)%nat).
Proof.
  revert acc. induction l as [|[prog hook] l IH]; intros acc Hacc; cbn [attachEach].
  { apply triple_ret. intros b _. cbn. split; [done|lia]. }
  apply triple_bind with (R := λ _ _, True); [done|]. intros [].
  - apply triple_bind with (R := λ _ _, True); [done|]. intros [].
    eapply triple_conseq; [apply IH; cbn; rewrite length_app; cbn; lia|done|]. cbn. intros r b [? ?]. split; [done|lia].
  - eapply triple_conseq; [apply IH; done|done|]. cbn. intros r b [? ?]. split; [done|lia].
Qed.

Lemma attachKprobeTo_owes kind configure prog symbols :
  (∀ E s, keeps (owes E) (configure s)) →
  triple (owes ∅) (attachKprobeTo kind configure prog symbols)
    (λ r, owes (match r with Some l => {[+ l +]} | None => ∅ end)).
Proof.
  intros Hc. induction symbols as [|s l IH]; cbn [attachKprobeTo]; [by apply triple_ret|].
  apply attach_bind; [|apply IH]. apply owes_bind; [apply Hc|]. intros [].
  - apply triple_ret. intros b. owes_eq.
  - eapply triple_bind; [apply detach_owes|]. intros []. by apply triple_ret.
Qed.
Lemma attachPairTo_owes configure entry exit symbols :
  (∀ E s, keeps (owes E) (configure s)) →
  triple (owes ∅) (attachPairTo configure entry exit symbols)
    (λ r, owes (list_to_set_disj (default [] r) ⊎ ∅)).
Proof.
  intros Hc. induction symbols as [|s l IH]; cbn [attachPairTo].
  { apply triple_ret. intros b. owes_eq. }
  apply attach_bind; cbn [negb]; [|apply IH].
  apply attach_bind; [|eapply triple_bind; [apply detach_owes|]; intros []; apply IH].
  apply owes_bind; [apply Hc|]. intros [].
  - apply triple_ret. intros b. owes_eq.
  - eapply triple_bind with (R := λ _, owes ({[+ Kretprobe s exit +]} ⊎ ∅));
      [|intros []; eapply triple_bind; [apply detach_owes|]].
    + eapply triple_conseq; [apply (detach_owes ({[+ Kretprobe s exit +]} ⊎ ∅))| |done].
      intros b. owes_eq.
    + intros []. apply triple_ret. intros b. owes_eq.
Qed.
Lemma attachPairs_owes l : keeps (owes ∅) (attachPairs l).
Proof.
  induction l as [|[[[op e] x] o] l IH]; cbn [attachPairs]; [apply keeps_ret|].
  eapply triple_bind with (R := λ r, owes (list_to_set_disj (default [] r) ⊎ ∅)).
  - unfold attachKprobePairWith. apply owes_bind; [apply keeps_get|]. intros b.
    destruct (_ || _); [|apply attachPairTo_owes; auto using configureKprobeABI_owes].
    apply triple_ret. intros b'. owes_eq.
  - intros [ls|]; cbn [default from_option id].
    + eapply triple_bind; [apply hold_owes|]. intros []. apply IH.
    + replace (list_to_set_disj [] ⊎ ∅ : gmultiset Link) with (∅ : gmultiset Link) by multiset_solver. apply keeps_if; auto using keeps_ret.
Qed.
Lemma attachUltraLegacy_owes : keeps (owes ∅) attachUltraLegacy.
Proof.
  unfold attachUltraLegacy. apply owes_bind; [apply keeps_get|]. intros b. apply keeps_if; [auto using keeps_ret|].
  intros _. apply attach_bind; cbn [negb]; [|apply keeps_ret].
  eapply triple_bind; [apply hold1_owes|]. intros []. apply attachPairs_owes.
Qed.
Lemma attachOverrides_owes paired l : keeps (owes ∅) (attachOverrides paired l).
Proof.
  induction l as [|[[op prog] o] l IH]; cbn [attachOverrides]; [apply keeps_ret|].
  apply owes_bind; [apply keeps_get|]. intros b. cbv zeta. apply keeps_if; [done|]. intros _.
  destruct (negb (present prog b)); [apply keeps_if; auto using keeps_ret|].
  eapply triple_bind; [apply attachKprobeTo_owes; auto using configureKprobeABI_owes|].
  intros [link|]; [|apply keeps_if; auto using keeps_ret].
  apply owes_bind; [apply keeps_when; intros _; apply hook_owes|]. intros [].
  eapply triple_bind with (R := λ _, owes ∅); [|intros []; apply IH].
  eapply triple_conseq; [apply (hold1_owes ∅)| |done]. intros b'. owes_eq.
Qed.
Lemma attachReturns_owes paired l : keeps (owes ∅) (attachReturns paired l).
Proof.
  induction l as [|[op prog] l IH]; cbn [attachReturns]; [apply keeps_ret|].
  apply owes_bind; [apply keeps_get|]. intros b. apply owes_bind; [|intros []; apply IH].
  apply keeps_if; [auto using keeps_ret|]. intros _.
  eapply triple_bind; [apply attachKprobeTo_owes; auto using keeps_ret|].
  intros [link|]; [|apply keeps_ret].
  eapply triple_conseq; [apply (hold1_owes ∅)| |done]. intros b'. owes_eq.
Qed.
Lemma attachKprobePrograms_owes : keeps (owes ∅) attachKprobePrograms.
Proof.
  unfold attachKprobePrograms.
  pose proof attachUltraLegacy_owes. pose proof attachOverrides_owes. pose proof attachReturns_owes. keeps_auto.
Qed.

Lemma onMap_links {A B} (get : sensorMaps → option A) put (m : M A (option B)) ls :
  keeps (λ s, (links s, closer s) = ls) (onMap get put m).
Proof.
  intros n s Hs. unfold after, onMap. destruct (get (maps s)); [|done]. by destruct (m n a) as [[? ?] ?].
Qed.
Lemma initialize_owes policy dryRun : keeps (owes ∅) (initialize policy dryRun).
Proof.
  assert (∀ a d, keeps (owes ∅) (onSensor (ConfigureEnforcement a d))) as He.
  { intros a d. apply on_owes. intros ls. unfold ConfigureEnforcement. keeps_auto. }
  assert (keeps (owes ∅) (onSensor (ConfigurePolicy policy))) as Hp.
  { apply on_owes. intros ls. pose proof @onMap_links. unfold ConfigurePolicy. keeps_auto. }
  assert (∀ rd, keeps (owes ∅) (modS (λ b, b <| sensor ::= λ s, s <| reader := Some rd |> |>))) as Hr
    by (intros rd; by apply off_owes).
  pose proof attachTracepoints_owes. pose proof attachLSMPrograms_owes. pose proof attachKprobePrograms_owes.
  unfold initialize, newEventReader. keeps_auto.
Qed.

Lemma closeLinks_spec ls n b :
  live b = base ⊎ list_to_set_disj ls →
  let b' := after (closeLinks ls) n b in
  live b' = base ∧ objects b' = objects b ∧ closer (sensor b') = closer (sensor b).
Proof.
  revert n b. induction ls as [|l ls IH]; intros n b Hb.
  { split_and!; [|done|done]. change (live b = base). rewrite Hb. multiset_solver. }
  cbn [closeLinks]. unfold after, mbind, M_bind, ask, detach, modS.
  specialize (IH (S n) (b <| live ::= λ m, m ∖ {[+ l +]} |>)). unfold after in IH.
  destruct (closeLinks ls _ _) as [[ok n'] b']. cbn in *. apply IH. rewrite Hb, list_to_set_disj_cons. multiset_solver.
Qed.
(** Closing gives up every link; the handles it may leave open are those of
    an object whose [Close] reports an error. *)
Lemma Close_spec n b :
  owes ∅ b →
  let '(ok, _, b') := Close n b in
  live b' = base ∧ (k - handles c ≤ objects b' ≤ k - handles c + residue c)%nat
  ∧ (ok = true ∨ closes_succeed → objects b' = (k - handles c)%nat).
Proof.
  intros (Hl & Ho & Hc & Hk). unfold Close, mbind, M_bind, getS. rewrite Hc.
  set (r := match reader (sensor b) with Some _ => _ | None => _ end).
  destruct (r n b) as [[ok1 n1] b1] eqn:Hr.
  assert (b1 = b) as -> by (unfold r, ask in Hr; destruct (reader (sensor b)); by injection Hr).
  destruct (closeLinks_spec (links (sensor b)) n1 b) as (Hlive & Hobj & Hcl);
    [by rewrite Hl, (right_id_L ∅ (⊎))|]. unfold after in *.
  destruct (closeLinks _ n1 b) as [[ok2 n2] b2]. cbn in Hlive, Hobj, Hcl. unfold zoom.
  pose proof (closerClose_spec c n2 k) as Hs. pose proof (λ Hall, closerClose_ok c Hall n2 k) as Ha.
  unfold result in Ha. rewrite Hobj, Ho, Hk. destruct (closerClose c n2 k) as [[ok3 n3] k3].
  destruct Hs as [Hs Hok]. cbn. split_and!; [done|lia|lia|]. intros [[_ ->]%andb_true_iff|Hall].
  - by apply Hok.
  - by apply Hok, Ha.
Qed.
End ledger.

(** ** Starting the sensor leaks nothing *)
Section start.
Context `{Environ} `{ObjectFiles}.

Abbreviation Host := (gmultiset Link * nat)%type.
Abbreviation ultraHandles := (handlesOf ransomwareUltraLegacyObjects).
#[local] Arguments handlesOf : simpl never.
(** What an attempt may leave behind: after an error no link, and no handle
    unless cleaning up failed. *)
Definition settled (h : Host) (res : InitError + Sensor) (h' : Host) : Prop :=
  match res with
  | inl err => h'.1 = h.1 ∧ (h.2 ≤ h'.2 ≤ h.2 + ultraHandles)%nat ∧ (err ≠ ErrCleanup ∨ closes_succeed → h' = h)
  | inr s => h' = (h.1 ⊎ list_to_set_disj (links s), (h.2 + handles (closer s))%nat)
      ∧ (residue (closer s) ≤ ultraHandles)%nat
  end.
(** A loader opens what it returns the closer of. *)
Definition closer_of (res : (InitError * option Closer) + loadedSensorObjects) : option Closer :=
  match res with inl (_, c) => c | inr l => Some (loadedSensorObjects.closer l) end.
Definition opens (load : M Host ((InitError * option Closer) + loadedSensorObjects)) : Prop :=
  ∀ n h, let '(res, _, h') := load n h in
    h' = (h.1, (h.2 + from_option handles 0 (closer_of res))%nat)
    ∧ (from_option residue 0 (closer_of res) ≤ ultraHandles)%nat.
Definition loaders_open (l : objectLoaders Host loadedSensorObjects (InitError * option Closer)) :=
  opens (core l) ∧ opens (legacyPerf l) ∧ opens (ultraLegacyMap l).

Lemma opens_error err : opens (mret (inl (err, None))).
Proof. intros n [l k]. cbn. split; [by rewrite Nat.add_0_r|lia]. Qed.
Lemma opens_bind {A} (m : M Host A) f :
  (∀ n h, after m n h = h) → (∀ x, opens (f x)) → opens (m ≫= f).
Proof.
  intros Hm Hf n h. specialize (Hm n h). unfold after, mbind, M_bind in *. destruct (m n h) as [[x n'] h']. cbn in Hm. subst. apply Hf.
Qed.
(** The end of the loaders of the two newer modes. *)
Lemma opens_bundle mode ms ps spec :
  opens (bundle ← onHandles (loadGroupedCollections (NewCollection mode) spec);
         mret (match bundle with
               | None => inl (ErrLoad, None)
               | Some b => inr (loadedSensorObjects.mkLoaded (BundleCloser b) ms (ps b))
               end)).
Proof.
  intros n [l k]. unfold mbind, M_bind, onHandles, zoom. cbn [fst snd].
  pose proof (loadGroupedCollections_spec (NewCollection mode) spec n k) as Hg. cbv zeta in Hg.
  destruct (loadGroupedCollections _ spec n k) as [[[b|] n'] k']; cbn.
  - destruct Hg as (_ & _ & _ & -> & _). split; [done|lia].
  - destruct Hg as [_ ->]. split; [by rewrite Nat.add_0_r|lia].
Qed.
Lemma loaders_open_all : loaders_open loaders.
Proof.
  split_and!; cbn [loaders core legacyPerf ultraLegacyMap].
  - apply opens_bind; [intros n h; unfold after, coreCollectionOptions, mbind, M_bind, ask; by case_bool_decide|].
    intros [err|types]; [apply opens_error|]. apply opens_bind; [done|]. intros [spec|]; [|apply opens_error].
    apply opens_bind; [|intros spec'; apply (opens_bundle Core)].
    intros n h. unfold after, selectVariant, mbind, M_bind, ask. case_bool_decide; [done|]. by destruct types.
  - apply opens_bind; [done|]. intros [spec|]; [|apply opens_error]. apply (opens_bundle LegacyPerf).
  - unfold loadUltraLegacyMapSensorObjects, loadRansomwareUltraLegacyObjects.
    destruct (validateUltraLegacyArchitecture GOARCH); [|apply opens_error].
    intros n [l k]. unfold mbind, M_bind, ask, onHandles, zoom.
    destruct (loadRansomwareUltraLegacy n); [destruct (LoadAndAssign (S n))|]; cbn -[handlesOf].
    + split; [f_equal; lia|done].
    + split; [by rewrite Nat.add_0_r|lia].
    + split; [by rewrite Nat.add_0_r|lia].
Qed.

Lemma startMode_settled init m l n h :
  (∀ base k c, keeps (owes base k c ∅) init) → (residue (loadedSensorObjects.closer l) ≤ ultraHandles)%nat →
  let '(res, _, h') := startMode init m l n (h.1, (h.2 + handles (loadedSensorObjects.closer l))%nat) in
  settled h res h'.
Proof.
  intros Hi Hres. unfold startMode. set (c := loadedSensorObjects.closer l) in *.
  specialize (Hi h.1 (h.2 + handles c)%nat c n (mkBoot (freshSensor m l) h.1 (h.2 + handles c) None)).
  unfold result, after in Hi. cbn [fst snd] in *. destruct (init n _) as [[err n'] b'].
  assert (owes h.1 (h.2 + handles c) c ∅ b') as Hb'.
  { apply Hi. split_and!; [|done|done|done]. cbn. multiset_solver. }
  destruct err as [err|].
  - pose proof (Close_spec h.1 (h.2 + handles c) c n' b' Hb') as Hcl.
    destruct (Close n' b') as [[ok n''] b'']. destruct Hcl as (Hl & Hk & Hok). cbn.
    split_and!; [done|lia|lia|]. intros Hne. destruct h. cbn in *. rewrite Hok, Hl; [f_equal; lia|].
    destruct ok; [by left|]. destruct Hne; [done|by right].
  - destruct Hb' as (-> & -> & _ & Hcl). cbn. rewrite Hcl. split; [|done]. f_equal. apply (right_id_L ∅ (⊎)).
Qed.
Lemma closeLoaded_settled c err n h :
  (from_option residue 0 c ≤ ultraHandles)%nat →
  let '(err', _, h') := closeLoaded c err n (h.1, (h.2 + from_option handles 0 c)%nat) in
  settled h (inl err') h'.
Proof.
  intros Hres. destruct h as [l k]. destruct c as [c|]; cbn in *.
  - unfold mbind, M_bind, onHandles, zoom. cbn. pose proof (closerClose_spec c n (k + handles c)) as Hc.
    pose proof (λ Hall, closerClose_ok c Hall n (k + handles c)%nat) as Ha. unfold result in Ha.
    destruct (closerClose c n _) as [[ok n'] k']. destruct Hc as [Hk Hok]. cbn.
    split_and!; [done|lia|lia|]. intros Hne. rewrite Hok; [f_equal; lia|].
    destruct ok; [done|]. destruct Hne as [Hne|Hall]; [done|by apply Ha].
  - rewrite Nat.add_0_r. split_and!; [done|lia|lia|done].
Qed.
Lemma tryModes_settled l init modes n h :
  loaders_open l → (∀ base k c, keeps (owes base k c ∅) init) →
  let '(res, _, h') := tryModes l init modes n h in settled h res h'.
Proof.
  intros (Hc & Hl & Hu) Hi. revert n.
  assert (∀ err : InitError, settled h (inl err) h) as Hrefl by (intros; split_and!; [done|lia|lia|done]).
  induction modes as [|m modes IH]; intros n; cbn [tryModes]; [apply Hrefl|].
  unfold mbind, M_bind. rewrite mode_loader. set (load := match m with Core => _ | _ => _ end).
  assert (opens load) as Ho by by destruct m.
  specialize (Ho n h). destruct (load n h) as [[loaded n1] h1].
  destruct Ho as [-> Hres].
  assert (∀ r n2 h2, settled h (inl r) h2 →
    let '(res, _, h') := (if fatal r then mret (inl r) else tryModes l init modes) n2 h2 in settled h res h') as Hnext.
  { intros r n2 h2 Hr. destruct (fatal r) eqn:Hf; [done|]. destruct Hr as (_ & _ & ->); [apply IH|left; by intros ->]. }
  destruct loaded as [[err c]|lo]; cbn [closer_of from_option] in *.
  - pose proof (closeLoaded_settled c err n1 h Hres) as Hs.
    destruct (closeLoaded c err n1 _) as [[err' n2] h2]. by apply Hnext.
  - pose proof (startMode_settled init m lo n1 h Hi Hres) as Hs.
    destruct (startMode init m lo n1 _) as [[[err|s] n2] h2]; [by apply Hnext|done].
Qed.

Lemma NewWithOptions_settled policy dryRun n h :
  let '(res, _, h') := NewWithOptions policy dryRun n h in settled h res h'.
Proof.
  unfold NewWithOptions, newSensorWith. destruct (sensorModeCandidates _).
  - apply tryModes_settled; [apply loaders_open_all|]. intros base k c. apply initialize_owes.
  - split_and!; [done|cbn; lia|cbn; lia|done].
Qed.
(** Closing a sensor that started, possibly after changes that concern
    neither its links nor its closer. *)
Lemma Close_started s s' n h :
  links s' = links s → closer s' = closer s → (residue (closer s) ≤ ultraHandles)%nat →
  let '(ok, _, b) := Close n (mkBoot s' (h.1 ⊎ list_to_set_disj (links s)) (h.2 + handles (closer s)) None) in
  live b = h.1 ∧ (h.2 ≤ objects b ≤ h.2 + ultraHandles)%nat ∧ (ok = true ∨ closes_succeed → objects b = h.2).
Proof.
  intros Hl Hc Hres. set (b := mkBoot _ _ _ _).
  pose proof (Close_spec h.1 (h.2 + handles (closer s)) (closer s) n b) as Hs.
  destruct (Close n b) as [[ok n'] b']. destruct Hs as (? & Hk & Hok).
  { split_and!; [|done|done|done]. cbn. by rewrite Hl, (right_id_L ∅ (⊎)). }
  split_and!; [done|lia|lia|]. intros Ht. rewrite (Hok Ht). lia.
Qed.

(** C5: Starting the sensor leaks nothing.  Whatever fails and whichever modes are
    tried, an error leaves every program attached on the way detached, and
    every handle of a program or map closed unless closing reports an error;
    then no more handles stay open than the object of the
    oldest mode has, whose generated [Close] stops at its first error.  A
    sensor that starts owns exactly the links and the handles that were added,
    and closing it gives back all its links, and all its handles when it
    reports success or no handle reports an error. *)
Theorem NewWithOptions_no_leak policy dryRun n h :
  let '(res, n', h') := NewWithOptions policy dryRun n h in
  match res with
  | inl err => h'.1 = h.1 ∧ (h.2 ≤ h'.2 ≤ h.2 + handlesOf ransomwareUltraLegacyObjects)%nat
      ∧ (err ≠ ErrCleanup ∨ closes_succeed → h' = h)
  | inr s => h' = (h.1 ⊎ list_to_set_disj (links s), (h.2 + handles (closer s))%nat)
      ∧ let '(ok, _, b) := Close n' (mkBoot s h'.1 h'.2 None) in
        live b = h.1 ∧ (h.2 ≤ objects b ≤ h.2 + handlesOf ransomwareUltraLegacyObjects)%nat
        ∧ (ok = true ∨ closes_succeed → objects b = h.2)
  end.
Proof.
  pose proof (NewWithOptions_settled policy dryRun n h) as Hs.
  destruct (NewWithOptions policy dryRun n h) as [[[err|s] n'] h']; [exact Hs|].
  destruct Hs as [-> Hres]. split; [done|]. by apply Close_started.
Qed.

(** ** What a started sensor may claim *)

(** The capabilities agree with each other: deny is available exactly when a
    deny hook is recorded, and the oldest mode records none.  Hooks.v relates
    what is recorded to what is attached. *)
Definition caps_honest (m : runtimeMode) (c : EnforcementCapabilities) : Prop :=
  EnforcementCapabilities.DenyAvailable c =
    negb (bool_decide (EnforcementCapabilities.LSMHooks c = [])
          && bool_decide (EnforcementCapabilities.OverrideHooks c = []))
  ∧ EnforcementCapabilities.DenyOpenat c =
      (bool_decide ("file_open" ∈ EnforcementCapabilities.LSMHooks c)
       || bool_decide ("openat" ∈ EnforcementCapabilities.OverrideHooks c))
  ∧ EnforcementCapabilities.UserspaceKill c = true
  ∧ (m = UltraLegacyMap → EnforcementCapabilities.DenyAvailable c = false).

(** No LSM program in the oldest mode. *)
Definition no_lsm (m : runtimeMode) (ps : gset string) : Prop :=
  m = UltraLegacyMap → ∀ prog hook, (prog, hook) ∈ lsmPrograms → prog ∉ ps.
Definition armed (m : runtimeMode) (ps : gset string) (v : option Z) (b : Boot) : Prop :=
  mode (sensor b) = m ∧ programs (sensor b) = ps
  ∧ sensorMaps.InlineIOCAction (maps (sensor b)) = v ∧ caps_honest m (capabilities (sensor b)).

Lemma bool_decide_app (x : string) l k :
  bool_decide (x ∈ l ++ [k]) = bool_decide (x ∈ l) || bool_decide (k = x).
Proof.
  destruct (decide (k = x)) as [->|Hne].
  - rewrite (bool_decide_eq_true_2 (x = x)), orb_true_r by done. apply bool_decide_eq_true. set_solver.
  - rewrite (bool_decide_eq_false_2 (k = x)), orb_false_r by done. apply bool_decide_ext. set_solver.
Qed.
Lemma record_honest m kind name c :
  m ≠ UltraLegacyMap → caps_honest m c → caps_honest m (recordDenyHook kind name c).
Proof.
  intros Hm (Ha & Ho & Hu & _). unfold recordDenyHook.
  assert (∀ l, bool_decide (l ++ [name] = []) = false) as Hne
    by (intros l; apply bool_decide_eq_false; by destruct l).
  destruct c as [mo a o u ls os]. cbn in *. subst.
  case_bool_decide; case_bool_decide as Hn; repeat split; cbn; try done;
    rewrite ?Hne, ?bool_decide_app, ?andb_false_r, ?(bool_decide_eq_true_2 _ Hn), ?(bool_decide_eq_false_2 _ Hn),
      ?orb_true_r, ?orb_false_r; done.
Qed.
#[local] Instance armed_stable m ps v : no_lsm m ps → BootStable m ps (armed m ps v).
Proof.
  intros Hl. split.
  - by intros b (? & ? & _).
  - done.
  - done.
  - done.
  - intros prog hook Hin Hp. apply keeps_mod. intros b (? & ? & ? & Hc). split_and!; try done.
    apply record_honest; [|done]. intros ->. by eapply Hl.
  - intros op Hm. apply keeps_mod. intros b (? & ? & ? & Hc). split_and!; try done. by apply record_honest.
Qed.

Lemma onMap_armed {A B} m ps v (get : sensorMaps → option A) put (f : M A (option B)) :
  (∀ x y, sensorMaps.InlineIOCAction (put x y) = sensorMaps.InlineIOCAction y) →
  keeps (armed m ps v) (onSensor (onMap get put f)).
Proof.
  intros Hput n b (? & ? & Hv & ?). unfold after, onSensor, zoom, onMap.
  destruct (get (maps (sensor b))); [|by destruct b].
  destruct (f n a) as [[r n'] x']. split_and!; try done. cbn. by rewrite Hput.
Qed.
Lemma onSensor_bind {A B} (f : M Sensor A) (g : A → M Sensor B) n b :
  onSensor (f ≫= g) n b = (x ← onSensor f; onSensor (g x)) n b.
Proof.
  unfold onSensor, zoom, mbind, M_bind. destruct b as [s ? ? ?]. cbn.
  destruct (f n s) as [[x n'] s']. cbn. by destruct (g x n' s') as [[? ?] ?].
Qed.
Lemma onSensor_keeps_bind {A B} I (f : M Sensor A) (g : A → M Sensor B) :
  keeps I (onSensor f) → (∀ x, keeps I (onSensor (g x))) → keeps I (onSensor (f ≫= g)).
Proof.
  intros Hf Hg n b Hb. unfold result, after. rewrite onSensor_bind. by apply (keeps_bind _ _ _ Hf Hg).
Qed.
Lemma onSensor_keeps_ret {A} I (x : A) : keeps I (onSensor (mret x)).
Proof. intros n b. unfold after, onSensor, zoom. cbn. by destruct b. Qed.

Lemma ConfigurePolicy_armed m ps v policy : keeps (armed m ps v) (onSensor (ConfigurePolicy policy)).
Proof.
  unfold ConfigurePolicy.
  repeat first [ apply onSensor_keeps_ret | apply onMap_armed; done
               | apply onSensor_keeps_bind; [|intros ?] | case_match ].
Qed.
Lemma ConfigureEnforcement_armed m ps v action dryRun :
  triple (armed m ps v) (onSensor (ConfigureEnforcement action dryRun)) (λ err b,
    match err with
    | Some _ => armed m ps v b
    | None => ∃ value, enforcementValue action = Some value
                       ∧ armed m ps ((λ _, if dryRun then 0 else value) <$> v) b
    end).
Proof.
  intros n b (Hm & Hps & Hv & Hc). unfold result, after, onSensor, zoom, ConfigureEnforcement.
  destruct (enforcementValue action) as [value|]; cbn; [|by destruct b].
  unfold mbind, M_bind, getS, ask. rewrite Hv. destruct v; cbn; [|exists value; by destruct b].
  destruct (map_Put_ok n); cbn; [|by destruct b]. exists value. by split_and!.
Qed.

Lemma ConfigureEnforcement_caps action dryRun n b :
  capabilities (sensor (after (onSensor (ConfigureEnforcement action dryRun)) n b)) = capabilities (sensor b).
Proof.
  assert (keeps (λ s, capabilities s = capabilities (sensor b)) (ConfigureEnforcement action dryRun)) as Hk
    by (unfold ConfigureEnforcement; keeps_auto).
  specialize (Hk n (sensor b) eq_refl). unfold after, onSensor, zoom in *. destruct b as [s ? ? ?]. cbn in *.
  by destruct (ConfigureEnforcement action dryRun n s) as [[? ?] ?].
Qed.

Lemma newEventReader_keeps (I : Boot → Prop) m events cursor : keeps I (newEventReader m events cursor).
Proof. unfold newEventReader. keeps_auto. Qed.

(** What starting in one mode guarantees. *)
Lemma initialize_armed m ps v policy dryRun :
  no_lsm m ps →
  triple (armed m ps v) (initialize policy dryRun) (λ err b,
    match err with
    | Some _ => armed m ps v b ∨ armed m ps ((λ _, 0) <$> v) b
    | None => ∃ value, enforcementValue (Policy.Action policy) = Some value
        ∧ armed m ps ((λ _, if dryRun then 0 else value) <$> v) b
        ∧ validatePolicyCapabilities (capabilities (sensor b)) policy dryRun = true
    end).
Proof.
  intros Hl. pose proof (armed_stable m ps ((λ _, 0) <$> v) Hl) as Hst. unfold initialize.
  eapply triple_bind; [apply ConfigurePolicy_armed|]. intros []; cbn [negb]; [|apply triple_ret; by left].
  eapply triple_bind; [apply ConfigureEnforcement_armed|]. intros [e|].
  { rewrite bool_decide_eq_true_2 by done. apply triple_ret. by left. }
  rewrite bool_decide_eq_false_2 by (intros Hn; by apply Hn).
  refine (triple_conseq _ (armed m ps ((λ _, 0) <$> v)) _ _ _ _ _ (λ a b x, x)); [|by intros b (? & _ & ?)].
  eapply triple_bind; [eapply attachTracepoints_stable; apply _|]. intros [e|]; [apply triple_ret; by right|].
  eapply triple_bind; [eapply attachLSMPrograms_stable; apply _|]. intros [].
  eapply triple_bind; [eapply attachKprobePrograms_stable; apply _|]. intros [e|]; [apply triple_ret; by right|].
  apply triple_get. intros b Hb. destruct (validatePolicyCapabilities _ _ _) eqn:Hval; cbn [negb].
  2: { apply triple_ret. intros ? ->. by right. }
  apply triple_bind with (R := λ _ x, x = b); [apply newEventReader_keeps|].
  intros [rd|]; [|apply triple_ret; intros ? ->; by right].
  set (f := λ b : Boot, b <| sensor ::= λ s, s <| reader := Some rd |> |>). apply triple_bind with (R := λ _ x, x = f b); [by intros n x ->|]. intros [].
  intros n x ->. assert (armed m ps ((λ _, 0) <$> v) (f b)) as Hf by done.
  pose proof (ConfigureEnforcement_armed m ps _ (Policy.Action policy) dryRun n (f b) Hf) as Hc.
  pose proof (ConfigureEnforcement_caps (Policy.Action policy) dryRun n (f b)) as Hcap.
  unfold result, after, mbind, M_bind in *. destruct (onSensor _ n (f b)) as [[[e|] n'] b']; cbn in *.
  - by right.
  - destruct Hc as (value & Hval' & Hb'). exists value. rewrite Hcap.
    split_and!; [done|by destruct v|done].
Qed.

(** The policy asks for deny, as its default action or in a rule. *)
Definition asks_deny (policy : Policy) : Prop :=
  EqualFold (TrimSpace (Policy.Action policy)) "deny" = true
  ∨ ∃ rule, rule ∈ Policy.Rules policy ∧ ToLower (TrimSpace (Rule.Action rule)) ∈ ["deny"; "block"].
Lemma validate_deny c policy :
  validatePolicyCapabilities c policy false = true → asks_deny policy →
  EnforcementCapabilities.DenyAvailable c = true.
Proof.
  unfold validatePolicyCapabilities. destruct (EnforcementCapabilities.DenyAvailable c); [done|]. cbn.
  intros Hv [Hd|(rule & Hr & Ha)]; [by rewrite Hd in Hv|].
  destruct (EqualFold _ _); [done|]. apply negb_true_iff in Hv.
  rewrite <- Hv. apply existsb_exists. exists rule. split; [by apply list_elem_of_In|].
  apply orb_true_iff. rewrite !bool_decide_eq_true. set_solver.
Qed.

(** What holds of a sensor that was started. *)
Definition started (policy : Policy) (dryRun : bool) (modes : list runtimeMode) (s : Sensor) : Prop :=
  mode s ∈ modes ∧ caps_honest (mode s) (capabilities s)
  ∧ validatePolicyCapabilities (capabilities s) policy dryRun = true
  ∧ ∃ value, enforcementValue (Policy.Action policy) = Some value
    ∧ ∀ v, sensorMaps.InlineIOCAction (maps s) = Some v → v = if dryRun then 0 else value.

Lemma loaded_no_lsm m n h l n' h' :
  loadSensorObjectsWith (ErrMode, None) (modeName m) loaders n h = (inr l, n', h') →
  no_lsm m (loadedSensorObjects.programs l).
Proof.
  rewrite mode_loader. intros Hl Hm prog hook Hin. subst m. cbn in Hl.
  unfold loadUltraLegacyMapSensorObjects, mbind, M_bind in Hl.
  destruct (validateUltraLegacyArchitecture GOARCH); [|done].
  destruct (loadRansomwareUltraLegacyObjects n h) as [[[[mp0 ps0]|] n1] h1]; [|done].
  injection Hl as <- _ _. cbn [loadedSensorObjects.programs]. unfold ultraLegacyMapPrograms. intros [_ Hp%elem_of_list_to_set]%elem_of_intersection.
  assert (Forall (λ x, x.1 ∉ ultraLegacyProgramFields) lsmPrograms) as Hall by (by apply (bool_decide_unpack _)).
  rewrite Forall_forall in Hall. by apply (Hall _ Hin).
Qed.
Lemma startMode_started policy dryRun m l n h s n' h' :
  no_lsm m (loadedSensorObjects.programs l) →
  startMode (initialize policy dryRun) m l n h = (inr s, n', h') →
  started policy dryRun [m] s.
Proof.
  intros Hl. unfold startMode. set (b := mkBoot _ _ _ _). set (ps := loadedSensorObjects.programs l) in *.
  set (v := sensorMaps.InlineIOCAction (loadedSensorObjects.maps l)).
  assert (armed m ps v b) as Hb by by repeat split.
  pose proof (initialize_armed m ps v policy dryRun Hl n b Hb) as Hi. unfold result, after in Hi.
  destruct (initialize policy dryRun n b) as [[[err|] n1] b1]; cbn in *.
  { by destruct (Close n1 b1) as [[? ?] ?]. }
  intros [= <- _ _]. destruct Hi as (value & Hv & (Hm & _ & Ha & Hc) & Hval). rewrite <- Hm in Hc |- *.
  split_and!; [set_solver|done|done|]. exists value. split; [done|]. intros v' Hv'. rewrite Ha in Hv'.
  by destruct v; simplify_eq/=.
Qed.
(** A sensor that starts was started in one of the modes, from what the loader
    of that mode gave. *)
Lemma tryModes_result init modes n h s n' h' :
  tryModes loaders init modes n h = (inr s, n', h') →
  ∃ m l n0 h0 n1 h1, m ∈ modes
    ∧ loadSensorObjectsWith (ErrMode, None) (modeName m) loaders n0 h0 = (inr l, n1, h1)
    ∧ startMode init m l n1 h1 = (inr s, n', h').
Proof.
  revert n h. induction modes as [|m modes IH]; intros n h; cbn [tryModes]; [done|].
  unfold mbind, M_bind. destruct (loadSensorObjectsWith _ _ _ n h) as [[loaded n1] h1] eqn:Hl.
  assert (∀ e n2 h2, (if fatal e then mret (inl e) else tryModes loaders init modes)
    n2 h2 = (inr s, n', h') → ∃ m' l n0 h0 n1 h1, m' ∈ m :: modes
    ∧ loadSensorObjectsWith (ErrMode, None) (modeName m') loaders n0 h0 = (inr l, n1, h1)
    ∧ startMode init m' l n1 h1 = (inr s, n', h')) as Hnext.
  { intros e n2 h2. destruct (fatal e); [done|].
    intros (m' & l & n0 & h0 & n3 & h3 & ? & ? & ?)%IH. exists m', l, n0, h0, n3, h3. split; [set_solver|done]. }
  destruct loaded as [[err closer]|l].
  - destruct (closeLoaded closer err n1 h1) as [[e n2] h2]. apply Hnext.
  - destruct (startMode init m l n1 h1) as [[[e|s'] n2] h2] eqn:Hs; [apply Hnext|].
    intros [= -> -> ->]. exists m, l, n, h, n1, h1. split; [set_solver|done].
Qed.
Abbreviation modeValue := (TrimSpace (os_Getenv "EBPFFLS_BPF_MODE")).
Lemma NewWithOptions_result policy dryRun n h s :
  result (NewWithOptions policy dryRun) n h = inr s →
  ∃ modes m l n0 h0 n1 h1 n' h', sensorModeCandidates modeValue = Some modes ∧ m ∈ modes
    ∧ loadSensorObjectsWith (ErrMode, None) (modeName m) loaders n0 h0 = (inr l, n1, h1)
    ∧ startMode (initialize policy dryRun) m l n1 h1 = (inr s, n', h').
Proof.
  unfold result, NewWithOptions, newSensorWith. destruct (sensorModeCandidates _) as [modes|]; [|done].
  destruct (tryModes _ _ modes n h) as [[res n'] h'] eqn:Ht. cbn. intros ->.
  apply tryModes_result in Ht as (m & l & n0 & h0 & n1 & h1 & ? & ? & ?).
  by exists modes, m, l, n0, h0, n1, h1, n', h'.
Qed.
Lemma NewWithOptions_started policy dryRun n h s :
  result (NewWithOptions policy dryRun) n h = inr s →
  ∃ modes, sensorModeCandidates modeValue = Some modes ∧ started policy dryRun modes s.
Proof.
  intros (modes & m & l & n0 & h0 & n1 & h1 & n' & h' & Hm & Hin & Hl & Hs)%NewWithOptions_result.
  exists modes. split; [done|]. apply startMode_started in Hs as (Hms & ?); [|by eapply loaded_no_lsm].
  split; [set_solver|done].
Qed.

End start.
End boot.
