(* ===== verification/Coverage.v ===== *)
(** * What a started sensor observes

    The hooks the sensor requires (internal/sensor/sensor.go): a sensor that
    starts has attached each of them, in whichever mode it runs; and the
    programs they need are all there once the objects of a mode are loaded. *)
From stdpp Require Import gmultiset.
From S2P Require Import Prelude GoStrings GoPath GoTime Config World Event Scope Objects Interface.
From S2P Require Import Polling Sensor Loading Attach AttachTheory.

Import Sensor Boot.

Section coverage.
Context `{Unicode} `{World} `{Kernel} `{Closing}.

(** A property of the attached links that more links do not break. *)
Definition grows (Q : list Link → Prop) : Prop := ∀ ls ks, Q ls → Q (ls ++ ks).
(** The mode, the programs and such a property. *)
Definition covers (m : runtimeMode) (ps : gset string) (Q : list Link → Prop) (b : Boot) : Prop :=
  mode (sensor b) = m ∧ programs (sensor b) = ps ∧ Q (links (sensor b)).
#[local] Instance covers_stable m ps Q : grows Q → BootStable m ps (covers m ps Q).
Proof.
  intros HQ. split.
  - by intros b (? & ? & _).
  - done.
  - intros b ls (? & ? & ?). split_and!; [done|done|by apply HQ].
  - done.
  - intros prog hook _ _. by apply keeps_mod.
  - intros op _. by apply keeps_mod.
Qed.
Lemma grows_and Q R : grows Q → grows R → grows (λ ls, Q ls ∧ R ls).
Proof. intros HQ HR ls ks [? ?]. split; [by apply HQ|by apply HR]. Qed.
Lemma grows_elem l : grows (λ ls, l ∈ ls).
Proof. intros ls ks. set_solver. Qed.
Lemma grows_true : grows (λ _, True).
Proof. done. Qed.

(** ** Tracepoints *)
Definition tracepoint_in (ls : list Link) (t : string * string * string * bool) : Prop :=
  let '(category, name, prog, optional) := t in
  optional = false → optionalSyscallTracepoint category name GOARCH = false → Tracepoint category name prog ∈ ls.
Lemma grows_tracepoint t : grows (λ ls, tracepoint_in ls t).
Proof. intros ls ks. destruct t as [[[c nm] p] o]. unfold tracepoint_in. set_solver. Qed.

Section fixed.
Context (m : runtimeMode) (ps : gset string).
Abbreviation cov := (covers m ps).

Lemma hold_covers Q ls R :
  grows Q → (∀ ks, R (ks ++ ls)) → triple (cov Q) (hold ls) (λ _, cov (λ ks, Q ks ∧ R ks)).
Proof. intros HQ HR n b (? & ? & ?). split_and!; [done|done|by apply HQ|apply HR]. Qed.
Lemma cov_weaken (Q R : list Link → Prop) b : (∀ ls, Q ls → R ls) → cov Q b → cov R b.
Proof. intros HQ (? & ? & ?). split_and!; auto. Qed.

Lemma attachTable_covers Q l :
  grows Q →
  triple (cov Q) (attachTable l) (λ err b, err = None → cov (λ ls, Q ls ∧ Forall (tracepoint_in ls) l) b).
Proof.
  revert Q. induction l as [|[[[category name] prog] optional] l IH]; intros Q HQ; cbn [attachTable].
  { apply triple_ret. intros b Hb _. by apply (cov_weaken Q). }
  eapply triple_bind; [apply keeps_get|]. intros b0. cbv zeta.
  set (opt := optional || optionalSyscallTracepoint category name GOARCH).
  assert (opt = true → ∀ ls, tracepoint_in ls (category, name, prog, optional)) as Hopt.
  { unfold opt, tracepoint_in. intros [->| ->]%orb_true_iff; done. }
  assert (opt = true → triple (cov Q) (attachTable l)
    (λ err b, err = None → cov (λ ls, Q ls ∧ Forall (tracepoint_in ls) ((category, name, prog, optional) :: l)) b)) as Hskip.
  { intros Ho. eapply triple_conseq; [by apply IH|done|]. intros err b Hb He.
    eapply cov_weaken; [|by apply Hb]. intros ls [? ?]. split; [done|]. constructor; auto. }
  destruct (negb (present prog b0)).
  { destruct opt; [by apply Hskip|]. by apply triple_ret. }
  eapply triple_bind; [eapply attach_stable, covers_stable; done|]. intros [].
  2: { destruct opt; [by apply Hskip|]. by apply triple_ret. }
  eapply triple_bind; [apply (hold_covers Q _ (λ ls, tracepoint_in ls (category, name, prog, optional)) HQ)|].
  { intros ks _ _. set_solver. }
  intros []. eapply triple_conseq; [apply (IH _ (grows_and _ _ HQ (grows_tracepoint (category, name, prog, optional))))|done|].
  intros err b Hb He. eapply cov_weaken; [|by apply Hb]. intros ls [[? ?] ?]. split; [done|]. by constructor.
Qed.
Lemma attachTracepoints_covers :
  triple (cov (λ _, True)) attachTracepoints
    (λ err b, err = None → cov (λ ls, m ≠ UltraLegacyMap → Forall (tracepoint_in ls) tracepoints) b).
Proof.
  unfold attachTracepoints. apply triple_get. intros b0 Hb0. destruct (Hb0) as (Hm & _). rewrite Hm.
  case_bool_decide as Hu; [apply triple_ret; intros b -> _; by apply (cov_weaken (λ _, True))|].
  refine (triple_conseq _ (cov (λ _, True)) _ _ _ _ _ (λ a b x, x)); [|by intros ? ->].
  eapply triple_bind; [by apply attachTable_covers|]. intros [err|]; [by apply triple_ret|].
  set (Q := λ ls, True ∧ Forall (tracepoint_in ls) tracepoints).
  assert (grows Q) as HQ.
  { intros ls ks [_ Hf]. split; [done|]. eapply Forall_impl; [done|]. intros t. apply grows_tracepoint. }
  refine (triple_conseq _ (cov Q) _ _ _ _ _ (λ a b x, x)); [|intros b Hb; by apply Hb].
  pose proof (covers_stable m ps Q HQ) as Hst.
  eapply triple_bind; [apply (attachOpenat2_stable m ps (cov Q))|]. intros [].
  apply triple_ret. intros b Hb _. eapply cov_weaken; [|done]. by intros ls [_ ?].
Qed.

(** ** Kprobes of the oldest kernels *)
Definition probe_in (ls : list Link) (op prog : string) : Prop :=
  ∃ symbol, symbol ∈ kprobeSymbols op GOARCH ∧ Kprobe symbol prog ∈ ls.
Definition pair_in (ls : list Link) (t : string * string * string * bool) : Prop :=
  let '(op, entry, exit, optional) := t in
  optional = false →
  ∃ symbol, symbol ∈ kprobeSymbols op GOARCH ∧ Kprobe symbol entry ∈ ls ∧ Kretprobe symbol exit ∈ ls.
Definition override_in (paired : list string) (ls : list Link) (t : string * string * bool) : Prop :=
  let '(op, prog, optional) := t in optional = false → op ∉ paired → prog ∈ ps → probe_in ls op prog.
Lemma grows_pair t : grows (λ ls, pair_in ls t).
Proof.
  intros ls ks. destruct t as [[[op e] x] o]. intros Hp Ho. destruct (Hp Ho) as (s & ? & ? & ?). exists s. set_solver.
Qed.
Lemma grows_override paired t : grows (λ ls, override_in paired ls t).
Proof.
  intros ls ks. destruct t as [[op p] o]. intros Hp Ho Hn Hi. destruct (Hp Ho Hn Hi) as (s & ? & ?). exists s. set_solver.
Qed.

(** What attaching to the first symbol that works returns. *)
Lemma attachKprobeTo_result kind configure prog symbols :
  triple (λ _, True) (attachKprobeTo kind configure prog symbols)
    (λ r _, ∀ l, r = Some l → ∃ symbol, symbol ∈ symbols ∧ l = kind symbol prog).
Proof.
  induction symbols as [|s symbols IH]; cbn [attachKprobeTo]; [by apply triple_ret|].
  apply triple_bind with (R := λ _ _, True); [done|]. intros [].
  - apply triple_bind with (R := λ _ _, True); [done|]. intros [].
    + apply triple_ret. intros b _ l [= <-]. exists s. set_solver.
    + apply triple_bind with (R := λ _ _, True); [done|]. intros []. by apply triple_ret.
  - eapply triple_conseq; [apply IH|done|]. intros r b Hr l Hl. destruct (Hr l Hl) as (s' & ? & ?). exists s'. set_solver.
Qed.
Lemma attachPairTo_result configure entry exit symbols :
  triple (λ _, True) (attachPairTo configure entry exit symbols)
    (λ r _, ∀ ls, r = Some ls → ∃ symbol, symbol ∈ symbols ∧ ls = [Kprobe symbol entry; Kretprobe symbol exit]).
Proof.
  induction symbols as [|s symbols IH]; cbn [attachPairTo]; [by apply triple_ret|].
  assert (triple (λ _, True) (attachPairTo configure entry exit symbols)
    (λ r _, ∀ ls, r = Some ls →
       ∃ symbol, symbol ∈ s :: symbols ∧ ls = [Kprobe symbol entry; Kretprobe symbol exit])) as IH'.
  { eapply triple_conseq; [apply IH|done|]. intros r b Hr ls Hl. destruct (Hr ls Hl) as (s' & ? & ?). exists s'. set_solver. }
  apply triple_bind with (R := λ _ _, True); [done|]. intros []; cbn [negb]; [|done].
  apply triple_bind with (R := λ _ _, True); [done|]. intros [].
  - apply triple_bind with (R := λ _ _, True); [done|]. intros [].
    + apply triple_ret. intros b _ ls [= <-]. exists s. set_solver.
    + apply triple_bind with (R := λ _ _, True); [done|]. intros [].
      apply triple_bind with (R := λ _ _, True); [done|]. intros []. by apply triple_ret.
  - apply triple_bind with (R := λ _ _, True); [done|]. by intros [].
Qed.

Lemma attachPairs_covers Q l :
  grows Q →
  triple (cov Q) (attachPairs l) (λ err b, err = None → cov (λ ls, Q ls ∧ Forall (pair_in ls) l) b).
Proof.
  revert Q. induction l as [|[[[op entry] exit] optional] l IH]; intros Q HQ; cbn [attachPairs].
  { apply triple_ret. intros b Hb _. by apply (cov_weaken Q). }
  pose proof (covers_stable m ps Q HQ) as Hst.
  apply triple_bind with (R := λ r b, cov Q b ∧ ∀ ls, r = Some ls → ∀ ks, pair_in (ks ++ ls) (op, entry, exit, optional)).
  { intros n b Hb. split.
    - apply (attachKprobePairWith_stable m ps (cov Q)); [|done]. intros symbol. by apply (configureKprobeABI_stable m ps).
    - intros ls Hls ks _. unfold attachKprobePairWith, result, mbind, M_bind, getS in Hls. revert Hls.
      destruct (_ || _); [done|]. intros Hls.
      destruct (attachPairTo_result _ entry exit (kprobeSymbols op GOARCH) n b I ls Hls) as (s & ? & ->).
      exists s. set_solver. }
  intros [ls|].
  - eapply triple_bind with (R := λ _, cov (λ ks, Q ks ∧ pair_in ks (op, entry, exit, optional))).
    { intros n b [Hb Hp]. by apply (hold_covers Q ls (λ ks, pair_in ks (op, entry, exit, optional)) HQ (Hp ls eq_refl)). }
    intros []. eapply triple_conseq; [apply (IH _ (grows_and _ _ HQ (grows_pair (op, entry, exit, optional))))|done|].
    intros err b Hb He. eapply cov_weaken; [|by apply Hb]. intros ks [[? ?] ?]. split; [done|]. by constructor.
  - destruct optional; [|by apply triple_ret].
    eapply triple_conseq; [by apply (IH Q)|by intros b [? _]|]. intros err b Hb He.
    eapply cov_weaken; [|by apply Hb]. intros ks [? ?]. split; [done|]. by constructor.
Qed.
Lemma attachOverrides_covers Q paired l :
  m = UltraLegacyMap → grows Q →
  triple (cov Q) (attachOverrides paired l)
    (λ err b, err = None → cov (λ ls, Q ls ∧ Forall (override_in paired ls) l) b).
Proof.
  intros Hu. revert Q. induction l as [|[[op prog] optional] l IH]; intros Q HQ; cbn [attachOverrides].
  { apply triple_ret. intros b Hb _. by apply (cov_weaken Q). }
  pose proof (covers_stable m ps Q HQ) as Hst. set (t := (op, prog, optional)).
  assert ((∀ ls, override_in paired ls t) → triple (cov Q) (attachOverrides paired l)
    (λ err b, err = None → cov (λ ls, Q ls ∧ Forall (override_in paired ls) (t :: l)) b)) as Hskip.
  { intros Ho. eapply triple_conseq; [by apply IH|done|]. intros err b Hb He.
    eapply cov_weaken; [|by apply Hb]. intros ls [? ?]. split; [done|]. by constructor. }
  apply triple_get. intros b0 (Hm & Hps & HQ0). cbv zeta. rewrite Hm, (bool_decide_eq_true_2 _ Hu).
  refine (triple_conseq _ (cov Q) _ _ _ _ _ (λ a b x, x)); [|by intros ? ->].
  case_bool_decide as Hin; [apply Hskip; by intros ls _ []|].
  unfold present. rewrite Hps. case_bool_decide as Hp; cbn [negb]; rewrite ?orb_false_r, ?orb_true_r; [|apply Hskip; by intros ls _ _ ?].
  apply triple_bind with (R := λ r b, cov Q b ∧ ∀ link, r = Some link → ∀ ks, override_in paired (ks ++ [link]) t).
  { intros n b Hb. split.
    - apply (attachKprobeTo_stable m ps (cov Q)); [|done]. intros symbol. by apply (configureKprobeABI_stable m ps).
    - intros link Hl ks _ _ _.
      destruct (attachKprobeTo_result Kprobe _ prog (kprobeSymbols op GOARCH) n b I link Hl) as (s & ? & ->).
      exists s. set_solver. }
  intros [link|].
  - cbn [when]. apply triple_bind with (R := λ _ b, cov Q b ∧ ∀ ks, override_in paired (ks ++ [link]) t).
    { intros n b [Hb Hl]. split; [done|by apply Hl]. }
    intros []. eapply triple_bind with (R := λ _, cov (λ ks, Q ks ∧ override_in paired ks t)).
    { intros n b [Hb Hl]. by apply (hold_covers Q [link] (λ ks, override_in paired ks t) HQ Hl). }
    intros []. eapply triple_conseq; [apply (IH _ (grows_and _ _ HQ (grows_override paired t)))|done|].
    intros err b Hb He. eapply cov_weaken; [|by apply Hb]. intros ks [[? ?] ?]. split; [done|]. by constructor.
  - destruct optional; [|by apply triple_ret].
    eapply triple_conseq; [by apply Hskip|by intros b [? _]|done].
Qed.

(** ** The whole start *)
Abbreviation pairedOps := ((λ '(op, _, _, _), op) <$> kprobePairs).
(** The hooks the mode requires. *)
Definition required (ls : list Link) : Prop :=
  match m with
  | UltraLegacyMap => Kprobe "do_exit" "KpProcessExit" ∈ ls ∧ Forall (pair_in ls) kprobePairs
      ∧ Forall (override_in pairedOps ls) kprobes
  | _ => Forall (tracepoint_in ls) tracepoints
  end.
Lemma grows_required : grows required.
Proof.
  intros ls ks. unfold required. destruct m.
  1,2: intros Hf; eapply Forall_impl; [done|]; intros t; apply grows_tracepoint.
  intros (? & Hp & Ho). split_and!; [set_solver| |].
  - eapply Forall_impl; [apply Hp|]. intros t. apply grows_pair.
  - eapply Forall_impl; [apply Ho|]. intros t. apply grows_override.
Qed.
(** In the oldest mode. *)
Lemma attachUltraLegacy_covers :
  triple (cov (λ _, True)) attachUltraLegacy
    (λ err b, err = None →
       cov (λ ls, Kprobe "do_exit" "KpProcessExit" ∈ ls ∧ Forall (pair_in ls) kprobePairs) b).
Proof.
  pose proof (covers_stable m ps _ grows_true) as Hst. unfold attachUltraLegacy.
  eapply triple_bind; [apply keeps_get|]. intros b0. destruct (negb _); [by apply triple_ret|].
  eapply triple_bind; [apply (attach_stable m ps (cov (λ _, True)))|]. intros []; cbn [negb]; [|by apply triple_ret].
  eapply triple_bind;
    [apply (hold_covers (λ _, True) [Kprobe "do_exit" "KpProcessExit"] (λ ls, Kprobe "do_exit" "KpProcessExit" ∈ ls) grows_true); set_solver|].
  intros []. eapply triple_conseq;
    [apply (attachPairs_covers _ kprobePairs (grows_and _ _ grows_true (grows_elem (Kprobe "do_exit" "KpProcessExit"))))|done|].
  intros err b Hb He. eapply cov_weaken; [|by apply Hb]. intros ls [[_ ?] ?]. done.
Qed.
Lemma attachKprobePrograms_ultra :
  m = UltraLegacyMap →
  triple (cov (λ _, True)) attachKprobePrograms (λ err b, err = None → cov required b).
Proof.
  intros Hu. unfold attachKprobePrograms. apply triple_get. intros b0 Hb0.
  pose proof Hb0 as (Hm & Hps & _). cbv zeta. rewrite Hm, (bool_decide_eq_true_2 _ Hu).
  refine (triple_conseq _ (cov (λ _, True)) _ _ _ _ _ (λ a b x, x)); [|by intros ? ->].
  eapply triple_bind; [apply attachUltraLegacy_covers|]. intros [err|]; [by apply triple_ret|].
  set (Q := λ ls, Kprobe "do_exit" "KpProcessExit" ∈ ls ∧ Forall (pair_in ls) kprobePairs).
  assert (grows Q) as HQ.
  { apply grows_and; [apply grows_elem|]. intros ls ks Hf. eapply Forall_impl; [apply Hf|].
    intros t. apply grows_pair. }
  refine (triple_conseq _ (cov Q) _ _ _ _ _ (λ a b x, x)); [|intros b Hb; by apply Hb].
  eapply triple_bind; [by apply attachOverrides_covers|]. intros [err|]; [by apply triple_ret|].
  refine (triple_conseq _ (cov required) _ _ _ _ _ (λ a b x, x)).
  2: { intros b Hb. eapply cov_weaken; [|by apply Hb]. unfold required. rewrite Hu. by intros ls [[? ?] ?]. }
  pose proof (covers_stable m ps _ grows_required) as Hst.
  eapply triple_bind; [apply (attachReturns_stable m ps (cov required))|]. intros []. by apply triple_ret.
Qed.

(** Steps of the start that attach nothing. *)
Lemma onSensor_covers {A} Q (f : M Sensor A) :
  (∀ w, keeps (λ s, (mode s, programs s, links s) = w) f) → keeps (cov Q) (onSensor f).
Proof.
  intros Hf n b (Hm & Hp & HQ). specialize (Hf _ n (sensor b) eq_refl). unfold after, onSensor, zoom in *.
  destruct (f n (sensor b)) as [[a n'] s']. cbn in *. injection Hf as H1' H2' H3'. split_and!; cbn; congruence.
Qed.
Lemma onMap_fixed {A B} (get : sensorMaps → option A) put (f : M A (option B)) w :
  keeps (λ s, (mode s, programs s, links s) = w) (onMap get put f).
Proof.
  intros n s Hs. unfold after, onMap. destruct (get (maps s)); [|done]. by destruct (f n a) as [[? ?] ?].
Qed.
Lemma initialize_covers policy dryRun :
  triple (cov (λ _, True)) (initialize policy dryRun) (λ err b, err = None → cov required b).
Proof.
  assert (∀ Q a d, keeps (cov Q) (onSensor (ConfigureEnforcement a d))) as He.
  { intros Q a d. apply onSensor_covers. intros w. unfold ConfigureEnforcement. keeps_auto. }
  assert (∀ Q, keeps (cov Q) (onSensor (ConfigurePolicy policy))) as Hp.
  { intros Q. apply onSensor_covers. intros w. pose proof @onMap_fixed. unfold ConfigurePolicy. keeps_auto. }
  unfold initialize. eapply triple_bind; [apply Hp|]. intros []; cbn [negb]; [|by apply triple_ret].
  eapply triple_bind; [apply He|]. intros err. destruct (bool_decide _); [by apply triple_ret|].
  eapply triple_bind; [apply attachTracepoints_covers|]. intros [e|]; [by apply triple_ret|].
  set (T := λ ls, m ≠ UltraLegacyMap → Forall (tracepoint_in ls) tracepoints).
  assert (grows T) as HT.
  { intros ls ks Ht Hm. eapply Forall_impl; [by apply Ht|]. intros t. apply grows_tracepoint. }
  refine (triple_conseq _ (cov T) _ _ _ _ _ (λ a b x, x)); [|intros b Hb; by apply Hb].
  pose proof (covers_stable m ps T HT) as Hst.
  eapply triple_bind; [apply (attachLSMPrograms_stable m ps (cov T))|]. intros r.
  apply triple_bind with (R := λ err b, err = None → cov required b).
  { destruct (decide (m = UltraLegacyMap)) as [Hu|Hu].
    - eapply triple_conseq; [by apply attachKprobePrograms_ultra| |done]. intros b Hb. by apply (cov_weaken T).
    - eapply triple_conseq; [apply (attachKprobePrograms_stable m ps (cov T))|done|]. intros err' b Hb _.
      apply (cov_weaken T); [|exact Hb]. intros ls Hls. specialize (Hls Hu). unfold required. by destruct m. }
  intros [e|]; [by apply triple_ret|].
  eapply (triple_conseq _ (cov required) _ _ (λ _, cov required)); [|intros b Hb; by apply Hb|done].
  match goal with |- triple ?I ?f _ => change (keeps I f) end.
  pose proof (newEventReader_keeps (cov required)). keeps_auto.
Qed.
End fixed.

(** ** Started sensors *)
Section started.
Context `{Environ} `{ObjectFiles}.

Lemma startMode_covers policy dryRun m l n h s n' h' :
  startMode (initialize policy dryRun) m l n h = (inr s, n', h') →
  mode s = m ∧ programs s = loadedSensorObjects.programs l
  ∧ required m (loadedSensorObjects.programs l) (links s).
Proof.
  unfold startMode. set (b := mkBoot _ _ _ _). set (ps := loadedSensorObjects.programs l).
  pose proof (initialize_covers m ps policy dryRun n b) as Hi. unfold result, after in Hi.
  destruct (initialize policy dryRun n b) as [[[err|] n1] b1]; cbn in *.
  { by destruct (Close n1 b1) as [[? ?] ?]. }
  intros [= <- _ _]. by apply Hi.
Qed.
(** In the oldest mode every program of the object is there. *)
Lemma ultra_programs n h l n' h' :
  loadSensorObjectsWith (ErrMode, None) (modeName UltraLegacyMap) loaders n h = (inr l, n', h') →
  loadedSensorObjects.programs l = list_to_set ultraLegacyProgramFields.
Proof.
  rewrite mode_loader. cbn. unfold loadUltraLegacyMapSensorObjects, loadRansomwareUltraLegacyObjects, mbind, M_bind, ask.
  destruct (validateUltraLegacyArchitecture GOARCH); [|done].
  destruct (loadRansomwareUltraLegacy n); [|done]. destruct (LoadAndAssign (S n)); [|done].
  intros [= <- _ _]. unfold loadedSensorObjects.programs, ultraLegacyMapPrograms.
  assert (Forall (λ x, x ∈ (programTags ransomwareUltraLegacyObjects).*2) ultraLegacyProgramFields) as Hall
    by (apply (bool_decide_unpack _); vm_compute; done).
  rewrite Forall_forall in Hall. set_solver.
Qed.

(** C11: No blind spots: a sensor that starts has attached every hook its mode
    requires.  In the two newer modes these are all tracepoints of the table
    that are neither marked optional nor missing on the architecture; in the
    oldest mode process exit, the entry and return probes of every required
    pair on one and the same symbol, and every other required probe its
    object has a program for. *)
Theorem started_sees_required policy dryRun n h s :
  result (NewWithOptions policy dryRun) n h = inr s →
  match mode s with
  | UltraLegacyMap =>
      Kprobe "do_exit" "KpProcessExit" ∈ links s
      ∧ (∀ op entry exit, (op, entry, exit, false) ∈ kprobePairs →
           ∃ symbol, symbol ∈ kprobeSymbols op GOARCH
             ∧ Kprobe symbol entry ∈ links s ∧ Kretprobe symbol exit ∈ links s)
      ∧ (∀ op, op ∈ ["rename"; "unlink"; "truncate"; "ftruncate"; "execve"] →
           ∃ prog symbol, (op, prog, false) ∈ kprobes ∧ symbol ∈ kprobeSymbols op GOARCH
             ∧ Kprobe symbol prog ∈ links s)
  | _ => ∀ category name prog, (category, name, prog, false) ∈ tracepoints →
      optionalSyscallTracepoint category name GOARCH = false → Tracepoint category name prog ∈ links s
  end.
Proof.
  intros (modes & m & l & n0 & h0 & n1 & h1 & n' & h' & _ & _ & Hl & Hs)%NewWithOptions_result.
  apply startMode_covers in Hs as (-> & _ & Hr). unfold required in Hr. destruct m.
  1,2: intros category name prog Hin Ho; rewrite Forall_forall in Hr; by apply (Hr _ Hin).
  destruct Hr as (Hexit & Hpairs & Hover). split_and!; [done| |].
  - intros op entry exit Hin. rewrite Forall_forall in Hpairs. by apply (Hpairs _ Hin).
  - intros op Hop. rewrite (ultra_programs _ _ _ _ _ Hl) in Hover. rewrite Forall_forall in Hover.
    assert (Exists (λ t, t.1.1 = op ∧ t.2 = false ∧ t.1.2 ∈ ultraLegacyProgramFields
      ∧ op ∉ (λ '(op, _, _, _), op) <$> kprobePairs) kprobes) as ([[o prog] opt] & Hin & Ho & Hopt & Hp & Hn)%Exists_exists.
    { repeat (apply elem_of_cons in Hop as [->|Hop]; [apply (bool_decide_unpack _); vm_compute; done|]). set_solver. }
    cbn in Ho, Hopt, Hp. subst o opt. destruct (Hover _ Hin) as (symbol & ? & ?); [done|done|by apply elem_of_list_to_set|].
    exists prog, symbol. done.
Qed.

(** ** Programs the hooks need

    The collection that was compiled for a generated object: it has the
    programs the object has fields for, and only the [enforce_] programs are
    LSM programs. *)
Definition compiled_for (tags : list (string * string)) (spec : gmap string bool) : Prop :=
  ∀ tag field, (tag, field) ∈ tags → spec !! tag = Some (HasPrefix tag "enforce_").
(** Each required hook has a program with a tag in [tags] that is loaded with
    the base collection and bound to a field of the mode. *)
Definition hooks_tagged (tags : list (string * string)) (fields : list string) : Prop :=
  Forall (λ t : string * string * string * bool, t.2 = true ∨
    t.1.2 ∈ fields ∧ Exists (λ tag, tag.2 = t.1.2 ∧ optionalProgram (tag.1, HasPrefix tag.1 "enforce_") = false
                                    ∧ tag.1 ∉ ["enforce_path_rename"; "enforce_path_rename_legacy"]) tags) tracepoints.
Lemma core_tagged : hooks_tagged ransomwareProgramTags coreProgramFields.
Proof. apply (bool_decide_unpack _). vm_compute. done. Qed.
Lemma legacy_tagged : hooks_tagged ransomwareLegacyProgramTags legacyPerfProgramFields.
Proof. apply (bool_decide_unpack _). vm_compute. done. Qed.

Lemma bound_programs load tags fields spec spec' n k b n' k' category name prog :
  hooks_tagged tags fields → compiled_for tags spec →
  (∀ p, p ∉ ["enforce_path_rename"; "enforce_path_rename_legacy"] → spec' !! p = spec !! p) →
  loadGroupedCollections load spec' n k = (Some b, n', k') →
  (category, name, prog, false) ∈ tracepoints →
  prog ∈ bindAvailableObjects tags (bundlePrograms b) ∧ prog ∈ fields.
Proof.
  intros Ht Hs Hsame Hg Hin. unfold hooks_tagged in Ht. rewrite Forall_forall in Ht.
  destruct (Ht _ Hin) as [?|[Hf Htag]]; [done|]. cbn [fst snd] in *. split; [|done].
  apply Exists_exists in Htag as ([tag field] & Htag & Heq & Hopt & Hne). cbn [fst snd] in Heq, Hopt, Hne. subst field.
  pose proof (loadGroupedCollections_spec load spec' n k) as Hspec. cbv zeta in Hspec. rewrite Hg in Hspec.
  destruct Hspec as (_ & Hbase & _). unfold bindAvailableObjects. apply elem_of_list_to_set, list_elem_of_fmap.
  exists (tag, prog). split; [done|]. apply list_elem_of_filter. split; [|done].
  apply Hbase, elem_base. exists (HasPrefix tag "enforce_"). split; [|done]. rewrite Hsame by done. by eapply Hs.
Qed.
Lemma selectVariant_same spec types n h p :
  p ∉ ["enforce_path_rename"; "enforce_path_rename_legacy"] →
  result (selectVariant spec types) n h !! p = spec !! p.
Proof.
  intros Hp. unfold result, selectVariant, mbind, M_bind, ask. case_bool_decide as Hl; [done|].
  destruct (spec !! "enforce_path_rename_legacy") as [lsm|] eqn:Hspec; [|done].
  assert (∀ params, selectPathRenameVariant spec params !! p = spec !! p) as Hsel.
  { intros params. apply selectPathRenameVariant_exclusive; [by rewrite Hspec|set_solver|set_solver]. }
  destruct types; apply Hsel.
Qed.

(** The tables fit together: once the collection compiled for a mode is
    loaded, whichever optional programs the kernel refuses and whichever
    variant of the rename hook it has, every tracepoint the sensor requires
    has its program. *)
Theorem loaded_has_required m n h l n' h' :
  (∀ j spec, loadRansomware j = Some spec → compiled_for ransomwareProgramTags spec) →
  (∀ j spec, loadRansomwareLegacy j = Some spec → compiled_for ransomwareLegacyProgramTags spec) →
  m ≠ UltraLegacyMap →
  loadSensorObjectsWith (ErrMode, None) (modeName m) loaders n h = (inr l, n', h') →
  ∀ category name prog, (category, name, prog, false) ∈ tracepoints → prog ∈ loadedSensorObjects.programs l.
Proof.
  intros Hcore Hlegacy Hm. rewrite mode_loader. destruct m; [| |done]; cbn [loaders core legacyPerf].
  - unfold loadCoreSensorObjects, mbind, M_bind.
    destruct (coreCollectionOptions n h) as [[[e|types] n1] h1]; [done|]. unfold ask.
    destruct (loadRansomware n1) as [spec|] eqn:Hspec; [|done]. specialize (Hcore _ _ Hspec).
    pose proof (selectVariant_same spec types (S n1) h1) as Hsame. unfold result in Hsame.
    destruct (selectVariant spec types (S n1) h1) as [[spec' n2] h2]. cbn [fst] in Hsame.
    unfold onHandles, zoom. destruct (loadGroupedCollections _ spec' n2 h2.2) as [[[b|] n3] k3] eqn:Hg; [|done].
    intros [= <- _ _] category name prog Hin. cbn [loadedSensorObjects.programs].
    destruct (bound_programs _ _ _ _ _ _ _ _ _ _ _ _ _ core_tagged Hcore Hsame Hg Hin) as [Hb Hf].
    unfold corePrograms, bindCore. apply elem_of_intersection. split; [|by apply elem_of_list_to_set].
    case_bool_decide; [apply elem_of_union; by right|done].
  - unfold loadLegacyPerfSensorObjects, mbind, M_bind, ask.
    destruct (loadRansomwareLegacy n) as [spec|] eqn:Hspec; [|done]. specialize (Hlegacy _ _ Hspec).
    unfold onHandles, zoom. destruct (loadGroupedCollections _ spec (S n) h.2) as [[[b|] n3] k3] eqn:Hg; [|done].
    intros [= <- _ _] category name prog Hin. cbn [loadedSensorObjects.programs].
    destruct (bound_programs _ _ _ _ _ _ _ _ _ _ _ _ _ legacy_tagged Hlegacy (λ p _, eq_refl) Hg Hin) as [Hb Hf].
    unfold legacyPerfPrograms. apply elem_of_intersection. split; [done|by apply elem_of_list_to_set].
Qed.
End started.
End coverage.
