(* ===== verification/Hooks.v ===== *)
(** * The deny hooks a started sensor has

    The sensor records each hook that can deny an operation, LSM programs and
    overriding kprobes, in its capabilities (internal/sensor/sensor.go,
    [recordDenyHook]).  Here: what is recorded is what is attached, and a
    sensor that is to deny has such a hook. *)
From stdpp Require Import gmultiset.
From S2P Require Import Prelude GoStrings GoPath GoTime Config World Event Scope Objects Interface.
From S2P Require Import Polling Sensor Loading Attach AttachTheory Coverage.

Import Sensor Boot.

Section hooks.
Context `{Unicode} `{World} `{Kernel} `{Closing}.

(** ** What is attached *)
Definition lsm_attached (ls : list Link) (hook : string) : Prop :=
  ∃ prog, (prog, hook) ∈ lsmPrograms ∧ LSM prog ∈ ls.
Definition override_attached (ls : list Link) (op : string) : Prop :=
  ∃ prog optional symbol, (op, prog, optional) ∈ kprobes ∧ symbol ∈ kprobeSymbols op GOARCH ∧ Kprobe symbol prog ∈ ls.
(** The hooks recorded are those attached; in the oldest mode kprobes only
    observe. *)
Definition reports (m : runtimeMode) (c : EnforcementCapabilities) (ls : list Link) : Prop :=
  (∀ hook, hook ∈ EnforcementCapabilities.LSMHooks c ↔ lsm_attached ls hook)
  ∧ (∀ op, op ∈ EnforcementCapabilities.OverrideHooks c ↔ m ≠ UltraLegacyMap ∧ override_attached ls op).

(** A link that denies. *)
Definition denies (m : runtimeMode) (l : Link) : Prop :=
  match l with LSM _ => True | Kprobe _ _ => m ≠ UltraLegacyMap | _ => False end.
Lemma reports_quiet m c ls ks : Forall (λ l, ¬ denies m l) ks → reports m c ls → reports m c (ls ++ ks).
Proof.
  rewrite Forall_forall. intros Hq [Hl Ho]. split.
  - intros hook. rewrite Hl. unfold lsm_attached. split; intros (prog & ? & Hin); exists prog; (split; [assumption|]); [apply elem_of_app; by left|].
    apply elem_of_app in Hin as [?|Hin]; [done|]. by destruct (Hq _ Hin).
  - intros op. rewrite Ho. unfold override_attached.
    split; intros (Hm & prog & o & s & ? & ? & Hin); (split; [done|]); exists prog, o, s; (split_and!; [assumption|assumption|]); [apply elem_of_app; by left|].
    apply elem_of_app in Hin as [?|Hin]; [done|]. by destruct (Hq _ Hin).
Qed.
Lemma lsm_unique prog hook hook' : (prog, hook) ∈ lsmPrograms → (prog, hook') ∈ lsmPrograms → hook = hook'.
Proof.
  assert (Forall (λ x, Forall (λ y, x.1 = y.1 → x.2 = y.2) lsmPrograms) lsmPrograms) as Hall
    by (apply (bool_decide_unpack _); vm_compute; exact I).
  rewrite Forall_forall in Hall. intros Hx Hy. specialize (Hall _ Hx). rewrite Forall_forall in Hall. by apply (Hall _ Hy).
Qed.
Lemma kprobe_unique op op' prog o o' : (op, prog, o) ∈ kprobes → (op', prog, o') ∈ kprobes → op = op'.
Proof.
  assert (Forall (λ x, Forall (λ y, x.1.2 = y.1.2 → x.1.1 = y.1.1) kprobes) kprobes) as Hall
    by (apply (bool_decide_unpack _); vm_compute; exact I).
  rewrite Forall_forall in Hall. intros Hx Hy. specialize (Hall _ Hx). rewrite Forall_forall in Hall. by apply (Hall _ Hy).
Qed.
Lemma recorded_lsm name c :
  EnforcementCapabilities.LSMHooks (recordDenyHook "lsm" name c) = EnforcementCapabilities.LSMHooks c ++ [name]
  ∧ EnforcementCapabilities.OverrideHooks (recordDenyHook "lsm" name c) = EnforcementCapabilities.OverrideHooks c.
Proof. unfold recordDenyHook. rewrite bool_decide_eq_true_2 by done. by case_bool_decide. Qed.
Lemma recorded_override name c :
  EnforcementCapabilities.OverrideHooks (recordDenyHook "override" name c) = EnforcementCapabilities.OverrideHooks c ++ [name]
  ∧ EnforcementCapabilities.LSMHooks (recordDenyHook "override" name c) = EnforcementCapabilities.LSMHooks c.
Proof. unfold recordDenyHook. rewrite bool_decide_eq_false_2 by done. by case_bool_decide. Qed.
Lemma lsm_app ls ks hook : (∀ prog, LSM prog ∉ ks) → lsm_attached ls hook ↔ lsm_attached (ls ++ ks) hook.
Proof.
  intros Hk. split; intros (prog & Hp & Hin); exists prog; (split; [exact Hp|]); [apply elem_of_app; by left|].
  apply elem_of_app in Hin as [?|Hin]; [done|]. by destruct (Hk _ Hin).
Qed.
Lemma override_app ls ks op :
  (∀ symbol prog, Kprobe symbol prog ∉ ks) → override_attached ls op ↔ override_attached (ls ++ ks) op.
Proof.
  intros Hk. split; intros (prog & o & s & Hp & Hs & Hin); exists prog, o, s;
    (split_and!; [exact Hp|exact Hs|]); [apply elem_of_app; by left|].
  apply elem_of_app in Hin as [?|Hin]; [done|]. by destruct (Hk _ _ Hin).
Qed.
Lemma reports_lsm m c ls prog hook :
  (prog, hook) ∈ lsmPrograms → reports m c ls → reports m (recordDenyHook "lsm" hook c) (ls ++ [LSM prog]).
Proof.
  intros Hp [Hl Ho]. destruct (recorded_lsm hook c) as [E1 E2]. unfold reports. rewrite E1, E2. split.
  - intros hook'. rewrite elem_of_app, Hl, list_elem_of_singleton. split.
    + intros [(prog' & ? & ?)| ->]; [exists prog'|exists prog]; (split; [assumption|]); apply elem_of_app; [by left|right].
      by apply list_elem_of_singleton.
    + intros (prog' & Hp' & [?|E]%elem_of_app); [left; by exists prog'|right].
      apply list_elem_of_singleton in E. simplify_eq. by eapply lsm_unique.
  - intros op. rewrite Ho. apply and_iff_compat_l, override_app. intros ? ? E. apply list_elem_of_singleton in E. discriminate.
Qed.
Lemma reports_override m c ls op prog o symbol :
  m ≠ UltraLegacyMap → (op, prog, o) ∈ kprobes → symbol ∈ kprobeSymbols op GOARCH → reports m c ls →
  reports m (recordDenyHook "override" op c) (ls ++ [Kprobe symbol prog]).
Proof.
  intros Hm Hp Hs [Hl Ho]. destruct (recorded_override op c) as [E1 E2]. unfold reports. rewrite E1, E2. split.
  - intros hook. rewrite Hl. apply lsm_app. intros ? E. apply list_elem_of_singleton in E. discriminate.
  - intros op'. rewrite elem_of_app, Ho, list_elem_of_singleton. split.
    + intros [(_ & prog' & o' & s' & ? & ? & ?)| ->]; (split; [done|]).
      * exists prog', o', s'. split_and!; [assumption|assumption|]. apply elem_of_app. by left.
      * exists prog, o, symbol. split_and!; [assumption|assumption|]. apply elem_of_app. right. by apply list_elem_of_singleton.
    + intros (_ & prog' & o' & s' & Hp' & ? & [?|E]%elem_of_app).
      * left. split; [done|]. by exists prog', o', s'.
      * right. apply list_elem_of_singleton in E. simplify_eq. by eapply kprobe_unique.
Qed.

(** ** Attaching keeps the record *)
Section fixed.
Context (m : runtimeMode) (ps : gset string).
Definition reporting (more : list Link) (b : Boot) : Prop :=
  mode (sensor b) = m ∧ programs (sensor b) = ps ∧ reports m (capabilities (sensor b)) (links (sensor b) ++ more).
Abbreviation J := (reporting []).

Lemma live_reporting more f : keeps (reporting more) (modS (λ b : Boot, b <| live ::= f |>)).
Proof. by apply keeps_mod. Qed.
Lemma attach_reporting more l : keeps (reporting more) (attach l).
Proof. unfold attach. pose proof (live_reporting more). keeps_auto. Qed.
Lemma detach_reporting more l : keeps (reporting more) (detach l).
Proof. apply live_reporting. Qed.
Lemma hold_reporting more : triple (reporting more) (hold more) (λ _, J).
Proof. intros n b (? & ? & ?). split_and!; [done|done|]. cbn. by rewrite app_nil_r. Qed.
Lemma hold_quiet ls : Forall (λ l, ¬ denies m l) ls → keeps J (hold ls).
Proof.
  intros Hq n b (? & ? & Hr). split_and!; [done|done|]. cbn. rewrite app_nil_r in *. by apply reports_quiet.
Qed.
Lemma onSensor_reporting {A} more (f : M Sensor A) :
  (∀ w, keeps (λ s, (mode s, programs s, links s, capabilities s) = w) f) → keeps (reporting more) (onSensor f).
Proof.
  intros Hf n b (Hm & Hp & HQ). specialize (Hf _ n (sensor b) eq_refl). unfold after, onSensor, zoom in *.
  destruct (f n (sensor b)) as [[a n'] s']. cbn in *. injection Hf as E1 E2 E3 E4.
  split_and!; cbn; [congruence|congruence|by rewrite E3, E4].
Qed.
Lemma configure_reporting more op symbol : keeps (reporting more) (onSensor (configureKprobeABI op symbol)).
Proof. apply onSensor_reporting. intros w. unfold configureKprobeABI. keeps_auto. Qed.
#[local] Hint Resolve attach_reporting detach_reporting configure_reporting : go.
Lemma attachKprobeTo_reporting kind configure prog symbols :
  (∀ s, keeps J (configure s)) →
  triple J (attachKprobeTo kind configure prog symbols)
    (λ r b, J b ∧ ∀ l, r = Some l → ∃ symbol, symbol ∈ symbols ∧ l = kind symbol prog).
Proof.
  intros Hc n b Hb. split; [|by apply attachKprobeTo_result].
  assert (keeps J (attachKprobeTo kind configure prog symbols)) as Hk
    by (induction symbols as [|s l IH]; cbn [attachKprobeTo]; keeps_auto).
  by apply Hk.
Qed.

Lemma attachTracepoints_reporting : keeps J attachTracepoints.
Proof.
  assert (∀ l, keeps J (attachTable l)) as Ht.
  { induction l as [|[[[category name] prog] o] l IH]; cbn [attachTable]; keeps_auto.
    apply hold_quiet. repeat constructor. by intros []. }
  unfold attachTracepoints, attachOpenat2. keeps_auto. apply hold_quiet. repeat constructor; by intros [].
Qed.
Lemma attachEach_reporting l acc :
  l ⊆ lsmPrograms → triple (reporting (lsmAttachResult.links acc)) (attachEach l acc)
    (λ r, reporting (lsmAttachResult.links r)).
Proof.
  revert acc. induction l as [|[prog hook] l IH]; intros acc Hl; cbn [attachEach]; [by apply triple_ret|].
  assert (l ⊆ lsmPrograms) as Hl' by set_solver.
  eapply triple_bind; [apply attach_reporting|]. intros [];
    [|destruct acc as [x y z]; exact (IH (lsmAttachResult.mkResult x (S y) z) Hl')].
  eapply triple_bind with (R := λ _, reporting (lsmAttachResult.links acc ++ [LSM prog])); [|intros []; destruct acc as [x y z]; exact (IH (lsmAttachResult.mkResult (S x) y (z ++ [LSM prog])) Hl')].
  intros n b (? & ? & Hr). split_and!; [done|done|]. cbn. rewrite app_assoc. apply reports_lsm; [set_solver|done].
Qed.
Lemma attachLSMPrograms_reporting : keeps J attachLSMPrograms.
Proof.
  unfold attachLSMPrograms. eapply triple_bind; [apply keeps_get|]. intros b0. cbv zeta.
  set (lsms := nonNilPrograms b0 lsmPrograms).
  assert (lsms ⊆ lsmPrograms) as Hl.
  { intros x Hx%list_elem_of_In. apply filter_In in Hx as [Hx _]. by apply list_elem_of_In. }
  apply triple_bind with (R := λ r, reporting (lsmAttachResult.links r)).
  - case_bool_decide; [by apply triple_ret|]. unfold bpfLSMActive.
    eapply triple_bind; [apply keeps_bind; [apply keeps_ask|]; intros ?; apply keeps_ret|].
    intros []; [|by apply triple_ret]. by apply (attachEach_reporting lsms (lsmAttachResult.mkResult 0 0 [])).
  - intros r. eapply triple_bind; [apply hold_reporting|]. intros []. by apply triple_ret.
Qed.

Lemma attachPairs_reporting l : m = UltraLegacyMap → keeps J (attachPairs l).
Proof.
  intros Hu. induction l as [|[[[op entry] exit] o] l IH]; cbn [attachPairs]; [apply keeps_ret|].
  apply triple_bind with (R := λ r b, J b ∧ ∀ ls, r = Some ls → Forall (λ l, ¬ denies m l) ls).
  - intros n b Hb. set (configure := λ symbol, onSensor (configureKprobeABI op symbol)).
    unfold attachKprobePairWith, result, after, mbind, M_bind, getS. destruct (_ || _); [done|].
    assert (∀ symbols, keeps J (attachPairTo configure entry exit symbols)) as Hk.
    { unfold configure. induction symbols as [|s symbols IHs]; cbn [attachPairTo]; keeps_auto. }
    split; [by apply Hk|]. intros ls Hls.
    destruct (attachPairTo_result configure entry exit (kprobeSymbols op GOARCH) n b I ls Hls) as (s & _ & ->).
    repeat constructor; by intros [].
  - intros [ls|]; [|destruct o; [|apply triple_ret; by intros b []]].
    + intros n b [Hb Hq]. revert Hb. apply (keeps_bind J (hold ls)); [apply hold_quiet; by apply Hq|by intros []].
    + eapply triple_conseq; [apply IH|by intros b []|done].
Qed.
Lemma attachUltraLegacy_reporting : m = UltraLegacyMap → keeps J attachUltraLegacy.
Proof.
  intros Hu. unfold attachUltraLegacy. pose proof (attachPairs_reporting kprobePairs Hu). keeps_auto.
  apply hold_quiet. repeat constructor. by intros [].
Qed.
Lemma attachOverrides_reporting paired l : l ⊆ kprobes → keeps J (attachOverrides paired l).
Proof.
  induction l as [|[[op prog] o] l IH]; intros Hl; cbn [attachOverrides]; [apply keeps_ret|].
  assert (keeps J (attachOverrides paired l)) as Hrest by (apply IH; set_solver). clear IH.
  apply triple_get. intros b0 Hb0. pose proof Hb0 as (Hm & _). cbv zeta. rewrite Hm.
  refine (triple_conseq _ J _ _ _ _ _ (λ a b x, x)); [|by intros ? ->].
  match goal with |- triple J ?f _ => change (keeps J f) end.
  case_bool_decide; [done|]. destruct (negb (present prog b0)); [keeps_auto|].
  eapply triple_bind; [apply attachKprobeTo_reporting; intros s; apply configure_reporting|].
  intros [link|]; [|destruct (_ || _); [eapply triple_conseq; [exact Hrest|by intros b []|done]|apply triple_ret; by intros b []]].
  intros n b [Hb Hlink]. destruct (Hlink link eq_refl) as (symbol & Hs & ->). revert n b Hb Hlink.
  assert (keeps J (when (negb (bool_decide (m = UltraLegacyMap))) (recordHook "override" op) ;;
    hold [Kprobe symbol prog] ;; attachOverrides paired l)) as Hk; [|intros n b Hb _; by apply Hk].
  case_bool_decide as Hu; cbn [when negb].
  - apply keeps_bind; [apply keeps_ret|]. intros _. apply keeps_bind; [|done].
    apply hold_quiet. repeat constructor. by intros [].
  - apply triple_bind with (R := λ _, reporting [Kprobe symbol prog]).
    + intros n b (? & ? & Hr). split_and!; [done|done|]. cbn. rewrite app_nil_r in Hr.
      apply (reports_override m _ _ op prog o symbol); [done|set_solver|done|done].
    + intros []. eapply triple_bind; [apply hold_reporting|]. by intros [].
Qed.
Lemma attachReturns_reporting paired l : keeps J (attachReturns paired l).
Proof.
  induction l as [|[op prog] l IH]; cbn [attachReturns]; [apply keeps_ret|].
  apply keeps_bind; [apply keeps_get|]. intros b0. apply keeps_bind; [|done]. case_match; [apply keeps_ret|].
  eapply triple_bind; [apply attachKprobeTo_reporting; intros s; apply keeps_ret|].
  intros [link|]; [|apply triple_ret; by intros b []].
  intros n b [Hb Hlink]. destruct (Hlink link eq_refl) as (symbol & _ & ->).
  apply hold_quiet; [|done]. repeat constructor. by intros [].
Qed.
Lemma attachKprobePrograms_reporting : keeps J attachKprobePrograms.
Proof.
  unfold attachKprobePrograms. apply triple_get. intros b0 Hb0. pose proof Hb0 as (Hm & _). cbv zeta. rewrite Hm.
  refine (triple_conseq _ J _ _ _ _ _ (λ a b x, x)); [|by intros ? ->].
  match goal with |- triple J ?f _ => change (keeps J f) end.
  pose proof (attachOverrides_reporting) as Ho. pose proof attachReturns_reporting. pose proof attachUltraLegacy_reporting.
  case_bool_decide; keeps_auto; by apply Ho.
Qed.
Lemma initialize_reporting policy dryRun : keeps J (initialize policy dryRun).
Proof.
  assert (∀ a d, keeps J (onSensor (ConfigureEnforcement a d))) as He.
  { intros a d. apply onSensor_reporting. intros w. unfold ConfigureEnforcement. keeps_auto. }
  assert (keeps J (onSensor (ConfigurePolicy policy))) as Hp.
  { apply onSensor_reporting. intros w. unfold ConfigurePolicy.
    assert (∀ A B (get : sensorMaps → option A) put (f : M A (option B)),
      keeps (λ s, (mode s, programs s, links s, capabilities s) = w) (onMap get put f)) as Hon.
    { intros A B get put f n s Hs. unfold after, onMap. destruct (get (maps s)); [|done]. by destruct (f n a) as [[? ?] ?]. }
    keeps_auto. }
  pose proof attachTracepoints_reporting. pose proof attachLSMPrograms_reporting.
  pose proof attachKprobePrograms_reporting. pose proof (newEventReader_keeps J).
  unfold initialize. keeps_auto.
Qed.
End fixed.

(** ** Started sensors *)
Section started.
Context `{Environ} `{ObjectFiles}.

Lemma NewWithOptions_reports policy dryRun n h s :
  result (NewWithOptions policy dryRun) n h = inr s → reports (mode s) (capabilities s) (links s).
Proof.
  intros (modes & m & l & n0 & h0 & n1 & h1 & n' & h' & _ & _ & _ & Hs)%NewWithOptions_result. revert Hs.
  unfold startMode. set (b := mkBoot _ _ _ _). set (ps := loadedSensorObjects.programs l).
  assert (reporting m ps [] b) as Hb.
  { split_and!; [done|done|]. split; [intros hook|intros op]; (split; [set_solver|]).
    - intros (prog & _ & Hin). set_solver.
    - intros (_ & prog & o & symbol & _ & _ & Hin). set_solver. }
  pose proof (initialize_reporting m ps policy dryRun n1 b Hb) as Hi. unfold after in Hi.
  destruct (initialize policy dryRun n1 b) as [[[err|] n2] b1]; cbn in *.
  { by destruct (Close n2 b1) as [[? ?] ?]. }
  intros [= <- _ _]. destruct Hi as (-> & _ & Hr). by rewrite app_nil_r in Hr.
Qed.

(** C10: Deny is never silently degraded: when the policy asks for deny and the
    agent is not in dry-run mode, a sensor that starts has a hook attached that
    denies, an LSM program of the table or a kprobe that overrides one of the
    operations, and so does not run in the oldest mode, which has none; if no
    mode offers one, starting fails. *)
Theorem deny_not_degraded policy dryRun n h s :
  asks_deny policy → dryRun = false →
  result (NewWithOptions policy dryRun) n h = inr s →
  ((∃ prog hook, (prog, hook) ∈ lsmPrograms ∧ LSM prog ∈ links s)
   ∨ ∃ op prog optional symbol, (op, prog, optional) ∈ kprobes ∧ symbol ∈ kprobeSymbols op GOARCH
       ∧ Kprobe symbol prog ∈ links s)
  ∧ Sensor.mode s ≠ UltraLegacyMap.
Proof.
  intros Hd -> Hs. pose proof (NewWithOptions_reports _ _ _ _ _ Hs) as [Hl Ho].
  apply NewWithOptions_started in Hs as (modes & _ & _ & (Ha & _ & _ & Hu) & Hv & _).
  assert (EnforcementCapabilities.DenyAvailable (capabilities s) = true) as Hda by by eapply validate_deny.
  split; [|intros Hm; by rewrite (Hu Hm) in Hda]. rewrite Hda in Ha.
  destruct (EnforcementCapabilities.LSMHooks (capabilities s)) as [|hook hooks].
  - destruct (EnforcementCapabilities.OverrideHooks (capabilities s)) as [|op ops]; [done|].
    destruct (Ho op) as [(_ & prog & o & symbol & ?) _]; [set_solver|]. right. by exists op, prog, o, symbol.
  - destruct (Hl hook) as [(prog & ? & ?) _]; [set_solver|]. left. by exists prog, hook.
Qed.

(** C24: A started sensor runs in a mode that was asked for.  The LSM hooks it
    reports are those whose program is attached, the overriding hooks those
    whose kprobe is attached, none in the oldest mode; deny is reported
    available exactly when there is a hook, and for openat exactly when there
    is one for it.  Its kernel side is armed with the action of the policy, or
    with none in dry-run mode. *)
Theorem started_as_configured policy dryRun n h s :
  result (NewWithOptions policy dryRun) n h = inr s →
  (∃ modes, sensorModeCandidates (TrimSpace (os_Getenv "EBPFFLS_BPF_MODE")) = Some modes ∧ Sensor.mode s ∈ modes)
  ∧ (∀ hook, hook ∈ EnforcementCapabilities.LSMHooks (capabilities s) ↔
       ∃ prog, (prog, hook) ∈ lsmPrograms ∧ LSM prog ∈ links s)
  ∧ (∀ op, op ∈ EnforcementCapabilities.OverrideHooks (capabilities s) ↔
       Sensor.mode s ≠ UltraLegacyMap ∧ ∃ prog optional symbol, (op, prog, optional) ∈ kprobes
         ∧ symbol ∈ kprobeSymbols op GOARCH ∧ Kprobe symbol prog ∈ links s)
  ∧ caps_honest (Sensor.mode s) (capabilities s)
  ∧ ∃ value, enforcementValue (Policy.Action policy) = Some value
    ∧ ∀ v, sensorMaps.InlineIOCAction (maps s) = Some v → v = if dryRun then 0 else value.
Proof.
  intros Hs. pose proof (NewWithOptions_reports _ _ _ _ _ Hs) as [Hl Ho].
  apply NewWithOptions_started in Hs as (modes & Hc & Hm & Hh & _ & Hv).
  split_and!; [by exists modes|exact Hl|exact Ho|done|done].
Qed.
End started.
End hooks.
