(* ===== verification/Agent.v ===== *)
(** * The agent: internal/agent/agent.go

    The state the agent keeps and every operation on it, from [handle], which
    takes one sensor event, to the timers and the blacklist workers. *)
From S2P Require Import Prelude GoStrings GoPath GoTime Config World Event Scope Network Window.
From S2P Require Import Sha256 HashCache Blacklist Interface.

(** ** Data *)
Module Options.
Record Options := mkOptions { DryRun : bool; DebugEvents : bool }.
End Options.
Abbreviation Options := Options.Options.

Module hashJob.
Record hashJob := mkJob {
  TGID : Z; PID : Z; PPID : Z; UID : Z; Comm : string; Path : string; Reason : string }.
End hashJob.
Abbreviation hashJob := hashJob.hashJob.

(** [fdKey]: TGID and descriptor *)
Abbreviation fdKey := (Z * Z)%type.
Module fdState.
Record fdState := mkFd { Path : string; LastSeen : Z }.
#[export] Instance eta_fdState : Eta fdState := λ s, mkFd (Path s) (LastSeen s).
End fdState.
Export (hints) fdState.
Abbreviation fdState := fdState.fdState.

Module cachedProcInfo.
Record cachedProcInfo := mkCached { Info : procInfo; LastSeen : Z; NeedsRefresh : bool }.
#[export] Instance eta_cachedProcInfo : Eta cachedProcInfo := λ c,
  mkCached (Info c) (LastSeen c) (NeedsRefresh c).
Definition zero : cachedProcInfo := mkCached procInfo.zero 0 false.
End cachedProcInfo.
Export (hints) cachedProcInfo.
Abbreviation cachedProcInfo := cachedProcInfo.cachedProcInfo.

Module metrics.
Record metrics := mkMetrics {
  SchemaVersion : string; Kind : string; Alerts : Z; Blocks : Z; BlacklistMatches : Z;
  RingbufDropsTotal : Z; CaptureGapsTotal : Z }.
#[export] Instance eta_metrics : Eta metrics := λ m,
  mkMetrics (SchemaVersion m) (Kind m) (Alerts m) (Blocks m) (BlacklistMatches m)
    (RingbufDropsTotal m) (CaptureGapsTotal m).
End metrics.
Export (hints) metrics.
Abbreviation metrics := metrics.metrics.

(** The JSON record an alert logs; [SchemaVersion] and [Kind] are constants. *)
Module alert.
Record alert := mkAlert {
  At : Z; Policy : string; Action : string; DryRun : bool;
  TGID : Z; PID : Z; PPID : Z; UID : Z; Comm : string; Score : Z; Threshold : Z;
  Reasons : list string; Features : procFeatures; Events : list scoredEvent }.
End alert.
Abbreviation alert := alert.alert.

(** The agent over a sensor of type [K].  The last two fields are the effects
    the outside sees: the alerts logged and the processes sent SIGKILL, in
    order. *)
Module Agent.
Record Agent (K : Type) := mkAgent {
  sensor : option K;
  procs : gmap Z procState;
  fdPaths : gmap fdKey fdState;
  procInfos : gmap Z cachedProcInfo;
  blocked : gmap Z Z;
  blacklist : option blacklist;
  hashes : hashCache;
  hashQueue : list hashJob;
  lastDrops : Z; lastCaptureGaps : Z;
  metrics : metrics;
  alerts : list alert;
  killed : list Z }.
Arguments mkAgent {K}.
Arguments sensor {K}. Arguments procs {K}. Arguments fdPaths {K}. Arguments procInfos {K}.
Arguments blocked {K}. Arguments blacklist {K}. Arguments hashes {K}. Arguments hashQueue {K}.
Arguments lastDrops {K}. Arguments lastCaptureGaps {K}. Arguments metrics {K}.
Arguments alerts {K}. Arguments killed {K}.
#[export] Instance eta_Agent {K} : Eta (Agent K) := λ a,
  mkAgent (sensor a) (procs a) (fdPaths a) (procInfos a) (blocked a) (blacklist a) (hashes a)
    (hashQueue a) (lastDrops a) (lastCaptureGaps a) (metrics a) (alerts a) (killed a).
End Agent.
Export (hints) Agent.
Abbreviation Agent := Agent.Agent.

Definition hashQueueCap : nat := 1024.

Section agent.
Context `{Unicode} `{World} `{NetIP} `{SensorOps K}.
(** The policy and the options, which do not change after [New]; the
    procReader of the agent, nil in production. *)
Context (p : Policy) (options : Options) (procReader : option (Z → nat → option procInfo)).
Abbreviation MA := (M (Agent K)).
Import Agent.

Definition New (s : option K) : M () (Agent K) :=
  bl ← newBlacklist (Policy.BlacklistHashes p) (Policy.BlacklistHashFiles p);
  mret (mkAgent s ∅ ∅ ∅ ∅ bl newHashCache [] 0 0
          (metrics.mkMetrics "v1" "ebpffls_metrics" 0 0 0 0 0) [] []).

(** ** File descriptors *)
Definition lookupFD (a : Agent K) (tgid fd : Z) : string :=
  match fdPaths a !! (tgid, fd) with Some s => fdState.Path s | None => "" end.
Definition fdPath (tgid fd : Z) : MA string := a ← getS; mret (lookupFD a tgid fd).

Definition touchFD (tgid fd seen : Z) : MA string :=
  a ← getS;
  match fdPaths a !! (tgid, fd) with
  | Some state =>
      if bool_decide (fdState.Path state = "") then mret ""
      else modS (λ a, a <| fdPaths ::= <[(tgid, fd) := state <| fdState.LastSeen := seen |>]> |>) ;;
           mret (fdState.Path state)
  | None => mret ""
  end.

Definition procSymlink {S} (tgid : Z) (name : string) : M S string :=
  if (tgid =? 0) || bool_decide (name = "") then mret ""
  else
    path ← ask (os_Readlink (proc_file tgid name));
    mret (match path with Some path => TrimSuffix path " (deleted)" | None => "" end).

Definition resolveOpenPath (ev : Event) : MA string :=
  let path := Event.Path ev in
  if IsAbs path then mret path
  else
    let dirfd := int32 (Event.Size ev) in
    base ← (if dirfd =? -100 then procSymlink (Event.TGID ev) "cwd"
            else
              base ← fdPath (Event.TGID ev) dirfd;
              if bool_decide (base = "")
              then procSymlink (Event.TGID ev) ("fd/" +:+ pretty dirfd) else mret base);
    mret (if bool_decide (base = "") then path else Clean (PathJoin [base; path])).

(** Returns whether [handle] stops here, and the event with its path
    resolved. *)
Definition updateFD (ev : Event) : MA (bool * Event) :=
  let t := Event.Type_ ev in
  let tgid := Event.TGID ev in
  if t =? EventOpen then
    if bool_decide (Event.Path ev = "") || (Event.Arg1 ev <? 0) then mret (false, ev)
    else
      path ← resolveOpenPath ev;
      modS (λ a, a <| fdPaths ::= <[(tgid, Event.Arg1 ev)
                            := fdState.mkFd path (Event.Timestamp ev)]> |>) ;;
      mret (false, ev <| Event.Path := path |>)
  else if t =? EventClose then
    modS (λ a, a <| fdPaths ::= delete (tgid, Event.Arg0 ev) |>) ;; mret (true, ev)
  else if t =? EventDup then
    if (Event.Arg0 ev <? 0) || (Event.Arg1 ev <? 0) then mret (true, ev)
    else
      a ← getS;
      match fdPaths a !! (tgid, Event.Arg0 ev) with
      | Some state =>
          if bool_decide (fdState.Path state = "")
          then modS (λ a, a <| fdPaths ::= delete (tgid, Event.Arg1 ev) |>)
          else modS (λ a, a <| fdPaths ::= <[(tgid, Event.Arg1 ev)
                                := state <| fdState.LastSeen := Event.Timestamp ev |>]> |>)
      | None => modS (λ a, a <| fdPaths ::= delete (tgid, Event.Arg1 ev) |>)
      end ;;
      mret (true, ev)
  else mret (false, ev).

(** ** Blocked processes and enforcement *)
Definition isBlocked (tgid : Z) : MA bool :=
  if tgid =? 0 then mret false
  else
    a ← getS;
    match blocked a !! tgid with
    | None => mret false
    | Some seen =>
        expired ← andM ((0 <? Policy.BlockTTL p) && negb (IsZero seen))
                    (t ← now; mret (Policy.BlockTTL p <? Sub t seen));
        if (expired : bool)
        then modS (λ a, a <| blocked ::= λ m,
               if bool_decide (m !! tgid = Some seen) then delete tgid m else m |>) ;; mret false
        else mret true
    end.

Definition blockedLineage (ev : Event) : MA bool :=
  b ← isBlocked (Event.TGID ev);
  if (b : bool) then mret true else isBlocked (Event.PPID ev).

Definition rememberBlocked (tgid : Z) : MA () :=
  t ← now; modS (λ a, a <| blocked ::= <[tgid := t]> |>).

(** [sensor.BlockTGID]; [false] when there is no sensor or it fails. *)
Definition sensorBlock (tgid action ttl : Z) : MA bool := λ n a,
  match sensor a with
  | None => (false, n, a)
  | Some k => let '(ok, n', k') := BlockTGID tgid action ttl n k in
              (ok, n', a <| sensor := Some k' |>)
  end.

Definition enforceTGID (tgid action : Z) (reason : string) : MA () :=
  if Options.DryRun options then mret ()
  else
    ok ← sensorBlock tgid action (Policy.BlockTTL p);
    if negb ok then mret ()
    else
      rememberBlocked tgid ;;
      when (action =? BlockActionKill) (modS (λ a, a <| killed ::= λ l, l ++ [tgid] |>)).

Definition countMetrics (f : metrics.metrics → metrics.metrics) : MA () := modS (λ a, a <| metrics ::= f |>).
Definition logAlert (al : alert) : MA () := modS (λ a, a <| alerts ::= λ l, l ++ [al] |>).

Definition emitAlert (st : procState) (action : string) (dryRun : bool) : MA () :=
  t ← now;
  logAlert (alert.mkAlert t (Policy.Name p) action dryRun
    (procState.TGID st) (procState.PID st) (procState.PPID st) (procState.UID st)
    (procState.Comm st) (procState.Score st) (Policy.Threshold p) (procState.Reasons st)
    (procState.Features st) (procState.RecentEvents st)) ;;
  countMetrics (λ m, m <| metrics.Alerts ::= λ n, uint64 (n + 1) |>).

Definition alertAndEnforce (st : procState) (reason action : string) : MA () :=
  let action := normalizeAction (ToLower (TrimSpace action)) in
  emitAlert st action (Options.DryRun options) ;;
  if Options.DryRun options || bool_decide (action = "log") then
    when (Options.DryRun options && negb (bool_decide (action = "log")))
      (rememberBlocked (procState.TGID st))
  else
    countMetrics (λ m, m <| metrics.Blocks ::= λ n, uint64 (n + 1) |>) ;;
    enforceTGID (procState.TGID st) (blockAction action) reason.

(** ** Process states *)

(** [state]: the entry of the process, created if it is new, with the
    identity of the event.  The caller works on the value and stores it back
    with [putState]: the entry is a shared object in Go, but only the
    goroutine that runs [handle] uses it. *)
Definition stateOf (a : Agent K) (ev : Event) (t : Z) : procState :=
  let st := match procs a !! Event.TGID ev with
            | Some st => st
            | None => procState.fresh (Event.TGID ev) t
            end in {|
    procState.TGID := procState.TGID st; procState.PID := Event.PID ev;
    procState.PPID := Event.PPID ev; procState.UID := Event.UID ev;
    procState.Comm := Event.Comm ev; procState.Score := procState.Score st;
    procState.FirstSeen := procState.FirstSeen st; procState.LastSeen := t;
    procState.EventCount := procState.EventCount st;
    procState.WriteCount := procState.WriteCount st;
    procState.Blocked := procState.Blocked st; procState.BlockedAt := procState.BlockedAt st;
    procState.Reasons := procState.Reasons st;
    procState.RecentEvents := procState.RecentEvents st;
    procState.HighRateScored := procState.HighRateScored st;
    procState.Features := procState.Features st; procState.seenPaths := procState.seenPaths st;
    procState.openWritePaths := procState.openWritePaths st;
    procState.history := procState.history st |}.
Definition putState (tgid : Z) (st : procState) : MA () :=
  modS (λ a, a <| procs ::= <[tgid := st]> |>).
Definition orNow (t : Z) : MA Z := if IsZero t then now else mret t.
Definition state (ev : Event) : MA procState :=
  t ← orNow (Event.Timestamp ev);
  a ← getS;
  let st := stateOf a ev t in
  putState (Event.TGID ev) st ;; mret st.

(** [stateBlocked] of Window.v, with the clock read when it is needed. *)
Definition checkBlocked (st : procState) (t : Z) : MA (bool * procState) :=
  if procState.Blocked st && negb ((Policy.BlockTTL p <=? 0) || IsZero (procState.BlockedAt st))
  then t ← orNow t; mret (stateBlocked p t st t)
  else mret (stateBlocked p t st t).

Definition policyAction : string := normalizeAction (ToLower (TrimSpace (Policy.Action p))).

Definition setBlocked (st : procState) (t : Z) : procState :=
  st <| procState.Blocked := true |> <| procState.BlockedAt := t |>.

(** [block]; [tgid] is the key of the entry [st]. *)
Definition block (tgid : Z) (st : procState) : MA () :=
  let action := policyAction in
  st ← (if bool_decide (action = "log") then mret st
        else
          t ← orNow (procState.LastSeen st);
          let st := setBlocked st t in
          putState tgid st ;; mret st);
  alertAndEnforce st "behavior threshold" action.

(** ** Process identities *)
Definition procInPolicyCgroup (proc : procInfo) : bool :=
  if negb (hasConfiguredPaths (Policy.CgroupPaths p)) then true
  else matchesCgroupPath (procInfo.Cgroup proc) (Policy.CgroupPaths p).

Definition inPolicyCgroup (tgid : Z) : MA bool :=
  if negb (hasConfiguredPaths (Policy.CgroupPaths p)) then mret true
  else
    info ← readProc tgid;
    mret (match info with inl _ => false | inr info => procInPolicyCgroup info end).

Definition readProcessInfo (tgid : Z) : MA (option procInfo) :=
  match procReader with
  | Some reader => ask (reader tgid)
  | None => info ← readProc tgid; mret (match info with inl _ => None | inr i => Some i end)
  end.

Definition putInfo (tgid : Z) (cached : cachedProcInfo) : MA () :=
  modS (λ a, a <| procInfos ::= <[tgid := cached]> |>).

(** [procInfo]: the cached identity of a process, read again when an exec may
    have replaced it. *)
Definition procInfoOf (tgid seen : Z) : MA (option procInfo) :=
  seen ← orNow seen;
  a ← getS;
  let entry := procInfos a !! tgid in
  let cached := default cachedProcInfo.zero entry in
  if bool_decide (entry ≠ None) && negb (bool_decide (procInfo.Exe (cachedProcInfo.Info cached) = ""))
     && negb (cachedProcInfo.NeedsRefresh cached)
  then putInfo tgid (cached <| cachedProcInfo.LastSeen := seen |>) ;;
       mret (Some (cachedProcInfo.Info cached))
  else
    info ← readProcessInfo tgid;
    match info with
    | None =>
        if bool_decide (entry ≠ None) && negb (cachedProcInfo.NeedsRefresh cached)
        then putInfo tgid (cached <| cachedProcInfo.LastSeen := seen |>) ;;
             mret (Some (cachedProcInfo.Info cached))
        else mret None
    | Some info =>
        putInfo tgid (cachedProcInfo.mkCached info seen (cachedProcInfo.NeedsRefresh cached)) ;;
        mret (Some info)
    end.

Definition cacheExecInfo (ev : Event) : MA () :=
  seen ← orNow (Event.Timestamp ev);
  a ← getS;
  let cached := default cachedProcInfo.zero (procInfos a !! Event.TGID ev) in
  putInfo (Event.TGID ev) (cachedProcInfo.mkCached (cachedProcInfo.Info cached) seen true) ;;
  if negb (Event.Phase ev =? PhaseSuccess) || negb (Event.Source ev =? SourceSched) then mret ()
  else
    info ← readProcessInfo (Event.TGID ev);
    match info with
    | None => mret ()
    | Some info => if bool_decide (procInfo.Exe info = "") then mret ()
                   else putInfo (Event.TGID ev) (cachedProcInfo.mkCached info seen false)
    end.

Definition isTrustedEvent (ev : Event) : MA bool :=
  if negb (trustedComm p (Event.Comm ev)) then mret false
  else
    exe ← (if bool_decide (Policy.TrustedExePaths p = []) then mret ""
           else info ← procInfoOf (Event.TGID ev) (Event.Timestamp ev);
                mret (match info with Some info => procInfo.Exe info | None => "" end));
    mret (isTrustedIdentityMatched p exe (Event.UID ev)).

Definition isTrustedProc (proc : procInfo) : bool :=
  if negb (trustedComm p (procInfo.Comm proc)) then false
  else isTrustedIdentityMatched p (procInfo.Exe proc) (procInfo.UID proc).

(** ** Indicators *)
Definition immediateIOC (ev : Event) : string :=
  if Event.Type_ ev =? EventOpen then
    if negb (isWriteOpen (Event.Arg0 ev)) || negb (inProtectedScope p (Event.Path ev)) then ""
    else if isRansomNote p (Event.Path ev) then "protected ransom note creation"
    else if hasSuspiciousExtension p (Event.Path ev) then "protected suspicious extension write"
    else ""
  else if Event.Type_ ev =? EventRename then
    if negb (inProtectedScope p (Event.Path2 ev))
       || negb (hasSuspiciousExtension p (Event.Path2 ev)) then ""
    else "protected rename to suspicious extension"
  else "".

Definition inlineIOCReason (ev : Event) : string :=
  let op := uint32 (Event.Arg0 ev) in
  if op =? EventOpen then
    if isRansomNote p (Event.Path ev) then "protected ransom note creation"
    else "protected suspicious extension write"
  else if op =? EventRename then "protected rename to suspicious extension"
  else if op =? EventUnlink then "protected suspicious IOC unlink"
  else "protected inline IOC".

Definition handleInlineIOCBlock (ev : Event) : MA () :=
  let action := actionName (uint32 (Event.Arg1 ev)) in
  if negb (bool_decide (action = "deny")) && negb (bool_decide (action = "kill")) then mret ()
  else
    st ← state ev;
    let st := prune p st (Event.Timestamp ev) in
    '(blocked, st) ← checkBlocked st (Event.Timestamp ev);
    if (blocked : bool) then putState (Event.TGID ev) st
    else
      let reason := inlineIOCReason ev in
      let st := recordIOC p st (Event.Timestamp ev) (eventName (uint32 (Event.Arg0 ev)))
                  (Event.Path ev) "" reason true in
      putState (Event.TGID ev) st ;;
      emitAlert st action false ;;
      countMetrics (λ m, m <| metrics.Blocks ::= λ n, uint64 (n + 1) |>).

(** ** Blacklisted executables *)

(** A non-blocking send: the job is dropped when the queue is full. *)
Definition enqueueHash (job : hashJob) : MA () :=
  modS (λ a, if bool_decide (length (hashQueue a) < hashQueueCap)%nat
             then a <| hashQueue ::= λ q, q ++ [job] |> else a).

(** Run an operation of the hash cache. *)
Definition onHashes {A} (m : M hashCache A) : MA A :=
  zoom hashes (λ c a, a <| hashes := c |>) m.

Definition blacklistedEvent (ev : Event) : MA (bool * string) :=
  a ← getS;
  match blacklist a with
  | None => mret (false, "")
  | Some b =>
      if empty b || negb (Event.Type_ ev =? EventExec) || bool_decide (Event.Path ev = "")
      then mret (false, "")
      else
        hash ← onHashes (HashCache.get (Event.Path ev));
        match hash with
        | Some hash => mret (matchHash b hash, hash)
        | None =>
            enqueueHash (hashJob.mkJob (Event.TGID ev) (Event.PID ev) (Event.PPID ev)
              (Event.UID ev) (Event.Comm ev) (Event.Path ev) "blacklisted exec") ;;
            mret (false, "")
        end
  end.

Definition enforceBlacklist (tgid pid ppid uid : Z) (comm path hash reason : string) : MA () :=
  t ← now;
  t' ← now;
  logAlert (alert.mkAlert t (Policy.Name p) "kill" (Options.DryRun options) tgid pid ppid uid comm
    (Policy.Threshold p) (Policy.Threshold p) [reason] procFeatures.zero
    [scoredEvent.mkScored t' "blacklist" path hash (Policy.Threshold p) reason]) ;;
  countMetrics (λ m, m <| metrics.Alerts ::= λ n, uint64 (n + 1) |>
                       <| metrics.BlacklistMatches ::= λ n, uint64 (n + 1) |>) ;;
  if Options.DryRun options then mret ()
  else
    countMetrics (λ m, m <| metrics.Blocks ::= λ n, uint64 (n + 1) |>) ;;
    enforceTGID tgid BlockActionKill reason.

(** One job of [hashWorker]; nothing when the queue is empty. *)
Definition hashWorkerStep : MA () :=
  a ← getS;
  match blacklist a, hashQueue a with
  | Some _, job :: _ =>
      modS (λ a, a <| hashQueue ::= tail |>) ;;
      hash ← onHashes (compute (hashJob.Path job));
      match hash with
      | inl _ => mret ()
      | inr hash =>
          a ← getS;
          if match blacklist a with Some b => matchHash b hash | None => false end
          then enforceBlacklist (hashJob.TGID job) (hashJob.PID job) (hashJob.PPID job)
                 (hashJob.UID job) (hashJob.Comm job) (hashJob.Path job) hash (hashJob.Reason job)
          else mret ()
      end
  | _, _ => mret ()
  end.

Definition procHash (path : string) : MA (option string) :=
  if bool_decide (path = "") then mret None
  else hash ← onHashes (compute path);
       mret (match hash with inl _ => None | inr hash => Some hash end).

(** One process of the scan. *)
Definition scanProc (proc : procInfo) : MA () :=
  if negb (procInPolicyCgroup proc) then mret ()
  else if isTrustedProc proc then mret ()
  else
    hash ← procHash (procInfo.Exe proc);
    a ← getS;
    match hash, blacklist a with
    | Some hash, Some b =>
        when (matchHash b hash)
          (enforceBlacklist (procInfo.TGID proc) (procInfo.PID proc) 0 0 (procInfo.Comm proc)
             (procInfo.Exe proc) hash "blacklisted running process")
    | _, _ => mret ()
    end.

Definition reloadBlacklist : MA () := λ n a,
  match blacklist a with
  | None => ((), n, a)
  | Some b => let '(_, n', b') := reloadFiles n b in ((), n', a <| blacklist := Some b' |>)
  end.

Definition scanBlacklistOnce : MA () :=
  a ← getS;
  match blacklist a with
  | None => mret ()
  | Some _ =>
      reloadBlacklist ;;
      procs ← listProcs;
      match procs with
      | None => mret ()
      | Some procs => forM procs scanProc
      end
  end.

(** ** Scoring *)
Abbreviation S_ f := (f (Policy.Scores p)) (only parsing).

(** The process has protected file activity in its window. *)
Definition hasActivity (a : Agent K) (tgid : Z) : bool :=
  match procs a !! tgid with
  | None => false
  | Some st => negb (procFeatures.DistinctPaths (procState.Features st) =? 0)
  end.

Definition scoreOpen (ev : Event) (path : string) (protected backup selfProtect : bool)
    : Z * string :=
  if selfProtect && isWriteOpen (Event.Arg0 ev)
  then (S_ Scores.SelfProtect, "self-protect write-open")
  else if negb protected && negb backup then (0, "")
  else if isWriteOpen (Event.Arg0 ev) then
    if isRansomNote p path then (S_ Scores.RansomNote, "ransom note creation")
    else if hasSuspiciousExtension p path
    then (S_ Scores.SuspiciousExtension, "suspicious extension write")
    else (S_ Scores.Write, "write-open in protected scope")
  else (0, "").

Definition scoreScan (path : string) : Z * string :=
  if bool_decide (path = "") then (0, "")
  else if inBackupScope p path
  then (S_ Scores.Scan +ᵢ S_ Scores.BackupDestroy, "directory scan on backup fd")
  else if inProtectedScope p path then (S_ Scores.Scan, "directory scan in protected scope")
  else (0, "").
Definition scoreMmap (path : string) : Z * string :=
  if bool_decide (path = "") then (0, "")
  else if inSelfProtectScope p path then (S_ Scores.SelfProtect, "self-protect writable mmap")
  else if inBackupScope p path
  then (S_ Scores.Mmap +ᵢ S_ Scores.BackupDestroy, "writable mmap on backup fd")
  else if inProtectedScope p path then (S_ Scores.Mmap, "writable mmap in protected scope")
  else (0, "").
Definition scoreWrite (path : string) : Z * string :=
  if bool_decide (path = "") then (0, "")
  else if inSelfProtectScope p path then (S_ Scores.SelfProtect, "self-protect fd write")
  else if inBackupScope p path
  then (S_ Scores.Write +ᵢ S_ Scores.BackupDestroy, "write syscall on backup fd")
  else if inProtectedScope p path then (S_ Scores.Write, "write syscall on protected fd")
  else (0, "").

(** One of the two paths of a rename or a link is in the scope. *)
Definition either (scope : string → bool) (ev : Event) : bool :=
  scope (Event.Path ev) || scope (Event.Path2 ev).

Definition scoreRename (ev : Event) : Z * string :=
  if either (inSelfProtectScope p) ev then (S_ Scores.SelfProtect, "self-protect rename")
  else if either (inProtectedScope p) ev || either (inBackupScope p) ev then
    if hasSuspiciousExtension p (Event.Path2 ev)
    then (S_ Scores.Rename +ᵢ S_ Scores.SuspiciousExtension, "rename to suspicious extension")
    else (S_ Scores.Rename, "rename in protected scope")
  else (0, "").
Definition scoreLink (ev : Event) : Z * string :=
  let op := if Event.Arg0 ev =? 1 then "symlink" else "link" in
  if either (inSelfProtectScope p) ev then (S_ Scores.SelfProtect, "self-protect " +:+ op)
  else if either (inBackupScope p) ev
  then (S_ Scores.Rename +ᵢ S_ Scores.BackupDestroy, op +:+ " in backup scope")
  else if either (inProtectedScope p) ev then (S_ Scores.Rename, op +:+ " in protected scope")
  else (0, "").
Definition scoreUnlink (protected backup selfProtect : bool) : Z * string :=
  if selfProtect then (S_ Scores.SelfProtect, "self-protect deletion")
  else if backup then (S_ Scores.Unlink +ᵢ S_ Scores.BackupDestroy, "backup deletion")
  else if protected then (S_ Scores.Unlink, "unlink in protected scope")
  else (0, "").
Definition scoreTruncate (ev : Event) (protected backup selfProtect : bool) : Z * string :=
  let fd := bool_decide (Event.Path ev = "") in
  if selfProtect
  then (S_ Scores.SelfProtect, if fd then "self-protect fd truncation" else "self-protect truncation")
  else if backup
  then (S_ Scores.Truncate +ᵢ S_ Scores.BackupDestroy,
        if fd then "backup fd truncation" else "backup truncation")
  else if protected
  then (S_ Scores.Truncate, if fd then "ftruncate on protected fd" else "truncate in protected scope")
  else (0, "").

Definition score (ev : Event) : MA (Z * string) :=
  let path := pickPath ev in
  let protected := inProtectedScope p path in
  let backup := inBackupScope p path in
  let selfProtect := inSelfProtectScope p path in
  let touch := touchFD (Event.TGID ev) (Event.Arg0 ev) (Event.Timestamp ev) in
  let t := Event.Type_ ev in
  if t =? EventExec then
    b ← blockedLineage ev;
    mret (if (b : bool) then (S_ Scores.ExecAfterBlocked, "exec after blocked lineage") else (0, ""))
  else if t =? EventIOUring then
    a ← getS;
    mret (if hasActivity a (Event.TGID ev)
          then (S_ Scores.IOUring, "io_uring activity after protected file activity") else (0, ""))
  else if t =? EventConnect then
    if negb (NetworkEgress.Enabled (Policy.NetworkEgress p)) || networkAllowed p ev then mret (0, "")
    else
      a ← getS;
      mret (if hasActivity a (Event.TGID ev)
            then (NetworkEgress.Score (Policy.NetworkEgress p),
                  "network egress after suspicious activity") else (0, ""))
  else if t =? EventScan then path ← touch; mret (scoreScan path)
  else if t =? EventMmap then path ← touch; mret (scoreMmap path)
  else if t =? EventOpen then mret (scoreOpen ev path protected backup selfProtect)
  else if t =? EventWrite then path ← touch; mret (scoreWrite path)
  else if t =? EventRename then mret (scoreRename ev)
  else if t =? EventLink then mret (scoreLink ev)
  else if t =? EventUnlink then mret (scoreUnlink protected backup selfProtect)
  else if t =? EventTruncate then
    if bool_decide (path = "") then
      path ← touch;
      mret (scoreTruncate ev (inProtectedScope p path) (inBackupScope p path)
              (inSelfProtectScope p path))
    else mret (scoreTruncate ev protected backup selfProtect)
  else mret (0, "").

(** The events a trusted process is not exempt from.  [mmap] says whether a
    writable mapping is looked up by its descriptor. *)
Definition sensitiveEvent (scope : string → bool) (mmap : bool) (ev : Event) : MA bool :=
  let path := pickPath ev in
  let t := Event.Type_ ev in
  if t =? EventOpen then mret (isWriteOpen (Event.Arg0 ev) && scope path)
  else if (t =? EventWrite) || (mmap && (t =? EventMmap)) || (t =? EventTruncate) then
    path ← (if bool_decide (path = "")
            then touchFD (Event.TGID ev) (Event.Arg0 ev) (Event.Timestamp ev) else mret path);
    mret (scope path)
  else if t =? EventRename then mret (either scope ev)
  else if t =? EventLink then mret (either scope ev)
  else if t =? EventUnlink then mret (scope path)
  else mret false.
Definition backupSensitiveEvent (ev : Event) : MA bool :=
  sensitiveEvent (inBackupScope p) false ev.
Definition selfProtectSensitiveEvent (ev : Event) : MA bool :=
  sensitiveEvent (inSelfProtectScope p) true ev.

(** ** Handling an event *)

(** The branch of [handle] for an immediate indicator. *)
Definition handleIOC (ev : Event) (reason : string) : MA () :=
  st ← state ev;
  a ← getS;
  let st := recordFeatures p (lookupFD a) (prune p st (Event.Timestamp ev)) ev in
  let action := policyAction in
  let st := recordIOC p st (Event.Timestamp ev) (TypeName ev) (Event.Path ev) (Event.Path2 ev)
              reason (negb (bool_decide (action = "log"))) in
  putState (Event.TGID ev) st ;;
  alertAndEnforce st reason action.

(** The end of [handle]: rules and threshold on the updated state. *)
Definition decide_action (ev : Event) (st : procState) : MA () :=
  '(blocked, st) ← checkBlocked st (Event.Timestamp ev);
  match matchRule p st, blocked with
  | Some (reason, action), false =>
      let st := if bool_decide (action = "log") then st else setBlocked st (Event.Timestamp ev) in
      let st := st <| procState.Reasons ::= λ r, appendReason r reason |> in
      putState (Event.TGID ev) st ;;
      alertAndEnforce st reason action
  | _, _ =>
      putState (Event.TGID ev) st ;;
      when (Policy.Threshold p <=? procState.Score st)
        ('(blocked, st) ← checkBlocked st (Event.Timestamp ev);
         putState (Event.TGID ev) st ;;
         when (negb blocked) (block (Event.TGID ev) st))
  end.

Definition handleScored (ev : Event) (score : Z) (reason : string) : MA () :=
  st ← state ev;
  a ← getS;
  let st := recordScored p (lookupFD a) (prune p st (Event.Timestamp ev)) ev score reason in
  decide_action ev st.

(** Trusted, and nothing a trusted process may not do. *)
Definition exempt (ev : Event) : MA bool :=
  trusted ← isTrustedEvent ev;
  andM trusted
    (backup ← backupSensitiveEvent ev;
     andM (negb backup) (self ← selfProtectSensitiveEvent ev; mret (negb self))).

(** From the blacklist check on. *)
Definition detect (ev : Event) : MA () :=
  '(listed, hash) ← blacklistedEvent ev;
  if (listed : bool)
  then enforceBlacklist (Event.TGID ev) (Event.PID ev) (Event.PPID ev) (Event.UID ev)
         (Event.Comm ev) (Event.Path ev) hash "blacklisted exec"
  else
    skip ← exempt ev;
    if (skip : bool) then mret ()
    else if negb (bool_decide (immediateIOC ev = "")) then handleIOC ev (immediateIOC ev)
    else
      '(score, reason) ← score ev;
      if score =? 0 then mret () else handleScored ev score reason.

(** From the cgroup check on: what [handle] does once the descriptor table is
    up to date. *)
Definition handleUpdated (ev : Event) : MA () :=
  inside ← inPolicyCgroup (Event.TGID ev);
  if negb inside then mret ()
  else
    when (Event.Type_ ev =? EventExec) (cacheExecInfo ev) ;;
    if (Event.Type_ ev =? EventExec) && (Event.Phase ev =? PhaseSuccess) then mret ()
    else
      lineage ← andM (Event.Type_ ev =? EventExec) (blockedLineage ev);
      if lineage && negb (Options.DryRun options)
      then enforceTGID (Event.TGID ev) BlockActionKill "exec by blocked lineage"
      else detect ev.

Definition handle (ev : Event) : MA () :=
  t ← orNow (Event.Timestamp ev);
  let ev := ev <| Event.Timestamp := t |> in
  if Event.Type_ ev =? EventBlock then
    when (Event.Size ev =? BlockReasonInlineIOC) (handleInlineIOCBlock ev)
  else if (Event.Phase ev =? PhaseFailure)
          || ((Event.Type_ ev =? EventWrite) && (Event.Phase ev =? PhaseSuccess)) then mret ()
  else
    '(stop, ev) ← updateFD ev;
    if (stop : bool) then mret () else handleUpdated ev.

(** ** Timers *)
Definition idleTTL : Z :=
  let ttl := int64 (Policy.Window p * 3) in
  let ttl := if ttl <? Minute then Minute else ttl in
  if ttl <? Policy.BlockTTL p then Policy.BlockTTL p else ttl.
Definition pruneInterval : Z :=
  let interval := Z.quot idleTTL 2 in
  if interval <? Second then Second
  else if Minute <? interval then Minute else interval.
Definition ringbufDropInterval : Z :=
  let interval := Policy.Window p in
  if interval <=? 0 then 30 * Second
  else if interval <? 5 * Second then 5 * Second
  else if Minute <? interval then Minute else interval.
Definition metricsInterval : Z :=
  let interval := Policy.Window p in
  if interval <=? 0 then 30 * Second
  else if interval <? 10 * Second then 10 * Second
  else if Minute <? interval then Minute else interval.

(** The period of [scanBlacklist]. *)
Definition scanInterval : Z :=
  if Policy.BlacklistScan p <=? 0 then 5 * Second else Policy.BlacklistScan p.

(** Last seen at [seen], an entry survives [pruneIdle] at [t]. *)
Definition alive (t seen : Z) : bool := IsZero seen || (Sub t seen <=? idleTTL).
Definition keepFresh {A} `{Countable Key} (seen : A → Z) (t : Z) (m : gmap Key A) : gmap Key A :=
  filter (λ kv, alive t (seen kv.2) = true) m.
(** The time [pruneIdle] takes for a blocked process; [procs] is the table
    after its own pruning. *)
Definition blockedSeen (procs : gmap Z procState) (tgid seen : Z) : Z :=
  if IsZero seen
  then match procs !! tgid with Some st => procState.LastSeen st | None => seen end else seen.
Definition pruneIdle (t : Z) : MA () :=
  modS (λ a, a <| procs ::= keepFresh procState.LastSeen t |>) ;;
  modS (λ a, a <| fdPaths ::= keepFresh fdState.LastSeen t |>) ;;
  modS (λ a, a <| procInfos ::= keepFresh cachedProcInfo.LastSeen t |>) ;;
  modS (λ a, a <| blocked ::=
    filter (λ kv, alive t (blockedSeen (procs a) kv.1 kv.2) = true) |>).

Definition counterDelta (current previous : Z) : Z :=
  if current <? previous then current else current - previous.
Definition ringbufDropDelta (current : Z) : MA Z :=
  a ← getS;
  let previous := lastDrops a in
  modS (λ a, a <| lastDrops := current |>
               <| Agent.metrics ::= λ m, m <| metrics.RingbufDropsTotal := current |> |>) ;;
  mret (counterDelta current previous).
Definition captureGapDelta (current : Z) : MA Z :=
  a ← getS;
  let previous := lastCaptureGaps a in
  modS (λ a, a <| lastCaptureGaps := current |>
               <| Agent.metrics ::= λ m, m <| metrics.CaptureGapsTotal := current |> |>) ;;
  mret (counterDelta current previous).

(** A read-only operation of the sensor, [None] if it fails or there is none. *)
Definition onSensor (m : M K (option Z)) : MA (option Z) := λ n a,
  match sensor a with
  | None => (None, n, a)
  | Some k => let '(r, n', k') := m n k in (r, n', a <| sensor := Some k' |>)
  end.

(** Returns the two deltas it logs. *)
Definition logRingbufDrops : MA (option Z * option Z) :=
  drops ← onSensor RingbufDrops;
  match drops with
  | None => mret (None, None)
  | Some drops =>
      delta ← ringbufDropDelta drops;
      gaps ← onSensor CaptureGaps;
      match gaps with
      | None => mret (Some delta, None)
      | Some gaps => delta' ← captureGapDelta gaps; mret (Some delta, Some delta')
      end
  end.

Definition logMetrics : MA metrics.metrics :=
  countMetrics (λ m, m <| metrics.SchemaVersion := "v1" |> <| metrics.Kind := "ebpffls_metrics" |>) ;;
  a ← getS; mret (Agent.metrics a).

(** ** The event loop

    What the [select] of [Run] and the two workers it starts can receive.
    The goroutines share only fields under a mutex or a channel; here whole
    handlers follow each other, Workers.v interleaves their critical
    sections. *)
Inductive Input :=
  | InEvent (ev : Event)
  | InPrune
  | InDrops
  | InMetrics
  | InHashJob
  | InScan.
Definition step (i : Input) : MA () :=
  match i with
  | InEvent ev => handle ev
  | InPrune => t ← now; pruneIdle t
  | InDrops => logRingbufDrops ;; mret ()
  | InMetrics => logMetrics ;; mret ()
  | InHashJob => hashWorkerStep
  | InScan => scanBlacklistOnce
  end.
Definition run (inputs : list Input) : MA () := forM inputs step.

(** The control of [Run]: what makes it return. *)
Inductive Signal :=
  | SigInput (i : Input)
  | SigDone
  | SigErrsClosed
  | SigErr (is_nil : bool)
  | SigEventsClosed.
Inductive Outcome := Running | Stopped | Failed.
Fixpoint runLoop (signals : list Signal) : MA Outcome :=
  match signals with
  | [] => mret Running
  | SigInput i :: signals => step i ;; runLoop signals
  | SigDone :: _ => mret Stopped
  | SigErrsClosed :: signals => runLoop signals
  | SigErr is_nil :: signals => if is_nil then runLoop signals else mret Failed
  | SigEventsClosed :: _ => mret Stopped
  end.
Definition Run (signals : list Signal) : MA Outcome :=
  a ← getS;
  match sensor a with
  | None => mret Failed
  | Some _ => runLoop signals
  end.
End agent.
