(* ===== verification/AgentTheory.v ===== *)
(** * Invariants of the agent (Agent.v)

    An invariant that every basic operation maintains is maintained by every
    handler: [Stable] lists the basic operations, [stable_run] lifts it to any
    sequence of inputs.  Dry-run safety, the alert accounting and the bounds
    are instances. *)
From S2P Require Import Prelude GoStrings GoTime Config World Event Scope Network Window.
From S2P Require Import HashCache Blacklist Interface Agent.

Section stable.
Context `{Unicode} `{World} `{NetIP} `{SensorOps K}.
Context (p : Policy) (options : Options) (procReader : option (Z → nat → option procInfo)).
Import Agent.
Implicit Types I : Agent K → Prop.

(** [P i] holds of every process state the handlers store under [i]; [Sc] of every
    score, [T] of every event time. *)
Class ProcStable (P : Z → procState → Prop) (Sc T : Z → Prop) : Prop := {
  time_ok t : t ≠ 0 → T t;
  now_ok n : T (time_Now n);
  score_ok ev n (a : Agent K) : Sc (result (score p ev) n a).1;
  lineage_ok (b : bool) : Sc (if b then Scores.ExecAfterBlocked (Policy.Scores p) else 0);
  P_state a ev t : T t →
    (∀ st, procs (K := K) a !! Event.TGID ev = Some st → P (Event.TGID ev) st) →
    P (Event.TGID ev) (stateOf a ev t);
  P_prune i st t : P i st → P i (prune p st t);
  P_features i fd st ev : P i st → P i (recordFeatures p fd st ev);
  P_ioc i st t type path path2 reason b : P i st → P i (recordIOC p st t type path path2 reason b);
  P_scored i fd st ev sc reason : T (Event.Timestamp ev) → Sc sc → P i st →
    P i (recordScored p fd st ev sc reason);
  P_blocked i st b t : P i st →
    P i (st <| procState.Blocked := b |> <| procState.BlockedAt := t |>);
  P_reason i st reason : P i st →
    P i (st <| procState.Reasons ::= λ r, appendReason r reason |>) }.

(** The actions the policy asks for. *)
Definition policy_action (action : string) : Prop :=
  action = policyAction p ∨ ∃ r, r ∈ Policy.Rules p ∧ action = Rule.Action r.

(** The kill of a process that execs while it or its parent is blocked. *)
Definition lineageKill (ev : Event) : M (Agent K) () :=
  lineage ← andM (Event.Type_ ev =? EventExec) (blockedLineage p ev);
  when (lineage && negb (Options.DryRun options))
    (enforceTGID p options (Event.TGID ev) BlockActionKill "exec by blocked lineage").

(** [I] is maintained by the basic operations on the tables that only the
    goroutine of [Run] uses. *)
Class Private (P : Z → procState → Prop) (I : Agent K → Prop) : Prop := {
  stable_lookup a tgid st : I a → procs a !! tgid = Some st → P tgid st;
  stable_put tgid st : P tgid st → keeps I (putState tgid st);
  stable_touch tgid fd seen : keeps I (touchFD tgid fd seen);
  stable_infos f : keeps I (modS (λ a : Agent K, a <| procInfos ::= f |>)) }.
(** [I] is maintained by the basic operations; the TGID and parent of every
    exec event are in [Ev]. *)
Class Stable (Ev : Z → Z → Prop) (P : Z → procState → Prop) (I : Agent K → Prop) : Prop := {
  #[global] stable_private :: Private P I;
  stable_get path : keeps I (onHashes (HashCache.get path));
  stable_compute path : keeps I (onHashes (compute path));
  stable_enqueue job : keeps I (enqueueHash job);
  stable_dequeue : keeps I (modS (λ a : Agent K, a <| hashQueue ::= tail |>));
  stable_reload : keeps I reloadBlacklist;
  stable_unblock f : (∀ a m, f a m ⊆ m) → keeps I (modS (λ a : Agent K, a <| blocked ::= f a |>));
  stable_alert st reason action : policy_action action →
    keeps I (alertAndEnforce p options st reason action);
  stable_inline st action : keeps I (emitAlert p st action false ;;
    countMetrics (λ m, m <| metrics.Blocks ::= λ n, uint64 (n + 1) |>));
  stable_blacklisted tgid pid ppid uid comm path hash reason :
    keeps I (enforceBlacklist p options tgid pid ppid uid comm path hash reason);
  stable_lineage ev : (Event.Type_ ev = EventExec → Ev (Event.TGID ev) (Event.PPID ev)) →
    keeps I (lineageKill ev);
  stable_prune_procs t : keeps I (modS (λ a : Agent K, a <| procs ::= keepFresh p procState.LastSeen t |>));
  stable_drops : keeps I logRingbufDrops;
  stable_metrics : keeps I logMetrics }.

(** [I] does not depend on the descriptor table. *)
Class FreeFD (I : Agent K → Prop) : Prop :=
  stable_fd f : keeps I (modS (λ a : Agent K, a <| fdPaths ::= f |>)).
Lemma touchFD_free I `{!FreeFD I} tgid fd seen : keeps I (touchFD tgid fd seen).
Proof. unfold touchFD. keeps_auto. Qed.

Section private.
Context (P : Z → procState → Prop) (Sc T : Z → Prop) `{!ProcStable P Sc T}.
Context (I : Agent K → Prop).

Lemma orNow_ok t : yields I (orNow t) T.
Proof.
  unfold orNow, IsZero. destruct (Z.eqb_spec t 0).
  - intros n s Hs. split; [done|]. apply now_ok.
  - apply yields_ret. by apply time_ok.
Qed.
Lemma orNow_keeps t : keeps I (orNow t).
Proof. eapply yields_keeps, orNow_ok. Qed.

Lemma procSymlink_keeps tgid name : keeps I (procSymlink tgid name).
Proof. unfold procSymlink. keeps_auto. Qed.
Lemma readProc_keeps pid : keeps I (readProc pid).
Proof. unfold readProc. keeps_auto. Qed.
Lemma readProcessInfo_keeps tgid : keeps I (readProcessInfo procReader tgid).
Proof. unfold readProcessInfo. keeps_auto; try apply readProc_keeps; keeps_auto. Qed.
Context `{!Private P I}.
#[local] Hint Resolve orNow_keeps stable_touch procSymlink_keeps readProc_keeps readProcessInfo_keeps
  stable_infos : go.
Lemma procInfoOf_keeps tgid seen : keeps I (procInfoOf procReader tgid seen).
Proof. unfold procInfoOf, putInfo. keeps_auto. Qed.
#[local] Hint Resolve procInfoOf_keeps : go.
Lemma cacheExecInfo_keeps ev : keeps I (cacheExecInfo procReader ev).
Proof. unfold cacheExecInfo, putInfo. keeps_auto. Qed.
Lemma isTrustedEvent_keeps ev : keeps I (isTrustedEvent p procReader ev).
Proof. unfold isTrustedEvent. keeps_auto. Qed.
Lemma inPolicyCgroup_keeps tgid : keeps I (inPolicyCgroup p tgid).
Proof. unfold inPolicyCgroup. keeps_auto. Qed.
Lemma sensitiveEvent_keeps scope mmap ev : keeps I (sensitiveEvent scope mmap ev).
Proof. unfold sensitiveEvent. keeps_auto. Qed.
#[local] Hint Resolve cacheExecInfo_keeps isTrustedEvent_keeps inPolicyCgroup_keeps sensitiveEvent_keeps : go.
Lemma exempt_keeps ev : keeps I (exempt p procReader ev).
Proof. unfold exempt, backupSensitiveEvent, selfProtectSensitiveEvent. keeps_auto. Qed.
#[local] Hint Resolve exempt_keeps : go.
Lemma state_ok ev : T (Event.Timestamp ev) → yields I (state ev) (P (Event.TGID ev)).
Proof.
  intros Ht. unfold state.
  eapply yields_bind; [apply orNow_ok|]. intros t Ht'.
  eapply yields_bind; [apply yields_get|]. intros a Ha. cbv zeta.
  assert (P (Event.TGID ev) (stateOf a ev t)) as Hst.
  { apply P_state; [done|]. intros st. by apply stable_lookup. }
  eapply keeps_yields_bind; [by apply stable_put|]. intros _. by apply yields_ret.
Qed.
Lemma stateBlocked_P i t' st t : P i st → P i (stateBlocked p t' st t).2.
Proof.
  intros HP. unfold stateBlocked. repeat (case_match; try exact HP).
  all: exact (P_blocked (Sc := Sc) (T := T) i st false 0 HP).
Qed.
Lemma checkBlocked_ok i st t : P i st → yields I (checkBlocked p st t) (λ r, P i r.2).
Proof.
  intros HP. unfold checkBlocked. case_match.
  - eapply keeps_yields_bind; [apply orNow_keeps|]. intros t'. by apply yields_ret, stateBlocked_P.
  - by apply yields_ret, stateBlocked_P.
Qed.

Section fd.
Context `{!FreeFD I}.
#[local] Hint Resolve stable_fd : go.
Lemma resolveOpenPath_keeps ev : keeps I (resolveOpenPath ev).
Proof. unfold resolveOpenPath, fdPath. keeps_auto. Qed.
#[local] Hint Resolve resolveOpenPath_keeps : go.
Lemma updateFD_keeps ev : keeps I (updateFD ev).
Proof. unfold updateFD. keeps_auto. Qed.

(** [updateFD] changes at most the path of the event. *)
Lemma updateFD_time ev :
  yields I (updateFD ev) (λ r, Event.Timestamp r.2 = Event.Timestamp ev
    ∧ Event.TGID r.2 = Event.TGID ev ∧ Event.PPID r.2 = Event.PPID ev
    ∧ Event.Type_ r.2 = Event.Type_ ev ∧ Event.Phase r.2 = Event.Phase ev).
Proof.
  intros n a Ha. split; [exact (updateFD_keeps ev n a Ha)|].
  unfold result, updateFD, mbind, M_bind. repeat case_match; simplify_eq; done.
Qed.
End fd.
End private.

Section lift.
Context (P : Z → procState → Prop) (Sc T : Z → Prop) `{!ProcStable P Sc T}.
Context (Ev : Z → Z → Prop) (I : Agent K → Prop) `{!Stable Ev P I}.
#[local] Hint Resolve stable_touch stable_infos sensitiveEvent_keeps readProc_keeps inPolicyCgroup_keeps : go.
#[local] Hint Extern 0 (Private _ I) => apply (stable_private (P := P)) : go.
#[local] Hint Extern 0 (keeps I (orNow _)) => apply (orNow_keeps P Sc T I) : go.
#[local] Hint Extern 0 (keeps I (cacheExecInfo _ _)) => apply (cacheExecInfo_keeps P Sc T I) : go.
#[local] Hint Extern 0 (keeps I (exempt _ _ _)) => apply (exempt_keeps P Sc T I) : go.
Lemma isBlocked_keeps tgid : keeps I (isBlocked p tgid).
Proof.
  unfold isBlocked, now. keeps_auto. apply (stable_unblock (λ _, _)). intros _ m.
  case_match; [apply delete_subseteq|done].
Qed.
Lemma blockedLineage_keeps ev : keeps I (blockedLineage p ev).
Proof. unfold blockedLineage. keeps_auto; apply isBlocked_keeps. Qed.

#[local] Hint Resolve isBlocked_keeps blockedLineage_keeps stable_get stable_compute stable_enqueue
  stable_dequeue stable_reload stable_alert stable_inline stable_blacklisted stable_prune_procs
  stable_drops stable_metrics : go.
Lemma blacklistedEvent_keeps ev : keeps I (blacklistedEvent ev).
Proof. unfold blacklistedEvent. keeps_auto. Qed.
Lemma score_keeps ev : keeps I (score p ev).
Proof. unfold score. keeps_auto. Qed.
#[local] Hint Resolve blacklistedEvent_keeps score_keeps : go.
Lemma policyAction_ok : policy_action (policyAction p).
Proof. by left. Qed.
Lemma matchRule_ok st reason action :
  matchRule p st = Some (reason, action) → policy_action action.
Proof.
  unfold matchRule. destruct (List.find _ _) as [r|] eqn:E; [|done]. intros. simplify_eq.
  right. exists r. split; [|done]. apply find_some in E as [Hr _]. by apply list_elem_of_In.
Qed.
#[local] Hint Resolve policyAction_ok matchRule_ok : go.

Lemma block_keeps tgid st : P tgid st → keeps I (block p options tgid st).
Proof.
  intros HP. unfold block. cbv zeta. apply keeps_bind; [|eauto with go].
  case_match; [apply keeps_ret|]. keeps_auto. apply stable_put.
  by apply (P_blocked (Sc := Sc) (T := T) tgid st).
Qed.
Lemma decide_action_keeps ev st : P (Event.TGID ev) st → keeps I (decide_action p options ev st).
Proof.
  intros HP. unfold decide_action.
  eapply yields_keeps_bind; [by apply (checkBlocked_ok P Sc T I)|]. intros [b st1] HP1. cbn in HP1.
  assert (keeps I (putState (Event.TGID ev) st1 ;;
    when (Policy.Threshold p <=? procState.Score st1)
      ('(blocked, st) ← checkBlocked p st1 (Event.Timestamp ev);
       putState (Event.TGID ev) st ;; when (negb blocked) (block p options (Event.TGID ev) st)))) as Hk.
  { apply keeps_bind; [by apply stable_put|]. intros _. apply keeps_when. intros _.
    eapply yields_keeps_bind; [by apply (checkBlocked_ok P Sc T I)|]. intros [b2 st2] HP2. cbn in HP2.
    apply keeps_bind; [by apply stable_put|]. intros _. apply keeps_when. intros _.
    by apply block_keeps. }
  destruct (matchRule p st1) as [[reason action]|] eqn:Hm, b; try exact Hk.
  cbv zeta. apply keeps_bind; [|eauto with go]. apply stable_put, P_reason.
  case_match; [done|]. by apply (P_blocked (Sc := Sc) (T := T) _ st1).
Qed.
Lemma handleScored_keeps ev sc reason :
  T (Event.Timestamp ev) → Sc sc → keeps I (handleScored p options ev sc reason).
Proof.
  intros Ht Hs. unfold handleScored. eapply yields_keeps_bind; [by apply (state_ok P Sc T I)|].
  intros st HP. keeps_step; [keeps_auto|]. cbv zeta. by apply decide_action_keeps, P_scored, P_prune.
Qed.
Lemma handleIOC_keeps ev reason :
  T (Event.Timestamp ev) → keeps I (handleIOC p options ev reason).
Proof.
  intros Ht. unfold handleIOC. eapply yields_keeps_bind; [by apply (state_ok P Sc T I)|].
  intros st HP. keeps_step; [keeps_auto|]. cbv zeta. apply keeps_bind; [|eauto with go].
  by apply stable_put, P_ioc, P_features, P_prune.
Qed.
Lemma handleInlineIOCBlock_keeps ev :
  T (Event.Timestamp ev) → keeps I (handleInlineIOCBlock p ev).
Proof.
  intros Ht. unfold handleInlineIOCBlock. cbv zeta. case_match; [apply keeps_ret|].
  eapply yields_keeps_bind; [by apply (state_ok P Sc T I)|]. intros st HP.
  eapply yields_keeps_bind; [by apply (checkBlocked_ok P Sc T I), P_prune|]. intros [b st1] HP1. cbn in HP1.
  case_match; [by apply stable_put|].
  apply keeps_bind; [by apply stable_put, P_ioc|]. intros _. apply stable_inline.
Qed.
Lemma detect_keeps ev : T (Event.Timestamp ev) → keeps I (detect p options procReader ev).
Proof.
  intros Ht. unfold detect. apply keeps_bind; [eauto with go|]. intros [b h].
  case_match; [eauto with go|]. apply keeps_bind; [eauto with go|]. intros skip.
  case_match; [apply keeps_ret|]. case_match; [by apply handleIOC_keeps|].
  eapply (yields_keeps_bind _ _ _ (λ r, Sc r.1)).
  - intros n s Hs. split; [by apply score_keeps|apply score_ok].
  - intros [sc reason] Hs. case_match; [apply keeps_ret|]. by apply handleScored_keeps.
Qed.


Definition exec_ok (ev : Event) : Prop :=
  Event.Type_ ev = EventExec → Ev (Event.TGID ev) (Event.PPID ev).
Lemma handleUpdated_keeps ev :
  T (Event.Timestamp ev) → exec_ok ev → keeps I (handleUpdated p options procReader ev).
Proof.
  intros Ht HEv. unfold handleUpdated.
  apply keeps_bind; [eauto with go|]. intros inside. case_match; [apply keeps_ret|].
  apply keeps_bind; [keeps_auto|]. intros _. case_match; [apply keeps_ret|].
  apply keeps_else; [by apply stable_lineage|by apply detect_keeps].
Qed.

Context `{!FreeFD I}.
Lemma handle_keeps ev : exec_ok ev → keeps I (handle p options procReader ev).
Proof.
  intros HEv. unfold handle. eapply yields_keeps_bind; [apply (orNow_ok P Sc T I)|]. intros t Ht. cbv zeta.
  case_match; [apply keeps_when; intros _; by apply handleInlineIOCBlock_keeps|].
  case_match; [apply keeps_ret|].
  eapply yields_keeps_bind; [apply (updateFD_time I)|]. intros [stop ev'].
  cbn. intros (Ht' & Hg & Hpp & Hty & _). case_match; [apply keeps_ret|].
  apply handleUpdated_keeps; [by rewrite Ht'|]. unfold exec_ok in *. by rewrite Hg, Hpp, Hty.
Qed.

Lemma hashWorkerStep_keeps : keeps I (hashWorkerStep p options).
Proof. unfold hashWorkerStep. keeps_auto. Qed.
Lemma scanProc_keeps proc : keeps I (scanProc p options proc).
Proof. unfold scanProc, procHash. keeps_auto. Qed.
Lemma readProcs_keeps l : keeps I (readProcs l).
Proof.
  induction l as [|[name d] l IH]; cbn [readProcs]; [apply keeps_ret|]. keeps_auto.
Qed.
#[local] Hint Resolve hashWorkerStep_keeps scanProc_keeps readProcs_keeps : go.
Lemma scanBlacklistOnce_keeps : keeps I (scanBlacklistOnce p options).
Proof. unfold scanBlacklistOnce, listProcs. keeps_auto. Qed.
Lemma pruneIdle_keeps t : keeps I (pruneIdle p t).
Proof. unfold pruneIdle. keeps_auto. apply (stable_unblock (λ a, _)). intros. apply map_filter_subseteq. Qed.
#[local] Hint Resolve scanBlacklistOnce_keeps pruneIdle_keeps : go.
Definition input_ok (i : Input) : Prop :=
  match i with InEvent ev => exec_ok ev | _ => True end.
Definition signal_ok (s : Signal) : Prop :=
  match s with SigInput i => input_ok i | _ => True end.
Lemma step_keeps i : input_ok i → keeps I (step p options procReader i).
Proof. intros Hi. unfold step, now. keeps_auto. by apply handle_keeps. Qed.

(** Whatever arrives, in whatever order. *)
Lemma runLoop_keeps signals : Forall signal_ok signals → keeps I (runLoop p options procReader signals).
Proof.
  induction 1 as [|s signals Hs _ IH]; cbn [runLoop]; [apply keeps_ret|].
  destruct s; keeps_auto. by apply step_keeps.
Qed.
Lemma Run_keeps signals : Forall signal_ok signals → keeps I (Run p options procReader signals).
Proof. intros Hs. unfold Run. keeps_auto. by apply runLoop_keeps. Qed.
End lift.
End stable.

(** ** Tools for instances of [Stable] *)
Section frame.
Context `{Unicode} `{World} `{NetIP} `{SensorLaws K}.
Context (p : Policy) (options : Options).
Import Agent.

#[export] Instance any_proc : ProcStable (K := K) p (λ _ _, True) (λ _, True) (λ _, True).
Proof. by split. Qed.

Lemma keeps_zoom_hashes {A} (I : Agent K → Prop) (m : M hashCache A) :
  (∀ a c, I a → I (a <| hashes := c |>)) → keeps I (onHashes m).
Proof.
  intros HI n a Ha. unfold after, onHashes, zoom. destruct (m n (hashes a)) as [[x n'] c].
  by apply HI.
Qed.
Lemma keeps_reload (I : Agent K → Prop) :
  (∀ a b, I a → I (a <| blacklist := b |>)) → keeps I reloadBlacklist.
Proof.
  intros HI n a Ha. unfold after, reloadBlacklist. destruct (blacklist a) as [b|]; [|done].
  destruct (reloadFiles n b) as [[x n'] b']. by apply HI.
Qed.

Lemma keeps_drops (I : Agent K → Prop) :
  (∀ a k, I a → (∀ k0, sensor a = Some k0 → marked k = marked k0) → is_Some (sensor a) →
     I (a <| sensor := Some k |>)) →
  (∀ a x, I a → I (a <| lastDrops := x |>
      <| Agent.metrics ::= λ m, m <| metrics.RingbufDropsTotal := x |> |>)) →
  (∀ a x, I a → I (a <| lastCaptureGaps := x |>
      <| Agent.metrics ::= λ m, m <| metrics.CaptureGapsTotal := x |> |>)) →
  keeps I logRingbufDrops.
Proof.
  intros Hs Hd Hg.
  assert (∀ m, (∀ n k, marked (after m n k) = marked k) → keeps I (onSensor m)) as Hon.
  { intros m Hm n a Ha. unfold after, onSensor. destruct (sensor a) as [k|] eqn:E; [|done].
    specialize (Hm n k). unfold after in Hm. destruct (m n k) as [[r n'] k']. cbn in *.
    apply Hs; [done| |eauto]. intros k0 E0. by simplify_eq. }
  unfold logRingbufDrops, ringbufDropDelta, captureGapDelta. keeps_auto.
  - apply Hon, RingbufDrops_marked.
  - apply Hon, CaptureGaps_marked.
Qed.

Lemma keeps_sensorBlock (I : Agent K → Prop) tgid action ttl :
  (∀ a k, I a → I (a <| sensor := Some k |>)) → keeps I (sensorBlock tgid action ttl).
Proof.
  intros HI n a Ha. unfold after, sensorBlock. destruct (sensor a); [|done].
  destruct (BlockTGID _ _ _ _ _) as [[? ?] ?]. by apply HI.
Qed.
Lemma keeps_enforce (I : Agent K → Prop) tgid action reason :
  (∀ a k, I a → I (a <| sensor := Some k |>)) →
  (∀ a f, I a → I (a <| blocked ::= f |>)) →
  (∀ a f, I a → I (a <| killed ::= f |>)) →
  keeps I (enforceTGID p options tgid action reason).
Proof.
  intros Hs Hb Hk. unfold enforceTGID, rememberBlocked, now. case_match; [apply keeps_ret|].
  apply keeps_bind; [by apply keeps_sensorBlock|]. intros ok. case_match; [apply keeps_ret|].
  keeps_auto.
Qed.
End frame.

(** Basic steps that do not touch what the invariant is about. *)
Ltac same := intros; match goal with Hi : ?I ?a |- ?I ?b => exact Hi end.
Ltac frame :=
  intros; first
  [ done
  | apply touchFD_free; intros ?; apply keeps_mod; same
  | apply keeps_zoom_hashes; same
  | apply keeps_reload; same
  | unfold putState, putInfo, enqueueHash, rememberBlocked, emitAlert, enforceBlacklist, logAlert,
      countMetrics, logMetrics, now;
    keeps_auto; apply keeps_mod; intros; first [same | case_match; same] ].
Ltac frames := split; [split|..]; try (frame; fail).

