(* ===== verification/AgentSafety.v ===== *)
(** * Safety of the agent: what it may do to other processes, and its bounds

    Instances of the invariants of AgentTheory.v, for every policy and every
    sequence of inputs. *)
From S2P Require Import Prelude GoStrings GoTime Config World Event Scope Network Window.
From S2P Require Import WindowTheory HashCache Blacklist Interface Agent AgentTheory.

Import Agent.

Section safety.
Context `{Unicode} `{World} `{NetIP} `{SensorLaws K}.
Context (p : Policy) (options : Options) (procReader : option (Z → nat → option procInfo)).

(** The processes marked in the kernel. *)
Definition marks (a : Agent K) : gmap Z Z :=
  match sensor a with Some k => marked k | None => ∅ end.

(** ** Dry run *)
Section dry_run.
Hypothesis Hdry : Options.DryRun options = true.
Context (m0 : gmap Z Z) (k0 : list Z).
Definition untouched (a : Agent K) : Prop := marks a = m0 ∧ killed a = k0.

Lemma enforce_untouched tgid action reason : keeps untouched (enforceTGID p options tgid action reason).
Proof. unfold enforceTGID. rewrite Hdry. apply keeps_ret. Qed.
#[local] Instance untouched_fd : FreeFD untouched.
Proof. intros f. frame. Qed.
#[local] Instance untouched_stable : Stable p options (λ _ _, True) (λ _ _, True) untouched.
Proof.
  frames.
  - intros. unfold alertAndEnforce. rewrite Hdry. cbn [orb andb]. frame.
  - intros. unfold enforceBlacklist. rewrite Hdry. frame.
  - intros. unfold lineageKill. rewrite Hdry. keeps_auto; [|by destruct a].
    unfold blockedLineage, isBlocked. frame.
  - apply keeps_drops; [|same|same].
    intros a k [Hm Hk] Hs [k1 E]. split; [|done]. rewrite <- Hm. unfold marks.
    cbn. rewrite E. by apply Hs.
Qed.
Lemma run_untouched signals : keeps untouched (Run p options procReader signals).
Proof.
  apply (Run_keeps p options procReader (λ _ _, True) (λ _, True) (λ _, True) (λ _ _, True)).
  - apply untouched_stable.
  - apply untouched_fd.
  - apply Forall_true. by intros [[] | | | |].
Qed.
End dry_run.

(** in dry-run mode the agent never acts on a process: whatever events,
    timers and blacklist results arrive, no process is marked in the kernel
    and none is killed. *)
Theorem dry_run_safe signals n a :
  Options.DryRun options = true →
  marks (after (Run p options procReader signals) n a) = marks a
  ∧ killed (after (Run p options procReader signals) n a) = killed a.
Proof. intros Hdry. by apply (run_untouched Hdry (marks a) (killed a) signals n a). Qed.

(** ** What the sensor keeps, the agent keeps *)
Section wired.
Context (W : K → Prop).
Hypothesis HB : ∀ tgid action ttl, keeps W (BlockTGID tgid action ttl).
Hypothesis HR : keeps W RingbufDrops.
Hypothesis HG : keeps W CaptureGaps.
Definition wired (a : Agent K) : Prop := ∃ k, sensor a = Some k ∧ W k.

Lemma sensorBlock_wired tgid action ttl : keeps wired (sensorBlock tgid action ttl).
Proof.
  intros n a (k & Hk & HW). unfold after, sensorBlock. rewrite Hk. specialize (HB tgid action ttl n k HW).
  unfold after in HB. destruct (BlockTGID tgid action ttl n k) as [[ok n'] k']. by exists k'.
Qed.
Lemma onSensor_wired m : keeps W m → keeps wired (onSensor m).
Proof.
  intros Hm n a (k & Hk & HW). unfold after, onSensor. rewrite Hk. specialize (Hm n k HW).
  unfold after in Hm. destruct (m n k) as [[ok n'] k']. by exists k'.
Qed.
Lemma enforce_wired tgid action reason : keeps wired (enforceTGID p options tgid action reason).
Proof. unfold enforceTGID, rememberBlocked, now. pose proof sensorBlock_wired. keeps_auto. Qed.
#[local] Instance wired_fd : FreeFD wired.
Proof. intros f. frame. Qed.
#[local] Instance wired_stable : Stable p options (λ _ _, True) (λ _ _, True) wired.
Proof.
  pose proof enforce_wired. pose proof onSensor_wired.
  frames; intros; unfold alertAndEnforce, enforceBlacklist, emitAlert, logAlert, countMetrics, rememberBlocked,
    lineageKill, blockedLineage, isBlocked, logRingbufDrops, ringbufDropDelta, captureGapDelta, now; keeps_auto.
Qed.
Lemma run_wired signals : keeps wired (Run p options procReader signals).
Proof.
  apply (Run_keeps p options procReader (λ _ _, True) (λ _, True) (λ _, True) (λ _ _, True)).
  - apply wired_stable.
  - apply wired_fd.
  - apply Forall_true. by intros [[] | | | |].
Qed.
End wired.

(** ** Every action has a cause *)

(** An alert was logged for process [t]. *)
Definition alerted (a : Agent K) (t : Z) : Prop := ∃ al, al ∈ alerts a ∧ alert.TGID al = t.
(** [t] was alerted on, or executed a program as the child of such a process. *)
Inductive justified (alerted : Z → Prop) (Ev : Z → Z → Prop) : Z → Prop :=
  | just_alert t : alerted t → justified alerted Ev t
  | just_exec t parent : Ev t parent → justified alerted Ev parent → justified alerted Ev t.
Lemma justified_mono (A B : Z → Prop) Ev t :
  (∀ x, A x → B x) → justified A Ev t → justified B Ev t.
Proof. intros HAB. induction 1; eauto using justified. Qed.

Definition audited (Ev : Z → Z → Prop) (a : Agent K) : Prop :=
  ∀ t, t ∈ dom (marks a) ∨ t ∈ killed a ∨ t ∈ dom (blocked a) → justified (alerted a) Ev t.

Section audit.
Context (Ev : Z → Z → Prop).

(** [t] may be acted on. *)
Definition cleared (t : Z) (a : Agent K) : Prop := audited Ev a ∧ justified (alerted a) Ev t.

Lemma marks_sensor (a : Agent K) k : marks (a <| sensor := Some k |>) = marked k.
Proof. done. Qed.
Lemma enforce_cleared tgid action reason :
  triple (cleared tgid) (enforceTGID p options tgid action reason) (λ _, cleared tgid).
Proof.
  intros n a [Ha Ht]. unfold enforceTGID, sensorBlock, rememberBlocked, now, ask, modS.
  destruct (Options.DryRun options); [done|]. unfold after, mbind, M_bind.
  destruct (sensor a) as [k|] eqn:Hk; [|done].
  pose proof (BlockTGID_ok tgid action (Policy.BlockTTL p) n k) as Hok.
  pose proof (BlockTGID_failed tgid action (Policy.BlockTTL p) n k) as Hf.
  unfold result, after in *. destruct (BlockTGID _ _ _ n k) as [[[|] n'] k']; cbn in *.
  - destruct (Hok eq_refl) as [_ Hm]. destruct (action =? BlockActionKill); cbn;
      (split; [|done]); intros t; cbn; unfold marks; cbn; rewrite Hm, !dom_insert_L;
      intros Hin; assert (t = tgid ∨ t ∈ dom (marked k) ∨ t ∈ killed a ∨ t ∈ dom (blocked a))
        as [->|Hcase] by set_solver; try done; apply Ha; unfold marks; by rewrite Hk.
  - split; [|done]. intros t. cbn. unfold marks. cbn. rewrite Hf by done.
    intros Hin. apply Ha. unfold marks. by rewrite Hk.
Qed.

Lemma cleared_ext t a a' :
  marks a' = marks a → killed a' = killed a → dom (blocked a') ⊆ {[t]} ∪ dom (blocked a) →
  (∀ al, al ∈ alerts a → al ∈ alerts a') → cleared t a → cleared t a'.
Proof.
  intros Hm Hk Hb Hal [Ha Ht].
  assert (∀ x, justified (alerted a) Ev x → justified (alerted a') Ev x) as Hj.
  { intros x. apply justified_mono. intros y (al & ? & ?). exists al. eauto. }
  split; [|by apply Hj]. intros x. rewrite Hm, Hk. intros Hx.
  destruct (decide (x = t)) as [->|]; [by apply Hj|]. apply Hj, Ha. set_solver.
Qed.
Lemma logAlert_cleared al :
  triple (audited Ev) (logAlert al) (λ _, cleared (alert.TGID al)).
Proof.
  intros n a Ha. unfold after, logAlert, modS.
  assert (alerted (a <| alerts ::= λ l, l ++ [al] |>) (alert.TGID al)) as Hal.
  { exists al. split; [|done]. cbn. set_solver. }
  split; [|by constructor]. intros t Ht. eapply justified_mono; [|by apply Ha].
  intros x (al' & ? & ?). exists al'. split; [|done]. cbn. set_solver.
Qed.
Lemma remember_cleared t : keeps (cleared t) (rememberBlocked t).
Proof.
  unfold rememberBlocked, now. keeps_auto. apply keeps_mod. intros s. apply cleared_ext; try done.
  cbn. rewrite dom_insert_L. set_solver.
Qed.
Lemma count_cleared t f : keeps (cleared t) (countMetrics f).
Proof. apply keeps_mod. done. Qed.
Lemma cleared_audited {A} t (m : M (Agent K) A) Q :
  triple (cleared t) m (λ _, cleared t) → (∀ x a, cleared t a → Q x a) → triple (cleared t) m Q.
Proof. intros Hm HQ. eapply triple_conseq; [apply Hm|done|done]. Qed.

Lemma emitAlert_cleared st action dry :
  triple (audited Ev) (emitAlert p st action dry) (λ _, cleared (procState.TGID st)).
Proof.
  unfold emitAlert. eapply triple_bind; [apply (keeps_ask _ time_Now)|]. intros t.
  eapply triple_bind; [apply logAlert_cleared|]. intros ?. apply count_cleared.
Qed.
Lemma alertAndEnforce_audited st reason action :
  keeps (audited Ev) (alertAndEnforce p options st reason action).
Proof.
  unfold alertAndEnforce. cbv zeta. eapply triple_bind; [apply emitAlert_cleared|]. intros ?.
  eapply (cleared_audited (procState.TGID st)); [|by intros ? ? []].
  case_match; [apply keeps_when; intros _; apply remember_cleared|].
  apply keeps_bind; [apply count_cleared|]. intros ?. apply enforce_cleared.
Qed.
Lemma enforceBlacklist_audited tgid pid ppid uid comm path hash reason :
  keeps (audited Ev) (enforceBlacklist p options tgid pid ppid uid comm path hash reason).
Proof.
  unfold enforceBlacklist, now. do 2 (apply keeps_bind; [apply keeps_ask|]; intros ?).
  eapply triple_bind; [apply logAlert_cleared|]. intros ?. cbn [alert.TGID].
  eapply (cleared_audited tgid); [|by intros ? ? []].
  apply keeps_bind; [apply count_cleared|]. intros ?. case_match; [apply keeps_ret|].
  apply keeps_bind; [apply count_cleared|]. intros ?. apply enforce_cleared.
Qed.

Lemma unblock_audited f :
  (∀ a m, f a m ⊆ m) → keeps (audited Ev) (modS (λ a : Agent K, a <| blocked ::= f a |>)).
Proof.
  intros Hf. apply keeps_mod. intros a Ha t Ht. cbn in Ht.
  assert (dom (f a (blocked a)) ⊆ dom (blocked a)) by (apply subseteq_dom, Hf).
  apply Ha. unfold marks in *. cbn in *. set_solver.
Qed.
Lemma isBlocked_audited tgid :
  triple (audited Ev) (isBlocked p tgid)
    (λ b a, audited Ev a ∧ (b = true → justified (alerted a) Ev tgid)).
Proof.
  unfold isBlocked, now. case_match; [by apply triple_ret|].
  intros n a Ha. unfold result, after, mbind, M_bind, getS.
  destruct (blocked a !! tgid) as [seen|] eqn:E; [|done]. unfold andM.
  assert (justified (alerted a) Ev tgid) as Hj.
  { apply Ha. right; right. apply elem_of_dom. eauto. }
  destruct ((0 <? Policy.BlockTTL p) && negb (IsZero seen)); [|done]. unfold ask.
  cbn. destruct (_ <? Sub _ _); [|done]. cbn. split; [|done].
  refine (unblock_audited (λ _ m, if bool_decide (m !! tgid = Some seen) then delete tgid m else m)
    _ n a Ha).
  intros _ m. case_match; [apply delete_subseteq|done].
Qed.
Lemma lineageKill_audited ev :
  (Event.Type_ ev = EventExec → Ev (Event.TGID ev) (Event.PPID ev)) →
  keeps (audited Ev) (lineageKill p options ev).
Proof.
  intros HE. unfold lineageKill.
  eapply (triple_bind _ _ _ (λ b a, audited Ev a ∧ (b = true → justified (alerted a) Ev (Event.TGID ev)))).
  - unfold andM. destruct (Z.eqb_spec (Event.Type_ ev) EventExec); [|apply triple_ret; naive_solver].
    unfold blockedLineage. eapply triple_bind; [apply isBlocked_audited|].
    intros b. destruct b; [apply triple_ret; naive_solver|].
    eapply triple_conseq; [apply isBlocked_audited|by intros s []|].
    intros b s [Ha Hj]. split; [done|]. intros ->. eapply just_exec; eauto.
  - intros b n a [Ha Hj]. unfold when. destruct b; cbn; [|done].
    destruct (negb (Options.DryRun options)); [|done].
    refine (proj1 (enforce_cleared _ _ _ n a _)). split; [done|by apply Hj].
Qed.

#[local] Instance audited_fd : FreeFD (audited Ev).
Proof. intros f. frame. Qed.
#[local] Instance audited_stable : Stable p options Ev (λ _ _, True) (audited Ev).
Proof.
  frames.
  - apply unblock_audited.
  - intros. apply alertAndEnforce_audited.
  - intros. eapply triple_bind; [apply emitAlert_cleared|]. intros ?.
    eapply cleared_audited; [apply count_cleared|by intros ? ? []].
  - apply enforceBlacklist_audited.
  - apply lineageKill_audited.
  - apply keeps_drops; [|same|same].
    intros a k Ha Hs [k1 E] t. rewrite marks_sensor, (Hs k1 E). intros Ht. apply Ha.
    unfold marks. by rewrite E.
Qed.
End audit.

(** The exec events among the inputs: process and parent. *)
Definition execs (signals : list Signal) (t parent : Z) : Prop :=
  ∃ ev, SigInput (InEvent ev) ∈ signals ∧ Event.Type_ ev = EventExec
    ∧ Event.TGID ev = t ∧ Event.PPID ev = parent.

(** C1: the agent acts only with a cause it has logged: starting with no
    process marked, killed or remembered as blocked, every process that is
    ever marked in the kernel, killed or remembered is the subject of an
    alert, or reaches one through exec events of children. *)
Theorem every_action_justified signals n a t :
  marks a = ∅ → killed a = [] → blocked a = ∅ →
  let a' := after (Run p options procReader signals) n a in
  t ∈ dom (marks a') ∨ t ∈ killed a' ∨ t ∈ dom (blocked a') →
  justified (alerted a') (execs signals) t.
Proof.
  intros Hm Hk Hb a'. assert (audited (execs signals) a) as Ha.
  { intros x. rewrite Hm, Hk, Hb. set_solver. }
  refine (Run_keeps p options procReader (λ _ _, True) (λ _, True) (λ _, True) (execs signals)
    (audited (execs signals)) signals _ n a Ha t); [apply audited_stable|apply audited_fd|].
  apply Forall_forall. intros [[]| | | |] Hin; try done. intros Hty. by exists ev.
Qed.

(** ** Accounting *)
Lemma keeps_seq_assoc (I : Agent K → Prop) {A B C} (m : M (Agent K) A) (k : M (Agent K) B)
    (r : M (Agent K) C) :
  keeps I ((m ;; k) ;; r) → keeps I (m ;; k ;; r).
Proof.
  intros Hk n a Ha. specialize (Hk n a Ha). unfold result, after, mbind, M_bind in *.
  by destruct (m n a) as [[x n'] a'].
Qed.
Definition counted (a : Agent K) : Prop :=
  metrics.Alerts (Agent.metrics a) = uint64 (Z.of_nat (length (alerts a))).

Lemma uint64_succ x : uint64 (uint64 x + 1) = uint64 (x + 1).
Proof. unfold wrap_u. by rewrite Zplus_mod_idemp_l. Qed.
(** An alert and its count, whatever else of the metrics changes. *)
Lemma alert_counted al f :
  (∀ m, metrics.Alerts (f m) = uint64 (metrics.Alerts m + 1)) →
  keeps counted (logAlert al ;; countMetrics f).
Proof.
  intros Hf n a Ha. unfold after, logAlert, countMetrics, modS, mbind, M_bind, counted in *. cbn.
  rewrite Hf, Ha, length_app, uint64_succ. f_equal. cbn. lia.
Qed.
Lemma emitAlert_counted st action dry : keeps counted (emitAlert p st action dry).
Proof. unfold emitAlert, now. apply keeps_bind; [apply keeps_ask|]. intros. by apply alert_counted. Qed.
Lemma blocks_counted : keeps counted (countMetrics (λ m, m <| metrics.Blocks ::= λ n, uint64 (n + 1) |>)).
Proof. frame. Qed.
Lemma enforce_counted tgid action reason : keeps counted (enforceTGID p options tgid action reason).
Proof. by apply keeps_enforce. Qed.
#[local] Hint Resolve emitAlert_counted blocks_counted enforce_counted : go.
#[local] Instance counted_fd : FreeFD counted.
Proof. intros f. frame. Qed.
#[local] Instance counted_stable : Stable p options (λ _ _, True) (λ _ _, True) counted.
Proof.
  frames.
  - intros. unfold alertAndEnforce. keeps_auto.
  - intros. keeps_auto.
  - intros. unfold enforceBlacklist, now. do 2 (apply keeps_bind; [apply keeps_ask|]; intros ?).
    apply keeps_seq_assoc, keeps_bind; [by apply alert_counted|]. intros ?. keeps_auto.
  - intros. unfold lineageKill, blockedLineage, isBlocked. keeps_auto; frame.
  - by apply keeps_drops.
Qed.

(** the alert counter of the metrics is the number of alerts logged,
    modulo 2^64: none is logged without being counted and none is counted
    twice. *)
Theorem alerts_counted signals n a :
  counted a → counted (after (Run p options procReader signals) n a).
Proof.
  refine (Run_keeps p options procReader (λ _ _, True) (λ _, True) (λ _, True) (λ _ _, True)
    counted signals _ n a).
  apply Forall_true. by intros [[] | | | |].
Qed.
End safety.
