(* ===== verification/AgentInv.v ===== *)
(** * The state of the agent stays well formed and bounded

    Every process state satisfies the invariant of WindowTheory.v, and the
    queue and the digest cache never exceed their capacity. *)
From S2P Require Import Prelude GoStrings GoTime Config World Event Scope Network Window.
From S2P Require Import WindowTheory HashCache Blacklist Interface Agent AgentTheory AgentSafety.

Import Agent.

(** What the program relies on: the clock never shows the zero time. *)
Class ClockLaws `{World} : Prop := time_Now_nonzero n : time_Now n ≠ 0.

(** Scores small enough for the sums over a window to fit an [int]. *)
Record scores_small (p : Policy) : Prop := {
  ss_scores : Forall (λ v, 0 ≤ v ≤ 2 ^ 39)
    (score_values (Policy.Scores p) (NetworkEgress.Score (Policy.NetworkEgress p)));
  ss_threshold : 0 ≤ Policy.Threshold p ≤ maxScore }.

Section inv.
Context `{Unicode} `{World} `{!ClockLaws} `{NetIP} `{SensorLaws K}.
Context (p : Policy) (options : Options) (procReader : option (Z → nat → option procInfo)).
Hypothesis Hp : scores_small p.

Lemma score_bounds v :
  v ∈ score_values (Policy.Scores p) (NetworkEgress.Score (Policy.NetworkEgress p)) → 0 ≤ v ≤ 2 ^ 39.
Proof. revert v. apply Forall_forall, ss_scores, Hp. Qed.
Lemma score_ok_one v :
  v ∈ score_values (Policy.Scores p) (NetworkEgress.Score (Policy.NetworkEgress p)) →
  WindowTheory.score_ok v.
Proof. intros Hv%score_bounds. unfold WindowTheory.score_ok, maxScore. lia. Qed.
Lemma score_ok_sum v w :
  v ∈ score_values (Policy.Scores p) (NetworkEgress.Score (Policy.NetworkEgress p)) →
  w ∈ score_values (Policy.Scores p) (NetworkEgress.Score (Policy.NetworkEgress p)) →
  WindowTheory.score_ok (v +ᵢ w).
Proof.
  intros Hv%score_bounds Hw%score_bounds.
  rewrite int_add_small; unfold is_int64, minInt64, maxInt64, WindowTheory.score_ok, maxScore; lia.
Qed.
Lemma score_ok_zero : WindowTheory.score_ok 0.
Proof. done. Qed.
Ltac score_cases :=
  repeat case_match; cbn [fst]; first
  [ apply score_ok_zero
  | apply score_ok_sum; unfold score_values; set_solver
  | apply score_ok_one; unfold score_values; set_solver ].

Lemma policy_small_of : policy_small p.
Proof.
  destruct Hp as [_ ?]. split; [|done].
  assert (Scores.HighRateBonus (Policy.Scores p) ∈ score_values (Policy.Scores p)
    (NetworkEgress.Score (Policy.NetworkEgress p))) as Hb by (unfold score_values; set_solver).
  apply score_bounds in Hb. unfold maxScore. lia.
Qed.

Lemma result_bind {A B} (m : M (Agent K) A) (f : A → M (Agent K) B) n a :
  result (m ≫= f) n a = result (f (result m n a)) (m n a).1.2 (after m n a).
Proof. unfold result, after, mbind, M_bind. by destruct (m n a) as [[x n'] a']. Qed.
Lemma result_ret {A} (x : A) n (a : Agent K) : result (mret x) n a = x.
Proof. done. Qed.

Lemma score_in_range ev n (a : Agent K) : WindowTheory.score_ok (result (score p ev) n a).1.
Proof.
  unfold score. cbv zeta.
  repeat case_match; rewrite ?result_bind, ?result_ret;
    unfold scoreScan, scoreMmap, scoreOpen, scoreWrite, scoreRename, scoreLink, scoreUnlink,
      scoreTruncate; score_cases.
Qed.

#[local] Hint Resolve policy_small_of : go.
Lemma proc_inv_same st st' :
  proc_inv p st → procState.history st' = procState.history st →
  procState.Score st' = procState.Score st → procState.WriteCount st' = procState.WriteCount st →
  procState.HighRateScored st' = procState.HighRateScored st →
  procState.Features st' = procState.Features st →
  procState.seenPaths st' = procState.seenPaths st →
  procState.openWritePaths st' = procState.openWritePaths st →
  procState.RecentEvents st' = procState.RecentEvents st → NoDup (procState.Reasons st') →
  proc_inv p st'.
Proof.
  intros Hi ? ? ? ? ? ? ? Hr ?. eapply (proc_inv_ext p st); try done.
  rewrite Hr. apply Hi.
Qed.

(** The entry of process [tgid]. *)
Definition entry_inv (tgid : Z) (st : procState) : Prop :=
  procState.TGID st = tgid ∧ proc_inv p st.

#[local] Instance proc_inv_stable :
  ProcStable (K := K) p entry_inv WindowTheory.score_ok (λ t, t ≠ 0).
Proof.
  split.
  - done.
  - apply time_Now_nonzero.
  - apply score_in_range.
  - intros []; [apply score_ok_one; unfold score_values; set_solver|apply score_ok_zero].
  - intros a ev t Ht Hst. unfold stateOf. destruct (procs a !! Event.TGID ev) as [st|].
    + destruct (Hst st eq_refl) as [Hk Hi]. split; [done|].
      apply (proc_inv_same st); try done. apply Hi.
    + split; [done|]. pose proof (fresh_inv p (Event.TGID ev) t policy_small_of) as Hi.
      apply (proc_inv_same _ _ Hi); try done. apply Hi.
  - intros i st t [Hk Hi]. split; [by rewrite TGID_prune|]. apply prune_inv; auto with go.
  - intros i fd st ev [Hk Hi]. split; [done|]. by apply recordFeatures_inv.
  - intros i st t type path path2 reason b [Hk Hi]. split; [done|]. apply recordIOC_inv; auto with go.
  - intros i fd st ev sc reason Ht Hs [Hk Hi]. split; [by rewrite TGID_recordScored|].
    apply recordScored_inv; auto with go.
  - intros i st b t [Hk Hi]. split; [done|]. apply (proc_inv_same st); try done. apply Hi.
  - intros i st reason [Hk Hi]. split; [done|]. apply (proc_inv_same st); try done.
    apply appendReason_NoDup, Hi.
Qed.

Record agent_inv (a : Agent K) : Prop := {
  ai_procs : map_Forall entry_inv (procs a);
  ai_queue : (length (hashQueue a) ≤ hashQueueCap)%nat;
  ai_hashes : bounded (hashes a) }.

Lemma agent_inv_frame a a' :
  procs a' = procs a → hashQueue a' = hashQueue a → hashes a' = hashes a →
  agent_inv a → agent_inv a'.
Proof. intros Hpr Hq Hh []. by split; rewrite ?Hpr, ?Hq, ?Hh. Qed.
Lemma onHashes_inv {A} (m : M hashCache A) : keeps bounded m → keeps agent_inv (onHashes m).
Proof.
  intros Hm n a [? ? Hh]. specialize (Hm n _ Hh). unfold after, onHashes, zoom in *.
  destruct (m n (hashes a)) as [[x n'] c]. by split.
Qed.
Ltac inv_same :=
  intros; match goal with Hi : agent_inv ?a |- _ => refine (agent_inv_frame a _ _ _ _ Hi); reflexivity end.
Ltac inv_frame :=
  intros; unfold putInfo, rememberBlocked, emitAlert, logAlert, countMetrics, logMetrics, now;
  keeps_auto; apply keeps_mod; inv_same.
Lemma enforce_inv tgid action reason : keeps agent_inv (enforceTGID p options tgid action reason).
Proof. apply keeps_enforce; inv_same. Qed.
Lemma emit_inv st action dry : keeps agent_inv (emitAlert p st action dry).
Proof. inv_frame. Qed.
Lemma count_inv f : keeps agent_inv (countMetrics f).
Proof. inv_frame. Qed.
#[local] Hint Resolve enforce_inv emit_inv count_inv : go.

#[local] Instance agent_inv_fd : FreeFD agent_inv.
Proof. intros f. inv_frame. Qed.
#[local] Instance agent_inv_stable : Stable p options (λ _ _, True) entry_inv agent_inv.
Proof.
  split; [split|..]; try (inv_frame; fail).
  - intros a tgid st Ha. apply (ai_procs _ Ha).
  - intros tgid st Hst. apply keeps_mod. intros a []. split; cbn; try done.
    by apply map_Forall_insert_2.
  - intros. apply touchFD_free, _.
  - intros path. apply onHashes_inv, get_bounded.
  - intros path. apply onHashes_inv. unfold compute. apply keeps_bind; [apply get_bounded|].
    intros [?|]; [apply keeps_ret|apply hash_attempts_bounded].
  - intros job. apply keeps_mod. intros a []. case_bool_decide; [|by split].
    split; cbn; try done. rewrite length_app. cbn. lia.
  - apply keeps_mod. intros a []. split; cbn; try done.
    destruct (hashQueue a); cbn in *; lia.
  - apply keeps_reload. inv_same.
  - intros. unfold alertAndEnforce. keeps_auto. inv_frame.
  - intros. unfold enforceBlacklist, now. keeps_auto. inv_frame.
  - intros. unfold lineageKill, blockedLineage, isBlocked. keeps_auto; inv_frame.
  - intros t. apply keeps_mod. intros a []. split; cbn; try done.
    intros k st [Hk _]%map_lookup_filter_Some. by apply (ai_procs0 k).
  - apply keeps_drops; inv_same.
Qed.

(** in every reachable state each tracked process satisfies its
    invariant (at most 256 recent events, 4096 history events and 4096
    tracked paths, features that count those paths, and a score between the
    sum over the window and that sum plus the threshold), the hash queue
    holds at most 1024 jobs and the digest cache at most 4096 entries. *)
Theorem agent_invariant signals n a :
  agent_inv a → agent_inv (after (Run p options procReader signals) n a).
Proof.
  refine (Run_keeps p options procReader entry_inv WindowTheory.score_ok (λ t, t ≠ 0)
    (λ _ _, True) agent_inv signals _ n a).
  apply Forall_true. by intros [[] | | | |].
Qed.

Lemma New_inv s n : agent_inv (result (New p s) n ()).
Proof.
  unfold New, result, mbind, M_bind. destruct (newBlacklist _ _ n ()) as [[bl n'] u]. cbn.
  split; cbn; [apply map_Forall_empty|lia|]. apply (bool_decide_unpack _). by vm_compute.
Qed.
End inv.
