(* ===== verification/AgentFD.v ===== *)
(** * The descriptor table refines an abstract one

    [fdPaths] with its time stamps implements a table from (TGID, descriptor)
    to a path that open, close and dup update and nothing else changes. *)
From S2P Require Import Prelude GoStrings GoPath GoTime Config World Event Scope Network Window.
From S2P Require Import HashCache Blacklist Interface Agent AgentTheory.

Import Agent.

(** The abstract table; [""] is an unknown descriptor. *)
Abbreviation FDTable := (Z → Z → string).

(** Events [handle] drops before it looks at descriptors. *)
Definition ignored (ev : Event) : bool :=
  (Event.Type_ ev =? EventBlock) || (Event.Phase ev =? PhaseFailure)
  || ((Event.Type_ ev =? EventWrite) && (Event.Phase ev =? PhaseSuccess)).

Definition update (L : FDTable) (tgid fd : Z) (path : string) : FDTable :=
  λ t f, if (t =? tgid) && (f =? fd) then path else L t f.
(** What an event does to the table; [path] is the path an open resolves to. *)
Definition fd_step (L : FDTable) (ev : Event) (path : string) : FDTable :=
  let t := Event.Type_ ev in
  let tgid := Event.TGID ev in
  if ignored ev then L
  else if t =? EventOpen then
    if bool_decide (Event.Path ev = "") || (Event.Arg1 ev <? 0) then L
    else update L tgid (Event.Arg1 ev) path
  else if t =? EventClose then update L tgid (Event.Arg0 ev) ""
  else if t =? EventDup then
    if (Event.Arg0 ev <? 0) || (Event.Arg1 ev <? 0) then L
    else update L tgid (Event.Arg1 ev) (L tgid (Event.Arg0 ev))
  else L.

(** An absolute path is kept; a relative one is joined to a base, which is the
    path of the directory descriptor where the table knows it. *)
Definition resolves (L : FDTable) (ev : Event) (path : string) : Prop :=
  if IsAbs (Event.Path ev) then path = Event.Path ev
  else ∃ base,
    path = (if bool_decide (base = "") then Event.Path ev else Clean (PathJoin [base; Event.Path ev]))
    ∧ (int32 (Event.Size ev) ≠ -100 → L (Event.TGID ev) (int32 (Event.Size ev)) ≠ "" →
       base = L (Event.TGID ev) (int32 (Event.Size ev))).

Section refinement.
Context `{Unicode} `{World} `{NetIP} `{SensorLaws K}.
Context (p : Policy) (options : Options) (procReader : option (Z → nat → option procInfo)).

(** The concrete table represents the abstract one. *)
Definition represents (L : FDTable) (a : Agent K) : Prop := ∀ t fd, lookupFD a t fd = L t fd.

Lemma lookup_insert_fd (a : Agent K) tgid fd s :
  represents (update (lookupFD a) tgid fd (fdState.Path s)) (a <| fdPaths ::= <[(tgid, fd) := s]> |>).
Proof.
  intros t f. unfold lookupFD, update. cbn.
  destruct (Z.eqb_spec t tgid), (Z.eqb_spec f fd); subst; cbn;
    rewrite ?lookup_insert_eq; try done; by rewrite lookup_insert_ne by congruence.
Qed.
Lemma lookup_delete_fd (a : Agent K) tgid fd :
  represents (update (lookupFD a) tgid fd "") (a <| fdPaths ::= delete (tgid, fd) |>).
Proof.
  intros t f. unfold lookupFD, update. cbn.
  destruct (Z.eqb_spec t tgid), (Z.eqb_spec f fd); subst; cbn;
    rewrite ?lookup_delete_eq; try done; by rewrite lookup_delete_ne by congruence.
Qed.
Lemma update_same (L : FDTable) tgid fd t f : update L tgid fd (L tgid fd) t f = L t f.
Proof. unfold update. destruct (Z.eqb_spec t tgid), (Z.eqb_spec f fd); by subst. Qed.

Lemma touchFD_represents L tgid fd seen : keeps (represents L) (touchFD tgid fd seen).
Proof.
  intros n a Ha. unfold after, touchFD, mbind, M_bind, getS.
  destruct (fdPaths a !! (tgid, fd)) as [s|] eqn:E; [|done]. case_bool_decide; [done|].
  cbn. intros t f. rewrite <- Ha.
  transitivity (update (lookupFD a) tgid fd (fdState.Path s) t f);
    [exact (lookup_insert_fd a tgid fd (fdState.mkFd (fdState.Path s) seen) t f)|].
  assert (fdState.Path s = lookupFD a tgid fd) as -> by (unfold lookupFD; by rewrite E).
  apply update_same.
Qed.

Lemma enforce_represents L tgid action reason :
  keeps (represents L) (enforceTGID p options tgid action reason).
Proof. by apply keeps_enforce. Qed.
#[local] Hint Resolve enforce_represents : go.
#[local] Instance represents_stable L : Stable p options (λ _ _, True) (λ _ _, True) (represents L).
Proof.
  frames.
  - apply touchFD_represents.
  - intros. unfold alertAndEnforce. keeps_auto; frame.
  - intros. unfold lineageKill, blockedLineage, isBlocked. keeps_auto; frame.
  - by apply keeps_drops.
Qed.

Lemma resolveOpenPath_spec ev n (a : Agent K) :
  let '(path, n', a') := resolveOpenPath ev n a in
  a' = a ∧ resolves (lookupFD a) ev path.
Proof.
  unfold resolveOpenPath, resolves. destruct (IsAbs (Event.Path ev)); [done|]. cbv zeta.
  unfold fdPath, procSymlink, mbind, M_bind, getS, ask.
  destruct (Z.eqb_spec (int32 (Event.Size ev)) (-100)).
  - destruct (_ || _); cbn; (split; [done|]); eexists; split; (reflexivity || done).
  - unfold mret, M_ret.
    destruct (bool_decide_reflect (lookupFD a (Event.TGID ev) (int32 (Event.Size ev)) = "")) as [Hb|Hb].
    + destruct (_ || _); cbn; (split; [done|]); eexists; split; (reflexivity || naive_solver).
    + cbn. split; [done|]. exists (lookupFD a (Event.TGID ev) (int32 (Event.Size ev))). done.
Qed.

(** Whether [handle] stops after the descriptor table, and the event it goes
    on with. *)
Lemma updateFD_spec ev n (a : Agent K) :
  ignored ev = false →
  let '(stop, ev', n', a') := updateFD ev n a in
  ∃ path, resolves (lookupFD a) ev path ∧ represents (fd_step (lookupFD a) ev path) a'.
Proof.
  intros Hi. unfold updateFD, fd_step. rewrite Hi. cbv zeta. unfold mret, M_ret, mbind, M_bind, modS, getS.
  assert (∃ path, resolves (lookupFD a) ev path) as [q Hq].
  { pose proof (resolveOpenPath_spec ev n a) as Hr.
    destruct (resolveOpenPath ev n a) as [[path n'] a']. destruct Hr as [_ ?]. eauto. }
  destruct (Event.Type_ ev =? EventOpen).
  - destruct (bool_decide (Event.Path ev = "") || _); [by exists q|].
    pose proof (resolveOpenPath_spec ev n a) as Hr.
    destruct (resolveOpenPath ev n a) as [[path n'] a']. destruct Hr as [-> ?].
    exists path. split; [done|]. apply (lookup_insert_fd a _ _ (fdState.mkFd path _)).
  - destruct (Event.Type_ ev =? EventClose); [exists q; split; [done|apply lookup_delete_fd]|].
    destruct (Event.Type_ ev =? EventDup); [|by exists q].
    destruct (_ || _); [by exists q|].
    destruct (fdPaths a !! (Event.TGID ev, Event.Arg0 ev)) as [s|] eqn:E.
    + assert (lookupFD a (Event.TGID ev) (Event.Arg0 ev) = fdState.Path s) as ->
        by (unfold lookupFD; by rewrite E).
      case_bool_decide as Hs; exists q; (split; [done|]); [rewrite Hs; apply lookup_delete_fd|].
      apply (lookup_insert_fd a _ _ (fdState.mkFd (fdState.Path s) _)).
    + assert (lookupFD a (Event.TGID ev) (Event.Arg0 ev) = "") as ->
        by (unfold lookupFD; by rewrite E).
      exists q. split; [done|]. apply lookup_delete_fd.
Qed.

(** C15: after any event the descriptor table is the one the abstract step
    prescribes: an open binds the resolved path, a close unbinds, a dup copies
    or unbinds, a failed or dropped event and every other step of [handle]
    change no binding. *)
Theorem handle_refines_fd_table ev n a :
  ∃ path, resolves (lookupFD a) ev path
    ∧ represents (fd_step (lookupFD a) ev path) (after (handle p options procReader ev) n a).
Proof.
  assert (∃ path, resolves (lookupFD a) ev path) as [q Hq].
  { pose proof (resolveOpenPath_spec ev n a) as Hr.
    destruct (resolveOpenPath ev n a) as [[path n'] a']. destruct Hr as [_ ?]. eauto. }
  unfold handle, after, mbind, M_bind.
  assert (∃ t n1, orNow (K := K) (Event.Timestamp ev) n a = (t, n1, a)) as (t & n1 & ->).
  { unfold orNow, now, ask. destruct (IsZero _); cbn; eauto. }
  set (ev1 := ev <| Event.Timestamp := t |>). destruct (ignored ev) eqn:Hi.
  - exists q. split; [done|]. unfold fd_step. rewrite Hi.
    change (Event.Type_ ev1) with (Event.Type_ ev). change (Event.Phase ev1) with (Event.Phase ev).
    unfold ignored in Hi. destruct (Event.Type_ ev =? EventBlock).
    + refine (keeps_when (represents (lookupFD a)) _ _ (λ _, _) n1 a (λ _ _, eq_refl)).
      apply (handleInlineIOCBlock_keeps p options (λ _ _, True) (λ _, True) (λ _, True) (λ _ _, True)); [apply represents_stable|done].
    + cbn in Hi. rewrite Hi. done.
  - pose proof (updateFD_spec ev1 n1 a Hi) as Hu. unfold ignored in Hi.
    apply orb_false_iff in Hi as [[Hb Hf]%orb_false_iff Hw].
    change (Event.Type_ ev1) with (Event.Type_ ev). change (Event.Phase ev1) with (Event.Phase ev).
    rewrite Hb, Hf, Hw. cbn [orb].
    destruct (updateFD ev1 n1 a) as [[[stop ev2] n2] a2]. destruct Hu as (path & Hr & Ha2).
    exists path. split; [exact Hr|]. destruct stop; [exact Ha2|].
    refine (handleUpdated_keeps p options procReader (λ _ _, True) (λ _, True) (λ _, True) (λ _ _, True)
      (represents _) ev2 _ _ n2 a2 Ha2); done.
Qed.
End refinement.
