(* ===== verification/AgentProps.v ===== *)
(** * What the agent does with an event (Agent.v)

    Detection: an indicator in a protected directory is always alerted on, a
    scored event exactly when the process is not already blocked and a rule
    matches or the threshold is reached.  Enforcement: a child of a blocked
    process is killed when it executes a program.  Bookkeeping: idle pruning, loss
    counters. *)
From S2P Require Import Prelude GoStrings GoPath GoTime Config World Event Scope Network Window.
From S2P Require Import WindowTheory HashCache Blacklist Interface Agent AgentTheory AgentSafety.
From S2P Require Import AgentFD.

Import Agent.

Section props.
Context `{Unicode} `{World} `{NetIP} `{SensorLaws K}.
Context (p : Policy) (options : Options) (procReader : option (Z → nat → option procInfo)).

Lemma after_bind {S A B} (m : M S A) (f : A → M S B) n s :
  after (m ≫= f) n s = after (f (result m n s)) (m n s).1.2 (after m n s).
Proof. unfold result, after, mbind, M_bind. by destruct (m n s) as [[x n'] s']. Qed.

Lemma after_bind_eq {S A B} (m : M S A) (f : A → M S B) n s x n' s' :
  m n s = (x, n', s') → after (m ≫= f) n s = after (f x) n' s'.
Proof. intros Hm. unfold after, mbind, M_bind. by rewrite Hm. Qed.

(** The alert [emitAlert] logs. *)
Definition alertOf (t : Z) (st : procState) (action : string) (dryRun : bool) : alert :=
  alert.mkAlert t (Policy.Name p) action dryRun
    (procState.TGID st) (procState.PID st) (procState.PPID st) (procState.UID st)
    (procState.Comm st) (procState.Score st) (Policy.Threshold p) (procState.Reasons st)
    (procState.Features st) (procState.RecentEvents st).

(** What an enforcement at query [n] leaves behind, successful or failed. *)
Definition enforced (n : nat) (tgid action : Z) (a a' : Agent K) : Prop :=
  match sensor a with
  | None => a' = a
  | Some k => let '(ok, n', k') := BlockTGID tgid action (Policy.BlockTTL p) n k in
      a' = if (ok : bool)
           then let a1 := a <| sensor := Some k' |> <| blocked ::= <[tgid := time_Now n']> |> in
                if action =? BlockActionKill then a1 <| killed ::= λ l, l ++ [tgid] |> else a1
           else a <| sensor := Some k' |>
  end.
Lemma enforceTGID_spec tgid action reason n a :
  Options.DryRun options = false →
  enforced n tgid action a (after (enforceTGID p options tgid action reason) n a).
Proof.
  intros Hd. unfold enforceTGID, enforced. rewrite Hd.
  unfold after, sensorBlock, rememberBlocked, when, now, ask, modS, mbind, M_bind.
  destruct (sensor a) as [k|]; [|done].
  destruct (BlockTGID _ _ _ n k) as [[[|] n'] k']; [|done]. cbn. by case_match.
Qed.

(** A successful enforcement marks the process, and kills it if asked to. *)
Lemma enforced_marks n tgid action a a' k :
  sensor a = Some k → result (BlockTGID tgid action (Policy.BlockTTL p)) n k = true →
  enforced n tgid action a a' →
  marks a' !! tgid = Some action ∧ is_Some (blocked a' !! tgid)
  ∧ killed a' = killed a ++ (if action =? BlockActionKill then [tgid] else []).
Proof.
  intros Hk Hok. unfold enforced. rewrite Hk. intros Hn.
  pose proof (BlockTGID_ok tgid action (Policy.BlockTTL p) n k Hok) as [_ Hm]. unfold result, after in *.
  destruct (BlockTGID _ _ _ n k) as [[ok n'] k']. cbn in *. subst ok a'.
  destruct (action =? BlockActionKill); cbn; unfold marks; cbn;
    rewrite Hm, !lookup_insert_eq; split_and!; eauto using app_nil_r.
Qed.
Lemma enforced_frame n tgid action a a' :
  enforced n tgid action a a' → alerts a' = alerts a ∧ procs a' = procs a.
Proof.
  unfold enforced. destruct (sensor a) as [k|]; [|by intros ->]. intros Hn.
  destruct (BlockTGID _ _ _ n k) as [[[|] n'] k']; subst a'; [|done]. by case_match.
Qed.

Lemma emitAlert_spec st action dry n (a : Agent K) :
  after (emitAlert p st action dry) n a =
  a <| alerts ::= λ l, l ++ [alertOf (time_Now n) st action dry] |>
    <| Agent.metrics ::= λ m, m <| metrics.Alerts ::= λ x, uint64 (x + 1) |> |>.
Proof. done. Qed.

(** [alertAndEnforce]: one alert, no change of the process states, and the
    enforcement the action asks for. *)
Lemma alertAndEnforce_spec st reason action n (a : Agent K) :
  let a' := after (alertAndEnforce p options st reason action) n a in
  let act := normalizeAction (ToLower (TrimSpace action)) in
  ∃ t, alerts a' = alerts a ++ [alertOf t st act (Options.DryRun options)]
    ∧ procs a' = procs a
    ∧ (Options.DryRun options = false → act ≠ "log" →
       ∃ a1, sensor a1 = sensor a ∧ killed a1 = killed a
         ∧ enforced (S n) (procState.TGID st) (blockAction act) a1 a').
Proof.
  intros a' act. exists (time_Now n). unfold a', alertAndEnforce. cbv zeta. fold act.
  rewrite after_bind, emitAlert_spec. set (a1 := _ <| Agent.metrics ::= _ |>).
  destruct (Options.DryRun options) eqn:Hd; cbn [orb andb].
  - unfold when. case_match; done.
  - case_bool_decide as Hl; [done|].
    rewrite after_bind. set (a2 := after (countMetrics _) _ a1).
    match goal with |- context [after (enforceTGID _ _ ?t ?ac ?r) ?m a2] =>
      pose proof (enforceTGID_spec t ac r m a2 Hd) as He;
      pose proof (enforced_frame _ _ _ _ _ He) as [Ha Hpr] end.
    split_and!; [by rewrite Ha|by rewrite Hpr|]. intros _ _. by exists a2.
Qed.

(** ** Indicators *)

(** A file event of an untrusted process, on a path that needs no
    resolution, in a deployment that is not limited to cgroups. *)
Record plain_file_event (ev : Event) : Prop := {
  pf_time : Event.Timestamp ev ≠ 0;
  pf_type : Event.Type_ ev = EventRename ∨ Event.Type_ ev = EventOpen ∧ IsAbs (Event.Path ev) = true;
  pf_phase : Event.Phase ev ≠ PhaseFailure;
  pf_cgroup : hasConfiguredPaths (Policy.CgroupPaths p) = false;
  pf_untrusted : trustedComm p (Event.Comm ev) = false }.

Lemma orNow_nonzero t n (a : Agent K) : t ≠ 0 → orNow t n a = (t, n, a).
Proof. intros. unfold orNow, IsZero. by destruct (Z.eqb_spec t 0). Qed.
Lemma updateFD_plain ev n (a : Agent K) :
  plain_file_event ev → ∃ f, updateFD ev n a = (false, ev, n, a <| fdPaths ::= f |>).
Proof.
  intros [_ Hty _ _ _]. unfold updateFD. cbv zeta. destruct Hty as [->|[-> Habs]].
  - cbn. by exists id; destruct a.
  - cbn. destruct (_ || _); [by exists id; destruct a|].
    exists (<[(Event.TGID ev, Event.Arg1 ev) := fdState.mkFd (Event.Path ev) (Event.Timestamp ev)]>).
    unfold mbind, M_bind, resolveOpenPath. rewrite Habs. cbn.
    repeat f_equal. by destruct ev.
Qed.
Lemma with_timestamp ev : ev <| Event.Timestamp := Event.Timestamp ev |> = ev.
Proof. by destruct ev. Qed.

Lemma blacklistedEvent_not_exec ev n (a : Agent K) :
  Event.Type_ ev ≠ EventExec → blacklistedEvent ev n a = (false, "", n, a).
Proof.
  intros Hty. unfold blacklistedEvent, mbind, M_bind, getS.
  destruct (blacklist a); [|done]. apply Z.eqb_neq in Hty. rewrite Hty.
  cbn. by rewrite orb_true_r.
Qed.
Lemma exempt_untrusted ev n (a : Agent K) :
  trustedComm p (Event.Comm ev) = false → exempt p procReader ev n a = (false, n, a).
Proof. intros Ht. unfold exempt, isTrustedEvent, mbind, M_bind. by rewrite Ht. Qed.

(** Such an event reaches detection. *)
Lemma handle_plain ev n (a : Agent K) :
  plain_file_event ev →
  ∃ f, after (handle p options procReader ev) n a =
       after (detect p options procReader ev) n (a <| fdPaths ::= f |>).
Proof.
  intros Hev. destruct (updateFD_plain ev n a Hev) as [f Hf]. exists f.
  destruct Hev as [Ht Hty Hph Hcg Hun].
  assert ((Event.Type_ ev =? EventBlock) = false ∧ (Event.Type_ ev =? EventWrite) = false
    ∧ (Event.Type_ ev =? EventExec) = false) as (H1' & H2' & H3') by (destruct Hty as [->|[-> _]]; done).
  unfold handle, after, mbind, M_bind. rewrite orNow_nonzero by done.
  rewrite with_timestamp, H1', H2'. apply Z.eqb_neq in Hph. rewrite Hph. cbn [orb andb].
  rewrite Hf. unfold handleUpdated, inPolicyCgroup, mbind, M_bind, when, andM.
  by rewrite Hcg, H3'.
Qed.
Lemma detect_plain ev n (a : Agent K) :
  plain_file_event ev → after (detect p options procReader ev) n a =
    after (if negb (bool_decide (immediateIOC p ev = "")) then handleIOC p options ev (immediateIOC p ev)
           else '(score, reason) ← score p ev;
                if score =? 0 then mret () else handleScored p options ev score reason) n a.
Proof.
  intros [Ht Hty Hph Hcg Hun]. unfold detect, mbind, M_bind, after.
  rewrite blacklistedEvent_not_exec by (destruct Hty as [->|[-> _]]; done). cbn.
  by rewrite exempt_untrusted by done.
Qed.

(** The entry of the process, if there is one, is its own. *)
Definition own_entry (a : Agent K) (tgid : Z) : Prop :=
  ∀ st, procs a !! tgid = Some st → procState.TGID st = tgid.
Lemma stateOf_TGID a ev t : own_entry a (Event.TGID ev) → procState.TGID (stateOf a ev t) = Event.TGID ev.
Proof. intros Ho. unfold stateOf. cbn. destruct (procs a !! Event.TGID ev) eqn:E; [by apply Ho|done]. Qed.

Lemma state_spec ev n (a : Agent K) :
  Event.Timestamp ev ≠ 0 →
  let st := stateOf a ev (Event.Timestamp ev) in
  state ev n a = (st, n, a <| procs ::= <[Event.TGID ev := st]> |>).
Proof. intros Ht st. unfold state, mbind, M_bind. by rewrite orNow_nonzero. Qed.

Lemma handleIOC_alerts ev reason n (a : Agent K) :
  Event.Timestamp ev ≠ 0 → own_entry a (Event.TGID ev) →
  let a' := after (handleIOC p options ev reason) n a in
  ∃ al st, alerts a' = alerts a ++ [al] ∧ alert.TGID al = Event.TGID ev
    ∧ reason ∈ alert.Reasons al ∧ Policy.Threshold p ≤ alert.Score al
    ∧ procs a' !! Event.TGID ev = Some st
    ∧ (policyAction p ≠ "log" →
       procState.Blocked st = true ∧ procState.BlockedAt st = Event.Timestamp ev)
    ∧ (Options.DryRun options = false → policyAction p = "kill" → ∃ a1,
         sensor a1 = sensor a ∧ killed a1 = killed a ∧ enforced (S n) (Event.TGID ev) BlockActionKill a1 a').
Proof.
  intros Ht Ho a'.
  set (st := recordIOC p (recordFeatures p (lookupFD a)
    (prune p (stateOf a ev (Event.Timestamp ev)) (Event.Timestamp ev)) ev) (Event.Timestamp ev)
    (TypeName ev) (Event.Path ev) (Event.Path2 ev) reason (negb (bool_decide (policyAction p = "log")))).
  set (a1 := a <| procs ::= λ m, <[Event.TGID ev := st]>
               (<[Event.TGID ev := stateOf a ev (Event.Timestamp ev)]> m) |>).
  assert (a' = after (alertAndEnforce p options st reason (policyAction p)) n a1) as ->.
  { unfold a', handleIOC. rewrite after_bind. unfold result, after at 2. by rewrite state_spec. }
  destruct (alertAndEnforce_spec st reason (policyAction p) n a1) as (t & Hal & Hpr & He).
  assert (procState.TGID st = Event.TGID ev) as HT.
  { unfold st. cbn. rewrite TGID_prune. by apply stateOf_TGID. }
  eexists _, st. split_and!; [exact Hal|exact HT|..].
  - cbn. apply appendReason_elem. by right.
  - cbn. lia.
  - rewrite Hpr. apply lookup_insert_eq.
  - intros Hlog. unfold st. cbn. by rewrite bool_decide_eq_false_2.
  - intros Hd Hk. rewrite Hk in He. destruct (He Hd) as (a2 & Hs & Hki & Hen); [done|].
    exists a2. rewrite <- HT. split_and!; [by rewrite Hs|by rewrite Hki|]. rewrite Hk. exact Hen.
Qed.

Lemma handle_ioc ev n (a : Agent K) :
  plain_file_event ev → own_entry a (Event.TGID ev) → immediateIOC p ev ≠ "" →
  let a' := after (handle p options procReader ev) n a in
  ∃ al st, alerts a' = alerts a ++ [al] ∧ alert.TGID al = Event.TGID ev
    ∧ immediateIOC p ev ∈ alert.Reasons al ∧ Policy.Threshold p ≤ alert.Score al
    ∧ procs a' !! Event.TGID ev = Some st
    ∧ (policyAction p ≠ "log" →
       procState.Blocked st = true ∧ procState.BlockedAt st = Event.Timestamp ev)
    ∧ (Options.DryRun options = false → policyAction p = "kill" → ∀ k, sensor a = Some k →
       result (BlockTGID (Event.TGID ev) BlockActionKill (Policy.BlockTTL p)) (S n) k = true →
       marks a' !! Event.TGID ev = Some BlockActionKill ∧ killed a' = killed a ++ [Event.TGID ev]).
Proof.
  intros Hev Ho Hioc a'. destruct (handle_plain ev n a Hev) as [f Hf].
  unfold a'. rewrite Hf, detect_plain by done. rewrite bool_decide_eq_false_2 by done. cbn [negb].
  set (a0 := a <| fdPaths ::= f |>).
  destruct (handleIOC_alerts ev (immediateIOC p ev) n a0 (pf_time _ Hev) Ho)
    as (al & st & Hal & ? & ? & ? & ? & ? & Hk).
  exists al, st. split_and!; [exact Hal|done..|].
  intros Hd Hkill k Hs Hok. destruct (Hk Hd Hkill) as (a1 & Hs1 & Hk1 & Hen).
  destruct (enforced_marks _ _ _ _ _ k (eq_trans Hs1 Hs) Hok Hen) as (Hm & _ & Hki).
  split; [exact Hm|]. by rewrite Hki, Hk1.
Qed.

(** *** What an indicator is *)

(** An open that can change the file: it truncates, or its access mode is
    write-only or read-write (exactly one of the two low bits). *)
Definition write_open (flags : Z) : Prop :=
  Z.testbit flags 9 = true ∨ Z.testbit flags 0 ≠ Z.testbit flags 1.
(** Under a configured protected directory, component by component. *)
Definition protected (path : string) : Prop :=
  path ≠ "" ∧ ∃ dir, dir ∈ Policy.ProtectedDirs p ∧ dir ≠ "" ∧ contains dir path.
(** The last element is, up to case, a configured ransom note name. *)
Definition note_name (path : string) : Prop :=
  ∃ name, name ∈ Policy.RansomNoteNames p ∧ ToLower (Base path) = ToLower (TrimSpace name).
(** The extension is, up to case, a configured one, written with or without
    its dot. *)
Definition suspicious_name (path : string) : Prop :=
  ∃ e, e ∈ Policy.SuspiciousExtensions p ∧ let c := ToLower (TrimSpace e) in
    c ≠ "" ∧ ToLower (Ext path) = (if HasPrefix c "." then c else "." +:+ c).

Inductive indicator (ev : Event) : string → Prop :=
  | note_written :
      Event.Type_ ev = EventOpen → write_open (Event.Arg0 ev) → protected (Event.Path ev) →
      note_name (Event.Path ev) → indicator ev "protected ransom note creation"
  | extension_written :
      Event.Type_ ev = EventOpen → write_open (Event.Arg0 ev) → protected (Event.Path ev) →
      ¬ note_name (Event.Path ev) → suspicious_name (Event.Path ev) →
      indicator ev "protected suspicious extension write"
  | extension_given :
      Event.Type_ ev = EventRename → protected (Event.Path2 ev) → suspicious_name (Event.Path2 ev) →
      indicator ev "protected rename to suspicious extension".

Lemma isWriteOpen_spec flags : isWriteOpen flags = true ↔ write_open flags.
Proof.
  unfold isWriteOpen, write_open. rewrite !orb_true_iff, negb_true_iff, Z.eqb_neq, !Z.eqb_eq.
  assert (Z.land flags 3 = Z.b2z (Z.testbit flags 0) + 2 * Z.b2z (Z.testbit flags 1)) as ->.
  { change 3 with (Z.ones 2). rewrite Z.land_ones by lia. rewrite !Z.testbit_spec' by lia.
    change (2 ^ 2) with (2 * 2). change (2 ^ 0) with 1. change (2 ^ 1) with 2.
    rewrite Z.div_1_r. by apply Z.rem_mul_r. }
  assert (Z.land flags 512 ≠ 0 ↔ Z.testbit flags 9 = true) as ->.
  { change 512 with (2 ^ 9). split.
    - intros Hl. destruct (Z.testbit flags 9) eqn:E; [done|]. destruct Hl. apply Z.bits_inj'. intros i Hi.
      rewrite Z.land_spec, Z.bits_0, Z.pow2_bits_eqb by lia. destruct (Z.eqb_spec 9 i) as [<-|]; [by rewrite E|apply andb_false_r].
    - intros E Hl. assert (Z.testbit (Z.land flags (2 ^ 9)) 9 = true) as Hc by (by rewrite Z.land_spec, E).
      by rewrite Hl in Hc. }
  destruct (Z.testbit flags 0), (Z.testbit flags 1); cbn; intuition (try lia; try done).
Qed.
Lemma isRansomNote_spec path : isRansomNote p path = true ↔ note_name path.
Proof.
  unfold isRansomNote, note_name. rewrite existsb_exists. setoid_rewrite bool_decide_eq_true.
  by setoid_rewrite <- list_elem_of_In.
Qed.
Lemma hasSuspiciousExtension_spec path : suspicious_name path → hasSuspiciousExtension p path = true.
Proof.
  intros (e & He & Hne & Hext). unfold hasSuspiciousExtension. apply existsb_exists. exists e.
  split; [by apply list_elem_of_In|]. apply bool_decide_eq_true. rewrite Hext. unfold extensionCandidate.
  rewrite bool_decide_eq_false_2 by done. cbn [negb andb]. by destruct (HasPrefix _ ".").
Qed.
(** An indicator is recognised, with its own reason. *)
Lemma indicator_recognised ev reason : indicator ev reason → immediateIOC p ev = reason ∧ reason ≠ "".
Proof.
  unfold immediateIOC.
  intros [-> Hw%isWriteOpen_spec Hp%hasDirPrefix_contains Hn%isRansomNote_spec
         | -> Hw%isWriteOpen_spec Hp%hasDirPrefix_contains Hn Hx%hasSuspiciousExtension_spec
         | -> Hp%hasDirPrefix_contains Hx%hasSuspiciousExtension_spec]; unfold inProtectedScope; rewrite Hp, ?Hw, ?Hx.
  - by rewrite Hn.
  - rewrite <- isRansomNote_spec, not_true_iff_false in Hn. by rewrite Hn.
  - done.
Qed.

(** C3: An indicator of ransomware is alerted on at once, whatever the agent's
    state: an open for writing of a ransom note, or of a file with a suspicious
    extension, under a protected directory, or a rename to such an extension
    there.  One alert is logged for that process, with that reason and a score
    at or above the threshold; unless the policy only logs, the process is
    marked blocked as of the event; with action kill, outside dry-run mode,
    it is also marked in the kernel and killed when the sensor accepts the
    block.  The event carries a time, did not fail, an opened path is absolute,
    the process name is not a trusted one, and the policy is not limited to
    cgroups ([plain_file_event]); [own_entry] holds in every state the agent
    reaches. *)
Theorem ioc_detected ev reason n (a : Agent K) :
  plain_file_event ev → own_entry a (Event.TGID ev) → indicator ev reason →
  let a' := after (handle p options procReader ev) n a in
  ∃ al st, alerts a' = alerts a ++ [al] ∧ alert.TGID al = Event.TGID ev
    ∧ reason ∈ alert.Reasons al ∧ Policy.Threshold p ≤ alert.Score al
    ∧ procs a' !! Event.TGID ev = Some st
    ∧ (policyAction p ≠ "log" →
       procState.Blocked st = true ∧ procState.BlockedAt st = Event.Timestamp ev)
    ∧ (Options.DryRun options = false → policyAction p = "kill" → ∀ k, sensor a = Some k →
       result (BlockTGID (Event.TGID ev) BlockActionKill (Policy.BlockTTL p)) (S n) k = true →
       marks a' !! Event.TGID ev = Some BlockActionKill ∧ killed a' = killed a ++ [Event.TGID ev]).
Proof. intros ? ? [<- ?]%indicator_recognised. by apply handle_ioc. Qed.

(** ** Scored events *)
Lemma checkBlocked_spec st t n (a : Agent K) :
  t ≠ 0 → checkBlocked p st t n a = (stateBlocked p t st t, n, a).
Proof.
  intros Ht. unfold checkBlocked, mbind, M_bind. case_match; [by rewrite orNow_nonzero|done].
Qed.
Lemma stateBlocked_true t' st t st1 : stateBlocked p t' st t = (true, st1) → st1 = st.
Proof. unfold stateBlocked. repeat case_match; naive_solver. Qed.
Lemma stateBlocked_false t' st t st1 :
  stateBlocked p t' st t = (false, st1) →
  procState.Blocked st1 = false ∧ procState.Features st1 = procState.Features st
  ∧ procState.TGID st1 = procState.TGID st ∧ procState.Score st1 = procState.Score st.
Proof.
  unfold stateBlocked. destruct (procState.Blocked st) eqn:E; cbn; [|by intros [= <-]].
  repeat case_match; intros; simplify_eq; done.
Qed.
Lemma not_blocked t' st t : procState.Blocked st = false → stateBlocked p t' st t = (false, st).
Proof. intros E. unfold stateBlocked. by rewrite E. Qed.

(** An alert about process [st] at its present score. *)
Definition about (st : procState) (al : alert) : Prop :=
  alert.TGID al = procState.TGID st ∧ alert.Score al = procState.Score st.
(** One alert about [st] was logged. *)
Definition one_alert (st : procState) (a a' : Agent K) : Prop :=
  ∃ al, alerts a' = alerts a ++ [al] ∧ about st al.

Lemma alertAndEnforce_one st st' reason action n (a a0 : Agent K) :
  alerts a0 = alerts a → procState.TGID st' = procState.TGID st →
  procState.Score st' = procState.Score st →
  one_alert st a (after (alertAndEnforce p options st' reason action) n a0).
Proof.
  intros Ha Ht Hs. destruct (alertAndEnforce_spec st' reason action n a0) as (t & Hal & _).
  eexists. rewrite Hal, Ha. split; [done|]. split; cbn; [by rewrite Ht|by rewrite Hs].
Qed.
Lemma block_one tgid st st' n (a a0 : Agent K) :
  alerts a0 = alerts a → procState.TGID st' = procState.TGID st →
  procState.Score st' = procState.Score st → 
  one_alert st a (after (block p options tgid st') n a0).
Proof.
  intros Ha Ht Hs. unfold block. cbv zeta. rewrite after_bind. case_bool_decide.
  - by apply alertAndEnforce_one.
  - unfold result, after at 2, mbind, M_bind, orNow, now, ask.
    destruct (IsZero (procState.LastSeen st')); by apply alertAndEnforce_one.
Qed.

(** The process is due for an alert: not blocked at [t], and a rule matches
    or the score has reached the threshold. *)
Definition due (st : procState) (t : Z) : bool :=
  negb (stateBlocked p t st t).1
  && (bool_decide (matchRule p st ≠ None) || (Policy.Threshold p <=? procState.Score st)).

Lemma matchRule_features st st' :
  procState.Features st' = procState.Features st → matchRule p st' = matchRule p st.
Proof. unfold matchRule. by intros ->. Qed.

Lemma decide_action_alerts ev st n (a : Agent K) :
  Event.Timestamp ev ≠ 0 →
  let a' := after (decide_action p options ev st) n a in
  if due st (Event.Timestamp ev) then one_alert st a a' else alerts a' = alerts a.
Proof.
  intros Ht a'. unfold a', decide_action, due.
  erewrite after_bind_eq by by apply checkBlocked_spec.
  destruct (stateBlocked p _ st _) as [[|] st1] eqn:Hb; cbn [fst negb andb].
  - apply stateBlocked_true in Hb as Hst. subst st1.
    assert (alerts (after (putState (Event.TGID ev) st ;;
      when (Policy.Threshold p <=? procState.Score st)
        ('(blocked, st) ← checkBlocked p st (Event.Timestamp ev);
         putState (Event.TGID ev) st ;;
         when (negb blocked) (block p options (Event.TGID ev) st))) n a) = alerts a) as Hn.
    { rewrite after_bind. unfold when at 1. case_match; [|done].
      erewrite after_bind_eq by by apply checkBlocked_spec. by rewrite Hb. }
    by destruct (matchRule p st) as [[? ?]|].
  - apply stateBlocked_false in Hb as (Hb1 & Hf & HT & HS).
    rewrite (matchRule_features _ _ Hf).
    destruct (matchRule p st) as [[reason action]|].
    + rewrite bool_decide_eq_true_2 by done. cbn [orb]. rewrite after_bind.
      apply alertAndEnforce_one; [done|by case_match|by case_match].
    + rewrite bool_decide_eq_false_2 by naive_solver. cbn [orb]. rewrite after_bind, HS.
      unfold when at 1. case_match; [|done].
      erewrite after_bind_eq by by apply checkBlocked_spec.
      rewrite not_blocked by done. rewrite after_bind. by apply block_one.
Qed.

(** C14: a scored event leads to an alert exactly when it should: the process
    is not blocked within its TTL and, with the event counted, a rule matches
    or the window's score reaches the threshold.  Then one alert is logged,
    with that score; otherwise none is. *)
Theorem scored_event_alerts ev sc reason n a :
  Event.Timestamp ev ≠ 0 →
  let t := Event.Timestamp ev in
  let st := recordScored p (lookupFD a) (prune p (stateOf a ev t) t) ev sc reason in
  let a' := after (handleScored p options ev sc reason) n a in
  if due st t then one_alert st a a' else alerts a' = alerts a.
Proof.
  intros Ht t st a'. unfold a', handleScored.
  erewrite after_bind_eq by by apply state_spec. cbv zeta.
  set (a1 := a <| procs ::= _ |>). erewrite after_bind_eq by reflexivity. cbv zeta.
  change (lookupFD a1) with (lookupFD a). fold t. fold st.
  exact (decide_action_alerts ev st n a1 Ht).
Qed.

(** a failed operation, or the completion record of a write, changes
    nothing the agent keeps. *)
Theorem failed_event_ignored ev n (a : Agent K) :
  Event.Type_ ev ≠ EventBlock →
  Event.Phase ev = PhaseFailure ∨ Event.Type_ ev = EventWrite ∧ Event.Phase ev = PhaseSuccess →
  after (handle p options procReader ev) n a = a.
Proof.
  intros Hb Hf. unfold handle, after, mbind, M_bind.
  assert (∃ t n1, orNow (K := K) (Event.Timestamp ev) n a = (t, n1, a)) as (t & n1 & ->).
  { unfold orNow, now, ask. destruct (IsZero _); cbn; eauto. }
  change (Event.Type_ (ev <| Event.Timestamp := t |>)) with (Event.Type_ ev).
  change (Event.Phase (ev <| Event.Timestamp := t |>)) with (Event.Phase ev).
  apply Z.eqb_neq in Hb. rewrite Hb. by destruct Hf as [->|[-> ->]].
Qed.

(** ** Blocked lineage *)

(** A block of time [seen] has not run out at query [m] of the clock. *)
Definition unexpired (seen : Z) (m : nat) : Prop :=
  Policy.BlockTTL p ≤ 0 ∨ seen = 0 ∨ Sub (time_Now m) seen ≤ Policy.BlockTTL p.
(** Process [t] is remembered as blocked, and the TTL has not run out when a
    check that starts at query [n] reads the clock, once for the process and
    once for its parent. *)
Definition still_blocked (n : nat) (a : Agent K) (t : Z) : Prop :=
  t ≠ 0 ∧ ∃ seen, blocked a !! t = Some seen ∧ ∀ m, (n ≤ m ≤ S n)%nat → unexpired seen m.
Lemma isBlocked_still t n (a : Agent K) seen :
  t ≠ 0 → blocked a !! t = Some seen → unexpired seen n →
  ∃ n', (n ≤ n' ≤ S n)%nat ∧ isBlocked p t n a = (true, n', a).
Proof.
  intros Ht Hs Httl. unfold isBlocked. apply Z.eqb_neq in Ht. rewrite Ht.
  unfold mbind, M_bind, getS. rewrite Hs. unfold andM, IsZero, now, ask.
  destruct (Z.ltb_spec 0 (Policy.BlockTTL p)), (Z.eqb_spec seen 0); cbn; eauto with lia.
  destruct Httl as [?|[?|Httl]]; [lia|done|].
  destruct (Z.ltb_spec (Policy.BlockTTL p) (Sub (time_Now n) seen)); [lia|eauto with lia].
Qed.
(** Asking about another process changes no entry that is still honoured, and
    reads the clock at most once. *)
Lemma isBlocked_preserves t t' n (a : Agent K) seen :
  blocked a !! t = Some seen → unexpired seen n →
  ∃ b n' f, isBlocked p t' n a = (b, n', a <| blocked ::= f |>) ∧ (n ≤ n' ≤ S n)%nat
    ∧ f (blocked a) !! t = Some seen.
Proof.
  intros Hs Httl.
  assert (∀ (b : bool) n', (n ≤ n' ≤ S n)%nat → ∃ b' n'' f, (b, n', a) = (b', n'', a <| blocked ::= f |>)
    ∧ (n ≤ n'' ≤ S n)%nat ∧ f (blocked a) !! t = Some seen) as Hsame.
  { intros b n' ?. exists b, n', id. split_and!; [by destruct a|lia|lia|done]. }
  unfold isBlocked, mbind, M_bind, getS, mret, M_ret. destruct (t' =? 0); [apply Hsame; lia|].
  destruct (blocked a !! t') as [seen'|] eqn:E; [|apply Hsame; lia].
  unfold andM, IsZero, now, ask.
  destruct (Z.ltb_spec 0 (Policy.BlockTTL p)), (Z.eqb_spec seen' 0); try (apply Hsame; lia).
  cbn [negb andb]. destruct (Z.ltb_spec (Policy.BlockTTL p) (Sub (time_Now n) seen')); [|apply Hsame; lia].
  exists false, (S n), (λ m, if bool_decide (m !! t' = Some seen') then delete t' m else m).
  split_and!; [done|lia|lia|]. case_bool_decide; [|done].
  rewrite lookup_delete_ne; [done|]. intros ->. simplify_eq.
  destruct Httl as [?|[?|?]]; [lia|done|lia].
Qed.

(** An attempt of a process to execute a program, in a deployment that is not
    limited to cgroups. *)
Record exec_attempt (ev : Event) : Prop := {
  ea_time : Event.Timestamp ev ≠ 0;
  ea_type : Event.Type_ ev = EventExec;
  ea_phase : Event.Phase ev ≠ PhaseFailure ∧ Event.Phase ev ≠ PhaseSuccess;
  ea_cgroup : hasConfiguredPaths (Policy.CgroupPaths p) = false }.

Lemma cacheExecInfo_attempt ev n (a : Agent K) :
  exec_attempt ev → ∃ f, cacheExecInfo procReader ev n a = ((), n, a <| procInfos ::= f |>).
Proof.
  intros [Ht _ [_ Hs] _]. unfold cacheExecInfo, mbind, M_bind. rewrite orNow_nonzero by done.
  cbn. apply Z.eqb_neq in Hs. rewrite Hs. cbn.
  by exists (<[Event.TGID ev := cachedProcInfo.mkCached (cachedProcInfo.Info
    (default cachedProcInfo.zero (procInfos a !! Event.TGID ev))) (Event.Timestamp ev) true]>).
Qed.
Lemma handle_exec_attempt ev n (a : Agent K) :
  exec_attempt ev →
  ∃ f, after (handle p options procReader ev) n a =
       after (lineage ← blockedLineage p ev;
              if lineage && negb (Options.DryRun options)
              then enforceTGID p options (Event.TGID ev) BlockActionKill "exec by blocked lineage"
              else detect p options procReader ev) n (a <| procInfos ::= f |>).
Proof.
  intros Hev. destruct (cacheExecInfo_attempt ev n a Hev) as [f Hf]. exists f.
  destruct Hev as [Ht Hty [Hf' Hs] Hcg]. apply Z.eqb_neq in Hf', Hs.
  unfold handle. erewrite after_bind_eq by by apply orNow_nonzero.
  rewrite with_timestamp, Hty. change (EventExec =? EventBlock) with false.
  change (EventExec =? EventWrite) with false. rewrite Hf'. cbn [orb andb].
  erewrite (after_bind_eq _ _ _ _ (false, ev)) by (unfold updateFD; by rewrite Hty). cbn iota beta.
  unfold handleUpdated. erewrite after_bind_eq by (unfold inPolicyCgroup; by rewrite Hcg).
  rewrite Hty. change (EventExec =? EventExec) with true. cbn [negb].
  erewrite after_bind_eq by exact Hf. rewrite Hs. done.
Qed.

Lemma blockedLineage_still ev n (a : Agent K) :
  still_blocked n a (Event.TGID ev) ∨ still_blocked n a (Event.PPID ev) →
  ∃ n' f, blockedLineage p ev n a = (true, n', a <| blocked ::= f |>) ∧ (n ≤ n' ≤ S (S n))%nat.
Proof.
  intros Hs. assert (a = a <| blocked ::= id |>) as Hid by by destruct a.
  unfold blockedLineage, mbind, M_bind. destruct Hs as [(Ht & seen & Hs & Hu)|(Ht & seen & Hs & Hu)].
  - destruct (isBlocked_still _ n a seen Ht Hs) as (n' & ? & ->); [apply Hu; lia|].
    exists n', id. rewrite <- Hid. split; [done|lia].
  - destruct (isBlocked_preserves _ (Event.TGID ev) n a seen Hs) as (b & n1 & f & -> & ? & Hf); [apply Hu; lia|].
    destruct b; [exists n1, f; split; [done|lia]|].
    destruct (isBlocked_still (Event.PPID ev) n1 (a <| blocked ::= f |>) seen) as (n2 & ? & ->); [done|exact Hf|apply Hu; lia|].
    exists n2, f. split; [done|lia].
Qed.

(** C17: Outside dry-run mode, a process that attempts to execute a program
    while it, or its parent, is remembered as blocked and the TTL has not run
    out when the check reads the clock, is killed and marked in the kernel, and
    remembered as blocked itself, so that its own children are covered too;
    provided the sensor accepts the block, the event carries a time and the
    policy is not limited to cgroups ([exec_attempt]). *)
Theorem blocked_lineage_killed ev n (a : Agent K) k :
  exec_attempt ev → still_blocked n a (Event.TGID ev) ∨ still_blocked n a (Event.PPID ev) →
  Options.DryRun options = false → sensor a = Some k →
  (∀ m, (n ≤ m ≤ S (S n))%nat →
     result (BlockTGID (Event.TGID ev) BlockActionKill (Policy.BlockTTL p)) m k = true) →
  let a' := after (handle p options procReader ev) n a in
  marks a' !! Event.TGID ev = Some BlockActionKill
  ∧ is_Some (blocked a' !! Event.TGID ev) ∧ killed a' = killed a ++ [Event.TGID ev].
Proof.
  intros Hev Hs Hd Hk Hok a'. destruct (handle_exec_attempt ev n a Hev) as [f Hf].
  unfold a'. rewrite Hf. set (a0 := a <| procInfos ::= f |>).
  destruct (blockedLineage_still ev n a0 Hs) as (n' & g & Hg & Hn).
  rewrite (after_bind_eq _ _ _ _ _ _ _ Hg), Hd. cbn [negb andb].
  set (b := a0 <| blocked ::= g |>).
  exact (enforced_marks n' (Event.TGID ev) BlockActionKill b _ k Hk (Hok n' Hn)
    (enforceTGID_spec (Event.TGID ev) BlockActionKill "exec by blocked lineage" n' b Hd)).
Qed.

(** ** Timers *)

(** the idle TTL is at least a minute and never shorter than the block
    TTL, and the timer intervals lie between one second and one minute, also
    when tripling the window overflows; the scan period is positive, so no
    ticker panics. *)
Theorem timer_bounds :
  Minute ≤ idleTTL p ∧ Policy.BlockTTL p ≤ idleTTL p
  ∧ Second ≤ pruneInterval p ≤ Minute
  ∧ 5 * Second ≤ ringbufDropInterval p ≤ Minute ∧ 10 * Second ≤ metricsInterval p ≤ Minute
  ∧ 0 < scanInterval p.
Proof.
  assert (Minute ≤ idleTTL p ∧ Policy.BlockTTL p ≤ idleTTL p) as [? ?].
  { unfold idleTTL. generalize (int64 (Policy.Window p * 3)). intros w.
    destruct (Z.ltb_spec w Minute); case_match; lia. }
  unfold pruneInterval, ringbufDropInterval, metricsInterval, scanInterval.
  generalize (Z.quot (idleTTL p) 2). intros q. change Minute with (60 * Second) in *.
  assert (0 < Second) by done. repeat case_match; split_and!; lia.
Qed.

Lemma after_pruneIdle t n (a : Agent K) :
  after (pruneIdle p t) n a =
  a <| procs ::= keepFresh p procState.LastSeen t |>
    <| fdPaths ::= keepFresh p fdState.LastSeen t |>
    <| procInfos ::= keepFresh p cachedProcInfo.LastSeen t |>
    <| blocked ::= filter (λ kv, alive p t (blockedSeen (keepFresh p procState.LastSeen t (procs a))
                                             kv.1 kv.2) = true) |>.
Proof. done. Qed.

(** idle pruning forgets nothing that still matters: a process state or
    descriptor seen within the idle TTL is kept unchanged, and so is a block
    that [isBlocked] would still honour at that time. *)
Theorem pruneIdle_keeps_live t n (a : Agent K) :
  let a' := after (pruneIdle p t) n a in
  (∀ tgid st, procs a !! tgid = Some st → alive p t (procState.LastSeen st) = true →
     procs a' !! tgid = Some st)
  ∧ (∀ key fd, fdPaths a !! key = Some fd → alive p t (fdState.LastSeen fd) = true →
     fdPaths a' !! key = Some fd)
  ∧ (∀ tgid seen, blocked a !! tgid = Some seen → seen ≠ 0 → Sub t seen ≤ Policy.BlockTTL p →
     blocked a' !! tgid = Some seen).
Proof.
  intros a'. unfold a'. rewrite after_pruneIdle. cbn. unfold keepFresh. split_and!.
  - intros tgid st Hst Hal. by apply map_lookup_filter_Some.
  - intros key fd Hfd Hal. by apply map_lookup_filter_Some.
  - intros tgid seen Hs H0' Hsub. apply map_lookup_filter_Some. split; [done|]. cbn.
    unfold blockedSeen, alive, IsZero. apply Z.eqb_neq in H0'. rewrite H0'. cbn. rewrite H0'.
    destruct timer_bounds as (_ & Hb & _). apply Z.leb_le. lia.
Qed.

(** ... and it does forget what is idle. *)
Lemma pruneIdle_drops t n (a : Agent K) tgid st :
  procs (after (pruneIdle p t) n a) !! tgid = Some st → alive p t (procState.LastSeen st) = true.
Proof. rewrite after_pruneIdle. cbn. unfold keepFresh. by intros [_ ?]%map_lookup_filter_Some. Qed.

(** C38: With a TTL of zero a block does not expire: the kernel entry has no expiry
    time ([BlockTGID]), and [isBlocked] honours the block at every time.  Yet
    [pruneIdle] forgets it once the idle TTL has passed, which does not take
    this meaning of zero into account, and then [isBlocked] denies it. *)
Theorem permanent_block_forgotten tgid seen t n (a : Agent K) :
  Policy.BlockTTL p = 0 → tgid ≠ 0 → blocked a !! tgid = Some seen → seen ≠ 0 → idleTTL p < Sub t seen →
  isBlocked p tgid n a = (true, n, a)
  ∧ let a' := after (pruneIdle p t) n a in isBlocked p tgid n a' = (false, n, a').
Proof.
  intros Httl Ht Hs Hne Hidle. apply Z.eqb_neq in Ht. split.
  - unfold isBlocked, mbind, M_bind, getS. rewrite Ht, Hs, Httl. done.
  - intros a'. assert (blocked a' !! tgid = None) as Hn.
    { unfold a'. rewrite after_pruneIdle. apply map_lookup_filter_None. right. cbn. intros x Hx. simplify_eq.
      unfold blockedSeen, alive, IsZero. apply Z.eqb_neq in Hne. rewrite Hne. cbn. rewrite Hne. cbn.
      apply not_true_iff_false, Z.leb_gt. done. }
    unfold isBlocked, mbind, M_bind, getS. by rewrite Ht, Hn.
Qed.

(** ** Loss counters *)

(** Readings of a counter that may be reset to a smaller value. *)
Fixpoint readDrops (readings : list Z) : M (Agent K) Z :=
  match readings with
  | [] => mret 0
  | r :: readings => d ← ringbufDropDelta r; s ← readDrops readings; mret (d + s)
  end.
Lemma ringbufDropDelta_spec r n (a : Agent K) :
  ringbufDropDelta r n a = (counterDelta r (lastDrops a), n, a <| lastDrops := r |>
    <| Agent.metrics ::= λ m, m <| metrics.RingbufDropsTotal := r |> |>).
Proof. done. Qed.
(** no loss is missed or counted twice: while the kernel's drop counter
    does not go backwards, the increments the agent reports add up to how far
    the counter moved since the last reading. *)
Theorem drop_deltas_total readings n (a : Agent K) :
  Forall (λ r, lastDrops a ≤ r) (take 1 readings) →
  (∀ i x y, readings !! i = Some x → readings !! S i = Some y → x ≤ y) →
  result (readDrops readings) n a = default (lastDrops a) (last readings) - lastDrops a.
Proof.
  revert n a. induction readings as [|r l IH]; intros n a Hf Hm; [cbn; lia|].
  cbn [readDrops]. unfold result, mbind at 1, M_bind at 1. rewrite ringbufDropDelta_spec.
  set (a1 := a <| lastDrops := r |> <| Agent.metrics ::= _ |>).
  unfold mbind, M_bind. specialize (IH n a1). unfold result in IH.
  destruct (readDrops l n a1) as [[s n2] a2]. cbn in *. rewrite IH.
  - apply Forall_cons in Hf as [Hr _]. unfold counterDelta.
    destruct (Z.ltb_spec r (lastDrops a)); [lia|]. rewrite last_cons. destruct (last l); cbn; lia.
  - destruct l as [|y l]; cbn; constructor; [|constructor]. by apply (Hm 0%nat).
  - intros i x y ? ?. by apply (Hm (S i)).
Qed.

(** ** Trusted processes *)

Lemma touchFD_fd t d seen n (a : Agent K) fd :
  fdPaths a !! (t, d) = Some fd → fdState.Path fd ≠ "" →
  ∃ f, touchFD t d seen n a = (fdState.Path fd, n, a <| fdPaths ::= f |>).
Proof.
  intros Hfd Hne. unfold touchFD, mbind, M_bind, getS.
  rewrite Hfd, bool_decide_eq_false_2 by done. cbn. eauto.
Qed.
(** Deciding trust changes only the cached identities. *)
Lemma isTrustedEvent_frame ev n (a : Agent K) :
  ∃ n' f, isTrustedEvent p procReader ev n a
          = (result (isTrustedEvent p procReader ev) n a, n', a <| procInfos ::= f |>).
Proof.
  assert (keeps (λ a' : Agent K, ∃ f, a' = a <| procInfos ::= f |>) (isTrustedEvent p procReader ev)) as Hk.
  { assert (∀ t c, keeps (λ a' : Agent K, ∃ f, a' = a <| procInfos ::= f |>) (putInfo t c)) as Hput.
    { intros t c m a' [f ->]. by exists (λ x, <[t := c]> (f x)). }
    unfold isTrustedEvent, procInfoOf, readProcessInfo, readProc, orNow, now. keeps_auto. }
  destruct (Hk n a) as [f Hf]; [exists id; by destruct a|]. unfold after, result in *.
  destruct (isTrustedEvent p procReader ev n a) as [[b n'] a']. cbn in *. subst a'. by exists n', f.
Qed.
Lemma trusted_mmap_skipped ev n (a : Agent K) fd :
  Event.Timestamp ev ≠ 0 → Event.Type_ ev = EventMmap → Event.Phase ev ≠ PhaseFailure →
  pickPath ev = "" → hasConfiguredPaths (Policy.CgroupPaths p) = false →
  result (isTrustedEvent p procReader ev) n a = true →
  fdPaths a !! (Event.TGID ev, Event.Arg0 ev) = Some fd → fdState.Path fd ≠ "" →
  inSelfProtectScope p (fdState.Path fd) = false →
  ∃ f g, after (handle p options procReader ev) n a = a <| procInfos ::= f |> <| fdPaths ::= g |>.
Proof.
  intros Ht Hty Hph Hpath Hcg Htr Hfd Hne Hsp. apply Z.eqb_neq in Hph.
  destruct (isTrustedEvent_frame ev n a) as (n' & f & Hf). rewrite Htr in Hf. exists f.
  destruct (touchFD_fd (Event.TGID ev) (Event.Arg0 ev) (Event.Timestamp ev) n' (a <| procInfos ::= f |>) fd ltac:(exact Hfd) Hne) as [g Hg]. exists g.
  unfold handle. erewrite after_bind_eq by by apply orNow_nonzero.
  rewrite with_timestamp, Hty, Hph. cbn [Z.eqb Pos.eqb EventMmap EventBlock EventWrite orb andb].
  erewrite (after_bind_eq _ _ _ _ (false, ev)) by (unfold updateFD; by rewrite Hty). cbn iota beta.
  unfold handleUpdated. erewrite after_bind_eq by (unfold inPolicyCgroup; by rewrite Hcg).
  rewrite Hty. cbn [negb Z.eqb Pos.eqb EventMmap EventExec when andM andb].
  erewrite after_bind_eq by reflexivity. erewrite after_bind_eq by reflexivity. cbn iota beta.
  cbn [andb]. unfold detect. rewrite (after_bind_eq _ _ _ _ _ _ _ (blacklistedEvent_not_exec ev n a ltac:(by rewrite Hty))).
  cbn iota beta.
  assert (exempt p procReader ev n a = (true, n', a <| procInfos ::= f |> <| fdPaths ::= g |>)) as He.
  { unfold exempt, mbind, M_bind. rewrite Hf. unfold backupSensitiveEvent, selfProtectSensitiveEvent, sensitiveEvent.
    rewrite Hty, Hpath. cbn [andM Z.eqb Pos.eqb EventMmap EventOpen EventWrite EventTruncate EventRename EventLink
      EventUnlink andb orb negb mret M_ret]. rewrite bool_decide_eq_true_2 by done.
    unfold mbind, M_bind. rewrite Hg. by rewrite Hsp. }
  by rewrite (after_bind_eq _ _ _ _ _ _ _ He).
Qed.

(** C39: A writable mapping through a descriptor of a file under a backup
    directory, by a process whose identity is trusted (its name, and its UID
    and executable where the policy lists them), leaves no alert and no score,
    although [score] would charge it as backup destruction and a write to the
    same descriptor is not exempt.  For a file that is not also self-protected,
    an event with a time that did not fail, in a policy not limited to
    cgroups. *)
Theorem trusted_backup_mmap_exempt ev n (a : Agent K) fd :
  Event.Timestamp ev ≠ 0 → Event.Type_ ev = EventMmap → Event.Phase ev ≠ PhaseFailure →
  pickPath ev = "" → hasConfiguredPaths (Policy.CgroupPaths p) = false →
  result (isTrustedEvent p procReader ev) n a = true →
  fdPaths a !! (Event.TGID ev, Event.Arg0 ev) = Some fd →
  inBackupScope p (fdState.Path fd) = true → inSelfProtectScope p (fdState.Path fd) = false →
  let a' := after (handle p options procReader ev) n a in
  alerts a' = alerts a ∧ procs a' = procs a
  ∧ result (score p ev) n a
    = (Scores.Mmap (Policy.Scores p) +ᵢ Scores.BackupDestroy (Policy.Scores p), "writable mmap on backup fd")
  ∧ ∀ m, result (exempt p procReader (ev <| Event.Type_ := EventWrite |>)) m a = false.
Proof.
  intros Ht Hty Hph Hpath Hcg Htr Hfd Hbk Hsp a'.
  assert (fdState.Path fd ≠ "") as Hne by (intros E; by rewrite E in Hbk).
  assert (∃ f g, a' = a <| procInfos ::= f |> <| fdPaths ::= g |>) as (f & g & ->).
  { unfold a'. by apply (trusted_mmap_skipped ev n a fd). }
  split_and!; [done|done|..].
  - unfold result, score. cbv zeta. rewrite Hty. cbn -[scoreMmap inBackupScope].
    unfold touchFD, mbind, M_bind, getS. rewrite Hfd, bool_decide_eq_false_2 by done. cbn.
    unfold scoreMmap. by rewrite bool_decide_eq_false_2, Hsp, Hbk by done.
  - intros m. unfold exempt, result, mbind, M_bind.
    destruct (isTrustedEvent_frame (ev <| Event.Type_ := EventWrite |>) m a) as (n' & h & ->).
    destruct (result _ m a); [|done]. cbn [andM]. unfold backupSensitiveEvent, sensitiveEvent.
    change (pickPath (ev <| Event.Type_ := EventWrite |>)) with (pickPath ev). rewrite Hpath.
    destruct (touchFD_fd (Event.TGID ev) (Event.Arg0 ev) (Event.Timestamp ev) n' (a <| procInfos ::= h |>) fd ltac:(exact Hfd) Hne) as [k Hk].
    rewrite bool_decide_eq_true_2 by done. unfold mbind, M_bind.
    change (Event.Type_ (ev <| Event.Type_ := EventWrite |>)) with EventWrite.
    change (Event.TGID (ev <| Event.Type_ := EventWrite |>)) with (Event.TGID ev).
    change (Event.Arg0 (ev <| Event.Type_ := EventWrite |>)) with (Event.Arg0 ev).
    change (Event.Timestamp (ev <| Event.Type_ := EventWrite |>)) with (Event.Timestamp ev).
    cbn [Z.eqb Pos.eqb EventWrite EventOpen orb]. rewrite Hk. unfold mret, M_ret. by rewrite Hbk.
Qed.
End props.
