(* ===== verification/AgentIdentity.v ===== *)
(** * Identities across exec (Agent.v)

    The agent caches the identity of a process, its name, user and executable,
    to decide whether it is trusted.  Here: what was cached before an attempt to
    execute a program plays no role afterwards.  Two agents that differ only
    in identities that are due for a refresh do the same, whatever arrives. *)
From S2P Require Import Prelude GoStrings GoPath GoTime Config World Event Scope Network Window.
From S2P Require Import HashCache Blacklist Interface Agent AgentTheory AgentProps.

Import Agent.

Section identity.
Context `{Unicode} `{World} `{NetIP} `{SensorOps K}.
Context (p : Policy) (options : Options) (procReader : option (Z → nat → option procInfo)).

(** ** Agents that differ in identities not to be used *)

(** The entries are equal, or both are due for a refresh. *)
Inductive same_entry : option cachedProcInfo → option cachedProcInfo → Prop :=
  | same_equal x : same_entry x x
  | same_due i j seen :
      same_entry (Some (cachedProcInfo.mkCached i seen true)) (Some (cachedProcInfo.mkCached j seen true)).
Definition same (a b : Agent K) : Prop :=
  ∃ x, b = a <| procInfos := x |> ∧ ∀ t, same_entry (procInfos a !! t) (x !! t).
Lemma same_refl a : same a a.
Proof. exists (procInfos a). split; [by destruct a|]. intros t. constructor. Qed.

Lemma same_put a x : (∀ t, same_entry (procInfos a !! t) (x !! t)) → same a (a <| procInfos := x |>).
Proof. intros Hx. by exists x. Qed.

(** From agents related by [R], the same result after the same queries, and
    agents related by [Q]. *)
Definition alike {A} (R Q : Agent K → Agent K → Prop) (m : M (Agent K) A) : Prop :=
  ∀ n a b, R a b → let '(r, n', a') := m n a in let '(r2, n2, b') := m n b in r2 = r ∧ n2 = n' ∧ Q a' b'.
Lemma alike_ret {A} R (x : A) : alike R R (mret x).
Proof. by intros n a b ?. Qed.
Lemma alike_ask {A} R (f : nat → A) : alike R R (ask f).
Proof. by intros n a b ?. Qed.
Lemma alike_bind {A B} R Q T (m : M (Agent K) A) (f : A → M (Agent K) B) :
  alike R Q m → (∀ x, alike Q T (f x)) → alike R T (m ≫= f).
Proof.
  intros Hm Hf n a b Hs. specialize (Hm n a b Hs). unfold mbind, M_bind.
  destruct (m n a) as [[x n'] a'], (m n b) as [[y n2] b']. destruct Hm as (-> & -> & Hs'). by apply Hf.
Qed.
Lemma alike_orNow R t : alike R R (orNow t).
Proof. unfold orNow, now. destruct (IsZero t); [apply alike_ask|apply alike_ret]. Qed.

(** An operation to which the difference makes none. *)
Definition blind {A} (m : M (Agent K) A) : Prop := alike same same m.
Lemma blind_ret {A} (x : A) : blind (mret x).
Proof. apply alike_ret. Qed.
Lemma blind_bind {A B} (m : M (Agent K) A) (f : A → M (Agent K) B) :
  blind m → (∀ x, blind (f x)) → blind (m ≫= f).
Proof. apply alike_bind. Qed.
Lemma blind_ask {A} (f : nat → A) : blind (ask f).
Proof. apply alike_ask. Qed.
Lemma blind_mod (f : Agent K → Agent K) :
  (∀ a x, f (a <| procInfos := x |>) = (f a) <| procInfos := x |>) → (∀ a, procInfos (f a) = procInfos a) →
  blind (modS f).
Proof. intros Hf Hp n a b (x & -> & Hx). split_and!; [done..|]. exists x. by rewrite Hf, Hp. Qed.
(** Reading any other field. *)
Lemma blind_get {A} (f : Agent K → M (Agent K) A) :
  (∀ a x, f (a <| procInfos := x |>) = f a) → (∀ a, blind (f a)) → blind (getS ≫= f).
Proof.
  intros Hf Hb n a b Hs. change ((getS ≫= f) n a) with (f a n a). change ((getS ≫= f) n b) with (f b n b).
  assert (f b = f a) as -> by (destruct Hs as (x & -> & _); apply Hf). by apply Hb.
Qed.
Lemma blind_for {A} (l : list A) f : (∀ x, blind (f x)) → blind (forM l f).
Proof.
  intros Hf. induction l as [|x l IH]; [apply blind_ret|]. apply blind_bind; [done|]. by intros [].
Qed.

Ltac blind_step :=
  match goal with
  | |- blind (getS ≫= _) => apply blind_get; [intros ? ?; reflexivity|intros ?]
  | |- blind (_ ≫= _) => apply blind_bind; [|intros ?]
  | |- blind (modS _) => apply blind_mod; [intros ? ?; reflexivity|intros ?; reflexivity]
  | |- blind (andM ?b _) => unfold andM at 1
  | |- blind (when ?b _) => unfold when at 1
  | |- blind (let _ := _ in _) => cbv zeta
  | |- blind (match ?x with _ => _ end) => destruct x
  | |- blind (mret _) => apply blind_ret
  | |- blind (ask _) => apply blind_ask
  | |- blind _ => solve [auto with blind]
  end.
Ltac blind_auto := repeat blind_step.
Create HintDb blind.

(** ** The basic operations *)
Lemma now_blind : blind now.
Proof. apply blind_ask. Qed.
Lemma orNow_blind t : blind (orNow t).
Proof. apply alike_orNow. Qed.
Lemma procSymlink_blind t name : blind (procSymlink t name).
Proof. unfold procSymlink. blind_auto. Qed.
Lemma readProc_blind t : blind (readProc t).
Proof. unfold readProc. blind_auto. Qed.
#[local] Hint Resolve now_blind orNow_blind procSymlink_blind readProc_blind : blind.
Lemma readProcessInfo_blind t : blind (readProcessInfo procReader t).
Proof. unfold readProcessInfo. blind_auto. Qed.
Lemma touchFD_blind t fd seen : blind (touchFD t fd seen).
Proof. unfold touchFD. blind_auto. Qed.
Lemma putState_blind t st : blind (putState t st).
Proof. unfold putState. blind_auto. Qed.
#[local] Hint Resolve readProcessInfo_blind touchFD_blind putState_blind : blind.
Lemma state_blind ev : blind (state ev).
Proof. unfold state. blind_auto. Qed.
Lemma checkBlocked_blind st t : blind (checkBlocked p st t).
Proof. unfold checkBlocked. blind_auto. Qed.
Lemma updateFD_blind ev : blind (updateFD ev).
Proof. unfold updateFD, resolveOpenPath, fdPath. blind_auto. Qed.
Lemma isBlocked_blind t : blind (isBlocked p t).
Proof. unfold isBlocked. blind_auto. Qed.
#[local] Hint Resolve state_blind checkBlocked_blind updateFD_blind isBlocked_blind : blind.
Lemma blockedLineage_blind ev : blind (blockedLineage p ev).
Proof. unfold blockedLineage. blind_auto. Qed.
Lemma sensorBlock_blind t action ttl : blind (sensorBlock t action ttl).
Proof.
  intros n a b (x & -> & Hx). unfold sensorBlock. change (sensor (a <| procInfos := x |>)) with (sensor a). destruct (sensor a) as [k|]; [|split_and!; [done|done|exact (same_put _ x Hx)]].
  destruct (BlockTGID t action ttl n k) as [[ok n'] k']. split_and!; [done..|]. exists x. by split.
Qed.
#[local] Hint Resolve blockedLineage_blind sensorBlock_blind : blind.
Lemma enforceTGID_blind t action reason : blind (enforceTGID p options t action reason).
Proof. unfold enforceTGID, rememberBlocked. blind_auto. Qed.
Lemma emitAlert_blind st action dry : blind (emitAlert p st action dry).
Proof. unfold emitAlert, logAlert, countMetrics. blind_auto. Qed.
#[local] Hint Resolve enforceTGID_blind emitAlert_blind : blind.
Lemma alertAndEnforce_blind st reason action : blind (alertAndEnforce p options st reason action).
Proof. unfold alertAndEnforce, countMetrics, rememberBlocked. blind_auto. Qed.
Lemma enforceBlacklist_blind t pid ppid uid comm path hash reason :
  blind (enforceBlacklist p options t pid ppid uid comm path hash reason).
Proof. unfold enforceBlacklist, logAlert, countMetrics. blind_auto. Qed.
Lemma onHashes_blind {A} (m : M hashCache A) : blind (onHashes m).
Proof.
  intros n a b (x & -> & Hx). unfold onHashes, zoom. change (hashes (a <| procInfos := x |>)) with (hashes a). destruct (m n (hashes a)) as [[r n'] c].
  split_and!; [done..|]. exists x. by split.
Qed.
Lemma enqueueHash_blind job : blind (enqueueHash job).
Proof. apply blind_mod; intros; cbn; by case_bool_decide. Qed.
Lemma reloadBlacklist_blind : blind reloadBlacklist.
Proof.
  intros n a b (x & -> & Hx). unfold reloadBlacklist. change (blacklist (a <| procInfos := x |>)) with (blacklist a). destruct (blacklist a) as [l|]; [|split_and!; [done|done|exact (same_put _ x Hx)]].
  destruct (reloadFiles n l) as [[r n'] l']. split_and!; [done..|]. exists x. by split.
Qed.
Lemma onSensor_blind (m : M K (option Z)) : blind (onSensor m).
Proof.
  intros n a b (x & -> & Hx). unfold onSensor. change (sensor (a <| procInfos := x |>)) with (sensor a). destruct (sensor a) as [k|]; [|split_and!; [done|done|exact (same_put _ x Hx)]].
  destruct (m n k) as [[r n'] k']. split_and!; [done..|]. exists x. by split.
Qed.
#[local] Hint Resolve alertAndEnforce_blind enforceBlacklist_blind onHashes_blind enqueueHash_blind
  reloadBlacklist_blind onSensor_blind : blind.

(** ** The operations on identities *)

(** Reading an entry, where the entries due for a refresh are treated alike. *)
Lemma blind_lookup {A} (f : Agent K → M (Agent K) A) :
  (∀ a b, same a b → f b = f a) → (∀ a, blind (f a)) → blind (getS ≫= f).
Proof.
  intros Hf Hb n a b Hs. change ((getS ≫= f) n a) with (f a n a). change ((getS ≫= f) n b) with (f b n b).
  rewrite (Hf a b Hs). by apply Hb.
Qed.
Lemma same_insert a b t c d :
  same a b → same_entry (Some c) (Some d) →
  same (a <| procInfos ::= <[t := c]> |>) (b <| procInfos ::= <[t := d]> |>).
Proof.
  intros (x & -> & Hx) Hc. exists (<[t := d]> x). split; [done|]. intros t'. cbn.
  destruct (decide (t = t')) as [<-|]; [by rewrite !lookup_insert_eq|by rewrite !lookup_insert_ne].
Qed.
Lemma putInfo_blind t c : blind (putInfo t c).
Proof. intros n a b Hs. split_and!; [done..|]. apply same_insert; [done|constructor]. Qed.
#[local] Hint Resolve putInfo_blind : blind.
Lemma procInfoOf_blind t seen : blind (procInfoOf procReader t seen).
Proof.
  unfold procInfoOf. apply blind_bind; [apply orNow_blind|]. intros seen'.
  apply blind_lookup; [|intros e; blind_auto]. intros a b (x & -> & Hx).
  change (procInfos (a <| procInfos := x |>)) with x. destruct (Hx t) as [|i j s]; [done|].
  cbn [default cachedProcInfo.NeedsRefresh negb]. by rewrite !andb_false_r.
Qed.

(** The agents may also differ in the entry of [t], in any way. *)
Definition same_but (t : Z) (a b : Agent K) : Prop :=
  ∃ x, b = a <| procInfos := x |> ∧ ∀ t', t' ≠ t → same_entry (procInfos a !! t') (x !! t').
Lemma same_weaken t a b : same a b → same_but t a b.
Proof. intros (x & -> & Hx). exists x. split; [done|]. intros t' _. apply Hx. Qed.
(** Marking the entry for a refresh makes the difference harmless. *)
Lemma mark_alike {A} t seen (k : M (Agent K) A) :
  blind k → alike (same_but t) same
    (a ← getS;
     let cached := default cachedProcInfo.zero (procInfos a !! t) in
     putInfo t (cachedProcInfo.mkCached (cachedProcInfo.Info cached) seen true) ;; k).
Proof.
  intros Hk n a b (x & -> & Hx). unfold putInfo, mbind, M_bind, getS, modS. apply Hk.
  eexists. split; [reflexivity|]. intros t'. cbn. destruct (decide (t = t')) as [<-|].
  - rewrite !lookup_insert_eq. constructor.
  - rewrite !lookup_insert_ne by done. by apply Hx.
Qed.
Lemma cacheExecInfo_alike ev : alike (same_but (Event.TGID ev)) same (cacheExecInfo procReader ev).
Proof.
  unfold cacheExecInfo. eapply alike_bind; [apply alike_orNow|]. intros seen. apply mark_alike. blind_auto.
Qed.
Lemma cacheExecInfo_blind ev : blind (cacheExecInfo procReader ev).
Proof. intros n a b Hs. apply cacheExecInfo_alike. by apply same_weaken. Qed.
Lemma pruneInfos_blind t :
  blind (modS (λ a : Agent K, a <| procInfos ::= keepFresh p cachedProcInfo.LastSeen t |>)).
Proof.
  intros n a b (x & -> & Hx). split_and!; [done..|]. eexists. split; [reflexivity|]. intros t'. cbn.
  unfold keepFresh. rewrite !map_lookup_filter. destruct (Hx t') as [|i j s]; [constructor|]. cbn.
  destruct (alive p t s); cbn; constructor.
Qed.
#[local] Hint Resolve procInfoOf_blind cacheExecInfo_blind pruneInfos_blind : blind.

(** ** The handlers *)
Lemma isTrustedEvent_blind ev : blind (isTrustedEvent p procReader ev).
Proof. unfold isTrustedEvent. blind_auto. Qed.
Lemma inPolicyCgroup_blind t : blind (inPolicyCgroup p t).
Proof. unfold inPolicyCgroup. blind_auto. Qed.
Lemma sensitiveEvent_blind scope mmap ev : blind (sensitiveEvent scope mmap ev).
Proof. unfold sensitiveEvent. blind_auto. Qed.
#[local] Hint Resolve isTrustedEvent_blind inPolicyCgroup_blind sensitiveEvent_blind : blind.
Lemma exempt_blind ev : blind (exempt p procReader ev).
Proof. unfold exempt, backupSensitiveEvent, selfProtectSensitiveEvent. blind_auto. Qed.
Lemma blacklistedEvent_blind ev : blind (blacklistedEvent ev).
Proof. unfold blacklistedEvent. blind_auto. Qed.
Lemma score_blind ev : blind (score p ev).
Proof. unfold score. blind_auto. Qed.
Lemma block_blind t st : blind (block p options t st).
Proof. unfold block. blind_auto. Qed.
#[local] Hint Resolve exempt_blind blacklistedEvent_blind score_blind block_blind : blind.
Lemma decide_action_blind ev st : blind (decide_action p options ev st).
Proof. unfold decide_action. blind_auto. Qed.
#[local] Hint Resolve decide_action_blind : blind.
Lemma handleScored_blind ev sc reason : blind (handleScored p options ev sc reason).
Proof. unfold handleScored. blind_auto. Qed.
Lemma handleIOC_blind ev reason : blind (handleIOC p options ev reason).
Proof. unfold handleIOC. blind_auto. Qed.
Lemma handleInlineIOCBlock_blind ev : blind (handleInlineIOCBlock p ev).
Proof. unfold handleInlineIOCBlock, countMetrics. blind_auto. Qed.
#[local] Hint Resolve handleScored_blind handleIOC_blind handleInlineIOCBlock_blind : blind.
Lemma detect_blind ev : blind (detect p options procReader ev).
Proof. unfold detect. blind_auto. Qed.
#[local] Hint Resolve detect_blind : blind.
Lemma handle_blind ev : blind (handle p options procReader ev).
Proof. unfold handle, handleUpdated. blind_auto. Qed.
Lemma hashWorkerStep_blind : blind (hashWorkerStep p options).
Proof. unfold hashWorkerStep. blind_auto. Qed.
Lemma scanProc_blind proc : blind (scanProc p options proc).
Proof. unfold scanProc, procHash. blind_auto. Qed.
Lemma readProcs_blind l : blind (readProcs l).
Proof. induction l as [|[name d] l IH]; cbn [readProcs]; blind_auto. Qed.
#[local] Hint Resolve handle_blind hashWorkerStep_blind scanProc_blind readProcs_blind blind_for : blind.
Lemma scanBlacklistOnce_blind : blind (scanBlacklistOnce p options).
Proof. unfold scanBlacklistOnce, listProcs. blind_auto. Qed.
Lemma pruneIdle_blind t : blind (pruneIdle p t).
Proof.
  unfold pruneIdle. repeat (apply blind_bind; [|intros _]); try apply pruneInfos_blind; blind_auto.
Qed.
Lemma logRingbufDrops_blind : blind logRingbufDrops.
Proof. unfold logRingbufDrops, ringbufDropDelta, captureGapDelta. blind_auto. Qed.
#[local] Hint Resolve scanBlacklistOnce_blind pruneIdle_blind logRingbufDrops_blind : blind.
Lemma step_blind i : blind (step p options procReader i).
Proof. unfold step, logMetrics, countMetrics. blind_auto. Qed.
#[local] Hint Resolve step_blind : blind.
Lemma runLoop_blind signals : blind (runLoop p options procReader signals).
Proof. induction signals as [|[] signals IH]; cbn [runLoop]; blind_auto. Qed.

(** ** Exec *)

(** A value computed without the state. *)
Lemma alike_ret_bind {A B} R Q (x : A) (f : A → M (Agent K) B) : alike R Q (f x) → alike R Q (mret x ≫= f).
Proof. done. Qed.
Lemma handle_exec_alike ev :
  Event.Type_ ev = EventExec → Event.Phase ev ≠ PhaseFailure → hasConfiguredPaths (Policy.CgroupPaths p) = false →
  alike (same_but (Event.TGID ev)) same (handle p options procReader ev).
Proof.
  intros Hty Hph%Z.eqb_neq Hcg. unfold handle. eapply alike_bind; [apply alike_orNow|]. intros t. cbv zeta.
  set (ev' := ev <| Event.Timestamp := t |>).
  change (Event.TGID ev) with (Event.TGID ev').
  change (Event.Type_ ev) with (Event.Type_ ev') in Hty. change (Event.Phase ev') with (Event.Phase ev).
  rewrite Hty, Hph. cbn [Z.eqb Pos.eqb EventExec EventBlock EventWrite orb andb].
  assert (updateFD (K := K) ev' = mret (false, ev')) as -> by (unfold updateFD; by rewrite Hty).
  apply alike_ret_bind. unfold handleUpdated.
  assert (inPolicyCgroup (K := K) p (Event.TGID ev') = mret true) as -> by (unfold inPolicyCgroup; by rewrite Hcg).
  apply alike_ret_bind. rewrite Hty. eapply alike_bind; [apply cacheExecInfo_alike|]. intros [].
  match goal with |- alike _ _ ?m => change (blind m) end. blind_auto.
Qed.

(** C32: The identity known of a process is not used across an exec: once the
    agent has handled an exec event of the process that is not a failure, what
    was cached for it before, [c] or anything else, makes no difference to what
    the agent does on whatever arrives later: the outcome, the alerts, the kills
    and blocks, every table but the cache, and the identity any later lookup
    returns.  Nor does idle pruning bring it back.  The policy is not limited
    to cgroups. *)
Theorem exec_invalidates_identity ev c signals n (a : Agent K) :
  Event.Type_ ev = EventExec → Event.Phase ev ≠ PhaseFailure → hasConfiguredPaths (Policy.CgroupPaths p) = false →
  let b := a <| procInfos ::= <[Event.TGID ev := c]> |> in
  let '(out, n', a') := runLoop p options procReader (SigInput (InEvent ev) :: signals) n a in
  let '(out2, n2, b') := runLoop p options procReader (SigInput (InEvent ev) :: signals) n b in
  out2 = out ∧ n2 = n' ∧ b' = a' <| procInfos := procInfos b' |>
  ∧ ∀ tgid seen, result (procInfoOf procReader tgid seen) n' b' = result (procInfoOf procReader tgid seen) n' a'.
Proof.
  intros Hty Hph Hcg b.
  assert (alike (same_but (Event.TGID ev)) same (runLoop p options procReader (SigInput (InEvent ev) :: signals))) as Hrun.
  { cbn [runLoop step]. eapply alike_bind; [by apply handle_exec_alike|]. intros []. apply runLoop_blind. }
  assert (same_but (Event.TGID ev) a b) as Hab.
  { eexists. split; [reflexivity|]. intros t' Hne. rewrite lookup_insert_ne by done. constructor. }
  specialize (Hrun n a b Hab). destruct (runLoop _ _ _ _ n a) as [[out n'] a'].
  destruct (runLoop _ _ _ _ n b) as [[out2 n2] b']. destruct Hrun as (-> & -> & Hs). split_and!; [done..| |].
  - by destruct Hs as (x & -> & _).
  - intros t seen. pose proof (procInfoOf_blind t seen n' a' b' Hs) as Hi. unfold result.
    destruct (procInfoOf _ t seen n' a') as [[i1 m1] a1], (procInfoOf _ t seen n' b') as [[i2 m2] b1].
    by destruct Hi as (-> & _).
Qed.

(** While the entry is marked, a lookup returns what procfs says at that
    moment, fails if that fails, and leaves the mark. *)
Lemma readProcessInfo_pure t n (a : Agent K) : after (readProcessInfo procReader t) n a = a.
Proof.
  assert (∀ a0, keeps (λ a : Agent K, a = a0) (readProcessInfo procReader t)) as Hk.
  { intros a0. unfold readProcessInfo, readProc. keeps_auto. }
  by apply (Hk a n a).
Qed.
Theorem marked_identity_reread tgid seen n (a : Agent K) i s :
  procInfos a !! tgid = Some (cachedProcInfo.mkCached i s true) →
  (∃ m, result (procInfoOf procReader tgid seen) n a = result (readProcessInfo procReader tgid) m a)
  ∧ ∃ j s', procInfos (after (procInfoOf procReader tgid seen) n a) !! tgid = Some (cachedProcInfo.mkCached j s' true).
Proof.
  intros Hl. unfold procInfoOf.
  assert (∃ t m, orNow (K := K) seen n a = (t, m, a)) as (t & m & Ho).
  { unfold orNow, now, ask. destruct (IsZero seen); cbn; eauto. }
  unfold result, after, mbind, M_bind. rewrite Ho. cbn. rewrite Hl. cbn. rewrite !andb_false_r.
  pose proof (readProcessInfo_pure tgid m a) as Hp.
  unfold after in Hp. destruct (readProcessInfo _ _ m a) as [[r m2] a2] eqn:Hr. cbn in Hp. subst a2.
  destruct r as [info|]; cbn; (split; [exists m; by rewrite Hr|]); [rewrite lookup_insert_eq|]; eauto.
Qed.
End identity.
