(* ===== verification/Pipeline.v ===== *)
(** * From the kernel to the agent: [Sensor.Events] and the [select] of [Agent.Run]

    The goroutine [Events] starts reads records, decodes them and sends the
    events on a channel of 1024 and the errors on a channel of 1; [Run]
    receives from both, from its timers and from the context.  The two
    goroutines, the context and the channels are one state, [fire] is one
    step of one of them, and an execution is any interleaving. *)
From S2P Require Import Prelude GoStrings GoPath GoTime Config World Event Scope Network Window.
From S2P Require Import Sha256 HashCache Blacklist Interface Agent.

(** What [reader.Read] returns; [closed] is [ErrClosed] of either library. *)
Inductive Read := ReadRecord (raw : list Z) | ReadErr (closed : bool).

(** Where the goroutine of [Events] is. *)
Inductive Producer :=
  | Starting | Reading | SendingEvent (ev : Event) | SendingErr | Returned.

Inductive PipeError := ErrReaderMissing | ErrReadFailed | ErrDecode (err : DecodeError).

Module Pipeline.
Record Pipeline := mkPipeline {
  hasReader : bool;
  (** what the reader will return *)
  input : list Read;
  pc : Producer; clock : option EventClock;
  (** the buffers of the two channels; both are closed when [pc] is [Returned] *)
  events : list Event; errs : option PipeError;
  (** the context was cancelled *)
  cancelled : bool;
  (** [Run] has set its [errs] to nil; what it received; what it returned *)
  errsNil : bool; received : list Signal; outcome : Outcome }.
#[export] Instance eta_Pipeline : Eta Pipeline := λ s,
  mkPipeline (hasReader s) (input s) (pc s) (clock s) (events s) (errs s) (cancelled s) (errsNil s)
    (received s) (outcome s).
End Pipeline.
Export (hints) Pipeline.
Abbreviation Pipeline := Pipeline.Pipeline.

(** The steps.  [n] is the query at which the decoder would read the clock. *)
Inductive Actor :=
  | Produce (n : nat)      (** the goroutine of [Events] goes on *)
  | ProduceDone            (** it takes the [ctx.Done()] case, or finds its reader closed *)
  | Cancel                 (** the context is cancelled *)
  | RunDone | RunErrs | RunEvents
  | RunTimer (i : Input).

Definition eventsCap : nat := 1024.

Section pipeline.
Context `{World} `{FloatSeconds} (native : ByteOrder).
Import Pipeline.

Definition start (hasReader : bool) (input : list Read) (clock : option EventClock) : Pipeline :=
  mkPipeline hasReader input Starting clock [] None false false [] Running.

(** A non-blocking send on [errs]. *)
Definition offerErr (e : PipeError) (s : Pipeline) : Pipeline :=
  match errs s with None => s <| errs := Some e |> | Some _ => s end.

(** One step of the goroutine of [Events]; [None]: it is blocked or has
    returned. *)
Definition produce (n : nat) (s : Pipeline) : option Pipeline :=
  match pc s with
  | Starting =>
      Some (if hasReader s then s <| pc := Reading |>
            else (offerErr ErrReaderMissing s) <| pc := Returned |>)
  | Reading =>
      match input s with
      | [] => None
      | ReadErr closed :: rest =>
          Some (s <| input := rest |> <| pc := if closed || cancelled s then Returned else SendingErr |>)
      | ReadRecord raw :: rest =>
          let s := s <| input := rest |> in
          let '(res, _, clock') := DecodeEvent native raw n (clock s) in
          let s := s <| clock := clock' |> in
          match res with
          | None => None
          | Some (inl err) => Some (offerErr (ErrDecode err) s)
          | Some (inr ev) => Some (s <| pc := SendingEvent ev |>)
          end
      end
  | SendingEvent ev =>
      if bool_decide (length (events s) < eventsCap)%nat
      then Some (s <| events ::= λ q, q ++ [ev] |> <| pc := Reading |>) else None
  | SendingErr =>
      match errs s with
      | None => Some (s <| errs := Some ErrReadFailed |> <| pc := Returned |>)
      | Some _ => None
      end
  | Returned => None
  end.
(** After [ctx.Done()] the reader is closed: a [Read] in progress fails, and
    the two blocking sends give up. *)
Definition produceDone (s : Pipeline) : option Pipeline :=
  match pc s with
  | Starting | Returned => None
  | _ => if cancelled s then Some (s <| pc := Returned |>) else None
  end.

Definition returned (s : Pipeline) : bool := match pc s with Returned => true | _ => false end.

(** The cases of the [select] of [Run]. *)
Definition receive (sig : Signal) (s : Pipeline) : Pipeline :=
  s <| received ::= λ l, l ++ [sig] |>
    <| outcome := match sig with
                  | SigDone | SigEventsClosed => Stopped
                  | SigErr false => Failed
                  | _ => Running
                  end |>.
Definition runErrs (s : Pipeline) : option Pipeline :=
  if errsNil s then None
  else
    match errs s with
    | Some _ => Some (receive (SigErr false) (s <| errs := None |>))
    | None => if returned s then Some (receive SigErrsClosed (s <| errsNil := true |>)) else None
    end.
Definition runEvents (s : Pipeline) : option Pipeline :=
  match events s with
  | ev :: q => Some (receive (SigInput (InEvent ev)) (s <| events := q |>))
  | [] => if returned s then Some (receive SigEventsClosed s) else None
  end.

Definition running (s : Pipeline) : bool := match outcome s with Running => true | _ => false end.
Definition is_timer (i : Input) : bool := match i with InEvent _ => false | _ => true end.

Definition fire (a : Actor) (s : Pipeline) : option Pipeline :=
  match a with
  | Produce n => produce n s
  | ProduceDone => produceDone s
  | Cancel => if cancelled s then None else Some (s <| cancelled := true |>)
  | RunDone => if running s && cancelled s then Some (receive SigDone s) else None
  | RunErrs => if running s then runErrs s else None
  | RunEvents => if running s then runEvents s else None
  | RunTimer i => if running s && is_timer i then Some (receive (SigInput i) s) else None
  end.
Definition can_step (s s' : Pipeline) : Prop := ∃ a, fire a s = Some s'.

(** An execution, for concrete schedules. *)
Fixpoint schedule (l : list Actor) (s : Pipeline) : option Pipeline :=
  match l with [] => Some s | a :: l => s ← fire a s; schedule l s end.
Lemma schedule_rtc l s s' : schedule l s = Some s' → rtc can_step s s'.
Proof.
  revert s. induction l as [|a l IH]; intros s; cbn; [intros [= ->]; constructor|].
  destruct (fire a s) as [s1|] eqn:Ha; cbn; [|done]. intros Hs. econstructor; [by exists a|by apply IH].
Qed.

(** ** Ordering *)

(** The events [Run] handled. *)
Definition handled (s : Pipeline) : list Event :=
  omap (λ sig, match sig with SigInput (InEvent ev) => Some ev | _ => None end) (received s).
(** The event the producer has decoded and not sent yet. *)
Definition in_hand (s : Pipeline) : list Event :=
  match pc s with SendingEvent ev => [ev] | _ => [] end.

Definition decodes_to (raw : list Z) (res : DecodeError + Event) : Prop :=
  ∃ n clock, result (DecodeEvent native raw) n clock = Some res.
Definition good (results : list (DecodeError + Event)) : list Event :=
  omap (λ r, match r with inr ev => Some ev | inl _ => None end) results.

(** The records read so far, what they decoded to, and where the events are. *)
Definition delivered (input0 : list Read) (raws : list (list Z)) (results : list (DecodeError + Event))
    (s : Pipeline) : Prop :=
  Forall2 decodes_to raws results
  ∧ (∃ errors, input0 = (ReadRecord <$> raws) ++ errors ++ input s
               ∧ (errors = [] ∨ (∃ closed, errors = [ReadErr closed]) ∧ (pc s = Returned ∨ pc s = SendingErr)))
  ∧ (∃ dropped, handled s ++ events s ++ in_hand s ++ dropped = good results ∧ (length dropped ≤ 1)%nat)
  ∧ (cancelled s = false ∨ pc s ≠ Returned → handled s ++ events s ++ in_hand s = good results)
  ∧ (length (events s) ≤ eventsCap)%nat.
(** An undecodable record was read and [Run] has not received an error yet. *)
Definition error_waits (results : list (DecodeError + Event)) (s : Pipeline) : Prop :=
  (errsNil s = true → pc s = Returned ∧ errs s = None)
  ∧ (∀ err, inl err ∈ results → outcome s = Running → errs s ≠ None).
Definition pipe_inv (input0 : list Read) (s : Pipeline) : Prop :=
  ∃ raws results, delivered input0 raws results s ∧ error_waits results s.

Lemma omap_snoc {A B} (f : A → option B) l x :
  omap f (l ++ [x]) = omap f l ++ match f x with Some y => [y] | None => [] end.
Proof. rewrite omap_app. cbn. by destruct (f x). Qed.

(** A step of [Run] that receives no event. *)
Lemma receive_inv input0 sig s :
  match sig with SigInput (InEvent _) => False | _ => True end →
  outcome s = Running → pipe_inv input0 s → pipe_inv input0 (receive sig s).
Proof.
  intros Hsig Hrun (raws & results & (HF & Hin & Hp & He & Hl) & Hn & Hw). exists raws, results.
  assert (handled (receive sig s) = handled s) as Hh.
  { unfold handled. cbn. rewrite omap_snoc. destruct sig as [[]| | | |]; try done; by rewrite app_nil_r. }
  split; [|split; [done|]].
  - unfold delivered. rewrite Hh. done.
  - intros err Herr _. by apply (Hw err).
Qed.

(** A step of the producer that handles no event: it may skip an error of the
    reader and report one to [Run]. *)
Lemma quiet_inv input0 s s' errors :
  pc s ≠ Returned → in_hand s = [] → in_hand s' = [] → input s = errors ++ input s' →
  (errors = [] ∧ (pc s ≠ SendingErr ∨ pc s' = Returned)
   ∨ (∃ closed, errors = [ReadErr closed]) ∧ pc s = Reading ∧ (pc s' = Returned ∨ pc s' = SendingErr)) →
  (events s', received s', outcome s', cancelled s', errsNil s')
    = (events s, received s, outcome s, cancelled s, errsNil s) →
  (errs s ≠ None → errs s' ≠ None) →
  pipe_inv input0 s → pipe_inv input0 s'.
Proof.
  intros Hpc Hh Hh' Hi Hpc' [= Hev Hr Ho Hc Hnil] He' (raws & results & (HF & (es & Hin & Herr) & Hp & He & Hl) & Hn & Hw).
  exists raws, results. unfold delivered, error_waits, handled in *. rewrite Hh', Hev, Hr, Ho, Hc, Hnil.
  rewrite Hh in He, Hp. split_and!; try done.
  - exists (es ++ errors). rewrite Hin, Hi, <- app_assoc. split; [done|].
    destruct Hpc' as [[-> Hs]|([c ->] & Hs & ?)].
    + rewrite app_nil_r. destruct Herr as [->|[? [?|?]]]; [by left|done|]. right. destruct Hs; [done|auto].
    + destruct Herr as [->|[_ [?|?]]]; [right; eauto|congruence..].
  - intros _. apply He. by right.
  - intros Hx. destruct (Hn Hx); done.
  - intros err Hx Hr'. by apply He', (Hw err).
Qed.
(** A record is read and decoded. *)
Lemma decode_inv input0 s raw rest res n :
  pc s = Reading → input s = ReadRecord raw :: rest →
  result (DecodeEvent native raw) n (clock s) = Some res →
  pipe_inv input0 s →
  let s' := s <| input := rest |> <| clock := after (DecodeEvent native raw) n (clock s) |> in
  pipe_inv input0 (match res with
                   | inl err => offerErr (ErrDecode err) s'
                   | inr ev => s' <| pc := SendingEvent ev |>
                   end).
Proof.
  intros Hpc Hi Hres (raws & results & (HF & (es & Hin & Herr) & Hp & He & Hl) & Hn & Hw) s'.
  assert (es = []) as -> by (destruct Herr as [?|[_ [?|?]]]; congruence).
  assert (pc s ≠ Returned) as Hnr by congruence. specialize (He (or_intror Hnr)).
  exists (raws ++ [raw]), (results ++ [res]).
  assert (errsNil s = false) as Hnil.
  { destruct (errsNil s); [|done]. destruct Hn as [Hn _]; [done|]. congruence. }
  assert (Forall2 decodes_to (raws ++ [raw]) (results ++ [res])) as HF'.
  { apply Forall2_app; [done|]. repeat constructor. by exists n, (clock s). }
  assert (input0 = (ReadRecord <$> raws ++ [raw]) ++ [] ++ rest) as Hin'.
  { rewrite Hin, Hi, fmap_app, <- app_assoc. done. }
  assert (good (results ++ [res]) = good results ++ match res with inr ev => [ev] | inl _ => [] end) as Hg.
  { unfold good. rewrite omap_snoc. by destruct res. }
  unfold in_hand in He. rewrite Hpc in He. rewrite app_nil_r in He.
  destruct res as [err|ev]; unfold offerErr; cbn [errs].
  - assert (∀ s1, (events s1, received s1, input s1, pc s1, errsNil s1) = (events s, received s, rest, Reading, false) →
      errs s1 ≠ None → delivered input0 (raws ++ [raw]) (results ++ [inl err]) s1
                       ∧ error_waits (results ++ [inl err]) s1) as Hgen.
    { intros s1 [= E1 E2 E3 E4 E5] Hs1.
      unfold delivered, error_waits, handled, in_hand in *. rewrite E1, E2, E3, E4, E5, Hg, !app_nil_r.
      split_and!; try done; [by exists []; eauto|exists []; rewrite ?app_nil_r; split; [done|cbn; lia]]. }
    destruct (errs s) eqn:Hes; cbn; rewrite Hes; apply Hgen; cbn; congruence.
  - unfold delivered, error_waits, handled, in_hand in *. cbn. rewrite Hg, Hnil.
    split_and!; try done; [by exists []; eauto| | |].
    + exists []. cbn [app]. rewrite app_assoc, He. split; [done|cbn; lia].
    + intros _. by rewrite app_assoc, He.
    + intros err [Hx|Hx]%elem_of_app; [by apply (Hw err)|]. set_solver.
Qed.
Lemma push_inv input0 s ev :
  pc s = SendingEvent ev → (length (events s) < eventsCap)%nat → pipe_inv input0 s →
  pipe_inv input0 (s <| events ::= λ q, q ++ [ev] |> <| pc := Reading |>).
Proof.
  intros Hpc Hlen (raws & results & (HF & (es & Hin & Herr) & Hp & He & Hl) & Hn & Hw).
  assert (es = []) as -> by (destruct Herr as [?|[_ [?|?]]]; congruence).
  assert (pc s ≠ Returned) as Hnr by congruence. specialize (He (or_intror Hnr)).
  exists raws, results. unfold delivered, error_waits, handled, in_hand in *. rewrite Hpc in He. cbn.
  rewrite app_nil_r, He. split_and!; try done.
  - exists []. auto.
  - exists []. rewrite ?app_nil_r, <- ?app_assoc. split; [exact He|cbn; lia].
  - rewrite length_app. cbn. lia.
  - intros Hx. destruct (Hn Hx). congruence.
Qed.
Lemma abandon_inv input0 s :
  cancelled s = true → pc s ≠ Returned → pipe_inv input0 s → pipe_inv input0 (s <| pc := Returned |>).
Proof.
  intros Hc Hpc (raws & results & (HF & (es & Hin & Herr) & Hp & He & Hl) & Hn & Hw).
  exists raws, results. unfold delivered, error_waits, handled, in_hand in *. cbn. split_and!; try done.
  - exists es. split; [done|]. destruct Herr as [?|[? _]]; auto.
  - specialize (He (or_intror Hpc)). exists (match pc s with SendingEvent ev => [ev] | _ => [] end).
    split; [done|]. destruct (pc s); cbn; lia.
  - intros [?|?]; [congruence|done].
  - intros Hx. destruct (Hn Hx). done.
Qed.

Lemma produce_inv input0 n s s' : pipe_inv input0 s → produce n s = Some s' → pipe_inv input0 s'.
Proof.
  intros Hinv. unfold produce. destruct (pc s) eqn:Hpc; [| | | |done].
  - intros [= <-]. destruct (hasReader s).
    + apply (quiet_inv input0 s _ []); try done; unfold in_hand; rewrite ?Hpc; naive_solver.
    + unfold offerErr.
      destruct (errs s) eqn:Hes; apply (quiet_inv input0 s _ []); try done; unfold in_hand; cbn; rewrite ?Hpc, ?Hes; naive_solver.
  - destruct (input s) as [|[raw|closed] rest] eqn:Hi; [done| |].
    + pose proof (λ res H, decode_inv input0 s raw rest res n Hpc Hi H Hinv) as Hd. unfold result, after in Hd.
      cbn [clock set]. change (clock (s <| input := rest |>)) with (clock s).
      destruct (DecodeEvent native raw n (clock s)) as [[[res|] n'] c']; [|done].
      specialize (Hd res eq_refl). cbn [fst snd] in Hd. by destruct res; intros [= <-].
    + intros [= <-]. apply (quiet_inv input0 s _ [ReadErr closed]); try done; unfold in_hand; cbn; rewrite ?Hpc;
        destruct (closed || cancelled s); naive_solver.
  - case_bool_decide; [|done]. intros [= <-]. by apply push_inv.
  - destruct (errs s) eqn:Hes; [done|]. intros [= <-].
    apply (quiet_inv input0 s _ []); try done; unfold in_hand; rewrite ?Hpc; naive_solver.
Qed.

Lemma runErrs_inv input0 s s' :
  outcome s = Running → pipe_inv input0 s → runErrs s = Some s' → pipe_inv input0 s'.
Proof.
  intros Hrun (raws & results & (HF & Hin & Hp & He & Hl) & Hn & Hw). unfold runErrs.
  destruct (errsNil s) eqn:Hnil; [done|]. destruct (errs s) as [e|] eqn:Hes.
  - intros [= <-]. exists raws, results. set (s1 := receive _ _).
    assert (handled s1 = handled s) as Hh by (unfold handled, s1; cbn; by rewrite omap_snoc, app_nil_r).
    split; [unfold delivered; by rewrite Hh|]. split; [cbn; congruence|done].
  - destruct (returned s) eqn:Hret; [|done]. intros [= <-]. apply receive_inv; [done|done|].
    assert (pc s = Returned) as Hpc by (unfold returned in Hret; by destruct (pc s)).
    exists raws, results. split; [exact (conj HF (conj Hin (conj Hp (conj He Hl))))|]. split; [done|]. intros err Hx _. by destruct (Hw err Hx Hrun).
Qed.
Lemma runEvents_inv input0 s s' :
  outcome s = Running → pipe_inv input0 s → runEvents s = Some s' → pipe_inv input0 s'.
Proof.
  intros Hrun Hinv. unfold runEvents. destruct (events s) as [|ev q] eqn:Hev.
  { destruct (returned s); [|done]. intros [= <-]. by apply receive_inv. }
  intros [= <-]. destruct Hinv as (raws & results & (HF & Hin & Hp & He & Hl) & Hn & Hw).
  exists raws, results. set (s1 := receive _ _).
  assert (handled s1 = handled s ++ [ev]) as Hh by (unfold handled, s1; cbn; by rewrite omap_snoc).
  split; [|split; [done|intros err Hx _; by apply (Hw err)]].
  unfold delivered. rewrite Hh, <- !app_assoc. change (events s1) with q. cbn [app].
  change (ev :: q ++ in_hand s1) with ((ev :: q) ++ in_hand s). rewrite <- Hev. split_and!; try done.
  - destruct Hp as (dropped & Hd & ?). exists dropped. split; [|done]. rewrite <- Hd, Hev, <- !app_assoc. done.
  - rewrite Hev in Hl. cbn in Hl. lia.
Qed.
Lemma fire_inv input0 a s s' : pipe_inv input0 s → fire a s = Some s' → pipe_inv input0 s'.
Proof.
  intros Hinv. destruct a; cbn [fire]; unfold running.
  - by apply produce_inv.
  - unfold produceDone. destruct (pc s) eqn:Hpc; try done; destruct (cancelled s) eqn:Hc; try done;
      intros [= <-]; apply abandon_inv; rewrite ?Hpc; done.
  - destruct (cancelled s) eqn:Hc; [done|]. intros [= <-].
    destruct Hinv as (raws & results & (HF & Hin & Hp & He & Hl) & Hn & Hw). exists raws, results.
    split; [|done]. split_and!; try done. intros _. apply He. by left.
  - destruct (outcome s) eqn:Ho; cbn [andb]; try done. destruct (cancelled s); [|done]. intros [= <-]. by apply receive_inv.
  - destruct (outcome s) eqn:Ho; try done. by apply runErrs_inv.
  - destruct (outcome s) eqn:Ho; try done. by apply runEvents_inv.
  - destruct (outcome s) eqn:Ho; cbn [andb]; try done. destruct (is_timer i) eqn:Hi; [|done]. intros [= <-].
    apply receive_inv; [by destruct i|done|done].
Qed.
Lemma reachable_inv input0 b c s : rtc can_step (start b input0 c) s → pipe_inv input0 s.
Proof.
  revert s. apply rtc_ind_r.
  - exists [], []. split; [split_and!; cbn; try done; [by exists []; auto|exists []; cbn; by split; [|lia]|lia]|]. split; [done|]. intros err. set_solver.
  - intros s1 s2 _ [a Ha] Hinv. by eapply fire_inv.
Qed.

(** C12: Events reach [Run] in the order of the records, and none is lost on the
    way.  At every moment of every interleaving what was taken from the reader
    is a sequence of records and at most one error of the reader, after which
    the goroutine returns; the events handled, those in the channel and the one
    being sent are, in order, exactly the events those records decode to.  Only
    a goroutine that returned because the context was cancelled may have
    dropped an event, and then one, the last.  The channel never holds more
    than its capacity. *)
Theorem pipeline_in_order hasReader input0 c s :
  rtc can_step (start hasReader input0 c) s →
  ∃ raws results errors dropped,
    input0 = (ReadRecord <$> raws) ++ errors ++ input s
    ∧ (errors = [] ∨ (∃ closed, errors = [ReadErr closed]) ∧ (pc s = Returned ∨ pc s = SendingErr))
    ∧ Forall2 decodes_to raws results
    ∧ handled s ++ events s ++ in_hand s ++ dropped = good results
    ∧ (length dropped ≤ 1)%nat ∧ (cancelled s = false ∨ pc s ≠ Returned → dropped = [])
    ∧ (length (events s) ≤ eventsCap)%nat.
Proof.
  intros (raws & results & (HF & (es & Hin & Hes) & (dropped & Hd & Hlen) & He & Hl) & _)%reachable_inv.
  exists raws, results, es, dropped. split_and!; try done. intros Hc%He.
  rewrite <- Hc in Hd. apply (f_equal length) in Hd. rewrite !length_app in Hd. destruct dropped; [done|cbn in Hd; lia].
Qed.

(** An error that waits in the channel is only taken by [Run], which then
    has returned. *)
Definition doomed (s : Pipeline) : Prop := outcome s = Running → errs s ≠ None ∧ errsNil s = false.
Lemma doomed_mono s s' :
  (errs s ≠ None → errs s' ≠ None) → errsNil s' = errsNil s → (outcome s' = Running → outcome s = Running) →
  doomed s → doomed s'.
Proof. unfold doomed. intros He -> Ho Hd Hr. destruct (Hd (Ho Hr)). auto. Qed.
Lemma offerErr_full e s : errs (offerErr e s) ≠ None.
Proof. unfold offerErr. by destruct (errs s) eqn:He; rewrite ?He. Qed.
Lemma fire_doomed a s s' : doomed s → fire a s = Some s' → doomed s'.
Proof.
  intros Hd. destruct a; cbn [fire]; unfold running.
  - unfold produce. destruct (pc s); [| | | |done].
    + intros [= <-]. revert Hd. destruct (hasReader s); [by apply doomed_mono|].
      apply doomed_mono; [intros _; apply offerErr_full| |]; unfold offerErr; by destruct (errs s).
    + destruct (input s) as [|[raw|closed] rest]; [done| |intros [= <-]; revert Hd; by apply doomed_mono].
      destruct (DecodeEvent _ _ _ _) as [[[[err|ev]|] n'] c']; [| |done]; intros [= <-]; revert Hd;
        apply doomed_mono; try done; unfold offerErr; cbn; by destruct (errs s) eqn:He; rewrite ?He.
    + case_bool_decide; [|done]. intros [= <-]. revert Hd. by apply doomed_mono.
    + destruct (errs s) eqn:He; [done|]. intros [= <-]. revert Hd. by apply doomed_mono.
  - unfold produceDone. destruct (pc s); try done; destruct (cancelled s); try done;
      intros [= <-]; revert Hd; by apply doomed_mono.
  - destruct (cancelled s); [done|]. by intros [= <-].
  - destruct (outcome s) eqn:Ho; cbn [andb]; try done. destruct (cancelled s); [|done]. by intros [= <-].
  - destruct (outcome s) eqn:Ho; try done. unfold runErrs. destruct (Hd Ho) as [He ->].
    destruct (errs s); [|done]. by intros [= <-].
  - destruct (outcome s) eqn:Ho; try done. unfold runEvents. destruct (events s) as [|ev q].
    + destruct (returned s); [|done]. by intros [= <-].
    + intros [= <-]. revert Hd. by apply doomed_mono.
  - destruct (outcome s) eqn:Ho; cbn [andb]; try done. destruct (is_timer i); [|done]. intros [= <-].
    revert Hd. by apply doomed_mono.
Qed.

(** C36: One record that does not decode ends the agent.  The producer goes on to
    the next record, but until [Run] has returned the error waits in its
    channel, and receiving it makes [Run] fail. *)
Theorem undecodable_record_stops_agent hasReader input0 c s s1 raw n err :
  rtc can_step (start hasReader input0 c) s → pc s = Reading →
  head (input s) = Some (ReadRecord raw) →
  result (DecodeEvent native raw) n (clock s) = Some (inl err) →
  fire (Produce n) s = Some s1 →
  pc s1 = Reading ∧ ∀ s2, rtc can_step s1 s2 → outcome s2 = Running →
    ∃ s3, fire RunErrs s2 = Some s3 ∧ outcome s3 = Failed.
Proof.
  intros Hr%reachable_inv Hpc Hi Hd. cbn [fire]. unfold produce. rewrite Hpc.
  destruct (input s) as [|r rest]; [done|]. injection Hi as ->. cbv zeta.
  change (clock (s <| input := rest |>)) with (clock s). unfold result in Hd.
  destruct (DecodeEvent native raw n (clock s)) as [[res n'] c']. cbn in Hd. subst res.
  set (s0 := s <| input := rest |> <| clock := c' |>). intros Hs1%Some_inj. subst s1.
  split; [unfold offerErr; by destruct (errs s0)|].
  assert (errsNil s = false) as Hnil.
  { destruct Hr as (? & ? & _ & Hn & _). destruct (errsNil s); [|done]. destruct Hn; [done|]. congruence. }
  assert (doomed (offerErr (ErrDecode err) s0)) as H0.
  { intros _. split; [apply offerErr_full|]. unfold offerErr. by destruct (errs s0). }
  intros s2 H2 Hrun. assert (doomed s2) as Hd2.
  { clear Hrun. revert s2 H2. apply rtc_ind_r; [done|]. intros x y _ [a Ha] Hx. by eapply fire_doomed. }
  cbn [fire]. unfold running. rewrite Hrun. unfold runErrs. destruct (Hd2 Hrun) as [He ->].
  destruct (errs s2); [|done]. by eexists.
Qed.

(** ** Termination *)
Definition weight (s : Pipeline) : nat :=
  3 * length (input s) + length (events s)
  + match pc s with Starting | SendingErr => 2 | Reading => 1 | SendingEvent _ => 3 | Returned => 0 end
  + (if errsNil s then 0 else 1) + (if running s then 1 else 0) + (if cancelled s then 0 else 1).
Definition ending (sig : Signal) : nat :=
  match sig with SigDone | SigEventsClosed | SigErr false => 1 | _ => 0 end.
Definition timer (a : Actor) : bool := match a with RunTimer _ => true | _ => false end.

Lemma weight_offerErr e s : weight (offerErr e s) = weight s.
Proof. unfold offerErr. by destruct (errs s). Qed.
(** Receiving something that keeps [Run] running costs nothing, the rest one. *)
Lemma weight_receive sig s :
  outcome s = Running →
  weight s = (weight (receive sig s) + ending sig)%nat.
Proof.
  intros Ho. unfold weight, running, receive, ending. rewrite Ho. cbn. destruct sig as [| | |[]|]; cbn; lia.
Qed.
Lemma produce_weight n s s' : produce n s = Some s' → (weight s' < weight s)%nat.
Proof.
  unfold produce. destruct (pc s) eqn:Hpc; [| | | |done].
  - intros <-%Some_inj. destruct (hasReader s).
    + unfold weight, running. cbn. rewrite Hpc. lia.
    + unfold weight, running, offerErr. destruct (errs s); cbn; rewrite Hpc; lia.
  - destruct (input s) as [|[raw|closed] rest] eqn:Hi; [done| |].
    + destruct (DecodeEvent _ _ _ _) as [[[[err|ev]|] n'] c']; [| |done]; intros <-%Some_inj;
        rewrite ?weight_offerErr; unfold weight, running; cbn; rewrite Hpc, Hi; cbn; lia.
    + intros <-%Some_inj. unfold weight, running. cbn. rewrite Hpc, Hi. cbn. destruct (_ || _); lia.
  - case_bool_decide; [|done]. intros <-%Some_inj. unfold weight, running. cbn. rewrite Hpc, length_app. cbn. lia.
  - destruct (errs s); [done|]. intros <-%Some_inj. unfold weight, running. cbn. rewrite Hpc. lia.
Qed.
Lemma fire_weight a s s' : timer a = false → fire a s = Some s' → (weight s' < weight s)%nat.
Proof.
  destruct a; cbn [fire timer]; intros Ht; [| | | | | |done].
  - apply produce_weight.
  - unfold produceDone. destruct (pc s) eqn:Hpc; try done; destruct (cancelled s) eqn:Hc; try done; intros <-%Some_inj;
      unfold weight, running; cbn; rewrite Hpc; lia.
  - destruct (cancelled s) eqn:Hc; [done|]. intros <-%Some_inj. unfold weight, running. cbn. rewrite Hc. lia.
  - unfold running. destruct (outcome s) eqn:Ho; cbn [andb]; try done. destruct (cancelled s); [|done].
    intros <-%Some_inj. rewrite (weight_receive SigDone s Ho). cbn [ending]. lia.
  - unfold running. destruct (outcome s) eqn:Ho; try done. unfold runErrs. destruct (errsNil s) eqn:Hn; [done|].
    destruct (errs s); [|destruct (returned s); [|done]]; intros <-%Some_inj.
    + pose proof (weight_receive (SigErr false) (s <| errs := None |>) Ho) as Hw.
      change (weight (s <| errs := None |>)) with (weight s) in Hw. cbn [ending] in Hw. lia.
    + pose proof (weight_receive SigErrsClosed (s <| errsNil := true |>) Ho) as Hw.
      assert (weight s = S (weight (s <| errsNil := true |>))) by (unfold weight, running; cbn; rewrite Hn; lia). lia.
  - unfold running. destruct (outcome s) eqn:Ho; try done. unfold runEvents. destruct (events s) as [|ev q] eqn:Hev.
    + destruct (returned s); [|done]. intros <-%Some_inj. rewrite (weight_receive SigEventsClosed s Ho). cbn [ending]. lia.
    + intros <-%Some_inj. pose proof (weight_receive (SigInput (InEvent ev)) (s <| events := q |>) Ho) as Hw.
      assert (weight s = S (weight (s <| events := q |>))) by (unfold weight, running; cbn; rewrite Hev; cbn; lia). lia.
Qed.
Lemma fire_cancelled a s s' : cancelled s = true → fire a s = Some s' → cancelled s' = true.
Proof.
  intros Hc. destruct a; cbn [fire].
  - unfold produce, offerErr. repeat case_match; intros ?; simplify_eq/=; done.
  - unfold produceDone. repeat case_match; intros ?; simplify_eq/=; done.
  - by rewrite Hc.
  - destruct (_ && _); [|done]. by intros <-%Some_inj.
  - destruct (running s); [|done]. unfold runErrs. repeat case_match; intros ?; simplify_eq/=; done.
  - destruct (running s); [|done]. unfold runEvents. repeat case_match; intros ?; simplify_eq/=; done.
  - destruct (_ && _); [|done]. by intros <-%Some_inj.
Qed.

(** C19: Cancelling the context ends both goroutines: from then on every
    interleaving is finite but for the timers, bounded by what is left to read
    and to handle, and it cannot get stuck before the producer and [Run] have
    both returned. *)
Theorem cancel_ends_both l s s' :
  cancelled s = true → schedule l s = Some s' →
  (length (List.filter (λ a, negb (timer a)) l) ≤ weight s)%nat
  ∧ ((∀ a, timer a = false → fire a s' = None) → pc s' = Returned ∧ outcome s' ≠ Running).
Proof.
  intros Hc Hs. assert (cancelled s' = true ∧
    (length (List.filter (λ a, negb (timer a)) l) + weight s' ≤ weight s)%nat) as [Hc' Hl].
  { revert s Hc Hs. induction l as [|a l IH]; intros s Hc; cbn [schedule List.filter length].
    { intros [= ->]. split; [done|lia]. }
    destruct (fire a s) as [s1|] eqn:Ha; [|done]. intros Hs.
    destruct (IH s1 (fire_cancelled a s s1 Hc Ha) Hs) as [? Hle]. split; [done|].
    destruct (timer a) eqn:Ht; cbn [negb length].
    - destruct a; try done. cbn [fire] in Ha. unfold running in Ha. destruct (outcome s) eqn:Ho; cbn [andb] in Ha; try done.
      destruct (is_timer i); [|done]. apply Some_inj in Ha as <-. rewrite (weight_receive (SigInput i) s Ho). cbn [ending]. lia.
    - pose proof (fire_weight a s s1 Ht Ha). lia. }
  split; [lia|]. intros Hstuck. split.
  - pose proof (Hstuck (Produce 0) eq_refl) as Hp. pose proof (Hstuck ProduceDone eq_refl) as Hd.
    cbn in Hp, Hd. unfold produce in Hp. unfold produceDone in Hd. rewrite Hc' in Hd. by destruct (pc s').
  - intros Ho. pose proof (Hstuck RunDone eq_refl) as Hd. cbn in Hd. unfold running in Hd. by rewrite Ho, Hc' in Hd.
Qed.
End pipeline.

(** ** The agent's loop *)
Section agent.
Context `{World} `{FloatSeconds} (native : ByteOrder).
Context `{Unicode} `{NetIP} `{SensorOps K}.
Context (p : Policy) (options : Options) (procReader : option (Z → nat → option procInfo)).
Import Pipeline.

Lemma runLoop_snoc l sig n (a : Agent K) :
  result (runLoop p options procReader l) n a = Running →
  result (runLoop p options procReader (l ++ [sig])) n a =
    match sig with SigDone | SigEventsClosed => Stopped | SigErr false => Failed | _ => Running end.
Proof.
  revert n a. induction l as [|x l IH]; intros n a; unfold result; cbn [app runLoop].
  - intros _. destruct sig as [i| | |[]|]; try done. unfold mbind, M_bind.
    by destruct (step p options procReader i n a) as [[[] n'] a'].
  - destruct x as [i| | |[]|]; try done; [|apply IH|apply IH].
    unfold mbind, M_bind. destruct (step p options procReader i n a) as [[[] n'] a']. apply IH.
Qed.
(** The select loop of the pipeline is the loop of Agent.v: on the signals
    received, [runLoop] returns what the pipeline's [Run] returned, and has
    handled exactly the events and timers received, in their order. *)
Theorem pipeline_refines_runLoop hasReader input0 c s n (a : Agent K) :
  rtc (can_step native) (start hasReader input0 c) s →
  result (runLoop p options procReader (received s)) n a = outcome s.
Proof.
  revert s. apply rtc_ind_r; [done|]. intros s s' _ [act Hact] IH.
  assert (∀ sig x, received x = received s → outcome s = Running →
    result (runLoop p options procReader (received (receive sig x))) n a = outcome (receive sig x)) as Hrec.
  { intros sig x Hx Ho. cbn. rewrite Hx. apply runLoop_snoc. congruence. }
  assert (∀ m, received m = received s → outcome m = outcome s →
    result (runLoop p options procReader (received m)) n a = outcome m) as Hsame by (by intros m -> ->).
  destruct act; cbn [fire] in Hact; unfold running in Hact.
  - apply Hsame; revert Hact; unfold produce, offerErr; repeat case_match; intros ?; simplify_eq/=; done.
  - apply Hsame; revert Hact; unfold produceDone; repeat case_match; intros ?; simplify_eq/=; done.
  - destruct (cancelled s); [done|]. apply Some_inj in Hact as <-. by apply Hsame.
  - destruct (outcome s) eqn:Ho; cbn [andb] in Hact; try done. destruct (cancelled s); [|done].
    apply Some_inj in Hact as <-. by apply Hrec.
  - destruct (outcome s) eqn:Ho; try done. unfold runErrs in Hact. destruct (errsNil s); [done|].
    destruct (errs s); [|destruct (returned s); [|done]]; apply Some_inj in Hact as <-; by apply Hrec.
  - destruct (outcome s) eqn:Ho; try done. unfold runEvents in Hact.
    destruct (events s); [destruct (returned s); [|done]|]; apply Some_inj in Hact as <-; by apply Hrec.
  - destruct (outcome s) eqn:Ho; cbn [andb] in Hact; try done. destruct (is_timer i); [|done].
    apply Some_inj in Hact as <-. by apply Hrec.
Qed.
End agent.
