(* ===== verification/EndToEnd.v ===== *)
(** * From a record of the kernel to an alert

    The theorems about the decoder (Event.v), the event channel (Pipeline.v)
    and the agent (AgentProps.v) put together: a record that shows an
    indicator and has passed through the pipeline is alerted on. *)
From S2P Require Import Prelude GoStrings GoPath GoTime Config World Event Scope Network Window.
From S2P Require Import WindowTheory Sha256 HashCache Blacklist Interface Agent AgentTheory.
From S2P Require Import AgentSafety AgentInv AgentProps Pipeline.

Import Agent.

(** ** What the agent never takes back *)
Section logged.
Context `{Unicode} `{World} `{NetIP} `{SensorLaws K}.
Context (p : Policy) (options : Options) (procReader : option (Z → nat → option procInfo)).

Definition own_entries (a : Agent K) : Prop := ∀ tgid, own_entry a tgid.
Lemma own_proc_stable (T : Z → Prop) :
  (∀ t, t ≠ 0 → T t) → (∀ n, T (time_Now n)) →
  ProcStable (K := K) p (λ tgid st, procState.TGID st = tgid) (λ _, True) T.
Proof.
  intros HT Hnow. split; try done.
  - intros a ev t _ Hst. by apply stateOf_TGID.
  - intros i st t <-. apply TGID_prune.
  - intros i fd st ev sc reason _ _ <-. apply TGID_recordScored.
Qed.

(** Every entry is its own, and the alerts [l] have been logged. *)
Definition logged (l : list alert) (a : Agent K) : Prop := own_entries a ∧ l `prefix_of` alerts a.
Lemma logged_frame l a a' :
  procs a' = procs a → alerts a' = alerts a → logged l a → logged l a'.
Proof. intros Hp Ha [Ho Hl]. split; [|by rewrite Ha]. intros tgid. unfold own_entry. rewrite Hp. apply Ho. Qed.
Ltac logged_same :=
  intros; match goal with Hi : logged ?l ?a |- _ => refine (logged_frame l a _ _ _ Hi); reflexivity end.
Ltac logged_step :=
  intros; unfold putInfo, enqueueHash, rememberBlocked, countMetrics, logMetrics, now;
  keeps_auto; apply keeps_mod; intros; first [logged_same | case_match; logged_same].
Lemma alert_logged l al : keeps (logged l) (logAlert al).
Proof. apply keeps_mod. intros a [Ho Hl]. split; [exact Ho|]. cbn. by apply prefix_app_r. Qed.
Lemma emit_logged l st action dry : keeps (logged l) (emitAlert p st action dry).
Proof. unfold emitAlert. pose proof (alert_logged l). keeps_auto. Qed.
Lemma enforce_logged l tgid action reason : keeps (logged l) (enforceTGID p options tgid action reason).
Proof. apply keeps_enforce; logged_same. Qed.
Lemma count_logged l f : keeps (logged l) (countMetrics f).
Proof. logged_step. Qed.
#[local] Hint Resolve alert_logged emit_logged enforce_logged count_logged : go.
#[local] Instance logged_fd l : FreeFD (logged l).
Proof. intros f. logged_step. Qed.
#[local] Instance logged_stable l :
  Stable p options (λ _ _, True) (λ tgid st, procState.TGID st = tgid) (logged l).
Proof.
  split; [split|..]; try (logged_step; fail).
  - intros a tgid st [Ho _]. apply Ho.
  - intros tgid st Hst. apply keeps_mod. intros a [Ho Hl]. split; [|done]. intros t st'. cbn.
    destruct (decide (t = tgid)) as [->|]; [rewrite lookup_insert_eq; congruence|].
    rewrite lookup_insert_ne by done. apply Ho.
  - intros. apply touchFD_free, _.
  - intros path. apply keeps_zoom_hashes. logged_same.
  - intros path. apply keeps_zoom_hashes. logged_same.
  - apply keeps_reload. logged_same.
  - intros. unfold alertAndEnforce. keeps_auto.
  - intros. unfold enforceBlacklist, now. keeps_auto.
  - intros. unfold lineageKill, blockedLineage, isBlocked. keeps_auto; logged_step.
  - intros t. apply keeps_mod. intros a [Ho Hl]. split; [|done]. intros k st [Hk _]%map_lookup_filter_Some. by apply Ho.
  - apply keeps_drops; logged_same.
Qed.
Lemma runLoop_logged l signals : keeps (logged l) (runLoop p options procReader signals).
Proof.
  assert (ProcStable (K := K) p (λ tgid st, procState.TGID st = tgid) (λ _, True) (λ _, True))
    by by apply own_proc_stable.
  apply (runLoop_keeps p options procReader (λ tgid st, procState.TGID st = tgid) (λ _, True) (λ _, True) (λ _ _, True)).
  - apply logged_stable.
  - apply logged_fd.
  - apply Forall_true. by intros [[] | | | |].
Qed.
End logged.

(** ** The signals [Run] received *)
Section received.
Context `{World} `{FloatSeconds} (native : ByteOrder).
Import Pipeline.

(** Only the last signal may end [Run]. *)
Definition one_ending (s : Pipeline) : Prop :=
  ∃ l last, received s = l ++ last ∧ Forall (λ sig, ending sig = 0%nat) l
    ∧ Forall (λ sig, ending sig = 1%nat) last ∧ (outcome s = Running → last = []).
Lemma receive_one_ending sig s : outcome s = Running → one_ending s → one_ending (receive sig s).
Proof.
  intros Ho (l & last & Hr & Hl & _ & Hlast). rewrite (Hlast Ho), app_nil_r in Hr.
  destruct (ending sig) as [|[|k]] eqn:He.
  - exists (l ++ [sig]), []. cbn. rewrite Hr, app_nil_r. split_and!; [done| |constructor|done].
    apply Forall_app. split; [done|]. by constructor.
  - exists l, [sig]. cbn. rewrite Hr. split_and!; [done|done|by repeat constructor|].
    by destruct sig as [| | |[]|].
  - by destruct sig as [| | |[]|].
Qed.
Lemma same_one_ending s s' : received s' = received s → outcome s' = outcome s → one_ending s → one_ending s'.
Proof. unfold one_ending. by intros -> ->. Qed.
Lemma fire_one_ending a s s' : one_ending s → fire native a s = Some s' → one_ending s'.
Proof.
  intros Hs. destruct a; cbn [fire]; unfold running.
  - intros Hp. refine (same_one_ending s s' _ _ Hs);
      revert Hp; unfold produce, offerErr; repeat case_match; intros ?; simplify_eq/=; done.
  - intros Hp. refine (same_one_ending s s' _ _ Hs);
      revert Hp; unfold produceDone; repeat case_match; intros ?; simplify_eq/=; done.
  - destruct (cancelled s); [done|]. by intros <-%Some_inj.
  - destruct (outcome s) eqn:Ho; cbn [andb]; try done. destruct (cancelled s); [|done].
    intros <-%Some_inj. by apply receive_one_ending.
  - destruct (outcome s) eqn:Ho; try done. unfold runErrs. destruct (errsNil s); [done|].
    destruct (errs s); [|destruct (returned s); [|done]]; intros <-%Some_inj; by apply receive_one_ending.
  - destruct (outcome s) eqn:Ho; try done. unfold runEvents.
    destruct (events s); [destruct (returned s); [|done]|]; intros <-%Some_inj; by apply receive_one_ending.
  - destruct (outcome s) eqn:Ho; cbn [andb]; try done. destruct (is_timer i); [|done].
    intros <-%Some_inj. by apply receive_one_ending.
Qed.
Lemma reachable_one_ending hasReader input0 c s :
  rtc (can_step native) (start hasReader input0 c) s → one_ending s.
Proof.
  revert s. apply rtc_ind_r.
  - exists [], []. by split_and!.
  - intros s1 s2 _ [a Ha] Hs. by eapply fire_one_ending.
Qed.
(** An event [Run] received came after signals that did not end it. *)
Lemma received_event hasReader input0 c s ev :
  rtc (can_step native) (start hasReader input0 c) s → ev ∈ handled s →
  ∃ l r, received s = l ++ SigInput (InEvent ev) :: r ∧ Forall (λ sig, ending sig = 0%nat) l.
Proof.
  intros (l & last & Hrec & Hl & Hlast & _)%reachable_one_ending. unfold handled. rewrite Hrec.
  intros (sig & Hin & Hev)%list_elem_of_omap. assert (sig = SigInput (InEvent ev)) as -> by (by destruct sig as [[]| | | |]; simplify_eq).
  apply elem_of_app in Hin as [Hin|Hin].
  - apply list_elem_of_split in Hin as (l1 & l2 & ->). exists l1, (l2 ++ last).
    rewrite <- app_assoc. split; [done|]. by apply Forall_app in Hl as [? _].
  - rewrite Forall_forall in Hlast. by specialize (Hlast _ Hin).
Qed.
End received.

(** ** Detection *)
Section detection.
Context `{Unicode} `{World} `{!ClockLaws} `{FloatSeconds} `{NetIP} `{SensorLaws K}.
Context (native : ByteOrder).
Context (p : Policy) (options : Options) (procReader : option (Z → nat → option procInfo)).
Import Pipeline.

(** Signals that do not end [Run], then the rest. *)
Lemma runLoop_app l r n (a : Agent K) :
  Forall (λ sig, ending sig = 0%nat) l →
  runLoop p options procReader (l ++ r) n a =
  let '(_, n', a') := runLoop p options procReader l n a in runLoop p options procReader r n' a'.
Proof.
  intros Hl. revert n a. induction Hl as [|sig l Hs _ IH]; intros n a; cbn [app runLoop]; [done|].
  destruct sig as [i| | |[]|]; try done.
  unfold mbind, M_bind. destruct (step p options procReader i n a) as [[[] n'] a']. apply IH.
Qed.

(** A write-open or rename that shows an indicator, by a process whose name is
    not trusted, under a policy that is not limited to cgroups.  The time of
    the event does not matter. *)
Record file_indicator (e : Event) (reason : string) : Prop := {
  fi_type : Event.Type_ e = EventRename ∨ Event.Type_ e = EventOpen ∧ IsAbs (Event.Path e) = true;
  fi_phase : Event.Phase e ≠ PhaseFailure;
  fi_cgroup : hasConfiguredPaths (Policy.CgroupPaths p) = false;
  fi_untrusted : trustedComm p (Event.Comm e) = false;
  fi_ioc : indicator p e reason }.
Lemma indicator_plain e reason t :
  file_indicator e reason → t ≠ 0 → plain_file_event p (e <| Event.Timestamp := t |>).
Proof. intros [] Ht. by split. Qed.

(** [handle] gives an event without a time the current one. *)
Lemma handle_untimed ev n (a : Agent K) :
  Event.Timestamp ev = 0 →
  after (handle p options procReader ev) n a =
  after (handle p options procReader (ev <| Event.Timestamp := time_Now n |>)) (S n) a.
Proof.
  intros Ht. pose proof (time_Now_nonzero n) as Hn. unfold handle, after, mbind, M_bind.
  rewrite (orNow_nonzero (Event.Timestamp (ev <| Event.Timestamp := time_Now n |>))) by done.
  unfold orNow. by rewrite Ht.
Qed.
Lemma immediateIOC_time e t : immediateIOC p (e <| Event.Timestamp := t |>) = immediateIOC p e.
Proof. done. Qed.
Lemma indicator_alerted e reason t n (a : Agent K) :
  file_indicator e reason → own_entries a →
  ∃ al, alerts (after (handle p options procReader (e <| Event.Timestamp := t |>)) n a) = alerts a ++ [al]
    ∧ alert.TGID al = Event.TGID e ∧ reason ∈ alert.Reasons al ∧ Policy.Threshold p ≤ alert.Score al.
Proof.
  intros He Ho. destruct (indicator_recognised p e reason (fi_ioc e reason He)) as [Hioc Hne0]. assert (∀ t n, t ≠ 0 → ∃ al,
    alerts (after (handle p options procReader (e <| Event.Timestamp := t |>)) n a) = alerts a ++ [al]
    ∧ alert.TGID al = Event.TGID e ∧ reason ∈ alert.Reasons al ∧ Policy.Threshold p ≤ alert.Score al) as Ht.
  { intros t' n' Ht'. destruct (handle_ioc p options procReader (e <| Event.Timestamp := t' |>) n' a
      (indicator_plain e reason t' He Ht') (Ho _)) as (al & st & Hal & Htg & Hre & Hsc & _).
    - by rewrite (immediateIOC_time e t'), Hioc.
    - exists al. by rewrite (immediateIOC_time e t'), Hioc in Hre. }
  destruct (decide (t = 0)) as [->|Hne]; [|by apply Ht].
  rewrite handle_untimed by done. by apply (Ht (time_Now n)), time_Now_nonzero.
Qed.

(** A record that was read has been received as its event, once the reading
    goroutine waits for another and the channel is empty. *)
Lemma record_handled hasReader input0 c s read order e pad :
  rtc (can_step native) (start hasReader input0 c) s →
  pc s = Reading → events s = [] → input0 = read ++ input s →
  ReadRecord (concat (wire_v2 order e) ++ pad) ∈ read → event_v2_wf e → (length pad ≤ 7)%nat →
  ∃ t l r, received s = l ++ SigInput (InEvent (e <| Event.Timestamp := t |>)) :: r
    ∧ Forall (λ sig, ending sig = 0%nat) l.
Proof.
  intros Hr Hpc Hev Hread Hin Hwf Hpad.
  assert (∃ t, e <| Event.Timestamp := t |> ∈ handled s) as [t Ht];
    [|exists t; exact (received_event native _ _ _ _ _ Hr Ht)].
  apply reachable_inv in Hr as (raws & results & (HF & (es & Hin0 & Hes) & _ & Hall & _) & _).
  assert (es = []) as -> by (destruct Hes as [?|[_ [?|?]]]; congruence).
  assert (read = ReadRecord <$> raws) as ->.
  { rewrite Hread in Hin0. cbn in Hin0. by apply app_inv_tail in Hin0. }
  apply list_elem_of_fmap in Hin as (raw & Heq & Hraw).
  assert (raw = concat (wire_v2 order e) ++ pad) as -> by congruence. clear Heq.
  apply list_elem_of_lookup in Hraw as [i Hi].
  destruct (Forall2_lookup_l _ _ _ _ _ HF Hi) as (res & Hres & m & clock & Hd).
  rewrite wire_v2_decodes in Hd by done. injection Hd as <-.
  assert (pc s ≠ Returned) as Hnr by congruence. specialize (Hall (or_intror Hnr)). unfold in_hand in Hall.
  rewrite Hpc, Hev, !app_nil_r in Hall. rewrite Hall. eexists. unfold good.
  apply list_elem_of_omap. eexists. split; [by eapply list_elem_of_lookup_2|done].
Qed.

(** Nothing that reaches user space is missed: whenever the reading goroutine
    waits for a record and its channel is empty, whatever the interleaving so
    far, every version 2 record read, in either byte order and with any
    padding, that shows an indicator has been alerted on by the agent, with
    its process, its reason and a score at or above the threshold. *)
Theorem record_alerted hasReader input0 c s read order e reason pad n (a : Agent K) :
  rtc (can_step native) (start hasReader input0 c) s →
  pc s = Reading → events s = [] → input0 = read ++ input s →
  ReadRecord (concat (wire_v2 order e) ++ pad) ∈ read →
  event_v2_wf e → (length pad ≤ 7)%nat → file_indicator e reason → own_entries a →
  ∃ al, al ∈ alerts (after (runLoop p options procReader (received s)) n a)
    ∧ alert.TGID al = Event.TGID e ∧ reason ∈ alert.Reasons al ∧ Policy.Threshold p ≤ alert.Score al.
Proof.
  intros Hr Hpc Hev Hread Hin Hwf Hpad He Ho.
  destruct (record_handled _ _ _ _ _ _ _ _ Hr Hpc Hev Hread Hin Hwf Hpad) as (t & l & r & -> & Hl).
  pose proof (runLoop_logged p options procReader [] l n a (conj Ho (prefix_nil _))) as Hown1.
  unfold after in Hown1 |- *. rewrite runLoop_app by done.
  destruct (runLoop p options procReader l n a) as [[o n1] a1]. cbn [snd] in Hown1.
  destruct (indicator_alerted e reason t n1 a1 He (proj1 Hown1)) as (al & Hal & Hrest). exists al. split; [|done].
  set (ev := e <| Event.Timestamp := t |>) in *.
  pose proof (runLoop_logged p options procReader [] [SigInput (InEvent ev)] n1 a1 Hown1) as [Hown2 _].
  cbn [runLoop step] in Hown2 |- *. unfold after, mbind, M_bind in *.
  destruct (handle p options procReader ev n1 a1) as [[[] n2] a2]. cbn in Hown2, Hal.
  pose proof (runLoop_logged p options procReader (alerts a2) r n2 a2 (conj Hown2 (reflexivity _))) as [_ Hpre].
  unfold after in Hpre. apply (elem_of_prefix (alerts a2)); [|done]. rewrite Hal. set_solver.
Qed.
End detection.
