(* ===== verification/Threads.v ===== *)
(** * Goroutines that share a state

    A goroutine is a program of atomic actions, each a critical section or an
    access to something no other goroutine has; a pool runs one action of one
    program at a time, in any order.  [rg] is a small rely-guarantee logic:
    every action keeps an invariant [I] and is a step of [R], and what a
    program relies on between its actions is not disturbed by steps of [R]. *)
From S2P Require Import Prelude.

Inductive Prog (S A : Type) : Type :=
  | Ret (a : A)
  | Act (B : Type) (m : M S B) (k : B → Prog S A).
Arguments Ret {S A}.
Arguments Act {S A B}.

#[export] Instance Prog_ret S : MRet (Prog S) := λ A x, Ret x.
Fixpoint bindP {S A B} (f : A → Prog S B) (p : Prog S A) : Prog S B :=
  match p with Ret a => f a | Act m k => Act m (λ b, bindP f (k b)) end.
#[export] Instance Prog_bind S : MBind (Prog S) := λ A B, bindP.
(** One atomic action. *)
Definition atom {S A} (m : M S A) : Prog S A := Act m Ret.
Definition whenP {S} (b : bool) (p : Prog S ()) : Prog S () := if b then p else Ret ().
Definition andP {S} (b : bool) (p : Prog S bool) : Prog S bool := if b then p else Ret false.
Fixpoint forP {S A} (l : list A) (f : A → Prog S ()) : Prog S () :=
  match l with [] => Ret () | x :: l => f x ;; forP l f end.

(** Without interference. *)
Fixpoint runP {S A} (p : Prog S A) : M S A :=
  match p with Ret a => mret a | Act m k => b ← m; runP (k b) end.
Lemma runP_bind {S A B} (p : Prog S A) (f : A → Prog S B) n s :
  runP (p ≫= f) n s = (a ← runP p; runP (f a)) n s.
Proof.
  revert n s. induction p as [a|C m k IH]; intros n s; [done|].
  change (runP (Act m k ≫= f) n s) with (let '(b, n', s') := m n s in runP (k b ≫= f) n' s').
  change ((a ← runP (Act m k); runP (f a)) n s) with
    (let '(a, n'', s'') := (let '(b, n', s') := m n s in runP (k b) n' s') in runP (f a) n'' s'').
  destruct (m n s) as [[b n'] s']. apply IH.
Qed.

Lemma runP_atom {S A} (m : M S A) n s : runP (atom m) n s = m n s.
Proof. unfold runP, atom, mbind, M_bind. by destruct (m n s) as [[a n'] s']. Qed.
Lemma runP_read {S A B} (g : S → A) (f : A → Prog S B) n s :
  runP (atom (a ← getS; mret (g a)) ≫= f) n s = runP (f (g s)) n s.
Proof. done. Qed.
Lemma bind_run {S A B} (m : M S A) (f : A → M S B) n s :
  (m ≫= f) n s = let '(a, n', s') := m n s in f a n' s'.
Proof. done. Qed.
Lemma get_bind {S B} (f : S → M S B) n s : (a ← getS; f a) n s = f s n s.
Proof. done. Qed.

(** Without interference the program is the computation. *)
Definition runs {S A} (p : Prog S A) (m : M S A) : Prop := ∀ n s, runP p n s = m n s.
Create HintDb runs.
Section runs.
Context {S : Type}.
Lemma runs_ret {A} (x : A) : runs (mret x : Prog S A) (mret x).
Proof. done. Qed.
Lemma runs_atom {A} (m : M S A) : runs (atom m) m.
Proof. intros n s. apply runP_atom. Qed.
Lemma runs_bind {A B} (p : Prog S A) (m : M S A) (f : A → Prog S B) (g : A → M S B) :
  runs p m → (∀ x, runs (f x) (g x)) → runs (p ≫= f) (m ≫= g).
Proof.
  intros Hp Hf n s. rewrite runP_bind, !bind_run, Hp. destruct (m n s) as [[x n'] s']. apply Hf.
Qed.
Lemma runs_when b (p : Prog S ()) m : runs p m → runs (whenP b p) (when b m).
Proof. by destruct b. Qed.
Lemma runs_and b (p : Prog S bool) m : runs p m → runs (andP b p) (andM b m).
Proof. by destruct b. Qed.
Lemma runs_for {A} (l : list A) (f : A → Prog S ()) (g : A → M S ()) :
  (∀ x, runs (f x) (g x)) → runs (forP l f) (forM l g).
Proof. intros Hf. induction l as [|x l IH]; [done|]. by apply runs_bind. Qed.
End runs.
Ltac runs_auto := repeat
  match goal with
  | |- runs (Ret _) _ => apply runs_ret
  | |- runs (mret _) _ => apply runs_ret
  | |- runs (atom _) _ => apply runs_atom
  | |- runs (_ ≫= _) _ => apply runs_bind; [|intros ?]
  | |- runs (whenP _ _) _ => apply runs_when
  | |- runs (andP _ _) _ => apply runs_and
  | |- runs (forP _ _) _ => apply runs_for; intros ?
  | |- runs (let _ := _ in _) _ => cbv zeta
  | |- runs (match ?x with _ => _ end) _ => destruct x
  | |- runs _ _ => solve [eauto with runs]
  end.

(** ** Pools *)
Record Pool (S : Type) := mkPool { queries : nat; shared : S; threads : list (Prog S ()) }.
Arguments mkPool {S}.
Arguments queries {S}.
Arguments shared {S}.
Arguments threads {S}.
(** Thread [i] does its next action. *)
Definition runThread {S} (i : nat) (w : Pool S) : option (Pool S) :=
  match threads w !! i with
  | Some (Act m k) =>
      let '(b, n', s') := m (queries w) (shared w) in Some (mkPool n' s' (<[i := k b]> (threads w)))
  | _ => None
  end.
Definition pool_step {S} (w w' : Pool S) : Prop := ∃ i, runThread i w = Some w'.
(** A schedule, for concrete executions. *)
Fixpoint runThreads {S} (l : list nat) (w : Pool S) : option (Pool S) :=
  match l with [] => Some w | i :: l => w ← runThread i w; runThreads l w end.
Lemma runThreads_rtc {S} l (w w' : Pool S) : runThreads l w = Some w' → rtc pool_step w w'.
Proof.
  revert w. induction l as [|i l IH]; intros w; cbn; [intros [= ->]; constructor|].
  destruct (runThread i w) as [w1|] eqn:Hi; cbn; [|done]. intros Hw. econstructor; [by exists i|by apply IH].
Qed.

(** A thread may run to its end while the others wait. *)
Lemma pool_runs {S} (p : Prog S ()) n (s : S) ts ts' :
  let '(_, n', s') := runP p n s in
  rtc pool_step (mkPool n s (ts ++ p :: ts')) (mkPool n' s' (ts ++ Ret () :: ts')).
Proof.
  revert n s. induction p as [[]|B m k IH]; intros n s; [constructor|]. cbn [runP]. rewrite bind_run.
  destruct (m n s) as [[b n1] s1] eqn:Hm. specialize (IH b n1 s1). destruct (runP (k b) n1 s1) as [[x n'] s'].
  eapply rtc_l; [|exact IH]. exists (length ts). unfold runThread. cbn [threads queries shared].
  rewrite lookup_app_r, Nat.sub_diag by lia. cbn. rewrite Hm. rewrite insert_app_r_alt, Nat.sub_diag by lia. done.
Qed.

(** A step replaces one thread. *)
Lemma pool_step_length {S} (w w' : Pool S) : pool_step w w' → length (threads w') = length (threads w).
Proof.
  intros [i Hi]. revert Hi. unfold runThread. destruct (threads w !! i) as [[|B m k]|]; [done| |done].
  destruct (m (queries w) (shared w)) as [[b n'] s']. intros [= <-]. cbn. by rewrite length_insert.
Qed.
(** Wherever the pool is, its first thread can run to its end: no thread
    waits for another. *)
Lemma pool_can_end {S} (w0 w : Pool S) p ts :
  threads w0 = p :: ts → rtc pool_step w0 w → ∃ w', rtc pool_step w w' ∧ threads w' !! 0%nat = Some (Ret ()).
Proof.
  intros Hw0 Hr. assert (length (threads w) = length (threads w0)) as Hlen.
  { clear Hw0. induction Hr as [|x y z Hxy _ IH]; [done|]. by rewrite IH, (pool_step_length _ _ Hxy). }
  rewrite Hw0 in Hlen. destruct w as [n s [|p' ts']]; [done|].
  pose proof (pool_runs p' n s [] ts') as He. destruct (runP p' n s) as [[x n'] s']. by eexists.
Qed.

(** ** Termination

    A program is a well-founded tree of actions, so a pool cannot go on for
    ever, and it stops only when every thread has ended. *)
Definition rest {S A} (p p' : Prog S A) : Prop := match p with Ret _ => False | Act _ k => ∃ b, p' = k b end.
Inductive advance {S} : list (Prog S ()) → list (Prog S ()) → Prop :=
  | advance_here p p' ts : rest p p' → advance (p :: ts) (p' :: ts)
  | advance_there p ts ts' : advance ts ts' → advance (p :: ts) (p :: ts').
Lemma advance_at {S B} i (m : M S B) k b (ts : list (Prog S ())) :
  ts !! i = Some (Act m k) → advance ts (<[i := k b]> ts).
Proof.
  revert i. induction ts as [|p ts IH]; intros [|i] Hi; try done; [injection Hi as ->; constructor; by exists b|].
  apply advance_there. by apply IH.
Qed.
Lemma advance_sn {S} (ts : list (Prog S ())) : sn advance ts.
Proof.
  induction ts as [|p ts IH]; [constructor; intros ts' H; inversion H|].
  revert ts IH. induction p as [[]|B m k IHp]; intros ts IH; induction IH as [ts Hts IH];
    constructor; intros ts' H; inversion H as [p p' ts1 Hp|]; simplify_eq; try by apply IH.
  - done.
  - destruct Hp as [b ->]. apply IHp. by constructor.
Qed.
Lemma pool_sn {S} (w : Pool S) : sn pool_step w.
Proof.
  assert (∀ ts (w : Pool S), threads w = ts → sn pool_step w) as Hw; [|exact (Hw _ w eq_refl)].
  clear w. intros ts. induction (advance_sn ts) as [ts _ IH]. intros w <-. constructor. intros w' [i Hi].
  unfold runThread in Hi. destruct (threads w !! i) as [[|B m k]|] eqn:Ht; try discriminate Hi.
  destruct (m _ _) as [[b n'] s']. injection Hi as <-. exact (IH _ (advance_at i m k b _ Ht) (mkPool _ _ _) eq_refl).
Qed.
Lemma pool_nf {S} (w : Pool S) i p : nf pool_step w → threads w !! i = Some p → p = Ret ().
Proof.
  intros Hnf Hi. destruct p as [[]|B m k]; [done|]. destruct Hnf.
  destruct (m (queries w) (shared w)) as [[b n'] s'] eqn:Hm. eexists _, i. unfold runThread. by rewrite Hi, Hm.
Qed.

(** ** Rely and guarantee

    Assertions and guarantees may mention the number of queries made so far,
    which never decreases. *)
Section rg.
Context {S : Type} (I : S → Prop) (R : nat → S → S → Prop).

Definition stable (P : nat → S → Prop) : Prop :=
  ∀ n n' s s', I s → P n s → (n ≤ n')%nat → R n s s' → I s' → P n' s'.
(** An action from a state with [P]. *)
Definition step_ok {B} (m : M S B) (P : nat → S → Prop) (P' : B → nat → S → Prop) : Prop :=
  ∀ n s, I s → P n s →
    let '(b, n', s') := m n s in (n ≤ n')%nat ∧ I s' ∧ R n s s' ∧ P' b n' s'.
Fixpoint rg {A} (p : Prog S A) (P : nat → S → Prop) (Q : A → nat → S → Prop) : Prop :=
  stable P ∧
  match p with
  | Ret a => ∀ n s, I s → P n s → Q a n s
  | Act m k => ∃ P', step_ok m P P' ∧ ∀ b, rg (k b) (P' b) Q
  end.

Lemma rg_stable {A} (p : Prog S A) P Q : rg p P Q → stable P.
Proof. by destruct p; intros [? _]. Qed.
Lemma rg_ret {A} (a : A) P Q : stable P → (∀ n s, I s → P n s → Q a n s) → rg (Ret a) P Q.
Proof. done. Qed.
Lemma rg_conseq {A} (p : Prog S A) P P' Q :
  stable P → (∀ n s, I s → P n s → P' n s) → rg p P' Q → rg p P Q.
Proof.
  intros HP HPP. destruct p as [a|B m k]; intros [_ H].
  - split; [done|]. eauto.
  - split; [done|]. destruct H as (P1 & Hm & Hk). exists P1. split; [|done]. intros n s HI HPs. apply Hm; auto.
Qed.
Lemma rg_bind {A B} (p : Prog S A) (f : A → Prog S B) P Q Q' :
  rg p P Q → (∀ a, rg (f a) (Q a) Q') → rg (p ≫= f) P Q'.
Proof.
  intros Hp Hf. revert P Hp. induction p as [a|C m k IH]; intros P [HP H].
  - eapply rg_conseq; [done|exact H|apply Hf].
  - split; [done|]. destruct H as (P' & Hm & Hk). exists P'. split; [done|]. intros b. by apply IH.
Qed.
Lemma rg_post {A} (p : Prog S A) P Q Q' :
  rg p P Q → (∀ a n s, I s → Q a n s → Q' a n s) → rg p P Q'.
Proof.
  intros Hp HQ. revert P Hp. induction p as [a|C m k IH]; intros P [HP H].
  - split; [done|]. eauto.
  - split; [done|]. destruct H as (P' & Hm & Hk). exists P'. split; [done|]. intros b. by apply IH.
Qed.
Lemma rg_atom {A} (m : M S A) P Q :
  stable P → (∀ a, stable (Q a)) → step_ok m P Q → rg (atom m) P Q.
Proof. intros HP HQ Hm. split; [done|]. exists Q. split; [done|]. intros b. by apply rg_ret. Qed.
(** What no step disturbs may be added. *)
Lemma rg_frame {A} (p : Prog S A) P Q F :
  stable F → rg p P Q → rg p (λ n s, P n s ∧ F n s) (λ a n s, Q a n s ∧ F n s).
Proof.
  intros HF. assert (∀ P, stable P → stable (λ n s, P n s ∧ F n s)) as Hst.
  { intros P' HP n n' s s' HI [HPs HFs] Hn HR HI'.
    exact (conj (HP n n' s s' HI HPs Hn HR HI') (HF n n' s s' HI HFs Hn HR HI')). }
  revert P. induction p as [a|B m k IH]; intros P [HP H]; (split; [by apply Hst|]).
  - intros n s HI [HPs HFs]. split; [by apply H|done].
  - destruct H as (P' & Hm & Hk). exists (λ b n s, P' b n s ∧ F n s). split; [|intros b; by apply IH].
    intros n s HI [HPs HFs]. specialize (Hm n s HI HPs). destruct (m n s) as [[b n'] s'].
    destruct Hm as (Hn & HI' & HR & HP'). split_and!; try done. exact (HF n n' s s' HI HFs Hn HR HI').
Qed.
(** Preconditions may be joined: what is known about a value that was
    returned need not be decidable. *)
Lemma rg_ex {A J} (p : Prog S A) (P : J → nat → S → Prop) Q :
  (∀ i, rg p (P i) Q) → rg p (λ n s, ∃ i, P i n s) Q.
Proof.
  revert J P. induction p as [a|B m k IH]; intros J P Hp.
  - split; [|intros n s HI [i Hi]; by apply (proj2 (Hp i))].
    intros n n' s s' HI [i Hi] Hn HR HI'. exists i. exact (proj1 (Hp i) n n' s s' HI Hi Hn HR HI').
  - split.
    { intros n n' s s' HI [i Hi] Hn HR HI'. exists i. exact (proj1 (Hp i) n n' s s' HI Hi Hn HR HI'). }
    exists (λ b n s, ∃ P' : { P' | rg (k b) P' Q }, proj1_sig P' n s). split.
    + intros n s HI [i Hi]. destruct (Hp i) as (_ & P' & Hm & Hk). specialize (Hm n s HI Hi).
      destruct (m n s) as [[b n'] s']. destruct Hm as (? & ? & ? & ?). split_and!; try done.
      by exists (exist _ (P' b) (Hk b)).
    + intros b. apply (IH b _ (λ P', proj1_sig P')). by intros [].
Qed.
Lemma rg_pure {A} (p : Prog S A) P (φ : Prop) Q :
  stable P → (φ → rg p P Q) → rg p (λ n s, P n s ∧ φ) Q.
Proof.
  intros HP Hp. apply rg_conseq with (P' := λ n s, ∃ _ : φ, P n s).
  - intros n n' s s' HI [Hs Hφ] Hn HR HI'. split; [|done]. exact (HP n n' s s' HI Hs Hn HR HI').
  - intros n s _ [? Hφ]. by exists Hφ.
  - by apply rg_ex.
Qed.
Lemma rg_when b (p : Prog S ()) P :
  stable P → (b = true → rg p P (λ _, P)) → rg (whenP b p) P (λ _, P).
Proof. intros HP Hp. destruct b; [by apply Hp|]. by apply rg_ret. Qed.
Lemma rg_for {A} (l : list A) (f : A → Prog S ()) P :
  stable P → (∀ x, x ∈ l → rg (f x) P (λ _, P)) → rg (forP l f) P (λ _, P).
Proof.
  intros HP. induction l as [|x l IH]; intros Hf; cbn [forP]; [by apply rg_ret|].
  apply rg_bind with (Q := λ _, P); [apply Hf; set_solver|]. intros []. apply IH. set_solver.
Qed.

(** Threads that keep the invariant and the guarantee, each with what it
    relies on at this point and what holds when it has ended. *)
Definition pool_ok (Qs : list (nat → S → Prop)) (w : Pool S) : Prop :=
  I (shared w) ∧ Forall2 (λ p Q, ∃ P, rg p P (λ _, Q) ∧ P (queries w) (shared w)) (threads w) Qs.
Lemma pool_step_ok Qs w w' :
  pool_ok Qs w → pool_step w w' → pool_ok Qs w' ∧ R (queries w) (shared w) (shared w').
Proof.
  intros [HI HT] [i Hi]. unfold runThread in Hi.
  destruct (threads w !! i) as [[a|B m k]|] eqn:Ht; [done| |done].
  destruct (Forall2_lookup_l _ _ _ _ _ HT Ht) as (Q & HQ & P & (HP & P' & Hm & Hk) & HPs).
  specialize (Hm (queries w) (shared w) HI HPs).
  destruct (m (queries w) (shared w)) as [[b n'] s']. destruct Hm as (Hn & HI' & HR & HP').
  apply Some_inj in Hi as <-. cbn in *. split; [|done]. split; [done|].
  rewrite <- (list_insert_id Qs i Q HQ). apply Forall2_insert; [|by exists (P' b)].
  eapply Forall2_impl; [exact HT|]. intros p Q1 (P1 & Hp & HP1). exists P1. split; [done|].
  exact (rg_stable p P1 _ Hp _ _ _ _ HI HP1 Hn HR HI').
Qed.
Lemma pool_steps_ok Qs w w' : pool_ok Qs w → rtc pool_step w w' → pool_ok Qs w'.
Proof.
  intros Hw. revert w'. apply rtc_ind_r; [done|]. intros w1 w2 _ Hs H1. by apply (pool_step_ok Qs w1).
Qed.
Theorem pool_invariant Qs w w' :
  pool_ok Qs w → rtc pool_step w w' →
  I (shared w') ∧ ∀ w'', pool_step w' w'' → R (queries w') (shared w') (shared w'').
Proof.
  intros Hw Hr%(pool_steps_ok Qs w w' Hw). split; [apply Hr|]. intros w'' Hs. by apply (pool_step_ok Qs).
Qed.
(** A thread that has ended. *)
Lemma pool_ended Qs w w' i Q :
  pool_ok Qs w → rtc pool_step w w' → threads w' !! i = Some (Ret ()) → Qs !! i = Some Q →
  Q (queries w') (shared w').
Proof.
  intros Hw [HI HT]%(pool_steps_ok Qs w w' Hw) Ht HQ.
  destruct (Forall2_lookup_lr _ _ _ _ _ _ HT Ht HQ) as (P & [_ Hret] & HP). by apply Hret.
Qed.
Lemma pool_finished Qs w w' i Q :
  pool_ok Qs w → rtc pool_step w w' → nf pool_step w' → Qs !! i = Some Q → Q (queries w') (shared w').
Proof.
  intros Hw Hr Hnf HQ. destruct (pool_steps_ok Qs w w' Hw Hr) as [_ HT].
  destruct (Forall2_lookup_r _ _ _ _ _ HT HQ) as (p & Ht & _).
  eapply pool_ended; [done|done| |done]. by rewrite (pool_nf _ _ _ Hnf Ht) in Ht.
Qed.
(** A relation every guaranteed step is in, over a whole execution. *)
Lemma pool_relation (T : S → S → Prop) `{!PreOrder T} Qs w w' :
  (∀ n s s', R n s s' → T s s') → pool_ok Qs w → rtc pool_step w w' → T (shared w) (shared w').
Proof.
  intros HT Hw Hr. assert (pool_ok Qs w' ∧ T (shared w) (shared w')) as [_ ?]; [|done].
  revert w' Hr. apply rtc_ind_r; [done|]. intros w1 w2 _ Hs [H1 ?].
  destruct (pool_step_ok Qs w1 w2 H1 Hs) as [? HR]. split; [done|]. etrans; [done|by eapply HT].
Qed.
End rg.
