(* ===== verification/Workers.v ===== *)
(** * The goroutines of the agent

    [Run] starts two more goroutines, [hashWorker] and [scanBlacklist]
    (internal/agent/agent.go).  They share with the goroutine of [Run] the
    blocked processes, the metrics, the digest cache and the queue of hash
    jobs, each behind its own mutex or channel, the blacklist and the kernel
    map.  Here all three are programs of atomic actions: a critical section, a
    query of the outside, or an operation on the tables of processes,
    descriptors and identities, which only the goroutine of [Run] uses.  Run
    alone, each program is the operation of Agent.v. *)
From S2P Require Import Prelude GoStrings GoPath GoTime Config World Event Scope Network Window.
From S2P Require Import Sha256 HashCache Blacklist Interface Agent Threads.

Import Agent.

Section programs.
Context `{Unicode} `{World} `{NetIP} `{SensorOps K}.
Context (p : Policy) (options : Options) (procReader : option (Z → nat → option procInfo)).
Abbreviation PA := (Prog (Agent K)).

(** ** Blocked processes: [blockedMu] *)

(** Two critical sections: the entry is read under the read lock; to remove
    it the write lock is taken, and it is removed only if it is still the one
    that was read. *)
Definition isBlockedP (tgid : Z) : PA bool :=
  if tgid =? 0 then mret false
  else
    entry ← atom (a ← getS; mret (blocked a !! tgid));
    match entry with
    | None => mret false
    | Some seen =>
        expired ← andP ((0 <? Policy.BlockTTL p) && negb (IsZero seen))
                    (t ← atom now; mret (Policy.BlockTTL p <? Sub t seen));
        if (expired : bool)
        then atom (modS (λ a, a <| blocked ::= λ m,
               if bool_decide (m !! tgid = Some seen) then delete tgid m else m |>)) ;;
             mret false
        else mret true
    end.
Definition blockedLineageP (ev : Event) : PA bool :=
  b ← isBlockedP (Event.TGID ev);
  if (b : bool) then mret true else isBlockedP (Event.PPID ev).

(** ** Enforcement *)
Definition enforceTGIDP (tgid action : Z) (reason : string) : PA () :=
  if Options.DryRun options then mret ()
  else
    ok ← atom (sensorBlock tgid action (Policy.BlockTTL p));
    if negb ok then mret ()
    else
      atom (rememberBlocked tgid) ;;
      whenP (action =? BlockActionKill) (atom (modS (λ a, a <| killed ::= λ l, l ++ [tgid] |>))).
(** A line of the log, then the counter: [metricsMu]. *)
Definition emitAlertP (st : procState) (action : string) (dryRun : bool) : PA () :=
  t ← atom now;
  atom (logAlert (alert.mkAlert t (Policy.Name p) action dryRun
    (procState.TGID st) (procState.PID st) (procState.PPID st) (procState.UID st)
    (procState.Comm st) (procState.Score st) (Policy.Threshold p) (procState.Reasons st)
    (procState.Features st) (procState.RecentEvents st))) ;;
  atom (countMetrics (λ m, m <| metrics.Alerts ::= λ n, uint64 (n + 1) |>)).
Definition alertAndEnforceP (st : procState) (reason action : string) : PA () :=
  let action := normalizeAction (ToLower (TrimSpace action)) in
  emitAlertP st action (Options.DryRun options) ;;
  if Options.DryRun options || bool_decide (action = "log") then
    whenP (Options.DryRun options && negb (bool_decide (action = "log")))
      (atom (rememberBlocked (procState.TGID st)))
  else
    atom (countMetrics (λ m, m <| metrics.Blocks ::= λ n, uint64 (n + 1) |>)) ;;
    enforceTGIDP (procState.TGID st) (blockAction action) reason.

(** ** The digest cache: [hashCache.mu]

    Files are read outside of the mutex. *)
Definition getP (path : string) : PA (option string) :=
  stat ← atom (ask (os_Stat path));
  match stat with
  | None => mret None
  | Some stat =>
      atom (onHashes (
        c ← getS;
        match c !! path with
        | None => mret None
        | Some entry =>
            if fresh_entry entry stat then mret (Some (hashCacheEntry.Hash entry))
            else modS (delete path) ;; mret None
        end))
  end.
Fixpoint hash_attemptsP (attempts : nat) (path : string) : PA (HashError + string) :=
  match attempts with
  | O => mret (inl (FileChanged path))
  | S attempts =>
      before ← atom (ask (os_Stat path));
      match before with
      | None => mret (inl StatFailed)
      | Some before =>
          hash ← atom (fileSHA256 path);
          match hash with
          | None => mret (inl ReadFailed)
          | Some hash =>
              after ← atom (ask (os_Stat path));
              match after with
              | None => mret (inl StatFailed)
              | Some after =>
                  if unchanged before after
                  then atom (onHashes (store path after hash)) ;; mret (inr hash)
                  else hash_attemptsP attempts path
              end
          end
      end
  end.
Definition computeP (path : string) : PA (HashError + string) :=
  cached ← getP path;
  match cached with
  | Some hash => mret (inr hash)
  | None => hash_attemptsP 2 path
  end.

(** ** [hashWorker] and [scanBlacklist] *)
Definition enforceBlacklistP (tgid pid ppid uid : Z) (comm path hash reason : string) : PA () :=
  t ← atom now;
  t' ← atom now;
  atom (logAlert (alert.mkAlert t (Policy.Name p) "kill" (Options.DryRun options) tgid pid ppid uid comm
    (Policy.Threshold p) (Policy.Threshold p) [reason] procFeatures.zero
    [scoredEvent.mkScored t' "blacklist" path hash (Policy.Threshold p) reason])) ;;
  atom (countMetrics (λ m, m <| metrics.Alerts ::= λ n, uint64 (n + 1) |>
                             <| metrics.BlacklistMatches ::= λ n, uint64 (n + 1) |>)) ;;
  if Options.DryRun options then mret ()
  else
    atom (countMetrics (λ m, m <| metrics.Blocks ::= λ n, uint64 (n + 1) |>)) ;;
    enforceTGIDP tgid BlockActionKill reason.

(** [matchHash] under the read lock of the blacklist. *)
Definition matchHashA (hash : string) : M (Agent K) bool :=
  a ← getS; mret (match blacklist a with Some b => matchHash b hash | None => false end).
(** Receiving from the queue. *)
Definition dequeue : M (Agent K) (option hashJob) :=
  a ← getS;
  match blacklist a, hashQueue a with
  | Some _, job :: _ => modS (λ a, a <| hashQueue ::= tail |>) ;; mret (Some job)
  | _, _ => mret None
  end.
(** One round of [hashWorker]; without a job it does nothing. *)
Definition hashJobP : PA () :=
  job ← atom dequeue;
  match job with
  | None => mret ()
  | Some job =>
      hash ← computeP (hashJob.Path job);
      match hash with
      | inl _ => mret ()
      | inr hash =>
          matched ← atom (matchHashA hash);
          whenP matched (enforceBlacklistP (hashJob.TGID job) (hashJob.PID job) (hashJob.PPID job)
            (hashJob.UID job) (hashJob.Comm job) (hashJob.Path job) hash (hashJob.Reason job))
      end
  end.
Definition scanProcP (proc : procInfo) : PA () :=
  if negb (procInPolicyCgroup p proc) then mret ()
  else if isTrustedProc p proc then mret ()
  else if bool_decide (procInfo.Exe proc = "") then mret ()
  else
    hash ← computeP (procInfo.Exe proc);
    match hash with
    | inl _ => mret ()
    | inr hash =>
        matched ← atom (matchHashA hash);
        whenP matched (enforceBlacklistP (procInfo.TGID proc) (procInfo.PID proc) 0 0 (procInfo.Comm proc)
          (procInfo.Exe proc) hash "blacklisted running process")
    end.
(** Only this goroutine reloads: it reads the files and swaps the set in. *)
Definition scanBlacklistOnceP : PA () :=
  enabled ← atom (a ← getS; mret (bool_decide (blacklist a ≠ None)));
  if negb enabled then mret ()
  else
    atom reloadBlacklist ;;
    procs ← atom listProcs;
    match procs with
    | None => mret ()
    | Some procs => forP procs scanProcP
    end.
(** The two loops, for any number of rounds. *)
Definition hashWorkerP (rounds : nat) : PA () := forP (seq 0 rounds) (λ _, hashJobP).
Definition scanBlacklistP (rounds : nat) : PA () := forP (seq 0 rounds) (λ _, scanBlacklistOnceP).

(** ** The handlers of [Run] *)

(** The blacklist is locked for [empty] and again for [matchHash]. *)
Definition blacklistedEventP (ev : Event) : PA (bool * string) :=
  watched ← atom (a ← getS; mret (match blacklist a with Some b => negb (empty b) | None => false end));
  if negb watched || negb (Event.Type_ ev =? EventExec) || bool_decide (Event.Path ev = "")
  then mret (false, "")
  else
    hash ← getP (Event.Path ev);
    match hash with
    | Some hash => matched ← atom (matchHashA hash); mret (matched, hash)
    | None =>
        atom (enqueueHash (hashJob.mkJob (Event.TGID ev) (Event.PID ev) (Event.PPID ev)
          (Event.UID ev) (Event.Comm ev) (Event.Path ev) "blacklisted exec")) ;;
        mret (false, "")
    end.
Definition handleInlineIOCBlockP (ev : Event) : PA () :=
  let action := actionName (uint32 (Event.Arg1 ev)) in
  if negb (bool_decide (action = "deny")) && negb (bool_decide (action = "kill")) then mret ()
  else
    st ← atom (state ev);
    let st := prune p st (Event.Timestamp ev) in
    '(blocked, st) ← atom (checkBlocked p st (Event.Timestamp ev));
    if (blocked : bool) then atom (putState (Event.TGID ev) st)
    else
      let reason := inlineIOCReason p ev in
      let st := recordIOC p st (Event.Timestamp ev) (eventName (uint32 (Event.Arg0 ev)))
                  (Event.Path ev) "" reason true in
      atom (putState (Event.TGID ev) st) ;;
      emitAlertP st action false ;;
      atom (countMetrics (λ m, m <| metrics.Blocks ::= λ n, uint64 (n + 1) |>)).
Definition blockP (tgid : Z) (st : procState) : PA () :=
  let action := policyAction p in
  st ← (if bool_decide (action = "log") then mret st
        else
          t ← atom (orNow (procState.LastSeen st));
          let st := setBlocked st t in
          atom (putState tgid st) ;; mret st);
  alertAndEnforceP st "behavior threshold" action.
(** Of the score only that of an exec depends on shared state. *)
Definition scoreP (ev : Event) : PA (Z * string) :=
  if Event.Type_ ev =? EventExec then
    b ← blockedLineageP ev;
    mret (if (b : bool) then (Scores.ExecAfterBlocked (Policy.Scores p), "exec after blocked lineage")
          else (0, ""))
  else atom (score p ev).
Definition handleIOCP (ev : Event) (reason : string) : PA () :=
  st ← atom (state ev);
  a ← atom getS;
  let st := recordFeatures p (lookupFD a) (prune p st (Event.Timestamp ev)) ev in
  let action := policyAction p in
  let st := recordIOC p st (Event.Timestamp ev) (TypeName ev) (Event.Path ev) (Event.Path2 ev)
              reason (negb (bool_decide (action = "log"))) in
  atom (putState (Event.TGID ev) st) ;;
  alertAndEnforceP st reason action.
Definition decide_actionP (ev : Event) (st : procState) : PA () :=
  '(blocked, st) ← atom (checkBlocked p st (Event.Timestamp ev));
  match matchRule p st, blocked with
  | Some (reason, action), false =>
      let st := if bool_decide (action = "log") then st else setBlocked st (Event.Timestamp ev) in
      let st := st <| procState.Reasons ::= λ r, appendReason r reason |> in
      atom (putState (Event.TGID ev) st) ;;
      alertAndEnforceP st reason action
  | _, _ =>
      atom (putState (Event.TGID ev) st) ;;
      whenP (Policy.Threshold p <=? procState.Score st)
        ('(blocked, st) ← atom (checkBlocked p st (Event.Timestamp ev));
         atom (putState (Event.TGID ev) st) ;;
         whenP (negb blocked) (blockP (Event.TGID ev) st))
  end.
Definition handleScoredP (ev : Event) (score : Z) (reason : string) : PA () :=
  st ← atom (state ev);
  a ← atom getS;
  let st := recordScored p (lookupFD a) (prune p st (Event.Timestamp ev)) ev score reason in
  decide_actionP ev st.
Definition detectP (ev : Event) : PA () :=
  '(listed, hash) ← blacklistedEventP ev;
  if (listed : bool)
  then enforceBlacklistP (Event.TGID ev) (Event.PID ev) (Event.PPID ev) (Event.UID ev)
         (Event.Comm ev) (Event.Path ev) hash "blacklisted exec"
  else
    skip ← atom (exempt p procReader ev);
    if (skip : bool) then mret ()
    else if negb (bool_decide (immediateIOC p ev = "")) then handleIOCP ev (immediateIOC p ev)
    else
      '(score, reason) ← scoreP ev;
      if score =? 0 then mret () else handleScoredP ev score reason.
Definition handleUpdatedP (ev : Event) : PA () :=
  inside ← atom (inPolicyCgroup p (Event.TGID ev));
  if negb inside then mret ()
  else
    whenP (Event.Type_ ev =? EventExec) (atom (cacheExecInfo procReader ev)) ;;
    if (Event.Type_ ev =? EventExec) && (Event.Phase ev =? PhaseSuccess) then mret ()
    else
      lineage ← andP (Event.Type_ ev =? EventExec) (blockedLineageP ev);
      if lineage && negb (Options.DryRun options)
      then enforceTGIDP (Event.TGID ev) BlockActionKill "exec by blocked lineage"
      else detectP ev.
Definition handleP (ev : Event) : PA () :=
  t ← atom (orNow (Event.Timestamp ev));
  let ev := ev <| Event.Timestamp := t |> in
  if Event.Type_ ev =? EventBlock then
    whenP (Event.Size ev =? BlockReasonInlineIOC) (handleInlineIOCBlockP ev)
  else if (Event.Phase ev =? PhaseFailure)
          || ((Event.Type_ ev =? EventWrite) && (Event.Phase ev =? PhaseSuccess)) then mret ()
  else
    '(stop, ev) ← atom (updateFD ev);
    if (stop : bool) then mret () else handleUpdatedP ev.

(** ** The timers of [Run] and its loop *)

(** The mutexes of [pruneIdle] are taken one after the other. *)
Definition pruneIdleP (t : Z) : PA () :=
  atom (modS (λ a, a <| procs ::= keepFresh p procState.LastSeen t |>)) ;;
  atom (modS (λ a, a <| fdPaths ::= keepFresh p fdState.LastSeen t |>)) ;;
  atom (modS (λ a, a <| procInfos ::= keepFresh p cachedProcInfo.LastSeen t |>)) ;;
  atom (modS (λ a, a <| blocked ::=
    filter (λ kv, alive p t (blockedSeen (procs a) kv.1 kv.2) = true) |>)).
(** The counters are read from the kernel, the deltas taken under
    [metricsMu]. *)
Definition logRingbufDropsP : PA (option Z * option Z) :=
  drops ← atom (onSensor RingbufDrops);
  match drops with
  | None => mret (None, None)
  | Some drops =>
      delta ← atom (ringbufDropDelta drops);
      gaps ← atom (onSensor CaptureGaps);
      match gaps with
      | None => mret (Some delta, None)
      | Some gaps => delta' ← atom (captureGapDelta gaps); mret (Some delta, Some delta')
      end
  end.
Definition stepP (i : Input) : PA () :=
  match i with
  | InEvent ev => handleP ev
  | InPrune => t ← atom now; pruneIdleP t
  | InDrops => logRingbufDropsP ;; mret ()
  | InMetrics => atom logMetrics ;; mret ()
  | InHashJob => hashJobP
  | InScan => scanBlacklistOnceP
  end.
Fixpoint runLoopP (signals : list Signal) : PA Outcome :=
  match signals with
  | [] => mret Running
  | SigInput i :: signals => stepP i ;; runLoopP signals
  | SigDone :: _ => mret Stopped
  | SigErrsClosed :: signals => runLoopP signals
  | SigErr is_nil :: signals => if is_nil then runLoopP signals else mret Failed
  | SigEventsClosed :: _ => mret Stopped
  end.

(** The three goroutines, once [Run] has started the other two. *)
Definition agentPool (signals : list Signal) (rounds scans n : nat) (a : Agent K) : Pool (Agent K) :=
  mkPool n a [runLoopP signals ;; mret (); hashWorkerP rounds; scanBlacklistP scans].

(** ** Alone, each program is the operation of Agent.v *)

(** A program that reads a field first. *)
Lemma runs_read {A B} (g : Agent K → A) (f : A → PA B) (h : Agent K → M (Agent K) B) :
  (∀ a, runs (f (g a)) (h a)) → runs (atom (a ← getS; mret (g a)) ≫= f) (a ← getS; h a).
Proof. intros Hf n a. rewrite runP_read, get_bind. apply Hf. Qed.
Lemma run_isBlockedP tgid : runs (isBlockedP tgid) (isBlocked p tgid).
Proof. unfold isBlockedP, isBlocked. destruct (tgid =? 0); [done|]. apply runs_read. intros a. runs_auto. Qed.
#[local] Hint Resolve run_isBlockedP : runs.
Lemma run_blockedLineageP ev : runs (blockedLineageP ev) (blockedLineage p ev).
Proof. unfold blockedLineageP, blockedLineage. runs_auto. Qed.
Lemma run_enforceTGIDP tgid action reason :
  runs (enforceTGIDP tgid action reason) (enforceTGID p options tgid action reason).
Proof. unfold enforceTGIDP, enforceTGID. runs_auto. Qed.
Lemma run_emitAlertP st action dryRun : runs (emitAlertP st action dryRun) (emitAlert p st action dryRun).
Proof. unfold emitAlertP, emitAlert. runs_auto. Qed.
#[local] Hint Resolve run_blockedLineageP run_enforceTGIDP run_emitAlertP : runs.
Lemma run_alertAndEnforceP st reason action :
  runs (alertAndEnforceP st reason action) (alertAndEnforce p options st reason action).
Proof. unfold alertAndEnforceP, alertAndEnforce. runs_auto. Qed.
Lemma run_enforceBlacklistP tgid pid ppid uid comm path hash reason :
  runs (enforceBlacklistP tgid pid ppid uid comm path hash reason)
    (enforceBlacklist p options tgid pid ppid uid comm path hash reason).
Proof. unfold enforceBlacklistP, enforceBlacklist. runs_auto. Qed.
#[local] Hint Resolve run_alertAndEnforceP run_enforceBlacklistP : runs.

(** Operations of the digest cache. *)
Lemma onHashes_bind {A B} (m : M hashCache A) (f : A → M hashCache B) n (a : Agent K) :
  onHashes (m ≫= f) n a = (x ← onHashes m; onHashes (f x)) n a.
Proof.
  unfold onHashes, zoom, mbind, M_bind. destruct (m n (hashes a)) as [[x n'] c].
  change (hashes (a <| hashes := c |>)) with c. by destruct (f x n' c) as [[y n''] c'].
Qed.
Lemma onHashes_ret {A} (x : A) n (a : Agent K) : onHashes (mret x) n a = (x, n, a).
Proof. by destruct a. Qed.
Lemma onHashes_ask {A} (f : nat → A) n (a : Agent K) : onHashes (ask f) n a = (f n, S n, a).
Proof. by destruct a. Qed.
Lemma runs_onHashes {A B} (q : PA A) m (f : A → PA B) (g : A → M hashCache B) :
  runs q (onHashes m) → (∀ x, runs (f x) (onHashes (g x))) → runs (q ≫= f) (onHashes (m ≫= g)).
Proof. intros Hq Hf n a. rewrite onHashes_bind. revert n a. by apply runs_bind. Qed.
Lemma runs_hashed {A} (x : A) : runs (mret x : PA A) (onHashes (mret x)).
Proof. intros n a. by rewrite onHashes_ret. Qed.
Lemma runs_asked {A} (f : nat → A) : runs (atom (ask f)) (onHashes (K := K) (ask f)).
Proof. intros n a. by rewrite onHashes_ask. Qed.
#[local] Hint Resolve runs_hashed runs_asked : runs.
Lemma run_getP path : runs (getP path) (onHashes (get path)).
Proof.
  unfold getP, get. apply runs_onHashes; [apply runs_asked|]. intros [stat|]; [apply runs_atom|apply runs_hashed].
Qed.
Lemma run_hash_attemptsP k path : runs (hash_attemptsP k path) (onHashes (hash_attempts k path)).
Proof.
  induction k as [|k IH]; cbn [hash_attemptsP hash_attempts]; [apply runs_hashed|].
  apply runs_onHashes; [apply runs_asked|]. intros [before|]; [|apply runs_hashed].
  apply runs_onHashes. { intros n a. rewrite runP_atom. by destruct a. }
  intros [hash|]; [|apply runs_hashed]. apply runs_onHashes; [apply runs_asked|].
  intros [stat|]; [|apply runs_hashed]. destruct (unchanged before stat); [|done].
  apply runs_onHashes; [apply runs_atom|]. intros _. apply runs_hashed.
Qed.
Lemma run_computeP path : runs (computeP path) (onHashes (compute path)).
Proof.
  unfold computeP, compute. apply runs_onHashes; [apply run_getP|].
  intros [hash|]; [apply runs_hashed|apply run_hash_attemptsP].
Qed.
#[local] Hint Resolve run_getP run_computeP : runs.

(** The two workers. *)
Lemma run_hashJobP : runs hashJobP (hashWorkerStep p options).
Proof.
  intros n a. unfold hashJobP, hashWorkerStep. rewrite runP_bind, bind_run, runP_atom. unfold dequeue. rewrite !get_bind.
  destruct (blacklist a) as [b|]; [|done]. destruct (hashQueue a) as [|job q]; [done|]. rewrite !bind_run.
  unfold modS, mret at 1, M_ret at 1. cbv beta iota. rewrite runP_bind, !bind_run, run_computeP.
  destruct (onHashes (compute (hashJob.Path job)) n _) as [[[err|hash] n'] a']; [done|].
  unfold matchHashA. rewrite runP_read, get_bind.
  destruct (match blacklist a' with Some b => matchHash b hash | None => false end); [|done]. apply run_enforceBlacklistP.
Qed.
Lemma run_scanProcP proc : runs (scanProcP proc) (scanProc p options proc).
Proof.
  unfold scanProcP, scanProc. destruct (negb _); [done|]. destruct (isTrustedProc p proc); [done|].
  unfold procHash. intros n a. rewrite bind_run. case_bool_decide; [cbn; by destruct (blacklist a)|].
  rewrite runP_bind, !bind_run, run_computeP.
  destruct (onHashes (compute (procInfo.Exe proc)) n a) as [[[err|hash] n'] a']; cbn [mret M_ret].
  - rewrite get_bind. by destruct (blacklist a').
  - unfold matchHashA. rewrite runP_read, get_bind. destruct (blacklist a') as [b|]; [|done].
    destruct (matchHash b hash); [|done]. apply run_enforceBlacklistP.
Qed.
#[local] Hint Resolve run_scanProcP : runs.
Lemma run_scanBlacklistOnceP : runs scanBlacklistOnceP (scanBlacklistOnce p options).
Proof.
  unfold scanBlacklistOnceP, scanBlacklistOnce. apply runs_read. intros a.
  destruct (blacklist a) as [b|]; [|done]. rewrite bool_decide_eq_true_2 by done. cbn [negb]. runs_auto.
Qed.
#[local] Hint Resolve run_hashJobP run_scanBlacklistOnceP : runs.

(** The handlers. *)
Lemma onHashes_blacklist {A} (m : M hashCache A) n (a : Agent K) : blacklist (after (onHashes m) n a) = blacklist a.
Proof. unfold after, onHashes, zoom. by destruct (m n (hashes a)) as [[? ?] ?]. Qed.
Lemma run_blacklistedEventP ev : runs (blacklistedEventP ev) (blacklistedEvent ev).
Proof.
  intros n a. unfold blacklistedEventP, blacklistedEvent. rewrite runP_read, get_bind.
  destruct (blacklist a) as [b|] eqn:Hb; [|done]. rewrite negb_involutive. destruct (_ || _); [done|].
  rewrite runP_bind, !bind_run, run_getP. pose proof (onHashes_blacklist (get (Event.Path ev)) n a) as Hb'.
  unfold after in Hb'. destruct (onHashes _ n a) as [[[hash|] n'] a']; [|done]. cbn in Hb'.
  unfold matchHashA. rewrite runP_read, Hb', Hb. done.
Qed.
Lemma run_scoreP ev : runs (scoreP ev) (score p ev).
Proof. unfold scoreP. destruct (Event.Type_ ev =? EventExec) eqn:Ht; [unfold score; rewrite Ht|]; runs_auto. Qed.
Lemma run_blockP tgid st : runs (blockP tgid st) (block p options tgid st).
Proof. unfold blockP, block. runs_auto. Qed.
#[local] Hint Resolve run_blacklistedEventP run_scoreP run_blockP : runs.
Lemma run_decide_actionP ev st : runs (decide_actionP ev st) (decide_action p options ev st).
Proof. unfold decide_actionP, decide_action. runs_auto. Qed.
#[local] Hint Resolve run_decide_actionP : runs.
Lemma run_handleScoredP ev sc reason : runs (handleScoredP ev sc reason) (handleScored p options ev sc reason).
Proof. unfold handleScoredP, handleScored. runs_auto. Qed.
Lemma run_handleIOCP ev reason : runs (handleIOCP ev reason) (handleIOC p options ev reason).
Proof. unfold handleIOCP, handleIOC. runs_auto. Qed.
Lemma run_handleInlineIOCBlockP ev : runs (handleInlineIOCBlockP ev) (handleInlineIOCBlock p ev).
Proof. unfold handleInlineIOCBlockP, handleInlineIOCBlock. runs_auto. Qed.
#[local] Hint Resolve run_handleScoredP run_handleIOCP run_handleInlineIOCBlockP : runs.
Lemma run_detectP ev : runs (detectP ev) (detect p options procReader ev).
Proof. unfold detectP, detect. runs_auto. Qed.
#[local] Hint Resolve run_detectP : runs.
Lemma run_handleUpdatedP ev : runs (handleUpdatedP ev) (handleUpdated p options procReader ev).
Proof. unfold handleUpdatedP, handleUpdated. runs_auto. Qed.
#[local] Hint Resolve run_handleUpdatedP : runs.
Lemma run_handleP ev : runs (handleP ev) (handle p options procReader ev).
Proof. unfold handleP, handle. runs_auto. Qed.
Lemma run_logRingbufDropsP : runs logRingbufDropsP logRingbufDrops.
Proof. unfold logRingbufDropsP, logRingbufDrops. runs_auto. Qed.
Lemma run_pruneIdleP t : runs (pruneIdleP t) (pruneIdle p t).
Proof. unfold pruneIdleP, pruneIdle. runs_auto. Qed.
#[local] Hint Resolve run_handleP run_logRingbufDropsP run_pruneIdleP : runs.
Lemma run_stepP i : runs (stepP i) (step p options procReader i).
Proof. destruct i; cbn [stepP step]; runs_auto. Qed.
#[local] Hint Resolve run_stepP : runs.
Lemma run_runLoopP signals : runs (runLoopP signals) (runLoop p options procReader signals).
Proof. induction signals as [|[] signals IH]; cbn [runLoopP runLoop]; runs_auto. Qed.

(** The goroutines run without interference do what Agent.v says they do: the
    loop of [Run] with everything its handlers call, a round of [hashWorker]
    and a scan are the sequential operations; and the sequential execution is
    one of the interleavings, the one in which the workers wait. *)
Theorem programs_sequential signals rounds scans n a :
  runP (runLoopP signals) n a = runLoop p options procReader signals n a
  ∧ runP hashJobP n a = hashWorkerStep p options n a
  ∧ runP scanBlacklistOnceP n a = scanBlacklistOnce p options n a
  ∧ ∃ w, rtc pool_step (agentPool signals rounds scans n a) w
      ∧ shared w = after (runLoop p options procReader signals) n a.
Proof.
  split_and!; [apply run_runLoopP|apply run_hashJobP|apply run_scanBlacklistOnceP|].
  pose proof (pool_runs (runLoopP signals ;; mret ()) n a [] [hashWorkerP rounds; scanBlacklistP scans]) as Hr.
  rewrite runP_bind, bind_run, run_runLoopP in Hr. unfold after.
  destruct (runLoop p options procReader signals n a) as [[o n'] a']. eexists. split; [exact Hr|done].
Qed.
End programs.
