(* ===== verification/Interleaving.v ===== *)
(** * Every interleaving of the agent's goroutines

    What holds between any two atomic actions of the goroutine of [Run],
    [hashWorker] and [scanBlacklist] (Workers.v): an invariant of the shared
    state and a guarantee each action gives, by the rely-guarantee rules of
    Threads.v. *)
From S2P Require Import Prelude GoStrings GoPath GoTime Config World Event Scope Network Window.
From S2P Require Import WindowTheory Sha256 HashCache Blacklist Interface Agent AgentTheory.
From S2P Require Import AgentSafety AgentInv AgentProps Pipeline EndToEnd Threads Workers.

Import Agent.

Section interleaving.
Context `{Unicode} `{World} `{NetIP} `{SensorLaws K}.
Context (p : Policy) (options : Options) (procReader : option (Z → nat → option procInfo)).
Context (Ev : Z → Z → Prop).
Context (PS : Z → procState → Prop) (Sc T : Z → Prop) `{!ProcStable (K := K) p PS Sc T}.

(** Every tracked process satisfies [PS]; queue and cache are within their
    bounds. *)
Definition tidy (a : Agent K) : Prop :=
  map_Forall PS (procs a) ∧ bounded (hashes a) ∧ (length (hashQueue a) ≤ hashQueueCap)%nat.
(** In every state, moreover, whoever is marked, killed or remembered was
    alerted on, or descends from such a process. *)
Definition sharedInv (a : Agent K) : Prop := audited Ev a ∧ tidy a.
Lemma tidy_frame a a' :
  procs a' = procs a → hashes a' = hashes a → hashQueue a' = hashQueue a → tidy a → tidy a'.
Proof. unfold tidy. by intros -> -> ->. Qed.
(** In every step: no alert is taken back; in dry-run mode no process is
    marked or killed; and an entry of the blocked processes is only removed
    when at an earlier reading of the clock that very entry was older than the
    TTL. *)
Definition guarantee (n : nat) (a a' : Agent K) : Prop :=
  alerts a `prefix_of` alerts a'
  ∧ (Options.DryRun options = true → marks a' = marks a ∧ killed a' = killed a)
  ∧ ∀ t seen, blocked a !! t = Some seen → seen ≠ 0 → blocked a' !! t = None →
      ∃ j, (j < n)%nat ∧ Policy.BlockTTL p < Sub (time_Now j) seen.
Abbreviation ok := (rg sharedInv guarantee).
Abbreviation stableA := (stable sharedInv guarantee).
Abbreviation always := (λ (_ : nat) (_ : Agent K), True).

(** Process [t] may be acted on. *)
Definition cause (t : Z) (_ : nat) (a : Agent K) : Prop := justified (alerted a) Ev t.
Lemma cause_stable t : stableA (cause t).
Proof.
  intros n n' a a' _ Hc _ [Hal _] _. eapply justified_mono; [|exact Hc]. intros x (al & Hin & ?).
  exists al. split; [exact (elem_of_prefix _ _ _ Hin Hal)|done].
Qed.
Lemma always_stable : stableA always.
Proof. done. Qed.
(** An alert was logged. *)
Definition inLog (al : alert) (_ : nat) (a : Agent K) : Prop := al ∈ alerts a.
Lemma inLog_stable al : stableA (inLog al).
Proof. intros n n' a a' _ Hal _ [Hp _] _. exact (elem_of_prefix _ _ _ Hal Hp). Qed.
(** A process was alerted on in state [st]. *)
Definition reported (st : procState) (n : nat) (a : Agent K) : Prop :=
  ∃ al, inLog al n a ∧ alert.TGID al = procState.TGID st ∧ alert.Reasons al = procState.Reasons st
    ∧ alert.Score al = procState.Score st.
Lemma reported_stable st : stableA (reported st).
Proof.
  intros n n' a a' HI (al & Hal & ?) Hn HR HI'. exists al. split; [|done].
  exact (inLog_stable al n n' a a' HI Hal Hn HR HI').
Qed.
(** [t] was read from the clock. *)
Definition clockRead (t : Z) (n : nat) (_ : Agent K) : Prop := ∃ j, (j < n)%nat ∧ t = time_Now j.
Lemma clockRead_stable t : stableA (clockRead t).
Proof. intros n n' a a' _ (j & ? & ->) Hn _ _. exists j. split; [lia|done]. Qed.
Lemma and_stable P Q : stableA P → stableA Q → stableA (λ n a, P n a ∧ Q n a).
Proof.
  intros HP HQ n n' a a' HI [Ha Hb] Hn HR HI'.
  exact (conj (HP n n' a a' HI Ha Hn HR HI') (HQ n n' a a' HI Hb Hn HR HI')).
Qed.
Lemma impl_stable (φ : Prop) P : stableA P → stableA (λ n a, φ → P n a).
Proof. intros HP n n' a a' HI Ha Hn HR HI' Hφ. exact (HP n n' a a' HI (Ha Hφ) Hn HR HI'). Qed.
(** By a reading of the clock an entry written at [seen] had expired. *)
Definition expiredBy (seen : Z) (n : nat) (_ : Agent K) : Prop :=
  ∃ j, (j < n)%nat ∧ Policy.BlockTTL p < Sub (time_Now j) seen.
Lemma expiredBy_stable seen : stableA (expiredBy seen).
Proof. intros n n' a a' _ (j & ? & ?) Hn _ _. exists j. split; [lia|done]. Qed.
#[local] Hint Resolve cause_stable always_stable inLog_stable reported_stable clockRead_stable expiredBy_stable and_stable impl_stable : go.

Lemma guarantee_same n a a' :
  alerts a' = alerts a → blocked a' = blocked a →
  (Options.DryRun options = true → marks a' = marks a ∧ killed a' = killed a) → guarantee n a a'.
Proof. unfold guarantee. intros -> -> Hd. split_and!; [done|done|]. intros t seen Hs _ Hn. congruence. Qed.

(** An action that keeps the invariant and the guarantee by itself. *)
Definition quiet {A} (m : M (Agent K) A) : Prop :=
  advances m ∧ ∀ n a, sharedInv a → sharedInv (after m n a) ∧ ∀ i, guarantee i a (after m n a).
Lemma quiet_ok {A} (m : M (Agent K) A) P : quiet m → stableA P → ok (atom m) P (λ _, P).
Proof.
  intros [Hn Hm] HP. apply rg_atom; [done|done|]. intros n a HI Ha. specialize (Hn n a).
  destruct (Hm n a HI) as [HI' HR]. unfold after in *. destruct (m n a) as [[x n'] a'].
  split_and!; [done|done|apply HR|exact (HP n n' a a' HI Ha Hn (HR n) HI')].
Qed.
Lemma ok_step {A B} (m : M (Agent K) A) (f : A → Prog (Agent K) B) P Q :
  quiet m → stableA P → (∀ x, ok (f x) P Q) → ok (atom m ≫= f) P Q.
Proof. intros Hm HP Hf. by eapply rg_bind; [apply quiet_ok|]. Qed.

(** *** Actions *)
Lemma world_quiet {A} (m : M (Agent K) A) : advances m → (∀ n a, after m n a = a) → quiet m.
Proof. intros Hn Hm. split; [done|]. intros n a HI. rewrite Hm. split; [done|]. intros. by apply guarantee_same. Qed.
Lemma ask_quiet {A} (f : nat → A) : quiet (ask f).
Proof. apply world_quiet; [apply advances_ask|done]. Qed.
Lemma read_quiet {A} (g : Agent K → A) : quiet (a ← getS; mret (g a)).
Proof. apply world_quiet; [advances_auto|done]. Qed.
(** [now] tells a time of the clock. *)
Lemma now_ok P : stableA P → ok (atom now) P (λ t n a, P n a ∧ clockRead t n a).
Proof.
  intros HP. apply rg_atom; [done|auto with go|]. intros n a HI Ha. cbn.
  split_and!; [lia|done|by apply guarantee_same|refine (HP n _ a a HI Ha _ _ HI); [lia|by apply guarantee_same]|].
  exists n. split; [lia|done].
Qed.
(** A change of fields that neither the invariant nor the guarantee mention,
    but for the queue. *)
Lemma frame_quiet f :
  (∀ a : Agent K, marks (f a) = marks a ∧ killed (f a) = killed a ∧ blocked (f a) = blocked a
     ∧ alerts (f a) = alerts a ∧ procs (f a) = procs a ∧ hashes (f a) = hashes a
     ∧ (length (hashQueue a) ≤ hashQueueCap → length (hashQueue (f a)) ≤ hashQueueCap)%nat) →
  quiet (modS f).
Proof.
  intros Hf. split; [apply advances_mod|]. intros n a (Ha & Hp & Hb & Hq).
  destruct (Hf a) as (E1 & E2 & E3 & E4 & E5 & E6 & E7). unfold after, modS. cbn.
  split; [|intros; by apply guarantee_same]. split; [|unfold tidy; rewrite E5, E6; by split_and!; [..|apply E7]].
  intros t. rewrite E1, E2, E3. unfold alerted. rewrite E4. apply Ha.
Qed.
Lemma count_quiet f : quiet (countMetrics f).
Proof. apply frame_quiet. intros a. by split_and!. Qed.
Lemma enqueue_quiet job : quiet (enqueueHash job).
Proof.
  apply frame_quiet. intros a. case_bool_decide; split_and!; try done. intros _. cbn. rewrite length_app. cbn. lia.
Qed.
Lemma dequeue_quiet : quiet dequeue.
Proof.
  split; [unfold dequeue; advances_auto|]. intros n a HI. unfold after, dequeue, mbind, M_bind, getS.
  destruct (blacklist a) as [l|]; [|split; [done|intros; by apply guarantee_same]].
  destruct (hashQueue a) as [|job q] eqn:Eq; [split; [done|intros; by apply guarantee_same]|].
  refine (proj2 (frame_quiet (λ a, a <| hashQueue ::= tail |>) _) n a HI).
  intros a0. split_and!; try done. cbn. destruct (hashQueue a0); cbn; lia.
Qed.
Lemma hashes_quiet {A} (m : M hashCache A) : advances m → keeps bounded m → quiet (onHashes m).
Proof.
  intros Hn Hm. split.
  - intros n a. specialize (Hn n (hashes a)). unfold onHashes, zoom. by destruct (m n (hashes a)) as [[x n'] c].
  - intros n a (Ha & Hp & Hb & Hq). specialize (Hm n _ Hb). unfold after, onHashes, zoom in *.
    destruct (m n (hashes a)) as [[x n'] c]. split; [|intros; by apply guarantee_same].
    exact (conj Ha (conj Hp (conj Hm Hq))).
Qed.
Lemma reload_quiet : quiet reloadBlacklist.
Proof.
  split.
  - intros n a. unfold reloadBlacklist. destruct (blacklist a) as [b|]; [|cbn; lia].
    pose proof (reloadFiles_advances n b). by destruct (reloadFiles n b) as [[x n'] b'].
  - intros n a HI. unfold after, reloadBlacklist. destruct (blacklist a) as [b|].
    + destruct (reloadFiles n b) as [[x n'] b']. split; [exact HI|intros; by apply guarantee_same].
    + split; [exact HI|intros; by apply guarantee_same].
Qed.

(** *** Tables of the goroutine of [Run] *)

(** As [a0] but for what only that goroutine uses. *)
Definition aside (a0 a : Agent K) : Prop :=
  (marks a, killed a, blocked a, alerts a, hashes a, hashQueue a)
  = (marks a0, killed a0, blocked a0, alerts a0, hashes a0, hashQueue a0) ∧ map_Forall PS (procs a).
Lemma aside_mod a0 f :
  (∀ a, aside a a → aside a (f a)) → keeps (aside a0) (modS f).
Proof.
  intros Hf. apply keeps_mod. intros a [Ha Hp]. destruct (Hf a (conj eq_refl Hp)) as [Hfa Hp'].
  split; [by rewrite Hfa|done].
Qed.
#[local] Instance aside_fd a0 : FreeFD (aside a0).
Proof. intros f. by apply aside_mod. Qed.
#[local] Instance aside_private a0 : Private PS (aside a0).
Proof.
  split.
  - intros a tgid st [_ Hp]. apply Hp.
  - intros tgid st Hst. apply aside_mod. intros a [_ Hp]. split; [done|]. by apply map_Forall_insert_2.
  - intros. apply touchFD_free, _.
  - intros f. by apply aside_mod.
Qed.
Lemma private_ok {A} (m : M (Agent K) A) (φ : A → Prop) Pr :
  advances m → (∀ a0, yields (aside a0) m φ) → stableA Pr → ok (atom m) Pr (λ x n a, Pr n a ∧ φ x).
Proof.
  intros Hn Hm HP. assert (∀ ψ : Prop, stableA (λ n a, Pr n a ∧ ψ)) as Hst.
  { intros ψ n n' a a' HI [Ha ?] Hle HR HI'. split; [exact (HP n n' a a' HI Ha Hle HR HI')|done]. }
  apply rg_atom; [done|auto|]. intros n a HI Ha. specialize (Hn n a). pose proof HI as (Hau & Hp & Hb & Hq).
  destruct (Hm a n a (conj eq_refl Hp)) as [[Heq Hp'] Hφ]. unfold after, result in *.
  destruct (m n a) as [[x n'] a']. cbn in *. injection Heq as E1 E2 E3 E4 E5 E6.
  assert (guarantee n a a') as HR by by apply guarantee_same.
  assert (sharedInv a') as HI'.
  { split; [|unfold tidy; by rewrite E5, E6]. intros t. rewrite E1, E2, E3. unfold alerted. rewrite E4. apply Hau. }
  split_and!; [done|done|done|exact (HP n n' a a' HI Ha Hn HR HI')|done].
Qed.
Lemma private_step {A B} (m : M (Agent K) A) (φ : A → Prop) (f : A → Prog (Agent K) B) Pr Q :
  advances m → (∀ a0, yields (aside a0) m φ) → stableA Pr → (∀ x, φ x → ok (f x) Pr Q) →
  ok (atom m ≫= f) Pr Q.
Proof.
  intros Hn Hm HP Hf. eapply rg_bind; [by apply (private_ok m φ Pr)|]. intros x. cbn beta. apply rg_pure; [done|apply Hf].
Qed.
(** ... when nothing is known of the result. *)
Lemma aside_step {A B} (m : M (Agent K) A) (f : A → Prog (Agent K) B) Pr Q :
  advances m → (∀ a0, keeps (aside a0) m) → stableA Pr → (∀ x, ok (f x) Pr Q) → ok (atom m ≫= f) Pr Q.
Proof. intros Hn Hm HP Hf. apply (private_step m (λ _, True)); [done|intros; by apply keeps_yields|done|auto]. Qed.

Lemma orNow_advances t : advances (orNow (K := K) t).
Proof. unfold orNow, now. advances_auto. Qed.
Lemma readProc_advances pid : advances (readProc (S := Agent K) pid).
Proof. unfold readProc. advances_auto. Qed.
Lemma touchFD_advances tgid fd seen : advances (touchFD (K := K) tgid fd seen).
Proof. unfold touchFD. advances_auto. Qed.
Lemma readProcessInfo_advances tgid : advances (readProcessInfo (K := K) procReader tgid).
Proof. unfold readProcessInfo. advances_auto; apply readProc_advances. Qed.
Ltac advances_more := advances_auto; eauto using orNow_advances, readProc_advances, touchFD_advances,
  readProcessInfo_advances.
Lemma state_advances ev : advances (state (K := K) ev).
Proof. unfold state, putState. advances_more. Qed.
Lemma checkBlocked_advances st t : advances (checkBlocked (K := K) p st t).
Proof. unfold checkBlocked. advances_more. Qed.
Lemma updateFD_advances ev : advances (updateFD (K := K) ev).
Proof. unfold updateFD, resolveOpenPath, fdPath, procSymlink. advances_more. Qed.
Lemma inPolicyCgroup_advances tgid : advances (inPolicyCgroup (K := K) p tgid).
Proof. unfold inPolicyCgroup. advances_more. Qed.
Lemma cacheExecInfo_advances ev : advances (cacheExecInfo (K := K) procReader ev).
Proof. unfold cacheExecInfo, putInfo. advances_more. Qed.
Lemma sensitiveEvent_advances scope mmap ev : advances (sensitiveEvent (K := K) scope mmap ev).
Proof. unfold sensitiveEvent. advances_more. Qed.
Lemma exempt_advances ev : advances (exempt (K := K) p procReader ev).
Proof.
  unfold exempt, isTrustedEvent, procInfoOf, putInfo, andM, backupSensitiveEvent, selfProtectSensitiveEvent.
  advances_more; apply sensitiveEvent_advances.
Qed.
(** The score of anything but an exec. *)
Lemma score_private ev :
  Event.Type_ ev ≠ EventExec →
  advances (score (K := K) p ev) ∧ ∀ a0, yields (aside a0) (score p ev) (λ r, Sc r.1).
Proof.
  intros Hty%Z.eqb_neq. assert (∀ a0, keeps (aside a0) (score p ev)) as Hk.
  { intros a0. unfold score. rewrite Hty. pose proof (stable_touch (P := PS) (I := aside a0)). keeps_auto. }
  split; [unfold score; rewrite Hty; advances_more|]. intros a0 n a Ha. split; [by apply Hk|apply (score_ok p (P := PS) (Sc := Sc) (T := T))].
Qed.

(** *** Enforcement *)

(** An action on process [t], for which there is a cause. *)
Lemma cleared_ok {A} (m : M (Agent K) A) t :
  advances m → triple (cleared Ev t) m (λ _, cleared Ev t) →
  (∀ n a, tidy a → tidy (after m n a)) → (∀ n a i, guarantee i a (after m n a)) →
  ok (atom m) (cause t) (λ _, cause t).
Proof.
  intros Hn Hm Hf HR. apply rg_atom; [auto with go..|]. intros n a (Ha & Ht) Hc. specialize (Hn n a).
  destruct (Hm n a (conj Ha Hc)) as [Ha' Hc']. specialize (Hf n a Ht). specialize (HR n a). unfold after in *.
  destruct (m n a) as [[x n'] a']. cbn in *. exact (conj Hn (conj (conj Ha' Hf) (conj (HR n) Hc'))).
Qed.
Lemma sensorBlock_cleared t action ttl :
  triple (cleared Ev t) (sensorBlock t action ttl) (λ _, cleared Ev t).
Proof.
  intros n a [Ha Ht]. unfold after, sensorBlock. destruct (sensor a) as [k|] eqn:Hk; [|done].
  pose proof (BlockTGID_ok t action ttl n k) as Hok. pose proof (BlockTGID_failed t action ttl n k) as Hf.
  unfold result, after in *. destruct (BlockTGID t action ttl n k) as [[[|] n'] k']; cbn in *.
  - destruct (Hok eq_refl) as [_ Hm]. split; [|exact Ht]. intros x. unfold marks. cbn. rewrite Hm, dom_insert_L.
    intros Hx. destruct (decide (x = t)) as [->|]; [exact Ht|]. apply Ha. unfold marks. rewrite Hk. set_solver.
  - split; [|exact Ht]. intros x. unfold marks. cbn. rewrite (Hf eq_refl). intros Hx. apply Ha. unfold marks. by rewrite Hk.
Qed.
Lemma sensorBlock_ok t action ttl :
  Options.DryRun options = false → ok (atom (sensorBlock t action ttl)) (cause t) (λ _, cause t).
Proof.
  intros Hdry. apply cleared_ok; [|apply sensorBlock_cleared|..].
  - intros n a. unfold sensorBlock. destruct (sensor a) as [k|]; [|cbn; lia].
    pose proof (BlockTGID_advances t action ttl n k). by destruct (BlockTGID t action ttl n k) as [[? ?] ?].
  - intros n a. unfold after, sensorBlock. destruct (sensor a); [|done].
    destruct (BlockTGID _ _ _ _ _) as [[? ?] ?]. by apply tidy_frame.
  - intros n a i. unfold after, sensorBlock. destruct (sensor a); [|by apply guarantee_same].
    destruct (BlockTGID _ _ _ _ _) as [[? ?] ?]. apply guarantee_same; [done|done|congruence].
Qed.
Lemma remember_ok t : ok (atom (rememberBlocked t)) (cause t) (λ _, cause t).
Proof.
  apply cleared_ok; [unfold rememberBlocked, now; advances_auto|apply remember_cleared|done|].
  intros n a i. split_and!; [done|done|].
  intros x seen Hx _. change (blocked (after (rememberBlocked t) n a)) with (<[t := time_Now n]> (blocked a)).
  destruct (decide (x = t)) as [->|]; [by rewrite lookup_insert_eq|].
  rewrite lookup_insert_ne by done. congruence.
Qed.
Lemma kill_ok t :
  Options.DryRun options = false →
  ok (atom (modS (λ a : Agent K, a <| killed ::= λ l, l ++ [t] |>))) (cause t) (λ _, cause t).
Proof.
  intros Hdry. apply cleared_ok; [apply advances_mod| |done|].
  2: { intros n a i. apply guarantee_same; [done|done|congruence]. }
  apply keeps_mod. intros a [Ha Hc]. split; [|exact Hc]. intros x Hx. cbn in Hx.
  destruct (decide (x = t)) as [->|]; [exact Hc|]. apply Ha. unfold marks in *. cbn in *. set_solver.
Qed.
Lemma alert_ok al P :
  stableA P → ok (atom (logAlert al)) P (λ _ n a, cause (alert.TGID al) n a ∧ inLog al n a).
Proof.
  intros HP. apply rg_atom; [done|auto with go|]. intros n a (Ha & Ht) _.
  destruct (logAlert_cleared Ev al n a Ha) as [Ha' Hc]. cbn. split; [lia|].
  assert (inLog al n (a <| alerts ::= λ l, l ++ [al] |>)) as Hin by (unfold inLog; cbn; set_solver).
  refine (conj (conj Ha' Ht) (conj _ (conj Hc Hin))). split_and!; [cbn; by apply prefix_app_r|done|].
  intros t seen Hs _ Hn. cbn in Hn. congruence.
Qed.
Lemma enforceTGIDP_ok t action reason : ok (enforceTGIDP p options t action reason) (cause t) (λ _, cause t).
Proof.
  unfold enforceTGIDP. destruct (Options.DryRun options) eqn:Hdry; [apply rg_ret; auto with go|].
  eapply rg_bind; [by apply sensorBlock_ok|]. intros []; cbn [negb]; [|apply rg_ret; auto with go].
  eapply rg_bind; [apply remember_ok|]. intros []. apply rg_when; [auto with go|]. intros _. by apply kill_ok.
Qed.
Lemma emitAlertP_ok st action dryRun :
  ok (emitAlertP p st action dryRun) always (λ _ n a, cause (procState.TGID st) n a ∧ reported st n a).
Proof.
  unfold emitAlertP. apply ok_step; [apply ask_quiet|done|]. intros t.
  eapply rg_bind; [by apply alert_ok|]. intros []. set (al := alert.mkAlert _ _ _ _ _ _ _ _ _ _ _ _ _ _).
  apply rg_post with (Q := λ _ n a, cause (alert.TGID al) n a ∧ inLog al n a).
  - apply quiet_ok; [apply count_quiet|auto with go].
  - intros _ n a _ [Hc Hal]. split; [exact Hc|]. by exists al.
Qed.
Lemma alertAndEnforceP_ok st reason action :
  ok (alertAndEnforceP p options st reason action) always (λ _, reported st).
Proof.
  unfold alertAndEnforceP. cbv zeta. set (act := normalizeAction _).
  eapply rg_bind; [apply emitAlertP_ok|]. intros [].
  apply rg_post with (Q := λ _ n a, cause (procState.TGID st) n a ∧ reported st n a); [|by intros ? ? ? _ []].
  apply rg_frame; [auto with go|]. destruct (Options.DryRun options || _).
  - apply rg_when; [auto with go|]. intros _. apply remember_ok.
  - apply ok_step; [apply count_quiet|apply cause_stable|]. intros []. apply enforceTGIDP_ok.
Qed.

(** *** Blocked processes *)

(** Removing entries, each of them expired at a time that was read. *)
Lemma unblock_ok (f : Agent K → gmap Z Z → gmap Z Z) P Q :
  (∀ a m, f a m ⊆ m) → stableA P → stableA Q →
  (∀ n a t seen, Q n a → blocked a !! t = Some seen → seen ≠ 0 → f a (blocked a) !! t = None →
     ∃ j, (j < n)%nat ∧ Policy.BlockTTL p < Sub (time_Now j) seen) →
  ok (atom (modS (λ a : Agent K, a <| blocked ::= f a |>))) (λ n a, P n a ∧ Q n a) (λ _, P).
Proof.
  intros Hsub HP HQ Hexp. apply rg_atom; [auto with go|done|]. intros n a HI [Ha Hφ]. pose proof HI as (Haud & Htidy).
  assert (guarantee n a (a <| blocked ::= f a |>)) as HR.
  { split_and!; [done|done|]. intros t seen Hs Hne Hn. by eapply Hexp. }
  assert (sharedInv (a <| blocked ::= f a |>)) as HI'.
  { split; [|exact Htidy]. exact (unblock_audited Ev f Hsub n a Haud). }
  cbn. split; [lia|]. refine (conj HI' (conj HR (HP n n a _ HI Ha _ HR HI'))). lia.
Qed.
(** A process found blocked was alerted on or descends from one that was. *)
Lemma isBlockedP_ok t : ok (isBlockedP p t) always (λ b n a, b = true → cause t n a).
Proof.
  unfold isBlockedP. destruct (t =? 0); [by apply rg_ret|].
  apply rg_bind with (Q := λ entry n a, entry ≠ None → cause t n a).
  { apply rg_atom; [done|auto with go|]. intros n a HI _. cbn.
    split_and!; [lia|done|by apply guarantee_same|]. intros He. destruct HI as (Ha & _).
    apply Ha. right; right. by apply elem_of_dom, not_eq_None_Some. }
  intros [seen|]; [|apply rg_ret; [auto with go|done]].
  apply rg_conseq with (P' := cause t); [auto with go|intros n a _ Ha; by apply Ha|].
  apply rg_bind with (Q := λ (e : bool) n a, cause t n a ∧ (e = true → expiredBy seen n a)).
  { destruct (_ && _); cbn [andP]; [|apply rg_ret; [auto with go|done]].
    eapply rg_bind; [apply (now_ok _ (cause_stable t))|]. intros now. apply rg_ret; [auto with go|].
    intros n a _ [Hc (j & Hj & ->)]. split; [done|]. intros Hlt%Z.ltb_lt. by exists j. }
  intros []; [|apply rg_ret; [auto with go|by intros n a _ [? _] _]].
  apply rg_bind with (Q := λ _, cause t); [|intros []; apply rg_ret; [apply cause_stable|done]].
  apply rg_conseq with (P' := λ n a, cause t n a ∧ expiredBy seen n a); [auto with go|naive_solver|].
  apply (unblock_ok (λ _ m, if bool_decide (m !! t = Some seen) then delete t m else m) (cause t) (expiredBy seen));
    [intros _ m; case_match; [apply delete_subseteq|done]|auto with go..|].
  intros n a x s Hj Hx _. case_bool_decide as Ht; [|congruence].
  destruct (decide (x = t)) as [->|]; [|rewrite lookup_delete_ne by done; congruence].
  intros _. assert (s = seen) as -> by congruence. exact Hj.
Qed.
Lemma blockedLineageP_ok ev :
  exec_ok Ev ev → Event.Type_ ev = EventExec →
  ok (blockedLineageP p ev) always (λ b n a, b = true → cause (Event.TGID ev) n a).
Proof.
  intros HE Hty. unfold blockedLineageP. eapply rg_bind; [apply isBlockedP_ok|]. intros [].
  - apply rg_ret; [auto with go|]. intros n a _ Ha. exact Ha.
  - apply rg_conseq with (P' := always); [auto with go|done|]. eapply rg_post; [apply isBlockedP_ok|].
    intros b n a _ Ha Hb. eapply just_exec; [by apply HE|by apply Ha].
Qed.
Lemma pruneIdleP_ok : ok (t ← atom now; pruneIdleP p t) always (λ _, always).
Proof.
  eapply rg_bind; [by apply (now_ok always)|]. intros t. unfold pruneIdleP.
  assert (stableA (λ n a, always n a ∧ clockRead t n a)) as Hst by auto with go.
  apply aside_step; [apply advances_mod| |done|intros []].
  { intros a0. apply aside_mod. intros a [_ Hp]. split; [done|].
    intros i st [Hi _]%map_lookup_filter_Some. by apply Hp. }
  do 2 (apply aside_step; [apply advances_mod|intros a0; by apply aside_mod|done|]; intros []).
  apply (unblock_ok (λ a, filter (λ kv, alive p t (blockedSeen (procs a) kv.1 kv.2) = true)) always (clockRead t));
    [intros; apply map_filter_subseteq|auto with go..|].
  intros n a x s (j & Hj & ->) Hx Hs Hn%map_lookup_filter_None. exists j. split; [done|].
  destruct Hn as [?|Hn]; [congruence|]. specialize (Hn s Hx). cbn in Hn. unfold blockedSeen, alive, IsZero in Hn.
  apply Z.eqb_neq in Hs. rewrite Hs in Hn. cbn in Hn. rewrite Hs in Hn. cbn in Hn.
  destruct (timer_bounds p) as (_ & Hle & _). apply not_true_is_false, Z.leb_gt in Hn. lia.
Qed.

(** *** The two workers *)
Lemma getLocked_bounded path stat :
  keeps bounded (c ← getS;
    match c !! path with
    | None => mret None
    | Some entry => if fresh_entry entry stat then mret (Some (hashCacheEntry.Hash entry))
                    else modS (delete path) ;; mret None
    end).
Proof.
  intros n c Hc. unfold after, mbind, M_bind, getS. destruct (c !! path); [|done].
  destruct (fresh_entry h stat); [done|]. cbn. unfold bounded in *.
  etransitivity; [apply map_subseteq_size, delete_subseteq|done].
Qed.
Lemma getP_ok path : ok (getP (K := K) path) always (λ _, always).
Proof.
  unfold getP. apply ok_step; [apply ask_quiet|done|]. intros [stat|]; [|by apply rg_ret].
  apply quiet_ok; [|done]. apply hashes_quiet; [advances_auto|apply getLocked_bounded].
Qed.
Lemma computeP_ok path : ok (computeP (K := K) path) always (λ _, always).
Proof.
  unfold computeP. apply rg_bind with (Q := λ _, always); [apply getP_ok|].
  - intros [hash|]; [by apply rg_ret|]. generalize 2%nat. intros k.
    induction k as [|k IH]; cbn [hash_attemptsP]; [by apply rg_ret|].
    apply ok_step; [apply ask_quiet|done|]. intros [before|]; [|by apply rg_ret].
    apply ok_step; [apply world_quiet; [unfold fileSHA256; advances_auto|done]|done|]. intros [hash|]; [|by apply rg_ret].
    apply ok_step; [apply ask_quiet|done|]. intros [stat|]; [|by apply rg_ret].
    destruct (unchanged before stat); [|apply IH].
    apply ok_step; [apply hashes_quiet; [unfold store; advances_auto|apply store_bounded]|done|]. intros []. by apply rg_ret.
Qed.
Lemma enforceBlacklistP_ok tgid pid ppid uid comm path hash reason :
  ok (enforceBlacklistP p options tgid pid ppid uid comm path hash reason) always (λ _, always).
Proof.
  unfold enforceBlacklistP. do 2 (apply ok_step; [apply ask_quiet|done|]; intros ?).
  eapply rg_bind; [by apply alert_ok|]. intros []. cbn [alert.TGID].
  apply rg_conseq with (P' := cause tgid); [auto with go|by intros n a _ []|].
  apply ok_step; [apply count_quiet|apply cause_stable|]. intros [].
  destruct (Options.DryRun options); [apply rg_ret; auto with go|].
  apply ok_step; [apply count_quiet|apply cause_stable|]. intros [].
  eapply rg_post; [apply enforceTGIDP_ok|done].
Qed.
Lemma matched_ok (hash : string) f :
  ok f always (λ _, always) → ok (matched ← atom (matchHashA hash); whenP matched f) always (λ _, always).
Proof.
  intros Hf. apply ok_step; [apply read_quiet|done|]. intros b. by apply (rg_when _ _ b f always).
Qed.
Lemma hashJobP_ok : ok (hashJobP p options) always (λ _, always).
Proof.
  unfold hashJobP. apply ok_step; [apply dequeue_quiet|done|]. intros [job|]; [|by apply rg_ret].
  eapply rg_bind; [apply computeP_ok|]. intros [err|hash]; [by apply rg_ret|].
  apply matched_ok, enforceBlacklistP_ok.
Qed.
Lemma listProcs_after n (a : Agent K) : after listProcs n a = a.
Proof.
  assert (∀ l, keeps (λ s : Agent K, s = a) (readProcs l)) as Hr.
  { induction l as [|[name d] l IH]; cbn [readProcs]; [apply keeps_ret|]. unfold readProc. keeps_auto. }
  assert (keeps (λ s : Agent K, s = a) listProcs) as Hk by (unfold listProcs; keeps_auto).
  by apply Hk.
Qed.
Lemma scanBlacklistOnceP_ok : ok (scanBlacklistOnceP p options) always (λ _, always).
Proof.
  unfold scanBlacklistOnceP. apply ok_step; [apply read_quiet|done|]. intros []; cbn [negb]; [|by apply rg_ret].
  apply ok_step; [apply reload_quiet|done|]. intros []. apply ok_step; [|done|].
  { apply world_quiet; [apply listProcs_advances|]. intros n a. apply listProcs_after. }
  intros [procs|]; [|by apply rg_ret]. apply (rg_for _ _ procs _ always); [done|]. intros proc _.
  unfold scanProcP. destruct (negb _); [by apply rg_ret|]. destruct (isTrustedProc p proc); [by apply rg_ret|].
  destruct (bool_decide _); [by apply rg_ret|]. eapply rg_bind; [apply computeP_ok|].
  intros [err|hash]; [by apply rg_ret|]. apply matched_ok, enforceBlacklistP_ok.
Qed.

(** *** The handlers of [Run] *)
Abbreviation goes q := (ok q always (λ _, always)).
Lemma put_step {B} tgid st (f : () → Prog (Agent K) B) Q :
  PS tgid st → (∀ x, ok (f x) always Q) → ok (atom (putState tgid st) ≫= f) always Q.
Proof.
  intros Hst Hf. apply aside_step; [apply advances_mod| |done|done]. intros a0. by apply (stable_put (I := aside a0)).
Qed.
Lemma put_ok tgid st : PS tgid st → goes (atom (putState tgid st)).
Proof.
  intros Hst. eapply rg_post; [apply (private_ok _ (λ _, True)); [apply advances_mod| |done]|done].
  intros a0. apply keeps_yields. by apply (stable_put (I := aside a0)).
Qed.
Lemma state_step {B} ev (f : procState → Prog (Agent K) B) Q :
  T (Event.Timestamp ev) → (∀ st, PS (Event.TGID ev) st → ok (f st) always Q) →
  ok (atom (state ev) ≫= f) always Q.
Proof.
  intros Ht Hf. apply (private_step _ (PS (Event.TGID ev))); [apply state_advances| |done|done].
  intros a0. exact (AgentTheory.state_ok p PS Sc T (aside a0) ev Ht).
Qed.
Lemma check_step {B} i st t (f : bool * procState → Prog (Agent K) B) Q :
  PS i st → (∀ b st, PS i st → ok (f (b, st)) always Q) → ok (atom (checkBlocked p st t) ≫= f) always Q.
Proof.
  intros Hst Hf. apply (private_step _ (λ r, PS i r.2)); [apply checkBlocked_advances| |done|].
  - intros a0. exact (checkBlocked_ok p PS Sc T (aside a0) i st t Hst).
  - intros [b st']. apply Hf.
Qed.
Lemma setBlocked_PS i st t : PS i st → PS i (setBlocked st t).
Proof. intros Hst. exact (P_blocked p (Sc := Sc) (T := T) i st true t Hst). Qed.

Lemma blacklistedEventP_ok ev : goes (blacklistedEventP (K := K) ev).
Proof.
  unfold blacklistedEventP. apply ok_step; [apply read_quiet|done|]. intros b. destruct (_ || _); [by apply rg_ret|].
  eapply rg_bind; [apply getP_ok|]. intros [hash|].
  - apply ok_step; [apply read_quiet|done|]. intros matched. by apply rg_ret.
  - apply ok_step; [apply enqueue_quiet|done|]. intros []. by apply rg_ret.
Qed.
Lemma handleInlineIOCBlockP_ok ev : T (Event.Timestamp ev) → goes (handleInlineIOCBlockP p ev).
Proof.
  intros Ht. unfold handleInlineIOCBlockP. cbv zeta. destruct (_ && _); [by apply rg_ret|].
  apply state_step; [done|]. intros st Hst. apply (check_step (Event.TGID ev)).
  { by apply (P_prune p (Sc := Sc) (T := T)). }
  intros [] st' Hst'; [by apply put_ok|]. apply put_step; [by apply (P_ioc p (Sc := Sc) (T := T))|]. intros _.
  eapply rg_bind; [apply emitAlertP_ok|]. intros [].
  eapply rg_post; [apply quiet_ok; [apply count_quiet|auto with go]|done].
Qed.
Lemma blockP_ok tgid st : PS tgid st → goes (blockP p options tgid st).
Proof.
  intros Hst. unfold blockP. cbv zeta. apply rg_bind with (Q := λ _, always); [|intros; eapply rg_post; [apply alertAndEnforceP_ok|done]].
  case_bool_decide; [by apply rg_ret|]. apply aside_step; [apply orNow_advances| |done|].
  { intros a0. exact (orNow_keeps p PS Sc T (aside a0) _). }
  intros t. apply put_step; [by apply setBlocked_PS|]. intros _. by apply rg_ret.
Qed.
Lemma decide_actionP_ok ev st : PS (Event.TGID ev) st → goes (decide_actionP p options ev st).
Proof.
  intros Hst. unfold decide_actionP. apply (check_step (Event.TGID ev)); [done|]. intros b st1 Hst1.
  assert (goes (atom (putState (Event.TGID ev) st1) ;;
    whenP (Policy.Threshold p <=? procState.Score st1)
      ('(blocked, st) ← atom (checkBlocked p st1 (Event.Timestamp ev));
       atom (putState (Event.TGID ev) st) ;; whenP (negb blocked) (blockP p options (Event.TGID ev) st)))) as Hk.
  { apply put_step; [done|]. intros _. apply (rg_when _ _ _ _ always); [done|]. intros _.
    apply (check_step (Event.TGID ev)); [done|]. intros b2 st2 Hst2. apply put_step; [done|]. intros _.
    apply (rg_when _ _ _ _ always); [done|]. intros _. by apply blockP_ok. }
  destruct (matchRule p st1) as [[reason action]|], b; try exact Hk. cbv zeta.
  apply put_step; [|intros _; eapply rg_post; [apply alertAndEnforceP_ok|done]]. apply (P_reason p (Sc := Sc) (T := T)).
  case_bool_decide; [done|by apply setBlocked_PS].
Qed.
Lemma handleScoredP_ok ev sc reason :
  T (Event.Timestamp ev) → Sc sc → goes (handleScoredP p options ev sc reason).
Proof.
  intros Ht Hs. unfold handleScoredP. apply state_step; [done|]. intros st Hst.
  apply ok_step; [by apply world_quiet; [apply advances_get|]|done|]. intros a. cbv zeta.
  by apply decide_actionP_ok, (P_scored p (Sc := Sc) (T := T)), (P_prune p (Sc := Sc) (T := T)).
Qed.
Lemma handleIOCP_ok ev reason : T (Event.Timestamp ev) → goes (handleIOCP p options ev reason).
Proof.
  intros Ht. unfold handleIOCP. apply state_step; [done|]. intros st Hst.
  apply ok_step; [by apply world_quiet; [apply advances_get|]|done|]. intros a. cbv zeta.
  apply put_step; [|intros _; eapply rg_post; [apply alertAndEnforceP_ok|done]].
  by apply (P_ioc p (Sc := Sc) (T := T)), (P_features p (Sc := Sc) (T := T)), (P_prune p (Sc := Sc) (T := T)).
Qed.
Lemma scoreP_ok ev : exec_ok Ev ev → ok (scoreP p ev) always (λ r n a, always n a ∧ Sc r.1).
Proof.
  intros HE. unfold scoreP. destruct (Z.eqb_spec (Event.Type_ ev) EventExec) as [Hty|Hty].
  - eapply rg_bind; [by apply blockedLineageP_ok|]. intros b. apply rg_ret; [auto with go|]. intros n a _ _.
    split; [done|]. pose proof (lineage_ok p (P := PS) (T := T) b). by destruct b.
  - destruct (score_private ev Hty). by apply (private_ok _ (λ r, Sc r.1)).
Qed.
Lemma detectP_ok ev :
  T (Event.Timestamp ev) → exec_ok Ev ev → goes (detectP p options procReader ev).
Proof.
  intros Ht HE. unfold detectP. eapply rg_bind; [apply blacklistedEventP_ok|]. intros [[] hash]; [apply enforceBlacklistP_ok|].
  apply aside_step; [apply exempt_advances| |done|]. { intros a0. exact (exempt_keeps p procReader PS Sc T (aside a0) ev). }
  intros []; [by apply rg_ret|]. destruct (negb _); [by apply handleIOCP_ok|].
  eapply rg_bind; [by apply scoreP_ok|]. intros [sc reason]. apply rg_pure; [done|]. cbn [fst]. intros Hs.
  destruct (sc =? 0); [by apply rg_ret|by apply handleScoredP_ok].
Qed.
Lemma handleUpdatedP_ok ev :
  T (Event.Timestamp ev) → exec_ok Ev ev → goes (handleUpdatedP p options procReader ev).
Proof.
  intros Ht HE. unfold handleUpdatedP. apply aside_step; [apply inPolicyCgroup_advances| |done|].
  { intros a0. apply inPolicyCgroup_keeps. }
  intros inside. destruct (negb inside); [by apply rg_ret|].
  apply rg_bind with (Q := λ _, always).
  { apply (rg_when _ _ _ _ always); [done|]. intros _. eapply rg_post; [|done].
    apply (private_ok _ (λ _, True)); [apply cacheExecInfo_advances| |done].
    intros a0. exact (keeps_yields _ _ (cacheExecInfo_keeps p procReader PS Sc T (aside a0) ev)). }
  intros []. destruct (_ && _); [by apply rg_ret|].
  apply rg_bind with (Q := λ (b : bool) n a, b = true → cause (Event.TGID ev) n a).
  { destruct (Z.eqb_spec (Event.Type_ ev) EventExec); [by apply blockedLineageP_ok|by apply rg_ret]. }
  intros b. destruct b; cbn [andb].
  - apply rg_conseq with (P' := cause (Event.TGID ev)); [auto with go|intros n a _ Ha; by apply Ha|].
    destruct (negb _); [eapply rg_post; [apply enforceTGIDP_ok|done]|].
    apply rg_conseq with (P' := always); [auto with go|done|by apply detectP_ok].
  - apply rg_conseq with (P' := always); [auto with go|done|by apply detectP_ok].
Qed.
Lemma handleP_ok ev : exec_ok Ev ev → goes (handleP p options procReader ev).
Proof.
  intros HE. unfold handleP. apply (private_step _ T); [apply orNow_advances| |done|].
  { intros a0. exact (orNow_ok p PS Sc T (aside a0) _). }
  intros t Ht. cbv zeta. destruct (_ =? EventBlock).
  { apply (rg_when _ _ _ _ always); [done|]. intros _. by apply handleInlineIOCBlockP_ok. }
  destruct (_ || _); [by apply rg_ret|].
  eapply private_step; [apply updateFD_advances|intros a0; apply updateFD_time, _|done|].
  intros [stop ev']. cbn. intros (Ht' & Hg & Hpp & Hty & _). destruct stop; [by apply rg_ret|].
  apply handleUpdatedP_ok; [by rewrite Ht'|]. unfold exec_ok in *. by rewrite Hg, Hpp, Hty.
Qed.
Lemma onSensor_aside (m : M K (option Z)) a0 :
  (∀ n k, marked (after m n k) = marked k) → keeps (aside a0) (onSensor m).
Proof.
  intros Hm n a [Ha Hp]. unfold after, onSensor. destruct (sensor a) as [k|] eqn:Hk; [|done].
  specialize (Hm n k). unfold after in Hm. destruct (m n k) as [[r n'] k']. split; [|exact Hp].
  rewrite <- Ha. unfold marks. cbn. rewrite Hk. cbn in Hm. by rewrite Hm.
Qed.
Lemma onSensor_advances (m : M K (option Z)) : advances m → advances (onSensor m).
Proof.
  intros Hm n a. unfold onSensor. destruct (sensor a) as [k|]; [|cbn; lia].
  specialize (Hm n k). by destruct (m n k) as [[r n'] k'].
Qed.
Lemma logRingbufDropsP_ok : goes (logRingbufDropsP (K := K)).
Proof.
  unfold logRingbufDropsP. apply aside_step; [apply onSensor_advances, RingbufDrops_advances| |done|].
  { intros a0. apply onSensor_aside, RingbufDrops_marked. }
  intros [drops|]; [|by apply rg_ret]. apply aside_step; [unfold ringbufDropDelta; advances_auto| |done|].
  { intros a0. unfold ringbufDropDelta. keeps_auto; by apply aside_mod. }
  intros delta. apply aside_step; [apply onSensor_advances, CaptureGaps_advances| |done|].
  { intros a0. apply onSensor_aside, CaptureGaps_marked. }
  intros [gaps|]; [|by apply rg_ret]. apply aside_step; [unfold captureGapDelta; advances_auto| |done|].
  { intros a0. unfold captureGapDelta. keeps_auto; by apply aside_mod. }
  intros delta'. by apply rg_ret.
Qed.
Lemma stepP_ok i : input_ok Ev i → goes (stepP p options procReader i).
Proof.
  intros Hi. destruct i; cbn [stepP].
  - by apply handleP_ok.
  - apply pruneIdleP_ok.
  - eapply rg_bind; [apply logRingbufDropsP_ok|]. intros r. by apply rg_ret.
  - apply aside_step; [unfold logMetrics, countMetrics; advances_auto| |done|intros; by apply rg_ret].
    intros a0. unfold logMetrics, countMetrics. keeps_auto; by apply aside_mod.
  - apply hashJobP_ok.
  - apply scanBlacklistOnceP_ok.
Qed.
Lemma runLoopP_ok signals : Forall (signal_ok Ev) signals → goes (runLoopP p options procReader signals).
Proof.
  induction 1 as [|s signals Hs _ IH]; cbn [runLoopP]; [by apply rg_ret|].
  destruct s as [i| | |[]|]; try (by apply rg_ret); try exact IH.
  eapply rg_bind; [by apply stepP_ok|]. intros []. exact IH.
Qed.

(** *** Indicators

    Where entries carry the TGID they are stored under. *)
Section indicators.
Hypothesis HPS : ∀ i st, PS i st → procState.TGID st = i.
Hypothesis HT : ∀ t, T t → t ≠ 0.
(** Process [tgid] was alerted on for [reason]. *)
Definition spotted (tgid : Z) (reason : string) (n : nat) (a : Agent K) : Prop :=
  ∃ al, inLog al n a ∧ alert.TGID al = tgid ∧ reason ∈ alert.Reasons al ∧ Policy.Threshold p ≤ alert.Score al.
Lemma spotted_stable tgid reason : stableA (spotted tgid reason).
Proof.
  intros n n' a a' HI (al & Hal & ?) Hn HR HI'. exists al. split; [|done].
  exact (inLog_stable al n n' a a' HI Hal Hn HR HI').
Qed.
Lemma handleIOCP_spots ev reason :
  T (Event.Timestamp ev) →
  ok (handleIOCP p options ev reason) always (λ _, spotted (Event.TGID ev) reason).
Proof.
  intros Ht. unfold handleIOCP. apply state_step; [done|]. intros st Hst.
  apply ok_step; [by apply world_quiet; [apply advances_get|]|done|]. intros a. cbv zeta.
  set (st' := recordIOC _ _ _ _ _ _ _ _). assert (PS (Event.TGID ev) st') as Hst'.
  { by apply (P_ioc p (Sc := Sc) (T := T)), (P_features p (Sc := Sc) (T := T)), (P_prune p (Sc := Sc) (T := T)). }
  apply put_step; [done|]. intros _. eapply rg_post; [apply alertAndEnforceP_ok|].
  intros _ n a' _ (al & Hal & Htg & Hre & Hsc). exists al. split_and!; [done| | |].
  - by rewrite Htg, (HPS _ _ Hst').
  - rewrite Hre. unfold st'. cbn. apply appendReason_elem. by right.
  - rewrite Hsc. unfold st'. cbn. lia.
Qed.
(** An event that is no exec is not looked up in the blacklist. *)
Lemma blacklistedEventP_other ev :
  Event.Type_ ev ≠ EventExec →
  ok (blacklistedEventP (K := K) ev) always (λ r n a, always n a ∧ r = (false, "")).
Proof.
  intros Hty%Z.eqb_neq. unfold blacklistedEventP. apply ok_step; [apply read_quiet|done|]. intros b.
  rewrite Hty. cbn [negb]. rewrite orb_true_r. cbn [orb]. by apply rg_ret.
Qed.
Lemma handleP_spots e reason t :
  file_indicator p e reason →
  ok (handleP p options procReader (e <| Event.Timestamp := t |>)) always
    (λ _, spotted (Event.TGID e) reason).
Proof.
  intros He. unfold handleP. apply (private_step _ T); [apply orNow_advances| |done|].
  { intros a0. exact (orNow_ok p PS Sc T (aside a0) _). }
  intros t' Ht'. cbv zeta. change ((e <| Event.Timestamp := t |>) <| Event.Timestamp := t' |>)
    with (e <| Event.Timestamp := t' |>). set (ev := e <| Event.Timestamp := t' |>).
  pose proof (indicator_plain p e reason t' He (HT _ Ht')) as Hpl. fold ev in Hpl.
  assert (Event.Type_ ev ≠ EventBlock ∧ Event.Type_ ev ≠ EventWrite ∧ Event.Type_ ev ≠ EventExec) as (Hb & Hw & Hx).
  { destruct (pf_type _ _ Hpl) as [->|[-> _]]; done. }
  rewrite (proj2 (Z.eqb_neq _ _) Hb), (proj2 (Z.eqb_neq _ _) (pf_phase _ _ Hpl)), (proj2 (Z.eqb_neq _ _) Hw). cbn [orb andb].
  apply (private_step _ (λ r, r = (false, ev))); [apply updateFD_advances| |done|].
  { intros a0 n a Ha. split; [by apply (updateFD_keeps (aside a0))|]. destruct (updateFD_plain p ev n a Hpl) as [f Hf].
    unfold result. by rewrite Hf. }
  intros ? ->. unfold handleUpdatedP.
  apply (private_step _ (λ b, b = true)); [apply inPolicyCgroup_advances| |done|].
  { intros a0. unfold inPolicyCgroup. rewrite (pf_cgroup _ _ Hpl). by apply yields_ret. }
  intros ? ->. cbn [negb]. rewrite (proj2 (Z.eqb_neq _ _) Hx). cbn [andb whenP andP mbind Prog_bind bindP mret Prog_ret].
  unfold detectP. eapply rg_bind; [by apply blacklistedEventP_other|]. intros r. apply rg_pure; [done|]. intros ->.
  apply (private_step _ (λ b, b = false)); [apply exempt_advances| |done|].
  { intros a0 n a Ha. split; [exact (exempt_keeps p procReader PS Sc T (aside a0) ev n a Ha)|].
    unfold exempt, isTrustedEvent. rewrite (pf_untrusted _ _ Hpl). reflexivity. }
  intros ? ->. destruct (indicator_recognised p e reason (fi_ioc _ _ _ He)) as [Hioc Hne].
  change (immediateIOC p ev) with (immediateIOC p e). rewrite Hioc, bool_decide_eq_false_2 by done. cbn [negb]. exact (handleIOCP_spots ev _ Ht').
Qed.
(** The loop of [Run] up to an indicator and beyond it. *)
Lemma runLoopP_spots l e reason t r :
  Forall (signal_ok Ev) (l ++ SigInput (InEvent (e <| Event.Timestamp := t |>)) :: r) →
  Forall (λ sig, ending sig = 0%nat) l → file_indicator p e reason →
  ok (runLoopP p options procReader (l ++ SigInput (InEvent (e <| Event.Timestamp := t |>)) :: r)) always
    (λ _, spotted (Event.TGID e) reason).
Proof.
  intros Hok Hl He. induction Hl as [|sig l Hs _ IH]; cbn [app runLoopP stepP].
  - eapply rg_bind; [by apply handleP_spots|]. intros []. inversion_clear Hok as [|? ? _ Hr].
    set (F := spotted (Event.TGID e) reason).
    apply rg_conseq with (P' := λ n a, always n a ∧ F n a); [apply spotted_stable|done|].
    eapply rg_post; [apply rg_frame; [apply spotted_stable|by apply runLoopP_ok]|]. by intros ? n a _ [].
  - inversion_clear Hok as [|? ? Hsig Hrest]. specialize (IH Hrest). destruct sig as [i| | |[]|]; try done.
    eapply rg_bind; [by apply stepP_ok|]. intros []. exact IH.
Qed.
End indicators.

(** The three goroutines; [Q] holds when that of [Run] has ended. *)
Lemma agent_pool_ends signals rounds scans n a Q :
  ok (runLoopP p options procReader signals) always (λ _, Q) → stableA Q → sharedInv a →
  pool_ok sharedInv guarantee [Q; always; always] (agentPool p options procReader signals rounds scans n a).
Proof.
  intros Hl HQ HI. split; [done|]. repeat constructor; exists always; split; try done.
  - eapply rg_bind; [exact Hl|]. intros r. by apply rg_ret.
  - apply (rg_for _ _ _ _ always); [done|]. intros _ _. apply hashJobP_ok.
  - apply (rg_for _ _ _ _ always); [done|]. intros _ _. apply scanBlacklistOnceP_ok.
Qed.
Lemma agent_pool_ok signals rounds scans n a :
  Forall (signal_ok Ev) signals → sharedInv a →
  pool_ok sharedInv guarantee [always; always; always] (agentPool p options procReader signals rounds scans n a).
Proof. intros Hj. apply agent_pool_ends; [by apply runLoopP_ok|done]. Qed.
End interleaving.

Section agent.
Context `{Unicode} `{World} `{NetIP} `{SensorLaws K}.
Context (p : Policy) (options : Options) (procReader : option (Z → nat → option procInfo)).
Abbreviation pool signals rounds scans n a := (agentPool p options procReader signals rounds scans n a).

Lemma execs_ok signals : Forall (signal_ok (execs signals)) signals.
Proof. apply Forall_forall. intros [[]| | | |] Hin; try done. intros Hty. by exists ev. Qed.
Lemma untouched_audited Ev (a : Agent K) : marks a = ∅ → killed a = [] → blocked a = ∅ → audited Ev a.
Proof. intros Hm Hk Hb t. rewrite Hm, Hk, Hb. set_solver. Qed.
(** Nothing is asked of the tracked processes. *)
Lemma any_pool_ok signals rounds scans n a :
  audited (execs signals) a → bounded (hashes a) → (length (hashQueue a) ≤ hashQueueCap)%nat →
  pool_ok (sharedInv (execs signals) (λ _ _, True)) (guarantee p options)
    [λ _ _, True; λ _ _, True; λ _ _, True] (pool signals rounds scans n a).
Proof.
  intros Ha Hh Hq. eapply (agent_pool_ok _ _ _ _ _ (λ _, True) (λ _, True)); [apply execs_ok|].
  by split_and!.
Qed.

(** C4: The goroutines of the agent act only with a logged cause, however their
    critical sections interleave: starting with nobody marked, killed or
    remembered, in every state of every interleaving of [Run] with the two
    workers, also in the middle of handling an event, each process that is
    marked in the kernel, killed or remembered as blocked has been alerted on,
    or reaches such a process through exec events. *)
Theorem interleaved_actions_justified signals rounds scans n a w :
  marks a = ∅ → killed a = [] → blocked a = ∅ → bounded (hashes a) → hashQueue a = [] →
  rtc pool_step (pool signals rounds scans n a) w →
  ∀ t, t ∈ dom (marks (shared w)) ∨ t ∈ killed (shared w) ∨ t ∈ dom (blocked (shared w)) →
    justified (alerted (shared w)) (execs signals) t.
Proof.
  intros Hm Hk Hb Hh Hq Hr.
  destruct (pool_invariant _ _ _ _ w (any_pool_ok signals rounds scans n a (untouched_audited _ a Hm Hk Hb) Hh
    ltac:(rewrite Hq; apply Nat.le_0_l)) Hr) as [[Ha _] _]. exact Ha.
Qed.

(** C13: A fresh block is never lost to an expiry check: in every interleaving of
    the goroutines, a step that removes the entry of a blocked process removes
    it only when, by a reading of the clock before that step, more than the
    TTL had passed since that very entry was written.  An entry another
    goroutine renews between the check and the removal stays.  No step takes an
    alert back. *)
Theorem interleaved_block_kept signals rounds scans n a w w' :
  audited (execs signals) a → bounded (hashes a) → (length (hashQueue a) ≤ hashQueueCap)%nat →
  rtc pool_step (pool signals rounds scans n a) w → pool_step w w' →
  alerts (shared w) `prefix_of` alerts (shared w')
  ∧ ∀ t seen, blocked (shared w) !! t = Some seen → seen ≠ 0 → blocked (shared w') !! t = None →
      ∃ j, (j < queries w)%nat ∧ Policy.BlockTTL p < Sub (time_Now j) seen.
Proof.
  intros Ha Hh Hq Hr Hs.
  destruct (pool_invariant _ _ _ _ w (any_pool_ok signals rounds scans n a Ha Hh Hq) Hr) as [_ HR].
  destruct (HR w' Hs) as (? & _ & ?). done.
Qed.

(** C25: In dry-run mode no goroutine acts on a process: whatever events, timers,
    queued jobs and scans there are and however they interleave, no process
    is marked in the kernel and none is killed. *)
Theorem interleaved_dry_run_safe signals rounds scans n a w :
  Options.DryRun options = true →
  audited (execs signals) a → bounded (hashes a) → (length (hashQueue a) ≤ hashQueueCap)%nat →
  rtc pool_step (pool signals rounds scans n a) w →
  marks (shared w) = marks a ∧ killed (shared w) = killed a.
Proof.
  intros Hdry Ha Hh Hq Hr. set (Q := λ a a' : Agent K, marks a' = marks a ∧ killed a' = killed a).
  assert (PreOrder Q) by (split; [done|intros x y z [? ?] [? ?]; split; congruence]).
  refine (pool_relation _ _ Q _ _ _ _ (any_pool_ok signals rounds scans n a Ha Hh Hq) Hr).
  intros i a1 a2 (_ & HR & _). by apply HR.
Qed.

(** C9: In every state of every interleaving, from a new agent on, each tracked
    process satisfies its invariant (at most 256 recent events, 4096 history
    events and 4096 tracked paths, features that count those paths, and a
    score between the sum over the window and that sum plus the threshold),
    the hash queue holds at most 1024 jobs and the digest cache at most 4096
    entries.  Scores are at most 2^39 and the threshold at most 2^40
    ([scores_small]): [normalize] sets no upper bound, and with larger ones the
    64-bit sums may wrap around. *)
Theorem interleaved_invariant `{!ClockLaws} s n0 signals rounds scans n w :
  scores_small p → (∀ k, s = Some k → marked k = ∅) →
  rtc pool_step (pool signals rounds scans n (result (New p s) n0 ())) w → agent_inv p (shared w).
Proof.
  intros Hp Hs Hr. set (a := result (New p s) n0 ()) in *. destruct (New_inv p s n0) as [Hi Hq Hh].
  assert (audited (execs signals) a) as Ha.
  { apply untouched_audited; unfold a, New, result, mbind, M_bind;
      destruct (newBlacklist _ _ n0 ()) as [[bl n'] u]; [|done|done].
    destruct s as [k|]; [|done]. by apply Hs. }
  destruct (pool_invariant (sharedInv (execs signals) (entry_inv p)) (guarantee p options)
    [λ _ _, True; λ _ _, True; λ _ _, True]
    (pool signals rounds scans n a) w) as [(_ & ? & ? & ?) _]; [|done|by split].
  eapply (agent_pool_ok _ _ _ _ _ WindowTheory.score_ok (λ t, t ≠ 0)); [apply execs_ok|]. by split_and!.
  Unshelve. by apply proc_inv_stable.
Qed.
End agent.
