(* ===== verification/Detection.v ===== *)
(** * From a record to an alert, in every interleaving

    The reading goroutine of the sensor, the goroutine of [Run] and its two
    workers together: Pipeline.v and EndToEnd.v for the way of a record to
    [Run], Interleaving.v for what [Run] does while the workers run. *)
From S2P Require Import Prelude GoStrings GoPath GoTime Config World Event Scope Network Window.
From S2P Require Import WindowTheory Sha256 HashCache Blacklist Interface Agent AgentTheory.
From S2P Require Import AgentSafety AgentInv AgentProps Pipeline EndToEnd Threads Workers Interleaving.

Import Agent.

Section detection.
Context `{Unicode} `{World} `{!ClockLaws} `{FloatSeconds} `{NetIP} `{SensorLaws K}.
Context (native : ByteOrder).
Context (p : Policy) (options : Options) (procReader : option (Z → nat → option procInfo)).

(** What a new agent has. *)
Lemma New_fresh (s : option K) n :
  let a := result (New p s) n () in
  procs a = ∅ ∧ blocked a = ∅ ∧ killed a = [] ∧ bounded (hashes a) ∧ hashQueue a = [] ∧ sensor a = s.
Proof.
  destruct (New_inv p s n) as [_ _ Hh]. revert Hh. unfold New, result, mbind, M_bind.
  destruct (newBlacklist _ _ n ()) as [[bl n'] u]. cbn. by intros.
Qed.

(** C2: Nothing that reaches user space is missed, however the goroutines of the
    sensor and of the agent interleave: once every record read so far has been
    received, [Run] can finish with what it received from wherever the agent is,
    whatever rounds the workers make, and when it has, every version 2 record
    read, in either byte order and with any padding, that shows an indicator
    has been alerted on, with its process, its reason and a score at or above
    the threshold.  The agent starts with nobody marked in the kernel; the
    process name is not a trusted one, the policy is not limited to cgroups,
    an opened path is absolute and the operation did not fail
    ([file_indicator]). *)
Theorem record_always_alerted hasReader input0 c s read order e reason pad k n0 rounds scans n w :
  rtc (can_step native) (start hasReader input0 c) s →
  Pipeline.pc s = Reading → Pipeline.events s = [] → input0 = read ++ Pipeline.input s →
  ReadRecord (concat (wire_v2 order e) ++ pad) ∈ read →
  event_v2_wf e → (length pad ≤ 7)%nat → file_indicator p e reason → marked k = ∅ →
  rtc pool_step (agentPool p options procReader (Pipeline.received s) rounds scans n (result (New p (Some k)) n0 ())) w →
  (∃ w', rtc pool_step w w' ∧ threads w' !! 0%nat = Some (Ret ()))
  ∧ (threads w !! 0%nat = Some (Ret ()) →
     ∃ al, al ∈ alerts (shared w) ∧ alert.TGID al = Event.TGID e
       ∧ reason ∈ alert.Reasons al ∧ Policy.Threshold p ≤ alert.Score al).
Proof.
  intros Hr Hpc Hev Hread Hin Hwf Hpad He Hk Hw. split; [eapply pool_can_end; [|exact Hw]; reflexivity|]. intros Hend.
  destruct (record_handled native _ _ _ _ _ _ _ _ Hr Hpc Hev Hread Hin Hwf Hpad) as (t & l & r & Hrec & Hl).
  set (signals := Pipeline.received s) in *. set (own := λ tgid st, procState.TGID st = tgid).
  destruct (New_fresh (Some k) n0) as (Hp & Hb & Hki & Hh & Hq & Hs). set (a := result (New p (Some k)) n0 ()) in *.
  assert (ProcStable (K := K) p own (λ _, True) (λ t, t ≠ 0)) as HPS
    by (apply own_proc_stable; [done|apply time_Now_nonzero]).
  assert (sharedInv (execs signals) own a) as HI.
  { split; [apply untouched_audited; [unfold marks; by rewrite Hs|done|done]|].
    split_and!; [rewrite Hp; apply map_Forall_empty|done|rewrite Hq; apply Nat.le_0_l]. }
  pose proof (agent_pool_ends p options procReader (execs signals) own (λ _, True) (λ t, t ≠ 0)
    signals rounds scans n a (spotted p (Event.TGID e) reason)) as Hok.
  unshelve epose proof (Hok _ _ HI) as Hpool; [..|].
  - pose proof (execs_ok signals) as Hsig. clearbody signals. subst signals.
    by apply (runLoopP_spots p options procReader _ own (λ _, True) (λ t, t ≠ 0)).
  - apply spotted_stable.
  - exact (pool_ended _ _ _ _ w 0 _ Hpool Hw Hend eq_refl).
Qed.
End detection.
