(* ===== verification/Systemd.v ===== *)
(** * The systemd notifier: internal/systemd/notify.go

    The state is the list of datagrams sent, each with the address it was
    sent to.  The address family and the socket calls are the kernel's: an
    attempt to send succeeds or fails. *)
From S2P Require Import Prelude GoStrings GoTime World.

(** Whether a datagram is accepted. *)
Class Datagram : Type := send_ok : string → nat → bool.

Module Notifier.
Record Notifier := mkNotifier { socket : string; watchdog : Z }.
End Notifier.
Abbreviation Notifier := Notifier.Notifier.

(** [time.Duration(usec) * time.Microsecond] wraps around. *)
Definition parseWatchdogUsec (raw : string) : Z :=
  if bool_decide (raw = "") then 0
  else match ParseInt raw 64 with
       | None => 0
       | Some usec => if usec <=? 0 then 0 else int64 (usec * Microsecond)
       end.

Definition watchdogInterval (n : Notifier) : Z :=
  if Notifier.watchdog n <=? 0 then 0
  else
    let interval := Z.quot (Notifier.watchdog n) 2 in
    if interval <=? 0 then Millisecond else interval.

(** A leading [@] names the abstract socket namespace: a leading NUL. *)
Definition notifyAddr (socket : string) : string :=
  if HasPrefix socket "@" then String zero (TrimPrefix socket "@") else socket.

Section notifier.
Context `{Environ} `{Datagram}.
Abbreviation Sent := (list (string * string)).

Definition NewFromEnv : option Notifier :=
  let socket := os_Getenv "NOTIFY_SOCKET" in
  if bool_decide (socket = "") then None
  else Some (Notifier.mkNotifier socket (parseWatchdogUsec (os_Getenv "WATCHDOG_USEC"))).

(** [true] is a nil error. *)
Definition notify (n : Notifier) (state : string) : M Sent bool :=
  let addr := notifyAddr (Notifier.socket n) in
  ok ← ask (send_ok addr);
  when ok (modS (λ l, l ++ [(addr, state)])) ;;
  mret ok.
Definition Ready (n : Notifier) : M Sent bool := notify n "READY=1".

(** What the [select] of [StartWatchdog] receives: [true] is a tick, [false]
    the end of the context. *)
Fixpoint watchdogLoop (n : Notifier) (signals : list bool) : M Sent () :=
  match signals with
  | true :: signals => notify n "WATCHDOG=1" ;; watchdogLoop n signals
  | _ => mret ()
  end.
Definition StartWatchdog (n : Notifier) (signals : list bool) : M Sent () :=
  if watchdogInterval n <=? 0 then mret () else watchdogLoop n signals.

(** The watchdog is fed in time: when systemd asks for a timeout that fits a
    Go duration, the notifier sends its messages at a positive interval of at
    most half the timeout, so a ticker never panics and a tick may be lost
    without the service being killed.  Without a timeout, or with one that is
    no positive decimal number, it does not run. *)
Theorem watchdog_interval socket raw :
  let n := Notifier.mkNotifier socket (parseWatchdogUsec raw) in
  match ParseInt raw 64 with
  | Some usec =>
      (usec ≤ 0 → watchdogInterval n = 0)
      ∧ (0 < usec → usec * Microsecond ≤ maxInt64 →
         0 < watchdogInterval n ∧ 2 * watchdogInterval n ≤ usec * Microsecond
         ∧ usec * Microsecond ≤ 2 * watchdogInterval n + 1)
  | None => watchdogInterval n = 0
  end.
Proof.
  cbv zeta. unfold watchdogInterval, parseWatchdogUsec. cbn [Notifier.watchdog].
  case_bool_decide as Hr; [by subst|]. destruct (ParseInt raw 64) as [usec|]; [|done].
  destruct (Z.leb_spec usec 0); [split; [done|lia]|]. split; [lia|]. intros _ Hmax.
  change Microsecond with 1000 in *.
  rewrite int64_small by (unfold is_int64, minInt64; lia).
  destruct (Z.leb_spec (usec * 1000) 0); [lia|].
  rewrite Z.quot_div_nonneg by lia. pose proof (Z.div_mod (usec * 1000) 2).
  pose proof (Z.mod_pos_bound (usec * 1000) 2). destruct (Z.leb_spec (usec * 1000 / 2) 0); lia.
Qed.
End notifier.
