(* ===== verification/Main.v ===== *)
(** * The command line: cmd/ebpffls/main.go

    [run] and [monitor], which compose the configuration, the sensor, the
    notifier and the agent.  The file system and the YAML decoder, the flag
    parser, the environment and the libraries that load BPF objects are
    parameters. *)
From stdpp Require Import gmultiset.
From S2P Require Import Prelude GoStrings GoPath GoTime Config World Event Scope Network Window.
From S2P Require Import HashCache Blacklist Objects Interface Polling Sensor Loading Attach.
From S2P Require Import AttachTheory.
From S2P Require Import Agent AgentTheory AgentSafety Systemd.

(** The values of the three flags of [monitor]. *)
Module Flags.
Record Flags := mkFlags { config : list string; dry_run : bool; debug_events : bool }.
Definition defaults : Flags := mkFlags ["configs/ransomware.yaml"] true false.
End Flags.
Abbreviation Flags := Flags.Flags.

(** The library pflag: the flags an argument list gives, from their defaults;
    [None] is an error.  No argument leaves the defaults. *)
Class FlagParser : Type := flags_Parse : Flags → list string → option Flags.
Class FlagLaws `{FlagParser} : Prop := flags_Parse_nil d : flags_Parse d [] = Some d.

Inductive MainError :=
  | ErrUnknownCommand (command : string) | ErrParse | ErrConfig (err : ConfigError)
  | ErrAction (action : string) | ErrSensor (err : InitError).

(** What a run of [monitor] did: the policy it loaded, the sensor it started,
    the agent when [Run] returned and what it returned. *)
Module Session.
Record Session := mkSession {
  policy : Policy; options : Options; started : Sensor; final : Agent Sensor; outcome : Outcome }.
End Session.
Abbreviation Session := Session.Session.

(** The host's side: links and open handles, and the datagrams sent. *)
Module Machine.
Record Machine := mkMachine { host : gmultiset Link * nat; sent : list (string * string) }.
#[export] Instance eta_Machine : Eta Machine := λ m, mkMachine (host m) (sent m).
End Machine.
Export (hints) Machine.
Abbreviation Machine := Machine.Machine.

Section main.
Context `{Unicode} `{CIDR} `{World} `{NetIP} `{FloatSeconds} `{KernelCounters} `{Kernel} `{Closing}.
Context `{Environ} `{ObjectFiles} `{Datagram} `{FlagParser}.
Context (ReadFile : string → option string) (Decode : string → option Policy).
(** What the select loop of [Run] and that of the watchdog receive. *)
Context (signals : list Signal) (ticks : list bool).
Import Machine.

Definition onHost {A} (m : M (gmultiset Link * nat) A) : M Machine A :=
  zoom host (λ h x, x <| host := h |>) m.
Definition onSent {A} (m : M (list (string * string)) A) : M Machine A :=
  zoom sent (λ l x, x <| sent := l |>) m.
(** Run a component that lives only during the call. *)
Definition localM {S A} (s : S) (m : M S A) : M Machine (A * S) := λ n x,
  let '(a, n', s') := m n s in ((a, s'), n', x).

(** [s.Close()] of a sensor, on the host. *)
Definition closeSensor (s : Sensor) : M (gmultiset Link * nat) bool := λ n h,
  let '(ok, n', b) := Close n (Boot.mkBoot s h.1 h.2 None) in (ok, n', (Boot.live b, Boot.objects b)).

Definition supportedAction (action : string) : bool :=
  bool_decide (action = "log") || bool_decide (action = "deny") || bool_decide (action = "kill").

(** The notifier's goroutine shares nothing with the agent; its messages are
    the ones its ticks give. *)
Definition startNotifier : M Machine () :=
  match NewFromEnv with
  | None => mret ()
  | Some notifier => onSent (Ready notifier) ;; onSent (StartWatchdog notifier ticks)
  end.

Definition monitor (args : list string) : M Machine (MainError + Session) :=
  match flags_Parse Flags.defaults args with
  | None => mret (inl ErrParse)
  | Some flags =>
      match LoadMany ReadFile Decode (Flags.config flags) with
      | inl err => mret (inl (ErrConfig err))
      | inr policy =>
          if negb (supportedAction (Policy.Action policy)) then mret (inl (ErrAction (Policy.Action policy)))
          else
            s ← onHost (NewWithOptions policy (Flags.dry_run flags));
            match s with
            | inl err => mret (inl (ErrSensor err))
            | inr s =>
                startNotifier ;;
                let options := Options.mkOptions (Flags.dry_run flags) (Flags.debug_events flags) in
                '(a, _) ← localM () (New policy (Some s));
                '(outcome, a) ← localM a (Run policy options None signals);
                onHost (closeSensor (default s (Agent.sensor a))) ;;
                mret (inr (Session.mkSession policy options s a outcome))
            end
      end
  end.

(** [run]; [inr None] is the usage text. *)
Definition run (args : list string) : M Machine (MainError + option Session) :=
  match args with
  | [] => mret (inr None)
  | command :: args =>
      if bool_decide (command = "monitor") then
        res ← monitor args; mret (match res with inl err => inl err | inr s => inr (Some s) end)
      else if bool_decide (command ∈ ["help"; "-h"; "--help"]) then mret (inr None)
      else mret (inl (ErrUnknownCommand command))
  end.

(** ** Theorems *)

(** What no operation the agent uses changes. *)
Definition wiring (s : Sensor) := (Sensor.links s, Sensor.closer s, sensorMaps.InlineIOCAction (Sensor.maps s)).
Lemma block_wiring w tgid action ttl : keeps (λ s, wiring s = w) (Interface.BlockTGID tgid action ttl).
Proof.
  intros n s Hs. pose proof (BlockTGID_spec tgid action ttl n s) as Hb.
  unfold after, Interface.BlockTGID, Sensor_ops, mbind, M_bind.
  destruct (Sensor.BlockTGID tgid action ttl n s) as [[[e|] n'] s']; cbn.
  - by destruct Hb as [-> _].
  - by destruct Hb as (_ & expires & -> & _).
Qed.
Lemma run_wiring policy options w n (a : Agent Sensor) :
  wired (λ s, wiring s = w) a → wired (λ s, wiring s = w) (after (Run policy options None signals) n a).
Proof.
  intros Ha. refine (run_wired policy options None (λ s, wiring s = w) _ _ _ signals n a Ha).
  - apply block_wiring.
  - intros m s Hs. unfold after, Interface.RingbufDrops, Sensor_ops, RingbufDrops, mbind, M_bind, getS. by destruct (sensorMaps.RingbufDrops (Sensor.maps s)).
  - intros m s Hs. unfold after, Interface.CaptureGaps, Sensor_ops, CaptureGaps, mbind, M_bind, getS. by destruct (sensorMaps.CaptureGaps (Sensor.maps s)).
Qed.

Lemma startNotifier_host n m : host (after startNotifier n m) = host m.
Proof.
  unfold startNotifier. destruct NewFromEnv as [nt|]; [|done].
  unfold after, onSent, zoom, mbind, M_bind. destruct (Ready nt n (sent m)) as [[? n1] l1]. cbn.
  by destruct (StartWatchdog nt ticks n1 l1) as [[? ?] ?].
Qed.
Lemma New_sensor policy s n : Agent.sensor (result (New (K := Sensor) policy (Some s)) n ()) = Some s.
Proof. unfold result, New, mbind, M_bind. by destruct (newBlacklist _ _ n ()) as [[? ?] ?]. Qed.
(** What a run may leave on the host. *)
Definition restored (h h' : gmultiset Link * nat) : Prop :=
  h'.1 = h.1 ∧ (h.2 ≤ h'.2 ≤ h.2 + handlesOf ransomwareUltraLegacyObjects)%nat
  ∧ (closes_succeed → h' = h).
Lemma restored_refl h : restored h h.
Proof. split_and!; [done|lia|lia|done]. Qed.
Lemma closeSensor_host h s s' n :
  Sensor.links s' = Sensor.links s → Sensor.closer s' = Sensor.closer s →
  settled h (inr s) (h.1 ⊎ list_to_set_disj (Sensor.links s), (h.2 + handles (Sensor.closer s))%nat) →
  restored h (after (closeSensor s') n
    (h.1 ⊎ list_to_set_disj (Sensor.links s), (h.2 + handles (Sensor.closer s))%nat)).
Proof.
  intros Hl Hk [_ Hres]. pose proof (Close_started s s' n h Hl Hk Hres) as Hc.
  unfold after, closeSensor. cbn [fst snd]. destruct (Close n _) as [[ok n'] b'].
  destruct Hc as (Hlive & Hobj & Hok). split_and!; [done|apply Hobj|apply Hobj|].
  intros Ha. destruct h. cbn in *. rewrite Hlive, Hok; [done|by right].
Qed.

(** The end of [monitor], once the sensor [s] has started. *)
Lemma session_spec policy options s n1 n2 h (m : Machine) :
  settled h (inr s) (host m) →
  let a := result (New policy (Some s)) n1 () in
  let a' := after (Run policy options None signals) n2 a in
  ∀ n, (∃ s', Agent.sensor a' = Some s' ∧ wiring s' = wiring s)
    ∧ restored h (host (after (onHost (closeSensor (default s (Agent.sensor a')))) n m)).
Proof.
  intros Hm a a' n.
  destruct (run_wiring policy options (wiring s) n2 a) as (s' & Hs' & Hw); [exists s; split; [apply New_sensor|done]|].
  split; [by exists s'|]. fold a' in Hs'. rewrite Hs'. cbn [default from_option id].
  assert (Sensor.links s' = Sensor.links s ∧ Sensor.closer s' = Sensor.closer s) as [Hl Hk] by (injection Hw; done).
  pose proof Hm as [Hh _]. rewrite Hh in Hm. pose proof (closeSensor_host h s s' n Hl Hk Hm) as Hc.
  unfold after, onHost, zoom in *. rewrite Hh. by destruct (closeSensor s' n _) as [[ok n'] h'].
Qed.

(** Both facts about a whole run, from one walk through [monitor]. *)
Lemma monitor_spec args n m :
  let '(res, _, m') := monitor args n m in
  restored (host m) (host m') ∧ match res with
    | inl _ => True
    | inr ses => ∃ flags s' n1 n2 h1,
        flags_Parse Flags.defaults args = Some flags
        ∧ Session.options ses = Options.mkOptions (Flags.dry_run flags) (Flags.debug_events flags)
        ∧ result (NewWithOptions (Session.policy ses)
            (Flags.dry_run flags)) n h1 = inr (Session.started ses)
        ∧ Session.final ses = after (Run (Session.policy ses) (Session.options ses) None signals) n2
            (result (New (Session.policy ses) (Some (Session.started ses))) n1 ())
        ∧ Agent.sensor (Session.final ses) = Some s' ∧ wiring s' = wiring (Session.started ses)
    end.
Proof.
  pose proof (restored_refl (host m)). unfold monitor.
  destruct (flags_Parse Flags.defaults args) as [flags|] eqn:Hf; [|done].
  destruct (LoadMany ReadFile Decode (Flags.config flags)) as [err|policy]; [done|].
  destruct (negb (supportedAction (Policy.Action policy))); [done|].
  unfold mbind at 1, M_bind at 1, onHost at 1, zoom at 1.
  pose proof (NewWithOptions_settled policy (Flags.dry_run flags) n (host m)) as Hs.
  destruct (NewWithOptions policy (Flags.dry_run flags) n (host m)) as [[[err|s] n1] h1] eqn:Hn.
  { destruct Hs as (? & [? ?] & Hok). split; [|done]. split_and!; [done|done|done|]. intros. apply Hok. by right. }
  unfold mbind at 1, M_bind at 1. set (m1 := m <| host := h1 |>).
  pose proof (startNotifier_host n1 m1) as Hm2. unfold after in Hm2.
  destruct (startNotifier n1 m1) as [[[] n2] m2]. cbn in Hm2.
  unfold mbind at 1, M_bind at 1, localM at 1.
  set (options := Options.mkOptions _ _).
  pose proof (session_spec policy options s n2) as Hses. unfold result in Hses. cbv zeta in Hses.
  destruct (New policy (Some s) n2 ()) as [[a n3] []] eqn:HNew. cbn [fst] in Hses.
  unfold mbind at 1, M_bind at 1, localM at 1.
  specialize (Hses n3 (host m) m2). rewrite Hm2 in Hses. specialize (Hses Hs). unfold after in Hses.
  destruct (Run policy options None signals n3 a) as [[outcome n4] a'] eqn:HRun. cbn [snd] in Hses.
  specialize (Hses n4). destruct Hses as [(s' & Hs' & Hw) Hh].
  unfold mbind at 1, M_bind at 1.
  destruct (onHost _ n4 m2) as [[ok n5] m5].
  cbn in Hh |- *. split; [done|].
  exists flags, s', n2, n3, (host m). unfold result, after. cbn [Session.policy Session.options Session.started Session.final].
  rewrite Hn, HNew. cbn [fst snd]. rewrite HRun. by split_and!.
Qed.

(** C20: Whatever [monitor] meets, bad flags, a bad policy, a sensor that does not
    start, an agent that fails or is stopped, it leaves no program attached
    and, unless closing reports an error, no handle of a BPF program or map
    open; even then at most the handles of the oldest mode's object stay. *)
Theorem monitor_restores_host args n m :
  let h' := host (after (monitor args) n m) in
  h'.1 = (host m).1 ∧ ((host m).2 ≤ h'.2 ≤ (host m).2 + handlesOf ransomwareUltraLegacyObjects)%nat
  ∧ (closes_succeed → h' = host m).
Proof.
  pose proof (monitor_spec args n m) as Hm. unfold after.
  destruct (monitor args n m) as [[res n'] m']. by destruct Hm.
Qed.

(** C6: Without arguments the program only observes: it runs in dry-run mode, and
    when it ends no process has been killed, the kernel map of blocked
    processes is the one the objects came with and the kernel's own inline
    action is off. *)
Theorem monitor_observes_by_default `{!FlagLaws} n m ses :
  result (monitor []) n m = inr ses →
  Options.DryRun (Session.options ses) = true
  ∧ Agent.killed (Session.final ses) = []
  ∧ marks (Session.final ses) = Interface.marked (Session.started ses)
  ∧ ∃ s, Agent.sensor (Session.final ses) = Some s
    ∧ ∀ v, sensorMaps.InlineIOCAction (Sensor.maps s) = Some v → v = 0.
Proof.
  pose proof (monitor_spec [] n m) as Hm. unfold result.
  destruct (monitor [] n m) as [[res n'] m']. cbn. intros ->.
  destruct Hm as (_ & flags & s & n1 & n2 & h1 & Hf & Ho & Hn & Hfin & Hs & Hw).
  rewrite flags_Parse_nil in Hf. injection Hf as <-. cbn in Ho, Hn.
  assert (Options.DryRun (Session.options ses) = true) as Hdry by by rewrite Ho.
  set (a := result (New (Session.policy ses) (Some (Session.started ses))) n1 ()) in *.
  assert (marks a = Interface.marked (Session.started ses) ∧ Agent.killed a = []) as [Hm0 Hk0].
  { unfold a, marks. rewrite New_sensor. split; [done|]. unfold result, New, mbind, M_bind.
    by destruct (newBlacklist _ _ n1 ()) as [[? ?] ?]. }
  destruct (run_untouched (Session.policy ses) (Session.options ses) None Hdry (marks a) (Agent.killed a)
    signals n2 a) as [Hmk Hkl]; [done|].
  rewrite <- Hfin in Hmk, Hkl. split_and!; [done|by rewrite Hkl|by rewrite Hmk|]. exists s. split; [done|].
  destruct (NewWithOptions_started _ _ _ _ _ Hn) as (modes & _ & _ & _ & _ & value & _ & Hv).
  injection Hw as _ _ ->. exact Hv.
Qed.
End main.
