(* ===== verification/Scenarios.v ===== *)
(** * Concrete runs

    A host, a sensor and a policy on which the hypotheses of the theorems of
    the other files hold, with the theorems applied to them. *)
From S2P Require Import Prelude GoStrings GoPath GoTime Config World Event Scope Network Window.
From S2P Require Import WindowTheory Sha256 HashCache Blacklist Objects Interface Sensor Agent.
From S2P Require Import AgentTheory AgentSafety AgentInv AgentFD AgentProps AgentIdentity Threads Workers Interleaving.

(** ** A host *)
#[local] Instance demo_unicode : Unicode := id.
#[local] Instance demo_cidr : CIDR := λ s, bool_decide (s = "10.0.0.0/8").
#[local] Instance demo_netip : NetIP := {|
  ParsePrefix s := if bool_decide (s = "10.0.0.0/8") then Some (mkPrefix (Addr4 167772160) 8) else None;
  ParseAddr s := None |}.
#[local] Instance demo_seconds : FloatSeconds := λ s,
  if bool_decide (s = "1000.50") then Some 1000500000000 else None.
#[local] Instance demo_counters : KernelCounters := λ _ _, Some 7.
#[local] Instance demo_world : World := {|
  time_Now n := 1700000000000000000 + Z.of_nat n;
  os_ReadFile path _ := if bool_decide (path = "/proc/uptime") then Some "1000.50 12.25"
                        else if bool_decide (path = "/sys/devices/system/cpu/possible") then Some "0-1"
                        else if bool_decide (path = "/etc/hashes") then
                          Some ("BA7816BF8F01CFEA414140DE5DAE2223B00361A396177A9CB410FF61F20015AD tool" +:+ String "010" "12ab")
                        else None;
  os_Readlink _ _ := None;
  os_Stat path _ := if HasPrefix path "/data" then Some (FileInfo.mkFileInfo 3 17 1 42) else None;
  os_ReadDir _ _ := Some [];
  read_all path _ := if HasPrefix path "/data" then Some [97; 98; 99] else None;
  not_exist _ _ := true;
  map_order _ := 0%nat;
  map_Put_ok _ := true;
  os_Getpid := 1 |}.
#[local] Instance demo_clock : ClockLaws.
Proof. intros n. cbn. lia. Qed.

(** ** A policy *)
Definition demo_raw : Policy :=
  Policy.zero <| Policy.Name := "demo" |> <| Policy.Action := "Kill" |>
    <| Policy.ProtectedDirs := ["/data"] |> <| Policy.BackupDirs := ["/backup"] |>
    <| Policy.TrustedProcesses := ["tar"] |>
    <| Policy.SuspiciousExtensions := ["locked"] |>
    <| Policy.Rules := [Rule.mkRule "burst" "distinct_paths" ">=" 5 "block" ""] |>.
Definition demo_policy : Policy :=
  match normalize demo_raw with inr q => q | inl _ => Policy.zero end.
Example demo_policy_loads : normalize demo_raw = inr demo_policy.
Proof. vm_compute. reflexivity. Qed.

(** ** A sensor and an agent *)
Definition demo_sensor : Sensor :=
  Sensor.mkSensor (BundleCloser (mkBundle [82%nat] ∅))
    (sensorMaps.mkMaps None None true true (Some ∅) (Some ∅) (Some ∅) (Some ∅) (Some 0) (Some ∅) (Some 0) (Some ∅))
    ∅ [] None Core (EnforcementCapabilities.mkCaps "core" true true true [] []).
Definition demo_options : Options := Options.mkOptions false false.
Definition demo_agent : Agent Sensor := result (New demo_policy (Some demo_sensor)) 0 ().

Definition demo_event (type arg0 arg1 : Z) (path path2 : string) : Event :=
  Event.mkEvent 1700000000000000000 101 100 90 1000 type arg0 arg1 0 "worker" path path2
    2 PhaseAttempt SourceTracepoint 0 0 0 1 0 0 0 5000000000.
Definition demo_rename : Event := demo_event EventRename 0 0 "/data/a" "/data/a.locked".
Definition demo_write_open : Event := demo_event EventOpen 1 5 "/data/notes" "".

(** ** Configuration and decoding *)
Lemma normalize_wf_witness : policy_wf demo_policy.
Proof. apply (normalize_wf demo_raw demo_policy). vm_compute. reflexivity. Defined.

Lemma demo_event_wf : event_v2_wf demo_rename.
Proof.
  split; [split|..]; unfold is_uint64, is_uint32, is_int64, maxInt64, minInt64, c_str;
    apply (bool_decide_unpack _); vm_compute; exact I.
Qed.
Lemma DecodeEvent_wire_v2_witness :
  result (DecodeEvent LittleEndian (concat (wire_v2 BigEndian demo_rename) ++ [0; 0; 0; 0])) 0 None =
  Some (inr (demo_rename <| Event.Timestamp :=
    result (eventTimestamp (Event.MonotonicNS demo_rename)) 0 None |>)).
Proof. apply (DecodeEvent_wire_v2 LittleEndian BigEndian); [apply demo_event_wf|cbn; lia]. Defined.
Lemma DecodeEvent_wire_v1_witness :
  ∃ e, result (DecodeEvent LittleEndian (concat (wire_prefix LittleEndian demo_rename) ++ [])) 0 None
       = Some (inr e) ∧ Event.Path2 e = "/data/a.locked".
Proof.
  eexists. split; [apply (DecodeEvent_wire_v1 LittleEndian demo_rename []); [apply demo_event_wf|cbn; lia]|].
  reflexivity.
Defined.
Lemma eventTimestamp_spacing_witness :
  result (eventTimestamp 7000) 2 (after (eventTimestamp 5000) 0 None)
  - result (eventTimestamp 5000) 0 None = 2000.
Proof.
  apply (eventTimestamp_spacing 5000 7000 0 2 None); [|exact I|unfold maxInt64; lia|unfold maxInt64; lia].
  intros s d. unfold parse_seconds, demo_seconds. case_bool_decide; [|done]. intros [= <-].
  unfold is_int64, minInt64, maxInt64. lia.
Defined.
Lemma blank_extension_matches_witness :
  hasSuspiciousExtension (Policy.zero <| Policy.SuspiciousExtensions := [" "] |>) "/data/notes" = true.
Proof. apply (blank_extension_matches _ _ " "); [apply (bool_decide_unpack _)| |]; vm_compute; done. Defined.

(** ** The window *)
Definition demo_state : procState := procState.fresh 100 1700000000000000000.
Definition demo_tracked : procState :=
  recordScored demo_policy (λ _ _, "") demo_state demo_rename 18 "rename".
Lemma demo_consistent : consistent demo_policy demo_state.
Proof. split; [split|]; vm_compute; done. Qed.
Lemma demo_tracked_consistent : consistent demo_policy demo_tracked.
Proof.
  split; [split; vm_compute; reflexivity|]. apply (bool_decide_unpack _). vm_compute. exact I.
Qed.
Lemma recordScored_consistent_witness :
  consistent demo_policy (recordScored demo_policy (λ _ _, "") demo_state demo_rename 18 "rename").
Proof.
  apply (recordScored_consistent demo_policy);
    [vm_compute; done|constructor|cbn; lia|apply demo_consistent].
Defined.

(** ** Digests and blacklists *)
Lemma compute_current_witness :
  ∃ h, result (compute "/data/tool") 0 newHashCache = inr h
       ∧ current "/data/tool" 0 (compute "/data/tool" 0%nat newHashCache).1.2 h.
Proof.
  eexists. split; [vm_compute; reflexivity|].
  apply (compute_current "/data/tool" 0 newHashCache); [|vm_compute; reflexivity].
  apply map_Forall_empty.
Defined.
Definition demo_listed : blacklist := blacklist.mkBlacklist ["xyz"] ∅ ["/etc/hashes"; "/etc/missing"].
Lemma reload_matches_digest_witness :
  ∃ n' raws raw, files_read 0 ["/etc/hashes"; "/etc/missing"] n' raws
    ∧ raw ∈ ["xyz"] ++ raws ∧ ToLower (TrimSpace raw) = EncodeToString (sha256 [97; 98; 99]).
Proof.
  pose proof (reload_matches_digest 0 demo_listed) as Hr.
  destruct (reloadFiles 0%nat demo_listed) as [[err n'] b'] eqn:E.
  assert (err = None) as -> by (apply (f_equal (λ x, x.1.1)) in E; vm_compute in E; by symmetry).
  assert (matchHash b' (EncodeToString (sha256 [97; 98; 99])) = true) as Hm.
  { apply (f_equal snd) in E. cbn [snd] in E. rewrite <- E. vm_compute. reflexivity. }
  destruct (Hr eq_refl) as (raws & Hf & Hd). destruct (proj1 (Hd _) Hm) as (raw & Hin & Ht). exists n', raws, raw.
  split; [exact Hf|]. split; [exact Hin|exact Ht].
Defined.

(** ** The agent *)
Import Agent.
Definition demo_signals : list Signal :=
  [SigInput (InEvent demo_write_open); SigInput (InEvent demo_rename); SigInput InPrune; SigDone].
Definition dry_options : Options := Options.mkOptions true false.

Lemma dry_run_safe_witness :
  let a := after (Run demo_policy dry_options None demo_signals) 0 demo_agent in
  marks a = ∅ ∧ killed a = [] ∧ alerts a ≠ [].
Proof.
  destruct (dry_run_safe (K := Sensor) demo_policy dry_options None demo_signals 0 demo_agent) as [Hm Hk];
    [reflexivity|].
  cbv zeta. split; [rewrite Hm; vm_compute; reflexivity|]. split; [rewrite Hk; vm_compute; reflexivity|].
  vm_compute. discriminate.
Defined.
Lemma every_action_justified_witness :
  let a := after (Run demo_policy demo_options None demo_signals) 0 demo_agent in
  justified (alerted a) (execs demo_signals) 100.
Proof.
  apply (every_action_justified (K := Sensor) demo_policy demo_options None demo_signals 0 demo_agent);
    [vm_compute; reflexivity..|].
  right. left. apply (bool_decide_unpack _). vm_compute. exact I.
Defined.
Lemma alerts_counted_witness :
  counted (after (Run demo_policy demo_options None demo_signals) 0 demo_agent).
Proof. apply (alerts_counted (K := Sensor)). vm_compute. reflexivity. Defined.

Lemma demo_scores_small : scores_small demo_policy.
Proof. split; apply (bool_decide_unpack _); vm_compute; exact I. Qed.
Lemma agent_invariant_witness :
  agent_inv demo_policy (after (Run demo_policy demo_options None demo_signals) 0 demo_agent).
Proof.
  apply (agent_invariant (K := Sensor)); [apply demo_scores_small|].
  split; [apply map_Forall_empty|..]; apply (bool_decide_unpack _); vm_compute; exact I.
Defined.
Lemma handle_refines_fd_table_witness :
  lookupFD (after (handle demo_policy demo_options None demo_write_open) 0 demo_agent) 100 5 = "/data/notes".
Proof.
  destruct (handle_refines_fd_table (K := Sensor) demo_policy demo_options None demo_write_open 0 demo_agent)
    as (path & Hr & Hs).
  rewrite Hs. cbn in Hr. rewrite Hr. vm_compute. reflexivity.
Defined.

Lemma demo_own : own_entry demo_agent 100.
Proof. intros st. vm_compute. discriminate. Qed.
Lemma demo_plain : plain_file_event demo_policy demo_rename.
Proof. split; [vm_compute; discriminate|by left|vm_compute; discriminate|reflexivity|reflexivity]. Qed.
Lemma demo_renamed : indicator demo_policy demo_rename "protected rename to suspicious extension".
Proof.
  apply extension_given; [reflexivity|split; [vm_compute; discriminate|]|].
  - exists "/data". split_and!; [apply (bool_decide_unpack _); vm_compute; exact I|discriminate|].
    split_and!; [vm_compute; reflexivity|exists ["a.locked"]; vm_compute; reflexivity|left; vm_compute; reflexivity].
  - exists ".locked". split; [apply (bool_decide_unpack _); vm_compute; exact I|].
    split; [vm_compute; discriminate|vm_compute; reflexivity].
Qed.
Lemma demo_sensor_accepts m :
  result (Interface.BlockTGID 100 BlockActionKill (Policy.BlockTTL demo_policy)) m demo_sensor = true.
Proof. reflexivity. Qed.
Lemma ioc_detected_witness :
  let a := after (handle demo_policy demo_options None demo_rename) 0 demo_agent in
  marks a !! 100 = Some BlockActionKill ∧ killed a = [100].
Proof.
  destruct (ioc_detected (K := Sensor) demo_policy demo_options None demo_rename _ 0 demo_agent demo_plain demo_own
    demo_renamed) as (al & st & _ & _ & _ & _ & _ & _ & Hk).
  apply (Hk eq_refl eq_refl demo_sensor eq_refl). apply demo_sensor_accepts.
Defined.
Lemma scored_event_alerts_witness :
  let st := recordScored demo_policy (lookupFD demo_agent)
    (prune demo_policy (stateOf demo_agent demo_rename 1700000000000000000) 1700000000000000000)
    demo_rename 50 "test" in
  one_alert st demo_agent (after (handleScored demo_policy demo_options demo_rename 50 "test") 0 demo_agent).
Proof.
  intros st. assert (Event.Timestamp demo_rename ≠ 0) as Ht by (vm_compute; discriminate).
  pose proof (scored_event_alerts (K := Sensor) demo_policy demo_options demo_rename 50 "test" 0 demo_agent Ht) as H.
  assert (due demo_policy st (Event.Timestamp demo_rename) = true) as Hd by (vm_compute; reflexivity).
  cbv zeta in H. unfold st in *. change (Event.Timestamp demo_rename) with 1700000000000000000 in *.
  rewrite Hd in H. exact H.
Defined.
Lemma failed_event_ignored_witness :
  after (handle demo_policy demo_options None (demo_rename <| Event.Phase := PhaseFailure |>)) 0 demo_agent
  = demo_agent.
Proof.
  apply (failed_event_ignored (K := Sensor)); [vm_compute; discriminate|by left].
Defined.
Definition demo_exec : Event := demo_event EventExec 0 0 "/bin/sh" "".
Definition demo_blocking : Agent Sensor := demo_agent <| blocked := {[90 := 1700000000000000000]} |>
  <| Agent.blacklist := None |>.
Definition demo_forever : Policy := demo_policy <| Policy.BlockTTL := 0 |>.
Lemma blocked_lineage_killed_witness :
  Policy.BlockTTL demo_policy > 0
  ∧ killed (after (handle demo_policy demo_options None demo_exec) 0 demo_blocking) = [100].
Proof.
  split; [vm_compute; reflexivity|].
  apply (blocked_lineage_killed (K := Sensor) demo_policy demo_options None demo_exec 0 demo_blocking demo_sensor).
  - split; [vm_compute; discriminate|reflexivity|by split; vm_compute|reflexivity].
  - right. split; [vm_compute; discriminate|]. exists 1700000000000000000.
    split; [vm_compute; reflexivity|]. intros m Hm. right; right.
    destruct m as [|[|m]]; [vm_compute; discriminate|vm_compute; discriminate|lia].
  - reflexivity.
  - reflexivity.
  - intros m _. reflexivity.
Defined.
Lemma pruneIdle_keeps_live_witness :
  blocked (after (pruneIdle demo_policy 1700000300000000000) 0 demo_blocking) !! 90
  = Some 1700000000000000000.
Proof.
  apply (pruneIdle_keeps_live (K := Sensor) demo_policy 1700000300000000000 0 demo_blocking);
    vm_compute; [reflexivity|discriminate|discriminate].
Defined.
Lemma drop_deltas_total_witness : result (readDrops [3; 3; 10]) 0 demo_agent = 10.
Proof.
  rewrite (drop_deltas_total (K := Sensor) [3; 3; 10] 0 demo_agent); [vm_compute; reflexivity|..].
  - repeat constructor. by vm_compute.
  - intros [|[|[|i]]] x y; cbn; intros; simplify_eq; lia.
Defined.
(** Process 100 was a trusted [tar], then executes a program and renames a
    file. *)
Definition tar_info : procInfo := procInfo.mkProc 100 100 1000 "tar" "/usr/bin/tar" "/".
Definition trust_policy : Policy :=
  demo_policy <| Policy.TrustedUIDs := [1000] |> <| Policy.TrustedExePaths := ["/usr/bin"] |>.
Definition exec_signals : list Signal := [SigInput (InEvent (demo_rename <| Event.Comm := "tar" |>)); SigDone].
Lemma exec_invalidates_identity_witness :
  killed (after (runLoop trust_policy demo_options None (SigInput (InEvent demo_exec) :: exec_signals)) 0
    (demo_agent <| procInfos ::= <[100 := cachedProcInfo.mkCached tar_info 1 false]> |>)) = [100].
Proof.
  pose proof (exec_invalidates_identity (K := Sensor) trust_policy demo_options None demo_exec
    (cachedProcInfo.mkCached tar_info 1 false) exec_signals 0 demo_agent eq_refl ltac:(vm_compute; discriminate) eq_refl) as H.
  cbv zeta in H. unfold after.
  destruct (runLoop _ _ _ _ 0%nat demo_agent) as [[out n'] a'] eqn:E.
  assert (killed a' = [100]) as Hk by (apply (f_equal snd) in E; cbn [snd] in E; rewrite <- E; vm_compute; reflexivity).
  match type of H with context [runLoop ?p ?o ?r ?l 0%nat ?b] => set (b' := b) in *; change 100 with (Event.TGID demo_exec);
    fold b'; destruct (runLoop p o r l 0%nat b') as [[out2 n2] b2] end.
  destruct H as (_ & _ & -> & _). exact Hk.
Defined.
Definition demo_mmap : Event :=
  (demo_event EventMmap 7 0 "" "") <| Event.Comm := "tar" |>.
Definition demo_backup_open : Agent Sensor :=
  demo_agent <| fdPaths := {[(100, 7) := fdState.mkFd "/backup/db" 1]} |>.
Lemma trusted_backup_mmap_exempt_witness :
  alerts (after (handle trust_policy demo_options (Some (λ _ _, Some tar_info)) demo_mmap) 0 demo_backup_open) = [].
Proof.
  apply (trusted_backup_mmap_exempt (K := Sensor) trust_policy demo_options (Some (λ _ _, Some tar_info)) demo_mmap 0
    demo_backup_open (fdState.mkFd "/backup/db" 1)); vm_compute; try reflexivity; discriminate.
Defined.

Lemma permanent_block_forgotten_witness :
  result (isBlocked demo_forever 90) 0 (after (pruneIdle demo_forever 1800000000000000000) 0 demo_blocking) = false.
Proof.
  pose proof (permanent_block_forgotten (K := Sensor) demo_forever 90 1700000000000000000 1800000000000000000 0
    demo_blocking) as H.
  unfold result. rewrite (proj2 (H ltac:(vm_compute; reflexivity) ltac:(lia) ltac:(vm_compute; reflexivity)
    ltac:(lia) ltac:(vm_compute; reflexivity))). reflexivity.
Defined.

(** ** Goroutines *)

(** Process 90 was blocked long ago; its executable is blacklisted and waits
    in the queue.  A child of it executes a program. *)
Definition abc_hash : string := EncodeToString (sha256 [97; 98; 99]).
Definition race_agent : Agent Sensor :=
  demo_agent <| blocked := {[90 := 1]} |>
    <| Agent.blacklist := Some (blacklist.mkBlacklist [] {[abc_hash]} []) |>
    <| hashQueue := [hashJob.mkJob 90 90 1 0 "evil" "/data/evil" "blacklisted exec"] |>
    <| alerts := [alert.mkAlert 1 "demo" "kill" false 90 90 1 0 "evil" 100 100 [] procFeatures.zero []] |>.
Definition race_signals : list Signal := [SigInput (InEvent demo_exec); SigInput InPrune].
Definition race_start : Pool (Agent Sensor) :=
  agentPool demo_policy demo_options None race_signals 1 1 0 race_agent.
(** The goroutine of [Run] finds the entry expired; before it takes the lock
    again, [hashWorker] renews the block. *)
Definition race_schedule : list nat := replicate 7 0%nat ++ replicate 16 1%nat.
Definition race_checked : Pool (Agent Sensor) := default race_start (runThreads race_schedule race_start).
Definition race_removed : Pool (Agent Sensor) := default race_start (runThread 0 race_checked).
Lemma default_ok {A} (d : A) (r : option A) : (if r is Some _ then true else false) = true → r = Some (default d r).
Proof. by destruct r. Qed.
Lemma race_reached : runThreads race_schedule race_start = Some race_checked.
Proof. apply default_ok. vm_cast_no_check (eq_refl true). Qed.
Lemma race_step : runThread 0 race_checked = Some race_removed.
Proof. apply default_ok. vm_cast_no_check (eq_refl true). Qed.
Lemma race_audited : audited (execs race_signals) race_agent.
Proof.
  intros t Ht. assert (t = 90) as ->.
  { revert Ht. replace (marks race_agent) with (∅ : gmap Z Z) by reflexivity.
    change (killed race_agent) with (@nil Z). change (blocked race_agent) with ({[90 := 1]} : gmap Z Z). set_solver. }
  constructor. eexists. split; [by left|reflexivity].
Qed.
Lemma interleaved_block_kept_witness :
  blocked (shared race_checked) !! 90 = Some 1700000000000000009
  ∧ is_Some (blocked (shared race_removed) !! 90)
  ∧ alerts (shared race_checked) `prefix_of` alerts (shared race_removed).
Proof.
  split; [vm_compute; reflexivity|]. split; [vm_compute; eauto|].
  apply (interleaved_block_kept (K := Sensor) demo_policy demo_options None race_signals 1 1 0 race_agent race_checked
    race_removed race_audited); [vm_compute; lia|vm_compute; lia|exact (runThreads_rtc _ _ _ race_reached)|].
  exists 0%nat. exact race_step.
Defined.
(** The same executable run by process 100 when nobody is blocked yet: the
    goroutine of [Run] queues it, [hashWorker] hashes it. *)
Definition found_agent : Agent Sensor :=
  demo_agent <| Agent.blacklist := Some (blacklist.mkBlacklist [] {[abc_hash]} []) |>.
Definition found_signals : list Signal := [SigInput (InEvent (demo_event EventExec 0 0 "/data/evil" ""))].
Definition found_start (options : Options) : Pool (Agent Sensor) :=
  agentPool demo_policy options None found_signals 1 1 0 found_agent.
Definition found_schedule : list nat := replicate 10 0%nat ++ replicate 16 1%nat.
Definition found_killed (options : Options) : Pool (Agent Sensor) :=
  default (found_start options) (runThreads found_schedule (found_start options)).
Lemma found_reached : runThreads found_schedule (found_start demo_options) = Some (found_killed demo_options).
Proof. unfold found_killed. apply default_ok. vm_cast_no_check (eq_refl true). Qed.
Lemma interleaved_actions_justified_witness :
  killed (shared (found_killed demo_options)) = [100]
  ∧ justified (alerted (shared (found_killed demo_options))) (execs found_signals) 100.
Proof.
  assert (killed (shared (found_killed demo_options)) = [100]) as Hk by (vm_compute; reflexivity). split; [exact Hk|].
  apply (interleaved_actions_justified (K := Sensor) demo_policy demo_options None found_signals 1 1 0 found_agent);
    [reflexivity|reflexivity|reflexivity|vm_compute; lia|reflexivity|exact (runThreads_rtc _ _ _ found_reached)|].
  right; left. rewrite Hk. by left.
Defined.
(** In dry-run mode the worker only alerts. *)
Definition found_logged : Pool (Agent Sensor) :=
  default (found_start dry_options) (runThreads (replicate 10 0%nat ++ replicate 12 1%nat) (found_start dry_options)).
Lemma logged_reached :
  runThreads (replicate 10 0%nat ++ replicate 12 1%nat) (found_start dry_options) = Some found_logged.
Proof. unfold found_logged. apply default_ok. vm_cast_no_check (eq_refl true). Qed.
Lemma interleaved_dry_run_safe_witness :
  length (alerts (shared found_logged)) = 1%nat ∧ killed (shared found_logged) = [].
Proof.
  split; [vm_compute; reflexivity|].
  apply (interleaved_dry_run_safe (K := Sensor) demo_policy dry_options None found_signals 1 1 0 found_agent found_logged);
    [reflexivity|by apply untouched_audited|vm_compute; lia|vm_compute; lia|exact (runThreads_rtc _ _ _ logged_reached)].
Defined.
(** A new agent in the middle of handling an indicator. *)
Definition alert_start : Pool (Agent Sensor) :=
  agentPool demo_policy demo_options None [SigInput (InEvent demo_rename)] 1 1 0 demo_agent.
Definition alert_logged : Pool (Agent Sensor) := default alert_start (runThreads (replicate 12 0%nat) alert_start).
Lemma alert_reached : runThreads (replicate 12 0%nat) alert_start = Some alert_logged.
Proof. apply default_ok. vm_cast_no_check (eq_refl true). Qed.
Lemma interleaved_invariant_witness :
  length (alerts (shared alert_logged)) = 1%nat ∧ agent_inv demo_policy (shared alert_logged).
Proof.
  split; [vm_compute; reflexivity|].
  apply (interleaved_invariant (K := Sensor) demo_policy demo_options None (Some demo_sensor) 0
    [SigInput (InEvent demo_rename)] 1 1 0 alert_logged demo_scores_small);
    [by intros k [= <-]|exact (runThreads_rtc _ _ _ alert_reached)].
Defined.
(** ** The sensor *)
Lemma syncSet_exact_witness : 1%nat = size ({[iocHash ".locked"]} : gset Z).
Proof.
  apply (syncSet_exact (λ v _, Some (iocHash v)) [".locked"; " "] 0 ∅ 1 3). vm_compute. reflexivity.
Defined.
Lemma cgroupFSPath_contained_witness :
  contains "/sys/fs/cgroup" (cgroupFSPath "/kube/../kube//pod1/.") .
Proof. apply (cgroupFSPath_contained "/kube/../kube//pod1/."). vm_compute. discriminate. Defined.

(** A host with a cgroup file system, but without the configured cgroup. *)
Definition bare_world : World := {|
  time_Now n := 1700000000000000000 + Z.of_nat n; os_ReadFile _ _ := None; os_Readlink _ _ := None;
  os_Stat path _ := if bool_decide (path = "/sys/fs/cgroup") then Some (FileInfo.mkFileInfo 0 0 1 1) else None;
  os_ReadDir _ _ := None; read_all _ _ := None; not_exist _ _ := true;
  map_order _ := 0%nat; map_Put_ok _ := true; os_Getpid := 1 |}.
Lemma unresolved_scope_disables_filter_witness :
  after (syncCgroupScope (H0 := bare_world) ["/kube/pod1"; "../etc"; " "]) 0 ({[7]}, 1) = (∅, 0).
Proof.
  pose proof (unresolved_scope_disables_filter (H0 := bare_world) ["/kube/pod1"; "../etc"; " "] 0 ({[7]}, 1)) as Hu.
  destruct (syncCgroupScope _ 0%nat ({[7]}, 1)) as [[res n'] t'] eqn:Hs.
  assert (res = Some 0%nat) as -> by (apply (f_equal (λ x, x.1.1)) in Hs; vm_compute in Hs; done).
  unfold after. rewrite Hs. cbn [snd]. refine (proj2 (Hu _ 0%nat eq_refl)). intros path j Hp Hne _.
  apply list_elem_of_In in Hp. destruct Hp as [<-|[<-|[<-|[]]]].
  - right. vm_compute. reflexivity.
  - left. vm_compute. reflexivity.
  - destruct Hne. vm_compute. reflexivity.
Defined.
