(* ===== verification/Deployment.v ===== *)
(** * A deployment

    The parameters of the files about the event readers, the start of the
    sensor, the pipeline and the command line, instantiated: a host whose
    kernel accepts every program, and a program started and stopped on it.
    The theorems of those files are applied to it. *)
From stdpp Require Import gmultiset.
From S2P Require Import Prelude GoStrings GoPath GoTime Config World Event Scope Network Window.
From S2P Require Import HashCache Blacklist Objects Interface Polling PollingTheory PollingRefine Sensor Loading.
From S2P Require Import Attach AttachTheory Coverage Hooks Agent AgentSafety AgentProps Pipeline EndToEnd Systemd Main.
From S2P Require Import Threads Workers Detection Scenarios.

#[local] Existing Instances demo_unicode demo_cidr demo_netip demo_seconds demo_counters demo_world demo_clock.

(** ** Two CPUs that share an events map *)

(** A slot of the guarded layout with a sequence number below 256. *)
Definition demo_slot (seq : Z) : list Z :=
  let word := [seq; 0; 0; 0; 0; 0; 0; 0] in word ++ replicate eventV2Size 0 ++ word.
#[local] Instance demo_polling : PollingMaps := {|
  cursor_Lookup cpu _ := if cpu =? 0 then Some 2 else Some 0;
  events_Lookup slot _ := if slot =? 0 then Some (demo_slot 1)
                          else if slot =? 1 then Some (demo_slot 2) else Some (demo_slot 0) |}.
Lemma demo_slot_bytes seq : 0 ≤ seq < 256 → Forall (λ b, 0 ≤ b < 256) (demo_slot seq).
Proof.
  intros Hs. unfold demo_slot. cbv zeta. rewrite !Forall_app. split_and!.
  - repeat constructor; lia.
  - apply Forall_replicate. lia.
  - repeat constructor; lia.
Qed.
#[local] Instance demo_polling_laws : PollingLaws.
Proof.
  split.
  - intros cpu n h. cbn. unfold is_uint64. case_match; intros [= <-]; lia.
  - intros slot n raw. cbn. repeat case_match; intros [= <-]; apply demo_slot_bytes; lia.
Qed.
Definition demo_events : MapInfo := mkMapInfo 16 slotSizeGuarded.
Definition demo_cursor : MapInfo := mkMapInfo 2 8.
Definition demo_reader : mapPollingEventReader := newMapPollingEventReader (Some demo_events) (Some demo_cursor).
Lemma demo_info : info_ok demo_events ∧ info_ok demo_cursor.
Proof. split; split; vm_compute; intuition discriminate. Qed.
Lemma demo_reader_wf : reader_wf demo_reader.
Proof.
  apply (newMapPollingEventReader_layout demo_events demo_cursor); [apply demo_info|apply demo_info|].
  vm_compute. reflexivity.
Qed.

Lemma polling_accounts_every_event_witness :
  let '(out, _, r') := readMany LittleEndian 3 0%nat demo_reader in
  mapPollingEventReader.lost r' = uint64 (tails (mapPollingEventReader.shards r')
    - Z.of_nat (length (mapPollingEventReader.pending r')) - Z.of_nat (length out)).
Proof.
  apply (polling_accounts_every_event LittleEndian demo_events demo_cursor 3 0);
    [apply demo_info|apply demo_info|vm_compute; reflexivity].
Defined.
Lemma pollBatch_terminates_witness :
  let '(err, _, r') := pollBatch LittleEndian 0%nat demo_reader in err ≠ Some ErrFuel.
Proof.
  pose proof (pollBatch_terminates LittleEndian 0 demo_reader demo_reader_wf) as Hb.
  destruct (pollBatch LittleEndian 0%nat demo_reader) as [[err n] r']. apply Hb. apply Nat.le_0_l.
Defined.
(** After the cursors were fetched CPU 0 has two events. *)
Definition demo_refreshed : mapPollingEventReader :=
  demo_reader <| mapPollingEventReader.shards := [pollingShard.mkShard 0 2; pollingShard.mkShard 0 0] |>.
Lemma demo_refreshed_wf : reader_wf demo_refreshed.
Proof.
  destruct demo_reader_wf as [_ Hc Hs Hn Hl]. split; [|done|done|done|done].
  repeat constructor; cbn; unfold is_uint64; lia.
Qed.
Lemma demo_sized : sized demo_refreshed.
Proof.
  assert (∀ seq, length (demo_slot seq) = (16 + eventV2Size)%nat) as Hl by done.
  intros slot k raw. unfold events_Lookup, demo_polling. repeat case_match; intros [= <-]; rewrite Hl; split; done.
Qed.
Lemma pollSlot_refines_consume_witness :
  ∃ r', consume LittleEndian 0 0 demo_refreshed r' true ∧ length (mapPollingEventReader.pending r') = 1%nat.
Proof.
  pose proof (pollSlot_refines_consume LittleEndian 0 0 demo_refreshed demo_refreshed_wf
    ltac:(repeat split; vm_compute; congruence) demo_sized) as Hc.
  destruct (pollSlot LittleEndian 0 0%nat demo_refreshed) as [[res n] r'] eqn:E.
  assert (res = inr true) as -> by (apply (f_equal (λ x, x.1.1)) in E; vm_compute in E; by symmetry).
  exists r'. split; [exact Hc|]. apply (f_equal snd) in E. cbn [snd] in E. rewrite <- E. vm_compute. reflexivity.
Defined.
Lemma slotIndex_in_shard_witness : slotIndex demo_refreshed 1 < 16.
Proof.
  apply (slotIndex_in_shard demo_refreshed 1 demo_refreshed_wf). split; vm_compute; congruence.
Defined.

(** ** A kernel with tracepoints and an overridable [openat] *)
#[local] Instance demo_closing : Closing := {| close_ok _ := true |}.
#[local] Instance demo_kernel : Kernel := {|
  attach_ok l _ := match l with
                   | Tracepoint _ _ _ => true
                   | Kprobe symbol _ => bool_decide (symbol = "__x64_sys_openat")
                   | _ => false
                   end;
  reader_ok _ _ := true; GOARCH := "amd64" |}.
Definition demo_maps : sensorMaps :=
  sensorMaps.mkMaps (Some demo_events) (Some demo_cursor) true true (Some ∅) (Some ∅) (Some ∅) (Some ∅)
    (Some 0) (Some ∅) (Some 0) (Some ∅).
(** The collections of the generated objects; the kernel's rename hook has
    four parameters. *)
Definition demo_spec (tags : list (string * string)) : gmap string bool :=
  list_to_map ((λ t, (t.1, HasPrefix t.1 "enforce_")) <$> tags).
#[local] Instance demo_objects : ObjectFiles := {|
  loadRansomware _ := Some (demo_spec ransomwareProgramTags);
  loadRansomwareLegacy _ := Some (demo_spec ransomwareLegacyProgramTags);
  NewCollection _ programs _ :=
    if bool_decide (programs = {["enforce_file_open"]}) then None else Some (13 + size programs)%nat;
  collectionMaps _ := demo_maps;
  loadRansomwareUltraLegacy _ := true;
  LoadAndAssign _ := Some demo_maps;
  btf_LoadSpec _ _ := None;
  btf_LoadKernelSpec _ := Some (Some 4) |}.
Definition demo_host : gmultiset Link * nat := (∅, 0%nat).
Definition deny_policy : Policy := demo_policy <| Policy.Action := "deny" |>.

(** The value of a computation that succeeds. *)
Definition succeeds {A B} (r : A + B) : bool := match r with inr _ => true | inl _ => false end.
Definition value_of {A B} (d : B) (r : A + B) : B := match r with inr x => x | inl _ => d end.
Lemma value_of_ok {A B} (d : B) (r : A + B) : succeeds r = true → r = inr (value_of d r).
Proof. by destruct r. Qed.

Definition auto_env : Environ := λ _, "".
Definition deny_sensor : Sensor :=
  value_of demo_sensor (result (NewWithOptions (H1 := auto_env) deny_policy false) 0 demo_host).
Lemma deny_sensor_starts : result (NewWithOptions (H1 := auto_env) deny_policy false) 0 demo_host = inr deny_sensor.
Proof. apply value_of_ok. vm_cast_no_check (eq_refl true). Qed.
Lemma deny_not_degraded_witness : Sensor.mode deny_sensor ≠ UltraLegacyMap.
Proof.
  apply (deny_not_degraded (H3 := auto_env) deny_policy false 0 demo_host deny_sensor);
    [left; vm_compute; reflexivity|reflexivity|apply deny_sensor_starts].
Defined.
Lemma deny_sensor_hooks : "openat" ∈ EnforcementCapabilities.OverrideHooks (Sensor.capabilities deny_sensor).
Proof. apply (bool_decide_unpack _). vm_cast_no_check I. Qed.
Lemma started_as_configured_witness :
  ∃ prog optional symbol, ("openat", prog, optional) ∈ kprobes ∧ symbol ∈ kprobeSymbols "openat" GOARCH
    ∧ Kprobe symbol prog ∈ Sensor.links deny_sensor.
Proof.
  destruct (started_as_configured (H3 := auto_env) deny_policy false 0 demo_host deny_sensor deny_sensor_starts)
    as (_ & _ & Ho & _). exact (proj2 (proj1 (Ho "openat") deny_sensor_hooks)).
Defined.
Lemma deny_sensor_core : Sensor.mode deny_sensor = Core.
Proof. vm_cast_no_check (eq_refl Core). Qed.
Lemma started_sees_required_witness : Tracepoint "sched" "sched_process_exec" "TraceExecSuccess" ∈ Sensor.links deny_sensor.
Proof.
  pose proof (started_sees_required (H3 := auto_env) deny_policy false 0 demo_host deny_sensor deny_sensor_starts) as H.
  rewrite deny_sensor_core in H. apply H; [|reflexivity]. apply (bool_decide_unpack _). vm_compute. exact I.
Defined.

(** ** The pipeline *)
Definition demo_record : list Z := concat (wire_v2 LittleEndian demo_rename).
Definition demo_input : list Read := [ReadRecord demo_record; ReadRecord [1; 2; 3]; ReadErr true].
Definition demo_start : Pipeline := start true demo_input None.
(** One record read, decoded, sent and handled. *)
Definition demo_handled : Pipeline :=
  default demo_start (schedule LittleEndian [Produce 0; Produce 0; Produce 0; RunEvents] demo_start).
Lemma demo_handled_reached :
  schedule LittleEndian [Produce 0; Produce 0; Produce 0; RunEvents] demo_start = Some demo_handled.
Proof. vm_compute. reflexivity. Qed.
Lemma pipeline_in_order_witness : (length (Pipeline.events demo_handled) ≤ eventsCap)%nat.
Proof.
  destruct (pipeline_in_order LittleEndian true demo_input None demo_handled
    (schedule_rtc _ _ _ _ demo_handled_reached)) as (raws & results & errors & dropped & _ & _ & _ & _ & _ & _ & Hl). exact Hl.
Defined.
Lemma demo_indicator : file_indicator demo_policy demo_rename "protected rename to suspicious extension".
Proof. split; [by left|vm_compute; discriminate|reflexivity|reflexivity|exact demo_renamed]. Qed.
Lemma demo_own_entries : own_entries demo_agent.
Proof. intros tgid st. by vm_compute. Qed.
Lemma record_alerted_witness :
  ∃ al, al ∈ Agent.alerts (after (runLoop demo_policy demo_options None (Pipeline.received demo_handled)) 0 demo_agent)
    ∧ alert.TGID al = 100.
Proof.
  destruct (record_alerted (K := Sensor) LittleEndian demo_policy demo_options None true demo_input None demo_handled
    [ReadRecord demo_record] LittleEndian demo_rename "protected rename to suspicious extension" [] 0 demo_agent
    (schedule_rtc _ _ _ _ demo_handled_reached)) as (al & Hin & Ht & _).
  - vm_compute. reflexivity.
  - vm_compute. reflexivity.
  - vm_compute. reflexivity.
  - rewrite app_nil_r. by left.
  - exact demo_event_wf.
  - cbn. lia.
  - exact demo_indicator.
  - exact demo_own_entries.
  - by exists al.
Defined.
(** An agent that handles what was received, its workers idle. *)
Definition alarm_start : Pool (Agent.Agent Sensor) :=
  agentPool demo_policy demo_options None (Pipeline.received demo_handled) 1 1 0
    (result (Agent.New demo_policy (Some demo_sensor)) 0 ()).
Definition alarm_schedule : list nat := replicate 15 0%nat.
Definition alarm_raised : Pool (Agent.Agent Sensor) := default alarm_start (runThreads alarm_schedule alarm_start).
Lemma alarm_reached : runThreads alarm_schedule alarm_start = Some alarm_raised.
Proof. apply default_ok. vm_cast_no_check (eq_refl true). Qed.
Definition ended {S} (t : option (Prog S ())) : bool := if t is Some (Ret ()) then true else false.
Lemma ended_ok {S} (t : option (Prog S ())) : ended t = true → t = Some (Ret ()).
Proof. by destruct t as [[[]|]|]. Qed.
Lemma record_always_alerted_witness :
  ∃ al, al ∈ Agent.alerts (shared alarm_raised) ∧ alert.TGID al = 100.
Proof.
  destruct (record_always_alerted (K := Sensor) LittleEndian demo_policy demo_options None true demo_input None
    demo_handled [ReadRecord demo_record] LittleEndian demo_rename "protected rename to suspicious extension" [] demo_sensor 0 1 1 0 alarm_raised
    (schedule_rtc _ _ _ _ demo_handled_reached)) as [_ Hal].
  - vm_compute. reflexivity.
  - vm_compute. reflexivity.
  - vm_compute. reflexivity.
  - rewrite app_nil_r. by left.
  - exact demo_event_wf.
  - cbn. lia.
  - exact demo_indicator.
  - reflexivity.
  - exact (runThreads_rtc _ _ _ alarm_reached).
  - destruct Hal as (al & Hin & Ht & _); [|by exists al].
    apply ended_ok. vm_cast_no_check (eq_refl true).
Defined.
(** The second record is too short. *)
Definition demo_failed : Pipeline := default demo_start (fire LittleEndian (Produce 0) demo_handled).
Lemma undecodable_record_stops_agent_witness :
  ∃ s3, fire LittleEndian RunErrs demo_failed = Some s3 ∧ Pipeline.outcome s3 = Failed.
Proof.
  destruct (undecodable_record_stops_agent LittleEndian true demo_input None demo_handled demo_failed [1; 2; 3] 0
    ErrShortEvent (schedule_rtc _ _ _ _ demo_handled_reached)) as [_ Hd]; try (vm_compute; reflexivity).
  apply (Hd demo_failed); [constructor|vm_compute; reflexivity].
Defined.
Definition demo_cancelled : Pipeline := demo_handled <| Pipeline.cancelled := true |>.
Definition demo_stopped : Pipeline :=
  default demo_start (schedule LittleEndian [ProduceDone; RunDone] demo_cancelled).
Lemma cancel_ends_both_witness : Pipeline.pc demo_stopped = Returned ∧ Pipeline.outcome demo_stopped ≠ Running.
Proof.
  apply (cancel_ends_both LittleEndian [ProduceDone; RunDone] demo_cancelled demo_stopped);
    [vm_compute; reflexivity|vm_compute; reflexivity|].
  intros [] Ht; try discriminate Ht; vm_compute; reflexivity.
Defined.

(** ** The program, started without arguments on an old kernel *)
#[local] Instance old_kernel : Kernel := {|
  attach_ok _ _ := true; reader_ok _ _ := false; GOARCH := "amd64" |}.
#[local] Instance demo_env : Environ := λ name,
  if bool_decide (name = "NOTIFY_SOCKET") then "@notify"
  else if bool_decide (name = "EBPFFLS_BPF_MODE") then "ultra_legacy_map" else "".
#[local] Instance demo_datagram : Datagram := λ _ _, true.
#[local] Instance demo_flags : FlagParser := λ d args, if bool_decide (args = []) then Some d else None.
#[local] Instance demo_flag_laws : FlagLaws.
Proof. done. Qed.
Definition demo_read (_ : string) : option string := Some "".
Definition demo_decode (_ : string) : option Policy := Some demo_raw.
Definition demo_received : list Signal := [SigInput (InEvent demo_rename); SigDone].
Abbreviation demo_monitor := (monitor demo_read demo_decode demo_received [true; false] []).
Definition demo_machine : Machine := Machine.mkMachine demo_host [].
Definition demo_session : Session :=
  value_of (Session.mkSession demo_policy demo_options demo_sensor demo_agent Running)
    (result demo_monitor 0 demo_machine).
Lemma demo_session_runs : result demo_monitor 0 demo_machine = inr demo_session.
Proof. apply value_of_ok. vm_cast_no_check (eq_refl true). Qed.
Lemma monitor_observes_by_default_witness : Agent.killed (Session.final demo_session) = [].
Proof.
  apply (monitor_observes_by_default demo_read demo_decode demo_received [true; false] 0 demo_machine
    demo_session demo_session_runs).
Defined.
